(* ===== verification/_CoqProject ===== *)
-Q . S2P
Prelude.v
Wire.v
WireFacts.v
Assembly.v
AssemblyFacts.v
Api.v
Text.v
EndpointState.v
Endpoint.v
EndpointInv.v
EndpointSend.v
EndpointOps.v
EndpointRecv.v
EndpointTimer.v
EndpointLoops.v
Trace.v
System.v
Transfer.v
Behaviour.v
Lifecycle.v
Network.v
Net.v
Relay.v
RelayFacts.v
RelayLoops.v
RelayRun.v
VmCheck.v
VmCheckFacts.v
RawIP.v
RawIPFacts.v
PacketIO.v
Float64.v
Flag.v
Json.v
Bench.v
BenchFacts.v
Echo.v
EchoFacts.v
Process.v
EchoRun.v
BenchServe.v
BenchRun.v
VmRun.v
RelayProcess.v
LinuxPeer.v
LinuxPeerFacts.v
Guest.v
GuestFacts.v
Initramfs.v
InitramfsFacts.v
Summary.v
