(* ===== verification/Prelude.v ===== *)
(** * MacHoma: a verification of the userspace Homa transport

    The program is a userspace implementation of the Homa transport on native
    IPv4 (protocol 146), with tools around it.  Its parts, under src/:

    - internal/wire/wire.go parses and serializes Homa packets;
    - endpoint.go is the transport: an [Endpoint] keeps a map of RPCs under one
      lock, and its goroutines (reader, writer, timer, handlers, callers) take
      that lock for one critical section at a time;
    - api.go has the public types, and the interface [PacketIO] an endpoint
      sends and receives through;
    - rawip.go is the [PacketIO] on a raw IPv4 socket, and [Listen] an endpoint
      on it;
    - interop/vmcheck/main.go runs an endpoint against a QEMU guest, through a
      [PacketIO] that carries Ethernet frames on a stream socket;
    - interop/lanrelay/main.go forwards Homa packets between a LAN peer and such
      a guest;
    - cmd/homa-echo/main.go and cmd/homa-bench/main.go call an echo server and
      measure it, the second also over TCP;
    - interop/linux_peer.c is the client and server on the Linux kernel's Homa,
      interop/qemu/guest_init.c the first process of the guest that runs it, and
      interop/qemu/build_initramfs.py packs the guest's files;
    - scripts/summarize_benchmark.py summarises the reports of homa-bench.

    ** Conventions

    This file has them.  Go integers are values of [Z]; a conversion or an
    operation that can leave its width is written as a wrap ([u8] ... [u64],
    [swrap], [to_int]), and the width of [int] is a parameter ([GoPlatform]).  A
    byte string is a [list Z] with [bytes_ok].  In pure code [None] is a
    run-time panic and the left side of a sum a returned error.  Stateful code
    is in the monad [M S A]: it returns a value and a state, or stops in a
    fault, which is a panic, a channel operation that blocks under the lock, or
    a loop that ran out of its fuel.  [wp m Q s] is total correctness: from [s]
    the operation [m] does not fault and ends in [Q].  The tactics [wp_step],
    [wp_steps], [m_unfold] and [bool_to_prop] drive such proofs.

    ** The files

    - Wire, WireFacts: the module [wire] has the packet structs, [Parse],
      [Marshal], [ValidateBounds], [LocalID] of wire.go.
    - Assembly, AssemblyFacts: the receive buffer [assembly] and its bitmap, the
      loops of [Endpoint.data] and [Endpoint.requestMissing].
    - Api: addresses, errors, [Config] with [defaults], [Stats].  Text:
      [ParseAddr], [Addr.String] and the texts of errors.
    - EndpointState, Endpoint: the structs of endpoint.go, with RPC objects in a
      heap so that pointers and their identity are kept, and every method that
      runs under the lock.  A goroutine's body is cut at the points where it
      releases the lock.
    - EndpointInv: the invariant that holds whenever the lock is free.
      EndpointSend, EndpointOps, EndpointRecv, EndpointTimer, EndpointLoops:
      every operation keeps it and faults on no path.
    - Trace, System, Transfer, Behaviour: executions as arbitrary interleavings
      of critical sections, and the theorems about them.  Lifecycle: the three
      goroutines with their wait group, and [Close].  Network: many endpoints on
      a network that loses, repeats and reorders datagrams, with histories of
      the messages that callers sent and handlers answered.
    - Net, Relay, RelayFacts, VmCheck, VmCheckFacts: the stream and IPv4 code of
      the two interoperability tools, the modules [lanrelay] and [vmcheck].
      RelayLoops: the relay's two forwarding goroutines.  RelayRun: the checks,
      the log and the waiting loop of its [run].
    - RawIP, RawIPFacts: rawip.go and [Listen], the module [rawip].
    - PacketIO: the interface as a class with laws, its two instances, and an
      endpoint together with its packet I/O.
    - Float64, Bench, BenchFacts, Echo, EchoFacts: the measuring tools, the
      modules [bench] and [echo], with float64 as IEEE binary64.
    - Flag, Json, Process: what the commands use of Go's flag, strconv, time,
      encoding/json, os and net packages.  EchoRun, BenchServe, BenchRun, VmRun,
      RelayProcess: the four commands from their arguments to their reports.
    - LinuxPeer, LinuxPeerFacts, Guest, GuestFacts: linux_peer.c and
      guest_init.c.  Initramfs, InitramfsFacts: build_initramfs.py.  Summary:
      summarize_benchmark.py.

    ** What the theorems show

    - Between endpoints: a handler gets exactly a request that a caller sent,
      and a call returns what handlers answered to it (C1, C2).
    - Every reachable state of an endpoint, under any packets, clock, map
      iteration order and interleaving: no critical section panics, blocks or
      loops (C3); memory is accounted exactly and bounded, as are all other
      resources (C4, C5); a caller gets exactly one result, at the latest at its
      deadline or when the endpoint closes (C6 to C8); a request is handled at
      most once (C9); every datagram is a well-formed packet that fits an
      Ethernet frame (C10); [Close] returns, after all goroutines (C11).
    - Messages: segments sent by one endpoint in any order, repeated or not,
      are reassembled to the message by the other (C12, C18, C19), and [sendNew]
      and [resend] emit exactly the segments they should (C13, C14).
    - Operations: grants go to the messages with the fewest remaining bytes
      (C15), calls are refused or started as documented (C16), and the writer
      never sleeps through a packet (C17).
    - The wire format: [Marshal] and [Parse] are inverse (C20, C21).
    - Composition: an endpoint on any packet I/O that keeps the interface's laws
      refines the endpoint by itself (C22), and what it writes arrives through
      the VM check's frames (C23).
    - The relay's packet path: it accepts exactly the valid datagrams, its
      stream is lossless, guest packets are forwarded unchanged and counted, and
      the counters account for every packet (C24 to C26, C32).
    - The Go commands: exact percentiles (C27); each command ends with
      everything closed and reports success only when what it reports happened
      (C28, C29, C31, C34, C35); the benchmark's TCP server cleans up under every
      interleaving (C30); files are replaced as a whole (C33).
    - The Linux side: the guest says that its clients passed only when each got
      back what it sent (C36), which rests on the peer's own report (C37); the
      guest's verdict is that of its children (C38); the archive it boots from
      reads back as the tree that was packed (C39); a summary's percentiles are
      those of the pooled samples (C40).

    Each theorem with hypotheses is followed by a lemma that applies it to a
    concrete execution; [System.demo] has a client and a server that exchange a
    call, [PacketIO.io_demo] the same client on a raw socket.

    ** Parameters, bounds and fuel

    - [GoRuntime] has the clock, which does not run backwards, and the map
      iteration order, a permutation of the entries.  The application's handler
      is any function: the event of its return carries any response.
    - [Socket] and [RawSocket] have what each system call returns; [Network] of
      Bench has the result of each exchange of a measuring tool and its clock.
      [OS], [Console] and [Environment] have what the system, QEMU's console and
      the environment answer to a command, by the number of the call, and
      [PacketPath] the relay's state when [run] looks at it.  [Kernel] and
      [GuestKernel] are the answers of Linux to the C programs.  [FloatText],
      [Calendar] and [VmText] are the texts of floats, dates and durations.
    - Loops that are not structural have fuel: the number of bytes they can
      consume (reading frames), the bytes left to write, the segments of a
      message, the bits of a buffer.  The theorems are total: the fuel the
      definitions pass is proved to be enough.
      The waiting loops of the commands have a round for each of their sleeps up
      to the deadline; those of linux_peer.c one for each call up to [k_stop], by
      which the program is told to stop; waiting for a child has [g_patience]
      rounds, within which [waitpid] is not interrupted.
    - Executions have fewer than 2^63 - 1 calls ([plausible]), before which RPC
      numbers do not repeat.  Percentiles are exact up to 100,000 samples, the
      limit of the benchmark's options, and pooled ones up to 2^20.

    ** Not modelled

    - Mutexes that only serialize calls to a socket, and the timing of
      deadlines: an expired deadline is an error that a read or a write may
      return at any time.
    - The packet I/O calls of an endpoint take effect when they return.
    - The [main] functions of the Go commands, which print the error of [run],
      progress messages on the standard error, and rawip_unsupported.go, whose
      functions only return an error.
    - Assembling the guest's tree in build_initramfs.py (compilers, ldd, copying
      files) and compressing the archive, which are calls of other programs and
      of libraries; reading JSON in summarize_benchmark.py.
    - The children of guest_init.c are separate processes: what they print and
      how they end are not interleaved with their parent; a failure in one of
      them powers the guest off while its parent waits.
    - The test code, the build files and the recorded measurements. *)
From stdpp Require Export prelude gmap strings sorting.
From Stdlib Require Export ZArith Lia.

(** ** Machine integers

    Go integers are values of [Z].  Unsigned types carry their wrap-around as
    an explicit reduction; [int] is signed and its width is a parameter. *)

Declare Scope go_scope.
Delimit Scope go_scope with go.

Definition u8 (z : Z) : Z := z `mod` 2 ^ 8.
Definition u16 (z : Z) : Z := z `mod` 2 ^ 16.
Definition u32 (z : Z) : Z := z `mod` 2 ^ 32.
Definition u64 (z : Z) : Z := z `mod` 2 ^ 64.

(** Two's complement reinterpretation of [z] at [bits] bits, Go's conversion
    of an unsigned value to [int]. *)
Definition swrap (bits z : Z) : Z :=
  (z + 2 ^ (bits - 1)) `mod` 2 ^ bits - 2 ^ (bits - 1).

(** The platforms the code is built for: [int] has 32 or 64 bits. *)
Class GoPlatform := {
  int_bits : Z;
  int_bits_ok : int_bits = 32%Z ∨ int_bits = 64%Z
}.

(** [int(z)] for an unsigned [z], and the largest [int]. *)
Definition to_int `{GoPlatform} (z : Z) : Z := swrap int_bits z.
Definition maxInt `{GoPlatform} : Z := (2 ^ (int_bits - 1) - 1)%Z.

Definition amd64 : GoPlatform := {| int_bits := 64; int_bits_ok := or_intror eq_refl |}.
Definition arm32 : GoPlatform := {| int_bits := 32; int_bits_ok := or_introl eq_refl |}.

Definition is_byte (z : Z) : Prop := (0 ≤ z < 256)%Z.
Definition is_u8 (z : Z) : Prop := (0 ≤ z < 2 ^ 8)%Z.
Definition is_u16 (z : Z) : Prop := (0 ≤ z < 2 ^ 16)%Z.
Definition is_u32 (z : Z) : Prop := (0 ≤ z < 2 ^ 32)%Z.
Definition is_u64 (z : Z) : Prop := (0 ≤ z < 2 ^ 64)%Z.

#[global] Instance is_byte_dec z : Decision (is_byte z).
Proof. unfold is_byte. apply _. Defined.
#[global] Instance is_u8_dec z : Decision (is_u8 z).
Proof. unfold is_u8. apply _. Defined.
#[global] Instance is_u16_dec z : Decision (is_u16 z).
Proof. unfold is_u16. apply _. Defined.
#[global] Instance is_u32_dec z : Decision (is_u32 z).
Proof. unfold is_u32. apply _. Defined.
#[global] Instance is_u64_dec z : Decision (is_u64 z).
Proof. unfold is_u64. apply _. Defined.

(** A byte string whose elements are bytes. *)
Definition bytes_ok (b : list Z) : Prop := Forall is_byte b.

(** ** Slices

    [len] is Go's [len]; [slice l i j] is [l[i:j]] and [idx l i] is [l[i]],
    with [None] for the run-time panic of an index out of range.  Go also
    accepts [j] up to the capacity; a development that proves [Some] has
    proved [j] within the length. *)

Definition len {A} (l : list A) : Z := Z.of_nat (length l).

Definition idx {A} (l : list A) (i : Z) : option A :=
  if (i <? 0)%Z then None else l !! Z.to_nat i.

Definition slice {A} (l : list A) (i j : Z) : option (list A) :=
  if ((0 <=? i) && (i <=? j) && (j <=? len l))%Z
  then Some (take (Z.to_nat (j - i)) (drop (Z.to_nat i) l)) else None.

Definition upd {A} (l : list A) (i : Z) (x : A) : option (list A) :=
  if ((0 <=? i) && (i <? len l))%Z then Some (<[Z.to_nat i := x]> l) else None.

(** [bsub b off n] is [b[off:off+n]] at constant offsets; it tests the length
    of what it took, so it computes on a string whose tail is a variable. *)
Definition bsub (b : list Z) (off n : nat) : option (list Z) :=
  let r := take n (drop off b) in
  if Nat.eqb (length r) n then Some r else None.

(** [bput b off bs] is [copy(b[off:off+len(bs)], bs)]. *)
Definition bput (b : list Z) (off : nat) (bs : list Z) : option (list Z) :=
  if Nat.eqb (length (take (length bs) (drop off b))) (length bs)
  then Some (take off b ++ bs ++ drop (off + length bs) b) else None.

(** ** encoding/binary.BigEndian *)

Definition byte_at (v : Z) (i : nat) : Z :=
  Z.land (Z.shiftr v (8 * Z.of_nat i)) 255.

Fixpoint be_encode (n : nat) (v : Z) : list Z :=
  match n with
  | O => []
  | S n => byte_at v n :: be_encode n v
  end.

Definition be_step (acc x : Z) : Z := Z.lor (Z.shiftl acc 8) x.
Definition be_decode (b : list Z) : Z := foldl be_step 0%Z b.

Definition Uint16 (b : list Z) (off : nat) : option Z := be_decode <$> bsub b off 2.
Definition Uint32 (b : list Z) (off : nat) : option Z := be_decode <$> bsub b off 4.
Definition Uint64 (b : list Z) (off : nat) : option Z := be_decode <$> bsub b off 8.
Definition PutUint16 (b : list Z) (off : nat) (v : Z) : option (list Z) :=
  bput b off (be_encode 2 v).
Definition PutUint32 (b : list Z) (off : nat) (v : Z) : option (list Z) :=
  bput b off (be_encode 4 v).
Definition PutUint64 (b : list Z) (off : nat) (v : Z) : option (list Z) :=
  bput b off (be_encode 8 v).

(** ** Stateful code

    A Go operation on a state [S] returns a value and the new state, or stops
    in a fault: a run-time panic, a channel operation that blocks for ever, or
    a loop whose fuel ran out.  Theorems exclude all three. *)

Inductive fault := Panic | Deadlock | OutOfFuel.

Definition M (S A : Type) : Type := S → (A * S) + fault.

#[global] Instance M_ret S : MRet (M S) := λ A a s, inl (a, s).
#[global] Instance M_bind S : MBind (M S) := λ A B f m s,
  match m s with
  | inl (a, s') => f a s'
  | inr x => inr x
  end.

Definition get {S} : M S S := λ s, inl (s, s).
Definition modify {S} (f : S → S) : M S unit := λ s, inl (tt, f s).
Definition stop {S A} (x : fault) : M S A := λ _, inr x.
Definition or_panic {S A} (o : option A) : M S A := λ s,
  match o with Some a => inl (a, s) | None => inr Panic end.

(** [for x in l { body x }]. *)
Fixpoint for_each {S A} (l : list A) (body : A → M S unit) : M S unit :=
  match l with
  | [] => mret ()
  | x :: l => body x;; for_each l body
  end.

(** Total correctness: [m] faults on no path and its result satisfies [Q]. *)
Definition wp {S A} (m : M S A) (Q : A → S → Prop) (s : S) : Prop :=
  match m s with
  | inl (a, s') => Q a s'
  | inr _ => False
  end.

(** ** Automation *)

Create HintDb homa.

(** Boolean tests of the code turned into propositions. *)
Ltac bool_to_prop :=
  repeat match goal with
  | H : _ && _ = true |- _ => apply andb_true_iff in H as [? ?]
  | H : _ || _ = false |- _ => apply orb_false_iff in H as [? ?]
  | H : _ && _ = false |- _ => apply andb_false_iff in H
  | H : _ || _ = true |- _ => apply orb_true_iff in H
  | H : negb _ = true |- _ => apply negb_true_iff in H
  | H : negb _ = false |- _ => apply negb_false_iff in H
  | H : (_ <? _)%Z = true |- _ => apply Z.ltb_lt in H
  | H : (_ <? _)%Z = false |- _ => apply Z.ltb_ge in H
  | H : (_ <=? _)%Z = true |- _ => apply Z.leb_le in H
  | H : (_ <=? _)%Z = false |- _ => apply Z.leb_gt in H
  | H : (_ =? _)%Z = true |- _ => apply Z.eqb_eq in H
  | H : (_ =? _)%Z = false |- _ => apply Z.eqb_neq in H
  | H : Nat.ltb _ _ = true |- _ => apply Nat.ltb_lt in H
  | H : Nat.ltb _ _ = false |- _ => apply Nat.ltb_ge in H
  | H : Nat.eqb _ _ = true |- _ => apply Nat.eqb_eq in H
  | H : Nat.eqb _ _ = false |- _ => apply Nat.eqb_neq in H
  end.

(** Case analysis on the test of the outermost [if] of the goal. *)
Ltac case_if :=
  match goal with
  | |- context [if ?b then _ else _] =>
      let E := fresh "E" in destruct b eqn:E; bool_to_prop
  end.

(** ** Weakest preconditions *)

Section wp.
Context {S : Type}.
Implicit Types s : S.

Lemma wp_ret {A} (a : A) Q s : Q a s → wp (mret a) Q s.
Proof. done. Qed.

Lemma wp_bind {A B} (m : M S A) (f : A → M S B) Q s :
  wp m (λ a, wp (f a) Q) s → wp (m ≫= f) Q s.
Proof. unfold wp, mbind, M_bind. by destruct (m s) as [[a s']|]. Qed.

Lemma wp_bind_inv {A B} (m : M S A) (f : A → M S B) Q s :
  wp (m ≫= f) Q s → wp m (λ a, wp (f a) Q) s.
Proof. unfold wp, mbind, M_bind. by destruct (m s) as [[a s']|]. Qed.

Lemma wp_mono {A} (m : M S A) (P Q : A → S → Prop) s :
  wp m P s → (∀ a s', P a s' → Q a s') → wp m Q s.
Proof. unfold wp. destruct (m s) as [[a s']|]; eauto. Qed.

Lemma wp_get Q s : Q s s → wp get Q s.
Proof. done. Qed.

Lemma wp_modify f Q s : Q () (f s) → wp (modify f) Q s.
Proof. done. Qed.

Lemma wp_or_panic {A} (o : option A) a Q s :
  o = Some a → Q a s → wp (or_panic o) Q s.
Proof. by intros ->. Qed.

Lemma wp_run {A} (m : M S A) Q s :
  wp m Q s → ∃ a s', m s = inl (a, s') ∧ Q a s'.
Proof. unfold wp. destruct (m s) as [[a s']|]; naive_solver. Qed.

(** A second postcondition of the same run can be assumed. *)
Lemma wp_assume {A} (m : M S A) Q R s :
  wp m R s → wp m (λ a s', R a s' → Q a s') s → wp m Q s.
Proof. unfold wp. destruct (m s) as [[a s']|]; auto. Qed.

Lemma wp_intro {A} (m : M S A) Q s a s' :
  m s = inl (a, s') → Q a s' → wp m Q s.
Proof. unfold wp. by intros ->. Qed.

(** A loop whose body preserves [I] on each element of the list. *)
Lemma wp_for_each {A} (I : S → Prop) (l : list A) (body : A → M S unit) s :
  I s → (∀ x s, x ∈ l → I s → wp (body x) (λ _, I) s) →
  wp (for_each l body) (λ _, I) s.
Proof.
  revert s. induction l as [|x l IH]; intros s Hs Hbody; cbn [for_each].
  - by apply wp_ret.
  - apply wp_bind. eapply wp_mono; [apply Hbody; [left|done]|].
    intros ? s' Hs'. apply IH; [done|].
    intros y s'' Hy. apply Hbody. by right.
Qed.
End wp.

(** Running a sequence. *)
Lemma bind_run {S A B} (m : M S A) (f : A → M S B) s a s' :
  m s = inl (a, s') → (m ≫= f) s = f a s'.
Proof. unfold mbind, M_bind. by intros ->. Qed.

(** Expose what a monadic term does to its state. *)
Ltac m_unfold := unfold mbind, M_bind, mret, M_ret, get, modify, or_panic.

(** One step of symbolic execution of a monadic term. *)
Ltac wp_step :=
  lazymatch goal with
  | |- wp (mbind _ _) _ _ => apply wp_bind
  | |- wp (mret _) _ _ => apply wp_ret
  | |- wp get _ _ => apply wp_get
  | |- wp (modify _) _ _ => apply wp_modify
  end.
Ltac wp_steps := repeat (wp_step; cbn beta).

(** ** Integers *)

Lemma u8_id z : is_u8 z → u8 z = z.
Proof. apply Z.mod_small. Qed.
Lemma u16_id z : is_u16 z → u16 z = z.
Proof. apply Z.mod_small. Qed.
Lemma u32_id z : is_u32 z → u32 z = z.
Proof. apply Z.mod_small. Qed.
Lemma u64_id z : is_u64 z → u64 z = z.
Proof. apply Z.mod_small. Qed.
Lemma u8_range z : is_u8 (u8 z).
Proof. by apply Z.mod_pos_bound. Qed.
Lemma u16_range z : is_u16 (u16 z).
Proof. by apply Z.mod_pos_bound. Qed.
Lemma u32_range z : is_u32 (u32 z).
Proof. by apply Z.mod_pos_bound. Qed.
Lemma u64_range z : is_u64 (u64 z).
Proof. by apply Z.mod_pos_bound. Qed.

(** A value below the sign bit keeps its value as an [int]. *)
Lemma swrap_id bits z : (0 < bits)%Z → (0 ≤ z < 2 ^ (bits - 1))%Z → swrap bits z = z.
Proof.
  intros Hb Hz. unfold swrap.
  assert (2 ^ bits = 2 * 2 ^ (bits - 1))%Z as E.
  { rewrite <- Z.pow_succ_r by lia. f_equal. lia. }
  rewrite Z.mod_small; lia.
Qed.

Lemma to_int_id `{GoPlatform} z : (0 ≤ z ≤ maxInt)%Z → to_int z = z.
Proof.
  unfold maxInt. intros Hz. apply swrap_id; [|lia].
  destruct int_bits_ok as [-> | ->]; lia.
Qed.

Lemma maxInt_lower `{GoPlatform} : (2147483647 ≤ maxInt)%Z.
Proof. unfold maxInt. destruct int_bits_ok as [-> | ->]; vm_compute; discriminate. Qed.

(** [x ^ 1] flips the low bit. *)
Lemma lxor_1 x : Z.lxor x 1 = (if Z.even x then x + 1 else x - 1)%Z.
Proof.
  assert (∀ y, Z.lxor (2 * y) 1 = 2 * y + 1)%Z as Heven.
  { intros y. symmetry. rewrite Z.add_nocarry_lxor; [done|].
    apply Z.bits_inj'. intros n Hn. rewrite Z.land_spec, Z.bits_0.
    destruct (decide (n = 0%Z)) as [->|].
    - by rewrite Z.testbit_even_0.
    - destruct n as [|n|]; [done| |done]. apply andb_false_r. }
  destruct (Z.even x) eqn:E.
  - apply Z.even_spec in E as [y ->]. apply Heven.
  - rewrite <- Z.negb_odd, negb_false_iff in E.
    apply Z.odd_spec in E as [y ->].
    rewrite <- (Heven y), Z.lxor_assoc, Z.lxor_nilpotent, Z.lxor_0_r, Heven. lia.
Qed.

Lemma land_1 x : Z.land x 1 = if Z.even x then 0%Z else 1%Z.
Proof.
  change 1%Z with (Z.ones 1) at 1. rewrite Z.land_ones by lia.
  change (2 ^ 1)%Z with 2%Z. rewrite Zmod_even. by destruct (Z.even x).
Qed.

Lemma lxor_1_even x : Z.even (Z.lxor x 1) = negb (Z.even x).
Proof.
  rewrite lxor_1. destruct (Z.even x) eqn:E.
  - rewrite Z.even_add, E. done.
  - rewrite Z.even_sub, E. done.
Qed.

Lemma is_u64_lxor_1 x : is_u64 x → is_u64 (Z.lxor x 1).
Proof.
  unfold is_u64. intros Hx. rewrite lxor_1. destruct (Z.even x) eqn:E.
  - apply Z.even_spec in E as [y ->]. lia.
  - rewrite <- Z.negb_odd, negb_false_iff in E. apply Z.odd_spec in E as [y ->]. lia.
Qed.

(** ** Slices *)

Lemma len_nonneg {A} (l : list A) : (0 ≤ len l)%Z.
Proof. unfold len. lia. Qed.
Lemma len_nil {A} : len (@nil A) = 0%Z.
Proof. done. Qed.
Lemma len_app {A} (l k : list A) : len (l ++ k) = (len l + len k)%Z.
Proof. unfold len. rewrite length_app. lia. Qed.
Lemma len_zero {A} (l : list A) : len l = 0%Z ↔ l = [].
Proof. unfold len. destruct l; simpl; split; intros; (done || lia). Qed.
Lemma len_pos {A} (l : list A) : (0 < len l)%Z ↔ l ≠ [].
Proof. pose proof (len_nonneg l). rewrite <- len_zero. lia. Qed.

Lemma slice_ok {A} (l : list A) i j :
  (0 ≤ i ≤ j)%Z → (j ≤ len l)%Z →
  slice l i j = Some (take (Z.to_nat (j - i)) (drop (Z.to_nat i) l)).
Proof.
  intros ? ?. unfold slice.
  rewrite !(proj2 (Z.leb_le _ _)) by lia. done.
Qed.

Lemma idx_ok {A} (l : list A) i : (0 ≤ i < len l)%Z → ∃ x, idx l i = Some x.
Proof.
  intros ?. unfold idx, len in *. rewrite (proj2 (Z.ltb_ge _ _)) by lia.
  apply lookup_lt_is_Some. lia.
Qed.

Lemma upd_ok {A} (l : list A) i x :
  (0 ≤ i < len l)%Z → upd l i x = Some (<[Z.to_nat i := x]> l).
Proof.
  intros ?. unfold upd.
  rewrite (proj2 (Z.leb_le _ _)), (proj2 (Z.ltb_lt _ _)) by lia. done.
Qed.

(** One step, and two steps at once. *)
Lemma bind_one {A B} (o : option A) (f : A → option B) a : o = Some a → (o ≫= f) = f a.
Proof. by intros ->. Qed.

Lemma bind_two {A B C} (o : option A) (f : A → option B) (g : B → option C) b :
  (o ≫= f) = Some b → (o ≫= λ x, f x ≫= g) = g b.
Proof. destruct o as [a|]; cbn; [|done]. by intros ->. Qed.

(** Expose the first elements of a list of known length. *)
Ltac explode l H :=
  repeat (destruct l as [|? l]; [simpl in H; discriminate H|]);
  let E := fresh in
  assert (l = []) as E by (destruct l; [done|simpl in H; discriminate H]);
  subst l.

Lemma slice_tail {A} (hd tl : list A) n :
  n = len hd → slice (hd ++ tl) n (len (hd ++ tl)) = Some tl.
Proof.
  intros ->. pose proof (len_nonneg hd). pose proof (len_nonneg tl). rewrite slice_ok by (rewrite ?len_app; lia).
  f_equal. rewrite len_app. unfold len. rewrite Nat2Z.id, drop_app_length. apply take_ge. lia.
Qed.

(** Filling the end of a buffer. *)
Lemma bput_end (hd z bs : list Z) off :
  off = length hd → length z = length bs → bput (hd ++ z) off bs = Some (hd ++ bs).
Proof.
  intros -> Hz. unfold bput.
  rewrite drop_app_length, <- Hz, firstn_all, Nat.eqb_refl, take_app_length.
  rewrite <- drop_drop, drop_app_length, drop_all, app_nil_r. done.
Qed.

(** ** Filtered lists *)

Section filter.
Context {A B : Type} (P : A → Prop) `{!∀ x, Decision (P x)}.

Lemma filter_all_id l : Forall P l → filter P l = l.
Proof.
  induction 1 as [|x l Hx Hl IH]; [done|]. by rewrite filter_cons, decide_True, IH.
Qed.

Lemma NoDup_fmap_filter (f : A → B) l : NoDup (f <$> l) → NoDup (f <$> filter P l).
Proof.
  induction l as [|x l IH]; [done|]. cbn [fmap list_fmap]. intros [Hx Hl]%NoDup_cons.
  rewrite filter_cons. case_decide; [|by apply IH]. apply NoDup_cons. split; [|by apply IH].
  intros (y&E&[_ Hy]%list_elem_of_filter)%list_elem_of_fmap. apply Hx. rewrite E.
  by apply list_elem_of_fmap_2.
Qed.

Lemma Forall_filter_sub (Q : A → Prop) l : Forall Q l → Forall Q (filter P l).
Proof.
  rewrite !Forall_forall. intros Hl x [_ Hx]%list_elem_of_filter. by apply Hl.
Qed.
End filter.

Create Rewrite HintDb homa.
#[export] Hint Rewrite @len_nil @len_app : homa.
#[export] Hint Resolve len_nonneg u8_range u16_range u32_range u64_range : homa.

(** ** Big-endian fields *)

Section big_endian.
#[local] Open Scope Z_scope.

Lemma byte_at_spec v i : byte_at v i = (v / 256 ^ Z.of_nat i) `mod` 256.
Proof.
  unfold byte_at. change 255 with (Z.ones 8).
  rewrite Z.land_ones, Z.shiftr_div_pow2 by lia.
  change 256 with (2 ^ 8). by rewrite <- Z.pow_mul_r by lia.
Qed.

Lemma byte_at_range v i : is_byte (byte_at v i).
Proof. rewrite byte_at_spec. by apply Z.mod_pos_bound. Qed.

Lemma be_step_spec acc x : is_byte x → be_step acc x = acc * 256 + x.
Proof.
  intros Hx. unfold be_step. symmetry.
  change 256 with (2 ^ 8). rewrite <- Z.shiftl_mul_pow2, <- Z.add_lor_land by lia.
  enough (Z.land (Z.shiftl acc 8) x = 0) as -> by lia.
  apply Z.bits_inj'. intros n Hn. rewrite Z.land_spec, Z.bits_0.
  destruct (decide (n < 8)); [by rewrite Z.shiftl_spec_low|].
  rewrite (Z.bits_above_log2 x n), andb_false_r; [done|destruct Hx; lia|].
  destruct (decide (x = 0)) as [->|]; [simpl; lia|].
  apply Z.log2_lt_pow2; [destruct Hx; lia|].
  apply Z.lt_le_trans with (2 ^ 8); [apply Hx|].
  apply Z.pow_le_mono_r; lia.
Qed.

Lemma be_encode_length n v : length (be_encode n v) = n.
Proof. induction n; simpl; auto. Qed.

Lemma be_encode_bytes n v : bytes_ok (be_encode n v).
Proof. induction n; simpl; constructor; auto using byte_at_range. Qed.

Lemma be_encode_foldl n v acc :
  foldl be_step acc (be_encode n v)
    = acc * 256 ^ Z.of_nat n + v `mod` 256 ^ Z.of_nat n.
Proof.
  revert acc. induction n as [|n IH]; intros acc.
  - simpl. rewrite Z.mod_1_r. lia.
  - cbn [be_encode foldl]. rewrite IH, be_step_spec by apply byte_at_range.
    rewrite byte_at_spec, Nat2Z.inj_succ, Z.pow_succ_r by lia.
    assert (0 < 256 ^ Z.of_nat n) by (apply Z.pow_pos_nonneg; lia).
    rewrite (Z.mul_comm 256 (256 ^ _)), (Z.rem_mul_r v) by lia. lia.
Qed.

(** Decoding what was encoded in [n] bytes gives the value back. *)
Lemma be_decode_encode n v :
  0 ≤ v < 256 ^ Z.of_nat n → be_decode (be_encode n v) = v.
Proof.
  intros Hv. unfold be_decode. rewrite be_encode_foldl, Z.mod_small; lia.
Qed.

Lemma be_foldl_range b acc : bytes_ok b → 0 ≤ acc →
  acc * 256 ^ len b ≤ foldl be_step acc b < (acc + 1) * 256 ^ len b.
Proof.
  intros Hb. revert acc. induction Hb as [|x b Hx Hb IH]; intros acc Hacc.
  - rewrite len_nil, Z.pow_0_r. cbn [foldl]. lia.
  - cbn [foldl]. rewrite be_step_spec by done.
    assert (len (x :: b) = Z.succ (len b)) as -> by (unfold len; simpl; lia).
    rewrite Z.pow_succ_r by apply len_nonneg.
    assert (0 < 256 ^ len b) by (apply Z.pow_pos_nonneg; auto with homa; lia).
    destruct Hx. specialize (IH (acc * 256 + x) ltac:(lia)). nia.
Qed.

Lemma be_decode_range b : bytes_ok b → 0 ≤ be_decode b < 256 ^ len b.
Proof. intros Hb. pose proof (be_foldl_range b 0 Hb). unfold be_decode. lia. Qed.

Lemma be_decode_snoc b x : be_decode (b ++ [x]) = be_step (be_decode b) x.
Proof. unfold be_decode. by rewrite foldl_app. Qed.

Lemma be_encode_snoc n v : be_encode (S n) v = be_encode n (v / 256) ++ [v `mod` 256].
Proof.
  induction n as [|n IH].
  - cbn. by rewrite byte_at_spec, Z.div_1_r.
  - change (be_encode (S (S n)) v) with (byte_at v (S n) :: be_encode (S n) v).
    rewrite IH. cbn [be_encode app]. f_equal.
    rewrite !byte_at_spec, Nat2Z.inj_succ, Z.pow_succ_r, Z.div_div by lia. done.
Qed.

(** Encoding what was decoded gives the bytes back. *)
Lemma be_encode_decode b : bytes_ok b → be_encode (length b) (be_decode b) = b.
Proof.
  induction b as [|x b IH] using rev_ind; [done|].
  intros [Hb Hx]%Forall_app. rewrite Forall_singleton in Hx.
  rewrite length_app, Nat.add_comm. cbn [length Nat.add].
  rewrite be_encode_snoc, be_decode_snoc, be_step_spec by done.
  destruct Hx. rewrite Z.div_add_l, (Z.div_small x), Z.add_0_r by lia.
  rewrite Z.add_comm, Z.mod_add, Z.mod_small by lia. by rewrite IH.
Qed.
End big_endian.

#[export] Hint Resolve byte_at_range be_encode_bytes : homa.

(** ** Reading and writing at fixed offsets *)

Section fixed_offsets.
#[local] Open Scope Z_scope.

Lemma upd_head {A} (a r : list A) i x :
  0 ≤ i < len a → upd (a ++ r) i x = Some (<[Z.to_nat i := x]> a ++ r).
Proof.
  intros Hi. pose proof (len_nonneg r). rewrite upd_ok by (rewrite len_app; lia).
  f_equal. apply insert_app_l. unfold len in Hi. lia.
Qed.

Lemma slice_head {A} (hd tl : list A) n : n = len hd → slice (hd ++ tl) 0 n = Some hd.
Proof.
  intros ->. pose proof (len_nonneg hd). pose proof (len_nonneg tl).
  rewrite slice_ok by (rewrite ?len_app; lia). rewrite Z.sub_0_r. unfold len.
  rewrite Nat2Z.id. change (Z.to_nat 0) with 0%nat. by rewrite drop_0, take_app_length.
Qed.

Lemma bsub_head h r off n : (off + n ≤ length h)%nat → bsub (h ++ r) off n = bsub h off n.
Proof.
  intros Hl. unfold bsub. rewrite drop_app_le by lia.
  by rewrite take_app_le by (rewrite length_drop; lia).
Qed.

Lemma idx_head (h r : list Z) i : 0 ≤ i < len h → idx (h ++ r) i = h !! Z.to_nat i.
Proof.
  intros Hi. unfold idx. rewrite (proj2 (Z.ltb_ge _ _)) by lia. apply lookup_app_l. unfold len in Hi. lia.
Qed.

Lemma slice_bsub b i n : (i + n ≤ length b)%nat → slice b (Z.of_nat i) (Z.of_nat (i + n)) = bsub b i n.
Proof.
  intros Hl. rewrite slice_ok by (unfold len; lia). unfold bsub.
  replace (Z.to_nat (Z.of_nat (i + n) - Z.of_nat i)) with n by lia. rewrite Nat2Z.id.
  by rewrite length_take, length_drop, Nat.min_l, Nat.eqb_refl by lia.
Qed.

Lemma slice_middle (h p pad : list Z) i j :
  i = len h → j = len h + len p → slice (h ++ p ++ pad) i j = Some p.
Proof.
  intros -> ->. pose proof (len_nonneg h). pose proof (len_nonneg p). pose proof (len_nonneg pad).
  rewrite slice_ok by (rewrite ?len_app; lia). f_equal.
  replace (len h + len p - len h) with (len p) by lia. unfold len.
  by rewrite !Nat2Z.id, drop_app_length, take_app_length.
Qed.

Lemma slice_header h r i n :
  (i + n ≤ length h)%nat → slice (h ++ r) (Z.of_nat i) (Z.of_nat (i + n)) = bsub h i n.
Proof. intros Hl. rewrite slice_bsub by (rewrite length_app; lia). by apply bsub_head. Qed.

Lemma bsub_some b off n : (off + n ≤ length b)%nat → ∃ r, bsub b off n = Some r.
Proof.
  intros Hl. unfold bsub. rewrite length_take, length_drop, Nat.min_l, Nat.eqb_refl by lia. eauto.
Qed.

(** A string cut at two places. *)
Lemma cut_at (ip : list Z) (m n : Z) :
  0 ≤ m ≤ n → n ≤ len ip →
  ∃ h p pad, ip = h ++ p ++ pad ∧ len h = m ∧ len p = n - m.
Proof.
  intros Hm Hn. exists (take (Z.to_nat m) ip), (take (Z.to_nat (n - m)) (drop (Z.to_nat m) ip)),
    (drop (Z.to_nat (n - m)) (drop (Z.to_nat m) ip)).
  rewrite !take_drop. unfold len in *. rewrite !length_take, length_drop. split; [done|]. lia.
Qed.

Lemma slice_const b (i j : Z) (off n : nat) :
  i = Z.of_nat off → j = Z.of_nat (off + n) → (off + n ≤ length b)%nat → slice b i j = bsub b off n.
Proof. intros -> -> Hl. by apply slice_bsub. Qed.

Lemma bsub_take_drop b off n : (off + n ≤ length b)%nat → bsub b off n = Some (take n (drop off b)).
Proof.
  intros Hl. unfold bsub. by rewrite length_take, length_drop, Nat.min_l, Nat.eqb_refl by lia.
Qed.
End fixed_offsets.

(** ** Comparisons *)

(** A comparison that is a strict linear order. *)
Class Linear {A} (cmp : A → A → comparison) : Prop := {
  cmp_eq : ∀ x y, cmp x y = Eq ↔ x = y;
  cmp_flip : ∀ x y, cmp y x = CompOpp (cmp x y);
  cmp_trans : ∀ x y z, cmp x y = Lt → cmp y z = Lt → cmp x z = Lt
}.

(** Lists and pairs are compared at the first place where they differ. *)
Fixpoint list_compare {A} (cmp : A → A → comparison) (l k : list A) : comparison :=
  match l, k with
  | [], [] => Eq
  | [], _ :: _ => Lt
  | _ :: _, [] => Gt
  | x :: l, y :: k => match cmp x y with Eq => list_compare cmp l k | c => c end
  end.

Definition pair_compare {A B} (cmp1 : A → A → comparison) (cmp2 : B → B → comparison) (x y : A * B) : comparison :=
  match cmp1 x.1 y.1 with Eq => cmp2 x.2 y.2 | c => c end.

#[export] Instance Z_linear : Linear Z.compare.
Proof.
  split; [apply Z.compare_eq_iff|intros; apply Z.compare_antisym|].
  intros x y z. rewrite !Z.compare_lt_iff. lia.
Qed.

#[export] Instance list_linear {A} (cmp : A → A → comparison) : Linear cmp → Linear (list_compare cmp).
Proof.
  intros Hc. split.
  - induction x as [|a x IH]; intros [|b y]; cbn; try done.
    destruct (cmp a b) eqn:E; [apply cmp_eq in E as ->; rewrite IH; naive_solver|split; [done|]..].
    all: intros [= -> ->]; by rewrite (proj2 (cmp_eq b b) eq_refl) in E.
  - induction x as [|a x IH]; intros [|b y]; cbn; try done. rewrite (cmp_flip a b). by destruct (cmp a b); cbn.
  - induction x as [|a x IH]; intros [|b y] [|c z]; cbn; try done.
    destruct (cmp a b) eqn:E1; [apply cmp_eq in E1 as ->| |done].
    + destruct (cmp b c); [apply IH|done|done].
    + intros _. destruct (cmp b c) eqn:E2; [apply cmp_eq in E2 as ->; by rewrite E1| |done].
      by rewrite (cmp_trans _ _ _ E1 E2).
Qed.

#[export] Instance pair_linear {A B} (cmp1 : A → A → comparison) (cmp2 : B → B → comparison) :
  Linear cmp1 → Linear cmp2 → Linear (pair_compare cmp1 cmp2).
Proof.
  intros H1 H2. unfold pair_compare. split.
  - intros [a b] [a' b']. cbn. destruct (cmp1 a a') eqn:E; [apply cmp_eq in E as ->; rewrite cmp_eq; naive_solver|split; [done|]..].
    all: intros [= -> ->]; by rewrite (proj2 (cmp_eq a' a') eq_refl) in E.
  - intros [a b] [a' b']. cbn. rewrite (cmp_flip a a'). destruct (cmp1 a a'); cbn; [apply cmp_flip|done..].
  - intros [a b] [a' b'] [a'' b'']. cbn. destruct (cmp1 a a') eqn:E1; [apply cmp_eq in E1 as ->| |done].
    + destruct (cmp1 a' a''); [apply cmp_trans|done|done].
    + intros _. destruct (cmp1 a' a'') eqn:E2; [apply cmp_eq in E2 as ->; by rewrite E1| |done].
      by rewrite (cmp_trans _ _ _ E1 E2).
Qed.

(** The order by a key. *)
Definition key_le {A B} (cmp : A → A → comparison) (key : B → A) (x y : B) : Prop := cmp (key x) (key y) ≠ Gt.

#[export] Instance key_le_dec {A B} (cmp : A → A → comparison) (key : B → A) : RelDecision (key_le cmp key).
Proof. intros x y. unfold key_le, Decision. destruct (cmp (key x) (key y)); [left|left|right]; congruence. Defined.

#[export] Instance key_le_total {A B} (cmp : A → A → comparison) (key : B → A) : Linear cmp → Total (key_le cmp key).
Proof. intros Hc x y. unfold key_le. rewrite (cmp_flip (key x) (key y)). destruct (cmp (key x) (key y)); cbn; auto. Qed.

#[export] Instance key_le_trans {A B} (cmp : A → A → comparison) (key : B → A) : Linear cmp → Transitive (key_le cmp key).
Proof.
  intros Hc x y z. unfold key_le. destruct (cmp (key x) (key y)) eqn:E1; [apply cmp_eq in E1 as ->; done| |done].
  intros _. destruct (cmp (key y) (key z)) eqn:E2; [apply cmp_eq in E2 as <-; by rewrite E1| |done].
  by rewrite (cmp_trans _ _ _ E1 E2).
Qed.
