(* ===== verification/Wire.v ===== *)
(** * Package internal/wire: Homa's native transport headers

    [wire.Parse] and [wire.Marshal] of src/internal/wire/wire.go with the
    packet structs they exchange.  Fields are [Z] values of the width the Go
    struct gives them, a byte string is a [list Z], an array is a list of the
    array's length; [packet_ok] collects those widths.  [None] is a run-time
    panic and a sum's left side is a returned error. *)
From S2P Require Import Prelude.

#[local] Open Scope Z_scope.

Module wire.

(** ** Constants *)

Definition DataType : Z := 16.
Definition GrantType : Z := 17.
Definition ResendType : Z := 18.
Definition RPCUnknownType : Z := 19.
Definition BusyType : Z := 20.
Definition CutoffsType : Z := 21.
Definition FreezeType : Z := 22.
Definition NeedAckType : Z := 23.
Definition AckType : Z := 24.

Definition CommonSize : Z := 28.
Definition AckRecordSize : nat := 10.
Definition SegmentSize : Z := 4.
Definition DataSize : Z := 56.
Definition GrantSize : Z := 33.
Definition ResendSize : Z := 37.
Definition CutoffsSize : Z := 62.
Definition AckSize : Z := 80.
Definition MaxPriorities : nat := 8.
Definition MaxAcks : nat := 5.
Definition MaxMessageLength : Z := 1000000.

(** [uint8((DataSize - SegmentSize) / 4 << 4)]: division and shift have the
    same precedence in Go and associate to the left. *)
Definition DataOffset : Z := u8 (Z.shiftl ((DataSize - SegmentSize) / 4) 4).
Definition ControlOffset : Z := u8 (Z.shiftl 5 4).
Definition SequenceOffset : Z := 4294967295.
Definition ResendAll : Z := 4294967295.

Inductive error := ErrTruncated | ErrType | ErrAckCount | ErrDataBounds.

#[global] Instance error_eq_dec : EqDecision error.
Proof. solve_decision. Defined.

(** ** Packets *)

Record Common := mkCommon {
  h_SourcePort : Z; h_DestinationPort : Z;
  h_Sequence : Z;
  h_Ack : list Z;
  h_Type : Z;
  h_DataOffset : Z; h_Flags : Z;
  h_Window : Z; h_Checksum : Z; h_Urgent : Z;
  h_SenderID : Z
}.

Definition LocalID (h : Common) : Z := Z.lxor (h_SenderID h) 1.

Definition NewCommon (typ source destination senderID : Z) : Common :=
  let offset := if typ =? DataType then DataOffset else ControlOffset in
  {| h_SourcePort := source; h_DestinationPort := destination; h_Sequence := 0;
     h_Ack := [0; 0; 0]; h_Type := typ; h_DataOffset := offset; h_Flags := 0;
     h_Window := 0; h_Checksum := 0; h_Urgent := 0; h_SenderID := senderID |}.

Record AckRecord := mkAckRecord { ar_ClientID : Z; ar_ServerPort : Z }.

Record Data := mkData {
  d_Common : Common;
  d_MessageLength : Z; d_Incoming : Z;
  d_Ack : AckRecord;
  d_CutoffVersion : Z;
  d_Retransmit : Z;
  d_Padding : list Z;
  d_SegmentOffset : Z;
  d_Payload : list Z
}.

Definition EffectiveOffset (p : Data) : Z :=
  if d_SegmentOffset p =? SequenceOffset then h_Sequence (d_Common p)
  else d_SegmentOffset p.

Definition ValidateBounds (p : Data) (maxMessage : Z) : option error :=
  if (d_MessageLength p =? 0) || (maxMessage <? d_MessageLength p) ||
     (d_MessageLength p <? u64 (EffectiveOffset p + u64 (len (d_Payload p))))
  then Some ErrDataBounds else None.

Record Grant := mkGrant { g_Common : Common; g_Offset : Z; g_Priority : Z }.
Record Resend := mkResend {
  rs_Common : Common; rs_Offset : Z; rs_Length : Z; rs_Priority : Z }.
Record Cutoffs := mkCutoffs {
  cu_Common : Common; cu_UnscheduledCutoffs : list Z; cu_CutoffVersion : Z }.
Record Ack := mkAck { ak_Common : Common; ak_NumAcks : Z; ak_Acks : list AckRecord }.

(** The values an interface of type [Packet] holds.  [POther h] is any other
    implementation of [Header], [Common] itself among them. *)
Inductive Packet :=
| PData (p : Data)
| PGrant (p : Grant)
| PResend (p : Resend)
| PRPCUnknown (h : Common)
| PBusy (h : Common)
| PCutoffs (p : Cutoffs)
| PFreeze (h : Common)
| PNeedAck (h : Common)
| PAck (p : Ack)
| PCommonPacket (h : Common)
| POther (h : Common).

Definition Header (p : Packet) : Common :=
  match p with
  | PData p => d_Common p
  | PGrant p => g_Common p
  | PResend p => rs_Common p
  | PCutoffs p => cu_Common p
  | PAck p => ak_Common p
  | PRPCUnknown h | PBusy h | PFreeze h | PNeedAck h | PCommonPacket h | POther h => h
  end.

(** What a caller passes to [Marshal]: a struct, a pointer to one of the ten
    packet structs, which may be nil, or a nil interface. *)
Inductive PacketArg :=
| AValue (p : Packet)
| APointer (p : option Packet)
| ANil.

Definition HeaderSize (typ : Z) : option Z :=
  if typ =? DataType then Some DataSize
  else if typ =? GrantType then Some GrantSize
  else if typ =? ResendType then Some ResendSize
  else if (typ =? RPCUnknownType) || (typ =? BusyType) || (typ =? FreezeType)
          || (typ =? NeedAckType) then Some CommonSize
  else if typ =? CutoffsType then Some CutoffsSize
  else if typ =? AckType then Some AckSize
  else None.

(** ** Decoding *)

Definition parseCommon (b : list Z) : option Common :=
  src ← Uint16 b 0; dst ← Uint16 b 2; seqn ← Uint32 b 4;
  a0 ← b !! 8%nat; a1 ← b !! 9%nat; a2 ← b !! 10%nat;
  typ ← b !! 11%nat; doff ← b !! 12%nat; flags ← b !! 13%nat;
  win ← Uint16 b 14; sum ← Uint16 b 16; urg ← Uint16 b 18; sid ← Uint64 b 20;
  Some {| h_SourcePort := src; h_DestinationPort := dst; h_Sequence := seqn;
          h_Ack := [a0; a1; a2]; h_Type := typ; h_DataOffset := doff;
          h_Flags := flags; h_Window := win; h_Checksum := sum; h_Urgent := urg;
          h_SenderID := sid |}.

(** [parseAck(b[off:off+10])]. *)
Definition parseAck (b : list Z) (off : nat) : option AckRecord :=
  r ← bsub b off AckRecordSize;
  cid ← Uint64 r 0; port ← Uint16 r 8;
  Some {| ar_ClientID := cid; ar_ServerPort := port |}.

Definition parseData (h : Common) (b : list Z) : option Data :=
  ml ← Uint32 b 28; inc ← Uint32 b 32; ack ← parseAck b 36;
  cv ← Uint16 b 46; rt ← b !! 48%nat;
  p0 ← b !! 49%nat; p1 ← b !! 50%nat; p2 ← b !! 51%nat;
  so ← Uint32 b 52; payload ← slice b DataSize (len b);
  Some {| d_Common := h; d_MessageLength := ml; d_Incoming := inc; d_Ack := ack;
          d_CutoffVersion := cv; d_Retransmit := rt; d_Padding := [p0; p1; p2];
          d_SegmentOffset := so; d_Payload := payload |}.

Definition Parse (b : list Z) : option (error + Packet) :=
  if len b <? CommonSize then Some (inl ErrTruncated) else
  h ← parseCommon b;
  match HeaderSize (h_Type h) with
  | None => Some (inl ErrType)
  | Some size =>
      if len b <? size then Some (inl ErrTruncated)
      else if h_Type h =? DataType then p ← parseData h b; Some (inr (PData p))
      else if h_Type h =? GrantType then
        off ← Uint32 b 28; prio ← b !! 32%nat;
        Some (inr (PGrant {| g_Common := h; g_Offset := off; g_Priority := prio |}))
      else if h_Type h =? ResendType then
        off ← Uint32 b 28; length ← Uint32 b 32; prio ← b !! 36%nat;
        Some (inr (PResend {| rs_Common := h; rs_Offset := off; rs_Length := length;
                              rs_Priority := prio |}))
      else if h_Type h =? RPCUnknownType then Some (inr (PRPCUnknown h))
      else if h_Type h =? BusyType then Some (inr (PBusy h))
      else if h_Type h =? CutoffsType then
        cv ← Uint16 b 60;
        cs ← mapM (λ i, Uint32 b (28 + 4 * i)) (seq 0 MaxPriorities);
        Some (inr (PCutoffs {| cu_Common := h; cu_UnscheduledCutoffs := cs;
                               cu_CutoffVersion := cv |}))
      else if h_Type h =? FreezeType then Some (inr (PFreeze h))
      else if h_Type h =? NeedAckType then Some (inr (PNeedAck h))
      else if h_Type h =? AckType then
        n ← Uint16 b 28;
        if Z.of_nat MaxAcks <? n then Some (inl ErrAckCount) else
        acks ← mapM (λ i, parseAck b (30 + i * AckRecordSize)) (seq 0 MaxAcks);
        Some (inr (PAck {| ak_Common := h; ak_NumAcks := n; ak_Acks := acks |}))
      else None
  end.

(** ** Encoding *)

Definition marshalCommon (b : list Z) (h : Common) : option (list Z) :=
  b ← PutUint16 b 0 (h_SourcePort h);
  b ← PutUint16 b 2 (h_DestinationPort h);
  b ← PutUint32 b 4 (h_Sequence h);
  b ← bput b 8 (h_Ack h);
  b ← bput b 11 [h_Type h; h_DataOffset h; h_Flags h];
  b ← PutUint16 b 14 (h_Window h);
  b ← PutUint16 b 16 (h_Checksum h);
  b ← PutUint16 b 18 (h_Urgent h);
  PutUint64 b 20 (h_SenderID h).

(** [marshalAck(b[off:off+10], ack)]. *)
Definition marshalAck (b : list Z) (off : nat) (ack : AckRecord) : option (list Z) :=
  b ← PutUint64 b off (ar_ClientID ack);
  PutUint16 b (off + 8) (ar_ServerPort ack).

Fixpoint marshalCutoffs (b : list Z) (i : nat) (cs : list Z) : option (list Z) :=
  match cs with
  | [] => Some b
  | cutoff :: cs => b ← PutUint32 b (28 + i * 4) cutoff; marshalCutoffs b (S i) cs
  end.

Fixpoint marshalAcks (b : list Z) (i : nat) (acks : list AckRecord) : option (list Z) :=
  match acks with
  | [] => Some b
  | ack :: acks =>
      b ← marshalAck b (30 + i * AckRecordSize) ack; marshalAcks b (S i) acks
  end.

(** The type the first switch expects of a value and the payload it carries,
    or the error it returns. *)
Definition expectedType (p : Packet) (size : Z) : error + (Z * list Z) :=
  match p with
  | PData p => inr (DataType, d_Payload p)
  | PGrant _ => inr (GrantType, [])
  | PResend _ => inr (ResendType, [])
  | PRPCUnknown _ => inr (RPCUnknownType, [])
  | PBusy _ => inr (BusyType, [])
  | PCutoffs _ => inr (CutoffsType, [])
  | PFreeze _ => inr (FreezeType, [])
  | PNeedAck _ => inr (NeedAckType, [])
  | PAck p => if Z.of_nat MaxAcks <? ak_NumAcks p then inl ErrAckCount
              else inr (AckType, [])
  | PCommonPacket h => if negb (size =? CommonSize) then inl ErrType
                       else inr (h_Type h, [])
  | POther _ => inl ErrType
  end.

(** The second switch: the fields after the common header. *)
Definition marshalBody (b : list Z) (p : Packet) : option (list Z) :=
  match p with
  | PData p =>
      b ← PutUint32 b 28 (d_MessageLength p);
      b ← PutUint32 b 32 (d_Incoming p);
      b ← marshalAck b 36 (d_Ack p);
      b ← PutUint16 b 46 (d_CutoffVersion p);
      b ← bput b 48 [d_Retransmit p];
      b ← bput b 49 (d_Padding p);
      b ← PutUint32 b 52 (d_SegmentOffset p);
      bput b 56 (d_Payload p)
  | PGrant p =>
      b ← PutUint32 b 28 (g_Offset p);
      bput b 32 [g_Priority p]
  | PResend p =>
      b ← PutUint32 b 28 (rs_Offset p);
      b ← PutUint32 b 32 (rs_Length p);
      bput b 36 [rs_Priority p]
  | PCutoffs p =>
      b ← marshalCutoffs b 0 (cu_UnscheduledCutoffs p);
      PutUint16 b 60 (cu_CutoffVersion p)
  | PAck p =>
      b ← PutUint16 b 28 (ak_NumAcks p);
      marshalAcks b 0 (ak_Acks p)
  | _ => Some b
  end.

Definition marshalValue `{GoPlatform} (p : Packet) : option (error + list Z) :=
  let h := Header p in
  match HeaderSize (h_Type h) with
  | None => Some (inl ErrType)
  | Some size =>
      match expectedType p size with
      | inl e => Some (inl e)
      | inr (expected, payload) =>
          if negb (h_Type h =? expected) then Some (inl ErrType)
          else if maxInt - size <? len payload then Some (inl ErrDataBounds)
          else
            b ← marshalCommon (replicate (Z.to_nat (size + len payload)) 0) h;
            b ← marshalBody b p;
            Some (inr b)
      end
  end.

Definition Marshal `{GoPlatform} (packet : PacketArg) : option (error + list Z) :=
  match packet with
  | APointer None | ANil => Some (inl ErrType)
  | APointer (Some p) | AValue p => marshalValue p
  end.


(** ** Well-formed values: every field within its Go type *)

Definition common_ok (h : Common) : Prop :=
  is_u16 (h_SourcePort h) ∧ is_u16 (h_DestinationPort h) ∧ is_u32 (h_Sequence h) ∧
  (length (h_Ack h) = 3%nat ∧ bytes_ok (h_Ack h)) ∧ is_u8 (h_Type h) ∧
  is_u8 (h_DataOffset h) ∧ is_u8 (h_Flags h) ∧ is_u16 (h_Window h) ∧
  is_u16 (h_Checksum h) ∧ is_u16 (h_Urgent h) ∧ is_u64 (h_SenderID h).

Definition ack_ok (a : AckRecord) : Prop :=
  is_u64 (ar_ClientID a) ∧ is_u16 (ar_ServerPort a).

Definition data_ok (p : Data) : Prop :=
  common_ok (d_Common p) ∧ is_u32 (d_MessageLength p) ∧ is_u32 (d_Incoming p) ∧
  ack_ok (d_Ack p) ∧ is_u16 (d_CutoffVersion p) ∧ is_u8 (d_Retransmit p) ∧
  (length (d_Padding p) = 3%nat ∧ bytes_ok (d_Padding p)) ∧
  is_u32 (d_SegmentOffset p) ∧ bytes_ok (d_Payload p).

Definition packet_ok (p : Packet) : Prop :=
  match p with
  | PData p => data_ok p
  | PGrant p => common_ok (g_Common p) ∧ is_u32 (g_Offset p) ∧ is_u8 (g_Priority p)
  | PResend p => common_ok (rs_Common p) ∧ is_u32 (rs_Offset p) ∧
                 is_u32 (rs_Length p) ∧ is_u8 (rs_Priority p)
  | PCutoffs p => common_ok (cu_Common p) ∧
                  (length (cu_UnscheduledCutoffs p) = MaxPriorities ∧
                   Forall is_u32 (cu_UnscheduledCutoffs p)) ∧
                  is_u16 (cu_CutoffVersion p)
  | PAck p => common_ok (ak_Common p) ∧ is_u16 (ak_NumAcks p) ∧
              (length (ak_Acks p) = MaxAcks ∧ Forall ack_ok (ak_Acks p))
  | PRPCUnknown h | PBusy h | PFreeze h | PNeedAck h | PCommonPacket h | POther h =>
      common_ok h
  end.

(** [Common.Type] agrees with the struct, the acknowledgment count fits and
    the payload fits in an [int]: what [Marshal] accepts. *)
Definition marshalable `{GoPlatform} (p : Packet) : Prop :=
  match p with
  | PData p => h_Type (d_Common p) = DataType ∧ len (d_Payload p) ≤ maxInt - DataSize
  | PGrant p => h_Type (g_Common p) = GrantType
  | PResend p => h_Type (rs_Common p) = ResendType
  | PRPCUnknown h => h_Type h = RPCUnknownType
  | PBusy h => h_Type h = BusyType
  | PCutoffs p => h_Type (cu_Common p) = CutoffsType
  | PFreeze h => h_Type h = FreezeType
  | PNeedAck h => h_Type h = NeedAckType
  | PAck p => h_Type (ak_Common p) = AckType ∧ ak_NumAcks p ≤ Z.of_nat MaxAcks
  | PCommonPacket h => h_Type h ∈ [RPCUnknownType; BusyType; FreezeType; NeedAckType]
  | POther _ => False
  end.

(** The struct [Parse] returns for the bytes of [p]: a [CommonPacket] comes
    back as the dedicated struct of its type. *)
Definition canonical (p : Packet) : Packet :=
  match p with
  | PCommonPacket h =>
      if h_Type h =? RPCUnknownType then PRPCUnknown h
      else if h_Type h =? BusyType then PBusy h
      else if h_Type h =? FreezeType then PFreeze h
      else if h_Type h =? NeedAckType then PNeedAck h
      else p
  | _ => p
  end.

(** ** The bytes of a packet, field after field *)

Definition commonBytes (h : Common) : list Z :=
  be_encode 2 (h_SourcePort h) ++ be_encode 2 (h_DestinationPort h) ++
  be_encode 4 (h_Sequence h) ++ h_Ack h ++ [h_Type h; h_DataOffset h; h_Flags h] ++
  be_encode 2 (h_Window h) ++ be_encode 2 (h_Checksum h) ++ be_encode 2 (h_Urgent h) ++
  be_encode 8 (h_SenderID h).

Definition ackBytes (a : AckRecord) : list Z :=
  be_encode 8 (ar_ClientID a) ++ be_encode 2 (ar_ServerPort a).

Definition bodyBytes (p : Packet) : list Z :=
  match p with
  | PData p =>
      be_encode 4 (d_MessageLength p) ++ be_encode 4 (d_Incoming p) ++
      ackBytes (d_Ack p) ++ be_encode 2 (d_CutoffVersion p) ++ [d_Retransmit p] ++
      d_Padding p ++ be_encode 4 (d_SegmentOffset p) ++ d_Payload p
  | PGrant p => be_encode 4 (g_Offset p) ++ [g_Priority p]
  | PResend p =>
      be_encode 4 (rs_Offset p) ++ be_encode 4 (rs_Length p) ++ [rs_Priority p]
  | PCutoffs p =>
      concat (be_encode 4 <$> cu_UnscheduledCutoffs p) ++ be_encode 2 (cu_CutoffVersion p)
  | PAck p => be_encode 2 (ak_NumAcks p) ++ concat (ackBytes <$> ak_Acks p)
  | _ => []
  end.

Definition packetBytes (p : Packet) : list Z := commonBytes (Header p) ++ bodyBytes p.

End wire.
