(* ===== verification/WireFacts.v ===== *)
(** * Correctness of internal/wire *)
From S2P Require Import Prelude Wire.

#[local] Open Scope Z_scope.

Module wire_facts.
Import wire.

(** ** Marshalling writes the fields in order *)

Lemma marshalCommon_app z h rest :
  length z = 28%nat → length (h_Ack h) = 3%nat →
  marshalCommon (z ++ rest) h = Some (commonBytes h ++ rest).
Proof.
  destruct h as [? ? ? ack ? ? ? ? ? ? ?]. cbn [h_Ack]. intros Hz Ha.
  explode z Hz. explode ack Ha. reflexivity.
Qed.

(** The DATA fields between the common header and the payload. *)
Definition dataHead (p : Data) : list Z :=
  be_encode 4 (d_MessageLength p) ++ be_encode 4 (d_Incoming p) ++
  ackBytes (d_Ack p) ++ be_encode 2 (d_CutoffVersion p) ++ [d_Retransmit p] ++
  d_Padding p ++ be_encode 4 (d_SegmentOffset p).

Lemma bodyBytes_data p : bodyBytes (PData p) = dataHead p ++ d_Payload p.
Proof. unfold dataHead. cbn [bodyBytes]. by rewrite <- !app_assoc. Qed.

Lemma dataHead_length p : length (d_Padding p) = 3%nat → length (dataHead p) = 28%nat.
Proof.
  intros Hp. unfold dataHead, ackBytes.
  by rewrite !length_app, !be_encode_length, Hp.
Qed.

Lemma marshalData_app hd z zp p :
  length hd = 28%nat → length z = 28%nat → length zp = length (d_Payload p) →
  length (d_Padding p) = 3%nat →
  marshalBody (hd ++ z ++ zp) (PData p) = Some (hd ++ bodyBytes (PData p)).
Proof.
  intros Hhd Hz Hzp Hp. rewrite bodyBytes_data, app_assoc.
  transitivity (bput ((hd ++ dataHead p) ++ zp) 56 (d_Payload p)).
  - destruct p as [? ? ? [? ?] ? ? pad ? payload]. cbn [d_Padding] in Hp.
    explode hd Hhd. explode z Hz. explode pad Hp. reflexivity.
  - rewrite bput_end; [by rewrite <- app_assoc| |done].
    by rewrite length_app, dataHead_length, Hhd.
Qed.

Lemma marshalBody_app hd z p :
  packet_ok p → length hd = 28%nat → length z = length (bodyBytes p) →
  marshalBody (hd ++ z) p = Some (hd ++ bodyBytes p).
Proof.
  destruct p as [p|p|p|h|h|p|h|h|p|h|h]; intros Hok Hhd Hz;
    try (explode hd Hhd; explode z Hz; reflexivity).
  - destruct Hok as (_&_&_&_&_&_&[Hpad _]&_&_).
    rewrite <- (take_drop 28 z). apply marshalData_app; try done.
    + rewrite length_take, Hz. destruct p as [? ? ? [? ?] ? ? pad ? ?].
      cbn [d_Padding] in Hpad. explode pad Hpad. simpl. lia.
    + rewrite length_drop, Hz. destruct p as [? ? ? [? ?] ? ? pad ? ?].
      cbn [d_Padding] in Hpad. explode pad Hpad. simpl. lia.
  - destruct Hok as (_&[Hl _]&_). destruct p as [? cs ?]. cbn [cu_UnscheduledCutoffs] in Hl.
    explode cs Hl. explode hd Hhd. explode z Hz. reflexivity.
  - destruct Hok as (_&_&[Hl _]). destruct p as [? ? acks]. cbn [ak_Acks] in Hl.
    explode acks Hl. explode hd Hhd. explode z Hz. reflexivity.
Qed.
Lemma commonBytes_length h : length (h_Ack h) = 3%nat → length (commonBytes h) = 28%nat.
Proof. intros Ha. unfold commonBytes. by rewrite !length_app, !be_encode_length, Ha. Qed.

(** The bytes that follow the fixed header. *)
Definition payloadOf (p : Packet) : list Z :=
  match p with PData p => d_Payload p | _ => [] end.

(** What [Marshal] accepts passes its tests, with the size of its fields. *)
Lemma marshalable_spec `{GoPlatform} p :
  packet_ok p → marshalable p →
  ∃ size, HeaderSize (h_Type (Header p)) = Some size ∧
    expectedType p size = inr (h_Type (Header p), payloadOf p) ∧
    28 + len (bodyBytes p) = size + len (payloadOf p) ∧
    len (payloadOf p) ≤ maxInt - size ∧ 28 ≤ size.
Proof.
  pose proof maxInt_lower as Hmax. intros Hok Hm.
  destruct p as [p|p|p|h|h|p|h|h|p|h|h]; cbn [Header marshalable payloadOf] in *;
    try (rewrite Hm; eexists; split; [vm_compute; reflexivity|];
         split; [done|]; split; [reflexivity|]; rewrite len_nil; lia).
  - destruct Hm as [Hm Hl], Hok as (_&_&_&_&_&_&[Hpad _]&_&_).
    rewrite Hm. eexists. split; [vm_compute; reflexivity|]. split; [done|].
    rewrite bodyBytes_data, len_app.
    unfold len at 1. rewrite dataHead_length by done. unfold DataSize in Hl. lia.
  - destruct Hok as (_&[Hl _]&_). destruct p as [? cs ?].
    cbn [cu_UnscheduledCutoffs cu_Common] in *. explode cs Hl.
    rewrite Hm. eexists. split; [vm_compute; reflexivity|].
    split; [done|]. split; [reflexivity|]. rewrite len_nil; lia.
  - destruct Hok as (_&_&[Hl _]), Hm as [Hm Hn]. destruct p as [? ? acks].
    cbn [ak_Acks ak_Common ak_NumAcks] in *. explode acks Hl.
    rewrite Hm. eexists. split; [vm_compute; reflexivity|].
    cbn [expectedType ak_NumAcks]. rewrite (proj2 (Z.ltb_ge _ _)) by done.
    split; [done|]. split; [reflexivity|]. rewrite len_nil; lia.
  - exists CommonSize. split.
    + set_unfold in Hm. by destruct Hm as [-> |[-> |[-> |[-> |[]]]]].
    + split; [done|]. split; [reflexivity|]. rewrite len_nil. unfold CommonSize. lia.
  - done.
Qed.

Lemma packet_ok_header p : packet_ok p → common_ok (Header p).
Proof. destruct p; cbn; unfold data_ok; tauto. Qed.

Lemma canonical_header p : Header (canonical p) = Header p.
Proof. destruct p; try done. cbn. by repeat case_match. Qed.

(** [Marshal] writes exactly the fields of the packet, in order. *)
Lemma marshalValue_bytes `{GoPlatform} p :
  packet_ok p → marshalable p → marshalValue p = Some (inr (packetBytes p)).
Proof.
  intros Hok Hm. destruct (marshalable_spec p Hok Hm) as (size&Hs&He&Hlen&Hmax&Hsize).
  unfold marshalValue. rewrite Hs, He, Z.eqb_refl. cbn [negb].
  rewrite (proj2 (Z.ltb_ge _ _)) by lia.
  pose proof (packet_ok_header p Hok) as (_&_&_&[Ha _]&_).
  replace (Z.to_nat (size + len (payloadOf p))) with (28 + length (bodyBytes p))%nat
    by (unfold len in *; lia).
  rewrite replicate_add, marshalCommon_app by done. cbn [mbind option_bind].
  rewrite marshalBody_app; [done|done|by apply commonBytes_length|].
  by rewrite length_replicate.
Qed.

(** ** Parsing reads them back *)

Lemma u8_byte z : is_u8 z ↔ is_byte z.
Proof. done. Qed.

Lemma decode16 v : is_u16 v → be_decode (be_encode 2 v) = v.
Proof. apply (be_decode_encode 2). Qed.
Lemma decode32 v : is_u32 v → be_decode (be_encode 4 v) = v.
Proof. apply (be_decode_encode 4). Qed.
Lemma decode64 v : is_u64 v → be_decode (be_encode 8 v) = v.
Proof. apply (be_decode_encode 8). Qed.

Lemma parseCommon_bytes h rest :
  common_ok h → parseCommon (commonBytes h ++ rest) = Some h.
Proof.
  destruct h as [src dst sq ack t o f w c u id].
  intros (Hs&Hd&Hq&[Ha _]&_&_&_&Hw&Hc&Hu&Hi). cbn in *. explode ack Ha.
  transitivity (Some {|
    h_SourcePort := be_decode (be_encode 2 src); h_DestinationPort := be_decode (be_encode 2 dst);
    h_Sequence := be_decode (be_encode 4 sq); h_Ack := [z; z0; z1]; h_Type := t;
    h_DataOffset := o; h_Flags := f; h_Window := be_decode (be_encode 2 w);
    h_Checksum := be_decode (be_encode 2 c); h_Urgent := be_decode (be_encode 2 u);
    h_SenderID := be_decode (be_encode 8 id) |}); [reflexivity|].
  by rewrite !decode16, decode32, decode64.
Qed.
(** A list whose first 28 elements are given. *)
Ltac explode_common h Ha :=
  let ack := fresh "ack" in
  destruct h as [? ? ? ack ? ? ? ? ? ? ?]; cbn [h_Ack] in Ha; explode ack Ha.

Lemma parseData_bytes h p :
  length (h_Ack h) = 3%nat → data_ok p →
  parseData (d_Common p) (commonBytes h ++ bodyBytes (PData p)) = Some p.
Proof.
  intros Ha (_&Hml&Hinc&[Hci Hsp]&Hcv&_&[Hpad _]&Hso&_).
  rewrite bodyBytes_data, app_assoc. unfold parseData.
  rewrite slice_tail by (unfold len; rewrite length_app, commonBytes_length, dataHead_length by done; done).
  destruct p as [c ml inc [cid port] cv rt pad so payload]. cbn in *. explode pad Hpad.
  explode_common h Ha.
  transitivity (Some {|
    d_Common := c; d_MessageLength := be_decode (be_encode 4 ml);
    d_Incoming := be_decode (be_encode 4 inc);
    d_Ack := {| ar_ClientID := be_decode (be_encode 8 cid);
                ar_ServerPort := be_decode (be_encode 2 port) |};
    d_CutoffVersion := be_decode (be_encode 2 cv); d_Retransmit := rt;
    d_Padding := [z; z0; z1]; d_SegmentOffset := be_decode (be_encode 4 so);
    d_Payload := payload |}); [reflexivity|].
  by rewrite !decode32, !decode16, decode64.
Qed.
(** The tests [Parse] makes before it reads the fields of the packet. *)
Lemma Parse_unfold `{GoPlatform} p pad :
  packet_ok p → marshalable p →
  (len (packetBytes p ++ pad) <? CommonSize) = false ∧
  parseCommon (packetBytes p ++ pad) = Some (Header p) ∧
  ∃ size, HeaderSize (h_Type (Header p)) = Some size ∧
          (len (packetBytes p ++ pad) <? size) = false.
Proof.
  intros Hok Hm. destruct (marshalable_spec p Hok Hm) as (size&Hs&_&Hlen&_&Hsize).
  pose proof (packet_ok_header p Hok) as Hh. destruct (Hh) as (_&_&_&[Ha _]&_).
  pose proof (len_nonneg pad). pose proof (len_nonneg (payloadOf p)).
  assert (len (packetBytes p ++ pad) = 28 + len (bodyBytes p) + len pad) as ->.
  { unfold packetBytes. rewrite !len_app. unfold len at 1.
    rewrite commonBytes_length by done. lia. }
  split; [apply Z.ltb_ge; unfold CommonSize; lia|]. split.
  - unfold packetBytes. rewrite <- app_assoc. by apply parseCommon_bytes.
  - exists size. split; [done|]. apply Z.ltb_ge. lia.
Qed.

Lemma Parse_bytes `{GoPlatform} p pad :
  packet_ok p → marshalable p → (∀ d, p = PData d → pad = []) →
  Parse (packetBytes p ++ pad) = Some (inr (canonical p)).
Proof.
  intros Hok Hm Hpad.
  destruct (Parse_unfold p pad Hok Hm) as (Hl&Hc&size&Hs&Hl').
  unfold Parse. rewrite Hl, Hc. cbn [mbind option_bind]. rewrite Hs, Hl'.
  pose proof (packet_ok_header p Hok) as (_&_&_&[Ha _]&_).
  destruct p as [p|p|p|h|h|p|h|h|p|h|h]; cbn [Header canonical] in *;
    cbn [marshalable] in Hm; try (by rewrite Hm).
  - destruct Hm as [-> _]. rewrite (Hpad p eq_refl), app_nil_r.
    unfold packetBytes. cbn [Z.eqb Pos.eqb DataType]. by rewrite parseData_bytes.
  - destruct Hok as (_&Ho&Hp), p as [h off prio]. cbn in *. rewrite Hm.
    transitivity (Some (inr (A:=error) (PGrant {| g_Common := h;
      g_Offset := be_decode (be_encode 4 off); g_Priority := prio |}))); [|by rewrite decode32].
    explode_common h Ha. reflexivity.
  - destruct Hok as (_&Ho&Hlen&Hp), p as [h off ln prio]. cbn in *. rewrite Hm.
    transitivity (Some (inr (A:=error) (PResend {| rs_Common := h;
      rs_Offset := be_decode (be_encode 4 off); rs_Length := be_decode (be_encode 4 ln);
      rs_Priority := prio |}))); [|by rewrite !decode32].
    explode_common h Ha. reflexivity.
  - destruct Hok as (_&[Hcs Hr]&Hv), p as [h cs v]. cbn in *. explode cs Hcs.
    rewrite Hm. cbn [Z.eqb Pos.eqb DataType GrantType ResendType RPCUnknownType BusyType CutoffsType].
    transitivity (Some (inr (A:=error) (PCutoffs {| cu_Common := h;
      cu_UnscheduledCutoffs := (be_decode ∘ be_encode 4) <$> [z;z0;z1;z2;z3;z4;z5;z6];
      cu_CutoffVersion := be_decode (be_encode 2 v) |}))).
    + explode_common h Ha. reflexivity.
    + rewrite !Forall_cons in Hr. destruct_and!. cbn [fmap list_fmap compose].
      by rewrite decode16, !decode32.
  - destruct Hok as (_&Hn&[Hacks Hr]), Hm as [Hm Hle], p as [h n acks]. cbn in *.
    explode acks Hacks. rewrite Hm.
    rewrite !Forall_cons in Hr. destruct_and!. unfold ack_ok in *. destruct_and!.
    destruct a as [c0 q0], a0 as [c1 q1], a1 as [c2 q2], a2 as [c3 q3], a3 as [c4 q4].
    cbn [ar_ClientID ar_ServerPort] in *.
    cbn [Z.eqb Pos.eqb DataType GrantType ResendType RPCUnknownType BusyType CutoffsType
         FreezeType NeedAckType AckType].
    transitivity (if Z.of_nat MaxAcks <? be_decode (be_encode 2 n)
      then Some (inl ErrAckCount) else
      Some (inr (A:=error) (PAck {| ak_Common := h; ak_NumAcks := be_decode (be_encode 2 n);
        ak_Acks := (λ '(c, q), {| ar_ClientID := be_decode (be_encode 8 c);
          ar_ServerPort := be_decode (be_encode 2 q) |}) <$>
          [(c0, q0); (c1, q1); (c2, q2); (c3, q3); (c4, q4)] |}))).
    + explode_common h Ha. reflexivity.
    + cbn [fmap list_fmap]. rewrite !decode16, !decode64 by done.
      by rewrite (proj2 (Z.ltb_ge _ _)).
  - set_unfold in Hm. by destruct Hm as [-> |[-> |[-> |[-> |[]]]]].
  - done.
Qed.

(** ** Every byte string is a packet, padding after one, or an error *)

Lemma encode2 x y : bytes_ok [x; y] → be_encode 2 (be_decode [x; y]) = [x; y].
Proof. apply (be_encode_decode [x; y]). Qed.
Lemma encode4 x y z w :
  bytes_ok [x; y; z; w] → be_encode 4 (be_decode [x; y; z; w]) = [x; y; z; w].
Proof. apply (be_encode_decode [x; y; z; w]). Qed.
Lemma encode8 a b c d x y z w :
  bytes_ok [a; b; c; d; x; y; z; w] →
  be_encode 8 (be_decode [a; b; c; d; x; y; z; w]) = [a; b; c; d; x; y; z; w].
Proof. apply (be_encode_decode [a; b; c; d; x; y; z; w]). Qed.

Lemma decode_u16 x y : bytes_ok [x; y] → is_u16 (be_decode [x; y]).
Proof. apply (be_decode_range [x; y]). Qed.
Lemma decode_u32 x y z w : bytes_ok [x; y; z; w] → is_u32 (be_decode [x; y; z; w]).
Proof. apply (be_decode_range [x; y; z; w]). Qed.
Lemma decode_u64 a b c d x y z w :
  bytes_ok [a; b; c; d; x; y; z; w] → is_u64 (be_decode [a; b; c; d; x; y; z; w]).
Proof. apply (be_decode_range [a; b; c; d; x; y; z; w]). Qed.

(** Split [bytes_ok] of an explicit list and rebuild it for its fields. *)
Ltac bytes_split H := unfold bytes_ok in H; rewrite ?Forall_cons in H; destruct_and! H.
Ltac bytes_field := unfold bytes_ok; rewrite ?Forall_cons; auto 12 using Forall_nil_2.

Ltac pop l H :=
  let x := fresh "x" in destruct l as [|x l]; [exfalso; simpl in H; lia|].

Ltac ok_fields :=
  split_and!;
  first [ done | by bytes_field
        | first [apply decode_u16 | apply decode_u32 | apply decode_u64];
          first [done | by bytes_field] ].

(** The fields of a common header, read off its 28 bytes. *)
Lemma common_inv b :
  bytes_ok b → (28 ≤ length b)%nat →
  ∃ h rest, b = commonBytes h ++ rest ∧ common_ok h ∧ bytes_ok rest.
Proof.
  intros Hb Hl. do 28 pop b Hl. bytes_split Hb.
  exists {|
    h_SourcePort := be_decode [x; x0]; h_DestinationPort := be_decode [x1; x2];
    h_Sequence := be_decode [x3; x4; x5; x6]; h_Ack := [x7; x8; x9];
    h_Type := x10; h_DataOffset := x11; h_Flags := x12;
    h_Window := be_decode [x13; x14]; h_Checksum := be_decode [x15; x16];
    h_Urgent := be_decode [x17; x18];
    h_SenderID := be_decode [x19; x20; x21; x22; x23; x24; x25; x26] |}, b.
  split; [|split].
  - unfold commonBytes. cbn [h_SourcePort h_DestinationPort h_Sequence h_Ack h_Type
      h_DataOffset h_Flags h_Window h_Checksum h_Urgent h_SenderID].
    rewrite !encode2, encode4, encode8 by bytes_field. reflexivity.
  - unfold common_ok. cbn [h_SourcePort h_DestinationPort h_Sequence h_Ack h_Type
      h_DataOffset h_Flags h_Window h_Checksum h_Urgent h_SenderID].
    ok_fields.
  - done.
Qed.

Lemma ack_inv b :
  bytes_ok b → length b = 10%nat → ∃ a, b = ackBytes a ∧ ack_ok a.
Proof.
  intros Hb Hl. explode b Hl. bytes_split Hb.
  exists {| ar_ClientID := be_decode [z; z0; z1; z2; z3; z4; z5; z6];
            ar_ServerPort := be_decode [z7; z8] |}.
  split; [|unfold ack_ok; cbn [ar_ClientID ar_ServerPort]; ok_fields].
  unfold ackBytes. cbn [ar_ClientID ar_ServerPort].
  rewrite encode2, encode8 by bytes_field. reflexivity.
Qed.

Lemma data_inv h b :
  common_ok h → bytes_ok b → (28 ≤ length b)%nat →
  ∃ p, d_Common p = h ∧ b = bodyBytes (PData p) ∧ data_ok p.
Proof.
  intros Hh Hb Hl.
  rewrite <- (take_drop 8 b) in Hb. apply Forall_app in Hb as [Hb1 Hb].
  rewrite <- (take_drop 10 (drop 8 b)) in Hb. apply Forall_app in Hb as [Hb2 Hb].
  destruct (ack_inv (take 10 (drop 8 b)) Hb2) as (a&Ea&Ha).
  { rewrite length_take, length_drop. lia. }
  do 28 pop b Hl. cbn [take drop] in *.
  bytes_split Hb1. bytes_split Hb.
  exists {| d_Common := h; d_MessageLength := be_decode [x; x0; x1; x2];
    d_Incoming := be_decode [x3; x4; x5; x6]; d_Ack := a;
    d_CutoffVersion := be_decode [x17; x18]; d_Retransmit := x19;
    d_Padding := [x20; x21; x22]; d_SegmentOffset := be_decode [x23; x24; x25; x26];
    d_Payload := b |}.
  split; [done|]. split.
  - rewrite bodyBytes_data. unfold dataHead.
    cbn [d_MessageLength d_Incoming d_Ack d_CutoffVersion d_Retransmit d_Padding
         d_SegmentOffset d_Payload].
    rewrite <- Ea, encode2, !encode4 by bytes_field. reflexivity.
  - unfold data_ok. cbn [d_MessageLength d_Incoming d_Ack d_CutoffVersion d_Retransmit
      d_Padding d_SegmentOffset d_Payload d_Common]. ok_fields.
Qed.

Lemma cutoffs_inv n b :
  bytes_ok b → length b = (4 * n)%nat →
  ∃ cs, b = concat (be_encode 4 <$> cs) ∧ length cs = n ∧ Forall is_u32 cs.
Proof.
  revert b. induction n as [|n IH]; intros b Hb Hl.
  - exists []. destruct b; [done|]. simpl in Hl. lia.
  - do 4 pop b Hl. bytes_split Hb.
    destruct (IH b) as (cs&->&?&?); [done|simpl in Hl; lia|].
    exists (be_decode [x; x0; x1; x2] :: cs). cbn [fmap list_fmap concat length].
    rewrite encode4 by bytes_field. split; [done|]. split; [by f_equal|].
    constructor; [|done]. apply decode_u32. bytes_field.
Qed.

Lemma acks_inv n b :
  bytes_ok b → length b = (10 * n)%nat →
  ∃ acks, b = concat (ackBytes <$> acks) ∧ length acks = n ∧ Forall ack_ok acks.
Proof.
  revert b. induction n as [|n IH]; intros b Hb Hl.
  - exists []. destruct b; [done|]. simpl in Hl. lia.
  - rewrite <- (take_drop 10 b) in Hb. apply Forall_app in Hb as [Hb1 Hb2].
    destruct (ack_inv (take 10 b) Hb1) as (a&Ea&Ha); [rewrite length_take; lia|].
    destruct (IH (drop 10 b) Hb2) as (acks&Er&?&?); [rewrite length_drop; lia|].
    exists (a :: acks). cbn [fmap list_fmap concat length].
    rewrite <- Ea.
    split; [|split; [by f_equal|by constructor]].
    rewrite <- (take_drop 10 b) at 1. by f_equal.
Qed.

(** A value of the packet interface that [Parse] can return, as the bytes
    after the common header [h] encode it. *)
Definition bodyOf `{GoPlatform} (h : Common) (rest : list Z) (p : Packet) (pad : list Z) : Prop :=
  Header p = h ∧ rest = bodyBytes p ++ pad ∧ packet_ok p ∧ marshalable p ∧
  canonical p = p ∧ (∀ d, p = PData d → pad = []).

Lemma HeaderSize_inv t size :
  HeaderSize t = Some size →
  t = DataType ∧ size = DataSize ∨ t = GrantType ∧ size = GrantSize ∨
  t = ResendType ∧ size = ResendSize ∨ t = CutoffsType ∧ size = CutoffsSize ∨
  t = AckType ∧ size = AckSize ∨
  t ∈ [RPCUnknownType; BusyType; FreezeType; NeedAckType] ∧ size = CommonSize.
Proof.
  unfold HeaderSize. repeat case_if; intros [= <-]; auto 10.
  do 5 right. split; [|done]. rewrite !orb_true_iff, !Z.eqb_eq in *. set_unfold. tauto.
Qed.

Lemma split_bytes n b :
  bytes_ok b → Z.of_nat n ≤ len b →
  ∃ hd tl, b = hd ++ tl ∧ length hd = n ∧ bytes_ok hd ∧ bytes_ok tl.
Proof.
  unfold len. intros Hb Hl. exists (take n b), (drop n b).
  rewrite take_drop, length_take. split; [done|]. split; [lia|].
  split; [by apply Forall_take|by apply Forall_drop].
Qed.

Lemma grant_inv `{GoPlatform} h rest :
  common_ok h → h_Type h = GrantType → bytes_ok rest → 5 ≤ len rest →
  ∃ p pad, bodyOf h rest p pad.
Proof.
  intros Hh Ht Hb Hl. destruct (split_bytes 5 rest Hb Hl) as (hd&pad&->&Hhd&Hok&_).
  explode hd Hhd. bytes_split Hok.
  exists (PGrant {| g_Common := h; g_Offset := be_decode [z; z0; z1; z2]; g_Priority := z3 |}), pad.
  split; [done|]. split.
  { cbn [bodyBytes g_Offset g_Priority]. by rewrite encode4 by bytes_field. }
  split; [cbn [packet_ok g_Common g_Offset g_Priority]; ok_fields|]. done.
Qed.

Lemma resend_inv `{GoPlatform} h rest :
  common_ok h → h_Type h = ResendType → bytes_ok rest → 9 ≤ len rest →
  ∃ p pad, bodyOf h rest p pad.
Proof.
  intros Hh Ht Hb Hl. destruct (split_bytes 9 rest Hb Hl) as (hd&pad&->&Hhd&Hok&_).
  explode hd Hhd. bytes_split Hok.
  exists (PResend {| rs_Common := h; rs_Offset := be_decode [z; z0; z1; z2];
    rs_Length := be_decode [z3; z4; z5; z6]; rs_Priority := z7 |}), pad.
  split; [done|]. split.
  { cbn [bodyBytes rs_Offset rs_Length rs_Priority]. by rewrite !encode4 by bytes_field. }
  split; [cbn [packet_ok rs_Common rs_Offset rs_Length rs_Priority]; ok_fields|]. done.
Qed.

Lemma cutoffs_body_inv `{GoPlatform} h rest :
  common_ok h → h_Type h = CutoffsType → bytes_ok rest → 34 ≤ len rest →
  ∃ p pad, bodyOf h rest p pad.
Proof.
  intros Hh Ht Hb Hl. destruct (split_bytes 34 rest Hb Hl) as (hd&pad&->&Hhd&Hok&_).
  destruct (split_bytes 32 hd Hok) as (hc&hv&->&Hhc&Hokc&Hokv); [unfold len; lia|].
  destruct (cutoffs_inv 8 hc Hokc Hhc) as (cs&->&Hcs&Hr).
  rewrite length_app in Hhd. assert (length hv = 2%nat) as Hhv by lia.
  clear Hhd Hok Hokc. explode hv Hhv.
  exists (PCutoffs {| cu_Common := h; cu_UnscheduledCutoffs := cs;
    cu_CutoffVersion := be_decode [z; z0] |}), pad.
  split; [done|]. split.
  { cbn [bodyBytes cu_UnscheduledCutoffs cu_CutoffVersion]. by rewrite encode2. }
  split; [cbn [packet_ok cu_Common cu_UnscheduledCutoffs cu_CutoffVersion]; ok_fields|]. done.
Qed.

Lemma ack_body_inv `{GoPlatform} h rest :
  common_ok h → h_Type h = AckType → bytes_ok rest → 52 ≤ len rest →
  (∃ n tl, rest = be_encode 2 n ++ tl ∧ is_u16 n ∧ 5 < n) ∨ ∃ p pad, bodyOf h rest p pad.
Proof.
  intros Hh Ht Hb Hl. destruct (split_bytes 52 rest Hb Hl) as (hd&pad&->&Hhd&Hok&_).
  destruct (split_bytes 2 hd Hok) as (hn&ha&->&Hhn&Hokn&Hoka); [unfold len; lia|].
  rewrite length_app in Hhd.
  destruct (acks_inv 5 ha Hoka) as (acks&->&Hacks&Hr); [lia|].
  clear Hhd Hok Hoka. explode hn Hhn.
  pose proof (decode_u16 _ _ Hokn) as Hn. pose proof (encode2 _ _ Hokn) as En.
  destruct (decide (5 < be_decode [z; z0])) as [Hgt|Hle].
  - left. exists (be_decode [z; z0]), (concat (ackBytes <$> acks) ++ pad).
    by rewrite En, <- app_assoc.
  - right. exists (PAck {| ak_Common := h; ak_NumAcks := be_decode [z; z0]; ak_Acks := acks |}), pad.
    split; [done|]. split.
    { cbn [bodyBytes ak_NumAcks ak_Acks]. by rewrite En. }
    split; [cbn [packet_ok ak_Common ak_NumAcks ak_Acks]; ok_fields|].
    split; [|done]. split; [done|].
    change (be_decode [z; z0] ≤ 5). lia.
Qed.

Lemma body_inv `{GoPlatform} h rest size :
  common_ok h → bytes_ok rest → HeaderSize (h_Type h) = Some size →
  size ≤ 28 + len rest → 28 + len rest ≤ maxInt →
  (h_Type h = AckType ∧ ∃ n tl, rest = be_encode 2 n ++ tl ∧ is_u16 n ∧ 5 < n) ∨
  ∃ p pad, bodyOf h rest p pad.
Proof.
  intros Hh Hb Hs Hl Hmax.
  destruct (HeaderSize_inv _ _ Hs) as [[Ht ->]|[[Ht ->]|[[Ht ->]|[[Ht ->]|[[Ht ->]|[Ht ->]]]]]];
    unfold DataSize, GrantSize, ResendSize, CutoffsSize, AckSize in Hl.
  - right. destruct (data_inv h rest Hh Hb) as (p&<-&->&Hp); [unfold len in Hl; lia|].
    exists (PData p), []. unfold bodyOf. rewrite app_nil_r. split_and!; try done.
    destruct Hp as (_&_&_&_&_&_&[Hpad _]&_). cbn [marshalable]. split; [done|].
    rewrite bodyBytes_data, len_app in Hmax. unfold len at 1 in Hmax.
    rewrite dataHead_length in Hmax by done. unfold DataSize. lia.
  - right. apply grant_inv; (done || lia).
  - right. apply resend_inv; (done || lia).
  - right. apply cutoffs_body_inv; (done || lia).
  - destruct (ack_body_inv h rest) as [?|?]; auto. lia.
  - right. set_unfold in Ht. destruct Ht as [Ht|[Ht|[Ht|[Ht|[]]]]].
    + by exists (PRPCUnknown h), rest.
    + by exists (PBusy h), rest.
    + by exists (PFreeze h), rest.
    + by exists (PNeedAck h), rest.
Qed.
(** What [Parse] does with a byte string. *)
Inductive parse_view `{GoPlatform} (b : list Z) : option (error + Packet) → Prop :=
| view_short : len b < CommonSize → parse_view b (Some (inl ErrTruncated))
| view_truncated t size :
    CommonSize ≤ len b → b !! 11%nat = Some t → HeaderSize t = Some size → len b < size →
    parse_view b (Some (inl ErrTruncated))
| view_type t :
    CommonSize ≤ len b → b !! 11%nat = Some t → HeaderSize t = None →
    parse_view b (Some (inl ErrType))
| view_acks n :
    AckSize ≤ len b → b !! 11%nat = Some AckType → Uint16 b 28 = Some n →
    Z.of_nat MaxAcks < n → parse_view b (Some (inl ErrAckCount))
| view_packet p pad :
    b = packetBytes p ++ pad → packet_ok p → marshalable p → canonical p = p →
    (∀ d, p = PData d → pad = []) → parse_view b (Some (inr p)).

Lemma type_byte h rest : length (h_Ack h) = 3%nat → (commonBytes h ++ rest) !! 11%nat = Some (h_Type h).
Proof. intros Ha. explode_common h Ha. reflexivity. Qed.

Lemma ack_count_field h n tl :
  length (h_Ack h) = 3%nat → is_u16 n →
  Uint16 (commonBytes h ++ be_encode 2 n ++ tl) 28 = Some n.
Proof.
  intros Ha Hn. rewrite <- (decode16 n Hn) at 2. explode_common h Ha. reflexivity.
Qed.

Lemma Parse_view `{GoPlatform} b : bytes_ok b → len b ≤ maxInt → parse_view b (Parse b).
Proof.
  intros Hb Hmax. unfold Parse. case_if; [by constructor|].
  destruct (common_inv b Hb) as (h&rest&->&Hh&Hrest); [unfold len, CommonSize in *; lia|].
  destruct (Hh) as (_&_&_&[Ha _]&_).
  assert (len (commonBytes h ++ rest) = 28 + len rest) as Elen.
  { rewrite len_app. unfold len at 1. by rewrite commonBytes_length. }
  rewrite parseCommon_bytes by done. cbn [mbind option_bind].
  destruct (HeaderSize (h_Type h)) as [size|] eqn:Hs; cycle 1.
  { by eapply view_type; [|apply type_byte|]. }
  case_if; [by eapply view_truncated; [|apply type_byte| |]|].
  destruct (body_inv h rest size) as [(Ht&n&tl&->&Hn&Hgt)|(p&pad&<-&->&Hok&Hm&Hc&Hpad)];
    [done|done|done|lia|lia|..].
  - rewrite Ht in Hs |- *. vm_compute in Hs. injection Hs as <-.
    rewrite ack_count_field by done. cbn [mbind option_bind].
    replace (Z.of_nat MaxAcks <? n) with true by (symmetry; by apply Z.ltb_lt).
    eapply view_acks; [unfold AckSize; lia| |by apply ack_count_field|done].
    by rewrite type_byte, Ht.
  - pose proof (Parse_bytes p pad Hok Hm Hpad) as HP.
    unfold Parse, packetBytes in HP. rewrite <- app_assoc in HP.
    rewrite (proj2 (Z.ltb_ge _ _)) in HP by done.
    rewrite parseCommon_bytes in HP by done. cbn [mbind option_bind] in HP.
    rewrite Hs, (proj2 (Z.ltb_ge _ _)) in HP by done. rewrite HP, Hc.
    eapply view_packet; try done. unfold packetBytes. by rewrite <- app_assoc.
Qed.

(** ** Theorems *)

(** C20: round trip.  [Marshal] serializes every well-formed packet without a
    panic or an error, into as many bytes as its fixed header and payload
    have, and [Parse] gives the same packet back, also when padding follows a
    control packet. *)
Theorem marshal_parse_roundtrip `{GoPlatform} p :
  packet_ok p → marshalable p →
  ∃ b size, Marshal (AValue p) = Some (inr b) ∧
    HeaderSize (h_Type (Header p)) = Some size ∧ len b = size + len (payloadOf p) ∧
    ∀ pad, (∀ d, p = PData d → pad = []) → Parse (b ++ pad) = Some (inr (canonical p)).
Proof.
  intros Hok Hm. exists (packetBytes p).
  destruct (marshalable_spec p Hok Hm) as (size&Hs&_&Hlen&_).
  destruct (packet_ok_header p Hok) as (_&_&_&[Ha _]&_).
  exists size. split; [by apply marshalValue_bytes|]. split; [done|]. split.
  - unfold packetBytes. rewrite len_app. unfold len at 1.
    rewrite commonBytes_length by done. lia.
  - intros pad. by apply Parse_bytes.
Qed.

(** C21: [Parse] neither panics nor loses a byte.  Whatever it accepts is a
    well-formed packet whose serialization is the datagram itself, up to
    trailing padding of control packets; DATA keeps every byte. *)
Theorem parse_lossless `{GoPlatform} b p :
  bytes_ok b → len b ≤ maxInt → Parse b = Some (inr p) →
  packet_ok p ∧ ∃ bs pad, Marshal (AValue p) = Some (inr bs) ∧ b = bs ++ pad ∧
    (∀ d, p = PData d → pad = []).
Proof.
  intros Hb Hmax HP. pose proof (Parse_view b Hb Hmax) as V. rewrite HP in V.
  inversion V as [| | | |? pad ? ? ? ? ?]; subst. split; [done|].
  exists (packetBytes p), pad. split; [by apply marshalValue_bytes|done].
Qed.

(** The errors of [Parse] are exactly the malformed datagrams: a string
    shorter than the common header or than the header of its type, a type
    byte with no header, more than five acknowledgments.  There is no other
    outcome than these errors or a packet. *)
Theorem parse_errors `{GoPlatform} b :
  bytes_ok b → len b ≤ maxInt →
  match Parse b with
  | None => False
  | Some (inl ErrTruncated) =>
      len b < CommonSize ∨
      ∃ t size, b !! 11%nat = Some t ∧ HeaderSize t = Some size ∧ len b < size
  | Some (inl ErrType) => CommonSize ≤ len b ∧ ∃ t, b !! 11%nat = Some t ∧ HeaderSize t = None
  | Some (inl ErrAckCount) =>
      AckSize ≤ len b ∧ b !! 11%nat = Some AckType ∧
      ∃ n, Uint16 b 28 = Some n ∧ Z.of_nat MaxAcks < n
  | Some (inl ErrDataBounds) => False
  | Some (inr p) =>
      ∃ size, b !! 11%nat = Some (h_Type (Header p)) ∧
              HeaderSize (h_Type (Header p)) = Some size ∧ size ≤ len b
  end.
Proof.
  intros Hb Hmax. destruct (Parse_view b Hb Hmax) as [?|t size ? ? ? ?|t ? ? ?|n ? ? ? ?|p pad -> Hok Hm ? ?];
    [by left|right; eauto|eauto|eauto|].
  destruct (Parse_unfold p pad Hok Hm) as (_&_&size&Hs&Hl).
  exists size. split; [|split; [done|by apply Z.ltb_ge]].
  destruct (packet_ok_header p Hok) as (_&_&_&[Ha _]&_).
  unfold packetBytes. rewrite <- app_assoc. by apply type_byte.
Qed.

Lemma EffectiveOffset_u32 p : data_ok p → is_u32 (EffectiveOffset p).
Proof.
  intros ((_&_&Hq&_)&_&_&_&_&_&_&Hso&_). unfold EffectiveOffset. by case_if.
Qed.

(** [ValidateBounds] in exact arithmetic. *)
Lemma ValidateBounds_spec p maxMessage :
  data_ok p → len (d_Payload p) < 2 ^ 63 →
  ValidateBounds p maxMessage = None ↔
    0 < d_MessageLength p ≤ maxMessage ∧
    EffectiveOffset p + len (d_Payload p) ≤ d_MessageLength p.
Proof.
  intros Hok Hl. pose proof (EffectiveOffset_u32 p Hok) as [? ?].
  destruct Hok as (_&[? ?]&_). pose proof (len_nonneg (d_Payload p)).
  unfold ValidateBounds. rewrite (u64_id (len _)) by (unfold is_u64; lia).
  rewrite u64_id by (unfold is_u64; lia).
  case_if.
  - split; [done|]. intros ?. rewrite !orb_true_iff, Z.eqb_eq, !Z.ltb_lt in *. lia.
  - split; [|done]. lia.
Qed.

(** The bounds check on DATA is exact.  No segment offset and payload
    length, the TCP-GSO sentinel offset included, wraps around into an
    accepted packet: acceptance means the payload lies inside a message of at
    most the configured length. *)
Theorem validate_bounds_exact p maxMessage :
  data_ok p → len (d_Payload p) < 2 ^ 63 →
  ValidateBounds p maxMessage = None ↔
    0 < d_MessageLength p ≤ maxMessage ∧
    0 ≤ EffectiveOffset p ∧
    EffectiveOffset p + len (d_Payload p) ≤ d_MessageLength p.
Proof.
  intros Hok Hl. pose proof (EffectiveOffset_u32 p Hok) as [? ?].
  rewrite ValidateBounds_spec by done. tauto.
Qed.

Lemma marshalValue_error `{GoPlatform} p :
  ¬ marshalable p → packet_ok p → ∃ e, marshalValue p = Some (inl e).
Proof.
  intros Hm Hok. unfold marshalValue.
  destruct (HeaderSize (h_Type (Header p))) as [size|] eqn:Hs; [|by eexists].
  destruct (expectedType p size) as [e|[expected payload]] eqn:He; [by eexists|].
  destruct (h_Type (Header p) =? expected) eqn:Et; [|by eexists]. cbn [negb].
  case_if; [by eexists|]. bool_to_prop. exfalso. apply Hm.
  destruct p as [p|p|p|h|h|p|h|h|p|h|h]; cbn [Header expectedType marshalable] in *;
    try done; try (injection He as <- <-); try done.
  - rewrite Et in Hs. vm_compute in Hs. injection Hs as <-. split; [done|].
    unfold DataSize. lia.
  - destruct (Z.of_nat MaxAcks <? ak_NumAcks p) eqn:En; [done|].
    injection He as <- <-. bool_to_prop. done.
  - destruct (size =? CommonSize) eqn:En; [|done]. bool_to_prop. subst size.
    destruct (HeaderSize_inv _ _ Hs) as [[_ E']|[[_ E']|[[_ E']|[[_ E']|[[_ E']|[? _]]]]]];
      done.
Qed.

(** [Marshal] rejects, with an error and never a panic, exactly the
    values whose header type, acknowledgment count or size do not fit their
    struct, every nil pointer and the nil interface; it serializes the others,
    and a pointer like the struct it points to. *)
Theorem marshal_rejects_exactly `{GoPlatform} p :
  packet_ok p →
  ((∃ e, Marshal (AValue p) = Some (inl e)) ↔ ¬ marshalable p) ∧
  Marshal (APointer (Some p)) = Marshal (AValue p) ∧
  Marshal (APointer None) = Some (inl ErrType) ∧ Marshal ANil = Some (inl ErrType).
Proof.
  intros Hok. split; [|done]. split.
  - intros [e He] Hm. cbn [Marshal] in He. by rewrite marshalValue_bytes in He.
  - intros Hm. by apply marshalValue_error.
Qed.

(** Sender and recipient IDs pair up: [LocalID] maps an even client ID to
    the odd server ID of the same RPC and back, within 64 bits. *)
Lemma local_id_pairs h h' :
  is_u64 (h_SenderID h) → h_SenderID h' = LocalID h →
  LocalID h' = h_SenderID h ∧ is_u64 (LocalID h) ∧
  Z.even (LocalID h) = negb (Z.even (h_SenderID h)).
Proof.
  intros Hid E. unfold LocalID in *. rewrite E. split; [|split].
  - by rewrite Z.lxor_assoc, Z.lxor_nilpotent, Z.lxor_0_r.
  - by apply is_u64_lxor_1.
  - apply lxor_1_even.
Qed.


(** ** The theorems at a concrete packet *)

Definition sample_common : Common := NewCommon DataType 40000 99 8.
Definition sample_data : Data := {|
  d_Common := sample_common; d_MessageLength := 5; d_Incoming := 5;
  d_Ack := {| ar_ClientID := 6; ar_ServerPort := 99 |}; d_CutoffVersion := 1; d_Retransmit := 0;
  d_Padding := [0; 0; 0]; d_SegmentOffset := 2; d_Payload := [7; 8; 9] |}.

Lemma sample_ok : packet_ok (PData sample_data).
Proof. repeat split; try done; repeat constructor; done. Qed.

Lemma marshal_parse_roundtrip_witness :
  ∃ b size, @Marshal amd64 (AValue (PData sample_data)) = Some (inr b) ∧
    HeaderSize DataType = Some size ∧ len b = size + 3 ∧
    @Parse (b ++ []) = Some (inr (PData sample_data)).
Proof.
  destruct (@marshal_parse_roundtrip amd64 (PData sample_data)) as (b&size&Hm&Hs&Hl&HP);
    [apply sample_ok|by vm_compute|].
  exists b, size. split; [exact Hm|]. split; [exact Hs|]. split; [exact Hl|]. by apply (HP []).
Defined.

Lemma parse_lossless_witness :
  packet_ok (PData sample_data) ∧ ∃ bs pad,
    @Marshal amd64 (AValue (PData sample_data)) = Some (inr bs) ∧
    packetBytes (PData sample_data) = bs ++ pad ∧ (∀ d, PData sample_data = PData d → pad = []).
Proof.
  apply (@parse_lossless amd64 (packetBytes (PData sample_data)));
    [apply (bool_decide_unpack _); vm_compute; exact I|by vm_compute|vm_compute; reflexivity].
Defined.

(** A datagram whose type byte is no packet type. *)
Lemma parse_errors_witness :
  Parse (replicate 30 0) = Some (inl ErrType) ∧
  CommonSize ≤ len (replicate 30 0) ∧ ∃ t, replicate 30 0 !! 11%nat = Some t ∧ HeaderSize t = None.
Proof.
  split; [vm_compute; reflexivity|].
  exact (@parse_errors amd64 (replicate 30 0) ltac:(by apply Forall_replicate) ltac:(by vm_compute)).
Defined.

Lemma validate_bounds_exact_witness :
  ValidateBounds sample_data 1000000 = None ∧
  0 < d_MessageLength sample_data ≤ 1000000 ∧ 0 ≤ EffectiveOffset sample_data ∧
  EffectiveOffset sample_data + len (d_Payload sample_data) ≤ d_MessageLength sample_data.
Proof.
  split; [vm_compute; reflexivity|].
  apply (validate_bounds_exact sample_data 1000000); [apply sample_ok|by vm_compute|vm_compute; reflexivity].
Defined.

Lemma marshal_rejects_exactly_witness :
  (∃ e, @Marshal amd64 (AValue (PCommonPacket sample_common)) = Some (inl e)) ∧
  ¬ @marshalable amd64 (PCommonPacket sample_common).
Proof.
  split; [eexists; vm_compute; reflexivity|].
  apply (@marshal_rejects_exactly amd64 (PCommonPacket sample_common)); [apply sample_ok|].
  eexists. vm_compute. reflexivity.
Defined.
End wire_facts.
