(* ===== verification/Assembly.v ===== *)
(** * The receive buffer of one message

    [assembly] of src/endpoint.go: the bytes of a partly received message, the
    bitmap of the bytes that arrived, their number, the length of the prefix
    without a hole and the offset up to which the sender may transmit.  The
    operations are the loops of [Endpoint.data] and [Endpoint.requestMissing],
    with [None] for an index out of range (a panic) or for a loop that did not
    stop within its fuel; both are excluded in AssemblyFacts. *)
From S2P Require Import Prelude.

#[local] Open Scope Z_scope.

Record assembly := mkAssembly {
  a_data : list Z; a_bits : list Z;
  a_count : Z; a_contiguous : Z; a_granted : Z
}.

(** [&assembly{data: make([]byte, n), bits: make([]byte, (n+7)/8), granted: granted}]. *)
Definition new_assembly (n granted : Z) : assembly := {|
  a_data := replicate (Z.to_nat n) 0;
  a_bits := replicate (Z.to_nat ((n + 7) `quot` 8)) 0;
  a_count := 0; a_contiguous := 0; a_granted := granted |}.

(** [byte(1 << uint(at%8))]. *)
Definition bit_mask (at_ : Z) : Z := u8 (Z.shiftl 1 (at_ `rem` 8)).

(** [bits[at/8]&(1<<uint(at%8)) != 0]. *)
Definition bit_test (bits : list Z) (at_ : Z) : option bool :=
  x ← idx bits (at_ `quot` 8);
  Some (negb (Z.land x (bit_mask at_) =? 0)).

(** [bits[at/8] |= mask]. *)
Definition bit_set (bits : list Z) (at_ : Z) : option (list Z) :=
  x ← idx bits (at_ `quot` 8);
  upd bits (at_ `quot` 8) (Z.lor x (bit_mask at_)).

(** The first loop over a segment: is a byte that already arrived different?
    [n] counts the bytes from [at_] to the end of the segment. *)
Fixpoint conflicts (a : assembly) (payload : list Z) (start at_ : Z) (n : nat) : option bool :=
  match n with
  | O => Some false
  | S n =>
      set ← bit_test (a_bits a) at_;
      if (set : bool) then
        x ← idx (a_data a) at_;
        y ← idx payload (at_ - start);
        if negb (x =? y) then Some true else conflicts a payload start (at_ + 1) n
      else conflicts a payload start (at_ + 1) n
  end.

(** The second loop: store the bytes that are new. *)
Fixpoint store_bytes (a : assembly) (payload : list Z) (start at_ : Z) (n : nat) : option assembly :=
  match n with
  | O => Some a
  | S n =>
      set ← bit_test (a_bits a) at_;
      if (set : bool) then store_bytes a payload start (at_ + 1) n
      else
        bits ← bit_set (a_bits a) at_;
        y ← idx payload (at_ - start);
        data ← upd (a_data a) at_ y;
        store_bytes {| a_data := data; a_bits := bits; a_count := a_count a + 1;
                       a_contiguous := a_contiguous a; a_granted := a_granted a |}
          payload start (at_ + 1) n
  end.

Definition raise_granted (a : assembly) (incoming : Z) : assembly := {|
  a_data := a_data a; a_bits := a_bits a; a_count := a_count a;
  a_contiguous := a_contiguous a; a_granted := Z.max (a_granted a) incoming |}.

(** The third loop: extend the prefix without a hole. *)
Fixpoint advance (fuel : nat) (a : assembly) : option assembly :=
  match fuel with
  | O => None
  | S fuel =>
      if a_contiguous a <? len (a_data a) then
        set ← bit_test (a_bits a) (a_contiguous a);
        if (set : bool) then
          advance fuel {| a_data := a_data a; a_bits := a_bits a; a_count := a_count a;
                          a_contiguous := a_contiguous a + 1; a_granted := a_granted a |}
        else Some a
      else Some a
  end.

(** A whole DATA segment: [Some None] is the rejected conflicting overlap. *)
Definition accept (a : assembly) (start : Z) (payload : list Z) (incoming : Z)
  : option (option assembly) :=
  bad ← conflicts a payload start start (length payload);
  if (bad : bool) then Some None
  else
    a ← store_bytes a payload start start (length payload);
    a ← advance (S (length (a_data a))) (raise_granted a incoming);
    Some (Some a).

(** The scan of [requestMissing]: the end of the first hole, from [at_] to at
    most [end_], where [n] counts the offsets left. *)
Fixpoint hole_end (bits : list Z) (at_ end_ : Z) (n : nat) : option Z :=
  match n with
  | O => Some end_
  | S n =>
      set ← bit_test bits at_;
      if (set : bool) then Some at_ else hole_end bits (at_ + 1) end_ n
  end.

(** The range [requestMissing] asks for: offset and length, or nothing. *)
Definition missing (a : assembly) : option (option (Z * Z)) :=
  let offset := a_contiguous a in
  let end_ := Z.min (a_granted a) (len (a_data a)) in
  end_ ← hole_end (a_bits a) offset end_ (Z.to_nat (end_ - offset));
  if end_ <=? offset then Some None else Some (Some (offset, end_ - offset)).
