(* ===== verification/AssemblyFacts.v ===== *)
(** * Correctness of the receive buffer

    The buffer refines an abstract partial message: a list with one optional
    byte per position.  Accepting a segment fills the empty positions it
    covers, and is refused when it disagrees with a byte that is there. *)
From S2P Require Import Prelude Assembly.

#[local] Open Scope Z_scope.

(** ** The abstract partial message *)

Definition filled (m : list (option Z)) : nat := length (omap id m).

Definition fill (m : list (option Z)) (i : nat) (x : Z) : list (option Z) :=
  match m !! i with
  | Some None => <[i := Some x]> m
  | _ => m
  end.

Fixpoint fill_all (m : list (option Z)) (i : nat) (payload : list Z) : list (option Z) :=
  match payload with
  | [] => m
  | x :: payload => fill_all (fill m i x) (S i) payload
  end.

(** Position [i + j] of [m] holds a byte other than [payload]'s [j]-th. *)
Definition disagrees (m : list (option Z)) (i : nat) (payload : list Z) : Prop :=
  ∃ j x y, m !! (i + j)%nat = Some (Some x) ∧ payload !! j = Some y ∧ x ≠ y.

Lemma filled_cons o m : filled (o :: m) = (match o with Some _ => 1 | None => 0 end + filled m)%nat.
Proof. by destruct o. Qed.

Lemma filled_empty n : filled (replicate n None) = 0%nat.
Proof. by induction n. Qed.

Lemma filled_le m : (filled m ≤ length m)%nat.
Proof. induction m as [|[x|] m IH]; [done|..]; rewrite filled_cons; simpl; lia. Qed.

Lemma filled_full m : filled m = length m ↔ Forall is_Some m.
Proof.
  induction m as [|o m IH]; [split; [constructor|done]|].
  rewrite filled_cons, Forall_cons, <- IH. pose proof (filled_le m).
  destruct o as [x|]; simpl; split.
  - intros. split; [by eexists|lia].
  - intros [_ ?]. lia.
  - intros. lia.
  - intros [[? [=]] _].
Qed.

Lemma filled_insert m i x :
  m !! i = Some None → filled (<[i := Some x]> m) = S (filled m).
Proof.
  revert i. induction m as [|o m IH]; intros [|i] Hi; simplify_eq/=.
  - by rewrite !filled_cons.
  - rewrite !filled_cons, IH by done. lia.
Qed.

Lemma fill_length m i x : length (fill m i x) = length m.
Proof. unfold fill. repeat case_match; rewrite ?length_insert; done. Qed.

Lemma fill_all_length m i p : length (fill_all m i p) = length m.
Proof. revert m i. induction p; intros; simpl; [done|]. by rewrite IHp, fill_length. Qed.

Lemma fill_lookup m i x k :
  fill m i x !! k = if decide (i = k) then
    (match m !! k with Some None => Some (Some x) | o => o end) else m !! k.
Proof.
  unfold fill. destruct (m !! i) as [[y|]|] eqn:Hi.
  - case_decide; [subst; by rewrite Hi|done].
  - case_decide as Hk.
    + subst. rewrite Hi. rewrite list_lookup_insert_eq; [done|]. by eapply lookup_lt_Some.
    + by rewrite list_lookup_insert_ne.
  - case_decide; [subst; by rewrite Hi|done].
Qed.

(** Filling writes each position once and only where it was empty. *)
Lemma fill_all_lookup m i p k :
  fill_all m i p !! k =
    match m !! k with
    | Some None => if decide (i ≤ k < i + length p)%nat then Some (p !! (k - i)%nat) else Some None
    | o => o
    end.
Proof.
  revert m i. induction p as [|x p IH]; intros m i; cbn [fill_all].
  - destruct (m !! k) as [[|]|]; try done. by rewrite decide_False by (simpl; lia).
  - rewrite IH, fill_lookup. destruct (decide (i = k)) as [<-|Hne].
    + destruct (m !! i) as [[y|]|]; try done.
      rewrite decide_True by (simpl; lia). by rewrite Nat.sub_diag.
    + destruct (m !! k) as [[y|]|]; try done. cbn [length].
      destruct (decide (S i ≤ k < S i + length p)%nat).
      * rewrite decide_True by lia. by replace (k - i)%nat with (S (k - S i)) by lia.
      * by rewrite decide_False by lia.
Qed.

Lemma disagrees_cons m i y p :
  disagrees m i (y :: p) ↔ (∃ x, m !! i = Some (Some x) ∧ x ≠ y) ∨ disagrees m (S i) p.
Proof.
  unfold disagrees. split.
  - intros ([|j]&x&z&Hm&Hp&Hne); simplify_eq/=.
    + left. rewrite Nat.add_0_r in Hm. eauto.
    + right. rewrite Nat.add_succ_r in Hm. eauto 6.
  - intros [(x&Hm&Hne)|(j&x&z&Hm&Hp&Hne)].
    + exists 0%nat, x, y. by rewrite Nat.add_0_r.
    + exists (S j), x, z. by rewrite Nat.add_succ_r.
Qed.

(** ** The bitmap *)

Definition received (bits : list Z) (i : nat) : bool :=
  match bits !! (i / 8)%nat with
  | Some x => Z.testbit x (Z.of_nat (i mod 8))
  | None => false
  end.

Definition abs (a : assembly) : list (option Z) :=
  imap (λ i x, if received (a_bits a) i then Some x else None) (a_data a).

Lemma abs_length a : length (abs a) = length (a_data a).
Proof. apply length_imap. Qed.

Lemma abs_lookup a i :
  abs a !! i = (λ x, if received (a_bits a) i then Some x else None) <$> a_data a !! i.
Proof. apply list_lookup_imap. Qed.

Lemma bit_mask_spec i : bit_mask (Z.of_nat i) = 2 ^ Z.of_nat (i mod 8).
Proof.
  unfold bit_mask. rewrite Z.rem_mod_nonneg, Z.shiftl_1_l by lia.
  rewrite Nat2Z.inj_mod. change (Z.of_nat 8) with 8.
  pose proof (Z.mod_pos_bound (Z.of_nat i) 8 ltac:(lia)).
  apply u8_id. unfold is_u8. split; [apply Z.pow_nonneg; lia|].
  apply Z.pow_lt_mono_r; lia.
Qed.

Lemma byte_index i : Z.to_nat (Z.of_nat i `quot` 8) = (i / 8)%nat.
Proof. rewrite Z.quot_div_nonneg by lia. rewrite <- (Nat2Z.id (i / 8)). by rewrite Nat2Z.inj_div. Qed.

Lemma idx_byte (bits : list Z) i : idx bits (Z.of_nat i `quot` 8) = bits !! (i / 8)%nat.
Proof.
  unfold idx. rewrite Z.quot_div_nonneg by lia.
  rewrite (proj2 (Z.ltb_ge _ _)) by (apply Z.div_pos; lia).
  rewrite <- Z.quot_div_nonneg by lia. by rewrite byte_index.
Qed.

Lemma land_pow2 x k : 0 ≤ k → negb (Z.land x (2 ^ k) =? 0) = Z.testbit x k.
Proof.
  intros Hk. destruct (Z.testbit x k) eqn:E.
  - apply negb_true_iff, Z.eqb_neq. intros H.
    apply (f_equal (λ z, Z.testbit z k)) in H.
    by rewrite Z.land_spec, Z.pow2_bits_true, E, Z.bits_0 in H by done.
  - apply negb_false_iff, Z.eqb_eq, Z.bits_inj'. intros n Hn.
    rewrite Z.land_spec, Z.bits_0. destruct (decide (k = n)) as [<-|].
    + by rewrite E.
    + by rewrite Z.pow2_bits_false, andb_false_r.
Qed.

Lemma bit_test_spec bits i :
  (i / 8 < length bits)%nat → bit_test bits (Z.of_nat i) = Some (received bits i).
Proof.
  intros Hi. unfold bit_test, received. rewrite idx_byte.
  destruct (lookup_lt_is_Some_2 bits _ Hi) as [x ->]. cbn [mbind option_bind].
  by rewrite bit_mask_spec, land_pow2 by lia.
Qed.

Lemma bit_set_spec bits i :
  (i / 8 < length bits)%nat →
  ∃ bits', bit_set bits (Z.of_nat i) = Some bits' ∧ length bits' = length bits ∧
    ∀ k, received bits' k = bool_decide (i = k) || received bits k.
Proof.
  intros Hi. unfold bit_set. rewrite idx_byte.
  destruct (lookup_lt_is_Some_2 bits _ Hi) as [x Hx]. rewrite Hx. cbn [mbind option_bind].
  rewrite upd_ok, byte_index.
  2:{ rewrite Z.quot_div_nonneg by lia. unfold len. split; [apply Z.div_pos; lia|].
      change 8 with (Z.of_nat 8). rewrite <- Nat2Z.inj_div. lia. }
  eexists. split; [done|]. split; [apply length_insert|]. intros k. unfold received.
  rewrite bit_mask_spec. destruct (decide (i / 8 = k / 8)%nat) as [E|E].
  - rewrite <- E, list_lookup_insert_eq, Hx by done.
    rewrite Z.lor_spec, orb_comm. f_equal. rewrite Z.pow2_bits_eqb by lia.
    case_bool_decide as Hk.
    + subst. apply Z.eqb_refl.
    + apply Z.eqb_neq. intros ?%Nat2Z.inj. apply Hk.
      rewrite (Nat.div_mod_eq i 8), (Nat.div_mod_eq k 8). congruence.
  - rewrite list_lookup_insert_ne by done. rewrite bool_decide_false by congruence. done.
Qed.

(** ** The invariant of a buffer *)

Record asm_core (a : assembly) : Prop := {
  core_bits : length (a_bits a) = ((length (a_data a) + 7) / 8)%nat;
  core_count : a_count a = Z.of_nat (filled (abs a));
  core_contig : 0 ≤ a_contiguous a ≤ len (a_data a);
  core_prefix : ∀ i, Z.of_nat i < a_contiguous a → received (a_bits a) i = true;
  core_granted : 0 ≤ a_granted a ≤ len (a_data a)
}.

(** Between segments the prefix is also maximal. *)
Definition asm_ok (a : assembly) : Prop :=
  asm_core a ∧
  (a_contiguous a < len (a_data a) →
   received (a_bits a) (Z.to_nat (a_contiguous a)) = false).

Lemma core_index a i :
  asm_core a → (i < length (a_data a))%nat → (i / 8 < length (a_bits a))%nat.
Proof.
  intros H Hi. rewrite (core_bits a H).
  pose proof (Nat.div_mod_eq i 8). pose proof (Nat.div_mod_eq (length (a_data a) + 7) 8).
  pose proof (Nat.mod_upper_bound (length (a_data a) + 7) 8). lia.
Qed.

Lemma bit_test_at a z :
  asm_core a → 0 ≤ z < len (a_data a) →
  bit_test (a_bits a) z = Some (received (a_bits a) (Z.to_nat z)).
Proof.
  intros Hc Hz. rewrite <- (Z2Nat.id z) at 1 by lia. apply bit_test_spec.
  apply core_index; [done|]. unfold len in Hz. lia.
Qed.

Lemma new_assembly_ok n granted :
  0 ≤ granted ≤ n → asm_ok (new_assembly n granted) ∧
  abs (new_assembly n granted) = replicate (Z.to_nat n) None ∧
  len (a_data (new_assembly n granted)) = n ∧
  len (a_bits (new_assembly n granted)) = (n + 7) `quot` 8.
Proof.
  intros Hn.
  assert (∀ i, received (a_bits (new_assembly n granted)) i = false) as Hr.
  { intros i. unfold received. cbn [new_assembly a_bits].
    destruct (_ !! _) as [x|] eqn:E; [|done].
    apply lookup_replicate in E as [-> _]. apply Z.testbit_0_l. }
  assert (abs (new_assembly n granted) = replicate (Z.to_nat n) None) as Ha.
  { apply list_eq. intros i. rewrite abs_lookup, Hr. cbn [new_assembly a_data].
    destruct (decide (i < Z.to_nat n)%nat).
    - by rewrite !lookup_replicate_2.
    - by rewrite !lookup_ge_None_2 by (rewrite length_replicate; lia). }
  split; [split; [split|]|split; [done|]]; cbn [new_assembly a_data a_bits a_count a_contiguous a_granted].
  - rewrite !length_replicate. rewrite Z.quot_div_nonneg by lia.
    rewrite Z2Nat.inj_div by lia. f_equal. lia.
  - by rewrite Ha, filled_empty.
  - unfold len. lia.
  - lia.
  - unfold len. rewrite length_replicate. lia.
  - intros _. apply Hr.
  - unfold len. rewrite !length_replicate. split; [lia|].
    rewrite Z2Nat.id; [done|]. apply Z.quot_pos; lia.
Qed.

(** ** The loops refine the abstract operations *)

Lemma conflicts_spec a payload start k :
  asm_core a → (start + length payload ≤ length (a_data a))%nat → (k ≤ length payload)%nat →
  ∃ bad, conflicts a payload (Z.of_nat start) (Z.of_nat (start + k)) (length payload - k) = Some bad ∧
    (bad = true ↔ disagrees (abs a) (start + k) (drop k payload)).
Proof.
  intros Hc Hfit Hk. remember (length payload - k)%nat as n eqn:Hn.
  revert k Hk Hn. induction n as [|n IH]; intros k Hk Hn; cbn [conflicts].
  - exists false. split; [done|]. split; [done|]. intros (j&x&y&_&Hy&_).
    rewrite lookup_drop, lookup_ge_None_2 in Hy by lia. done.
  - destruct (lookup_lt_is_Some_2 payload k ltac:(lia)) as [y Hy].
    destruct (lookup_lt_is_Some_2 (a_data a) (start + k) ltac:(lia)) as [x Hx].
    rewrite bit_test_spec by (apply core_index; [done|lia]). cbn [mbind option_bind].
    replace (Z.of_nat (start + k) + 1) with (Z.of_nat (start + S k)) by lia.
    destruct (IH (S k) ltac:(lia) ltac:(lia)) as (bad&Hbad&Hspec).
    assert (disagrees (abs a) (start + k) (drop k payload) ↔
      received (a_bits a) (start + k) = true ∧ x ≠ y ∨ bad = true) as Hd.
    { rewrite (drop_S _ _ _ Hy), disagrees_cons, abs_lookup, Hx, <- Nat.add_succ_r, <- Hspec.
      cbn [fmap option_fmap option_map]. clear. destruct (received _ _).
      - split; [intros [(?&[= <-]&?)|]|intros [[_ ?]|]]; eauto.
      - split; [intros [(?&[=]&?)|]|intros [[[=] ?]|]]; eauto. }
    destruct (received (a_bits a) (start + k)) eqn:Hr; cycle 1.
    { exists bad. split; [done|]. rewrite Hd. split; [auto|]. by intros [[[=] _]|]. }
    unfold idx. rewrite !(proj2 (Z.ltb_ge _ _)) by lia.
    rewrite Nat2Z.id, Hx. cbn [mbind option_bind].
    replace (Z.to_nat (Z.of_nat (start + k) - Z.of_nat start)) with k by lia.
    rewrite Hy. cbn [mbind option_bind]. destruct (Z.eqb_spec x y) as [->|Hne]; cbn [negb].
    + exists bad. split; [done|]. rewrite Hd. split; [auto|]. by intros [[_ []]|].
    + exists true. split; [done|]. rewrite Hd. split; auto.
Qed.

(** One new byte. *)
Lemma store_byte a bits i y :
  asm_core a → (i < length (a_data a))%nat → received (a_bits a) i = false →
  length bits = length (a_bits a) →
  (∀ k, received bits k = bool_decide (i = k) || received (a_bits a) k) →
  let a' := {| a_data := <[i := y]> (a_data a); a_bits := bits; a_count := a_count a + 1;
               a_contiguous := a_contiguous a; a_granted := a_granted a |} in
  asm_core a' ∧ abs a' = fill (abs a) i y.
Proof.
  intros Hc Hi Hr Hl Hb a'. destruct (lookup_lt_is_Some_2 _ _ Hi) as [x Hx].
  assert (abs a !! i = Some None) as Hn by by rewrite abs_lookup, Hx, Hr.
  assert (abs a' = <[i := Some y]> (abs a)) as Ha.
  { apply list_eq. intros k. rewrite abs_lookup. cbn [a' a_data a_bits]. rewrite Hb.
    case_bool_decide as Hk.
    - subst k. rewrite !list_lookup_insert_eq; [done| |done].
      by rewrite abs_length.
    - by rewrite !list_lookup_insert_ne, abs_lookup. }
  split; [|unfold fill; by rewrite Hn]. destruct Hc as [Hbits Hcount Hcontig Hprefix Hgr].
  split; cbn [a' a_data a_bits a_count a_contiguous a_granted].
  - by rewrite length_insert, Hl.
  - rewrite Ha, filled_insert by done. lia.
  - unfold len. by rewrite length_insert.
  - intros k Hk. rewrite Hb, Hprefix by done. apply orb_true_r.
  - unfold len. by rewrite length_insert.
Qed.

Lemma store_bytes_spec a payload start k :
  asm_core a → (start + length payload ≤ length (a_data a))%nat → (k ≤ length payload)%nat →
  ∃ a', store_bytes a payload (Z.of_nat start) (Z.of_nat (start + k)) (length payload - k) = Some a' ∧
    asm_core a' ∧ abs a' = fill_all (abs a) (start + k) (drop k payload) ∧
    length (a_data a') = length (a_data a) ∧ a_contiguous a' = a_contiguous a ∧
    a_granted a' = a_granted a.
Proof.
  intros Hc Hfit Hk. remember (length payload - k)%nat as n eqn:Hn.
  revert a Hc Hfit k Hk Hn. induction n as [|n IH]; intros a Hc Hfit k Hk Hn; cbn [store_bytes].
  - exists a. rewrite drop_ge by lia. done.
  - destruct (lookup_lt_is_Some_2 payload k ltac:(lia)) as [y Hy].
    destruct (lookup_lt_is_Some_2 (a_data a) (start + k) ltac:(lia)) as [x Hx].
    rewrite bit_test_spec by (apply core_index; [done|lia]). cbn [mbind option_bind].
    replace (Z.of_nat (start + k) + 1) with (Z.of_nat (start + S k)) by lia.
    rewrite (drop_S _ _ _ Hy). cbn [fill_all]. rewrite <- Nat.add_succ_r.
    destruct (received (a_bits a) (start + k)) eqn:Hr.
    + destruct (IH a Hc Hfit (S k)) as (a'&?&?&?&?); [lia..|]. exists a'.
      assert (fill (abs a) (start + k) y = abs a) as ->; [|done].
      unfold fill. by rewrite abs_lookup, Hx, Hr.
    + destruct (bit_set_spec (a_bits a) (start + k)) as (bits&Hs&Hl&Hb);
        [apply core_index; [done|lia]|]. rewrite Hs. cbn [mbind option_bind].
      unfold idx. rewrite (proj2 (Z.ltb_ge _ _)) by lia.
      replace (Z.to_nat (Z.of_nat (start + k) - Z.of_nat start)) with k by lia.
      rewrite Hy. cbn [mbind option_bind].
      rewrite upd_ok by (unfold len; lia). cbn [mbind option_bind]. rewrite Nat2Z.id.
      destruct (store_byte a bits (start + k) y) as [Hc' Ha']; [done|lia|done..|].
      destruct (IH _ Hc') with (k := S k) as (a'&Hst&?&Hab&Hlen&?&?);
        [cbn [a_data]; by rewrite length_insert|lia|lia|].
      exists a'. rewrite Hab, Ha'. cbn [a_data] in Hlen. by rewrite length_insert in Hlen.
Qed.

Lemma advance_spec fuel a :
  asm_core a → len (a_data a) - a_contiguous a < Z.of_nat fuel →
  ∃ a', advance fuel a = Some a' ∧ asm_ok a' ∧ abs a' = abs a ∧
    a_data a' = a_data a ∧ a_bits a' = a_bits a ∧ a_granted a' = a_granted a ∧
    a_count a' = a_count a ∧ a_contiguous a ≤ a_contiguous a'.
Proof.
  revert a. induction fuel as [|fuel IH]; intros a Hc Hf; cbn [advance].
  { pose proof (core_contig a Hc). lia. }
  case_if; cycle 1.
  { exists a. split_and!; try done. split; [done|]. lia. }
  pose proof (core_contig a Hc) as Hr.
  rewrite (bit_test_at a) by (done || lia).
  cbn [mbind option_bind]. destruct (received _ _) eqn:Hrec.
  - destruct (IH {| a_data := a_data a; a_bits := a_bits a; a_count := a_count a;
      a_contiguous := a_contiguous a + 1; a_granted := a_granted a |}) as (a'&?&?&?&?&?&?&?&?);
      [|cbn [a_data a_contiguous]; lia|].
    + destruct Hc as [Hb Hn Hct Hp Hg]. split; try done; cbn [a_data a_contiguous a_bits].
      * lia.
      * intros i Hi. destruct (decide (Z.of_nat i < a_contiguous a)); [auto|].
        rewrite <- Hrec. f_equal. lia.
    + exists a'. cbn [a_contiguous] in *. split_and!; try done. lia.
  - exists a. by split_and!.
Qed.

(** Accepting a segment that lies inside the buffer: no panic, and either the
    segment disagrees with stored bytes and is refused, or every empty
    position it covers is filled. *)
Lemma accept_spec a start payload incoming :
  asm_ok a → (start + length payload ≤ length (a_data a))%nat →
  0 ≤ incoming ≤ len (a_data a) →
  (disagrees (abs a) start payload ∧ accept a (Z.of_nat start) payload incoming = Some None) ∨
  (¬ disagrees (abs a) start payload ∧
   ∃ a', accept a (Z.of_nat start) payload incoming = Some (Some a') ∧ asm_ok a' ∧
     abs a' = fill_all (abs a) start payload ∧ length (a_data a') = length (a_data a) ∧
     length (a_bits a') = length (a_bits a) ∧
     a_granted a' = Z.max (a_granted a) incoming ∧ a_contiguous a ≤ a_contiguous a').
Proof.
  intros [Hc _] Hfit Hin. unfold accept.
  destruct (conflicts_spec a payload start 0) as (bad&Hbad&Hspec); [done..|lia|].
  rewrite Nat.add_0_r, Nat.sub_0_r, drop_0 in *. rewrite Hbad. cbn [mbind option_bind].
  destruct bad; [left; split; [by apply Hspec|done]|right].
  split; [intros ?; by apply Hspec in H|].
  destruct (store_bytes_spec a payload start 0) as (a1&Hs&Hc1&Ha1&Hl1&Hct1&Hg1); [done..|lia|].
  rewrite Nat.add_0_r, Nat.sub_0_r, drop_0 in *. rewrite Hs. cbn [mbind option_bind].
  destruct (advance_spec (S (length (a_data a1))) (raise_granted a1 incoming))
    as (a'&Hadv&Hok&Hab&Hd&Hb&Hg&_&Hct).
  - destruct Hc1. split; try done. cbn [raise_granted a_granted a_data].
    unfold len in *. rewrite Hl1 in *. lia.
  - cbn [raise_granted a_data a_contiguous]. pose proof (core_contig a1 Hc1).
    unfold len in *. lia.
  - rewrite Hadv. exists a'. split; [done|]. split; [done|].
    rewrite Hab, Hd, Hb, Hg. cbn [raise_granted a_data a_bits a_granted a_contiguous] in *.
    rewrite Hg1, <- Hct1. split_and!; try done.
    rewrite (core_bits a1 Hc1), (core_bits a Hc). congruence.
Qed.

(** ** Requesting what is missing *)

Lemma hole_end_spec a n z end_ :
  asm_core a → 0 ≤ z → z + Z.of_nat n = end_ → end_ ≤ len (a_data a) →
  ∃ e, hole_end (a_bits a) z end_ n = Some e ∧ z ≤ e ≤ end_ ∧
    (∀ i, z ≤ i < e → received (a_bits a) (Z.to_nat i) = false) ∧
    (e < end_ → received (a_bits a) (Z.to_nat e) = true).
Proof.
  intros Hc. revert z. induction n as [|n IH]; intros z Hz Hn Hl; cbn [hole_end].
  { exists end_. split_and!; (done || lia). }
  rewrite (bit_test_at a) by (done || lia). cbn [mbind option_bind].
  destruct (received _ _) eqn:Hr.
  - exists z. split_and!; (done || lia).
  - destruct (IH (z + 1)) as (e&->&?&Hnone&?); [lia..|].
    exists e. split_and!; (done || lia || idtac).
    intros i Hi. destruct (decide (i = z)) as [->|]; [done|]. apply Hnone. lia.
Qed.

Lemma missing_spec a :
  asm_ok a →
  ∃ o, missing a = Some o ∧
    match o with
    | None => Z.min (a_granted a) (len (a_data a)) ≤ a_contiguous a
    | Some (offset, length) =>
        offset = a_contiguous a ∧ 0 < length ∧
        offset + length ≤ Z.min (a_granted a) (len (a_data a)) ∧
        (∀ i, offset ≤ i < offset + length → received (a_bits a) (Z.to_nat i) = false) ∧
        (offset + length < Z.min (a_granted a) (len (a_data a)) →
         received (a_bits a) (Z.to_nat (offset + length)) = true)
    end.
Proof.
  intros [Hc Hmax]. unfold missing. pose proof (core_contig a Hc).
  set (lim := Z.min (a_granted a) (len (a_data a))).
  destruct (decide (lim ≤ a_contiguous a)) as [Hle|Hgt].
  - replace (Z.to_nat (lim - a_contiguous a)) with 0%nat by lia. cbn [hole_end mbind option_bind].
    rewrite (proj2 (Z.leb_le _ _)) by done. eauto.
  - destruct (hole_end_spec a (Z.to_nat (lim - a_contiguous a)) (a_contiguous a) lim)
      as (e&->&?&Hnone&Hend); [done|lia..|]. cbn [mbind option_bind].
    assert (e ≠ a_contiguous a) as Hne.
    { intros ->. rewrite Hmax in Hend by lia. by specialize (Hend ltac:(lia)). }
    rewrite (proj2 (Z.leb_gt _ _)) by lia. eexists. split; [done|]. cbn beta iota.
    replace (a_contiguous a + (e - a_contiguous a)) with e by lia.
    split_and!; (done || lia).
Qed.

(** ** Whole messages *)

(** A segment of a message: offset, bytes and the sender's transmission limit. *)
Definition segment : Type := nat * list Z * Z.

Definition piece_of (msg : list Z) (s : segment) : Prop :=
  let '(start, payload, incoming) := s in
  (start + length payload ≤ length msg)%nat ∧
  payload = take (length payload) (drop start msg) ∧ 0 ≤ incoming ≤ len msg.

Definition covers (segs : list segment) (i : nat) : Prop :=
  ∃ start payload incoming, (start, payload, incoming) ∈ segs ∧
    (start ≤ i < start + length payload)%nat.

Fixpoint accept_all (a : assembly) (segs : list segment) : option (option assembly) :=
  match segs with
  | [] => Some (Some a)
  | (start, payload, incoming) :: segs =>
      r ← accept a (Z.of_nat start) payload incoming;
      match r with
      | None => Some None
      | Some a => accept_all a segs
      end
  end.

(** [a] holds bytes of [msg] only. *)
Definition agrees (msg : list Z) (a : assembly) : Prop :=
  length (a_data a) = length msg ∧
  ∀ i x, abs a !! i = Some (Some x) → msg !! i = Some x.

Lemma piece_lookup msg start payload incoming j :
  piece_of msg (start, payload, incoming) → (j < length payload)%nat →
  payload !! j = msg !! (start + j)%nat.
Proof.
  intros (_&E&_) Hj. rewrite E, lookup_take_lt, lookup_drop; [done|].
  rewrite E, length_take in Hj. lia.
Qed.

Lemma agrees_piece msg a start payload incoming :
  agrees msg a → piece_of msg (start, payload, incoming) →
  ¬ disagrees (abs a) start payload.
Proof.
  intros [_ Ha] Hp (j&x&y&Hx&Hy&Hne). apply Ha in Hx.
  pose proof (lookup_lt_Some _ _ _ Hy). rewrite (piece_lookup _ _ _ _ _ Hp) in Hy by done.
  congruence.
Qed.

Lemma agrees_fill msg a a' start payload incoming :
  agrees msg a → piece_of msg (start, payload, incoming) →
  abs a' = fill_all (abs a) start payload → length (a_data a') = length (a_data a) →
  agrees msg a'.
Proof.
  intros [Hl Ha] Hp Hab Hl'. split; [congruence|]. intros i x. rewrite Hab, fill_all_lookup.
  destruct (abs a !! i) as [[y|]|] eqn:Hi; [intros [= ->]; auto| |done].
  case_decide; [|done]. intros [= E].
  rewrite (piece_lookup _ _ _ _ _ Hp) in E by lia. rewrite <- E. f_equal. lia.
Qed.

Lemma accept_all_spec msg a segs :
  asm_ok a → agrees msg a → Forall (piece_of msg) segs →
  ∃ a', accept_all a segs = Some (Some a') ∧ asm_ok a' ∧ agrees msg a' ∧
    ∀ i, (i < length msg)%nat →
      (is_Some (abs a' !! i ≫= id) ↔ is_Some (abs a !! i ≫= id) ∨ covers segs i).
Proof.
  intros Hok Ha Hs. revert a Hok Ha.
  induction Hs as [|[[start payload] incoming] segs Hp Hs IH]; intros a Hok Ha; cbn [accept_all].
  { exists a. split_and!; try done. intros i _. split; [by left|].
    intros [?|(?&?&?&?%not_elem_of_nil&_)]; done. }
  destruct (accept_spec a start payload incoming) as [[Hd _]|(_&a1&->&Hok1&Hab&Hl&_&_)].
  - done.
  - destruct Ha as [-> _]. apply Hp.
  - unfold len. destruct Ha as [-> _]. apply Hp.
  - by eapply agrees_piece in Hd.
  - cbn [mbind option_bind]. pose proof (agrees_fill _ _ _ _ _ _ Ha Hp Hab Hl) as Ha1.
    destruct (IH a1 Hok1 Ha1) as (a'&->&?&?&Hcov). exists a'. split_and!; try done.
    intros i Hi. rewrite Hcov by done. rewrite Hab, fill_all_lookup. unfold covers.
    setoid_rewrite elem_of_cons.
    assert (i < length (abs a))%nat as Hia by (destruct Ha as [El _]; rewrite abs_length; lia).
    destruct (lookup_lt_is_Some_2 _ _ Hia) as [[y|] Ey]; rewrite Ey; cbn [mbind option_bind id].
    + split; [by left|]. intros _. left. by eexists.
    + case_decide as Hr.
      * assert (is_Some (payload !! (i - start)%nat)) by (apply lookup_lt_is_Some; lia).
        split; [intros _; right|by left]. exists start, payload, incoming. auto.
      * split; [intros [?|(?&?&?&?&?)]; [by left|right; eauto 10]|].
        intros [?|(s'&p'&i'&[E|?]&?)]; [by left| |right; eauto 10].
        by injection E as -> -> ->.
Qed.

(** The byte count tells when the message is complete. *)
Lemma count_full a :
  asm_ok a → a_count a = len (a_data a) ↔
    ∀ i, (i < length (a_data a))%nat → is_Some (abs a !! i ≫= id).
Proof.
  intros [Hc _]. rewrite (core_count a Hc). unfold len.
  rewrite Nat2Z.inj_iff, <- abs_length, filled_full, Forall_lookup. split.
  - intros H i Hi. destruct (lookup_lt_is_Some_2 _ _ Hi) as [o Ho]. rewrite Ho. by apply (H i).
  - intros H i o Ho. specialize (H i ltac:(by eapply lookup_lt_Some)). by rewrite Ho in H.
Qed.

Lemma agrees_full msg a :
  asm_ok a → agrees msg a → a_count a = len (a_data a) → a_data a = msg.
Proof.
  intros Hok [Hl Ha] Hf. apply list_eq_same_length with (length msg); [done|done|].
  intros i x y Hi Hx Hy. assert (is_Some (abs a !! i ≫= id)) as [z Hz].
  { apply count_full; [done..|lia]. }
  rewrite abs_lookup, Hx in Hz. cbn in Hz.
  destruct (received (a_bits a) i) eqn:Hr; [|done]. cbn in Hz. injection Hz as <-.
  specialize (Ha i x). rewrite abs_lookup, Hx in Ha. cbn in Ha. rewrite Hr in Ha.
  specialize (Ha eq_refl). congruence.
Qed.

(** Receiving pieces of one message into a new buffer. *)
Lemma reassembly_lemma msg granted segs :
  0 ≤ granted ≤ len msg → Forall (piece_of msg) segs →
  ∃ a, accept_all (new_assembly (len msg) granted) segs = Some (Some a) ∧
    (a_count a = len (a_data a) ↔ ∀ i, (i < length msg)%nat → covers segs i) ∧
    (a_count a = len (a_data a) → a_data a = msg).
Proof.
  intros Hg Hs. destruct (new_assembly_ok (len msg) granted Hg) as (Hok&Hab&Hl&_).
  assert (abs (new_assembly (len msg) granted) = replicate (length msg) None) as Hab'
    by (rewrite Hab; unfold len; by rewrite Nat2Z.id).
  destruct (accept_all_spec msg (new_assembly (len msg) granted) segs) as (a&->&Hok'&Ha'&Hcov).
  - done.
  - split; [by apply Nat2Z.inj|]. intros i x. rewrite Hab'. intros E.
    by apply lookup_replicate in E as [? _].
  - done.
  - exists a. split; [done|]. split.
    + rewrite count_full by done. destruct (Ha') as [El _]. rewrite El.
      split; intros H i Hi; specialize (H i Hi).
      * apply Hcov in H as [H|]; [|done|done]. rewrite Hab', lookup_replicate_2 in H by done.
        by destruct H as [? [=]].
      * apply Hcov; auto.
    + by apply agrees_full.
Qed.

(** C18: reassembly is exact.  Segments of a message may arrive in any order,
    with any boundaries, overlapping and repeated: none is refused or causes a
    panic, the byte count reaches the message length exactly when every byte
    was covered, and then the buffer holds the message. *)
Theorem reassembly_exact msg granted segs :
  0 ≤ granted ≤ len msg → Forall (piece_of msg) segs →
  ∃ a, accept_all (new_assembly (len msg) granted) segs = Some (Some a) ∧
    (a_count a = len (a_data a) ↔ ∀ i, (i < length msg)%nat → covers segs i) ∧
    (a_count a = len (a_data a) → a_data a = msg).
Proof. apply reassembly_lemma. Qed.

(** C19: accepted bytes are never overwritten.  A segment inside the buffer is
    refused, without any change, exactly when it disagrees with a byte that
    already arrived; an accepted one leaves every earlier byte as it was and
    adds only its own. *)
Theorem accept_no_overwrite a start payload incoming :
  asm_ok a → (start + length payload ≤ length (a_data a))%nat →
  0 ≤ incoming ≤ len (a_data a) →
  match accept a (Z.of_nat start) payload incoming with
  | None => False
  | Some None => disagrees (abs a) start payload
  | Some (Some a') =>
      ¬ disagrees (abs a) start payload ∧ asm_ok a' ∧
      ∀ i, abs a' !! i =
        match abs a !! i with
        | Some None => Some (if decide (start ≤ i < start + length payload)%nat
                             then payload !! (i - start)%nat else None)
        | o => o
        end
  end.
Proof.
  intros Hok Hfit Hin.
  destruct (accept_spec a start payload incoming) as [[Hd ->]|(Hd&a'&->&Hok'&Hab&_)]; try done.
  split_and!; try done. intros i. rewrite Hab, fill_all_lookup.
  destruct (abs a !! i) as [[?|]|]; try done. by case_decide.
Qed.

(** A retransmission request names the first hole.  It starts at the first
    byte that is missing, covers only missing bytes, stops before the next one
    that arrived or the granted limit, and is omitted only when everything the
    sender may transmit has arrived. *)
Theorem missing_first_hole a :
  asm_ok a →
  match missing a with
  | None => False
  | Some None => ∀ i, (Z.of_nat i < Z.min (a_granted a) (len (a_data a))) →
                      received (a_bits a) i = true
  | Some (Some (offset, length)) =>
      0 < length ∧ offset + length ≤ Z.min (a_granted a) (len (a_data a)) ∧
      (∀ i, Z.of_nat i < offset → received (a_bits a) i = true) ∧
      (∀ i, offset ≤ Z.of_nat i < offset + length → received (a_bits a) i = false) ∧
      (offset + length < Z.min (a_granted a) (len (a_data a)) →
       received (a_bits a) (Z.to_nat (offset + length)) = true)
  end.
Proof.
  intros Hok. destruct (missing_spec a Hok) as (o&->&Ho). destruct Hok as [Hc _].
  destruct o as [[offset length]|].
  - destruct Ho as (->&?&?&Hnone&?). split_and!; try done; [by apply core_prefix|].
    intros i Hi. rewrite <- (Nat2Z.id i). apply Hnone. lia.
  - intros i Hi. apply core_prefix; [done|lia].
Qed.

(** ** The theorems at a concrete message *)

Lemma reassembly_exact_witness :
  ∃ a, accept_all (new_assembly 4 2) [(2%nat, [3; 4], 4); (0%nat, [1; 2; 3], 2)] = Some (Some a) ∧
    (a_count a = len (a_data a) → a_data a = [1; 2; 3; 4]).
Proof.
  destruct (reassembly_exact [1; 2; 3; 4] 2 [(2%nat, [3; 4], 4); (0%nat, [1; 2; 3], 2)]) as (a&?&_&?).
  - by vm_compute.
  - repeat apply Forall_cons_2; [..|apply Forall_nil_2]; (split; [simpl; lia|done]).
  - by exists a.
Defined.

(** A buffer of five bytes that holds the middle one. *)
Definition sample_assembly : assembly := mkAssembly [0; 0; 7; 0; 0] [4] 1 0 5.

Lemma sample_assembly_ok : asm_ok sample_assembly.
Proof.
  destruct (new_assembly_ok 5 5) as (Hok&_); [lia|].
  destruct (accept_spec (new_assembly 5 5) 2 [7] 5 Hok) as [[_ E]|(_&a'&E&Hok'&_)];
    [simpl; lia|by vm_compute|by vm_compute in E|].
  vm_compute in E. by injection E as <-.
Qed.

Lemma accept_no_overwrite_witness :
  accept sample_assembly 1 [9; 9] 5 = Some None ∧ disagrees (abs sample_assembly) 1 [9; 9].
Proof.
  split; [vm_compute; reflexivity|].
  exact (accept_no_overwrite sample_assembly 1 [9; 9] 5 sample_assembly_ok
    ltac:(vm_compute; lia) ltac:(by vm_compute)).
Defined.

Lemma missing_first_hole_witness :
  missing sample_assembly = Some (Some (0, 2)) ∧
  ∀ i, 0 ≤ Z.of_nat i < 0 + 2 → received (a_bits sample_assembly) i = false.
Proof.
  split; [vm_compute; reflexivity|].
  exact (proj1 (proj2 (proj2 (proj2 (missing_first_hole sample_assembly sample_assembly_ok))))).
Defined.
