(* ===== verification/Api.v ===== *)
(** * The public types of package homa (src/api.go) and its configuration *)
From S2P Require Import Prelude Wire.

#[local] Open Scope Z_scope.

(** ** Addresses *)

(** netip.Addr: the zero value, an IPv4 address as a 32-bit number, an IPv6
    address as a 128-bit number with its zone. *)
Inductive IPAddr :=
| IPNone
| IPv4 (a : Z)
| IPv6 (a : Z) (zone : string).

#[global] Instance IPAddr_eq_dec : EqDecision IPAddr.
Proof. solve_decision. Defined.

#[global] Instance IPAddr_countable : Countable IPAddr.
Proof.
  refine (inj_countable'
    (λ ip, match ip with
           | IPNone => inl ()
           | IPv4 a => inr (inl a)
           | IPv6 a zone => inr (inr (a, zone))
           end)
    (λ s, match s with
          | inl () => IPNone
          | inr (inl a) => IPv4 a
          | inr (inr (a, zone)) => IPv6 a zone
          end) _).
  by intros [].
Defined.

Definition Is4 (ip : IPAddr) : bool := match ip with IPv4 _ => true | _ => false end.

Definition IsUnspecified (ip : IPAddr) : bool :=
  bool_decide (ip = IPv4 0) || bool_decide (ip = IPv6 0 EmptyString).

Definition IsMulticast (ip : IPAddr) : bool :=
  match ip with
  | IPNone => false
  | IPv4 a => Z.land (Z.shiftr a 24) 240 =? 224
  | IPv6 a _ => Z.shiftr a 120 =? 255
  end.

(** [netip.AddrFrom4([4]byte{a, b, c, d})]. *)
Definition AddrFrom4 (a b c d : Z) : IPAddr := IPv4 (be_decode [a; b; c; d]).

Record Addr := mkAddr { IP : IPAddr; Port : Z }.

#[global] Instance Addr_eq_dec : EqDecision Addr.
Proof. solve_decision. Defined.

#[global] Instance Addr_countable : Countable Addr.
Proof.
  refine (inj_countable' (λ a, (IP a, Port a)) (λ p, mkAddr p.1 p.2) _).
  by intros [].
Defined.

(** ** Errors *)

(** The errors a caller can see; [ErrIO] is whatever a PacketIO returned. *)
Inductive error :=
| ErrClosed | ErrBusy | ErrTooLarge | ErrProtocol
| ErrConfig | ErrLocalAddr | ErrServerPort
| Canceled | DeadlineExceeded
| ErrWire (e : wire.error)
| ErrIO (code : Z).

#[global] Instance error_eq_dec : EqDecision error.
Proof. solve_decision. Defined.

Record CallError := mkCallError { ce_Err : error; ce_Sent : bool }.

(** ** Configuration *)

Definition Protocol : Z := 146.
Definition MaxMessageSize : Z := 1000000.
Definition Millisecond : Z := 1000000.
Definition Second : Z := 1000 * Millisecond.
Definition Minute : Z := 60 * Second.

Record Config := mkConfig {
  c_MaxMessageSize : Z; c_MaxRPCs : Z; c_MaxBufferedBytes : Z; c_HandlerWorkers : Z;
  c_Timeout : Z; c_RetryInterval : Z; c_SegmentBytes : Z; c_UnscheduledBytes : Z;
  c_GrantWindow : Z; c_Overcommit : Z
}.

(** [if field == 0 { field = value }]. *)
Definition or_default (field value : Z) : Z := if field =? 0 then value else field.

Definition defaults (c : Config) : error + Config :=
  let MaxMessage := or_default (c_MaxMessageSize c) MaxMessageSize in
  let MaxRPCs := or_default (c_MaxRPCs c) 128 in
  let MaxBuffered := or_default (c_MaxBufferedBytes c) (Z.shiftl 64 20) in
  let Workers := or_default (c_HandlerWorkers c) 8 in
  let Timeout := or_default (c_Timeout c) (5 * Second) in
  let Retry := or_default (c_RetryInterval c) (5 * Millisecond) in
  let Segment := or_default (c_SegmentBytes c) 1400 in
  let Unscheduled := or_default (c_UnscheduledBytes c) 14000 in
  let Window := or_default (c_GrantWindow c) 14000 in
  let Over := or_default (c_Overcommit c) 2 in
  if (MaxMessage <? 1) || (MaxMessageSize <? MaxMessage) || (MaxRPCs <? 1) ||
     (65536 <? MaxRPCs) || (MaxBuffered <? 1) || (Workers <? 1) || (1024 <? Workers) ||
     (Timeout <? Millisecond) || (Minute <? Timeout) || (Retry <? Millisecond) ||
     (Timeout <? Retry) || (Segment <? 256) || (1424 <? Segment) ||
     (Unscheduled <? 1) || (MaxMessageSize <? Unscheduled) || (Window <? 1) ||
     (MaxMessageSize <? Window) || (Over <? 1) || (MaxRPCs <? Over)
  then inl ErrConfig
  else inr {|
    c_MaxMessageSize := MaxMessage; c_MaxRPCs := MaxRPCs; c_MaxBufferedBytes := MaxBuffered;
    c_HandlerWorkers := Workers; c_Timeout := Timeout; c_RetryInterval := Retry;
    c_SegmentBytes := Segment;
    c_UnscheduledBytes := ((Unscheduled + Segment - 1) `quot` Segment) * Segment;
    c_GrantWindow := Window; c_Overcommit := Over |}.

(** ** Statistics *)

(** [ActiveRPCs] and [ActiveHandlers] are computed when [Stats] is called. *)
Record Stats := mkStats {
  s_SentPackets : Z; s_ReceivedPackets : Z; s_Retransmissions : Z; s_InvalidPackets : Z;
  s_DroppedPackets : Z; s_WriteErrors : Z; s_CompletedCalls : Z; s_HandledRequests : Z;
  s_ActiveRPCs : Z; s_ActiveHandlers : Z; s_BufferedBytes : Z
}.

Definition Stats_zero : Stats := mkStats 0 0 0 0 0 0 0 0 0 0 0.

(** ** What a valid configuration guarantees *)

Record config_ok (c : Config) : Prop := {
  ok_message : 1 ≤ c_MaxMessageSize c ≤ MaxMessageSize;
  ok_rpcs : 1 ≤ c_MaxRPCs c ≤ 65536;
  ok_buffered : 1 ≤ c_MaxBufferedBytes c;
  ok_workers : 1 ≤ c_HandlerWorkers c ≤ 1024;
  ok_timeout : Millisecond ≤ c_Timeout c ≤ Minute;
  ok_retry : Millisecond ≤ c_RetryInterval c ≤ c_Timeout c;
  ok_segment : 256 ≤ c_SegmentBytes c ≤ 1424;
  ok_unscheduled : 1 ≤ c_UnscheduledBytes c < MaxMessageSize + c_SegmentBytes c;
  ok_unscheduled_aligned : (c_SegmentBytes c | c_UnscheduledBytes c);
  ok_window : 1 ≤ c_GrantWindow c ≤ MaxMessageSize;
  ok_overcommit : 1 ≤ c_Overcommit c ≤ c_MaxRPCs c
}.

(** The rounding of [defaults]: the next multiple of the segment size. *)
Lemma round_up u s :
  1 ≤ s → 1 ≤ u →
  u ≤ ((u + s - 1) `quot` s) * s < u + s.
Proof.
  intros Hs Hu. rewrite Z.quot_div_nonneg by lia.
  pose proof (Z.div_mod (u + s - 1) s ltac:(lia)).
  pose proof (Z.mod_pos_bound (u + s - 1) s ltac:(lia)). lia.
Qed.

Lemma defaults_ok c c' : defaults c = inr c' → config_ok c'.
Proof.
  unfold defaults. case_if; [done|]. intros [= <-].
  pose proof (round_up (or_default (c_UnscheduledBytes c) 14000)
    (or_default (c_SegmentBytes c) 1400) ltac:(lia) ltac:(lia)).
  split; cbn [c_MaxMessageSize c_MaxRPCs c_MaxBufferedBytes c_HandlerWorkers c_Timeout
    c_RetryInterval c_SegmentBytes c_UnscheduledBytes c_GrantWindow c_Overcommit]; try lia.
  by eexists.
Qed.

(** [c'] has the fields that [c] sets, and values for those it leaves zero. *)
Definition keeps_fields (c c' : Config) : Prop :=
  (c_MaxMessageSize c ≠ 0 → c_MaxMessageSize c' = c_MaxMessageSize c) ∧
  (c_MaxRPCs c ≠ 0 → c_MaxRPCs c' = c_MaxRPCs c) ∧
  (c_MaxBufferedBytes c ≠ 0 → c_MaxBufferedBytes c' = c_MaxBufferedBytes c) ∧
  (c_HandlerWorkers c ≠ 0 → c_HandlerWorkers c' = c_HandlerWorkers c) ∧
  (c_Timeout c ≠ 0 → c_Timeout c' = c_Timeout c) ∧
  (c_RetryInterval c ≠ 0 → c_RetryInterval c' = c_RetryInterval c) ∧
  (c_SegmentBytes c ≠ 0 → c_SegmentBytes c' = c_SegmentBytes c) ∧
  (c_GrantWindow c ≠ 0 → c_GrantWindow c' = c_GrantWindow c) ∧
  (c_Overcommit c ≠ 0 → c_Overcommit c' = c_Overcommit c).

Lemma or_default_set field value : field ≠ 0 → or_default field value = field.
Proof. intros Hf. unfold or_default. by rewrite (proj2 (Z.eqb_neq _ _)). Qed.

(** A valid configuration is a fixed point. *)
Lemma defaults_fixed c : config_ok c → c_UnscheduledBytes c ≤ MaxMessageSize → defaults c = inr c.
Proof.
  intros [] Hu. unfold defaults. unfold Millisecond, Minute, Second, MaxMessageSize in *.
  rewrite !or_default_set by lia. rewrite !(proj2 (Z.ltb_ge _ _)) by lia. cbn [orb].
  assert ((c_UnscheduledBytes c + c_SegmentBytes c - 1) `quot` c_SegmentBytes c * c_SegmentBytes c
    = c_UnscheduledBytes c) as ->; [|by destruct c].
  destruct ok_unscheduled_aligned0 as [k Hk].
  pose proof (round_up (c_UnscheduledBytes c) (c_SegmentBytes c) ltac:(lia) ltac:(lia)) as Hr.
  set (q := _ `quot` _) in *. rewrite Hk in Hr |- *. clearbody q.
  assert (q = k) as ->; [nia|done].
Qed.

(** A configuration that [defaults] accepts is valid, keeps every field that
    was set except that [UnscheduledBytes] becomes the least multiple of
    [SegmentBytes] that is not smaller; [defaults] accepts its own result unless
    that rounding passed the largest message. *)
Theorem defaults_spec c c' :
  defaults c = inr c' →
  config_ok c' ∧ keeps_fields c c' ∧
  (let u := or_default (c_UnscheduledBytes c) 14000 in
   u ≤ c_UnscheduledBytes c' < u + c_SegmentBytes c' ∧ (c_SegmentBytes c' | c_UnscheduledBytes c')) ∧
  (c_UnscheduledBytes c' ≤ MaxMessageSize → defaults c' = inr c').
Proof.
  intros Hd. pose proof (defaults_ok c c' Hd) as Hok. split; [done|].
  split; [|split; [|by apply defaults_fixed]]; unfold defaults in Hd; revert Hd; case_if; try done;
    intros [= <-].
  - unfold keeps_fields. cbn [c_MaxMessageSize c_MaxRPCs c_MaxBufferedBytes c_HandlerWorkers c_Timeout
      c_RetryInterval c_SegmentBytes c_UnscheduledBytes c_GrantWindow c_Overcommit].
    split_and!; apply or_default_set.
  - split; [|apply Hok]. cbn [c_SegmentBytes c_UnscheduledBytes]. apply round_up; lia.
Qed.

Definition zero_config : Config := mkConfig 0 0 0 0 0 0 0 0 0 0.

Lemma defaults_spec_witness :
  ∃ c', defaults zero_config = inr c' ∧ config_ok c' ∧ c_UnscheduledBytes c' = 14000.
Proof.
  eexists. split; [vm_compute; reflexivity|]. split; [|reflexivity].
  eapply (defaults_spec zero_config). vm_compute. reflexivity.
Defined.
