(* ===== verification/Text.v ===== *)
(** * Numbers and addresses as text (ParseAddr and Addr.String of src/api.go)

    A string is the list of its code points.  The part of strconv and netip the
    program uses is written out: decimal numbers, and IPv4 addresses with a
    port. *)
From S2P Require Import Prelude Wire Api.

#[local] Open Scope Z_scope.

(** The bytes of a string constant. *)
Definition text (s : string) : list Z := (λ c, Z.of_N (Ascii.N_of_ascii c)) <$> String.list_ascii_of_string s.

(** ** Decimal numbers *)

(** The value of a string of decimal digits, as strconv computes it. *)
Fixpoint digits (acc : Z) (s : list Z) : option Z :=
  match s with
  | [] => Some acc
  | c :: s => if (48 <=? c) && (c <=? 57) then digits (acc * 10 + (c - 48)) s else None
  end.

(** [strconv.Atoi]; [None] is a syntax or range error. *)
Definition Atoi `{GoPlatform} (s : list Z) : option Z :=
  let '(neg, s) := match s with
    | c :: s' => if c =? 45 then (true, s') else if c =? 43 then (false, s') else (false, s)
    | [] => (false, [])
    end in
  match s with
  | [] => None
  | _ =>
      n ← digits 0 s;
      if (neg : bool) then if maxInt + 1 <? n then None else Some (- n)
      else if maxInt <? n then None else Some n
  end.

(** The decimal digits of a number below [10 ^ fuel]. *)
Fixpoint decimal (fuel : nat) (n : Z) : list Z :=
  match fuel with
  | O => []
  | S fuel => (if n <? 10 then [] else decimal fuel (n / 10)) ++ [48 + n mod 10]
  end.

Definition is_digit (c : Z) : Prop := 48 ≤ c ≤ 57.

Lemma digits_snoc acc s c : is_digit c →
  digits acc (s ++ [c]) = (λ n, n * 10 + (c - 48)) <$> digits acc s.
Proof.
  intros Hc. revert acc. induction s as [|d s IH]; intros acc; cbn [digits app].
  - rewrite !(proj2 (Z.leb_le _ _)) by (unfold is_digit in Hc; lia). done.
  - destruct ((48 <=? d) && (d <=? 57)); [apply IH|done].
Qed.

Lemma digits_one c : is_digit c → digits 0 [c] = Some (c - 48).
Proof. intros Hc. apply (digits_snoc 0 [] c Hc). Qed.

Lemma decimal_S fuel n :
  decimal (S fuel) n = (if n <? 10 then [] else decimal fuel (n / 10)) ++ [48 + n mod 10].
Proof. done. Qed.

Lemma decimal_digits fuel n : 0 ≤ n < 10 ^ Z.of_nat (S fuel) →
  digits 0 (decimal (S fuel) n) = Some n ∧ Forall is_digit (decimal (S fuel) n) ∧ decimal (S fuel) n ≠ [].
Proof.
  revert n. induction fuel as [|fuel IH]; intros n Hn.
  all: assert (is_digit (48 + n mod 10)) as Hc
    by (unfold is_digit; pose proof (Z.mod_pos_bound n 10 eq_refl); lia).
  - cbn [decimal]. rewrite (proj2 (Z.ltb_lt _ _)) by (cbn in Hn; lia). rewrite app_nil_l.
    split_and!; [|by apply Forall_singleton|done]. rewrite digits_one by done.
    rewrite Z.mod_small by (cbn in Hn; lia). f_equal. lia.
  - rewrite (decimal_S (S fuel)). destruct (Z.ltb_spec n 10).
    + rewrite app_nil_l. split_and!; [|by apply Forall_singleton|done]. rewrite digits_one by done.
      rewrite Z.mod_small by lia. f_equal. lia.
    + destruct (IH (n / 10)) as (Hd&Hf&_).
      { rewrite (Nat2Z.inj_succ (S fuel)), Z.pow_succ_r in Hn by lia.
        split; [apply Z.div_pos; lia|apply Z.div_lt_upper_bound; lia]. }
      split_and!; [|by apply Forall_app_2; [|apply Forall_singleton]|by intros [_ ?]%app_eq_nil].
      rewrite digits_snoc, Hd by done. cbn. f_equal. pose proof (Z.div_mod n 10 ltac:(lia)). lia.
Qed.

Lemma digits_nonneg acc s n : 0 ≤ acc → digits acc s = Some n → 0 ≤ n.
Proof.
  revert acc. induction s as [|c s IH]; intros acc Hacc; cbn [digits]; [by intros [= <-]|].
  destruct ((48 <=? c) && (c <=? 57)) eqn:E; [|done]. apply IH. bool_to_prop. lia.
Qed.

(** ** Addresses *)

Module addr.

(** The loop of netip's parseIPv4Fields: [val] and [digLen] are of the octet
    being read, [fields] the octets before it. *)
Fixpoint parseIPv4Fields (s : list Z) (val digLen : Z) (fields : list Z) : option (list Z) :=
  match s with
  | [] => if len fields <? 3 then None else Some (fields ++ [val])
  | c :: s =>
      if (48 <=? c) && (c <=? 57) then
        if (digLen =? 1) && (val =? 0) then None else
        let val := val * 10 + (c - 48) in
        if 255 <? val then None else parseIPv4Fields s val (digLen + 1) fields
      else if c =? 46 then
        if (digLen =? 0) || (match s with [] => true | _ => false end) then None else
        if len fields =? 3 then None else parseIPv4Fields s 0 0 (fields ++ [val])
      else None
  end.

(** Split at the last colon. *)
Fixpoint splitAddrPort (s : list Z) : option (list Z * list Z) :=
  match s with
  | [] => None
  | c :: s =>
      match splitAddrPort s with
      | Some (ip, port) => Some (c :: ip, port)
      | None => if c =? 58 then Some ([], s) else None
      end
  end.

(** [netip.ParseAddrPort] on the strings that denote an IPv4 address with a
    port; [None] is an error or an IPv6 address, which [ParseAddr] rejects. *)
Definition ParseAddrPort (s : list Z) : option Addr :=
  '(ip, port) ← splitAddrPort s;
  match ip, port with
  | [], _ | _, [] => None
  | _, _ =>
      port ← digits 0 port;
      if 65535 <? port then None else
      fields ← parseIPv4Fields ip 0 0 [];
      Some (mkAddr (IPv4 (be_decode fields)) port)
  end.

Definition ParseAddr (s : list Z) : option Addr :=
  a ← ParseAddrPort s;
  if negb (Is4 (IP a)) || (Port a =? 0) then None else Some a.

(** [Addr.String] of an IPv4 address; [other] is netip's text of the other
    addresses. *)
Definition String (other : Addr → list Z) (a : Addr) : list Z :=
  match IP a with
  | IPv4 ip =>
      match be_encode 4 ip with
      | [a0; a1; a2; a3] =>
          decimal 3 a0 ++ 46 :: decimal 3 a1 ++ 46 :: decimal 3 a2 ++ 46 :: decimal 3 a3 ++ 58 :: decimal 5 (Port a)
      | _ => []
      end
  | _ => other a
  end.

(** ** The round trip *)

Lemma field_digit d s val digLen fields :
  0 ≤ d ≤ 9 → (digLen = 1 → val ≠ 0) → val * 10 + d ≤ 255 →
  parseIPv4Fields ((48 + d) :: s) val digLen fields = parseIPv4Fields s (val * 10 + d) (digLen + 1) fields.
Proof.
  intros Hd Hz Hv. cbn [parseIPv4Fields]. rewrite !(proj2 (Z.leb_le _ _)) by lia. cbn [andb].
  assert ((digLen =? 1) && (val =? 0) = false) as ->.
  { destruct (Z.eqb_spec digLen 1); [|done]. by apply Z.eqb_neq, Hz. }
  replace (48 + d - 48) with d by lia. by rewrite (proj2 (Z.ltb_ge _ _)) by lia.
Qed.

(** An octet is read back, whatever follows it. *)
Lemma field_octet n s fields :
  0 ≤ n ≤ 255 → ∃ k, 0 < k ∧ parseIPv4Fields (decimal 3 n ++ s) 0 0 fields = parseIPv4Fields s n k fields.
Proof.
  intros Hn. rewrite decimal_S. pose proof (Z.div_mod n 10 ltac:(lia)) as H0.
  pose proof (Z.mod_pos_bound n 10 eq_refl) as H1. destruct (Z.ltb_spec n 10).
  { exists 1. split; [lia|]. rewrite Z.mod_small by lia. cbn [app]. rewrite field_digit by lia. f_equal; lia. }
  rewrite decimal_S. pose proof (Z.div_mod (n / 10) 10 ltac:(lia)) as H2.
  pose proof (Z.mod_pos_bound (n / 10) 10 eq_refl) as H3. destruct (Z.ltb_spec (n / 10) 10).
  { exists 2. split; [lia|]. rewrite Z.mod_small by lia. cbn [app].
    rewrite field_digit by lia. rewrite field_digit by lia. f_equal; lia. }
  rewrite decimal_S. rewrite (proj2 (Z.ltb_lt _ _)) by lia. rewrite (Z.mod_small (n / 10 / 10)) by lia.
  exists 3. split; [lia|]. cbn [app]. rewrite field_digit by lia. rewrite field_digit by lia.
  rewrite field_digit by lia. f_equal; lia.
Qed.

Lemma field_dot c s n k fields :
  0 < k → len fields < 3 → parseIPv4Fields (46 :: c :: s) n k fields = parseIPv4Fields (c :: s) 0 0 (fields ++ [n]).
Proof.
  intros Hk Hl. cbn [parseIPv4Fields]. change ((48 <=? 46) && (46 <=? 57)) with false. cbn [Z.eqb Pos.eqb].
  rewrite (proj2 (Z.eqb_neq k 0)), (proj2 (Z.eqb_neq (len fields) 3)) by lia. done.
Qed.

Lemma decimal_cons fuel n s : ∃ c l, decimal (S fuel) n ++ s = c :: l.
Proof.
  rewrite decimal_S. destruct ((if n <? 10 then [] else decimal fuel (n / 10)) ++ [48 + n mod 10]) as [|c l] eqn:E.
  - by apply app_eq_nil in E as [_ ?].
  - by exists c, (l ++ s).
Qed.

(** An octet and the dot behind it. *)
Lemma field_next n m s fields :
  0 ≤ n ≤ 255 → len fields < 3 →
  parseIPv4Fields (decimal 3 n ++ 46 :: decimal 3 m ++ s) 0 0 fields =
  parseIPv4Fields (decimal 3 m ++ s) 0 0 (fields ++ [n]).
Proof.
  intros Hn Hl. destruct (field_octet n (46 :: decimal 3 m ++ s) fields Hn) as (k&Hk&->).
  destruct (decimal_cons 2 m s) as (c&l&E). rewrite E. by apply field_dot.
Qed.

Lemma fields_roundtrip a b c d :
  Forall (λ n, 0 ≤ n ≤ 255) [a; b; c; d] →
  parseIPv4Fields (decimal 3 a ++ 46 :: decimal 3 b ++ 46 :: decimal 3 c ++ 46 :: decimal 3 d) 0 0 [] = Some [a; b; c; d].
Proof.
  rewrite !Forall_cons. intros (Ha&Hb&Hc&Hd&_).
  rewrite (field_next a b), (field_next b c) by first [done|by vm_compute].
  rewrite <- (app_nil_r (decimal 3 d)), (field_next c d) by first [done|by vm_compute].
  destruct (field_octet d [] [a; b; c] Hd) as (k&_&E). cbn [app]. by rewrite E.
Qed.

Lemma split_last ip port :
  Forall (λ c, c ≠ 58) port → splitAddrPort (ip ++ 58 :: port) = Some (ip, port).
Proof.
  intros Hp. assert (splitAddrPort port = None) as Hnone.
  { induction Hp as [|c port Hc _ IH]; [done|]. cbn. by rewrite IH, (proj2 (Z.eqb_neq _ _)). }
  induction ip as [|c ip IH]; cbn [app splitAddrPort]; [by rewrite Hnone|by rewrite IH].
Qed.

(** Addresses survive text: every IPv4 address with a nonzero port is read
    back from its text, and only such addresses are accepted. *)
Theorem parse_addr_exact other a :
  (∀ s, ParseAddr s = Some a → Is4 (IP a) = true ∧ 1 ≤ Port a ≤ 65535) ∧
  (∀ ip, IP a = IPv4 ip → 0 ≤ ip < 2 ^ 32 → 1 ≤ Port a ≤ 65535 → ParseAddr (String other a) = Some a).
Proof.
  split.
  - intros s. unfold ParseAddr, ParseAddrPort.
    destruct (splitAddrPort s) as [[ip port]|]; [|done]. cbn [mbind option_bind].
    destruct ip as [|c ip]; [done|]. destruct port as [|p port]; [done|].
    destruct (digits 0 (p :: port)) as [n|] eqn:Hn; [|done]. cbn [mbind option_bind].
    destruct (Z.ltb_spec 65535 n); [done|].
    destruct (parseIPv4Fields (c :: ip) 0 0 []) as [fields|]; [|done]. cbn [mbind option_bind Is4 IP Port negb orb].
    destruct (Z.eqb_spec n 0); [done|]. intros [= <-]. cbn. split; [done|].
    apply digits_nonneg in Hn; lia.
  - destruct a as [ip' port]. cbn [IP Port]. intros ip -> Hip Hport.
    assert (∃ a b c d, be_encode 4 ip = [a; b; c; d] ∧ Forall (λ n, 0 ≤ n ≤ 255) [a; b; c; d]) as (a&b&c&d&E&Hf).
    { pose proof (be_encode_bytes 4 ip) as Hb. assert (length (be_encode 4 ip) = 4%nat) as Hl by apply be_encode_length.
      destruct (be_encode 4 ip) as [|a [|b [|c [|d [|]]]]]; try done. exists a, b, c, d. split; [done|].
      eapply Forall_impl; [exact Hb|]. unfold is_byte. intros n Hn. lia. }
    destruct (decimal_digits 4 port) as (Hd&Hfd&Hne); [cbn; lia|].
    unfold ParseAddr, ParseAddrPort, String. cbn [IP Port]. rewrite E.
    assert (decimal 3 a ++ 46 :: decimal 3 b ++ 46 :: decimal 3 c ++ 46 :: decimal 3 d ++ 58 :: decimal 5 port =
      (decimal 3 a ++ 46 :: decimal 3 b ++ 46 :: decimal 3 c ++ 46 :: decimal 3 d) ++ 58 :: decimal 5 port) as ->.
    { by rewrite !app_comm_cons, !app_assoc. }
    rewrite split_last by (eapply Forall_impl; [exact Hfd|]; unfold is_digit; intros n Hn; lia).
    cbn [mbind option_bind].
    pose proof (fields_roundtrip a b c d Hf) as Hfields. revert Hfields.
    destruct (decimal_cons 2 a (46 :: decimal 3 b ++ 46 :: decimal 3 c ++ 46 :: decimal 3 d)) as (x&l&->). intros ->.
    destruct (decimal 5 port) as [|y l']; [done|]. rewrite Hd. cbn [mbind option_bind].
    rewrite (proj2 (Z.ltb_ge _ _)) by lia. cbn [mbind option_bind Is4 IP Port negb orb].
    rewrite (proj2 (Z.eqb_neq _ _)) by lia. rewrite <- E, (be_decode_encode 4); [done|]. done.
Qed.
End addr.

(** ** Errors as text *)

Module errors.

(** The text of an error; [other] is the text of the errors of the packet format
    and of a PacketIO. *)
Definition Error (other : error → list Z) (e : error) : list Z :=
  match e with
  | ErrClosed => text "homa: closed"
  | ErrBusy => text "homa: capacity exhausted"
  | ErrTooLarge => text "homa: message length must be 1..configured maximum"
  | ErrProtocol => text "homa: invalid protocol message"
  | ErrConfig => text "homa: invalid configuration"
  | ErrLocalAddr => text "homa: require packet I/O and IPv4/nonzero local port"
  | ErrServerPort => text "homa: server port must be 1..32767"
  | Canceled => text "context canceled"
  | DeadlineExceeded => text "context deadline exceeded"
  | ErrWire _ | ErrIO _ => other e
  end.

Definition CallError_Error (other : error → list Z) (e : CallError) : list Z :=
  text "homa: call failed (sent=" ++ text (if ce_Sent e then "true" else "false") ++ text "): " ++
  Error other (ce_Err e).

Definition Unwrap (e : CallError) : error := ce_Err e.

(** The text of a failed call says whether its request may have been executed,
    and which error it failed with, as far as the texts of the packet format's
    and the PacketIO's errors say it. *)
Lemma call_error_text other e e' :
  CallError_Error other e = CallError_Error other e' →
  ce_Sent e = ce_Sent e' ∧ Error other (Unwrap e) = Error other (Unwrap e').
Proof.
  intros E. unfold CallError_Error in E. apply app_inv_head in E.
  destruct (ce_Sent e), (ce_Sent e'); try discriminate E; apply app_inv_head, app_inv_head in E; done.
Qed.

(** The program's own errors have different texts. *)
Lemma error_text_inj other e e' :
  match e, e' with ErrWire _, _ | ErrIO _, _ | _, ErrWire _ | _, ErrIO _ => False | _, _ => True end →
  Error other e = Error other e' → e = e'.
Proof. destruct e, e'; intros Hown E; done || (exfalso; vm_compute in E; discriminate E). Qed.
End errors.
