(* ===== verification/EndpointState.v ===== *)
(** * The state of an endpoint

    The structs of src/endpoint.go.  An [*rpc] is a location of the heap
    [e_heap]: the map of live RPCs, queued packets, running handlers and
    blocked callers share RPC objects through such pointers, and the code
    compares them by identity.  The fields of [Endpoint] that never change
    after [New] ([local], [cfg], [handler]) are parameters of the operations.
    The state also records what the goroutines of an endpoint hold between
    two critical sections: the handlers that run with the payload they own, the
    callers blocked in [Call], the packet the writer is sending. *)
From S2P Require Import Prelude Wire Assembly Api.

#[local] Open Scope Z_scope.

(** ** Data *)

Record rpcKey := mkKey { k_peer : Addr; k_id : Z }.

#[global] Instance rpcKey_eq_dec : EqDecision rpcKey.
Proof. solve_decision. Defined.

#[global] Instance rpcKey_countable : Countable rpcKey.
Proof.
  refine (inj_countable' (λ k, (k_peer k, k_id k)) (λ p, mkKey p.1 p.2) _).
  by intros [].
Defined.

Record result := mkResult { res_data : list Z; res_err : option CallError }.

(** A pointer to an [rpc]: its index in the heap. *)
Abbreviation loc := nat (only parsing).

(** [r_result] is the buffered channel of a caller ([None] for the nil channel
    of a server RPC, else its contents); [r_cancel] tells a non-nil
    [CancelFunc]; [r_lastCutoff] is [None] for the zero [time.Time]. *)
Record rpc := mkRpc {
  r_key : rpcKey;
  r_tx : list Z;
  r_sent : Z;
  r_granted : Z;
  r_priority : Z;
  r_rx : option assembly;
  r_received : bool;
  r_handling : bool;
  r_deadline : Z;
  r_last : Z;
  r_lastCutoff : option Z;
  r_result : option (list result);
  r_cancel : bool
}.

Record cutoff := mkCutoff { ct_values : list Z; ct_version : Z }.

Definition defaultCutoffs : list Z :=
  [MaxMessageSize; 0; 0; 0; MaxMessageSize; 15000; 2800; 200].

Record outgoingPacket := mkOutgoing {
  o_data : list Z; o_peer : IPAddr; o_priority : Z; o_origin : option loc; o_typ : Z
}.

(** What the writer goroutine does: about to take the lock, blocked on [wake]
    or [done], inside [WritePacket], or returned. *)
Inductive writer := WReady | WWaiting | WWriting (p : outgoingPacket) | WExited.

Record Endpoint := mkEndpoint {
  e_rpcs : gmap rpcKey loc;
  e_heap : list rpc;
  e_cutoffs : gmap IPAddr cutoff;
  e_nextID : Z;
  e_stats : Stats;
  e_closed : bool;
  e_done : bool;
  e_workers : Z;
  e_outbound : list (list outgoingPacket);
  e_wake : bool;
  e_running : list (loc * list Z);
  e_canceled : list loc;
  e_callers : list loc;
  e_writer : writer;
  e_io_closed : bool;
  e_ticks : nat
}.

(** ** Field updates *)

Definition set_r_key (v : rpcKey) (r : rpc) : rpc :=
  mkRpc v (r_tx r) (r_sent r) (r_granted r) (r_priority r) (r_rx r) (r_received r)
    (r_handling r) (r_deadline r) (r_last r) (r_lastCutoff r) (r_result r) (r_cancel r).
Definition set_r_tx (v : list Z) (r : rpc) : rpc :=
  mkRpc (r_key r) v (r_sent r) (r_granted r) (r_priority r) (r_rx r) (r_received r)
    (r_handling r) (r_deadline r) (r_last r) (r_lastCutoff r) (r_result r) (r_cancel r).
Definition set_r_sent (v : Z) (r : rpc) : rpc :=
  mkRpc (r_key r) (r_tx r) v (r_granted r) (r_priority r) (r_rx r) (r_received r) (r_handling r)
    (r_deadline r) (r_last r) (r_lastCutoff r) (r_result r) (r_cancel r).
Definition set_r_granted (v : Z) (r : rpc) : rpc :=
  mkRpc (r_key r) (r_tx r) (r_sent r) v (r_priority r) (r_rx r) (r_received r) (r_handling r)
    (r_deadline r) (r_last r) (r_lastCutoff r) (r_result r) (r_cancel r).
Definition set_r_priority (v : Z) (r : rpc) : rpc :=
  mkRpc (r_key r) (r_tx r) (r_sent r) (r_granted r) v (r_rx r) (r_received r) (r_handling r)
    (r_deadline r) (r_last r) (r_lastCutoff r) (r_result r) (r_cancel r).
Definition set_r_rx (v : option assembly) (r : rpc) : rpc :=
  mkRpc (r_key r) (r_tx r) (r_sent r) (r_granted r) (r_priority r) v (r_received r)
    (r_handling r) (r_deadline r) (r_last r) (r_lastCutoff r) (r_result r) (r_cancel r).
Definition set_r_received (v : bool) (r : rpc) : rpc :=
  mkRpc (r_key r) (r_tx r) (r_sent r) (r_granted r) (r_priority r) (r_rx r) v (r_handling r)
    (r_deadline r) (r_last r) (r_lastCutoff r) (r_result r) (r_cancel r).
Definition set_r_handling (v : bool) (r : rpc) : rpc :=
  mkRpc (r_key r) (r_tx r) (r_sent r) (r_granted r) (r_priority r) (r_rx r) (r_received r) v
    (r_deadline r) (r_last r) (r_lastCutoff r) (r_result r) (r_cancel r).
Definition set_r_deadline (v : Z) (r : rpc) : rpc :=
  mkRpc (r_key r) (r_tx r) (r_sent r) (r_granted r) (r_priority r) (r_rx r) (r_received r)
    (r_handling r) v (r_last r) (r_lastCutoff r) (r_result r) (r_cancel r).
Definition set_r_last (v : Z) (r : rpc) : rpc :=
  mkRpc (r_key r) (r_tx r) (r_sent r) (r_granted r) (r_priority r) (r_rx r) (r_received r)
    (r_handling r) (r_deadline r) v (r_lastCutoff r) (r_result r) (r_cancel r).
Definition set_r_lastCutoff (v : option Z) (r : rpc) : rpc :=
  mkRpc (r_key r) (r_tx r) (r_sent r) (r_granted r) (r_priority r) (r_rx r) (r_received r)
    (r_handling r) (r_deadline r) (r_last r) v (r_result r) (r_cancel r).
Definition set_r_result (v : option (list result)) (r : rpc) : rpc :=
  mkRpc (r_key r) (r_tx r) (r_sent r) (r_granted r) (r_priority r) (r_rx r) (r_received r)
    (r_handling r) (r_deadline r) (r_last r) (r_lastCutoff r) v (r_cancel r).
Definition set_r_cancel (v : bool) (r : rpc) : rpc :=
  mkRpc (r_key r) (r_tx r) (r_sent r) (r_granted r) (r_priority r) (r_rx r) (r_received r)
    (r_handling r) (r_deadline r) (r_last r) (r_lastCutoff r) (r_result r) v.

Definition set_s_SentPackets (v : Z) (s : Stats) : Stats :=
  mkStats v (s_ReceivedPackets s) (s_Retransmissions s) (s_InvalidPackets s)
    (s_DroppedPackets s) (s_WriteErrors s) (s_CompletedCalls s) (s_HandledRequests s)
    (s_ActiveRPCs s) (s_ActiveHandlers s) (s_BufferedBytes s).
Definition set_s_ReceivedPackets (v : Z) (s : Stats) : Stats :=
  mkStats (s_SentPackets s) v (s_Retransmissions s) (s_InvalidPackets s) (s_DroppedPackets s)
    (s_WriteErrors s) (s_CompletedCalls s) (s_HandledRequests s) (s_ActiveRPCs s)
    (s_ActiveHandlers s) (s_BufferedBytes s).
Definition set_s_Retransmissions (v : Z) (s : Stats) : Stats :=
  mkStats (s_SentPackets s) (s_ReceivedPackets s) v (s_InvalidPackets s) (s_DroppedPackets s)
    (s_WriteErrors s) (s_CompletedCalls s) (s_HandledRequests s) (s_ActiveRPCs s)
    (s_ActiveHandlers s) (s_BufferedBytes s).
Definition set_s_InvalidPackets (v : Z) (s : Stats) : Stats :=
  mkStats (s_SentPackets s) (s_ReceivedPackets s) (s_Retransmissions s) v (s_DroppedPackets s)
    (s_WriteErrors s) (s_CompletedCalls s) (s_HandledRequests s) (s_ActiveRPCs s)
    (s_ActiveHandlers s) (s_BufferedBytes s).
Definition set_s_DroppedPackets (v : Z) (s : Stats) : Stats :=
  mkStats (s_SentPackets s) (s_ReceivedPackets s) (s_Retransmissions s) (s_InvalidPackets s) v
    (s_WriteErrors s) (s_CompletedCalls s) (s_HandledRequests s) (s_ActiveRPCs s)
    (s_ActiveHandlers s) (s_BufferedBytes s).
Definition set_s_WriteErrors (v : Z) (s : Stats) : Stats :=
  mkStats (s_SentPackets s) (s_ReceivedPackets s) (s_Retransmissions s) (s_InvalidPackets s)
    (s_DroppedPackets s) v (s_CompletedCalls s) (s_HandledRequests s) (s_ActiveRPCs s)
    (s_ActiveHandlers s) (s_BufferedBytes s).
Definition set_s_CompletedCalls (v : Z) (s : Stats) : Stats :=
  mkStats (s_SentPackets s) (s_ReceivedPackets s) (s_Retransmissions s) (s_InvalidPackets s)
    (s_DroppedPackets s) (s_WriteErrors s) v (s_HandledRequests s) (s_ActiveRPCs s)
    (s_ActiveHandlers s) (s_BufferedBytes s).
Definition set_s_HandledRequests (v : Z) (s : Stats) : Stats :=
  mkStats (s_SentPackets s) (s_ReceivedPackets s) (s_Retransmissions s) (s_InvalidPackets s)
    (s_DroppedPackets s) (s_WriteErrors s) (s_CompletedCalls s) v (s_ActiveRPCs s)
    (s_ActiveHandlers s) (s_BufferedBytes s).
Definition set_s_ActiveRPCs (v : Z) (s : Stats) : Stats :=
  mkStats (s_SentPackets s) (s_ReceivedPackets s) (s_Retransmissions s) (s_InvalidPackets s)
    (s_DroppedPackets s) (s_WriteErrors s) (s_CompletedCalls s) (s_HandledRequests s) v
    (s_ActiveHandlers s) (s_BufferedBytes s).
Definition set_s_ActiveHandlers (v : Z) (s : Stats) : Stats :=
  mkStats (s_SentPackets s) (s_ReceivedPackets s) (s_Retransmissions s) (s_InvalidPackets s)
    (s_DroppedPackets s) (s_WriteErrors s) (s_CompletedCalls s) (s_HandledRequests s)
    (s_ActiveRPCs s) v (s_BufferedBytes s).
Definition set_s_BufferedBytes (v : Z) (s : Stats) : Stats :=
  mkStats (s_SentPackets s) (s_ReceivedPackets s) (s_Retransmissions s) (s_InvalidPackets s)
    (s_DroppedPackets s) (s_WriteErrors s) (s_CompletedCalls s) (s_HandledRequests s)
    (s_ActiveRPCs s) (s_ActiveHandlers s) v.

Definition set_e_rpcs (v : gmap rpcKey loc) (e : Endpoint) : Endpoint :=
  mkEndpoint v (e_heap e) (e_cutoffs e) (e_nextID e) (e_stats e) (e_closed e) (e_done e)
    (e_workers e) (e_outbound e) (e_wake e) (e_running e) (e_canceled e) (e_callers e)
    (e_writer e) (e_io_closed e) (e_ticks e).
Definition set_e_heap (v : list rpc) (e : Endpoint) : Endpoint :=
  mkEndpoint (e_rpcs e) v (e_cutoffs e) (e_nextID e) (e_stats e) (e_closed e) (e_done e)
    (e_workers e) (e_outbound e) (e_wake e) (e_running e) (e_canceled e) (e_callers e)
    (e_writer e) (e_io_closed e) (e_ticks e).
Definition set_e_cutoffs (v : gmap IPAddr cutoff) (e : Endpoint) : Endpoint :=
  mkEndpoint (e_rpcs e) (e_heap e) v (e_nextID e) (e_stats e) (e_closed e) (e_done e)
    (e_workers e) (e_outbound e) (e_wake e) (e_running e) (e_canceled e) (e_callers e)
    (e_writer e) (e_io_closed e) (e_ticks e).
Definition set_e_nextID (v : Z) (e : Endpoint) : Endpoint :=
  mkEndpoint (e_rpcs e) (e_heap e) (e_cutoffs e) v (e_stats e) (e_closed e) (e_done e)
    (e_workers e) (e_outbound e) (e_wake e) (e_running e) (e_canceled e) (e_callers e)
    (e_writer e) (e_io_closed e) (e_ticks e).
Definition set_e_stats (v : Stats) (e : Endpoint) : Endpoint :=
  mkEndpoint (e_rpcs e) (e_heap e) (e_cutoffs e) (e_nextID e) v (e_closed e) (e_done e)
    (e_workers e) (e_outbound e) (e_wake e) (e_running e) (e_canceled e) (e_callers e)
    (e_writer e) (e_io_closed e) (e_ticks e).
Definition set_e_closed (v : bool) (e : Endpoint) : Endpoint :=
  mkEndpoint (e_rpcs e) (e_heap e) (e_cutoffs e) (e_nextID e) (e_stats e) v (e_done e)
    (e_workers e) (e_outbound e) (e_wake e) (e_running e) (e_canceled e) (e_callers e)
    (e_writer e) (e_io_closed e) (e_ticks e).
Definition set_e_done (v : bool) (e : Endpoint) : Endpoint :=
  mkEndpoint (e_rpcs e) (e_heap e) (e_cutoffs e) (e_nextID e) (e_stats e) (e_closed e) v
    (e_workers e) (e_outbound e) (e_wake e) (e_running e) (e_canceled e) (e_callers e)
    (e_writer e) (e_io_closed e) (e_ticks e).
Definition set_e_workers (v : Z) (e : Endpoint) : Endpoint :=
  mkEndpoint (e_rpcs e) (e_heap e) (e_cutoffs e) (e_nextID e) (e_stats e) (e_closed e)
    (e_done e) v (e_outbound e) (e_wake e) (e_running e) (e_canceled e) (e_callers e) (e_writer e)
    (e_io_closed e) (e_ticks e).
Definition set_e_outbound (v : list (list outgoingPacket)) (e : Endpoint) : Endpoint :=
  mkEndpoint (e_rpcs e) (e_heap e) (e_cutoffs e) (e_nextID e) (e_stats e) (e_closed e)
    (e_done e) (e_workers e) v (e_wake e) (e_running e) (e_canceled e) (e_callers e) (e_writer e)
    (e_io_closed e) (e_ticks e).
Definition set_e_wake (v : bool) (e : Endpoint) : Endpoint :=
  mkEndpoint (e_rpcs e) (e_heap e) (e_cutoffs e) (e_nextID e) (e_stats e) (e_closed e)
    (e_done e) (e_workers e) (e_outbound e) v (e_running e) (e_canceled e) (e_callers e)
    (e_writer e) (e_io_closed e) (e_ticks e).
Definition set_e_running (v : list (loc * list Z)) (e : Endpoint) : Endpoint :=
  mkEndpoint (e_rpcs e) (e_heap e) (e_cutoffs e) (e_nextID e) (e_stats e) (e_closed e)
    (e_done e) (e_workers e) (e_outbound e) (e_wake e) v (e_canceled e) (e_callers e) (e_writer e)
    (e_io_closed e) (e_ticks e).
Definition set_e_canceled (v : list loc) (e : Endpoint) : Endpoint :=
  mkEndpoint (e_rpcs e) (e_heap e) (e_cutoffs e) (e_nextID e) (e_stats e) (e_closed e)
    (e_done e) (e_workers e) (e_outbound e) (e_wake e) (e_running e) v (e_callers e) (e_writer e)
    (e_io_closed e) (e_ticks e).
Definition set_e_callers (v : list loc) (e : Endpoint) : Endpoint :=
  mkEndpoint (e_rpcs e) (e_heap e) (e_cutoffs e) (e_nextID e) (e_stats e) (e_closed e)
    (e_done e) (e_workers e) (e_outbound e) (e_wake e) (e_running e) (e_canceled e) v (e_writer e)
    (e_io_closed e) (e_ticks e).
Definition set_e_writer (v : writer) (e : Endpoint) : Endpoint :=
  mkEndpoint (e_rpcs e) (e_heap e) (e_cutoffs e) (e_nextID e) (e_stats e) (e_closed e)
    (e_done e) (e_workers e) (e_outbound e) (e_wake e) (e_running e) (e_canceled e) (e_callers e)
    v (e_io_closed e) (e_ticks e).
Definition set_e_io_closed (v : bool) (e : Endpoint) : Endpoint :=
  mkEndpoint (e_rpcs e) (e_heap e) (e_cutoffs e) (e_nextID e) (e_stats e) (e_closed e)
    (e_done e) (e_workers e) (e_outbound e) (e_wake e) (e_running e) (e_canceled e) (e_callers e)
    (e_writer e) v (e_ticks e).
Definition set_e_ticks (v : nat) (e : Endpoint) : Endpoint :=
  mkEndpoint (e_rpcs e) (e_heap e) (e_cutoffs e) (e_nextID e) (e_stats e) (e_closed e)
    (e_done e) (e_workers e) (e_outbound e) (e_wake e) (e_running e) (e_canceled e) (e_callers e)
    (e_writer e) (e_io_closed e) v.

(** ** The run-time system

    The wall clock is read several times within one critical section and Go
    iterates over a map in an order of its choice.  Both are functions of the
    number of such choices made so far, about which nothing is assumed beyond
    that the clock does not run backwards and that an iteration visits each
    entry once. *)
Class GoRuntime := {
  #[global] runtime_platform :: GoPlatform;
  clock : nat → Z;
  clock_mono : ∀ n m, (n ≤ m)%nat → clock n ≤ clock m;
  map_order : nat → gmap rpcKey loc → list (rpcKey * loc);
  map_order_perm : ∀ n m, map_order n m ≡ₚ map_to_list m
}.

(** A concrete run-time system: a clock that stands still, maps visited in the
    order of their keys. *)
Definition still_clock (now : Z) : GoRuntime := {|
  runtime_platform := amd64;
  clock := λ _, now;
  clock_mono := λ _ _ _, Z.le_refl now;
  map_order := λ _ m, map_to_list m;
  map_order_perm := λ _ m, Permutation_refl (map_to_list m)
|}.
