(* ===== verification/Endpoint.v ===== *)
(** * The operations of an endpoint (src/endpoint.go)

    Every method of [Endpoint] that runs under [e.mu], written in the monad of
    Prelude over the state of EndpointState.  A goroutine's body is cut where
    it releases the lock: each piece between [Lock] and [Unlock] is one
    operation, and Trace composes them. *)
From S2P Require Import Prelude Wire Assembly Api EndpointState.

#[local] Open Scope Z_scope.

Section endpoint.
Context `{GoRuntime} (cfg : Config) (local : Addr) (handler : bool).

(** ** Memory, clock, map iteration, counters *)

Definition load (p : loc) : M Endpoint rpc :=
  e ← get; or_panic (e_heap e !! p).

Definition store (p : loc) (r : rpc) : M Endpoint unit :=
  modify (λ e, set_e_heap (<[p := r]> (e_heap e)) e).

Definition alloc (r : rpc) : M Endpoint loc :=
  e ← get;
  modify (set_e_heap (e_heap e ++ [r]));;
  mret (length (e_heap e)).

(** [time.Now()]. *)
Definition time_Now : M Endpoint Z :=
  e ← get;
  modify (set_e_ticks (S (e_ticks e)));;
  mret (clock (e_ticks e)).

(** [range e.rpcs]: the entries in the order this iteration visits them. *)
Definition range_rpcs : M Endpoint (list (rpcKey * loc)) :=
  e ← get;
  modify (set_e_ticks (S (e_ticks e)));;
  mret (map_order (e_ticks e) (e_rpcs e)).

(** [for k, r := range e.rpcs { body }] where the body only deletes entries:
    an entry deleted before it is reached is not visited. *)
Definition for_rpcs (body : rpcKey → loc → M Endpoint unit) : M Endpoint unit :=
  entries ← range_rpcs;
  for_each entries (λ '(k, p),
    e ← get;
    if bool_decide (e_rpcs e !! k = Some p) then body k p else mret ()).

Definition lookup_rpc (k : rpcKey) : M Endpoint (option loc) :=
  e ← get; mret (e_rpcs e !! k).

Definition bump (f : Stats → Stats) : M Endpoint unit :=
  modify (λ e, set_e_stats (f (e_stats e)) e).

Definition count_sent := bump (λ s, set_s_SentPackets (u64 (s_SentPackets s + 1)) s).
Definition count_received := bump (λ s, set_s_ReceivedPackets (u64 (s_ReceivedPackets s + 1)) s).
Definition count_retransmission :=
  bump (λ s, set_s_Retransmissions (u64 (s_Retransmissions s + 1)) s).
Definition count_invalid := bump (λ s, set_s_InvalidPackets (u64 (s_InvalidPackets s + 1)) s).
Definition count_dropped := bump (λ s, set_s_DroppedPackets (u64 (s_DroppedPackets s + 1)) s).
Definition count_write_error := bump (λ s, set_s_WriteErrors (u64 (s_WriteErrors s + 1)) s).
Definition count_completed := bump (λ s, set_s_CompletedCalls (u64 (s_CompletedCalls s + 1)) s).
Definition count_handled := bump (λ s, set_s_HandledRequests (u64 (s_HandledRequests s + 1)) s).

(** [e.stats.BufferedBytes += n]. *)
Definition add_buffered (n : Z) : M Endpoint unit :=
  bump (λ s, set_s_BufferedBytes (s_BufferedBytes s + n) s).

(** [e.rpcs[r.key] == r]. *)
Definition is_current (p : loc) : M Endpoint bool :=
  r ← load p; e ← get; mret (bool_decide (e_rpcs e !! r_key r = Some p)).

(** [r.cancel()]. *)
Definition cancel_context (p : loc) : M Endpoint unit :=
  modify (λ e, set_e_canceled (p :: e_canceled e) e).

(** Send on a channel of capacity one; with the lock held a full channel can
    never be drained by a caller that needs the lock, so it blocks for good. *)
Definition send_result (p : loc) (v : result) : M Endpoint unit :=
  r ← load p;
  match r_result r with
  | Some [] => store p (set_r_result (Some [v]) r)
  | Some (_ :: _) => stop Deadlock
  | None => stop Deadlock
  end.

(** ** Sending *)

Definition reserve (n : Z) : M Endpoint bool :=
  e ← get;
  if (n <? 0) || (c_MaxBufferedBytes cfg - s_BufferedBytes (e_stats e) <? n) then mret false
  else add_buffered n;; mret true.

(** [e.common(r, t)] reads only [r.key]. *)
Definition common (key : rpcKey) (t : Z) : wire.Common :=
  wire.NewCommon t (Port local) (Port (k_peer key)) (k_id key).

(** [case e.outbound[priority] <- packet] with its [default]. *)
Definition enqueue (packet : outgoingPacket) : M Endpoint unit :=
  e ← get;
  q ← or_panic (idx (e_outbound e) (o_priority packet));
  if len q <? 32 then
    out ← or_panic (upd (e_outbound e) (o_priority packet) (q ++ [packet]));
    modify (λ e, set_e_wake true (set_e_outbound out e))
  else count_dropped.

Definition send (peer : Addr) (p : wire.Packet) (priority : Z) : M Endpoint (option error) :=
  if 8 <=? priority then mret (Some ErrProtocol) else
  b ← or_panic (wire.Marshal (wire.AValue p));
  match b with
  | inl err => mret (Some (ErrWire err))
  | inr b =>
      let h := wire.Header p in
      origin ← lookup_rpc {| k_peer := peer; k_id := wire.h_SenderID h |};
      enqueue {| o_data := b; o_peer := IP peer; o_priority := priority;
                 o_origin := origin; o_typ := wire.h_Type h |};;
      mret None
  end.

Definition control (key : rpcKey) (t : Z) : M Endpoint (option error) :=
  send (k_peer key) (wire.PCommonPacket (common key t)) 7.

(** [for i := 7; i >= 0; i--]: [n] is [i + 1]. *)
Fixpoint unsched_loop (values : list Z) (n : Z) (i : nat) : option Z :=
  match i with
  | O => Some 0
  | S i =>
      v ← idx values (Z.of_nat i);
      if u32 n <=? v then Some (u8 (Z.of_nat i)) else unsched_loop values n i
  end.

Definition unsched (ip : IPAddr) (n : Z) : M Endpoint Z :=
  e ← get;
  let values := match e_cutoffs e !! ip with
                | Some c => ct_values c
                | None => defaultCutoffs
                end in
  or_panic (unsched_loop values n 8).

Definition sendSegment (p : loc) (start : Z) (retransmit : bool) (priority : Z)
  : M Endpoint (option error) :=
  r ← load p;
  e ← get;
  let end_ := Z.min (start + c_SegmentBytes cfg) (len (r_tx r)) in
  let incoming := Z.min (len (r_tx r))
    (((r_granted r + c_SegmentBytes cfg - 1) `quot` c_SegmentBytes cfg) * c_SegmentBytes cfg) in
  let version := match e_cutoffs e !! IP (k_peer (r_key r)) with
                 | Some c => ct_version c
                 | None => 0
                 end in
  payload ← or_panic (slice (r_tx r) start end_);
  let packet := wire.PData {|
    wire.d_Common := common (r_key r) wire.DataType;
    wire.d_MessageLength := u32 (len (r_tx r)); wire.d_Incoming := u32 incoming;
    wire.d_Ack := {| wire.ar_ClientID := 0; wire.ar_ServerPort := 0 |};
    wire.d_CutoffVersion := version;
    wire.d_Retransmit := if retransmit then 1 else 0;
    wire.d_Padding := [0; 0; 0];
    wire.d_SegmentOffset := u32 start; wire.d_Payload := payload |} in
  (if retransmit then count_retransmission else mret ());;
  send (k_peer (r_key r)) packet priority.

Fixpoint sendNew_loop (fuel : nat) (p : loc) : M Endpoint (option error) :=
  match fuel with
  | O => stop OutOfFuel
  | S fuel =>
      r ← load p;
      if r_sent r <? Z.min (r_granted r) (len (r_tx r)) then
        let start := r_sent r in
        store p (set_r_sent (Z.min (start + c_SegmentBytes cfg) (len (r_tx r))) r);;
        err ← sendSegment p start false (r_priority r);
        match err with
        | Some err => mret (Some err)
        | None => sendNew_loop fuel p
        end
      else mret None
  end.

(** Every iteration sends at least one byte of [r.tx]. *)
Definition sendNew (p : loc) : M Endpoint (option error) :=
  r ← load p; sendNew_loop (S (length (r_tx r))) p.

Fixpoint resend_loop (fuel : nat) (p : loc) (at_ end_ priority : Z) : M Endpoint unit :=
  match fuel with
  | O => stop OutOfFuel
  | S fuel =>
      if at_ <? end_ then
        r ← load p;
        (if at_ <? len (r_tx r) then
           _ ← sendSegment p at_ true priority; mret ()
         else mret ());;
        resend_loop fuel p (at_ + c_SegmentBytes cfg) end_ priority
      else mret ()
  end.

Definition resend (p : loc) (start end_ priority : Z) : M Endpoint unit :=
  r ← load p;
  let end_ := Z.min end_ (r_sent r) in
  resend_loop (S (length (r_tx r))) p
    ((start `quot` c_SegmentBytes cfg) * c_SegmentBytes cfg) end_ priority.

(** ** Ending an RPC *)

Definition remove (p : loc) : M Endpoint unit :=
  current ← is_current p;
  if negb current then mret () else
  r ← load p;
  modify (λ e, set_e_rpcs (delete (r_key r) (e_rpcs e)) e);;
  add_buffered (- len (r_tx r));;
  store p (set_r_tx [] r);;
  match r_rx r with
  | Some a =>
      add_buffered (- (len (a_data a) + len (a_bits a)));;
      store p (set_r_rx None (set_r_tx [] r))
  | None => mret ()
  end;;
  if r_cancel r then cancel_context p else mret ().

Definition finish (p : loc) (data : list Z) (err : option error) : M Endpoint unit :=
  current ← is_current p;
  if negb current then mret () else
  r ← load p;
  let sent := (0 <? r_sent r) || r_received r in
  remove p;;
  match r_result r with
  | Some _ => send_result p {| res_data := data; res_err := (λ x, mkCallError x sent) <$> err |}
  | None => mret ()
  end.

Definition shutdown (err : error) : M Endpoint unit :=
  e ← get;
  if e_closed e then mret () else
  modify (set_e_closed true);;
  (if e_done e then stop Panic else modify (set_e_done true));;
  for_rpcs (λ _ p, finish p [] (Some err));;
  modify (set_e_io_closed true).

(** ** Receiving *)

(** [e.requestMissing(r)] *)
Definition requestMissing (p : loc) : M Endpoint unit :=
  r ← load p;
  range ← match r_rx r with
          | None => mret (Some (0, wire.ResendAll))
          | Some a =>
              hole ← or_panic (missing a);
              mret ((λ '(offset, n), (offset, u32 n)) <$> hole)
          end;
  match range with
  | None => mret ()
  | Some (offset, length) =>
      _ ← send (k_peer (r_key r)) (wire.PResend {|
        wire.rs_Common := common (r_key r) wire.ResendType;
        wire.rs_Offset := u32 offset; wire.rs_Length := length; wire.rs_Priority := 7 |}) 7;
      mret ()
  end.

(** [len(r.rx.data)-r.rx.count]: the bytes still to arrive. *)
Definition remaining (a : assembly) : Z := len (a_data a) - a_count a.

(** The RPCs that wait for a grant, with the state they are sorted by. *)
Definition is_candidate (r : rpc) : option assembly :=
  match r_rx r with
  | Some a =>
      if (a_count a <? len (a_data a)) && (a_granted a <? len (a_data a)) then Some a else None
  | None => None
  end.

(** [less(i, j)] is false for the swapped pair: the order of [sort.Slice]. *)
Definition candidate_le (x y : loc * rpcKey * assembly) : Prop :=
  remaining x.2 < remaining y.2 ∨
  (remaining x.2 = remaining y.2 ∧ k_id x.1.2 ≤ k_id y.1.2).

#[global] Instance candidate_le_dec x y : Decision (candidate_le x y).
Proof. unfold candidate_le. apply _. Defined.

Fixpoint collect (entries : list (rpcKey * loc)) : M Endpoint (list (loc * rpcKey * assembly)) :=
  match entries with
  | [] => mret []
  | (_, p) :: entries =>
      r ← load p;
      rest ← collect entries;
      mret (match is_candidate r with
            | Some a => (p, r_key r, a) :: rest
            | None => rest
            end)
  end.

Definition grant_one (rank : Z) (p : loc) : M Endpoint unit :=
  r ← load p;
  a ← or_panic (r_rx r);
  let end_ := Z.min (len (a_data a)) (a_count a + c_GrantWindow cfg) in
  if end_ <=? a_granted a then mret () else
  store p (set_r_rx (Some {| a_data := a_data a; a_bits := a_bits a; a_count := a_count a;
                             a_contiguous := a_contiguous a; a_granted := end_ |}) r);;
  _ ← send (k_peer (r_key r)) (wire.PGrant {|
    wire.g_Common := common (r_key r) wire.GrantType;
    wire.g_Offset := u32 end_; wire.g_Priority := u8 (Z.max 0 (3 - rank)) |}) 7;
  mret ().

Fixpoint grant_loop (rank : Z) (candidates : list (loc * rpcKey * assembly)) : M Endpoint unit :=
  match candidates with
  | [] => mret ()
  | c :: candidates =>
      if c_Overcommit cfg <=? rank then mret ()
      else grant_one rank c.1.1;; grant_loop (rank + 1) candidates
  end.

(** [sort.Slice] is not stable; the iteration order of the map is arbitrary,
    so a stable sort of it yields every order [sort.Slice] may produce. *)
Definition schedule : M Endpoint unit :=
  entries ← range_rpcs;
  candidates ← collect entries;
  grant_loop 0 (merge_sort candidate_le candidates).

Definition ack (ip : IPAddr) (a : wire.AckRecord) : M Endpoint unit :=
  if (wire.ar_ClientID a =? 0) || negb (Z.land (wire.ar_ClientID a) 1 =? 0) ||
     negb (wire.ar_ServerPort a =? Port local)
  then mret () else
  entries ← range_rpcs;
  match list_find (λ '(k, _), IP (k_peer k) = ip ∧ k_id k = Z.lxor (wire.ar_ClientID a) 1)
          entries with
  | Some (_, (_, p)) => remove p
  | None => mret ()
  end.

(** The select with a full [workers] channel falls through to [default]. *)
Definition startHandler (p : loc) : M Endpoint unit :=
  r ← load p;
  match r_rx r with
  | None => mret ()
  | Some a =>
      if r_handling r then mret () else
      now ← time_Now;
      if negb (now <? r_deadline r) then finish p [] (Some DeadlineExceeded) else
      e ← get;
      if c_HandlerWorkers cfg <=? e_workers e then mret () else
      modify (λ e, set_e_workers (e_workers e + 1) e);;
      add_buffered (- len (a_bits a));;
      store p (set_r_cancel true (set_r_rx None (set_r_handling true r)));;
      count_handled;;
      modify (λ e, set_e_running (e_running e ++ [(p, a_data a)]) e)
  end.

(** [time.Since(t)]; since the zero time it saturates at the largest Duration. *)
Definition since (now : Z) (t : option Z) : Z :=
  match t with Some t => now - t | None => 2 ^ 63 - 1 end.

(** The part of [data] that finds or creates the RPC of a valid packet. *)
Definition data_rpc (key : rpcKey) : M Endpoint (option loc) :=
  found ← lookup_rpc key;
  match found with
  | Some p => mret (Some p)
  | None =>
      e ← get;
      if (Z.land (k_id key) 1 =? 0) || negb handler ||
         (c_MaxRPCs cfg <=? Z.of_nat (size (e_rpcs e))) then mret None else
      now ← time_Now;
      last ← time_Now;
      p ← alloc (mkRpc key [] 0 0 0 None false false (now + c_Timeout cfg) last None None false);
      modify (λ e, set_e_rpcs (<[key := p]> (e_rpcs e)) e);;
      mret (Some p)
  end.

(** A peer that does not know our cutoffs is told, at most once per interval. *)
Definition data_cutoffs (peer : Addr) (p : loc) (d : wire.Data) : M Endpoint unit :=
  if wire.d_CutoffVersion d =? 1 then mret () else
  r ← load p;
  now ← time_Now;
  if since now (r_lastCutoff r) <? c_RetryInterval cfg then mret () else
  now' ← time_Now;
  store p (set_r_lastCutoff (Some now') r);;
  _ ← send peer (wire.PCutoffs {|
    wire.cu_Common := common (r_key r) wire.CutoffsType;
    wire.cu_UnscheduledCutoffs := defaultCutoffs; wire.cu_CutoffVersion := 1 |}) 7;
  mret ().

(** The receive buffer of the RPC, allocated on the first packet; [None] when
    the memory budget has no room for it. *)
Definition data_buffer (key : rpcKey) (p : loc) (d : wire.Data) : M Endpoint (option assembly) :=
  r ← load p;
  match r_rx r with
  | Some a => mret (Some a)
  | None =>
      let n := to_int (wire.d_MessageLength d) in
      let cost := n + (n + 7) `quot` 8 in
      ok ← reserve cost;
      if negb ok then
        (if Z.land (k_id key) 1 =? 1 then remove p else mret ());;
        mret None
      else
        let a := new_assembly n (to_int (wire.d_Incoming d)) in
        store p (set_r_rx (Some a) r);;
        (if Z.land (k_id key) 1 =? 0 then
           add_buffered (- len (r_tx r));;
           store p (set_r_tx [] (set_r_rx (Some a) r))
         else mret ());;
        mret (Some a)
  end.

(** The last part of [data]: the message is complete. *)
Definition data_complete (peer : Addr) (key : rpcKey) (p : loc) (a : assembly) : M Endpoint unit :=
  r ← load p;
  store p (set_r_received true r);;
  if Z.land (k_id key) 1 =? 0 then
    _ ← send peer (wire.PAck {|
      wire.ak_Common := common (r_key r) wire.AckType; wire.ak_NumAcks := 0;
      wire.ak_Acks := replicate wire.MaxAcks {| wire.ar_ClientID := 0; wire.ar_ServerPort := 0 |} |}) 7;
    store p (set_r_rx (Some {| a_data := []; a_bits := a_bits a; a_count := a_count a;
                               a_contiguous := a_contiguous a; a_granted := a_granted a |})
              (set_r_received true r));;
    add_buffered (- len (a_data a));;
    count_completed;;
    finish p (a_data a) None
  else
    startHandler p;;
    schedule.

Definition data (peer : Addr) (key : rpcKey) (d : wire.Data) : M Endpoint unit :=
  if bool_decide (wire.ValidateBounds d (u32 (c_MaxMessageSize cfg)) ≠ None) ||
     (len (wire.d_Payload d) =? 0) || (wire.d_MessageLength d <? wire.d_Incoming d)
  then count_invalid else
  ack (IP peer) (wire.d_Ack d);;
  found ← data_rpc key;
  match found with
  | None => mret ()
  | Some p =>
      data_cutoffs peer p d;;
      r ← load p;
      if r_received r then mret () else
      buffer ← data_buffer key p d;
      match buffer with
      | None => mret ()
      | Some a =>
          if negb (len (a_data a) =? to_int (wire.d_MessageLength d)) then count_invalid else
          let start := to_int (wire.EffectiveOffset d) in
          accepted ← or_panic (accept a start (wire.d_Payload d) (to_int (wire.d_Incoming d)));
          match accepted with
          | None => count_invalid
          | Some a =>
              r ← load p;
              store p (set_r_rx (Some a) r);;
              if negb (a_count a =? len (a_data a)) then schedule
              else data_complete peer key p a
          end
      end
  end.

(** [case wire.Grant] *)
Definition receive_grant (p : loc) (v : wire.Grant) : M Endpoint unit :=
  r ← load p;
  if (7 <? wire.g_Priority v) || (len (r_tx r) =? 0) then mret () else
  if r_granted r <? to_int (wire.g_Offset v) then
    store p (set_r_priority (wire.g_Priority v)
              (set_r_granted (Z.min (to_int (wire.g_Offset v)) (len (r_tx r))) r));;
    err ← sendNew p;
    match err with
    | Some err => finish p [] (Some err)
    | None => mret ()
    end
  else mret ().

(** [case wire.Resend] of a known RPC *)
Definition receive_resend (p : loc) (v : wire.Resend) : M Endpoint unit :=
  r ← load p;
  if len (r_tx r) =? 0 then _ ← control (r_key r) wire.BusyType; mret () else
  if len (r_tx r) <=? wire.rs_Offset v then _ ← control (r_key r) wire.BusyType; mret () else
  let end_ := if negb (wire.rs_Length v =? wire.ResendAll)
              then to_int (Z.min (len (r_tx r)) (u64 (wire.rs_Offset v + wire.rs_Length v)))
              else r_sent r in
  resend p (to_int (wire.rs_Offset v)) end_ (wire.rs_Priority v);;
  r ← load p;
  (if r_granted r <? end_ then
     store p (set_r_priority (wire.rs_Priority v) (set_r_granted end_ r));;
     _ ← sendNew p; mret ()
   else mret ());;
  r ← load p;
  if r_sent r <=? to_int (wire.rs_Offset v) then _ ← control (r_key r) wire.BusyType; mret ()
  else mret ().

Definition touch (p : loc) : M Endpoint unit :=
  now ← time_Now; r ← load p; store p (set_r_last now r).

Definition receive (ip : IPAddr) (p : wire.Packet) : M Endpoint unit :=
  let h := wire.Header p in
  if negb (Is4 ip) || IsUnspecified ip || IsMulticast ip ||
     negb (wire.h_DestinationPort h =? Port local) || (wire.h_SourcePort h =? 0) ||
     (wire.h_SenderID h =? 0)
  then mret () else
  let peer := {| IP := ip; Port := wire.h_SourcePort h |} in
  let key := {| k_peer := peer; k_id := wire.LocalID h |} in
  found ← lookup_rpc key;
  match found with
  | Some r =>
      if (wire.h_Type h =? wire.DataType) || (wire.h_Type h =? wire.GrantType) ||
         (wire.h_Type h =? wire.BusyType) then touch r else mret ()
  | None => mret ()
  end;;
  match p with
  | wire.PData v => data peer key v
  | wire.PGrant v => match found with Some r => receive_grant r v | None => mret () end
  | wire.PResend v =>
      if 7 <? wire.rs_Priority v then mret () else
      match found with
      | None => _ ← control key wire.RPCUnknownType; mret ()
      | Some r => receive_resend r v
      end
  | wire.PRPCUnknown _ =>
      match found with
      | None => mret ()
      | Some r =>
          o ← load r;
          if Z.land (k_id (r_key o)) 1 =? 1 then remove r
          else if negb (bool_decide (is_Some (r_rx o))) && negb (r_received o) then
            priority ← unsched ip (len (r_tx o));
            resend r 0 (r_sent o) priority
          else mret ()
      end
  | wire.PNeedAck _ =>
      if negb (Z.land (k_id key) 1 =? 0) then mret () else
      done_ ← match found with
              | None => mret true
              | Some r => o ← load r; mret (r_received o)
              end;
      match found with
      | Some r =>
          if (done_ : bool) then
            _ ← send peer (wire.PAck {| wire.ak_Common := common key wire.AckType;
              wire.ak_NumAcks := 0; wire.ak_Acks := replicate wire.MaxAcks
                {| wire.ar_ClientID := 0; wire.ar_ServerPort := 0 |} |}) 7; mret ()
          else requestMissing r
      | None =>
          _ ← send peer (wire.PAck {| wire.ak_Common := common key wire.AckType;
            wire.ak_NumAcks := 0; wire.ak_Acks := replicate wire.MaxAcks
              {| wire.ar_ClientID := 0; wire.ar_ServerPort := 0 |} |}) 7; mret ()
      end
  | wire.PAck v =>
      if negb (Z.land (k_id key) 1 =? 1) then mret () else
      match found with Some r => remove r | None => mret () end;;
      acks ← or_panic (slice (wire.ak_Acks v) 0 (wire.ak_NumAcks v));
      for_each acks (ack ip)
  | wire.PCutoffs v =>
      e ← get;
      if bool_decide (is_Some (e_cutoffs e !! ip)) ||
         (Z.of_nat (size (e_cutoffs e)) <? c_MaxRPCs cfg)
      then modify (set_e_cutoffs (<[ip := {| ct_values := wire.cu_UnscheduledCutoffs v;
                                            ct_version := wire.cu_CutoffVersion v |}]> (e_cutoffs e)))
      else mret ()
  | wire.PBusy _ | wire.PFreeze _ | wire.PCommonPacket _ | wire.POther _ => mret ()
  end.

(** ** Calls *)

(** [Call] up to the point where it waits: the error it returns at once, or the
    RPC whose result channel it reads.  [ctx_err] and [ctx_deadline] are
    [ctx.Err()] and [ctx.Deadline()]. *)
Definition Call (ctx_err : option error) (ctx_deadline : option Z) (peer : Addr)
  (request : list Z) : M Endpoint (CallError + loc) :=
  match ctx_err with
  | Some err => mret (inl {| ce_Err := err; ce_Sent := false |})
  | None =>
  if negb (Is4 (IP peer)) || IsUnspecified (IP peer) || IsMulticast (IP peer) ||
     bool_decide (IP peer = AddrFrom4 255 255 255 255) || (Port peer =? 0)
  then mret (inl {| ce_Err := ErrProtocol; ce_Sent := false |}) else
  if (len request =? 0) || (c_MaxMessageSize cfg <? len request)
  then mret (inl {| ce_Err := ErrTooLarge; ce_Sent := false |}) else
  e ← get;
  if e_closed e then mret (inl {| ce_Err := ErrClosed; ce_Sent := false |}) else
  room ← (if c_MaxRPCs cfg <=? Z.of_nat (size (e_rpcs e)) then mret false
          else reserve (len request));
  if negb room then mret (inl {| ce_Err := ErrBusy; ce_Sent := false |}) else
  modify (λ e, set_e_nextID (u64 (e_nextID e + 2)) e);;
  modify (λ e, if e_nextID e =? 0 then set_e_nextID 2 e else e);;
  now ← time_Now;
  let deadline := now + c_Timeout cfg in
  let deadline := match ctx_deadline with
                  | Some d => if d <? deadline then d else deadline
                  | None => deadline
                  end in
  e ← get;
  let key := {| k_peer := peer; k_id := e_nextID e |} in
  priority ← unsched (IP peer) (len request);
  p ← alloc (mkRpc key request 0 (Z.min (len request) (c_UnscheduledBytes cfg)) priority
               None false false deadline now None (Some []) false);
  modify (λ e, set_e_rpcs (<[key := p]> (e_rpcs e)) e);;
  err ← sendNew p;
  match err with
  | Some err => finish p [] (Some err)
  | None => mret ()
  end;;
  modify (λ e, set_e_callers (p :: e_callers e) e);;
  mret (inr p)
  end.

(** [got := <-r.result] of the caller of [p]; [None] while the channel is empty. *)
Definition take_result (p : loc) : M Endpoint (option result) :=
  r ← load p;
  match r_result r with
  | Some (v :: rest) =>
      store p (set_r_result (Some rest) r);;
      modify (λ e, set_e_callers (filter (λ q, q ≠ p) (e_callers e)) e);;
      mret (Some v)
  | _ => mret None
  end.

(** [case <-ctx.Done()]: finish the RPC if it is still live, then receive, which
    must not block. *)
Definition call_done (p : loc) (ctx_err : error) : M Endpoint result :=
  current ← is_current p;
  (if (current : bool) then finish p [] (Some ctx_err) else mret ());;
  got ← take_result p;
  match got with
  | Some v => mret v
  | None => stop Deadlock
  end.

(** ** Goroutines *)

(** The loop of [dequeue]: [n] is [priority + 1]. *)
Fixpoint dequeue_loop (n : nat) : M Endpoint (option outgoingPacket) :=
  match n with
  | O => mret None
  | S n =>
      e ← get;
      q ← or_panic (idx (e_outbound e) (Z.of_nat n));
      match q with
      | packet :: rest =>
          out ← or_panic (upd (e_outbound e) (Z.of_nat n) rest);
          modify (set_e_outbound out);;
          mret (Some packet)
      | [] => dequeue_loop n
      end
  end.

Definition dequeue : M Endpoint (option outgoingPacket) :=
  e ← get; dequeue_loop (length (e_outbound e)).

(** [e.rpcs[origin.key] == origin] for an origin that may be nil. *)
Definition origin_live (origin : option loc) : M Endpoint bool :=
  match origin with
  | None => mret false
  | Some p => is_current p
  end.

(** The condition under which a dequeued packet is dropped; [time.Now()] is
    read only for the DATA of a live RPC. *)
Definition stale_check (packet : outgoingPacket) : M Endpoint bool :=
  if o_typ packet =? wire.DataType then
    live ← origin_live (o_origin packet);
    match o_origin packet with
    | None => mret true
    | Some p =>
        if negb live then mret true else
        now ← time_Now; r ← load p; mret (negb (now <? r_deadline r))
    end
  else mret false.

(** One round of [writeLoop] from [Lock] to the unlock before [WritePacket]. *)
Definition writeLoop_next : M Endpoint unit :=
  e ← get;
  if e_closed e then modify (set_e_writer WExited) else
  next ← dequeue;
  match next with
  | None => modify (set_e_writer WWaiting)
  | Some packet =>
      stale ← stale_check packet;
      if (stale : bool) then count_dropped
      else modify (set_e_writer (WWriting packet))
  end.

(** The select of an idle writer: a token on [wake], or the closed [done]; when
    both are ready Go picks one, here [pick_done]. *)
Definition writeLoop_wake (pick_done : bool) : M Endpoint unit :=
  e ← get;
  if e_done e && (pick_done || negb (e_wake e)) then modify (set_e_writer WExited)
  else if e_wake e then modify (λ e, set_e_writer WReady (set_e_wake false e))
  else mret ().

(** [writeLoop] after [WritePacket] returned [err] for [packet]. *)
Definition writeLoop_done (packet : outgoingPacket) (err : option error) : M Endpoint unit :=
  match err with
  | Some err =>
      count_write_error;;
      live ← origin_live (o_origin packet);
      match o_origin packet with
      | Some p => if (live : bool) then finish p [] (Some err) else mret ()
      | None => mret ()
      end
  | None => count_sent
  end;;
  modify (set_e_writer WReady).

(** One round of [readLoop]: an error of [ReadPacket], or a datagram. *)
Definition readLoop_error (err : error) : M Endpoint unit := shutdown err.

Definition readLoop_packet (b : list Z) (ip : IPAddr) : M Endpoint unit :=
  parsed ← or_panic (wire.Parse b);
  e ← get;
  if e_closed e then mret () else
  match parsed with
  | inl _ => count_invalid
  | inr p => count_received;; receive ip p
  end.

(** The body of the loop over [e.rpcs] in [timerLoop]. *)
Definition timer_rpc (now : Z) (p : loc) : M Endpoint unit :=
  r ← load p;
  if negb (now <? r_deadline r) then finish p [] (Some DeadlineExceeded) else
  (if (Z.land (k_id (r_key r)) 1 =? 1) && r_received r && negb (r_handling r)
   then startHandler p else mret ());;
  r ← load p;
  if now - r_last r <? c_RetryInterval cfg then mret () else
  store p (set_r_last now r);;
  if (Z.land (k_id (r_key r)) 1 =? 1) && (0 <? len (r_tx r)) && (r_sent r =? len (r_tx r)) then
    _ ← control (r_key r) wire.NeedAckType; mret ()
  else if bool_decide (is_Some (r_rx r)) then requestMissing p
  else if (Z.land (k_id (r_key r)) 1 =? 0) && negb (r_received r) then requestMissing p
  else mret ().

Definition timerLoop_tick (now : Z) : M Endpoint unit :=
  e ← get;
  if e_closed e then mret () else
  for_rpcs (λ _ p, timer_rpc now p);;
  schedule.

(** The loop that gives a freed worker slot to the requests that wait. *)
Definition start_waiting : M Endpoint unit :=
  for_rpcs (λ k p,
    r ← load p;
    if (Z.land (k_id (r_key r)) 1 =? 1) && r_received r && negb (r_handling r)
    then startHandler p else mret ()).

(** The goroutine of [startHandler] after the application handler returned
    [response] (empty when it panicked). *)
Definition handler_reply (p : loc) (response : list Z) : M Endpoint unit :=
  e ← get;
  current ← is_current p;
  if e_closed e || negb current then mret () else
  room ← (if (len response =? 0) || (c_MaxMessageSize cfg <? len response) then mret false
          else reserve (len response));
  if negb room then mret () else
  r ← load p;
  priority ← unsched (IP (k_peer (r_key r))) (len response);
  now ← time_Now;
  store p (set_r_last now (set_r_priority priority
    (set_r_granted (Z.min (len response) (c_UnscheduledBytes cfg)) (set_r_tx response r))));;
  err ← sendNew p;
  match err with
  | Some _ => remove p
  | None => mret ()
  end;;
  start_waiting.

Definition handler_done (p : loc) (payload response : list Z) : M Endpoint unit :=
  modify (λ e, set_e_running (filter (λ q, q.1 ≠ p) (e_running e)) e);;
  e ← get;
  (if e_workers e <=? 0 then stop Deadlock
   else modify (λ e, set_e_workers (e_workers e - 1) e));;
  add_buffered (- len payload);;
  handler_reply p response;;
  cancel_context p.

Definition stats_snapshot : M Endpoint Stats :=
  e ← get;
  mret (set_s_ActiveHandlers (e_workers e)
         (set_s_ActiveRPCs (Z.of_nat (size (e_rpcs e))) (e_stats e))).

End endpoint.

(** [New]; [io] tells a non-nil PacketIO and [rand] what [rand.Read(seed[:])]
    gives, an error or the bytes of the seed. *)
Definition New (io : bool) (local : Addr) (cfg : Config) (handler : bool) (rand : error + list Z)
  : error + (Config * Endpoint) :=
  match defaults cfg with
  | inl err => inl err
  | inr c =>
      if negb io || negb (Is4 (IP local)) || (Port local =? 0) then inl ErrLocalAddr
      else if handler && (32768 <=? Port local) then inl ErrServerPort
      else match rand with
      | inl err => inl err
      | inr seed => inr (c, {|
          e_rpcs := ∅; e_heap := []; e_cutoffs := ∅;
          e_nextID := Z.ldiff (be_decode seed) 1; e_stats := Stats_zero;
          e_closed := false; e_done := false; e_workers := 0;
          e_outbound := replicate 8 []; e_wake := false; e_running := [];
          e_canceled := []; e_callers := []; e_writer := WReady;
          e_io_closed := false; e_ticks := 0 |})
      end
  end.
