(* ===== verification/EndpointInv.v ===== *)
(** * The invariant of an endpoint

    What holds of the state whenever the lock is free: the live RPCs are in a
    consistent phase, the byte counter is exact and within the budget, every
    queue is within its capacity and holds well-formed datagrams, every handler
    owns a worker slot, every blocked caller has a result coming. *)
From S2P Require Import Prelude Wire WireFacts Assembly AssemblyFacts Api.
From S2P Require Import EndpointState Endpoint.

#[local] Open Scope Z_scope.

(** ** Accounting *)

Definition rx_bytes (r : rpc) : Z :=
  match r_rx r with Some a => len (a_data a) + len (a_bits a) | None => 0 end.

Definition rpc_bytes (r : rpc) : Z := len (r_tx r) + rx_bytes r.

Definition cell_bytes (heap : list rpc) (p : loc) : Z :=
  match heap !! p with Some r => rpc_bytes r | None => 0 end.

(** Bytes owned by the live RPCs. *)
Definition live_bytes (rpcs : gmap rpcKey loc) (heap : list rpc) : Z :=
  map_fold (λ _ p acc, cell_bytes heap p + acc) 0 rpcs.

(** Bytes owned by running handlers. *)
Definition running_bytes (running : list (loc * list Z)) : Z :=
  foldr (λ q acc, len q.2 + acc) 0 running.

Lemma rpc_bytes_nonneg r : 0 ≤ rpc_bytes r.
Proof.
  unfold rpc_bytes, rx_bytes. pose proof (len_nonneg (r_tx r)).
  destruct (r_rx r) as [a|]; [|lia].
  pose proof (len_nonneg (a_data a)). pose proof (len_nonneg (a_bits a)). lia.
Qed.

Lemma cell_bytes_nonneg heap p : 0 ≤ cell_bytes heap p.
Proof. unfold cell_bytes. destruct (heap !! p); [apply rpc_bytes_nonneg|done]. Qed.

Lemma live_bytes_delete rpcs heap k p :
  rpcs !! k = Some p →
  live_bytes rpcs heap = cell_bytes heap p + live_bytes (delete k rpcs) heap.
Proof.
  intros Hk. unfold live_bytes.
  rewrite (map_fold_delete_L (λ _ p acc, cell_bytes heap p + acc) 0 k p rpcs);
    [done|intros; lia|done].
Qed.

Lemma live_bytes_insert rpcs heap k p :
  rpcs !! k = None →
  live_bytes (<[k := p]> rpcs) heap = cell_bytes heap p + live_bytes rpcs heap.
Proof.
  intros Hk. unfold live_bytes.
  rewrite (map_fold_insert_L (λ _ p acc, cell_bytes heap p + acc) 0 k p rpcs);
    [done|intros; lia|done].
Qed.

(** Only the cells of live RPCs count. *)
Lemma live_bytes_ext rpcs heap heap' :
  (∀ k p, rpcs !! k = Some p → cell_bytes heap p = cell_bytes heap' p) →
  live_bytes rpcs heap = live_bytes rpcs heap'.
Proof.
  induction rpcs as [|k p m Hk IH] using map_ind; [done|]. intros Hext.
  rewrite !live_bytes_insert by done. f_equal.
  - apply (Hext k). by rewrite lookup_insert_eq.
  - apply IH. intros k' p' Hk'. apply (Hext k'). rewrite lookup_insert_ne; congruence.
Qed.

Lemma live_bytes_nonneg rpcs heap : 0 ≤ live_bytes rpcs heap.
Proof.
  induction rpcs as [|k p m Hk IH] using map_ind; [done|].
  rewrite live_bytes_insert by done. pose proof (cell_bytes_nonneg heap p). lia.
Qed.

Lemma running_bytes_nonneg l : 0 ≤ running_bytes l.
Proof.
  unfold running_bytes. induction l as [|q l IH]; [done|]. cbn [foldr].
  pose proof (len_nonneg q.2). lia.
Qed.

Lemma running_bytes_app l k : running_bytes (l ++ k) = running_bytes l + running_bytes k.
Proof. unfold running_bytes. induction l as [|q l IH]; [done|]. cbn [foldr app]. lia. Qed.

Lemma cell_bytes_insert heap p r q :
  (p < length heap)%nat →
  cell_bytes (<[p := r]> heap) q = if decide (p = q) then rpc_bytes r else cell_bytes heap q.
Proof.
  intros Hp. unfold cell_bytes. case_decide as E.
  - subst. by rewrite list_lookup_insert_eq.
  - by rewrite list_lookup_insert_ne.
Qed.

(** Updating the cell of a live RPC changes the total by the difference. *)
Lemma live_bytes_store rpcs heap k p r r' :
  rpcs !! k = Some p → heap !! p = Some r →
  (∀ k', rpcs !! k' = Some p → k' = k) →
  live_bytes rpcs (<[p := r']> heap) = live_bytes rpcs heap - rpc_bytes r + rpc_bytes r'.
Proof.
  intros Hk Hr Hinj. pose proof (lookup_lt_Some _ _ _ Hr) as Hp.
  rewrite !(live_bytes_delete rpcs _ k p) by done.
  rewrite cell_bytes_insert, decide_True by done.
  assert (cell_bytes heap p = rpc_bytes r) as -> by (unfold cell_bytes; by rewrite Hr).
  rewrite (live_bytes_ext _ (<[p := r']> heap) heap); [lia|].
  intros k' p' [Hne Hk']%lookup_delete_Some. rewrite cell_bytes_insert by done.
  case_decide; [|done]. subst p'. by apply Hinj in Hk'.
Qed.

(** Updating a cell that is not live changes nothing. *)
Lemma live_bytes_store_dead rpcs heap p r' :
  (∀ k, rpcs !! k ≠ Some p) → (p < length heap)%nat →
  live_bytes rpcs (<[p := r']> heap) = live_bytes rpcs heap.
Proof.
  intros Hd Hp. apply live_bytes_ext. intros k q Hq. rewrite cell_bytes_insert by done.
  case_decide; [|done]. subst. by apply Hd in Hq.
Qed.

(** ** Client IDs

    [Call] takes the next even ID and skips zero.  After the seed the IDs run
    through the 2^63 - 1 even nonzero values before one comes back. *)

Definition next_id (id : Z) : Z :=
  let v := u64 (id + 2) in if v =? 0 then 2 else v.

Definition id_after (seed : Z) (n : nat) : Z := Nat.iter n next_id seed.

Definition id_period : Z := 2 ^ 63 - 1.

Lemma id_after_rank s n :
  0 ≤ s < 2 ^ 63 →
  id_after (2 * s) (S n) = 2 * ((s + Z.of_nat n) `mod` id_period + 1).
Proof.
  intros Hs. assert (0 < id_period) as HP by done. induction n as [|n IH].
  - change (id_after (2 * s) 1) with (next_id (2 * s)).
    rewrite Z.add_0_r. unfold next_id, u64. destruct (decide (s = id_period)) as [->|Hne].
    + vm_compute. reflexivity.
    + unfold id_period in *. rewrite (Z.mod_small s), Z.mod_small by lia.
      case_if; lia.
  - change (id_after (2 * s) (S (S n))) with (next_id (id_after (2 * s) (S n))).
    rewrite IH. set (r := (s + Z.of_nat n) `mod` id_period).
    pose proof (Z.mod_pos_bound (s + Z.of_nat n) id_period HP) as Hr. fold r in Hr.
    assert ((s + Z.of_nat (S n)) `mod` id_period = (r + 1) `mod` id_period) as ->.
    { unfold r. rewrite Zplus_mod_idemp_l. f_equal. lia. }
    unfold next_id, u64. destruct (decide (r = id_period - 1)) as [->|Hne].
    + vm_compute. reflexivity.
    + unfold id_period in *. rewrite (Z.mod_small (r + 1)), Z.mod_small by lia.
      case_if; lia.
Qed.

Lemma id_after_range s n :
  0 ≤ s < 2 ^ 63 → is_u64 (id_after (2 * s) (S n)) ∧ id_after (2 * s) (S n) ≠ 0 ∧
  Z.even (id_after (2 * s) (S n)) = true.
Proof.
  intros Hs. rewrite id_after_rank by done.
  pose proof (Z.mod_pos_bound (s + Z.of_nat n) id_period eq_refl) as Hr.
  generalize dependent ((s + Z.of_nat n) `mod` id_period). intros r Hr.
  unfold is_u64, id_period in *. split; [lia|]. split; [lia|by rewrite Z.even_mul].
Qed.

(** No ID repeats within a period. *)
Lemma id_after_inj s i j :
  0 ≤ s < 2 ^ 63 → (i < j)%nat → Z.of_nat (j - i) < id_period →
  id_after (2 * s) (S i) ≠ id_after (2 * s) (S j).
Proof.
  intros Hs Hij Hd. rewrite !id_after_rank by done. intros E.
  assert ((s + Z.of_nat i) `mod` id_period = (s + Z.of_nat j) `mod` id_period) as Em by lia.
  pose proof (Z.div_mod (s + Z.of_nat i) id_period ltac:(done)).
  pose proof (Z.div_mod (s + Z.of_nat j) id_period ltac:(done)).
  set (q := (s + Z.of_nat j) / id_period - (s + Z.of_nat i) / id_period).
  assert (Z.of_nat (j - i) = id_period * q) as Eq by lia. clearbody q. clear - Hij Hd Eq.
  unfold id_period in *. destruct (decide (q ≤ 0)); lia.
Qed.

(** ** Well-formed pieces *)

Definition is_client (k : rpcKey) : bool := Z.even (k_id k).

Definition key_ok (k : rpcKey) : Prop :=
  is_u16 (Port (k_peer k)) ∧ is_u64 (k_id k).

Inductive mode := Idle | Changing (p : loc) | Closing.

(** ** What never changes back

    From a state to every later one: an RPC object keeps its key and deadline
    and stays handled, one that has ended stays out of the map, a handler that
    runs was running or its RPC had not been handled, a blocked caller was
    blocked or is new, and a closed endpoint stays closed. *)
Record evolves (a b : Endpoint) : Prop := {
  ev_cells : ∀ p r, e_heap a !! p = Some r → ∃ r', e_heap b !! p = Some r' ∧ r_key r' = r_key r ∧
    r_deadline r' = r_deadline r ∧ (r_handling r = true → r_handling r' = true);
  ev_live : ∀ k p, e_rpcs b !! k = Some p → (p < length (e_heap a))%nat → e_rpcs a !! k = Some p;
  ev_running : ∀ q, q ∈ e_running b →
    q ∈ e_running a ∨ ∀ r, e_heap a !! q.1 = Some r → r_handling r = false;
  ev_callers : ∀ p, p ∈ e_callers b → p ∈ e_callers a ∨ (length (e_heap a) ≤ p)%nat;
  ev_closed : e_closed a = true → e_closed b = true
}.

Lemma evolves_length a b : evolves a b → (length (e_heap a) ≤ length (e_heap b))%nat.
Proof.
  intros Hev. apply Nat.nlt_ge. intros Hlt.
  destruct (lookup_lt_is_Some_2 (e_heap a) (length (e_heap b)) Hlt) as [r Hr].
  destruct (ev_cells _ _ Hev _ _ Hr) as (r'&Hr'&_). apply lookup_lt_Some in Hr'. lia.
Qed.

#[global] Instance evolves_preorder : PreOrder evolves.
Proof.
  split.
  - intros a. split; auto. intros p r Hr. by exists r.
  - intros a b c Hab Hbc. pose proof (evolves_length _ _ Hab) as Hl. split.
    + intros p r Hr. destruct (ev_cells _ _ Hab _ _ Hr) as (r'&Hr'&?&?&?).
      destruct (ev_cells _ _ Hbc _ _ Hr') as (r''&Hr''&?&?&?).
      exists r''. split_and!; [done|congruence|congruence|auto].
    + intros k p Hk Hp. apply (ev_live _ _ Hab); [|done]. apply (ev_live _ _ Hbc); [done|lia].
    + intros q [Hq|Hq]%(ev_running _ _ Hbc); [by apply (ev_running _ _ Hab)|]. right.
      intros r Hr. destruct (ev_cells _ _ Hab _ _ Hr) as (r'&Hr'&_&_&Hh).
      destruct (r_handling r); [|done]. rewrite <- (Hq r' Hr'). symmetry. by apply Hh.
    + intros p [Hp|Hp]%(ev_callers _ _ Hbc); [by apply (ev_callers _ _ Hab)|right; lia].
    + intros Hc. by apply (ev_closed _ _ Hbc), (ev_closed _ _ Hab).
Qed.

(** One cell is replaced and keys may leave the map. *)
Lemma evolves_store e e' p r r' :
  e_heap e !! p = Some r → e_heap e' = <[p := r']> (e_heap e) → r_key r' = r_key r →
  r_deadline r' = r_deadline r → (r_handling r = true → r_handling r' = true) →
  (∀ k q, e_rpcs e' !! k = Some q → e_rpcs e !! k = Some q) → e_running e' ⊆ e_running e →
  e_callers e' ⊆ e_callers e → e_closed e' = e_closed e → evolves e e'.
Proof.
  intros Hr Eh Hk Hd Hh Hm Hrun Hc Hcl. split; auto; [|congruence].
  intros q rq Hq. rewrite Eh. destruct (decide (p = q)) as [<-|Hne].
  - exists r'. rewrite list_lookup_insert_eq by by eapply lookup_lt_Some. rewrite Hr in Hq.
    injection Hq as <-. done.
  - exists rq. by rewrite list_lookup_insert_ne.
Qed.

(** No cell changes. *)
Lemma evolves_same e e' :
  e_heap e' = e_heap e → e_rpcs e' = e_rpcs e → e_running e' ⊆ e_running e →
  e_callers e' ⊆ e_callers e → (e_closed e = true → e_closed e' = true) → evolves e e'.
Proof.
  intros Eh Er Hrun Hc Hcl. split; auto; [|congruence].
  intros p r Hr. exists r. by rewrite Eh.
Qed.

(** What the invariant is relative to: the first client ID, an earlier state,
    the messages this endpoint was given to send for an RPC, and the bytes that
    may arrive for one, each by the length of its message and its position. *)
Record ghost := mkGhost {
  g_seed : Z;
  g_past : Endpoint;
  g_tx : rpcKey → list Z → Prop;
  g_rx : rpcKey → Z → nat → Z → Prop
}.

(** Nothing is known about the messages. *)
Definition plain (seed : Z) (past : Endpoint) : ghost :=
  mkGhost seed past (λ _ _, True) (λ _ _ _ _, True).

(** The same, relative to a later state. *)
Definition rebase (gh : ghost) (e : Endpoint) : ghost := mkGhost (g_seed gh) e (g_tx gh) (g_rx gh).

Section invariant.
Context `{GoRuntime} (cfg : Config) (local : Addr) (handler : bool) (gh : ghost).

(** ** Where messages come from *)

(** A message received for [k], complete or in part. *)
Definition message_ok (k : rpcKey) (m : list Z) : Prop :=
  m ≠ [] ∧ ∀ i b, m !! i = Some b → g_rx gh k (len m) i b.

Definition partial_ok (k : rpcKey) (a : assembly) : Prop :=
  ∀ i b, abs a !! i = Some (Some b) → g_rx gh k (len (a_data a)) i b.

(** A DATA packet for [k]: a segment of a message given to be sent for it. *)
Definition segment_ok (k : rpcKey) (d : wire.Data) : Prop :=
  ∃ m, g_tx gh k m ∧ wire.d_MessageLength d = len m ∧
    ∀ i b, wire.d_Payload d !! i = Some b → m !! (Z.to_nat (wire.EffectiveOffset d) + i)%nat = Some b.

(** ** The state of one RPC *)

(** Fields that are consistent at every moment. *)
Record base_ok (r : rpc) : Prop := {
  base_bytes : bytes_ok (r_tx r);
  base_len : len (r_tx r) ≤ c_MaxMessageSize cfg;
  base_sent : 0 ≤ r_sent r;
  base_granted : 0 ≤ r_granted r;
  base_tx : r_tx r ≠ [] → r_sent r ≤ len (r_tx r) ∧ r_granted r ≤ len (r_tx r);
  base_aligned : r_tx r ≠ [] → (c_SegmentBytes cfg | r_sent r) ∨ r_sent r = len (r_tx r);
  base_priority : 0 ≤ r_priority r ≤ 7;
  base_result : r_result r = if is_client (r_key r) then Some [] else None;
  base_origin : r_tx r ≠ [] → g_tx gh (r_key r) (r_tx r)
}.

Definition rx_ok (k : rpcKey) (a : assembly) : Prop :=
  asm_ok a ∧ 0 < len (a_data a) ≤ c_MaxMessageSize cfg ∧ partial_ok k a.

(** The phases of a client RPC (sending the request, receiving the reply) and
    of a server RPC (receiving, waiting for a worker, handled). *)
Definition phase_ok (r : rpc) : Prop :=
  if is_client (r_key r) then
    r_received r = false ∧ r_handling r = false ∧ r_cancel r = false ∧
    match r_rx r with
    | None => r_tx r ≠ []
    | Some a => r_tx r = [] ∧ rx_ok (r_key r) a ∧ a_count a < len (a_data a)
    end
  else if r_handling r then r_received r = true ∧ r_rx r = None ∧ r_cancel r = true
  else r_tx r = [] ∧ r_sent r = 0 ∧ r_cancel r = false ∧
    match r_rx r with
    | None => False
    | Some a => rx_ok (r_key r) a ∧ r_received r = (a_count a =? len (a_data a))
    end.

(** A datagram in queue [i]: a packet of this endpoint, at most 1480 bytes, so
    that it fits an Ethernet frame behind an IPv4 header. *)
Definition datagram_ok (nheap : nat) (i : nat) (o : outgoingPacket) : Prop :=
  o_priority o = Z.of_nat i ∧ (∀ p, o_origin o = Some p → (p < nheap)%nat) ∧
  ∃ w, wire.packet_ok w ∧ wire.marshalable w ∧ o_data o = wire.packetBytes w ∧
    o_typ o = wire.h_Type (wire.Header w) ∧ len (o_data o) ≤ 1480 ∧
    wire.h_SourcePort (wire.Header w) = Port local ∧
    ∀ d, w = wire.PData d → segment_ok {| k_peer := {| IP := o_peer o;
      Port := wire.h_DestinationPort (wire.d_Common d) |}; k_id := wire.h_SenderID (wire.d_Common d) |} d.

Definition queues_ok (e : Endpoint) : Prop :=
  length (e_outbound e) = 8%nat ∧
  ∀ i q, e_outbound e !! i = Some q →
    (length q ≤ 32)%nat ∧ Forall (datagram_ok (length (e_heap e)) i) q.

Definition live (e : Endpoint) (p : loc) : Prop := ∃ k, e_rpcs e !! k = Some p.

(** A running handler owns an RPC that is being handled and has no bytes yet. *)
Definition running_ok (heap : list rpc) (q : loc * list Z) : Prop :=
  ∃ r, heap !! q.1 = Some r ∧ is_client (r_key r) = false ∧ r_handling r = true ∧
    r_tx r = [] ∧ r_rx r = None ∧ r_sent r = 0 ∧ message_ok (r_key r) q.2.

(** The result of a call that succeeded is a message received for its RPC. *)
Definition result_ok (k : rpcKey) (v : result) : Prop :=
  res_err v = None → message_ok k (res_data v).

(** A blocked caller: its RPC is live and its channel empty, or the RPC is over
    and the channel holds the one result. *)
Definition caller_ok (e : Endpoint) (p : loc) : Prop :=
  ∃ r, e_heap e !! p = Some r ∧ is_client (r_key r) = true ∧
    (e_rpcs e !! r_key r = Some p ∨ e_rpcs e !! r_key r ≠ Some p ∧ ∃ v, r_result r = Some [v] ∧ result_ok (r_key r) v).

(** The state between critical sections ([x] is [Idle]) and inside them, when
    the phase of one RPC is not yet restored or the endpoint is being shut down;
    [n] is the number of calls started. *)
Record Inv (n : nat) (x : mode) (e : Endpoint) : Prop := {
  inv_keys : ∀ k p, e_rpcs e !! k = Some p →
    key_ok k ∧ ∃ r, e_heap e !! p = Some r ∧ r_key r = k ∧ base_ok r ∧ (x ≠ Changing p → phase_ok r);
  inv_size : Z.of_nat (size (e_rpcs e)) ≤ c_MaxRPCs cfg;
  inv_bytes : s_BufferedBytes (e_stats e) =
    live_bytes (e_rpcs e) (e_heap e) + running_bytes (e_running e);
  inv_budget : s_BufferedBytes (e_stats e) ≤ c_MaxBufferedBytes cfg;
  inv_workers : e_workers e = len (e_running e) ∧ e_workers e ≤ c_HandlerWorkers cfg;
  inv_running : NoDup (e_running e).*1 ∧ Forall (running_ok (e_heap e)) (e_running e);
  inv_queues : queues_ok e;
  inv_writing : ∀ o, e_writer e = WWriting o →
    ∃ i, (i < 8)%nat ∧ datagram_ok (length (e_heap e)) i o;
  inv_wake : e_writer e = WWaiting → Exists (λ q, q ≠ []) (e_outbound e) → e_wake e = true;
  inv_callers : NoDup (e_callers e) ∧ Forall (caller_ok e) (e_callers e);
  inv_cutoffs : ∀ ip c, e_cutoffs e !! ip = Some c →
    length (ct_values c) = 8%nat ∧ is_u16 (ct_version c);
  inv_cutoffs_size : Z.of_nat (size (e_cutoffs e)) ≤ c_MaxRPCs cfg;
  inv_next : e_nextID e = id_after (g_seed gh) n;
  inv_ids : ∀ k p, e_rpcs e !! k = Some p → is_client k = true →
    ∃ j, (j < n)%nat ∧ k_id k = id_after (g_seed gh) (S j);
  inv_closed : e_done e = e_closed e ∧
    (x ≠ Closing → e_io_closed e = e_closed e ∧ (e_closed e = true → e_rpcs e = ∅));
  inv_past : evolves (g_past gh) e
}.
End invariant.

(** ** Changing what the invariant is relative to

    The histories only grow, and the past may be any state this one evolved
    from. *)
Section weaken.
Context `{GoRuntime} (cfg : Config) (local : Addr) (gh gh' : ghost).
Context (Hseed : g_seed gh' = g_seed gh).
Context (Htx : ∀ k m, g_tx gh k m → g_tx gh' k m).
Context (Hrx : ∀ k l i b, g_rx gh k l i b → g_rx gh' k l i b).

Lemma message_ok_weaken k m : message_ok gh k m → message_ok gh' k m.
Proof. intros [? Hm]. split; [done|]. eauto. Qed.

Lemma base_ok_weaken r : base_ok cfg gh r → base_ok cfg gh' r.
Proof. intros []. split; auto. Qed.

Lemma rx_ok_weaken k a : rx_ok cfg gh k a → rx_ok cfg gh' k a.
Proof. intros (?&?&Hp). do 2 (split; [done|]). intros i b Hi. by apply Hrx, Hp. Qed.

Lemma phase_ok_weaken r : phase_ok cfg gh r → phase_ok cfg gh' r.
Proof.
  unfold phase_ok. destruct (is_client (r_key r)).
  - intros (?&?&?&Hm). split_and!; try done. destruct (r_rx r); [|done].
    destruct Hm as (?&?&?). auto using rx_ok_weaken.
  - destruct (r_handling r); [done|]. intros (?&?&?&Hm). split_and!; try done.
    destruct (r_rx r); [|done]. destruct Hm as (?&?). auto using rx_ok_weaken.
Qed.

Lemma datagram_ok_weaken m i o : datagram_ok local gh m i o → datagram_ok local gh' m i o.
Proof.
  intros (?&?&w&?&?&?&?&?&?&Hseg). do 2 (split; [done|]). exists w. do 6 (split; [done|]).
  intros d Hd. destruct (Hseg d Hd) as (msg&?&?&?). exists msg. auto.
Qed.

Lemma running_ok_weaken heap q : running_ok gh heap q → running_ok gh' heap q.
Proof. intros (r&?&?&?&?&?&?&?). exists r. auto 10 using message_ok_weaken. Qed.

Lemma caller_ok_weaken e p : caller_ok gh e p → caller_ok gh' e p.
Proof.
  intros (r&?&?&Hcase). exists r. split_and!; try done.
  destruct Hcase as [|[? (v&?&Hv)]]; [by left|]. right. split; [done|]. exists v. split; [done|].
  intros Hn. by apply message_ok_weaken, Hv.
Qed.

Lemma Inv_weaken_ghost n x e :
  Inv cfg local gh n x e → evolves (g_past gh') e → Inv cfg local gh' n x e.
Proof.
  intros [] Hpast. split; rewrite ?Hseed; try done.
  - intros k p Hk. destruct (inv_keys0 k p Hk) as (?&r&?&?&?&?). split; [done|].
    exists r. auto 10 using base_ok_weaken, phase_ok_weaken.
  - destruct inv_running0 as [? Hrun]. split; [done|]. eapply Forall_impl; [exact Hrun|]. apply running_ok_weaken.
  - destruct inv_queues0 as [? Hq]. split; [done|]. intros i q Hi. destruct (Hq i q Hi) as [? Hf].
    split; [done|]. eapply Forall_impl; [exact Hf|]. apply datagram_ok_weaken.
  - intros o Ho. destruct (inv_writing0 o Ho) as (i&?&?). exists i. auto using datagram_ok_weaken.
  - destruct inv_callers0 as [? Hc]. split; [done|]. eapply Forall_impl; [exact Hc|]. apply caller_ok_weaken.
Qed.
End weaken.
