(* ===== verification/EndpointSend.v ===== *)
(** * What the sending half of an endpoint does

    [send] appends one datagram to a queue; the segments a call to [sendNew] or
    [resend] emits are computed here as a list of packets, and the loops are
    proved to queue exactly that list. *)
From S2P Require Import Prelude Wire WireFacts Assembly AssemblyFacts Api.
From S2P Require Import EndpointState Endpoint EndpointInv.

#[local] Open Scope Z_scope.

(** ** Queueing *)

(** The effect of [enqueue]: append, or drop when the queue holds 32. *)
Definition push (o : outgoingPacket) (e : Endpoint) : Endpoint :=
  match e_outbound e !! Z.to_nat (o_priority o) with
  | Some q =>
      if len q <? 32
      then set_e_wake true (set_e_outbound (<[Z.to_nat (o_priority o) := q ++ [o]]> (e_outbound e)) e)
      else set_e_stats (set_s_DroppedPackets (u64 (s_DroppedPackets (e_stats e) + 1)) (e_stats e)) e
  | None => e
  end.

(** The part of the state that sending does not touch. *)
Definition core (e : Endpoint) :=
  (e_rpcs e, e_heap e, e_cutoffs e, e_nextID e, s_BufferedBytes (e_stats e),
   (e_closed e, e_done e, e_io_closed e), (e_workers e, e_running e), (e_callers e, e_writer e)).

Definition quiet (e e' : Endpoint) : Prop := core e' = core e.

#[global] Instance quiet_preorder : PreOrder quiet.
Proof. split; unfold quiet; [done|congruence]. Qed.

Lemma push_quiet o e : quiet e (push o e).
Proof. unfold quiet, push. repeat case_match; reflexivity. Qed.

Section send.
Context `{GoRuntime} (cfg : Config) (local : Addr) (handler : bool) (gh : ghost).
#[local] Abbreviation Inv := (Inv cfg local gh).
#[local] Abbreviation datagram_ok := (datagram_ok local gh).

Lemma Inv_quiet n x e e' :
  Inv n x e → quiet e e' → queues_ok local gh e' →
  (e_writer e' = WWaiting → Exists (λ q, q ≠ []) (e_outbound e') → e_wake e' = true) →
  Inv n x e'.
Proof.
  intros [] Hq Hqs Hw. unfold quiet, core in Hq.
  injection Hq as E1 E2 E3 E4 E5 E6 E7 E8 E9 E10 E11 E12.
  assert (evolves e e') by (apply evolves_same; [done..|by rewrite E10|by rewrite E11|by rewrite E6]).
  split; rewrite ?E1, ?E2, ?E3, ?E4, ?E5, ?E6, ?E7, ?E8, ?E9, ?E10, ?E11, ?E12 in *; try done.
  - destruct inv_callers as [? Hc]. split; [done|].
    eapply Forall_impl; [exact Hc|]. intros p. unfold caller_ok. by rewrite E1, E2.
  - by etransitivity.
Qed.
(** Nothing but ticks, counters and canceled contexts changed. *)
Lemma Inv_ext n x e e' :
  Inv n x e → quiet e e' → e_outbound e' = e_outbound e → e_wake e' = e_wake e → Inv n x e'.
Proof.
  intros Hinv Hq Ho Hw. eapply Inv_quiet; [done..| |].
  - destruct (inv_queues _ _ _ _ _ _ Hinv) as [Hl Hqs]. unfold queues_ok. rewrite Ho.
    unfold quiet, core in Hq. injection Hq as E1 E2 _. by rewrite E2.
  - rewrite Ho, Hw. unfold quiet, core in Hq. injection Hq as _ _ _ _ _ _ _ _ _ _ _ ->.
    apply Hinv.
Qed.

(** A live pointer is the value of one key only. *)
Lemma Inv_key n x e k p r :
  Inv n x e → e_rpcs e !! k = Some p → e_heap e !! p = Some r → r_key r = k.
Proof.
  intros Hinv Hk Hr. destruct (inv_keys _ _ _ _ _ _ Hinv _ _ Hk) as (_&r'&Hr'&Ek&_). congruence.
Qed.

(** Replacing the cell of an RPC; [d] is the change of the bytes it owns. *)
Definition upd_rpc (p : loc) (r : rpc) (d : Z) (e : Endpoint) : Endpoint :=
  set_e_stats (set_s_BufferedBytes (s_BufferedBytes (e_stats e) + d) (e_stats e))
    (set_e_heap (<[p := r]> (e_heap e)) e).

(** What the new cell must satisfy. *)
Record cell_ok (x : mode) (e : Endpoint) (p : loc) (r r' : rpc) : Prop := {
  cell_key : r_key r' = r_key r ∧ r_deadline r' = r_deadline r ∧ r_handling r' = r_handling r;
  cell_base : base_ok cfg gh r → base_ok cfg gh r';
  cell_phase : x ≠ Changing p → phase_ok cfg gh r → phase_ok cfg gh r';
  cell_running : p ∈ (e_running e).*1 → (∃ pl, running_ok gh (e_heap e) (p, pl)) →
    r_handling r' = true ∧ r_tx r' = [] ∧ r_rx r' = None ∧ r_sent r' = 0
}.

Lemma Inv_upd n x e k p r r' d :
  Inv n x e → e_rpcs e !! k = Some p → e_heap e !! p = Some r → cell_ok x e p r r' →
  d = rpc_bytes r' - rpc_bytes r → s_BufferedBytes (e_stats e) + d ≤ c_MaxBufferedBytes cfg →
  Inv n x (upd_rpc p r' d e).
Proof.
  intros Hinv Hk Hr [(Ukey&Udl&Uh) Ubase Uphase Urun] -> Hmax.
  pose proof (lookup_lt_Some _ _ _ Hr) as Hp. pose proof (Inv_key _ _ _ _ _ _ Hinv Hk Hr) as Erk.
  destruct Hinv. split; cbn [upd_rpc set_e_stats set_e_heap e_rpcs e_heap e_cutoffs e_nextID
    e_stats e_closed e_done e_workers e_outbound e_wake e_running e_callers e_writer e_io_closed
    set_s_BufferedBytes s_BufferedBytes]; try done.
  - intros k' q Hk'. destruct (inv_keys k' q Hk') as (?&rq&Hrq&Ekq&Hb&Hph).
    split; [done|]. destruct (decide (p = q)) as [<-|Hne].
    + exists r'. rewrite list_lookup_insert_eq by done. rewrite Hr in Hrq.
      injection Hrq as <-. split_and!; [done|congruence|auto|auto].
    + exists rq. by rewrite list_lookup_insert_ne.
  - rewrite (live_bytes_store _ _ k p r r'); [lia|done|done|].
    intros k' Hk'. destruct (inv_keys k' p Hk') as (_&r''&Hr''&E&_). congruence.
  - destruct inv_running as [Hnd Hrun]. split; [done|].
    rewrite Forall_forall in Hrun |- *. intros [q pl] Hin.
    destruct (Hrun _ Hin) as (rq&Hrq&Hcl&Hrest). cbn in Hrq, Hcl.
    destruct (decide (p = q)) as [<-|Hne].
    + destruct Urun as (?&?&?&?); [by apply (list_elem_of_fmap_2 fst) in Hin|by exists pl, rq|]. exists r'. cbn.
      rewrite list_lookup_insert_eq by done. rewrite Hr in Hrq. injection Hrq as <-.
      rewrite Ukey. by split_and!; try apply Hrest.
    + exists rq. cbn. by rewrite list_lookup_insert_ne.
  - destruct inv_queues as [Hl Hq]. split; [done|]. cbn. by rewrite length_insert.
  - intros o Ho. rewrite length_insert. by apply inv_writing.
  - destruct inv_callers as [Hnd Hc]. split; [done|]. eapply Forall_impl; [exact Hc|].
    intros q (rq&Hrq&Hcl&Hcase). unfold caller_ok. cbn. destruct (decide (p = q)) as [<-|Hne].
    + exists r'. rewrite list_lookup_insert_eq by done. rewrite Hr in Hrq. injection Hrq as <-.
      rewrite Ukey. split_and!; try done. left. congruence.
    + exists rq. by rewrite list_lookup_insert_ne.
  - etransitivity; [exact inv_past|]. apply (evolves_store _ _ p r r'); try done. congruence.
Qed.

(** Entering and leaving the change of one RPC. *)
Lemma Inv_weaken n e p : Inv n Idle e → Inv n (Changing p) e.
Proof.
  intros []. split; try done.
  - intros k q Hk. destruct (inv_keys k q Hk) as (?&r&?&?&?&Hph). split; [done|].
    exists r. split_and!; try done. intros _. by apply Hph.
  - destruct inv_closed as [? Hc]. split; [done|]. intros _. by apply Hc.
Qed.

Lemma Inv_settle n e p :
  Inv n (Changing p) e →
  (∀ k r, e_rpcs e !! k = Some p → e_heap e !! p = Some r → base_ok cfg gh r → phase_ok cfg gh r) →
  Inv n Idle e.
Proof.
  intros [] Hph. split; try done.
  - intros k q Hk. destruct (inv_keys k q Hk) as (?&r&Hr&?&?&Hph'). split; [done|].
    exists r. split_and!; try done. intros _.
    destruct (decide (p = q)) as [<-|]; [by eapply Hph|]. apply Hph'. congruence.
  - destruct inv_closed as [? Hc]. split; [done|]. intros _. by apply Hc.
Qed.

Lemma enqueue_run o e :
  length (e_outbound e) = 8%nat → 0 ≤ o_priority o < 8 → enqueue o e = inl ((), push o e).
Proof.
  intros Hl Hp. unfold enqueue, push. m_unfold.
  unfold idx. rewrite (proj2 (Z.ltb_ge _ _)) by lia.
  destruct (lookup_lt_is_Some_2 (e_outbound e) (Z.to_nat (o_priority o))) as [q Hq]; [lia|].
  rewrite Hq. case_if; [|done].
  rewrite upd_ok; [done|]. unfold len. lia.
Qed.

Definition origin_of (e : Endpoint) (peer : Addr) (w : wire.Packet) : option loc :=
  e_rpcs e !! {| k_peer := peer; k_id := wire.h_SenderID (wire.Header w) |}.

Definition outgoing (e : Endpoint) (peer : Addr) (w : wire.Packet) (priority : Z) : outgoingPacket :=
  {| o_data := wire.packetBytes w; o_peer := IP peer; o_priority := priority;
     o_origin := origin_of e peer w; o_typ := wire.h_Type (wire.Header w) |}.

(** Sending a well-formed packet queues its bytes and returns no error. *)
Lemma send_run peer w priority e :
  length (e_outbound e) = 8%nat → wire.packet_ok w → wire.marshalable w → 0 ≤ priority < 8 →
  send peer w priority e = inl (None, push (outgoing e peer w priority) e).
Proof.
  intros Hl Hok Hm Hp. unfold send. rewrite (proj2 (Z.leb_gt _ _)) by lia.
  cbn [wire.Marshal]. rewrite wire_facts.marshalValue_bytes by done.
  unfold lookup_rpc. m_unfold. by rewrite enqueue_run.
Qed.

(** A packet this endpoint may send. *)
Definition own_packet (peer : Addr) (w : wire.Packet) : Prop :=
  wire.packet_ok w ∧ wire.marshalable w ∧ len (wire.packetBytes w) ≤ 1480 ∧
  wire.h_SourcePort (wire.Header w) = Port local ∧
  ∀ d, w = wire.PData d → segment_ok gh {| k_peer := {| IP := IP peer;
    Port := wire.h_DestinationPort (wire.d_Common d) |}; k_id := wire.h_SenderID (wire.d_Common d) |} d.

Lemma push_queues o e i :
  queues_ok local gh e → o_priority o = Z.of_nat i → datagram_ok (length (e_heap e)) i o →
  queues_ok local gh (push o e).
Proof.
  intros [Hl Hq] Hi Ho. unfold push. rewrite Hi, Nat2Z.id.
  destruct (e_outbound e !! i) as [q|] eqn:Eq; [|done]. case_if; [|done].
  split; cbn [e_outbound set_e_wake set_e_outbound e_heap]; [by rewrite length_insert|].
  intros j q' Hj. destruct (decide (i = j)) as [<-|Hne].
  - rewrite list_lookup_insert_eq in Hj by by eapply lookup_lt_Some. injection Hj as <-.
    destruct (Hq i q Eq) as [_ Hf]. unfold len in *. rewrite length_app. split; [simpl; lia|].
    apply Forall_app. split; [done|by apply Forall_singleton].
  - rewrite list_lookup_insert_ne in Hj by done. by apply Hq.
Qed.

Lemma push_wake o e :
  (e_writer e = WWaiting → Exists (λ q, q ≠ []) (e_outbound e) → e_wake e = true) →
  e_writer (push o e) = WWaiting → Exists (λ q, q ≠ []) (e_outbound (push o e)) →
  e_wake (push o e) = true.
Proof. unfold push. repeat case_match; done. Qed.

Lemma Inv_push n x o i e :
  Inv n x e → o_priority o = Z.of_nat i → datagram_ok (length (e_heap e)) i o → Inv n x (push o e).
Proof.
  intros Hinv Hi Ho. eapply Inv_quiet; [done|apply push_quiet|..].
  - eapply push_queues; [apply Hinv|done..].
  - apply push_wake, Hinv.
Qed.

Lemma Inv_send n x e peer w priority :
  Inv n x e → own_packet peer w → 0 ≤ priority < 8 →
  send peer w priority e = inl (None, push (outgoing e peer w priority) e) ∧
  Inv n x (push (outgoing e peer w priority) e).
Proof.
  intros Hinv (Hok&Hm&Hlen&Hsrc&Hseg) Hp. split.
  - apply send_run; try done. apply Hinv.
  - apply (Inv_push n x _ (Z.to_nat priority)); [done|cbn; lia|].
    split; [cbn; lia|]. split.
    + intros p Ho. destruct (inv_keys _ _ _ _ _ _ Hinv _ _ Ho) as (_&r&Hr&_).
      by eapply lookup_lt_Some.
    + by exists w.
Qed.

Lemma wp_send n x e peer w priority :
  Inv n x e → own_packet peer w → 0 ≤ priority < 8 →
  wp (send peer w priority) (λ err e', err = None ∧ quiet e e' ∧ Inv n x e') e.
Proof.
  intros Hinv Hw Hp. destruct (Inv_send n x e peer w priority Hinv Hw Hp) as [E ?].
  eapply wp_intro; [exact E|]. split; [done|]. split; [apply push_quiet|done].
Qed.
(** ** The packets an endpoint builds *)

Context (Hcfg : config_ok cfg) (Hlocal : is_u16 (Port local)).

Lemma common_ok_key key t : key_ok key → is_u8 t → wire.common_ok (common local key t).
Proof.
  intros [Hport Hid] Ht. unfold common, wire.NewCommon, wire.common_ok. cbn.
  split_and!; try done; try by repeat constructor. by case_if.
Qed.

Lemma common_length h : wire.common_ok h → len (wire.commonBytes h) = 28.
Proof. intros (_&_&_&[Ha _]&_). unfold len. by rewrite wire_facts.commonBytes_length. Qed.

Lemma packet_length w :
  wire.packet_ok w → len (wire.packetBytes w) = 28 + len (wire.bodyBytes w).
Proof.
  intros Hok. unfold wire.packetBytes. rewrite len_app, common_length; [done|].
  by apply wire_facts.packet_ok_header.
Qed.

Lemma bytes_concat {A} (f : A → list Z) l : (∀ a, bytes_ok (f a)) → bytes_ok (concat (f <$> l)).
Proof. intros Hf. induction l as [|a l IH]; cbn; [by constructor|]. apply Forall_app_2; [apply Hf|exact IH]. Qed.

Ltac bytes_parts :=
  unfold bytes_ok; rewrite ?Forall_app, ?Forall_cons; split_and!;
  first [apply be_encode_bytes|done|apply Forall_nil_2].

Lemma common_bytes h : wire.common_ok h → bytes_ok (wire.commonBytes h).
Proof. intros (_&_&_&[_ Ha]&?&?&?&_). unfold wire.commonBytes. bytes_parts. Qed.

Lemma ack_bytes a : bytes_ok (wire.ackBytes a).
Proof. unfold wire.ackBytes. bytes_parts. Qed.

Lemma packet_bytes w : wire.packet_ok w → bytes_ok (wire.packetBytes w).
Proof.
  intros Hok. unfold wire.packetBytes. apply Forall_app_2; [by apply common_bytes, wire_facts.packet_ok_header|].
  destruct w as [d|g|r|u|a|h|h|h|h|h|h]; cbn [wire.packet_ok wire.bodyBytes] in *; try by constructor.
  - destruct Hok as (_&_&_&_&_&?&[_ ?]&_&?). pose proof (ack_bytes (wire.d_Ack d)). bytes_parts.
  - destruct Hok as (_&_&?). bytes_parts.
  - destruct Hok as (_&_&_&?). bytes_parts.
  - apply Forall_app_2; [apply bytes_concat|]; intros; apply be_encode_bytes.
  - apply Forall_app_2; [apply be_encode_bytes|]. apply bytes_concat, ack_bytes.
Qed.

Lemma own_control peer key t :
  key_ok key → t ∈ [wire.RPCUnknownType; wire.BusyType; wire.FreezeType; wire.NeedAckType] →
  own_packet peer (wire.PCommonPacket (common local key t)).
Proof.
  intros Hk Ht. assert (wire.common_ok (common local key t)) as Hc.
  { apply common_ok_key; [done|]. set_unfold in Ht.
    by destruct Ht as [-> |[-> |[-> |[-> |[]]]]]. }
  split; [done|]. split; [done|]. split; [|done].
  rewrite packet_length by done. by vm_compute.
Qed.

Lemma own_ack peer key :
  key_ok key → own_packet peer (wire.PAck {|
    wire.ak_Common := common local key wire.AckType; wire.ak_NumAcks := 0;
    wire.ak_Acks := replicate wire.MaxAcks {| wire.ar_ClientID := 0; wire.ar_ServerPort := 0 |} |}).
Proof.
  intros Hk. assert (wire.common_ok (common local key wire.AckType)) as Hc
    by by apply common_ok_key.
  assert (wire.packet_ok (wire.PAck {|
    wire.ak_Common := common local key wire.AckType; wire.ak_NumAcks := 0;
    wire.ak_Acks := replicate wire.MaxAcks {| wire.ar_ClientID := 0; wire.ar_ServerPort := 0 |} |})) as Hok.
  { split; [done|]. split; [done|]. split; [done|]. by apply Forall_replicate. }
  split; [done|]. split; [done|]. split; [|done].
  rewrite packet_length by done. by vm_compute.
Qed.

Lemma own_resend peer key offset n priority :
  key_ok key → is_u32 n → is_u8 priority → own_packet peer (wire.PResend {|
    wire.rs_Common := common local key wire.ResendType; wire.rs_Offset := u32 offset;
    wire.rs_Length := n; wire.rs_Priority := priority |}).
Proof.
  intros Hk Hn Hp. assert (wire.common_ok (common local key wire.ResendType)) as Hc
    by by apply common_ok_key.
  assert (is_u32 (u32 offset)) by auto with homa.
  split; [done|]. split; [done|]. split; [|done].
  rewrite packet_length by done. by vm_compute.
Qed.

Lemma own_grant peer key offset priority :
  key_ok key → own_packet peer (wire.PGrant {|
    wire.g_Common := common local key wire.GrantType; wire.g_Offset := u32 offset;
    wire.g_Priority := u8 priority |}).
Proof.
  intros Hk. assert (wire.common_ok (common local key wire.GrantType)) as Hc
    by by apply common_ok_key.
  assert (is_u32 (u32 offset)) by auto with homa.
  assert (is_u8 (u8 priority)) by auto with homa.
  split; [done|]. split; [done|]. split; [|done].
  rewrite packet_length by done. by vm_compute.
Qed.

Lemma own_cutoffs peer key :
  key_ok key → own_packet peer (wire.PCutoffs {|
    wire.cu_Common := common local key wire.CutoffsType;
    wire.cu_UnscheduledCutoffs := defaultCutoffs; wire.cu_CutoffVersion := 1 |}).
Proof.
  intros Hk. assert (wire.common_ok (common local key wire.CutoffsType)) as Hc
    by by apply common_ok_key.
  assert (Forall is_u32 defaultCutoffs) by by repeat constructor.
  split; [done|]. split; [done|]. split; [|done].
  rewrite packet_length by done. by vm_compute.
Qed.

(** ** Segments *)

(** The DATA packet of the segment of [r] that starts at [start]. *)
Definition segment_data (r : rpc) (version start : Z) (retransmit : bool) : wire.Data := {|
  wire.d_Common := common local (r_key r) wire.DataType;
  wire.d_MessageLength := u32 (len (r_tx r));
  wire.d_Incoming := u32 (Z.min (len (r_tx r))
    (((r_granted r + c_SegmentBytes cfg - 1) `quot` c_SegmentBytes cfg) * c_SegmentBytes cfg));
  wire.d_Ack := {| wire.ar_ClientID := 0; wire.ar_ServerPort := 0 |};
  wire.d_CutoffVersion := version;
  wire.d_Retransmit := if retransmit then 1 else 0;
  wire.d_Padding := [0; 0; 0]; wire.d_SegmentOffset := u32 start;
  wire.d_Payload := take (Z.to_nat (Z.min (start + c_SegmentBytes cfg) (len (r_tx r)) - start))
                         (drop (Z.to_nat start) (r_tx r)) |}.

Lemma segment_data_ok r version start retransmit :
  base_ok cfg gh r → 0 ≤ start < len (r_tx r) →
  segment_ok gh (r_key r) (segment_data r version start retransmit).
Proof.
  intros Hb Hs. pose proof (base_len _ _ _ Hb). pose proof (ok_message cfg Hcfg).
  unfold MaxMessageSize in *. exists (r_tx r). split; [|split].
  - apply Hb. apply len_pos. lia.
  - cbn. apply u32_id. unfold is_u32. lia.
  - intros i b. unfold wire.EffectiveOffset, segment_data. cbn [wire.d_Payload wire.d_SegmentOffset wire.d_Common].
    rewrite u32_id by (unfold is_u32; lia). rewrite (proj2 (Z.eqb_neq _ _)) by (unfold wire.SequenceOffset; lia).
    intros [Hi _]%lookup_take_Some. by rewrite lookup_drop in Hi.
Qed.

Lemma segment_wire r version start retransmit :
  key_ok (r_key r) → bytes_ok (r_tx r) → is_u16 version → 0 ≤ start →
  wire.packet_ok (wire.PData (segment_data r version start retransmit)) ∧
  wire.marshalable (wire.PData (segment_data r version start retransmit)) ∧
  len (wire.packetBytes (wire.PData (segment_data r version start retransmit))) ≤ 1480.
Proof.
  intros Hk Hb Hv Hs. pose proof (ok_segment cfg Hcfg) as Hseg.
  assert (wire.packet_ok (wire.PData (segment_data r version start retransmit))) as Hok.
  { split; [by apply common_ok_key|]. unfold segment_data. cbn.
    split_and!; auto with homa; try done; try by repeat constructor.
    - by destruct retransmit.
    - by apply Forall_take, Forall_drop. }
  assert (len (wire.d_Payload (segment_data r version start retransmit)) ≤ 1424) as Hl.
  { unfold len. cbn. rewrite length_take. lia. }
  split; [done|]. split.
  { split; [done|]. pose proof maxInt_lower. unfold wire.DataSize. lia. }
  rewrite packet_length, wire_facts.bodyBytes_data, len_app by done.
  unfold len at 1. rewrite wire_facts.dataHead_length by done. lia.
Qed.

Lemma own_segment r version start retransmit :
  key_ok (r_key r) → base_ok cfg gh r → is_u16 version → 0 ≤ start < len (r_tx r) →
  own_packet (k_peer (r_key r)) (wire.PData (segment_data r version start retransmit)).
Proof.
  intros Hk Hb Hv Hs.
  destruct (segment_wire r version start retransmit) as (?&?&?); [done|by apply Hb|done|lia|].
  do 4 (split; [done|]). intros d [= <-].
  pose proof (segment_data_ok r version start retransmit Hb Hs) as Hd.
  by destruct (r_key r) as [[]] eqn:Ek; cbn; rewrite Ek.
Qed.

Definition version_of (e : Endpoint) (r : rpc) : Z :=
  match e_cutoffs e !! IP (k_peer (r_key r)) with Some c => ct_version c | None => 0 end.

Lemma version_ok n x e r : Inv n x e → is_u16 (version_of e r).
Proof.
  intros Hinv. unfold version_of. destruct (e_cutoffs e !! _) as [c|] eqn:E; [|done].
  by destruct (inv_cutoffs _ _ _ _ _ _ Hinv _ _ E).
Qed.

(** The state after one packet was handed to [send]. *)
Definition sent_state (peer : Addr) (w : wire.Packet) (priority : Z) (e : Endpoint) : Endpoint :=
  push (outgoing e peer w priority) e.

Definition counted (retransmit : bool) (e : Endpoint) : Endpoint :=
  if retransmit
  then set_e_stats (set_s_Retransmissions (u64 (s_Retransmissions (e_stats e) + 1)) (e_stats e)) e
  else e.

Definition segment_state (r : rpc) (retransmit : bool) (priority : Z) (e : Endpoint) (start : Z)
  : Endpoint :=
  sent_state (k_peer (r_key r)) (wire.PData (segment_data r (version_of e r) start retransmit))
    priority (counted retransmit e).

Lemma counted_Inv n x rt e : Inv n x e → Inv n x (counted rt e).
Proof. intros Hinv. by destruct rt; [eapply Inv_ext|]. Qed.

Lemma segment_Inv n x e r rt priority start :
  Inv n x e → key_ok (r_key r) → base_ok cfg gh r → 0 ≤ start < len (r_tx r) → 0 ≤ priority < 8 →
  Inv n x (segment_state r rt priority e start) ∧ quiet e (segment_state r rt priority e start).
Proof.
  intros Hinv Hk Hb Hs Hp. split.
  - apply Inv_send; [by apply counted_Inv| |done].
    apply own_segment; try done. by eapply version_ok.
  - etransitivity; [|apply push_quiet]. by destruct rt.
Qed.

Lemma sendSegment_run n x e p r rt priority start :
  Inv n x e → e_heap e !! p = Some r → key_ok (r_key r) → base_ok cfg gh r →
  0 ≤ start < len (r_tx r) → 0 ≤ priority < 8 →
  sendSegment cfg local p start rt priority e = inl (None, segment_state r rt priority e start).
Proof.
  intros Hinv Hr Hk Hb Hs Hp. unfold sendSegment, load. m_unfold. rewrite Hr.
  pose proof (ok_segment cfg Hcfg). rewrite slice_ok by lia.
  assert ((if rt then count_retransmission else λ s, inl ((), s)) e = inl ((), counted rt e)) as ->
    by by destruct rt.
  apply send_run.
  - destruct (inv_queues _ _ _ _ _ _ Hinv) as [<- _]. by destruct rt.
  - apply own_segment; [done|done|by eapply version_ok|lia].
  - apply own_segment; [done|done|by eapply version_ok|lia].
  - done.
Qed.

(** The offsets at which [sendNew] cuts [r.tx] between [s] and [lim]. *)
Fixpoint segment_starts (fuel : nat) (s lim : Z) : list Z :=
  match fuel with
  | O => []
  | S fuel => if s <? lim then s :: segment_starts fuel (s + c_SegmentBytes cfg) lim else []
  end.

Lemma segment_starts_ext f f' s lim :
  lim - s < Z.of_nat f → lim - s < Z.of_nat f' →
  segment_starts f s lim = segment_starts f' s lim.
Proof.
  pose proof (ok_segment cfg Hcfg) as Hseg.
  revert f' s. induction f as [|f IH]; intros [|f'] s Hf Hf'; cbn [segment_starts]; try done.
  - by rewrite (proj2 (Z.ltb_ge _ _)) by lia.
  - by rewrite (proj2 (Z.ltb_ge _ _)) by lia.
  - case_if; [|done]. f_equal. apply IH; lia.
Qed.
(** [r.sent] after segments at [starts] of a message of [total] bytes. *)
Definition sent_after (starts : list Z) (s total : Z) : Z :=
  match last starts with Some l => Z.min (l + c_SegmentBytes cfg) total | None => s end.

Lemma segment_starts_clip f s lim total :
  lim ≤ total → segment_starts f (Z.min s total) lim = segment_starts f s lim.
Proof.
  intros Hl. destruct (decide (s ≤ total)); [by rewrite Z.min_l|].
  rewrite Z.min_r by lia. destruct f; [done|]. cbn [segment_starts].
  by rewrite !(proj2 (Z.ltb_ge _ _)) by lia.
Qed.

Lemma push_set_heap o h e : push o (set_e_heap h e) = set_e_heap h (push o e).
Proof. unfold push. cbn. repeat case_match; reflexivity. Qed.

Lemma segment_set_heap r rt priority h e start :
  segment_state r rt priority (set_e_heap h e) start = set_e_heap h (segment_state r rt priority e start).
Proof. unfold segment_state, sent_state. rewrite <- push_set_heap. by destruct rt. Qed.

Lemma segments_set_heap r rt priority h starts e :
  foldl (segment_state r rt priority) (set_e_heap h e) starts =
  set_e_heap h (foldl (segment_state r rt priority) e starts).
Proof.
  revert e. induction starts as [|s starts IH]; intros e; [done|].
  cbn [foldl]. by rewrite segment_set_heap, IH.
Qed.

Lemma segment_heap r rt priority e start : e_heap (segment_state r rt priority e start) = e_heap e.
Proof.
  assert (quiet e (segment_state r rt priority e start)) as Hq
    by (etransitivity; [|apply push_quiet]; by destruct rt).
  unfold quiet, core in Hq. congruence.
Qed.

Lemma set_heap_id p r e :
  e_heap e !! p = Some r → set_e_heap (<[p := set_r_sent (r_sent r) r]> (e_heap e)) e = e.
Proof.
  intros Hr. assert (set_r_sent (r_sent r) r = r) as -> by by destruct r.
  rewrite list_insert_id by done. by destruct e.
Qed.

(** Marking bytes as sent keeps the invariant. *)
Lemma Inv_sent n x e k p r s :
  Inv n x e → e_rpcs e !! k = Some p → e_heap e !! p = Some r → r_tx r ≠ [] →
  0 ≤ s ≤ len (r_tx r) → (c_SegmentBytes cfg | s) ∨ s = len (r_tx r) →
  Inv n x (set_e_heap (<[p := set_r_sent s r]> (e_heap e)) e).
Proof.
  intros Hinv Hk Hr Htx Hs Hal.
  assert (Inv n x (upd_rpc p (set_r_sent s r) 0 e)) as Hi.
  { eapply Inv_upd; [done..| | |].
    - split; [done| | |].
      + intros []. split; try done; cbn; [lia|]. intros _. split; [lia|]. by apply base_tx.
      + intros _. unfold phase_ok. cbn. destruct (is_client _); [done|].
        destruct (r_handling r); [done|]. by intros (?&_).
      + intros _ (pl&rr&Hrr&_&_&?&_). cbn in Hrr. congruence.
    - unfold rpc_bytes, rx_bytes. cbn. lia.
    - pose proof (inv_budget _ _ _ _ _ _ Hinv). lia. }
  eapply Inv_ext; [exact Hi|..]; try done. unfold quiet, core. cbn. by rewrite Z.add_0_r.
Qed.

Lemma sendNew_loop_run fuel n x e k p r :
  Inv n x e → e_rpcs e !! k = Some p → e_heap e !! p = Some r →
  Z.min (r_granted r) (len (r_tx r)) - r_sent r < Z.of_nat fuel →
  let starts := segment_starts fuel (r_sent r) (Z.min (r_granted r) (len (r_tx r))) in
  let e' := set_e_heap (<[p := set_r_sent (sent_after starts (r_sent r) (len (r_tx r))) r]> (e_heap e))
              (foldl (segment_state r false (r_priority r)) e starts) in
  (fuel ≠ 0%nat → sendNew_loop cfg local fuel p e = inl (None, e')) ∧ Inv n x e'.
Proof.
  pose proof (ok_segment cfg Hcfg) as Hseg.
  revert e r. induction fuel as [|fuel IH]; intros e r Hinv Hk Hr Hf;
    destruct (inv_keys _ _ _ _ _ _ Hinv _ _ Hk) as (Hkey&r0&Hr0&Ek&Hb&_);
    rewrite Hr in Hr0; injection Hr0 as <-.
  { cbn. split; [done|]. by rewrite set_heap_id. }
  cbn [segment_starts sendNew_loop]. unfold load. m_unfold. rewrite Hr. case_if; cycle 1.
  { cbn. by rewrite set_heap_id. }
  pose proof (lookup_lt_Some _ _ _ Hr) as Hlt. pose proof (base_sent _ _ _ Hb) as Hs0.
  assert (r_tx r ≠ []) as Htx by (intros Hn; rewrite Hn, len_nil in *; lia).
  pose proof (base_priority _ _ _ Hb) as Hpr. cbn [foldl].
  set (s' := Z.min (r_sent r + c_SegmentBytes cfg) (len (r_tx r))).
  set (r' := set_r_sent s' r). set (e1 := set_e_heap (<[p := r']> (e_heap e)) e).
  assert ((c_SegmentBytes cfg | s') ∨ s' = len (r_tx r)) as Hal.
  { destruct (base_aligned _ _ _ Hb Htx) as [Hd|]; [|lia]. unfold s'.
    destruct (decide (r_sent r + c_SegmentBytes cfg ≤ len (r_tx r))); [left|right; lia].
    rewrite Z.min_l by done. by apply Z.divide_add_r. }
  assert (Inv n x e1) as Hinv1 by (eapply Inv_sent; try done; lia).
  assert (e_heap e1 !! p = Some r') as Hr1 by (cbn; by rewrite list_lookup_insert_eq).
  assert (base_ok cfg gh r') as Hb1.
  { destruct (inv_keys _ _ _ _ _ _ Hinv1 k p Hk) as (_&r1&Hr1'&_&?&_). congruence. }
  change (store p r' e) with (@inl ((unit * Endpoint)) fault ((), e1)). cbv beta iota.
  rewrite (sendSegment_run n x e1 p r') by first [congruence|done|cbn; congruence|cbn; lia].
  set (e2 := segment_state r' false (r_priority r) e1 (r_sent r)).
  assert (Inv n x e2 ∧ quiet e1 e2) as [Hinv2 Hq2]
    by (apply segment_Inv; first [done|cbn; congruence|cbn; lia]).
  unfold quiet, core in Hq2. injection Hq2 as Eq1 Eq2 _ _ _ _ _ _ _ _ _ _.
  destruct (IH e2 r') as [Hrun Hinv3]; [done|by rewrite Eq1|by rewrite Eq2|cbn; lia|].
  assert (e2 = set_e_heap (<[p := r']> (e_heap e)) (segment_state r false (r_priority r) e (r_sent r)))
    as E2 by exact (segment_set_heap r false _ _ e _).
  change (segment_state r' false) with (segment_state r false) in *.
  change (Z.min (r_granted r') (len (r_tx r'))) with (Z.min (r_granted r) (len (r_tx r))) in *.
  change (r_sent r') with s' in *. change (len (r_tx r')) with (len (r_tx r)) in *.
  change (r_priority r') with (r_priority r) in *.
  unfold s' in Hrun, Hinv3. rewrite segment_starts_clip in Hrun, Hinv3 by lia.
  fold s' in Hrun, Hinv3.
  set (rest := segment_starts fuel (r_sent r + c_SegmentBytes cfg) _) in *.
  assert (set_r_sent (sent_after rest s' (len (r_tx r))) r' =
          set_r_sent (sent_after (r_sent r :: rest) (r_sent r) (len (r_tx r))) r) as Er.
  { unfold sent_after. rewrite last_cons. by destruct (last rest). }
  rewrite Er, Eq2, E2 in Hrun, Hinv3. cbn [e1 e_heap set_e_heap] in Hrun, Hinv3.
  rewrite list_insert_insert_eq, segments_set_heap in Hrun, Hinv3. split; [|exact Hinv3].
  intros _. rewrite E2. apply Hrun. lia.
Qed.

Lemma segments_quiet r rt priority starts e : quiet e (foldl (segment_state r rt priority) e starts).
Proof.
  revert e. induction starts as [|s starts IH]; intros e; [done|]. cbn [foldl].
  etransitivity; [|apply IH]. etransitivity; [|apply push_quiet]. by destruct rt.
Qed.

(** What [sendNew] does to a live RPC: it returns no error, every byte it was
    granted is handed to the queues, and only [r.sent] changes beside them. *)
Definition new_starts (r : rpc) : list Z :=
  segment_starts (S (length (r_tx r))) (r_sent r) (Z.min (r_granted r) (len (r_tx r))).

Definition sendNew_state (p : loc) (r : rpc) (e : Endpoint) : Endpoint :=
  set_e_heap (<[p := set_r_sent (sent_after (new_starts r) (r_sent r) (len (r_tx r))) r]> (e_heap e))
    (foldl (segment_state r false (r_priority r)) e (new_starts r)).

Lemma sendNew_run n x e k p r :
  Inv n x e → e_rpcs e !! k = Some p → e_heap e !! p = Some r →
  sendNew cfg local p e = inl (None, sendNew_state p r e) ∧ Inv n x (sendNew_state p r e).
Proof.
  intros Hinv Hk Hr.
  destruct (inv_keys _ _ _ _ _ _ Hinv _ _ Hk) as (_&r0&Hr0&_&Hb&_).
  rewrite Hr in Hr0. injection Hr0 as <-. pose proof (base_sent _ _ _ Hb).
  destruct (sendNew_loop_run (S (length (r_tx r))) n x e k p r) as [Hrun Hi];
    [done..|unfold len; lia|].
  split; [|exact Hi]. unfold sendNew, load. m_unfold. rewrite Hr. by apply Hrun.
Qed.

(** The same as a specification that hides the datagrams. *)
Lemma wp_sendNew n x e k p r :
  Inv n x e → e_rpcs e !! k = Some p → e_heap e !! p = Some r →
  wp (sendNew cfg local p) (λ err e', err = None ∧ Inv n x e' ∧
    ∃ s, quiet (set_e_heap (<[p := set_r_sent s r]> (e_heap e)) e) e') e.
Proof.
  intros Hinv Hk Hr. destruct (sendNew_run n x e k p r Hinv Hk Hr) as [E Hi].
  eapply wp_intro; [exact E|]. split; [done|]. split; [done|].
  exists (sent_after (new_starts r) (r_sent r) (len (r_tx r))).
  unfold sendNew_state. rewrite <- segments_set_heap. apply segments_quiet.
Qed.

Lemma resend_loop_run fuel n x e p r at_ end_ priority :
  Inv n x e → e_heap e !! p = Some r → key_ok (r_key r) → base_ok cfg gh r →
  0 ≤ at_ → end_ ≤ len (r_tx r) → 0 ≤ priority < 8 → end_ - at_ < Z.of_nat fuel →
  let e' := foldl (segment_state r true priority) e (segment_starts fuel at_ end_) in
  (fuel ≠ 0%nat → resend_loop cfg local fuel p at_ end_ priority e = inl ((), e')) ∧ Inv n x e'.
Proof.
  pose proof (ok_segment cfg Hcfg) as Hseg.
  revert e at_. induction fuel as [|fuel IH]; intros e at_ Hinv Hr Hk Hb Ha He Hp Hf; [done|].
  cbn [segment_starts resend_loop]. case_if; [|done]. unfold load. m_unfold. rewrite Hr.
  rewrite (proj2 (Z.ltb_lt _ _)) by lia. cbv beta iota.
  rewrite (sendSegment_run n x e p r) by (done || lia). cbn [foldl].
  destruct (segment_Inv n x e r true priority at_) as [Hi Hq]; try (done || lia).
  set (e1 := segment_state r true priority e at_) in *.
  destruct (IH e1 (at_ + c_SegmentBytes cfg)) as [Hrun Hi']; try (done || lia).
  { unfold e1. by rewrite segment_heap. }
  split; [|done]. intros _. apply Hrun. lia.
Qed.

Definition resend_starts (r : rpc) (start end_ : Z) : list Z :=
  segment_starts (S (length (r_tx r))) ((start `quot` c_SegmentBytes cfg) * c_SegmentBytes cfg)
    (Z.min end_ (r_sent r)).

Lemma resend_run n x e p r start end_ priority :
  Inv n x e → e_heap e !! p = Some r → key_ok (r_key r) → base_ok cfg gh r → r_tx r ≠ [] →
  0 ≤ start → 0 ≤ priority < 8 →
  let e' := foldl (segment_state r true priority) e (resend_starts r start end_) in
  resend cfg local p start end_ priority e = inl ((), e') ∧ Inv n x e'.
Proof.
  intros Hinv Hr Hk Hb Htx Hs Hp. pose proof (ok_segment cfg Hcfg) as Hseg.
  destruct (base_tx _ _ _ Hb Htx) as [Hsent _].
  assert (0 ≤ (start `quot` c_SegmentBytes cfg) * c_SegmentBytes cfg)
    by (rewrite Z.quot_div_nonneg by lia; pose proof (Z.div_pos start (c_SegmentBytes cfg)); lia).
  destruct (resend_loop_run (S (length (r_tx r))) n x e p r
    ((start `quot` c_SegmentBytes cfg) * c_SegmentBytes cfg) (Z.min end_ (r_sent r)) priority)
    as [Hrun Hi]; try (done || (unfold len in *; lia)).
  split; [|exact Hi]. unfold resend, load. m_unfold. rewrite Hr. by apply Hrun.
Qed.

Lemma wp_resend n x e k p r start end_ priority :
  Inv n x e → e_rpcs e !! k = Some p → e_heap e !! p = Some r → r_tx r ≠ [] →
  0 ≤ start → 0 ≤ priority < 8 →
  wp (resend cfg local p start end_ priority) (λ _ e', Inv n x e' ∧ quiet e e') e.
Proof.
  intros Hinv Hk Hr Htx Hs Hp.
  destruct (inv_keys _ _ _ _ _ _ Hinv _ _ Hk) as (Hkey&r0&Hr0&Ek&Hb&_).
  rewrite Hr in Hr0. injection Hr0 as <-.
  destruct (resend_run n x e p r start end_ priority) as [E Hi]; try (done || congruence).
  eapply wp_intro; [exact E|]. split; [done|apply segments_quiet].
Qed.
End send.
