(* ===== verification/EndpointOps.v ===== *)
(** * Ending an RPC, starting a handler, asking and granting

    Each operation is run on a state that satisfies the invariant; it faults on
    no path and leaves the invariant true. *)
From S2P Require Import Prelude Wire WireFacts Assembly AssemblyFacts Api.
From S2P Require Import EndpointState Endpoint EndpointInv EndpointSend.

#[local] Open Scope Z_scope.

Section ops.
Context `{GoRuntime} (cfg : Config) (local : Addr) (handler : bool) (gh : ghost).
Context (Hcfg : config_ok cfg) (Hlocal : is_u16 (Port local)).
#[local] Abbreviation Inv := (Inv cfg local gh).

(** ** Cells *)

(** The time stamps of an RPC play no part in the invariant, also of one that is
    no longer live. *)
Definition stamped (l : Z) (c : option Z) (r : rpc) : rpc :=
  set_r_last l (set_r_lastCutoff c r).

Lemma stamped_lookup (heap : list rpc) (p q : loc) r rq l c :
  heap !! p = Some r → heap !! q = Some rq →
  ∃ l' c', <[p := stamped l c r]> heap !! q = Some (stamped l' c' rq).
Proof.
  intros Hp Hq. destruct (decide (p = q)) as [<-|Hne].
  - exists l, c. rewrite list_lookup_insert_eq by by eapply lookup_lt_Some. congruence.
  - exists (r_last rq), (r_lastCutoff rq).
    rewrite list_lookup_insert_ne, Hq by done. by destruct rq.
Qed.

Lemma Inv_stamped n x e p r l c :
  Inv n x e → e_heap e !! p = Some r →
  Inv n x (set_e_heap (<[p := stamped l c r]> (e_heap e)) e).
Proof.
  intros [] Hr. pose proof (lookup_lt_Some _ _ _ Hr) as Hp.
  split; cbn [set_e_heap e_rpcs e_heap e_cutoffs e_nextID e_stats e_closed e_done e_workers
    e_outbound e_wake e_running e_callers e_writer e_io_closed]; try done.
  - intros k q Hk. destruct (inv_keys k q Hk) as (?&rq&Hq&?&Hb&Hph). split; [done|].
    destruct (stamped_lookup _ _ _ _ _ l c Hr Hq) as (l'&c'&E).
    exists (stamped l' c' rq). split; [done|]. split; [done|]. split; [|exact Hph].
    by destruct Hb; split.
  - rewrite inv_bytes. f_equal. apply live_bytes_ext. intros k q Hk.
    rewrite cell_bytes_insert by done. case_decide; [subst|done].
    unfold cell_bytes. by rewrite Hr.
  - destruct inv_running as [? Hrun]. split; [done|]. eapply Forall_impl; [exact Hrun|].
    intros q (rq&Hq&Hrest). destruct (stamped_lookup _ _ _ _ _ l c Hr Hq) as (l'&c'&E).
    by eexists.
  - destruct inv_queues as [? Hq]. split; [done|]. cbn. by rewrite length_insert.
  - intros o Ho. rewrite length_insert. by apply inv_writing.
  - destruct inv_callers as [? Hc]. split; [done|]. eapply Forall_impl; [exact Hc|].
    intros q (rq&Hq&Hrest). destruct (stamped_lookup _ _ _ _ _ l c Hr Hq) as (l'&c'&E).
    by eexists.
  - etransitivity; [exact inv_past|]. by apply (evolves_store _ _ p r (stamped l c r)).
Qed.

(** ** Ending an RPC *)

(** The end of the life of [p]: its cell becomes [r'], its key leaves the map
    and the bytes it owned are free again. *)
Definition ended (p : loc) (r r' : rpc) (e : Endpoint) : Endpoint :=
  set_e_stats (set_s_BufferedBytes (s_BufferedBytes (e_stats e) - rpc_bytes r) (e_stats e))
    (set_e_rpcs (delete (r_key r) (e_rpcs e)) (set_e_heap (<[p := r']> (e_heap e)) e)).

(** What a cell looks like then: a client RPC has its one result. *)
Record over (r r' : rpc) : Prop := {
  over_key : r_key r' = r_key r;
  over_tx : r_tx r' = [];
  over_rx : r_rx r' = None;
  over_sent : r_sent r' = r_sent r;
  over_handling : r_handling r' = r_handling r;
  over_deadline : r_deadline r' = r_deadline r;
  over_result : is_client (r_key r) = true → ∃ v, r_result r' = Some [v] ∧ result_ok gh (r_key r) v
}.

Lemma Inv_ended n x e p r r' :
  Inv n x e → e_rpcs e !! r_key r = Some p → e_heap e !! p = Some r → over r r' →
  Inv n x (ended p r r' e).
Proof.
  intros Hinv Hk Hr Ho. pose proof (lookup_lt_Some _ _ _ Hr) as Hp.
  assert (∀ k' q, delete (r_key r) (e_rpcs e) !! k' = Some q → q ≠ p ∧ e_rpcs e !! k' = Some q) as Hdel.
  { intros k' q [Hne Hk']%lookup_delete_Some. split; [|done]. intros ->.
    by rewrite (Inv_key _ _ _ _ _ _ _ _ _ Hinv Hk' Hr) in Hne. }
  destruct Hinv. split; cbn [ended set_e_stats set_e_heap set_e_rpcs e_rpcs e_heap e_cutoffs
    e_nextID e_stats e_closed e_done e_workers e_outbound e_wake e_running e_callers e_writer
    e_io_closed set_s_BufferedBytes s_BufferedBytes]; try done.
  - intros k' q [Hne Hk']%Hdel. rewrite list_lookup_insert_ne by done. by apply inv_keys.
  - rewrite map_size_delete, Hk. lia.
  - rewrite (live_bytes_delete _ _ _ _ Hk) in inv_bytes.
    rewrite live_bytes_store_dead; [|intros k' [Hne _]%Hdel; by apply Hne|done].
    unfold cell_bytes in inv_bytes. rewrite Hr in inv_bytes. lia.
  - pose proof (rpc_bytes_nonneg r). lia.
  - destruct inv_running as [? Hrun]. split; [done|]. eapply Forall_impl; [exact Hrun|].
    intros [q pl] (rq&Hq&?&?&?&?&?&?). cbn in Hq. unfold running_ok. cbn.
    destruct (decide (p = q)) as [<-|Hne].
    + rewrite Hr in Hq. injection Hq as <-. exists r'. rewrite list_lookup_insert_eq by done.
      rewrite (over_key _ _ Ho). split_and!; try apply Ho; try done;
        [by rewrite (over_handling _ _ Ho)|by rewrite (over_sent _ _ Ho)].
    + exists rq. by rewrite list_lookup_insert_ne.
  - destruct inv_queues as [? Hq]. split; [done|]. cbn. by rewrite length_insert.
  - intros o. rewrite length_insert. apply inv_writing.
  - destruct inv_callers as [? Hc]. split; [done|]. eapply Forall_impl; [exact Hc|].
    intros q (rq&Hq&Hcl&Hcase). unfold caller_ok. cbn. destruct (decide (p = q)) as [<-|Hne].
    + rewrite Hr in Hq. injection Hq as <-. exists r'. rewrite list_lookup_insert_eq by done.
      rewrite (over_key _ _ Ho). split_and!; try done. right. rewrite lookup_delete_eq.
      split; [done|by apply Ho].
    + exists rq. rewrite list_lookup_insert_ne by done. split_and!; try done.
      destruct Hcase as [Hl|[Hl ?]].
      * left. rewrite lookup_delete_ne; [done|]. intros E. rewrite <- E in Hl. congruence.
      * right. split; [|done]. by intros [_ ?]%Hdel.
  - intros k' q [_ Hk']%Hdel. by apply (inv_ids k' q).
  - destruct inv_closed as [? Hc]. split; [done|]. intros Hx.
    destruct (Hc Hx) as [? He]. split; [done|]. intros Hcl. by rewrite He, delete_empty.
  - etransitivity; [exact inv_past|]. apply (evolves_store _ _ p r r'); try done; try apply Ho.
    + by rewrite (over_handling _ _ Ho).
    + by intros k' q [_ ?]%Hdel.
Qed.

Definition removed_cell (r : rpc) : rpc := set_r_rx None (set_r_tx [] r).

Definition finished_cell (r : rpc) (data : list Z) (err : option error) : rpc :=
  match r_result r with
  | Some _ => set_r_result (Some [{| res_data := data;
      res_err := (λ x, mkCallError x ((0 <? r_sent r) || r_received r)) <$> err |}]) (removed_cell r)
  | None => removed_cell r
  end.

(** Ending with the cancellation of the handler's context. *)
Definition ended_canceled (p : loc) (r r' : rpc) (e : Endpoint) : Endpoint :=
  if r_cancel r then set_e_canceled (p :: e_canceled e) (ended p r r' e) else ended p r r' e.

Lemma Inv_ended_canceled n x e p r r' :
  Inv n x e → e_rpcs e !! r_key r = Some p → e_heap e !! p = Some r → over r r' →
  Inv n x (ended_canceled p r r' e).
Proof.
  intros Hinv Hk Hr Ho. unfold ended_canceled.
  pose proof (Inv_ended n x e p r r' Hinv Hk Hr Ho) as Hi.
  destruct (r_cancel r); [|done]. by eapply Inv_ext.
Qed.

Lemma load_run p r e : e_heap e !! p = Some r → load p e = inl (r, e).
Proof. intros Hr. unfold load. m_unfold. by rewrite Hr. Qed.

Lemma is_current_run p r e :
  e_heap e !! p = Some r →
  is_current p e = inl (bool_decide (e_rpcs e !! r_key r = Some p), e).
Proof. intros Hr. unfold is_current, load. m_unfold. by rewrite Hr. Qed.

Lemma remove_run p r e :
  e_rpcs e !! r_key r = Some p → e_heap e !! p = Some r →
  remove p e = inl ((), ended_canceled p r (removed_cell r) e).
Proof.
  intros Hk Hr. unfold remove. rewrite (bind_run _ _ _ _ _ (is_current_run p r e Hr)).
  rewrite bool_decide_eq_true_2 by done. cbn [negb].
  rewrite (bind_run _ _ _ _ _ (load_run p r e Hr)).
  set (cell := removed_cell r). set (e0 := set_e_rpcs (delete (r_key r) (e_rpcs e)) e).
  assert (∀ h d, set_e_heap h (set_e_stats (set_s_BufferedBytes d (e_stats e)) e0) =
    set_e_stats (set_s_BufferedBytes d (e_stats e)) (set_e_rpcs (delete (r_key r) (e_rpcs e)) (set_e_heap h e)))
    as Hswap by reflexivity.
  assert ((match r_rx r with
           | Some a => add_buffered (- (len (a_data a) + len (a_bits a)));; store p cell
           | None => mret () end) (set_e_heap (<[p := set_r_tx [] r]> (e_heap e))
             (set_e_stats (set_s_BufferedBytes (s_BufferedBytes (e_stats e) + - len (r_tx r)) (e_stats e)) e0))
          = inl ((), ended p r cell e)) as Hmid.
  { unfold ended, rpc_bytes, rx_bytes. rewrite <- Hswap. destruct (r_rx r) as [a|] eqn:Erx.
    - change (inl ((), set_e_heap (<[p := cell]> (<[p := set_r_tx [] r]> (e_heap e)))
        (set_e_stats (set_s_BufferedBytes (s_BufferedBytes (e_stats e) + - len (r_tx r) +
          - (len (a_data a) + len (a_bits a))) (e_stats e)) e0)) =
        @inl (unit * Endpoint) fault ((), set_e_heap (<[p := cell]> (e_heap e)) (set_e_stats
          (set_s_BufferedBytes (s_BufferedBytes (e_stats e) -
            (len (r_tx r) + (len (a_data a) + len (a_bits a)))) (e_stats e)) e0))).
      rewrite list_insert_insert_eq.
      by replace (s_BufferedBytes (e_stats e) + - len (r_tx r) + - (len (a_data a) + len (a_bits a)))
        with (s_BufferedBytes (e_stats e) - (len (r_tx r) + (len (a_data a) + len (a_bits a)))) by lia.
    - assert (cell = set_r_tx [] r) as ->
        by (unfold cell, removed_cell; destruct r; cbn in Erx; by subst).
      by replace (s_BufferedBytes (e_stats e) + - len (r_tx r))
        with (s_BufferedBytes (e_stats e) - (len (r_tx r) + 0)) by lia. }
  etransitivity; [exact (bind_run _ (λ _, if r_cancel r then cancel_context p else mret ()) _ _ _ Hmid)|].
  unfold ended_canceled. by destruct (r_cancel r).
Qed.

Lemma remove_stale p r e :
  e_rpcs e !! r_key r ≠ Some p → e_heap e !! p = Some r → remove p e = inl ((), e).
Proof.
  intros Hk Hr. unfold remove. rewrite (bind_run _ _ _ _ _ (is_current_run p r e Hr)).
  by rewrite bool_decide_eq_false_2.
Qed.

(** The channel of a live RPC is empty, so [finish] does not block. *)
Lemma finish_run p r e data err :
  e_rpcs e !! r_key r = Some p → e_heap e !! p = Some r →
  (r_result r = None ∨ r_result r = Some []) →
  finish p data err e = inl ((), ended_canceled p r (finished_cell r data err) e).
Proof.
  intros Hk Hr Hres. pose proof (lookup_lt_Some _ _ _ Hr) as Hp.
  unfold finish. rewrite (bind_run _ _ _ _ _ (is_current_run p r e Hr)).
  rewrite bool_decide_eq_true_2 by done. cbn [negb].
  rewrite (bind_run _ _ _ _ _ (load_run p r e Hr)), (bind_run _ _ _ _ _ (remove_run p r e Hk Hr)).
  unfold finished_cell. destruct Hres as [-> |Hres]; [done|]. rewrite Hres.
  assert (e_heap (ended_canceled p r (removed_cell r) e) !! p = Some (removed_cell r)) as Hl.
  { unfold ended_canceled, ended. destruct (r_cancel r); cbn; by rewrite list_lookup_insert_eq. }
  unfold send_result, load. m_unfold. rewrite Hl.
  change (r_result (removed_cell r)) with (r_result r). rewrite Hres. cbn.
  unfold ended_canceled, ended. destruct (r_cancel r); cbn; unfold store; m_unfold; cbn;
    by rewrite list_insert_insert_eq.
Qed.

Lemma over_removed r : is_client (r_key r) = false → over r (removed_cell r).
Proof. intros Hs. split; try done. congruence. Qed.

Lemma over_finished r data err :
  base_ok cfg gh r → (err = None → message_ok gh (r_key r) data) → over r (finished_cell r data err).
Proof.
  intros Hb Hd. pose proof (base_result _ _ _ Hb) as Hres. unfold finished_cell.
  destruct (is_client (r_key r)) eqn:Hc; rewrite Hres; split; try done; [|congruence].
  intros _. eexists. split; [done|]. destruct err; [done|]. intros _. by apply Hd.
Qed.

(** What else is known after an RPC ended. *)
Record after_end (k : rpcKey) (p : loc) (e e' : Endpoint) : Prop := {
  ae_rpcs : e_rpcs e' = delete k (e_rpcs e);
  ae_heap : ∀ q, q ≠ p → e_heap e' !! q = e_heap e !! q;
  ae_cell : ∃ r, e_heap e' !! p = Some r ∧ r_key r = k ∧ r_tx r = [] ∧ r_rx r = None;
  ae_rest : (e_callers e', e_writer e', e_closed e', e_done e', e_outbound e', e_running e') =
            (e_callers e, e_writer e, e_closed e, e_done e, e_outbound e, e_running e)
}.

Lemma ended_after p r r' e :
  e_heap e !! p = Some r → over r r' → after_end (r_key r) p e (ended_canceled p r r' e).
Proof.
  intros Hr []. pose proof (lookup_lt_Some _ _ _ Hr). unfold ended_canceled, ended.
  destruct (r_cancel r); split; cbn; try done; try (intros; by rewrite list_lookup_insert_ne);
    rewrite list_lookup_insert_eq by done; by eexists.
Qed.

Lemma wp_finish n x e k p data err :
  Inv n x e → e_rpcs e !! k = Some p → (err = None → message_ok gh k data) →
  wp (finish p data err) (λ _ e', Inv n x e' ∧ after_end k p e e') e.
Proof.
  intros Hinv Hk Hd. destruct (inv_keys _ _ _ _ _ _ Hinv _ _ Hk) as (_&r&Hr&<-&Hb&_).
  eapply wp_intro; [apply (finish_run p r); try done|].
  - rewrite (base_result _ _ _ Hb). destruct (is_client (r_key r)); auto.
  - pose proof (over_finished r data err Hb Hd).
    split; [by apply Inv_ended_canceled|by apply ended_after].
Qed.

Lemma wp_remove n x e k p :
  Inv n x e → e_rpcs e !! k = Some p → is_client k = false →
  wp (remove p) (λ _ e', Inv n x e' ∧ after_end k p e e') e.
Proof.
  intros Hinv Hk Hc. destruct (inv_keys _ _ _ _ _ _ Hinv _ _ Hk) as (_&r&Hr&<-&Hb&_).
  eapply wp_intro; [by apply (remove_run p r)|].
  pose proof (over_removed r Hc). split; [by apply Inv_ended_canceled|by apply ended_after].
Qed.

(** ** Starting a handler *)

(** The state after [startHandler] handed the message of [p] to a worker. *)
Definition handled (r : rpc) : rpc := set_r_cancel true (set_r_rx None (set_r_handling true r)).

Definition started (p : loc) (r : rpc) (a : assembly) (e : Endpoint) : Endpoint :=
  set_e_running (e_running e ++ [(p, a_data a)])
    (set_e_workers (e_workers e + 1)
      (set_e_stats (set_s_HandledRequests (u64 (s_HandledRequests (e_stats e) + 1))
         (set_s_BufferedBytes (s_BufferedBytes (e_stats e) + - len (a_bits a)) (e_stats e)))
        (set_e_heap (<[p := handled r]> (e_heap e)) e))).

Lemma not_running n x e p r :
  Inv n x e → e_heap e !! p = Some r → r_handling r = false → p ∉ (e_running e).*1.
Proof.
  intros Hinv Hr Hh (q&->&Hq)%list_elem_of_fmap.
  destruct (inv_running _ _ _ _ _ _ Hinv) as [_ Hrun]. rewrite Forall_forall in Hrun.
  destruct (Hrun q Hq) as (r'&Hr'&_&Hh'&_). congruence.
Qed.

(** A buffer whose count has reached its length holds a message. *)
Lemma complete_message k a :
  rx_ok cfg gh k a → a_count a = len (a_data a) → message_ok gh k (a_data a).
Proof.
  intros ([Hc _]&Hl&Hpart) Hfull. split; [apply len_pos; lia|]. intros i b Hi. apply Hpart.
  rewrite (core_count _ Hc) in Hfull. unfold len in Hfull. rewrite <- abs_length in Hfull.
  apply (inj Z.of_nat), filled_full in Hfull. rewrite Forall_lookup in Hfull.
  assert (is_Some (abs a !! i)) as [o Ho].
  { apply lookup_lt_is_Some. rewrite abs_length. by eapply lookup_lt_Some. }
  destruct (Hfull i o Ho) as [x ->]. rewrite Ho. rewrite abs_lookup, Hi in Ho. cbn in Ho.
  by destruct (received _ _); simplify_eq.
Qed.

Lemma Inv_started n e p r a :
  Inv n Idle e → e_rpcs e !! r_key r = Some p → e_heap e !! p = Some r →
  is_client (r_key r) = false → r_received r = true → r_handling r = false → r_rx r = Some a →
  e_workers e < c_HandlerWorkers cfg → Inv n Idle (started p r a e).
Proof.
  intros Hinv Hk Hr Hc Hrec Hh Hrx Hw. pose proof (lookup_lt_Some _ _ _ Hr) as Hp.
  pose proof (not_running _ _ _ _ _ Hinv Hr Hh) as Hnew.
  assert (∀ k' , e_rpcs e !! k' = Some p → k' = r_key r) as Hinj.
  { intros k' Hk'. symmetry. eapply Inv_key; [exact Hinv|exact Hk'|exact Hr]. }
  destruct (inv_keys _ _ _ _ _ _ Hinv _ _ Hk) as (_&r0&Hr0&_&_&Hph).
  rewrite Hr in Hr0. injection Hr0 as <-. specialize (Hph ltac:(done)).
  unfold phase_ok in Hph. rewrite Hc, Hh, Hrx in Hph. destruct Hph as (Htx&Hsent&_&Ha&Hcount).
  rewrite Hrec in Hcount. symmetry in Hcount. apply Z.eqb_eq in Hcount.
  pose proof (complete_message _ _ Ha Hcount) as Hmsg.
  assert (rpc_bytes r = len (a_data a) + len (a_bits a)) as Hrb
    by (unfold rpc_bytes, rx_bytes; rewrite Htx, Hrx, len_nil; lia).
  assert (rpc_bytes (handled r) = 0) as Hrb'
    by (unfold rpc_bytes, rx_bytes; cbn; by rewrite Htx).
  destruct Hinv. split; cbn [started set_e_stats set_e_heap set_e_running set_e_workers e_rpcs
    e_heap e_cutoffs e_nextID e_stats e_closed e_done e_workers e_outbound e_wake e_running
    e_callers e_writer e_io_closed set_s_BufferedBytes set_s_HandledRequests s_BufferedBytes]; try done.
  - intros k' q Hk'. destruct (inv_keys k' q Hk') as (?&rq&Hrq&Ekq&Hb&Hph). split; [done|].
    destruct (decide (p = q)) as [<-|Hne].
    + exists (handled r). rewrite list_lookup_insert_eq by done. rewrite Hr in Hrq.
      injection Hrq as <-. split_and!; try done; [by destruct Hb; split|].
      intros _. unfold phase_ok. cbn. by rewrite Hc.
    + exists rq. by rewrite list_lookup_insert_ne.
  - rewrite (live_bytes_store _ _ (r_key r) p r) by done.
    rewrite running_bytes_app. unfold running_bytes at 2. cbn [foldr snd]. lia.
  - pose proof (len_nonneg (a_bits a)). lia.
  - rewrite len_app. unfold len at 2. cbn. lia.
  - destruct inv_running as [Hnd Hrun]. split.
    + rewrite fmap_app. apply NoDup_app. split; [done|]. split; [|apply NoDup_singleton].
      intros q Hq ->%list_elem_of_singleton. by apply Hnew.
    + apply Forall_app. split.
      * eapply Forall_impl; [exact Hrun|]. intros [q pl] (rq&Hq&Hrest). cbn in Hq.
        destruct (decide (p = q)) as [<-|Hne]; [destruct Hrest as (_&?&_); congruence|].
        exists rq. cbn. by rewrite list_lookup_insert_ne.
      * apply Forall_singleton. exists (handled r). cbn. by rewrite list_lookup_insert_eq.
  - destruct inv_queues as [? Hq]. split; [done|]. cbn. by rewrite length_insert.
  - intros o. rewrite length_insert. apply inv_writing.
  - destruct inv_callers as [? Hcs]. split; [done|]. eapply Forall_impl; [exact Hcs|].
    intros q (rq&Hq&Hcl&Hcase). unfold caller_ok. cbn.
    destruct (decide (p = q)) as [<-|Hne]; [congruence|].
    exists rq. by rewrite list_lookup_insert_ne.
  - etransitivity; [exact inv_past|]. split; cbn; auto.
    + intros q rq Hq. destruct (decide (p = q)) as [<-|Hne].
      * exists (handled r). rewrite list_lookup_insert_eq by done. rewrite Hr in Hq. by injection Hq as <-.
      * exists rq. by rewrite list_lookup_insert_ne.
    + intros q [Hq|Hq%list_elem_of_singleton]%elem_of_app; [by left|]. subst q. right. cbn. congruence.
Qed.

Lemma wp_time_Now n x e Q :
  Inv n x e → (∀ now, Inv n x (set_e_ticks (S (e_ticks e)) e) → Q now (set_e_ticks (S (e_ticks e)) e)) →
  wp time_Now Q e.
Proof. intros Hinv HQ. unfold time_Now. wp_steps. apply HQ. by eapply Inv_ext. Qed.

Lemma wp_load {p r e} {Q : rpc → Endpoint → Prop} : e_heap e !! p = Some r → Q r e → wp (load p) Q e.
Proof. intros Hr. unfold wp. by rewrite (load_run _ _ _ Hr). Qed.

Lemma wp_store p r e (Q : unit → Endpoint → Prop) :
  Q () (set_e_heap (<[p := r]> (e_heap e)) e) → wp (store p r) Q e.
Proof. done. Qed.

(** [startHandler] of a complete request: it is handed to a worker, waits for
    one, or is dropped because its time is over. *)
Lemma wp_startHandler n e k p r :
  Inv n Idle e → e_rpcs e !! k = Some p → e_heap e !! p = Some r → is_client k = false →
  r_received r = true → r_handling r = false →
  wp (startHandler cfg p) (λ _ e', Inv n Idle e' ∧
    ((e_rpcs e' = e_rpcs e ∨ e_rpcs e' = delete k (e_rpcs e)) ∧ e_callers e' = e_callers e) ∧
    ∃ r', e_heap e' !! p = Some r' ∧ r_key r' = k ∧ (e_rpcs e' !! k = Some p ∨ r_rx r' = None)) e.
Proof.
  intros Hinv Hk Hr Hc Hrec Hh. pose proof (Inv_key _ _ _ _ _ _ _ _ _ Hinv Hk Hr) as <-.
  pose proof (lookup_lt_Some _ _ _ Hr) as Hp.
  unfold startHandler. wp_step. apply (wp_load Hr).
  destruct (r_rx r) as [a|] eqn:Hrx; [|wp_steps; eauto 10].
  rewrite Hh. wp_step. apply (wp_time_Now n Idle); [done|]. intros now Hinv1.
  case_if.
  - eapply wp_mono; [by apply (wp_finish n Idle _ (r_key r))|]. cbn beta.
    intros _ e' [Hi He]. split; [done|]. split; [|].
    { split; [right; apply He|]. pose proof (ae_rest _ _ _ _ He) as Hrest. by injection Hrest. }
    destruct (ae_cell _ _ _ _ He) as (r'&?&?&?&?). eauto 10.
  - wp_steps. case_if.
    + wp_steps. eauto 10.
    + unfold add_buffered, store, count_handled, bump. wp_steps.
      split; [|split; [by split; [left|]|]].
      * apply (Inv_started n _ p r a Hinv1); try done.
      * exists (handled r). cbn. rewrite list_lookup_insert_eq by done. eauto.
Qed.

(** ** Control packets and requests for missing bytes *)

Lemma wp_control n x e key t :
  Inv n x e → key_ok key → t ∈ [wire.RPCUnknownType; wire.BusyType; wire.FreezeType; wire.NeedAckType] →
  wp (control local key t) (λ _ e', quiet e e' ∧ Inv n x e') e.
Proof.
  intros Hinv Hk Ht. eapply wp_mono; [apply (wp_send cfg local gh n x); [done|by apply own_control|lia]|].
  by intros _ e' [_ ?].
Qed.

Lemma wp_requestMissing n x e p r :
  Inv n x e → e_heap e !! p = Some r → key_ok (r_key r) → (∀ a, r_rx r = Some a → asm_ok a) →
  wp (requestMissing local p) (λ _ e', quiet e e' ∧ Inv n x e') e.
Proof.
  intros Hinv Hr Hk Hrx.
  assert (∀ offset l, is_u32 l → wp (_ ← send (k_peer (r_key r)) (wire.PResend {|
      wire.rs_Common := common local (r_key r) wire.ResendType;
      wire.rs_Offset := u32 offset; wire.rs_Length := l; wire.rs_Priority := 7 |}) 7;
    mret ()) (λ _ e', quiet e e' ∧ Inv n x e') e) as Hsend.
  { intros offset l Hl. wp_step.
    eapply wp_mono; [apply (wp_send cfg local gh n x); [done|by apply own_resend|lia]|].
    intros err e' (_&?&?). by wp_step. }
  unfold requestMissing. wp_step. apply (wp_load Hr).
  destruct (r_rx r) as [a|] eqn:Erx; [|by do 2 wp_step; apply Hsend].
  destruct (missing_spec a) as (o&Ho&_); [by apply Hrx|].
  do 2 wp_step. apply (wp_or_panic _ o); [done|]. wp_step.
  destruct o as [[offset l]|]; [|by apply wp_ret]. apply Hsend. auto with homa.
Qed.

(** ** Granting *)

Definition grant_end (a : assembly) : Z := Z.min (len (a_data a)) (a_count a + c_GrantWindow cfg).

(** The receive buffer after a grant: the window never shrinks. *)
Definition regrant (r : rpc) : rpc :=
  match r_rx r with
  | Some a => set_r_rx (Some (raise_granted a (grant_end a))) r
  | None => r
  end.

Definition grant_packet (rank : Z) (key : rpcKey) (a : assembly) : wire.Packet :=
  wire.PGrant {| wire.g_Common := common local key wire.GrantType;
    wire.g_Offset := u32 (grant_end a); wire.g_Priority := u8 (Z.max 0 (3 - rank)) |}.

(** The GRANT packets for candidates from [rank] on: none where the window is
    already open. *)
Fixpoint grants (rank : Z) (cs : list (loc * rpcKey * assembly)) : list (Addr * wire.Packet) :=
  match cs with
  | [] => []
  | (_, key, a) :: cs =>
      (if grant_end a <=? a_granted a then [] else [(k_peer key, grant_packet rank key a)])
      ++ grants (rank + 1) cs
  end.

Definition emit (ws : list (Addr * wire.Packet)) (e : Endpoint) : Endpoint :=
  foldl (λ e w, sent_state w.1 w.2 7 e) e ws.

Definition regrant_all (ps : list loc) (heap : list rpc) : list rpc :=
  foldl (λ h p, alter regrant p h) heap ps.

Lemma emit_cons w ws e : emit (w :: ws) e = emit ws (sent_state w.1 w.2 7 e).
Proof. done. Qed.

Lemma emit_set_heap ws h e : emit ws (set_e_heap h e) = set_e_heap h (emit ws e).
Proof.
  revert e. induction ws as [|w ws IH]; intros e; [done|]. rewrite !emit_cons, <- IH.
  f_equal. apply push_set_heap.
Qed.

Lemma emit_quiet ws e : quiet e (emit ws e).
Proof.
  revert e. induction ws as [|w ws IH]; intros e; [done|].
  etransitivity; [apply push_quiet|apply IH].
Qed.

Lemma emit_heap ws e : e_heap (emit ws e) = e_heap e.
Proof. pose proof (emit_quiet ws e) as Hq. unfold quiet, core in Hq. congruence. Qed.

Lemma emit_rpcs ws e : e_rpcs (emit ws e) = e_rpcs e.
Proof. pose proof (emit_quiet ws e) as Hq. unfold quiet, core in Hq. congruence. Qed.

(** A candidate that is still as it was collected. *)
Definition granted_at (e : Endpoint) (c : loc * rpcKey * assembly) : Prop :=
  ∃ r, e_heap e !! c.1.1 = Some r ∧ r_key r = c.1.2 ∧ r_rx r = Some c.2 ∧
    e_rpcs e !! c.1.2 = Some c.1.1.

Lemma alter_same {A} (f : A → A) (l : list A) i x : l !! i = Some x → f x = x → alter f i l = l.
Proof.
  intros Hx Hf. apply list_eq. intros j. destruct (decide (i = j)) as [<-|].
  - by rewrite list_lookup_alter_eq, Hx; cbn; rewrite Hf.
  - by rewrite list_lookup_alter_ne.
Qed.

Lemma alter_store {A} (f : A → A) (l : list A) i x : l !! i = Some x → alter f i l = <[i := f x]> l.
Proof.
  intros Hx. apply list_eq. intros j. destruct (decide (i = j)) as [<-|].
  - rewrite list_lookup_alter_eq, list_lookup_insert_eq, Hx by by eapply lookup_lt_Some. done.
  - by rewrite list_lookup_alter_ne, list_lookup_insert_ne.
Qed.

Lemma regrant_open r a :
  r_rx r = Some a → grant_end a ≤ a_granted a → regrant r = r.
Proof.
  intros Hrx Hle. unfold regrant, raise_granted. rewrite Hrx, Z.max_l by done.
  destruct a, r; cbn in *. by subst.
Qed.

Lemma raise_granted_ok a : asm_ok a → asm_ok (raise_granted a (grant_end a)).
Proof.
  intros [[] Hm]. pose proof (ok_window cfg Hcfg). split; [|done].
  assert (0 ≤ a_count a) by lia. split; try done. unfold raise_granted, grant_end. cbn. lia.
Qed.

Lemma Inv_regrant n e p r k :
  Inv n Idle e → e_rpcs e !! k = Some p → e_heap e !! p = Some r →
  Inv n Idle (set_e_heap (alter regrant p (e_heap e)) e).
Proof.
  intros Hinv Hk Hr. rewrite (alter_store _ _ _ r) by done.
  destruct (r_rx r) as [a|] eqn:Erx; cycle 1.
  { unfold regrant. rewrite Erx, list_insert_id by done. by eapply Inv_ext. }
  assert (Inv n Idle (upd_rpc p (regrant r) 0 e)) as Hi.
  { eapply Inv_upd; [done..| | |].
    - unfold regrant. rewrite Erx. split; [done|by intros []; split| |].
      + intros _. unfold phase_ok. cbn. rewrite Erx. unfold rx_ok. cbn.
        pose proof (raise_granted_ok a).
        destruct (is_client _); [intros (?&?&?&?&[]&?); auto 10|].
        destruct (r_handling r); [by intros (_&?&_)|intros (?&?&?&[]&?); auto 10].
      + intros _ (pl&rr&Hrr&_&_&_&?&_). cbn in Hrr. congruence.
    - unfold regrant, rpc_bytes, rx_bytes. rewrite Erx. cbn. lia.
    - pose proof (inv_budget _ _ _ _ _ _ Hinv). lia. }
  eapply Inv_ext; [exact Hi|..]; try done. unfold quiet, core. cbn. by rewrite Z.add_0_r.
Qed.

Lemma grant_one_run n e rank c :
  Inv n Idle e → granted_at e c →
  let e' := set_e_heap (regrant_all [c.1.1] (e_heap e)) (emit (grants rank [c]) e) in
  grant_one cfg local rank c.1.1 e = inl ((), e') ∧ Inv n Idle e'.
Proof.
  destruct c as [[p key] a]. intros Hinv (r&Hr&Ek&Hrx&Hk). cbn [fst snd] in *.
  pose proof (Inv_regrant n e p r key Hinv Hk Hr) as Hinv1.
  destruct (inv_keys _ _ _ _ _ _ Hinv _ _ Hk) as (Hkey&_).
  unfold grant_one, load. m_unfold. rewrite Hr, Hrx. fold (grant_end a).
  cbn [grants regrant_all foldl app]. case_if; cbn [app].
  - cbn [emit foldl]. rewrite (alter_same _ _ _ r) by (done || by eapply regrant_open).
    assert (set_e_heap (e_heap e) e = e) as -> by by destruct e. done.
  - rewrite <- emit_set_heap. cbn [emit foldl fst snd].
    destruct (Inv_send cfg local gh n Idle (set_e_heap (alter regrant p (e_heap e)) e) (k_peer key)
      (grant_packet rank key a) 7) as [Hs Hi]; [done|by apply own_grant|lia|].
    split; [|exact Hi]. unfold store. m_unfold. rewrite (alter_store _ _ _ r) in Hs |- * by done.
    assert (regrant r = set_r_rx (Some {| a_data := a_data a; a_bits := a_bits a;
      a_count := a_count a; a_contiguous := a_contiguous a; a_granted := grant_end a |}) r) as Ereg
      by (unfold regrant, raise_granted; by rewrite Hrx, Z.max_r by lia).
    rewrite Ereg, <- Ek in *. unfold grant_packet in Hs. by rewrite Hs.
Qed.

Lemma granted_at_other e p ws c :
  granted_at e c → c.1.1 ≠ p →
  granted_at (set_e_heap (regrant_all [p] (e_heap e)) (emit ws e)) c.
Proof.
  intros (r&Hr&?&?&?) Hne. exists r. cbn [set_e_heap e_heap e_rpcs regrant_all foldl].
  by rewrite list_lookup_alter_ne, emit_rpcs.
Qed.

Lemma grants_app rank c cs : grants rank (c :: cs) = grants rank [c] ++ grants (rank + 1) cs.
Proof. destruct c as [[p key] a]. cbn [grants]. by rewrite app_nil_r. Qed.

Lemma grant_loop_run rank cs n e :
  Inv n Idle e → NoDup cs.*1.*1 → Forall (granted_at e) cs → 0 ≤ rank →
  let chosen := take (Z.to_nat (c_Overcommit cfg - rank)) cs in
  let e' := set_e_heap (regrant_all chosen.*1.*1 (e_heap e)) (emit (grants rank chosen) e) in
  grant_loop cfg local rank cs e = inl ((), e') ∧ Inv n Idle e'.
Proof.
  revert rank e. induction cs as [|c cs IH]; intros rank e Hinv Hnd Hat Hrank.
  { rewrite take_nil. cbn. assert (set_e_heap (e_heap e) e = e) as -> by by destruct e. done. }
  cbn [grant_loop]. case_if.
  { rewrite Z2Nat.nonpos by lia. cbn. assert (set_e_heap (e_heap e) e = e) as -> by by destruct e. done. }
  apply NoDup_cons in Hnd as [Hnew Hnd]. apply Forall_cons in Hat as [Hc Hat].
  destruct (grant_one_run n e rank c Hinv Hc) as [Hrun Hinv1].
  set (e1 := set_e_heap _ _) in Hrun, Hinv1.
  destruct (IH (rank + 1) e1) as [Hrun2 Hinv2]; [done|done| |lia|].
  { rewrite Forall_forall in Hat |- *. intros d Hd. apply granted_at_other; [by apply Hat|].
    intros Eq. apply Hnew. rewrite <- Eq. by do 2 apply list_elem_of_fmap_2. }
  rewrite (bind_run _ _ _ _ _ Hrun).
  replace (Z.to_nat (c_Overcommit cfg - rank)) with (S (Z.to_nat (c_Overcommit cfg - (rank + 1)))) by lia.
  set (chosen := take _ cs) in *. cbn [take]. fold chosen.
  rewrite grants_app. unfold emit at 1 2. rewrite foldl_app.
  fold (emit (grants rank [c]) e). fold (emit (grants (rank + 1) chosen) (emit (grants rank [c]) e)).
  unfold e1 in Hrun2, Hinv2. rewrite emit_set_heap in Hrun2, Hinv2. done.
Qed.

(** ** The candidates *)

Definition candidates (heap : list rpc) (entries : list (rpcKey * loc)) : list (loc * rpcKey * assembly) :=
  omap (λ kp, r ← heap !! kp.2; a ← is_candidate r; Some (kp.2, r_key r, a)) entries.

Lemma collect_run e entries :
  Forall (λ kp, is_Some (e_heap e !! kp.2)) entries →
  collect entries e = inl (candidates (e_heap e) entries, e).
Proof.
  induction 1 as [|[k p] entries [r Hr] Hall IH]; [done|]. cbn in Hr. cbn [collect].
  rewrite (bind_run _ _ _ _ _ (load_run p r e Hr)), (bind_run _ _ _ _ _ IH).
  unfold candidates. cbn [omap list_omap snd]. rewrite Hr. cbn.
  by destruct (is_candidate r).
Qed.

Lemma is_candidate_Some r a :
  is_candidate r = Some a ↔
  r_rx r = Some a ∧ a_count a < len (a_data a) ∧ a_granted a < len (a_data a).
Proof.
  unfold is_candidate. destruct (r_rx r) as [b|]; [|split; [done|by intros [? _]]].
  case_if.
  - split; [intros [= <-]; split_and!; (done || lia)|by intros ([= ->]&_)].
  - split; [done|]. intros ([= ->]&?&?). destruct E; bool_to_prop; lia.
Qed.

(** A candidate is an entry of the map whose message still needs a grant. *)
Lemma candidates_spec heap entries c :
  c ∈ candidates heap entries ↔
  ∃ k r, (k, c.1.1) ∈ entries ∧ heap !! c.1.1 = Some r ∧ r_key r = c.1.2 ∧
    r_rx r = Some c.2 ∧ a_count c.2 < len (a_data c.2) ∧ a_granted c.2 < len (a_data c.2).
Proof.
  unfold candidates. rewrite list_elem_of_omap. split.
  - intros ([k p]&Hin&Hc). cbn in Hc. destruct (heap !! p) as [r|] eqn:Hr; [|done]. cbn in Hc.
    destruct (is_candidate r) as [a|] eqn:Ha; [|done]. cbn in Hc. injection Hc as <-.
    apply is_candidate_Some in Ha. exists k, r. cbn. by destruct Ha as (?&?&?).
  - intros (k&r&Hin&Hr&Hk&Hrest). exists (k, c.1.1). split; [done|]. cbn. rewrite Hr. cbn.
    rewrite (proj2 (is_candidate_Some r c.2)) by done. cbn. rewrite Hk. by destruct c as [[]].
Qed.

Lemma entries_in e t k p : (k, p) ∈ map_order t (e_rpcs e) ↔ e_rpcs e !! k = Some p.
Proof. by rewrite map_order_perm, elem_of_map_to_list. Qed.

Lemma entries_NoDup n x e t : Inv n x e → NoDup (map_order t (e_rpcs e)).*2.
Proof.
  intros Hinv. rewrite map_order_perm. apply NoDup_fmap_2_strong; [|apply NoDup_map_to_list].
  intros [k p] [k' p'] Hk Hk' E. cbn in E. subst p'. apply elem_of_map_to_list in Hk, Hk'.
  destruct (inv_keys _ _ _ _ _ _ Hinv _ _ Hk) as (_&r&Hr&E&_).
  pose proof (Inv_key _ _ _ _ _ _ _ _ _ Hinv Hk' Hr). congruence.
Qed.

Lemma candidates_locs heap entries : (candidates heap entries).*1.*1 `sublist_of` entries.*2.
Proof.
  unfold candidates. induction entries as [|[k p] entries IH]; [done|]. cbn [omap list_omap fmap list_fmap snd].
  destruct (heap !! p) as [r|]; cbn; [|by constructor].
  destruct (is_candidate r); cbn; by constructor.
Qed.

(** The RPCs a call of [schedule] may grant: the first [Overcommit] of the
    candidates sorted by remaining bytes. *)
Definition ranked (e : Endpoint) : list (loc * rpcKey * assembly) :=
  merge_sort candidate_le (candidates (e_heap e) (map_order (e_ticks e) (e_rpcs e))).

Definition chosen (e : Endpoint) : list (loc * rpcKey * assembly) :=
  take (Z.to_nat (c_Overcommit cfg)) (ranked e).

Lemma ranked_in e c : c ∈ ranked e ↔ c ∈ candidates (e_heap e) (map_order (e_ticks e) (e_rpcs e)).
Proof. unfold ranked. by rewrite merge_sort_Permutation. Qed.

Lemma ranked_NoDup n x e : Inv n x e → NoDup (ranked e).*1.*1.
Proof.
  intros Hinv. unfold ranked. rewrite merge_sort_Permutation.
  eapply sublist_NoDup; [by eapply entries_NoDup|apply candidates_locs].
Qed.

Lemma ranked_at n x e : Inv n x e → Forall (granted_at e) (ranked e).
Proof.
  intros Hinv. apply Forall_forall. intros c (k&r&Hin&Hr&Hk&Hrx&_)%ranked_in%candidates_spec.
  exists r. split_and!; try done. apply entries_in in Hin.
  pose proof (Inv_key _ _ _ _ _ _ _ _ _ Hinv Hin Hr). congruence.
Qed.

Lemma schedule_run n e :
  Inv n Idle e →
  let e' := set_e_heap (regrant_all (chosen e).*1.*1 (e_heap e))
              (emit (grants 0 (chosen e)) (set_e_ticks (S (e_ticks e)) e)) in
  schedule cfg local e = inl ((), e') ∧ Inv n Idle e'.
Proof.
  intros Hinv. set (e1 := set_e_ticks (S (e_ticks e)) e).
  assert (Inv n Idle e1) as Hinv1 by by eapply Inv_ext.
  destruct (grant_loop_run 0 (ranked e) n e1) as [Hrun Hi];
    [done|by eapply ranked_NoDup|exact (ranked_at n Idle e Hinv)|done|].
  rewrite Z.sub_0_r in Hrun, Hi. split; [|exact Hi].
  unfold schedule. assert (range_rpcs e = inl (map_order (e_ticks e) (e_rpcs e), e1)) as Hr by done.
  rewrite (bind_run _ _ _ _ _ Hr), (bind_run _ _ _ _ _ (collect_run e1 _ ltac:(
    apply Forall_forall; intros [k p] Hin%entries_in;
    destruct (inv_keys _ _ _ _ _ _ Hinv _ _ Hin) as (_&r&?&_); by exists r))).
  exact Hrun.
Qed.

Lemma wp_schedule n e : Inv n Idle e → wp (schedule cfg local) (λ _ e', Inv n Idle e') e.
Proof. intros Hinv. destruct (schedule_run n e Hinv) as [E ?]. by eapply wp_intro. Qed.

(** ** Acknowledgments *)

Lemma odd_server id : Z.land id 1 = 1 ↔ Z.even id = false.
Proof. rewrite land_1. by destruct (Z.even id). Qed.

Lemma even_client id : Z.land id 1 = 0 ↔ Z.even id = true.
Proof. rewrite land_1. by destruct (Z.even id). Qed.

(** An acknowledgment ends at most one RPC, and only of a server. *)
Lemma wp_ack n x e ip a :
  Inv n x e →
  wp (ack local ip a) (λ _ e', Inv n x e' ∧ e_closed e' = e_closed e ∧
    (∀ k p, e_rpcs e' !! k = Some p → e_rpcs e !! k = Some p ∧ e_heap e' !! p = e_heap e !! p) ∧
    (∀ k, is_client k = true → e_rpcs e' !! k = e_rpcs e !! k)) e.
Proof.
  intros Hinv. unfold ack. case_if; [by wp_steps|]. unfold range_rpcs. wp_steps.
  assert (Inv n x (set_e_ticks (S (e_ticks e)) e)) as Hinv1 by by eapply Inv_ext.
  destruct (list_find _ _) as [[i [k p]]|] eqn:Hf; [|by wp_steps].
  apply list_find_Some in Hf as (Hin&[_ Hid]&_). apply list_elem_of_lookup_2, entries_in in Hin.
  assert (is_client k = false) as Hc
    by (unfold is_client; rewrite Hid, lxor_1_even; apply negb_false_iff, even_client; lia).
  eapply wp_mono; [by apply (wp_remove n x _ k)|]. cbn beta. intros _ e' [Hi He]. split; [done|].
  split; [pose proof (ae_rest _ _ _ _ He) as Hrest; by injection Hrest|].
  rewrite (ae_rpcs _ _ _ _ He). cbn [set_e_ticks e_rpcs]. split.
  - intros k' q [Hne Hk']%lookup_delete_Some. split; [done|]. apply He. intros ->.
    destruct (inv_keys _ _ _ _ _ _ Hinv _ _ Hk') as (_&r&Hr&<-&_). apply Hne.
    symmetry. by apply (Inv_key _ _ _ _ _ _ _ _ _ Hinv Hin).
  - intros k' Hk'. rewrite lookup_delete_ne; [done|congruence].
Qed.
End ops.
