(* ===== verification/EndpointRecv.v ===== *)
(** * Receiving: every packet keeps the invariant

    The cases of [Endpoint.receive], with the life of an RPC followed through
    the states in which its phase is not yet consistent. *)
From S2P Require Import Prelude Wire WireFacts Assembly AssemblyFacts Api.
From S2P Require Import EndpointState Endpoint EndpointInv EndpointSend EndpointOps.

#[local] Open Scope Z_scope.

Section recv.
Context `{GoRuntime} (cfg : Config) (local : Addr) (handler : bool) (gh : ghost).
Context (Hcfg : config_ok cfg) (Hlocal : is_u16 (Port local)).
#[local] Abbreviation Inv := (Inv cfg local gh).

(** ** A new RPC *)

Lemma datagram_ok_mono m m' i o : (m ≤ m')%nat → datagram_ok local gh m i o → datagram_ok local gh m' i o.
Proof. intros Hm (?&Ho&?). split; [done|]. split; [|done]. intros p Hp. specialize (Ho p Hp). lia. Qed.

(** [r] allocated and entered in the map, the bytes it owns reserved, and the
    next client ID advanced. *)
Definition inserted (r : rpc) (id : Z) (e : Endpoint) : Endpoint :=
  set_e_nextID id
    (set_e_stats (set_s_BufferedBytes (s_BufferedBytes (e_stats e) + rpc_bytes r) (e_stats e))
      (set_e_rpcs (<[r_key r := length (e_heap e)]> (e_rpcs e))
        (set_e_heap (e_heap e ++ [r]) e))).

Lemma Inv_inserted n n' e r id :
  Inv n Idle e → e_closed e = false → e_rpcs e !! r_key r = None → key_ok (r_key r) →
  base_ok cfg gh r → Z.of_nat (size (e_rpcs e)) < c_MaxRPCs cfg →
  s_BufferedBytes (e_stats e) + rpc_bytes r ≤ c_MaxBufferedBytes cfg →
  (n ≤ n')%nat → id = id_after (g_seed gh) n' →
  (is_client (r_key r) = true → ∃ j, (j < n')%nat ∧ k_id (r_key r) = id_after (g_seed gh) (S j)) →
  Inv n' (Changing (length (e_heap e))) (inserted r id e).
Proof.
  intros Hinv Hcl Hk Hkey Hb Hsz Hmax Hn Hid Hids.
  assert (∀ q rq, e_heap e !! q = Some rq → (e_heap e ++ [r]) !! q = Some rq) as Hold
    by (intros q rq Hq; by apply lookup_app_l_Some).
  assert (∀ k q, e_rpcs e !! k = Some q → is_Some (e_heap e !! q)) as Hcells.
  { intros k q Hq. destruct (inv_keys _ _ _ _ _ _ Hinv _ _ Hq) as (_&rq&?&_). by exists rq. }
  destruct Hinv. split; cbn [inserted set_e_stats set_e_heap set_e_rpcs set_e_nextID e_rpcs e_heap
    e_cutoffs e_nextID e_stats e_closed e_done e_workers e_outbound e_wake e_running e_callers
    e_writer e_io_closed set_s_BufferedBytes s_BufferedBytes]; try done.
  - intros k q [[<- <-]|[Hne Hq]]%lookup_insert_Some.
    + split; [done|]. exists r. by rewrite lookup_app_r, Nat.sub_diag by lia.
    + destruct (inv_keys k q Hq) as (?&rq&?&?&?&Hph). split; [done|]. exists rq. eauto 10.
  - rewrite map_size_insert, Hk. lia.
  - rewrite live_bytes_insert by done. unfold cell_bytes. rewrite lookup_app_r, Nat.sub_diag by lia. cbn.
    rewrite (live_bytes_ext _ (e_heap e ++ [r]) (e_heap e)); [lia|].
    intros k q Hq. unfold cell_bytes. destruct (Hcells k q Hq) as [rq Hrq].
    by rewrite Hrq, (Hold _ _ Hrq).
  - destruct inv_running as [? Hrun]. split; [done|]. eapply Forall_impl; [exact Hrun|].
    intros q (rq&?&?). exists rq. eauto.
  - destruct inv_queues as [? Hq]. split; [done|]. cbn. intros i q Hi.
    destruct (Hq i q Hi) as [? Hf]. split; [done|]. eapply Forall_impl; [exact Hf|].
    intros o. apply datagram_ok_mono. rewrite length_app. lia.
  - intros o Ho. destruct (inv_writing o Ho) as (i&?&?). exists i. split; [done|].
    eapply datagram_ok_mono; [|done]. rewrite length_app. lia.
  - destruct inv_callers as [? Hc]. split; [done|]. eapply Forall_impl; [exact Hc|].
    intros q (rq&Hq&Hcq&Hcase). exists rq. cbn. split; [eauto|]. split; [done|].
    pose proof (lookup_lt_Some _ _ _ Hq).
    destruct (decide (r_key r = r_key rq)) as [E|Hne].
    + rewrite <- E in Hcase |- *. rewrite lookup_insert_eq. right.
      destruct Hcase as [Hl|[_ ?]]; [congruence|]. split; [|done]. intros [= ?]. lia.
    + by rewrite lookup_insert_ne.
  - intros k q [[<- <-]|[Hne Hq]]%lookup_insert_Some Hc; [by apply Hids|].
    destruct (inv_ids k q Hq Hc) as (j&?&?). exists j. split; [lia|done].
  - destruct inv_closed as [? Hc]. split; [done|]. intros _. destruct Hc as [? _]; [done|].
    split; [done|congruence].
  - etransitivity; [exact inv_past|]. split; cbn; auto.
    + intros q rq Hq. exists rq. eauto.
    + intros k q [[<- <-]|[_ Hq]]%lookup_insert_Some; [lia|done].
Qed.

(** ** The RPC a packet is about *)

(** [p] is live and its cell satisfies [P]; its phase need not be restored. *)
Definition at_rpc (n : nat) (k : rpcKey) (p : loc) (P : rpc → Prop) (e : Endpoint) : Prop :=
  Inv n (Changing p) e ∧ e_rpcs e !! k = Some p ∧ ∃ r, e_heap e !! p = Some r ∧ r_key r = k ∧
    base_ok cfg gh r ∧ P r.

Lemma at_rpc_intro n k p e :
  Inv n Idle e → e_rpcs e !! k = Some p → at_rpc n k p (phase_ok cfg gh) e.
Proof.
  intros Hinv Hk. destruct (inv_keys _ _ _ _ _ _ Hinv _ _ Hk) as (_&r&?&?&?&Hph).
  split; [by apply Inv_weaken|]. split; [done|]. exists r. split_and!; try done. by apply Hph.
Qed.

Lemma at_rpc_settle n k p e : at_rpc n k p (phase_ok cfg gh) e → Inv n Idle e.
Proof.
  intros (Hinv&Hk&r&Hr&_&_&Hph). eapply Inv_settle; [done|]. intros k' r' _ Hr' _. congruence.
Qed.

Lemma at_rpc_mono n k p (P Q : rpc → Prop) e :
  at_rpc n k p P e → (∀ r, r_key r = k → P r → Q r) → at_rpc n k p Q e.
Proof. intros (?&?&r&?&?&?&?) HPQ. split; [done|]. split; [done|]. exists r. auto. Qed.

Lemma at_rpc_quiet n k p P e e' :
  at_rpc n k p P e → Inv n (Changing p) e' → quiet e e' → at_rpc n k p P e'.
Proof.
  intros (_&?&?) Hinv Hq. unfold quiet, core in Hq. injection Hq as E1 E2 _ _ _ _ _ _ _ _ _ _.
  split; [done|]. by rewrite E1, E2.
Qed.

(** The RPC that was being changed has ended. *)
Lemma ended_settle n k p P e e' :
  at_rpc n k p P e → Inv n (Changing p) e' → after_end k p e e' → Inv n Idle e'.
Proof.
  intros (Hinv&Hk&r&Hr&Ek&_) Hinv' He. eapply Inv_settle; [done|].
  intros k' r' Hk'. rewrite (ae_rpcs _ _ _ _ He) in Hk'. apply lookup_delete_Some in Hk' as [Hne Hk'].
  by rewrite (Inv_key _ _ _ _ _ _ _ _ _ Hinv Hk' Hr) in Ek.
Qed.

(** Replacing the cell while its phase is open; [d] is the change of bytes. *)
Lemma at_rpc_upd n k p (P Q : rpc → Prop) e r r' d :
  at_rpc n k p P e → e_heap e !! p = Some r →
  r_key r' = k ∧ r_deadline r' = r_deadline r ∧ r_handling r' = r_handling r → base_ok cfg gh r' → Q r' →
  (r_handling r = false ∨ is_client k = true) → d = rpc_bytes r' - rpc_bytes r →
  s_BufferedBytes (e_stats e) + d ≤ c_MaxBufferedBytes cfg →
  at_rpc n k p Q (upd_rpc p r' d e).
Proof.
  intros (Hinv&Hk&r0&Hr0&Ek&_) Hr (Hkey&Hdl&Hhd) Hb HQ Hh Hd Hmax. rewrite Hr in Hr0. injection Hr0 as <-.
  split; [|split; [done|]].
  - eapply Inv_upd; [done..| |done|done]. split; [split_and!; congruence|done|done|].
    intros _ (pl&rr&Hrr&Hc&Hh'&_). cbn in Hrr. rewrite Hr in Hrr. injection Hrr as <-.
    exfalso. destruct Hh; congruence.
  - exists r'. cbn. rewrite list_lookup_insert_eq by by eapply lookup_lt_Some. done.
Qed.

(** The phase of an RPC that was just created for a request. *)
Definition fresh (r : rpc) : Prop :=
  is_client (r_key r) = false ∧ r_rx r = None ∧ r_received r = false ∧ r_handling r = false ∧
  r_tx r = [] ∧ r_sent r = 0 ∧ r_cancel r = false.

Lemma wp_data_rpc n e key :
  Inv n Idle e → e_closed e = false → key_ok key →
  wp (data_rpc cfg handler key) (λ o e', match o with
    | None => Inv n Idle e'
    | Some p => at_rpc n key p (λ r, phase_ok cfg gh r ∨ fresh r) e'
    end) e.
Proof.
  intros Hinv Hcl Hkey. unfold data_rpc, lookup_rpc. wp_steps.
  destruct (e_rpcs e !! key) as [p|] eqn:Hk; wp_steps.
  { eapply at_rpc_mono; [by apply at_rpc_intro|]. auto. }
  case_if; wp_steps; [done|]. unfold time_Now, alloc. wp_steps.
  set (r := mkRpc _ _ _ _ _ _ _ _ _ _ _ _ _).
  set (e1 := set_e_ticks _ (set_e_ticks _ e)) in *.
  assert (Inv n Idle e1) as Hinv1 by by eapply Inv_ext.
  assert (is_client key = false) as Hc.
  { unfold is_client. apply not_true_is_false. rewrite <- even_client. lia. }
  assert (base_ok cfg gh r) as Hb.
  { pose proof (ok_message cfg Hcfg). split; cbn -[is_client]; rewrite ?len_nil, ?Hc; try done; try lia.
    apply Forall_nil_2. }
  assert (rpc_bytes r = 0) as Hrb by done.
  assert (Inv n (Changing (length (e_heap e1))) (inserted r (e_nextID e1) e1)) as Hi.
  { apply Inv_inserted with n; try done.
    - rewrite Hrb, Z.add_0_r. apply Hinv1.
    - apply Hinv1.
    - intros Hc'. change (r_key r) with key in Hc'. congruence. }
  split; [|split].
  - eapply Inv_ext; [exact Hi|..]; try done.
    unfold quiet, core. cbn -[rpc_bytes]. by rewrite Hrb, Z.add_0_r.
  - cbn. by rewrite lookup_insert_eq.
  - exists r. cbn. rewrite lookup_app_r, Nat.sub_diag by lia. split_and!; try done. by right.
Qed.

(** A property of a cell that does not look at time stamps. *)
Definition timeless (P : rpc → Prop) : Prop := ∀ l c r, P r → P (stamped l c r).

Lemma at_rpc_stamped n k p P e r l c :
  at_rpc n k p P e → timeless P → e_heap e !! p = Some r →
  at_rpc n k p P (set_e_heap (<[p := stamped l c r]> (e_heap e)) e).
Proof.
  intros (Hinv&Hk&r0&Hr0&Ek&Hb&HP) Ht Hr. rewrite Hr in Hr0. injection Hr0 as <-.
  split; [by apply Inv_stamped|]. split; [done|]. exists (stamped l c r). cbn.
  rewrite list_lookup_insert_eq by by eapply lookup_lt_Some.
  split_and!; try done; [by destruct Hb; split|by apply Ht].
Qed.

Lemma at_rpc_key n k p P e : at_rpc n k p P e → key_ok k.
Proof. intros (Hinv&Hk&_). by destruct (inv_keys _ _ _ _ _ _ Hinv _ _ Hk) as [? _]. Qed.

Lemma wp_data_cutoffs n k p P e peer d :
  at_rpc n k p P e → timeless P →
  wp (data_cutoffs cfg local peer p d) (λ _ e', at_rpc n k p P e') e.
Proof.
  intros Hat Ht. unfold data_cutoffs. case_if; [by wp_step|].
  pose proof (at_rpc_key _ _ _ _ _ Hat) as Hkey.
  destruct (Hat) as (Hinv&_&r&Hr&Ek&_). wp_step. apply (wp_load Hr). wp_step.
  apply (wp_time_Now cfg local gh n (Changing p)); [done|]. intros now Hinv1.
  pose proof (at_rpc_quiet _ _ _ _ _ (set_e_ticks (S (e_ticks e)) e) Hat Hinv1 eq_refl) as Hat1.
  case_if; [by wp_step|]. wp_step.
  apply (wp_time_Now cfg local gh n (Changing p)); [done|]. intros now' Hinv2.
  pose proof (at_rpc_quiet _ _ _ _ _ _ Hat1 Hinv2 eq_refl) as Hat2.
  pose proof (at_rpc_stamped _ _ _ _ _ _ (r_last r) (Some now') Hat2 Ht Hr) as Hat3.
  unfold store. wp_step. wp_step. wp_step. destruct (Hat3) as (Hinv3&_).
  eapply wp_mono.
  { apply (wp_send cfg local gh n (Changing p)); [exact Hinv3| |lia]. rewrite Ek. by apply own_cutoffs. }
  intros err e' (_&Hq&Hi). wp_step. by eapply at_rpc_quiet.
Qed.

(** The cell while a message is being received, whatever has arrived. *)
Definition receiving (a : assembly) (r : rpc) : Prop :=
  r_rx r = Some a ∧ r_received r = false ∧ r_handling r = false ∧ r_cancel r = false ∧
  r_tx r = [] ∧ (is_client (r_key r) = false → r_sent r = 0) ∧ rx_ok cfg gh (r_key r) a.

Lemma receiving_phase a r : receiving a r → a_count a < len (a_data a) → phase_ok cfg gh r.
Proof.
  intros (Hrx&Hrec&Hh&Hcn&Htx&Hs&Ha) Hlt. unfold phase_ok. rewrite Hrx, Hrec, Hh, Hcn, Htx.
  destruct (is_client _); [done|]. rewrite Hs, (proj2 (Z.eqb_neq _ _)) by (done || lia). done.
Qed.

Lemma phase_receiving a r :
  phase_ok cfg gh r → r_rx r = Some a → r_received r = false →
  receiving a r ∧ a_count a < len (a_data a).
Proof.
  unfold phase_ok, receiving. intros Hph Hrx Hrec. rewrite Hrx, Hrec in *.
  destruct (is_client (r_key r)).
  - destruct Hph as (_&?&?&?&?&?). by split_and!.
  - destruct (r_handling r); [by destruct Hph|]. destruct Hph as (?&?&?&Ha&E).
    symmetry in E. apply Z.eqb_neq in E. split; [by split_and!|].
    destruct Ha as [[Hc _] _]. rewrite (core_count _ Hc) in E |- *.
    pose proof (filled_le (abs a)). rewrite abs_length in *. unfold len in *. lia.
Qed.

Lemma phase_asm a r : phase_ok cfg gh r → r_rx r = Some a → asm_ok a.
Proof.
  unfold phase_ok, rx_ok. intros Hph Hrx. rewrite Hrx in Hph. destruct (is_client _); [tauto|].
  destruct (r_handling r); [by destruct Hph as (_&?&_)|tauto].
Qed.

Lemma reserve_run c e :
  reserve cfg c e =
    if (c <? 0) || (c_MaxBufferedBytes cfg - s_BufferedBytes (e_stats e) <? c) then inl (false, e)
    else inl (true, set_e_stats (set_s_BufferedBytes (s_BufferedBytes (e_stats e) + c) (e_stats e)) e).
Proof. unfold reserve. m_unfold. by case_if. Qed.

(** The cell that receives its first packet. *)
Definition first_packet (a : assembly) (r : rpc) : rpc :=
  if is_client (r_key r) then set_r_tx [] (set_r_rx (Some a) r) else set_r_rx (Some a) r.

Lemma first_packet_receiving a r :
  phase_ok cfg gh r ∨ fresh r → r_received r = false → r_rx r = None → rx_ok cfg gh (r_key r) a →
  r_handling r = false ∧ receiving a (first_packet a r) ∧
  (is_client (r_key r) = false → r_tx r = []).
Proof.
  intros Hph Hrec Hrx Ha. unfold first_packet, receiving, phase_ok, fresh in *.
  rewrite Hrec, Hrx in *. destruct (is_client (r_key r)) eqn:Hc; cbn; rewrite ?Hc, ?Hrec.
  - destruct Hph as [(_&?&?&?)|[]]; [|done]. by split_and!.
  - destruct (r_handling r); [destruct Hph as [[]|(?&?&?&?&?)]; done|].
    destruct Hph as [(?&?&?&[])|(_&_&_&_&?&?&?)]. by split_and!.
Qed.

(** The fields of a packet that passed the checks of [data]. *)
Record valid_data (d : wire.Data) : Prop := {
  valid_ok : wire.data_ok d;
  valid_length : 0 < wire.d_MessageLength d ≤ c_MaxMessageSize cfg;
  valid_incoming : wire.d_Incoming d ≤ wire.d_MessageLength d;
  valid_payload : wire.d_Payload d ≠ [];
  valid_end : wire.EffectiveOffset d + len (wire.d_Payload d) ≤ wire.d_MessageLength d
}.

Lemma to_int_small z : 0 ≤ z ≤ MaxMessageSize → to_int z = z.
Proof. intros Hz. apply to_int_id. pose proof maxInt_lower. unfold MaxMessageSize in Hz. lia. Qed.

Lemma valid_ints d :
  valid_data d →
  to_int (wire.d_MessageLength d) = wire.d_MessageLength d ∧
  to_int (wire.d_Incoming d) = wire.d_Incoming d ∧
  to_int (wire.EffectiveOffset d) = wire.EffectiveOffset d ∧
  0 ≤ wire.d_Incoming d ∧ 0 ≤ wire.EffectiveOffset d.
Proof.
  intros []. pose proof (wire_facts.EffectiveOffset_u32 d valid_ok0) as [? ?].
  destruct valid_ok0 as (_&_&[? ?]&_). pose proof (ok_message cfg Hcfg).
  pose proof (len_nonneg (wire.d_Payload d)).
  split_and!; try lia; apply to_int_small; lia.
Qed.

Lemma base_rx r a : base_ok cfg gh r → base_ok cfg gh (set_r_rx a r).
Proof. by intros []; split. Qed.

Lemma base_no_tx r : base_ok cfg gh r → base_ok cfg gh (set_r_tx [] r).
Proof.
  pose proof (ok_message cfg Hcfg). intros []; split; cbn; rewrite ?len_nil; try done; try lia.
  apply Forall_nil_2.
Qed.

Lemma base_first_packet a r : base_ok cfg gh r → base_ok cfg gh (first_packet a r).
Proof. intros Hb. unfold first_packet. destruct (is_client _); auto using base_rx, base_no_tx. Qed.

Lemma first_packet_bytes a r :
  r_rx r = None → (is_client (r_key r) = false → r_tx r = []) →
  rpc_bytes (first_packet a r) - rpc_bytes r =
  len (a_data a) + len (a_bits a) + (if is_client (r_key r) then - len (r_tx r) else 0).
Proof.
  intros Hrx Htx. unfold first_packet, rpc_bytes, rx_bytes. rewrite Hrx.
  destruct (is_client (r_key r)); cbn [set_r_tx set_r_rx r_tx r_rx]; rewrite ?len_nil; [lia|].
  rewrite Htx by done. lia.
Qed.

Lemma odd_key key : (Z.land (k_id key) 1 =? 1) = negb (is_client key).
Proof. unfold is_client. rewrite land_1. by destruct (Z.even _). Qed.

Lemma even_key key : (Z.land (k_id key) 1 =? 0) = is_client key.
Proof. unfold is_client. rewrite land_1. by destruct (Z.even _). Qed.

Lemma first_packet_quiet p r a e c :
  e_heap e !! p = Some r →
  wp (store p (set_r_rx (Some a) r);;
      (if is_client (r_key r) then
         add_buffered (- len (r_tx r));; store p (set_r_tx [] (set_r_rx (Some a) r))
       else mret ()))
    (λ _ e', e' = upd_rpc p (first_packet a r) (c + if is_client (r_key r) then - len (r_tx r) else 0) e)
    (set_e_stats (set_s_BufferedBytes (s_BufferedBytes (e_stats e) + c) (e_stats e)) e).
Proof.
  intros Hr. unfold first_packet, store, upd_rpc. wp_steps. destruct (is_client (r_key r)).
  - unfold add_buffered, bump. wp_steps. cbn [set_e_heap set_e_stats e_heap].
    rewrite list_insert_insert_eq, Z.add_assoc. done.
  - wp_steps. by rewrite Z.add_0_r.
Qed.

Lemma wp_data_buffer n k p e d r :
  at_rpc n k p (λ r, phase_ok cfg gh r ∨ fresh r) e → valid_data d → e_heap e !! p = Some r →
  r_received r = false →
  wp (data_buffer cfg k p d) (λ o e', match o with
    | None => Inv n Idle e'
    | Some a => at_rpc n k p (receiving a) e' ∧ a_count a < len (a_data a)
    end) e.
Proof.
  intros Hat Hd Hr Hrec. destruct (valid_ints d Hd) as (En&Ei&_&Hi0&_).
  pose proof (ok_message cfg Hcfg) as Hmsg. destruct Hd as [_ Hlen Hinc _ _].
  destruct (Hat) as (Hinv&Hk&r0&Hr0&Ek&Hb&Hph). rewrite Hr in Hr0. injection Hr0 as <-.
  unfold data_buffer. wp_step. apply (wp_load Hr). rewrite En, Ei, odd_key, even_key.
  destruct (r_rx r) as [a|] eqn:Hrx.
  { wp_step. destruct Hph as [Hph|(_&?&_)]; [|congruence].
    destruct (phase_receiving a r Hph Hrx Hrec) as [Hrcv Hlt]. split; [|done].
    split; [done|]. split; [done|]. exists r. by split_and!. }
  set (n0 := wire.d_MessageLength d) in *. set (a := new_assembly n0 (wire.d_Incoming d)).
  destruct (new_assembly_ok n0 (wire.d_Incoming d)) as (Hok&Habs&Hl&Hbits); [lia|]. fold a in Hok, Hl, Hbits.
  assert (rx_ok cfg gh (r_key r) a) as Ha.
  { split; [done|]. split; [rewrite Hl; lia|]. intros i b. fold a in Habs. rewrite Habs.
    by intros [? _]%lookup_replicate. }
  destruct (first_packet_receiving a r Hph Hrec Hrx Ha) as (Hh&Hrcv&Htx).
  wp_step. unfold wp at 1. rewrite reserve_run. case_if; cbn [negb].
  - destruct (is_client k) eqn:Hc; cbn [negb]; wp_step; wp_steps.
    + destruct Hph as [Hph|(?&_)]; [|congruence]. eapply (at_rpc_settle n k p).
      split; [done|]. split; [done|]. exists r. by split_and!.
    + eapply wp_mono; [by apply (wp_remove cfg local gh n (Changing p) _ k)|].
      intros _ e' [Hi' He']. wp_step. by eapply ended_settle.
  - pose proof (first_packet_quiet p r a e (n0 + (n0 + 7) `quot` 8) Hr) as Hq.
    apply wp_bind_inv in Hq. wp_step. eapply wp_mono; [exact Hq|]. cbn beta. intros _ e1 Hq1.
    rewrite Ek in Hq1. wp_step. eapply wp_mono; [exact Hq1|]. intros _ e2 ->. wp_step.
    split; [|rewrite Hl; change (a_count a) with 0; lia].
    eapply at_rpc_upd; [exact Hat|done|..].
    + unfold first_packet. by destruct (is_client (r_key r)).
    + by apply base_first_packet.
    + done.
    + by left.
    + rewrite first_packet_bytes, Hl, Hbits, Ek by done. done.
    + pose proof (len_nonneg (r_tx r)). destruct (is_client k); lia.
Qed.

(** ** A complete message *)

Lemma settle_invalid n k p e :
  at_rpc n k p (phase_ok cfg gh) e → wp count_invalid (λ _ e', Inv n Idle e') e.
Proof.
  intros Hat. unfold count_invalid, bump. wp_step. eapply Inv_ext; [by eapply at_rpc_settle|..]; done.
Qed.

(** The state after a message became complete, before [received] is noted. *)
Lemma wp_data_complete n k p e peer a :
  at_rpc n k p (receiving a) e → a_count a = len (a_data a) →
  wp (data_complete cfg local peer k p a) (λ _ e', Inv n Idle e') e.
Proof.
  intros Hat Hfull. destruct (Hat) as (Hinv&Hk&r&Hr&Ek&Hb&(Hrx&Hrec&Hh&Hcn&Htx&Hs&Ha)).
  pose proof (at_rpc_key _ _ _ _ _ Hat) as Hkey. pose proof (inv_budget _ _ _ _ _ _ Hinv) as Hbud.
  pose proof (lookup_lt_Some _ _ _ Hr) as Hp.
  set (r1 := set_r_received true r). set (e1 := set_e_heap (<[p := r1]> (e_heap e)) e).
  assert (at_rpc n k p (λ r, r = r1) e1) as Hat1.
  { assert (at_rpc n k p (λ r, r = r1) (upd_rpc p r1 0 e)) as Hu.
    { eapply at_rpc_upd; [exact Hat|done|done|by destruct Hb; split|done|by left| |lia].
      unfold rpc_bytes, rx_bytes. cbn. lia. }
    eapply at_rpc_quiet; [exact Hu|eapply Inv_ext; [apply Hu|..]; try done|];
      unfold quiet, core; cbn; by rewrite Z.add_0_r. }
  destruct (Hat1) as (Hinv1&Hk1&_).
  assert (e_heap e1 !! p = Some r1) as Hr1 by (cbn; by rewrite list_lookup_insert_eq).
  unfold data_complete. wp_step. apply (wp_load Hr). cbn beta.
  wp_step. apply wp_store. fold r1 e1.
  rewrite even_key. destruct (is_client k) eqn:Hc.
  - wp_step. eapply wp_mono.
    { apply (wp_send cfg local gh n (Changing p)); [exact Hinv1| |lia]. rewrite Ek. by apply own_ack. }
    intros err e2 (_&Hq&Hinv2). pose proof (at_rpc_quiet _ _ _ _ _ _ Hat1 Hinv2 Hq) as Hat2.
    destruct (Hat2) as (_&_&r2&Hr2&_&Hb2&->). unfold store, add_buffered, count_completed, bump. wp_steps.
    set (r3 := set_r_rx (Some _) r1).
    assert (at_rpc n k p (λ r, r = r3) (upd_rpc p r3 (- len (a_data a)) e2)) as Hat3.
    { eapply at_rpc_upd; [exact Hat2|done|done|by apply base_rx|done|by right| |].
      - unfold rpc_bytes, rx_bytes, r3, r1. cbn -[len]. rewrite Hrx, Htx, len_nil. cbn -[len]. lia.
      - pose proof (inv_budget _ _ _ _ _ _ Hinv2). pose proof (len_nonneg (a_data a)). lia. }
    match goal with |- wp _ _ ?s => set (e3 := s) end.
    assert (quiet (upd_rpc p r3 (- len (a_data a)) e2) e3) as Hq3 by done.
    assert (Inv n (Changing p) e3) as Hinv3 by (eapply Inv_ext; [apply Hat3|done..]).
    pose proof (at_rpc_quiet _ _ _ _ _ _ Hat3 Hinv3 Hq3) as Hat4.
    eapply wp_mono; [apply (wp_finish cfg local gh n (Changing p) e3 k p); [apply Hat4..|]|].
    { intros _. rewrite Ek in Ha. by eapply complete_message. }
    intros _ e4 [Hi4 He4]. by eapply ended_settle.
  - assert (is_client (r_key r) = false) as Hc' by by rewrite Ek.
    assert (Inv n Idle e1) as Hidle.
    { eapply (at_rpc_settle n k p), at_rpc_mono; [exact Hat1|]. intros ? _ ->.
      unfold phase_ok. cbn -[is_client]. rewrite Hc', Hh, Hrx, Htx, Hcn, Hs by congruence.
      by rewrite (proj2 (Z.eqb_eq _ _) Hfull). }
    wp_step. eapply wp_mono; [by apply (wp_startHandler cfg local gh n e1 k p r1)|].
    intros _ e2 (Hi2&_). by apply wp_schedule.
Qed.
(** ** A DATA packet *)

Lemma phase_fresh_timeless : timeless (λ r, phase_ok cfg gh r ∨ fresh r).
Proof. intros l c r Hr. exact Hr. Qed.

(** The bytes of a packet for [k] may arrive. *)
Definition arrives (k : rpcKey) (d : wire.Data) : Prop :=
  ∀ i b, wire.d_Payload d !! i = Some b →
    g_rx gh k (wire.d_MessageLength d) (Z.to_nat (wire.EffectiveOffset d) + i) b.

Lemma accepted_partial k a a' d :
  partial_ok gh k a → arrives k d → len (a_data a) = wire.d_MessageLength d →
  abs a' = fill_all (abs a) (Z.to_nat (wire.EffectiveOffset d)) (wire.d_Payload d) →
  length (a_data a') = length (a_data a) → partial_ok gh k a'.
Proof.
  intros Hpart Harr Hlen Habs Hld i b. rewrite Habs, fill_all_lookup.
  assert (len (a_data a') = len (a_data a)) as -> by (unfold len; by rewrite Hld).
  destruct (abs a !! i) as [[x|]|] eqn:Hi; [intros [= <-]; by apply Hpart| |done].
  case_decide as Hin; [|done]. intros [= Hb]. rewrite Hlen.
  replace i with (Z.to_nat (wire.EffectiveOffset d) + (i - Z.to_nat (wire.EffectiveOffset d)))%nat by lia.
  by apply Harr.
Qed.

(** Storing the bytes of a valid segment. *)
Lemma wp_data_accept n k p e peer d a :
  at_rpc n k p (receiving a) e → a_count a < len (a_data a) → valid_data d → arrives k d →
  wp (if negb (len (a_data a) =? to_int (wire.d_MessageLength d)) then count_invalid else
      let start := to_int (wire.EffectiveOffset d) in
      accepted ← or_panic (accept a start (wire.d_Payload d) (to_int (wire.d_Incoming d)));
      match accepted with
      | None => count_invalid
      | Some a =>
          r ← load p;
          store p (set_r_rx (Some a) r);;
          if negb (a_count a =? len (a_data a)) then schedule cfg local
          else data_complete cfg local peer k p a
      end) (λ _ e', Inv n Idle e') e.
Proof.
  intros Hat Hlt Hd Harr. destruct (valid_ints d Hd) as (En&Ei&Eo&Hi0&Ho0). destruct Hd.
  assert (at_rpc n k p (phase_ok cfg gh) e) as Hph.
  { eapply at_rpc_mono; [exact Hat|]. intros r _ Hr. by eapply receiving_phase. }
  rewrite En, Ei, Eo. case_if; [by eapply settle_invalid|]. cbn zeta.
  destruct (Hat) as (Hinv&Hk&r&Hr&Ek&Hb&Hrcv).
  destruct (Hrcv) as (Hrx&Hrec&Hh&Hcn&Htx&Hs&(Ha&Hal&Hpart)).
  rewrite <- (Z2Nat.id (wire.EffectiveOffset d)) by done.
  destruct (accept_spec a (Z.to_nat (wire.EffectiveOffset d)) (wire.d_Payload d) (wire.d_Incoming d))
    as [[_ Eacc]|[_ (a'&Eacc&Ha'&Habs&Hld&Hlb&_)]]; try done; [unfold len in *; lia|lia| |];
    rewrite Eacc; wp_steps; cbn [mret]; (eapply wp_or_panic; [done|]).
  { by eapply settle_invalid. }
  cbv beta iota. wp_step. apply (wp_load Hr). wp_step. apply wp_store.
  assert (at_rpc n k p (receiving a') (set_e_heap (<[p := set_r_rx (Some a') r]> (e_heap e)) e)) as Hat'.
  { assert (at_rpc n k p (receiving a') (upd_rpc p (set_r_rx (Some a') r) 0 e)) as Hu.
    { eapply at_rpc_upd; [exact Hat|done|done|by apply base_rx| |by left| |].
      - unfold receiving, rx_ok. cbn -[is_client]. unfold len in *. rewrite Hld.
        split_and!; try done; try lia. eapply accepted_partial; try done. by rewrite Ek.
      - unfold rpc_bytes, rx_bytes, len. cbn. rewrite Hrx, Hld, Hlb. lia.
      - pose proof (inv_budget _ _ _ _ _ _ Hinv). lia. }
    eapply at_rpc_quiet; [exact Hu|eapply Inv_ext; [apply Hu|..]; try done|];
      unfold quiet, core; cbn; by rewrite Z.add_0_r. }
  destruct (Z.eqb_spec (a_count a') (len (a_data a'))) as [Hfull|Hnot]; cbn [negb].
  - by apply wp_data_complete.
  - apply wp_schedule; try done. eapply (at_rpc_settle n k p), at_rpc_mono; [exact Hat'|].
    intros r' _ Hr'. eapply receiving_phase; [done|].
    destruct Hr' as (_&_&_&_&_&_&[[Hc _] _]). rewrite (core_count _ Hc) in Hnot |- *.
    pose proof (filled_le (abs a')). rewrite abs_length in *. unfold len in *. lia.
Qed.

Lemma wp_data n e peer key d :
  Inv n Idle e → e_closed e = false → key_ok key → wire.data_ok d → len (wire.d_Payload d) < 2 ^ 63 →
  arrives key d →
  wp (data cfg local handler peer key d) (λ _ e', Inv n Idle e') e.
Proof.
  intros Hinv Hcl Hkey Hok Hpl Harr. pose proof (ok_message cfg Hcfg) as Hmsg. unfold data.
  case_if; [by unfold count_invalid, bump; wp_step; eapply Inv_ext|].
  assert (valid_data d) as Hd.
  { apply bool_decide_eq_false, dec_stable in H0. apply wire_facts.ValidateBounds_spec in H0 as [Hl He]; [|done..].
    rewrite u32_id in Hl by (unfold is_u32, MaxMessageSize in *; lia).
    split; try done. by rewrite <- len_zero. }
  wp_step. eapply wp_mono; [by apply (wp_ack cfg local gh n Idle)|]. intros _ e1 (Hinv1&Hcl1&_).
  wp_step. eapply wp_mono; [by apply wp_data_rpc; [done|congruence|]|].
  intros [p|] e2 Hat; [|by wp_step].
  wp_step. eapply wp_mono; [apply wp_data_cutoffs; [exact Hat|apply phase_fresh_timeless]|].
  intros [] e3 Hat3. destruct (Hat3) as (Hinv3&Hk3&r&Hr&Ek&Hb&Hph).
  wp_step. apply (wp_load Hr). destruct (r_received r) eqn:Hrec.
  { wp_step. apply (at_rpc_settle n key p). split; [done|]. split; [done|]. exists r. split_and!; try done.
    destruct Hph as [|(_&_&?&_)]; [done|congruence]. }
  wp_step. eapply wp_mono; [by eapply wp_data_buffer|]. intros [a|] e4; [|by intros; wp_step].
  intros [Hat4 Hlt]. by apply wp_data_accept.
Qed.

(** ** Grants and retransmission requests *)

(** A new transmission window for a message being sent. *)
Lemma Inv_window n e k p r granted priority :
  Inv n Idle e → e_rpcs e !! k = Some p → e_heap e !! p = Some r → r_tx r ≠ [] →
  0 ≤ granted ≤ len (r_tx r) → 0 ≤ priority ≤ 7 →
  Inv n Idle (set_e_heap (<[p := set_r_priority priority (set_r_granted granted r)]> (e_heap e)) e).
Proof.
  intros Hinv Hk Hr Htx Hg Hp.
  assert (Inv n Idle (upd_rpc p (set_r_priority priority (set_r_granted granted r)) 0 e)) as Hi.
  { eapply Inv_upd; [done..| | |].
    - split; [done| |done|].
      + intros []. split; try done; cbn; [lia|]. intros _. split; [by apply base_tx|lia].
      + intros _ (pl&rr&Hrr&_&_&?&_). cbn in Hrr. congruence.
    - unfold rpc_bytes, rx_bytes. cbn. lia.
    - pose proof (inv_budget _ _ _ _ _ _ Hinv). lia. }
  eapply Inv_ext; [exact Hi|..]; try done. unfold quiet, core. cbn. by rewrite Z.add_0_r.
Qed.

Lemma live_tx n e k p :
  Inv n Idle e → e_rpcs e !! k = Some p →
  key_ok k ∧ ∃ r, e_heap e !! p = Some r ∧ r_key r = k ∧ base_ok cfg gh r ∧ phase_ok cfg gh r.
Proof.
  intros Hinv Hk. destruct (inv_keys _ _ _ _ _ _ Hinv _ _ Hk) as (?&r&?&?&?&Hph).
  split; [done|]. exists r. split_and!; try done. by apply Hph.
Qed.

Lemma wp_receive_grant n e k p v :
  Inv n Idle e → e_rpcs e !! k = Some p → is_u8 (wire.g_Priority v) →
  wp (receive_grant cfg local p v) (λ _ e', Inv n Idle e') e.
Proof.
  intros Hinv Hk Hpr. destruct (live_tx _ _ _ _ Hinv Hk) as (_&r&Hr&Ek&Hb&_).
  pose proof (lookup_lt_Some _ _ _ Hr) as Hlt. pose proof (base_granted _ _ _ Hb) as Hg0.
  unfold receive_grant. wp_step. apply (wp_load Hr). case_if; [by wp_step|].
  case_if; [|by wp_step]. wp_step. apply wp_store.
  assert (r_tx r ≠ []) as Htx by (rewrite <- len_zero; tauto).
  pose proof (proj2 (len_pos (r_tx r)) Htx).
  set (e1 := set_e_heap _ e). assert (Inv n Idle e1) as Hinv1.
  { apply (Inv_window n e k); try done; [lia|]. destruct Hpr. lia. }
  wp_step. eapply wp_mono; [eapply (wp_sendNew cfg local gh); try done|].
  { cbn. by rewrite list_lookup_insert_eq. }
  intros err e2 (->&Hi&_). by wp_step.
Qed.

Lemma wp_receive_resend n e k p v :
  Inv n Idle e → e_rpcs e !! k = Some p → is_u32 (wire.rs_Offset v) → is_u32 (wire.rs_Length v) →
  0 ≤ wire.rs_Priority v ≤ 7 →
  wp (receive_resend cfg local p v) (λ _ e', Inv n Idle e') e.
Proof.
  intros Hinv Hk Hoff Hlen Hpr. destruct (live_tx _ _ _ _ Hinv Hk) as (Hkey&r&Hr&Ek&Hb&_).
  pose proof (lookup_lt_Some _ _ _ Hr) as Hlt. pose proof (ok_message cfg Hcfg) as Hmsg.
  assert (∀ e, Inv n Idle e →
    wp (_ ← control local k wire.BusyType; mret ()) (λ _ e', Inv n Idle e') e) as Hbusy.
  { intros e0 Hi. wp_step. eapply wp_mono; [apply (wp_control cfg local gh Hlocal n Idle); try done|].
    { by right; left. }
    intros _ e' [_ ?]. by wp_step. }
  unfold receive_resend. wp_step. apply (wp_load Hr). rewrite Ek.
  case_if; [by apply Hbusy|]. case_if; [by apply Hbusy|].
  assert (r_tx r ≠ []) as Htx by (by rewrite <- len_zero).
  destruct (base_tx _ _ _ Hb Htx) as [Hs Hg]. pose proof (base_len _ _ _ Hb) as Hl.
  pose proof (base_sent _ _ _ Hb) as Hs0.
  unfold is_u32 in Hoff, Hlen.
  set (end_ := if negb _ then _ else _).
  assert (0 ≤ end_ ≤ len (r_tx r)) as Hend.
  { unfold end_. case_if; [|lia]. rewrite u64_id by (unfold is_u64; lia).
    rewrite to_int_small by lia. lia. }
  clearbody end_. rewrite to_int_small by lia.
  wp_step. eapply wp_mono; [eapply (wp_resend cfg local gh); try done; lia|].
  intros _ e1 [Hinv1 Hq]. unfold quiet, core in Hq. injection Hq as E1 E2 _ _ _ _ _ _ _ _ _ _.
  assert (e_heap e1 !! p = Some r) as Hr1 by by rewrite E2.
  assert (e_rpcs e1 !! k = Some p) as Hk1 by by rewrite E1.
  wp_step. apply (wp_load Hr1). wp_step.
  match goal with |- wp ?m ?Q e1 =>
    enough (wp m (λ _ e2, Inv n Idle e2 ∧ ∃ r2, e_heap e2 !! p = Some r2 ∧ r_key r2 = k) e1) as Hmid end.
  { eapply wp_mono; [exact Hmid|]. intros _ e2 (Hi2&r2&Hr2&Ek2). wp_step. apply (wp_load Hr2).
    rewrite Ek2. case_if; [by apply Hbusy|by wp_step]. }
  case_if; [|wp_step; split; [done|eauto]]. wp_step. apply wp_store.
  set (e2 := set_e_heap _ e1).
  assert (Inv n Idle e2) as Hinv2 by (apply (Inv_window n e1 k); (done || lia)).
  wp_step. eapply wp_mono; [eapply (wp_sendNew cfg local gh); try done|].
  { cbn. rewrite list_lookup_insert_eq; [done|]. by rewrite E2. }
  intros err e3 (_&Hi&s&Hq). unfold quiet, core in Hq. injection Hq as _ E4 _ _ _ _ _ _ _ _ _ _.
  wp_step. split; [done|]. eexists. split.
  - rewrite E4. cbn. rewrite list_lookup_insert_eq; [done|]. by rewrite length_insert, E2.
  - done.
Qed.

(** ** The cutoffs of a peer *)

Lemma unsched_loop_range values m i :
  length values = 8%nat → (i ≤ 8)%nat → ∃ v, unsched_loop values m i = Some v ∧ 0 ≤ v ≤ 7.
Proof.
  intros Hl. induction i as [|i IH]; intros Hi; cbn [unsched_loop]; [by exists 0|].
  destruct (idx_ok values (Z.of_nat i)) as [x ->]; [unfold len; lia|]. cbn [mbind option_bind].
  case_if; [|apply IH; lia]. exists (u8 (Z.of_nat i)). split; [done|].
  rewrite u8_id by (unfold is_u8; lia). lia.
Qed.

Lemma unsched_loop_spec values m i v :
  length values = 8%nat → is_u32 m → (i ≤ 8)%nat → unsched_loop values m i = Some v →
  (∀ j x, v < Z.of_nat j → (j < i)%nat → values !! j = Some x → x < m) ∧
  (v ≠ 0 → ∃ x, values !! Z.to_nat v = Some x ∧ m ≤ x).
Proof.
  intros Hl Hm. induction i as [|i IH]; intros Hi; cbn [unsched_loop].
  { intros [= <-]. split; [lia|done]. }
  unfold idx. rewrite (proj2 (Z.ltb_ge _ _)), Nat2Z.id, (u32_id m) by (done || lia).
  destruct (lookup_lt_is_Some_2 values i) as [x Hx]; [lia|]. rewrite Hx. cbn [mbind option_bind].
  rewrite u8_id by (unfold is_u8; lia). case_if.
  - intros [= <-]. rewrite Nat2Z.id. split; [lia|]. intros _. by exists x.
  - intros Hloop. destruct (IH ltac:(lia) Hloop) as [H1 H2]. split; [|done].
    intros j y Hj Hji Hy. destruct (decide (j = i)) as [->|]; [|apply (H1 j); (done || lia)].
    rewrite Hx in Hy. injection Hy as <-. lia.
Qed.

Lemma unsched_run n x e ip m :
  Inv n x e → ∃ v, unsched ip m e = inl (v, e) ∧ 0 ≤ v ≤ 7.
Proof.
  intros Hinv. unfold unsched. m_unfold.
  assert (length (match e_cutoffs e !! ip with Some c => ct_values c | None => defaultCutoffs end) = 8%nat) as Hl.
  { destruct (e_cutoffs e !! ip) as [c|] eqn:Hc; [|done].
    by destruct (inv_cutoffs _ _ _ _ _ _ Hinv _ _ Hc). }
  destruct (unsched_loop_range _ m 8 Hl) as (v&->&Hv); [lia|]. by exists v.
Qed.

Lemma Inv_set_cutoffs n e ip c :
  Inv n Idle e → length (ct_values c) = 8%nat → is_u16 (ct_version c) →
  is_Some (e_cutoffs e !! ip) ∨ Z.of_nat (size (e_cutoffs e)) < c_MaxRPCs cfg →
  Inv n Idle (set_e_cutoffs (<[ip := c]> (e_cutoffs e)) e).
Proof.
  intros [] Hl Hv Hroom. split; cbn [set_e_cutoffs e_rpcs e_heap e_cutoffs e_nextID e_stats e_closed
    e_done e_workers e_outbound e_wake e_running e_callers e_writer e_io_closed]; try done.
  - intros ip' c' [[<- <-]|[_ Hc]]%lookup_insert_Some; [done|by eapply inv_cutoffs].
  - rewrite map_size_insert. destruct Hroom as [[c' ->]|]; [done|].
    destruct (e_cutoffs e !! ip); cbn; lia.
  - etransitivity; [exact inv_past|]. by apply evolves_same.
Qed.

(** ** Dispatch *)

Lemma wp_send_ack n e peer key :
  Inv n Idle e → key_ok key →
  wp (_ ← send peer (wire.PAck {| wire.ak_Common := common local key wire.AckType;
        wire.ak_NumAcks := 0; wire.ak_Acks := replicate wire.MaxAcks
          {| wire.ar_ClientID := 0; wire.ar_ServerPort := 0 |} |}) 7; mret ())
    (λ _ e', Inv n Idle e') e.
Proof.
  intros Hinv Hk. wp_step.
  eapply wp_mono; [apply (wp_send cfg local gh n Idle); [done|by apply own_ack|lia]|].
  intros _ e' (_&_&?). by wp_step.
Qed.

Lemma wp_touch n e k p :
  Inv n Idle e → e_rpcs e !! k = Some p →
  wp (touch p) (λ _ e', Inv n Idle e' ∧ e_rpcs e' = e_rpcs e ∧ e_closed e' = e_closed e) e.
Proof.
  intros Hinv Hk. destruct (live_tx _ _ _ _ Hinv Hk) as (_&r&Hr&_).
  unfold touch. wp_step. apply (wp_time_Now cfg local gh n Idle); [done|]. intros now Hinv1.
  wp_step. apply (wp_load (r := r)); [done|]. apply wp_store.
  split; [|done]. apply (Inv_stamped cfg local gh n Idle _ p r now (r_lastCutoff r)); done.
Qed.

Lemma wp_receive_unknown n e k p ip :
  Inv n Idle e → e_rpcs e !! k = Some p →
  wp (o ← load p;
      if Z.land (k_id (r_key o)) 1 =? 1 then remove p
      else if negb (bool_decide (is_Some (r_rx o))) && negb (r_received o) then
        priority ← unsched ip (len (r_tx o));
        resend cfg local p 0 (r_sent o) priority
      else mret ()) (λ _ e', Inv n Idle e') e.
Proof.
  intros Hinv Hk. destruct (live_tx _ _ _ _ Hinv Hk) as (_&r&Hr&Ek&Hb&Hph).
  wp_step. apply (wp_load Hr). rewrite odd_key, Ek. destruct (is_client k) eqn:Hc; cbn [negb].
  - case_if; [|by wp_step]. unfold phase_ok in Hph. rewrite Ek, Hc in Hph.
    destruct Hph as (_&_&_&Hrx). destruct (r_rx r) as [a|] eqn:Erx.
    { by rewrite bool_decide_eq_true_2 in H0. }
    destruct (unsched_run n Idle e ip (len (r_tx r)) Hinv) as (v&E&Hv).
    wp_step. eapply wp_intro; [exact E|]. cbn beta.
    eapply wp_mono; [eapply (wp_resend cfg local gh); try done; lia|]. by intros _ e' [? _].
  - eapply wp_mono; [by apply (wp_remove cfg local gh n Idle _ k)|]. by intros _ e' [? _].
Qed.

Lemma wp_receive_acks n e ip key found v :
  Inv n Idle e → e_rpcs e !! key = found → wire.packet_ok (wire.PAck v) →
  wire.ak_NumAcks v ≤ Z.of_nat wire.MaxAcks →
  wp (if negb (Z.land (k_id key) 1 =? 1) then mret () else
      match found with Some r => remove r | None => mret () end;;
      acks ← or_panic (slice (wire.ak_Acks v) 0 (wire.ak_NumAcks v));
      for_each acks (ack local ip)) (λ _ e', Inv n Idle e') e.
Proof.
  intros Hinv Hf (_&[Hn0 _]&[Hl _]) Hn. rewrite odd_key. case_if; [by wp_step|].
  wp_step. eapply (wp_mono _ (λ _ e', Inv n Idle e')).
  - destruct found as [p|]; [|by wp_step].
    eapply wp_mono; [by apply (wp_remove cfg local gh n Idle _ key)|]. by intros _ e' [? _].
  - intros _ e1 Hinv1. wp_step. rewrite slice_ok by (unfold len; lia). eapply wp_or_panic; [done|].
    apply (wp_for_each (Inv n Idle)); [done|]. intros a e2 _ Hinv2.
    eapply wp_mono; [by apply (wp_ack cfg local gh n Idle)|]. by intros _ e' [? _].
Qed.

Lemma maxInt_upper : maxInt < 2 ^ 63.
Proof. unfold maxInt. destruct int_bits_ok as [-> | ->]; by vm_compute. Qed.

(** The RPC that [receive] found, after its time stamp was renewed. *)
Lemma wp_receive_touch n e key (b : bool) :
  Inv n Idle e →
  wp (match e_rpcs e !! key with Some r => if b then touch r else mret () | None => mret () end)
    (λ _ e', Inv n Idle e' ∧ e_rpcs e' = e_rpcs e ∧ e_closed e' = e_closed e) e.
Proof.
  intros Hinv. destruct (e_rpcs e !! key) as [p|] eqn:Hk; [|by wp_step].
  destruct b; [by eapply wp_touch|by wp_step].
Qed.

Lemma wp_receive_needack n e peer key :
  Inv n Idle e → key_ok key →
  wp (if negb (Z.land (k_id key) 1 =? 0) then mret () else
      done_ ← match e_rpcs e !! key with
              | None => mret true
              | Some r => o ← load r; mret (r_received o)
              end;
      match e_rpcs e !! key with
      | Some r =>
          if (done_ : bool) then
            _ ← send peer (wire.PAck {| wire.ak_Common := common local key wire.AckType;
              wire.ak_NumAcks := 0; wire.ak_Acks := replicate wire.MaxAcks
                {| wire.ar_ClientID := 0; wire.ar_ServerPort := 0 |} |}) 7; mret ()
          else requestMissing local r
      | None =>
          _ ← send peer (wire.PAck {| wire.ak_Common := common local key wire.AckType;
            wire.ak_NumAcks := 0; wire.ak_Acks := replicate wire.MaxAcks
              {| wire.ar_ClientID := 0; wire.ar_ServerPort := 0 |} |}) 7; mret ()
      end) (λ _ e', Inv n Idle e') e.
Proof.
  intros Hinv Hkey. rewrite even_key. case_if; [by wp_step|].
  destruct (e_rpcs e !! key) as [p|] eqn:Hk; cycle 1.
  { do 2 wp_step. by apply wp_send_ack. }
  destruct (live_tx _ _ _ _ Hinv Hk) as (_&r&Hr&Ek&_&Hph). do 2 wp_step. apply (wp_load Hr). wp_step.
  destruct (r_received r) eqn:Hrec; [by apply wp_send_ack|].
  eapply wp_mono; [apply (wp_requestMissing cfg local gh Hlocal n Idle _ p r); try done; [congruence|]|
    by intros _ e' [_ ?]].
  intros a Ha. destruct (phase_receiving a r Hph Ha Hrec) as [(_&_&_&_&_&_&[? _]) _]. done.
Qed.

(** A packet from [ip] brings what may arrive. *)
Definition packet_arrives (ip : IPAddr) (w : wire.Packet) : Prop :=
  ∀ d, w = wire.PData d → wire.h_DestinationPort (wire.d_Common d) = Port local →
    arrives {| k_peer := {| IP := ip; Port := wire.h_SourcePort (wire.d_Common d) |};
               k_id := wire.LocalID (wire.d_Common d) |} d.

Lemma wp_receive n e ip w :
  Inv n Idle e → e_closed e = false → wire.packet_ok w → wire.marshalable w → packet_arrives ip w →
  wp (receive cfg local handler ip w) (λ _ e', Inv n Idle e') e.
Proof.
  intros Hinv Hcl Hok Hm Harr. unfold receive. case_if; [by wp_step|].
  pose proof (wire_facts.packet_ok_header w Hok) as (Hsrc&_&_&_&_&_&_&_&_&_&Hid).
  set (key := {| k_peer := {| IP := ip; Port := wire.h_SourcePort (wire.Header w) |};
                 k_id := wire.LocalID (wire.Header w) |}).
  assert (key_ok key) as Hkey by (split; [done|by apply is_u64_lxor_1]).
  unfold lookup_rpc. do 5 wp_step.
  eapply wp_mono; [by apply wp_receive_touch|]. intros _ e1 (Hinv1&Erpcs&Ecl).
  rewrite Hcl in Ecl. rewrite <- Erpcs. clear Hinv Hcl Erpcs e.
  destruct w as [v|v|v|v|v|v|v|v|v|v|v]; try by wp_step.
  - destruct Hm as [_ Hl]. pose proof maxInt_upper. unfold wire.DataSize in Hl. apply wp_data; try (done || lia).
    apply Harr; [done|]. cbn in *. lia.
  - destruct (e_rpcs e1 !! key) as [p|] eqn:Hk; [|by wp_step].
    eapply wp_receive_grant; [done..|]. by destruct Hok as (_&_&?).
  - destruct Hok as (_&?&?&[? _]). case_if; [by wp_step|].
    destruct (e_rpcs e1 !! key) as [p|] eqn:Hk; [by eapply wp_receive_resend|].
    wp_step. eapply wp_mono; [apply (wp_control cfg local gh Hlocal n Idle); try done; by left|].
    intros _ e2 [_ ?]. by wp_step.
  - destruct (e_rpcs e1 !! key) as [p|] eqn:Hk; [|by wp_step]. by apply (wp_receive_unknown n e1 key).
  - wp_steps. case_if; [|by wp_step]. wp_step. destruct Hok as (_&[? _]&?).
    apply Inv_set_cutoffs; try done. destruct E as [Hb|Hb]; [left|right; lia].
    by apply bool_decide_eq_true in Hb.
  - by apply wp_receive_needack.
  - destruct Hm as [_ ?]. by apply wp_receive_acks.
Qed.
End recv.
