(* ===== verification/EndpointTimer.v ===== *)
(** * The timer

    [timerLoop] visits every live RPC: it ends those past their deadline, starts
    requests that wait for a worker and asks peers for what is missing.  After a
    tick no live RPC is past its deadline. *)
From S2P Require Import Prelude Wire WireFacts Assembly AssemblyFacts Api.
From S2P Require Import EndpointState Endpoint EndpointInv EndpointSend EndpointOps EndpointRecv.

#[local] Open Scope Z_scope.

Section iteration.
Context `{GoRuntime} (cfg : Config) (local : Addr) (handler : bool) (gh : ghost).
Context (Hcfg : config_ok cfg) (Hlocal : is_u16 (Port local)).
#[local] Abbreviation Inv := (Inv cfg local gh).

(** ** Iteration over the live RPCs *)

Lemma wp_for_rpcs (I : Endpoint → Prop) body e :
  (∀ e, I e → I (set_e_ticks (S (e_ticks e)) e)) → I e →
  (∀ k p e, I e → e_rpcs e !! k = Some p → wp (body k p) (λ _, I) e) →
  wp (for_rpcs body) (λ _, I) e.
Proof.
  intros Ht He Hbody. unfold for_rpcs, range_rpcs. wp_steps.
  apply wp_for_each; [by apply Ht|]. intros [k p] e' _ He'. wp_steps.
  case_bool_decide; [by apply Hbody|by wp_step].
Qed.

Lemma Inv_tick n x e : Inv n x e → Inv n x (set_e_ticks (S (e_ticks e)) e).
Proof. intros Hinv. by eapply Inv_ext. Qed.

(** ** The timer *)

(** Sending leaves the RPCs and the callers alone. *)
Lemma quiet_rpcs e e' : quiet e e' → e_rpcs e' = e_rpcs e ∧ e_callers e' = e_callers e.
Proof. unfold quiet, core. split; congruence. Qed.

(** The last part of the loop body: what to ask the peer of [p] for. *)
Lemma wp_timer_ask n e k p r now :
  Inv n Idle e → e_heap e !! p = Some r → r_key r = k → key_ok k →
  e_rpcs e !! k = Some p ∨ r_rx r = None →
  wp (store p (set_r_last now r);;
      if (Z.land (k_id (r_key r)) 1 =? 1) && (0 <? len (r_tx r)) && (r_sent r =? len (r_tx r)) then
        _ ← control local (r_key r) wire.NeedAckType; mret ()
      else if bool_decide (is_Some (r_rx r)) then requestMissing local p
      else if (Z.land (k_id (r_key r)) 1 =? 0) && negb (r_received r) then requestMissing local p
      else mret ()) (λ _ e', Inv n Idle e' ∧ e_rpcs e' = e_rpcs e ∧ e_callers e' = e_callers e) e.
Proof.
  intros Hinv Hr Ek Hkey Hl. wp_step. apply wp_store.
  set (r2 := set_r_last now r). set (e2 := set_e_heap _ e).
  assert (Inv n Idle e2) as Hinv2
    by exact (Inv_stamped cfg local gh n Idle e p r now (r_lastCutoff r) Hinv Hr).
  assert (e_heap e2 !! p = Some r2) as Hr2
    by (cbn; by rewrite list_lookup_insert_eq by by eapply lookup_lt_Some).
  assert (wp (requestMissing local p) (λ _ e', Inv n Idle e' ∧ e_rpcs e' = e_rpcs e ∧ e_callers e' = e_callers e) e2)
    as Hreq.
  { eapply wp_mono; [apply (wp_requestMissing cfg local gh Hlocal n Idle e2 p r2); try done;
      [by rewrite <- Ek in Hkey|]|by intros _ e' [[? ?]%quiet_rpcs ?]].
    intros a Ha. destruct Hl as [Hl|Hl]; [|change (r_rx r2) with (r_rx r) in Ha; congruence].
    destruct (live_tx _ _ _ _ _ _ _ Hinv2 Hl) as (_&r3&Hr3&_&_&Hph3).
    rewrite Hr2 in Hr3. injection Hr3 as <-. by eapply phase_asm. }
  case_if; [|case_if; [done|case_if; [done|by wp_step]]].
  wp_step. eapply wp_mono; [apply (wp_control cfg local gh Hlocal n Idle); try done|].
  { by rewrite Ek. }
  { by do 3 right; left. }
  intros _ e3 [[? ?]%quiet_rpcs ?]. by wp_step.
Qed.

(** The timer ends an RPC whose deadline has passed. *)
Lemma wp_timer_rpc n e k p r now :
  Inv n Idle e → e_rpcs e !! k = Some p → e_heap e !! p = Some r →
  wp (timer_rpc cfg local now p) (λ _ e', Inv n Idle e' ∧ e_rpcs e' ⊆ e_rpcs e ∧
    (e_rpcs e' !! k = Some p → now < r_deadline r) ∧ e_callers e' = e_callers e) e.
Proof.
  intros Hinv Hk Hr. pose proof (Inv_key _ _ _ _ _ _ _ _ _ Hinv Hk Hr) as Ek.
  destruct (inv_keys _ _ _ _ _ _ Hinv _ _ Hk) as (Hkey&_).
  unfold timer_rpc. wp_step. apply (wp_load Hr). case_if.
  { eapply wp_mono; [by apply (wp_finish cfg local gh n Idle _ k)|]. intros _ e' [? He]. split; [done|].
    rewrite (ae_rpcs _ _ _ _ He). split; [apply delete_subseteq|]. split; [by rewrite lookup_delete_eq|].
    pose proof (ae_rest _ _ _ _ He) as Hrest. by injection Hrest. }
  wp_step. eapply (wp_mono _ (λ _ e', Inv n Idle e' ∧ (e_rpcs e' ⊆ e_rpcs e ∧ e_callers e' = e_callers e) ∧
    ∃ r', e_heap e' !! p = Some r' ∧ r_key r' = k ∧ (e_rpcs e' !! k = Some p ∨ r_rx r' = None))).
  { rewrite odd_key, Ek. case_if; [|wp_step; eauto 10].
    eapply wp_mono; [by eapply (wp_startHandler cfg local gh n e k p r)|].
    intros _ e' (?&[Hm ?]&?). split; [done|]. split; [|done]. split; [|done].
    destruct Hm as [-> | ->]; [done|apply delete_subseteq]. }
  intros _ e1 (Hinv1&[Hsub Hcs]&r1&Hr1&Ek1&Hl1). wp_step. apply (wp_load Hr1). case_if; [by wp_step|].
  eapply wp_mono; [by apply (wp_timer_ask n e1 k)|]. intros _ e2 (?&->&->). done.
Qed.

Lemma Inv_rebase n x e : Inv n x e → EndpointInv.Inv cfg local (rebase gh e) n x e.
Proof. intros Hinv. by apply (Inv_weaken_ghost cfg local gh). Qed.

(** No live RPC among those visited is past its deadline. *)
Definition in_time (now : Z) (e : Endpoint) (p : loc) : Prop :=
  ∀ r, e_heap e !! p = Some r → now < r_deadline r.

End iteration.

Section timer.
Context `{GoRuntime} (cfg : Config) (local : Addr).
Context (Hcfg : config_ok cfg) (Hlocal : is_u16 (Port local)).

Lemma evolves_in_time now e e' k p gh n :
  Inv cfg local gh n Idle e → evolves e e' → e_rpcs e !! k = Some p → in_time now e p → in_time now e' p.
Proof.
  intros Hinv Hev Hk Ht r' Hr'. destruct (inv_keys _ _ _ _ _ _ Hinv _ _ Hk) as (_&r&Hr&_).
  destruct (ev_cells _ _ Hev _ _ Hr) as (r''&Hr''&_&Hd&_). rewrite Hr' in Hr''. injection Hr'' as <-.
  rewrite Hd. by apply Ht.
Qed.

(** Two specifications of one run. *)
Lemma wp_and {S A} (m : M S A) (P Q : A → S → Prop) s :
  wp m P s → wp m Q s → wp m (λ a s', P a s' ∧ Q a s') s.
Proof. unfold wp. by destruct (m s) as [[]|]. Qed.

Lemma wp_timer_all gh n entries now e :
  Inv cfg local gh n Idle e →
  (∀ k p, e_rpcs e !! k = Some p → (k, p) ∈ entries ∨ in_time now e p) →
  wp (for_each entries (λ '(k, p), e ← get;
        if bool_decide (e_rpcs e !! k = Some p) then timer_rpc cfg local now p else mret ()))
    (λ _ e', Inv cfg local gh n Idle e' ∧ e_callers e' = e_callers e ∧
       ∀ k p, e_rpcs e' !! k = Some p → in_time now e' p) e.
Proof.
  revert e. induction entries as [|[k p] entries IH]; intros e Hinv Hleft; cbn [for_each].
  { wp_step. split; [done|]. split; [done|]. intros k p Hk. destruct (Hleft k p Hk) as [?%not_elem_of_nil|]; done. }
  do 3 wp_step. case_bool_decide as Hk; cycle 1.
  { wp_step. apply IH; [done|]. intros k' p' Hk'.
    destruct (Hleft k' p' Hk') as [[[= -> ->]|?]%elem_of_cons|]; [congruence|by left|by right]. }
  destruct (inv_keys _ _ _ _ _ _ Hinv _ _ Hk) as (_&r&Hr&_).
  eapply wp_mono; [apply wp_and;
    [by apply (wp_timer_rpc cfg local gh Hlocal n e k p r)|
     by apply (wp_timer_rpc cfg local (rebase gh e) Hlocal n e k p r);
       [eapply Inv_rebase|..]]|].
  intros [] e1 [(Hinv1&Hsub&Hdl&Hcs) (Hrb&_)]. rewrite <- Hcs. pose proof (inv_past _ _ _ _ _ _ Hrb) as Hev. cbn in Hev.
  apply IH; [done|]. intros k' p' Hk'. pose proof (lookup_weaken _ _ _ _ Hk' Hsub) as Hk0.
  destruct (Hleft k' p' Hk0) as [[[= -> ->]|?]%elem_of_cons|Ht]; [|by left|].
  - right. eapply evolves_in_time; [exact Hinv|done|exact Hk|]. intros r' Hr'.
    rewrite Hr in Hr'. injection Hr' as <-. by apply Hdl.
  - right. eapply evolves_in_time; [exact Hinv|done|exact Hk0|done].
Qed.

(** After a tick no RPC is past its deadline. *)
Lemma wp_timerLoop_tick gh n e now :
  Inv cfg local gh n Idle e →
  wp (timerLoop_tick cfg local now) (λ _ e', Inv cfg local gh n Idle e' ∧ e_callers e' = e_callers e ∧
    (e_closed e = false → ∀ k p, e_rpcs e' !! k = Some p → in_time now e' p)) e.
Proof.
  intros Hinv. unfold timerLoop_tick. do 2 wp_step. destruct (e_closed e); [by wp_step|].
  unfold for_rpcs, range_rpcs. wp_steps. set (e0 := set_e_ticks _ e).
  eapply wp_mono; [apply (wp_timer_all gh n)|].
  - by apply Inv_tick.
  - intros k p Hk. left. by apply entries_in.
  - intros [] e1 (Hinv1&Hcs&Ht). cbv beta.
    destruct (schedule_run cfg local gh Hcfg Hlocal n e1 Hinv1) as [Hrun Hinv2].
    destruct (schedule_run cfg local (rebase gh e1) Hcfg Hlocal n e1) as [_ Hrb];
      [by eapply Inv_rebase|].
    eapply wp_intro; [exact Hrun|]. split; [done|]. split.
    { cbn [set_e_heap e_callers]. by rewrite (proj2 (quiet_rpcs _ _ (emit_quiet _ _))). }
    intros _ k p Hk.
    cbn [set_e_heap e_rpcs] in Hk. rewrite emit_rpcs in Hk. cbn [set_e_ticks e_rpcs] in Hk.
    eapply evolves_in_time; [exact Hinv1|apply Hrb|exact Hk|by eapply Ht].
Qed.
End timer.
