(* ===== verification/EndpointLoops.v ===== *)
(** * Calls, handlers, the writer and shutdown

    The remaining critical sections of src/endpoint.go, each proved to keep the
    invariant and to fault on no path. *)
From S2P Require Import Prelude Wire WireFacts Assembly AssemblyFacts Api.
From S2P Require Import EndpointState Endpoint EndpointInv EndpointSend EndpointOps EndpointRecv.
From S2P Require Import EndpointTimer.

#[local] Open Scope Z_scope.

Section loops.
Context `{GoRuntime} (cfg : Config) (local : Addr) (handler : bool) (gh : ghost).
Context (Hcfg : config_ok cfg) (Hlocal : is_u16 (Port local)).
#[local] Abbreviation Inv := (Inv cfg local gh).

(** ** Handlers *)

Lemma wp_start_waiting n e :
  Inv n Idle e → wp (start_waiting cfg) (λ _ e', Inv n Idle e') e.
Proof.
  intros Hinv. apply (wp_for_rpcs (Inv n Idle)); [apply Inv_tick|done|].
  intros k p e1 Hinv1 Hk. destruct (live_tx _ _ _ _ _ _ _ Hinv1 Hk) as (_&r&Hr&Ek&_).
  wp_step. apply (wp_load Hr). rewrite odd_key, Ek. case_if; [|by wp_step].
  eapply wp_mono; [by eapply (wp_startHandler cfg local gh n e1 k p r)|]. by intros _ e' (?&_).
Qed.

Lemma running_filter p (payload : list Z) running :
  NoDup running.*1 → (p, payload) ∈ running →
  running_bytes (filter (λ q, q.1 ≠ p) running) = running_bytes running - len payload ∧
  len (filter (λ q, q.1 ≠ p) running) = len running - 1.
Proof.
  induction running as [|[q pl] running IH]; cbn [fmap list_fmap fst]; [by intros _ ?%not_elem_of_nil|].
  intros [Hnew Hnd]%NoDup_cons Hin. rewrite filter_cons. cbn [fst].
  assert (∀ l : list (loc * list Z), p ∉ l.*1 → filter (λ q, q.1 ≠ p) l = l) as Hall.
  { intros l Hl. apply filter_all_id, Forall_forall. intros x Hx E. apply Hl.
    rewrite <- E. by apply list_elem_of_fmap_2. }
  apply elem_of_cons in Hin as [[= <- <-]|Hin].
  - rewrite decide_False by (intros Hx; by apply Hx). rewrite Hall by done.
    unfold running_bytes, len. cbn [foldr snd length]. lia.
  - assert (q ≠ p) as Hne.
    { intros ->. apply Hnew. by apply (list_elem_of_fmap_2 fst) in Hin. }
    rewrite decide_True by done. destruct (IH Hnd Hin) as [IHb IHl].
    unfold running_bytes, len in *. cbn [foldr snd length] in *. lia.
Qed.

(** A worker is free again and the payload of its request is released. *)
Definition released (p : loc) (payload : list Z) (e : Endpoint) : Endpoint :=
  set_e_stats (set_s_BufferedBytes (s_BufferedBytes (e_stats e) + - len payload) (e_stats e))
    (set_e_workers (e_workers e - 1)
      (set_e_running (filter (λ q, q.1 ≠ p) (e_running e)) e)).

Lemma Inv_released n e p payload :
  Inv n Idle e → (p, payload) ∈ e_running e → Inv n Idle (released p payload e).
Proof.
  intros [] Hin. destruct inv_running as [Hnd Hrun].
  destruct (running_filter p payload (e_running e) Hnd Hin) as [Eb El].
  split; cbn [released set_e_stats set_e_workers set_e_running e_rpcs e_heap e_cutoffs e_nextID
    e_stats e_closed e_done e_workers e_outbound e_wake e_running e_callers e_writer e_io_closed
    set_s_BufferedBytes s_BufferedBytes]; try done.
  - lia.
  - pose proof (len_nonneg payload). lia.
  - lia.
  - split; [by apply NoDup_fmap_filter|by apply Forall_filter_sub].
  - etransitivity; [exact inv_past|]. apply evolves_same; try done. apply list_subseteq_filter.
Qed.
(** The reply of a handler becomes the message to send. *)
Definition replying (response : list Z) (priority now : Z) (r : rpc) : rpc :=
  set_r_last now (set_r_priority priority
    (set_r_granted (Z.min (len response) (c_UnscheduledBytes cfg)) (set_r_tx response r))).

Lemma Inv_replying n e k p r response priority now :
  Inv n Idle e → e_rpcs e !! k = Some p → e_heap e !! p = Some r → p ∉ (e_running e).*1 →
  is_client k = false → r_handling r = true → r_tx r = [] → r_sent r = 0 →
  bytes_ok response → g_tx gh k response → 0 < len response ≤ c_MaxMessageSize cfg → 0 ≤ priority ≤ 7 →
  s_BufferedBytes (e_stats e) + len response ≤ c_MaxBufferedBytes cfg →
  Inv n Idle (upd_rpc p (replying response priority now r) (len response) e).
Proof.
  intros Hinv Hk Hr Hnew Hc Hh Htx Hs Hby Hg Hl Hp Hmax.
  pose proof (Inv_key _ _ _ _ _ _ _ _ _ Hinv Hk Hr) as Ek. pose proof (ok_unscheduled cfg Hcfg).
  eapply Inv_upd; [done..| | |done].
  - split; [done| | |done].
    + intros []. split; cbn -[len]; try done; try lia.
      * intros _. rewrite Hs. left. apply Z.divide_0_r.
      * intros _. by rewrite Ek.
    + intros _. unfold phase_ok. cbn -[is_client]. by rewrite Ek, Hc, Hh.
  - assert (len (r_tx r) = 0) by by rewrite Htx. unfold rpc_bytes, rx_bytes. cbn -[len]. lia.
Qed.

Lemma wp_handler_reply n e p r response :
  Inv n Idle e → e_heap e !! p = Some r → p ∉ (e_running e).*1 →
  is_client (r_key r) = false → r_handling r = true → r_tx r = [] → r_sent r = 0 →
  bytes_ok response → g_tx gh (r_key r) response →
  wp (handler_reply cfg local p response) (λ _ e', Inv n Idle e') e.
Proof.
  intros Hinv Hr Hnew Hc Hh Htx Hs Hby Hg. pose proof (lookup_lt_Some _ _ _ Hr) as Hp.
  unfold handler_reply. wp_steps. eapply wp_intro; [by apply is_current_run|]. cbn beta.
  case_bool_decide as Hk; [|rewrite orb_true_r; by wp_step].
  rewrite orb_false_r. case_if; [by wp_step|]. wp_step.
  case_if; [by do 2 apply wp_ret|]. unfold wp at 1. rewrite reserve_run.
  case_if; cbn [negb]; [by wp_step|].
  wp_step. apply (wp_load (r := r)); [done|]. wp_step.
  set (e1 := set_e_stats _ e).
  destruct (unsched_run cfg local gh n Idle e (IP (k_peer (r_key r))) (len response) Hinv) as (v&Ev&Hv).
  assert (unsched (IP (k_peer (r_key r))) (len response) e1 = inl (v, e1)) as Ev1.
  { unfold unsched in Ev |- *. revert Ev. m_unfold. cbn [e1 set_e_stats e_cutoffs].
    destruct (unsched_loop _ _ _); [by intros [= ->]|done]. }
  eapply wp_intro; [exact Ev1|]. cbn beta. wp_step. unfold time_Now. wp_steps. apply wp_store.
  fold (replying response v (clock (e_ticks e1)) r).
  set (e2 := set_e_heap _ _).
  assert (Inv n Idle e2) as Hinv2.
  { assert (0 < len response) by (pose proof (len_nonneg response); lia).
    pose proof (Inv_replying n e (r_key r) p r response v (clock (e_ticks e1)) Hinv Hk Hr Hnew Hc Hh Htx Hs Hby Hg
      ltac:(lia) Hv ltac:(lia)) as Hi. by eapply Inv_ext. }
  wp_step. eapply wp_mono.
  { apply (wp_sendNew cfg local gh Hcfg Hlocal n Idle e2 (r_key r) p); [done|done|].
    cbn. by rewrite list_lookup_insert_eq. }
  intros err e3 (->&Hinv3&_). do 2 wp_step. by apply wp_start_waiting.
Qed.

Lemma wp_handler_done n e p payload response :
  Inv n Idle e → (p, payload) ∈ e_running e → bytes_ok response →
  (∀ r, e_heap e !! p = Some r → g_tx gh (r_key r) response) →
  wp (handler_done cfg local p payload response) (λ _ e', Inv n Idle e') e.
Proof.
  intros Hinv Hin Hby Hg. destruct (inv_running _ _ _ _ _ _ Hinv) as [Hnd Hrun].
  rewrite Forall_forall in Hrun. destruct (Hrun _ Hin) as (r&Hr&Hc&Hh&Htx&Hrx&Hs&_).
  destruct (inv_workers _ _ _ _ _ _ Hinv) as [Hw _].
  assert (0 < e_workers e) by (rewrite Hw; apply len_pos; intros E; by rewrite E in Hin;
    apply not_elem_of_nil in Hin).
  unfold handler_done. wp_steps. cbn [set_e_running e_workers]. case_if; [lia|].
  unfold add_buffered, bump. wp_steps. change (wp (handler_reply cfg local p response)
    (λ _, wp (cancel_context p) (λ _ e', Inv n Idle e')) (released p payload e)).
  eapply wp_mono; [apply (wp_handler_reply n _ p r)|]; try done; [by apply Inv_released| |by apply Hg|].
  - cbn. intros (q&Eq&[Hq _]%list_elem_of_filter)%list_elem_of_fmap. by apply Hq.
  - intros [] e' Hinv'. unfold cancel_context. wp_step. by eapply Inv_ext.
Qed.
(** ** Calls *)

(** IDs start even, so that every client ID is even and none repeats for
    [id_period] calls. *)
Context (s0 : Z) (Hseed : g_seed gh = 2 * s0) (Hs0 : 0 ≤ s0 < 2 ^ 63).

(** The checks [Call] makes before it takes the lock or changes anything. *)
Definition call_refused (ctx_err : option error) (peer : Addr) (request : list Z) (e : Endpoint)
  : option error :=
  match ctx_err with
  | Some err => Some err
  | None =>
      if negb (Is4 (IP peer)) || IsUnspecified (IP peer) || IsMulticast (IP peer) ||
         bool_decide (IP peer = AddrFrom4 255 255 255 255) || (Port peer =? 0) then Some ErrProtocol
      else if (len request =? 0) || (c_MaxMessageSize cfg <? len request) then Some ErrTooLarge
      else if e_closed e then Some ErrClosed
      else if (c_MaxRPCs cfg <=? Z.of_nat (size (e_rpcs e))) ||
              (c_MaxBufferedBytes cfg - s_BufferedBytes (e_stats e) <? len request) then Some ErrBusy
      else None
  end.

(** The RPC of an accepted call. *)
Definition calling (peer : Addr) (id : Z) (request : list Z) (priority deadline now : Z) : rpc :=
  mkRpc {| k_peer := peer; k_id := id |} request 0 (Z.min (len request) (c_UnscheduledBytes cfg))
    priority None false false deadline now None (Some []) false.

Lemma fresh_id n e peer :
  Inv n Idle e → Z.of_nat n < id_period →
  e_rpcs e !! {| k_peer := peer; k_id := id_after (g_seed gh) (S n) |} = None.
Proof.
  intros Hinv Hn. destruct (e_rpcs e !! _) as [p|] eqn:Hk; [|done]. exfalso.
  destruct (id_after_range s0 n Hs0) as (_&_&Hev). rewrite <- Hseed in Hev.
  destruct (inv_ids _ _ _ _ _ _ Hinv _ _ Hk) as (j&Hj&E); [done|]. cbn in E.
  revert E. rewrite Hseed. intros E. symmetry in E. revert E. apply id_after_inj; lia.
Qed.

Lemma Inv_calling n e peer request priority deadline now :
  Inv n Idle e → Z.of_nat n < id_period → e_closed e = false → is_u16 (Port peer) →
  bytes_ok request → 0 < len request ≤ c_MaxMessageSize cfg →
  Z.of_nat (size (e_rpcs e)) < c_MaxRPCs cfg →
  s_BufferedBytes (e_stats e) + len request ≤ c_MaxBufferedBytes cfg → 0 ≤ priority ≤ 7 →
  g_tx gh {| k_peer := peer; k_id := id_after (g_seed gh) (S n) |} request →
  Inv (S n) Idle
    (inserted (calling peer (id_after (g_seed gh) (S n)) request priority deadline now) (id_after (g_seed gh) (S n)) e).
Proof.
  intros Hinv Hn Hcl Hport Hby Hl Hsz Hmax Hpr Hg.
  set (r := calling _ _ _ _ _ _). pose proof (ok_unscheduled cfg Hcfg).
  destruct (id_after_range s0 n Hs0) as (Hu&_&Hev). rewrite <- Hseed in Hu, Hev.
  assert (is_client (r_key r) = true) as Hc by exact Hev.
  assert (rpc_bytes r = len request) as Hrb by (unfold rpc_bytes, rx_bytes; cbn -[len]; lia).
  assert (base_ok cfg gh r) as Hb.
  { split; first [done|by rewrite Hc|cbn -[len id_after]; lia|cbn -[len id_after]; intros _; lia|idtac].
    intros _. left. apply Z.divide_0_r. }
  assert (r_tx r ≠ []) as Htx by (apply len_pos; cbn -[len]; lia).
  eapply Inv_settle.
  - eapply Inv_inserted with (n := n); try done; [by apply fresh_id|by rewrite Hrb|lia|].
    intros _. exists n. split; [lia|done].
  - intros k' r' _ Hr' _. cbn in Hr'. rewrite lookup_app_r, Nat.sub_diag in Hr' by lia.
    injection Hr' as <-. unfold phase_ok. by rewrite Hc.
Qed.

Lemma nextID_run e :
  (modify (λ e, set_e_nextID (u64 (e_nextID e + 2)) e);;
   modify (λ e, if e_nextID e =? 0 then set_e_nextID 2 e else e)) e =
  inl ((), set_e_nextID (next_id (e_nextID e)) e).
Proof.
  m_unfold. unfold next_id. cbn [set_e_nextID e_nextID]. by case_if.
Qed.
(** What an accepted call leaves behind. *)
Record called (n : nat) (peer : Addr) (request : list Z) (e : Endpoint) (p : loc) (e' : Endpoint) : Prop := {
  called_fresh : e_rpcs e !! {| k_peer := peer; k_id := id_after (g_seed gh) (S n) |} = None;
  called_rpcs : e_rpcs e' = <[{| k_peer := peer; k_id := id_after (g_seed gh) (S n) |} := p]> (e_rpcs e);
  called_cell : ∃ r, e_heap e' !! p = Some r ∧ r_tx r = request ∧ r_result r = Some [];
  called_bytes : s_BufferedBytes (e_stats e') = s_BufferedBytes (e_stats e) + len request;
  called_callers : e_callers e' = p :: e_callers e
}.

Lemma evolves_caller a e p :
  evolves a e → (length (e_heap a) ≤ p)%nat → evolves a (set_e_callers (p :: e_callers e) e).
Proof.
  intros [] Hp. split; cbn; auto. intros q [->|Hq]%elem_of_cons; [by right|by apply ev_callers].
Qed.

Lemma Inv_add_caller n e p r :
  Inv n Idle e → e_heap e !! p = Some r → is_client (r_key r) = true → e_rpcs e !! r_key r = Some p →
  p ∉ e_callers e → (length (e_heap (g_past gh)) ≤ p)%nat →
  Inv n Idle (set_e_callers (p :: e_callers e) e).
Proof.
  intros [] Hr Hc Hk Hnew Hpast. split; cbn [set_e_callers e_rpcs e_heap e_cutoffs e_nextID e_stats e_closed
    e_done e_workers e_outbound e_wake e_running e_callers e_writer e_io_closed]; try done.
  - destruct inv_callers as [Hnd Hf]. split; [by apply NoDup_cons|]. apply Forall_cons.
    split; [exists r; cbn; auto|exact Hf].
  - by apply evolves_caller.
Qed.

Lemma caller_old n x e p : Inv n x e → p ∈ e_callers e → (p < length (e_heap e))%nat.
Proof.
  intros Hinv Hp. destruct (inv_callers _ _ _ _ _ _ Hinv) as [_ Hf]. rewrite Forall_forall in Hf.
  destruct (Hf p Hp) as (r&Hr&_). by eapply lookup_lt_Some.
Qed.

Lemma call_accepted peer request e :
  call_refused None peer request e = None →
  0 < len request ≤ c_MaxMessageSize cfg ∧ e_closed e = false ∧
  Z.of_nat (size (e_rpcs e)) < c_MaxRPCs cfg ∧
  s_BufferedBytes (e_stats e) + len request ≤ c_MaxBufferedBytes cfg.
Proof.
  pose proof (len_nonneg request). unfold call_refused.
  repeat (case_if; [done|]). intros _. split_and!; (done || lia).
Qed.

(** The part of [Call] after its checks. *)
Lemma wp_Call_start n e ctx_deadline peer request :
  Inv n Idle e → Z.of_nat n < id_period → is_u16 (Port peer) → bytes_ok request →
  g_tx gh {| k_peer := peer; k_id := id_after (g_seed gh) (S n) |} request →
  call_refused None peer request e = None →
  wp (modify (λ e, set_e_nextID (u64 (e_nextID e + 2)) e);;
      modify (λ e, if e_nextID e =? 0 then set_e_nextID 2 e else e);;
      now ← time_Now;
      let deadline := now + c_Timeout cfg in
      let deadline := match ctx_deadline with
                      | Some d => if d <? deadline then d else deadline
                      | None => deadline
                      end in
      e ← get;
      let key := {| k_peer := peer; k_id := e_nextID e |} in
      priority ← unsched (IP peer) (len request);
      p ← alloc (mkRpc key request 0 (Z.min (len request) (c_UnscheduledBytes cfg)) priority
                   None false false deadline now None (Some []) false);
      modify (λ e, set_e_rpcs (<[key := p]> (e_rpcs e)) e);;
      err ← sendNew cfg local p;
      match err with
      | Some err => finish p [] (Some err)
      | None => mret ()
      end;;
      modify (λ e, set_e_callers (p :: e_callers e) e);;
      mret (inr p))
    (λ (o : CallError + loc) e', match o with
      | inl _ => False
      | inr p => Inv (S n) Idle e' ∧ called n peer request e p e'
      end)
    (set_e_stats (set_s_BufferedBytes (s_BufferedBytes (e_stats e) + len request) (e_stats e)) e).
Proof.
  intros Hinv Hn Hport Hby Hg (Hlen&Hcl&Hsz&Hmax)%call_accepted.
  destruct (unsched_run cfg local gh n Idle e (IP peer) (len request) Hinv) as (v&Ev&Hv).
  assert (next_id (e_nextID e) = id_after (g_seed gh) (S n)) as Enext
    by by rewrite (inv_next _ _ _ _ _ _ Hinv).
  set (e1 := set_e_stats _ e). pose proof (nextID_run e1) as Hid.
  change (e_nextID e1) with (e_nextID e) in Hid. rewrite Enext in Hid.
  set (e2 := set_e_nextID (id_after (g_seed gh) (S n)) e1) in Hid.
  wp_step. eapply (wp_mono _ (λ _ e', (modify (λ e, if e_nextID e =? 0 then set_e_nextID 2 e else e)) e' = inl ((), e2)));
    [exact Hid|]. cbn beta. intros _ e' Hid'. wp_step. eapply wp_intro; [exact Hid'|]. cbn beta.
  clear e' Hid Hid'. unfold time_Now. do 6 wp_step.
  set (now := clock (e_ticks e2)). set (e3 := set_e_ticks (S (e_ticks e2)) e2). cbv zeta.
  set (deadline := match ctx_deadline with Some d => _ | None => _ end).
  assert (unsched (IP peer) (len request) e3 = inl (v, e3)) as Ev3.
  { revert Ev. unfold unsched. m_unfold. cbn [e3 e2 e1 set_e_ticks set_e_nextID set_e_stats e_cutoffs].
    destruct (unsched_loop _ _ _); [by intros [= ->]|done]. }
  do 2 wp_step. wp_step. eapply wp_intro; [exact Ev3|]. cbn beta. unfold alloc. do 6 wp_step. wp_step.
  change (e_nextID e3) with (id_after (g_seed gh) (S n)).
  fold (calling peer (id_after (g_seed gh) (S n)) request v deadline now).
  set (r := calling _ _ _ _ _ _). wp_step.
  set (key := {| k_peer := peer; k_id := id_after (g_seed gh) (S n) |}). set (p := length (e_heap e3)).
  match goal with |- wp _ _ ?s => set (e4 := s) end.
  assert (Inv (S n) Idle e4) as Hinv4.
  { pose proof (Inv_calling n e peer request v deadline now Hinv Hn Hcl Hport Hby Hlen Hsz Hmax Hv Hg) as Hi.
    eapply Inv_ext; [exact Hi|..]; try done. unfold quiet, core. cbn -[len id_after rpc_bytes].
    assert (rpc_bytes r = len request) as Hrb by (unfold rpc_bytes, rx_bytes; cbn -[len]; lia).
    fold r. by rewrite Hrb. }
  assert (e_heap e4 !! p = Some r) as Hr4 by (cbn; by rewrite lookup_app_r, Nat.sub_diag by lia).
  assert (e_rpcs e4 !! key = Some p) as Hk4 by (cbn -[id_after]; by rewrite lookup_insert_eq).
  wp_step. eapply wp_mono; [by apply (wp_sendNew cfg local gh Hcfg Hlocal (S n) Idle e4 key p)|].
  intros err e5 (->&Hinv5&sent&Hq). unfold quiet, core in Hq.
  injection Hq as E1 E2 _ _ E5 _ _ _ _ _ E11 _.
  assert (e_heap e5 !! p = Some (set_r_sent sent r)) as Hr5.
  { rewrite E2. cbn. rewrite list_lookup_insert_eq; [done|]. rewrite length_app. cbn. lia. }
  do 5 wp_step. split.
  - apply (Inv_add_caller _ _ _ _ Hinv5 Hr5); [|by rewrite E1| |].
    + destruct (id_after_range s0 n Hs0) as (_&_&Hev). rewrite <- Hseed in Hev. exact Hev.
    + rewrite E11. intros Hp. apply (caller_old _ _ _ _ Hinv) in Hp. unfold p in Hp. cbn in Hp. lia.
    + exact (evolves_length _ _ (inv_past _ _ _ _ _ _ Hinv)).
  - split; cbn [set_e_callers e_rpcs e_heap e_stats e_callers]; try done.
    + by apply fresh_id.
    + exists (set_r_sent sent r). done.
    + by rewrite E11.
Qed.

(** [Call] is refused with the error of the first check that fails, and then
    changes nothing; otherwise its RPC is live and its caller waits. *)
Lemma wp_Call n e ctx_err ctx_deadline peer request :
  Inv n Idle e → Z.of_nat n < id_period → is_u16 (Port peer) → bytes_ok request →
  (call_refused ctx_err peer request e = None →
   g_tx gh {| k_peer := peer; k_id := id_after (g_seed gh) (S n) |} request) →
  wp (Call cfg local ctx_err ctx_deadline peer request) (λ o e',
    match call_refused ctx_err peer request e with
    | Some err => o = inl {| ce_Err := err; ce_Sent := false |} ∧ e' = e
    | None => ∃ p, o = inr p ∧ Inv (S n) Idle e' ∧ called n peer request e p e'
    end) e.
Proof.
  intros Hinv Hn Hport Hby Hg. pose proof (len_nonneg request).
  pose proof (wp_Call_start n e ctx_deadline peer request Hinv Hn Hport Hby) as Hstart.
  unfold Call, call_refused in *. destruct ctx_err; [by wp_step|].
  destruct (negb (Is4 (IP peer)) || _ || _ || _ || _); [by wp_step|].
  destruct ((len request =? 0) || _); [by wp_step|]. do 2 wp_step.
  destruct (e_closed e); [by wp_step|].
  destruct (Z.leb_spec (c_MaxRPCs cfg) (Z.of_nat (size (e_rpcs e)))) as [Hle|Hlt]; cbn [orb] in *.
  { do 2 wp_step. by apply wp_ret. }
  wp_step. unfold wp at 1. rewrite reserve_run, (proj2 (Z.ltb_ge (len request) 0)) by done.
  cbn [orb]. destruct (_ <? len request); cbn [negb]; [by wp_step|].
  eapply wp_mono; [by apply Hstart; [apply Hg|]|]. intros [|p] e' Hp; [done|]. by exists p.
Qed.
(** ** Results *)

(** The one result of an RPC that is over is taken by its caller. *)
Lemma Inv_taken n e p r v :
  Inv n Idle e → p ∈ e_callers e → e_heap e !! p = Some r → e_rpcs e !! r_key r ≠ Some p →
  r_result r = Some [v] →
  Inv n Idle (set_e_callers (filter (λ q, q ≠ p) (e_callers e))
    (set_e_heap (<[p := set_r_result (Some []) r]> (e_heap e)) e)).
Proof.
  intros Hinv Hp Hr Hdead Hv. pose proof (lookup_lt_Some _ _ _ Hr) as Hlt.
  assert (∀ k, e_rpcs e !! k ≠ Some p) as Hnot.
  { intros k Hk. by rewrite <- (Inv_key _ _ _ _ _ _ _ _ _ Hinv Hk Hr) in Hk. }
  destruct Hinv. split; cbn [set_e_callers set_e_heap e_rpcs e_heap e_cutoffs e_nextID e_stats
    e_closed e_done e_workers e_outbound e_wake e_running e_callers e_writer e_io_closed]; try done.
  - intros k q Hk. rewrite list_lookup_insert_ne by (intros <-; by eapply Hnot). by apply inv_keys.
  - by rewrite live_bytes_store_dead.
  - destruct inv_running as [? Hrun]. split; [done|]. eapply Forall_impl; [exact Hrun|].
    intros [q pl] (rq&Hq&Hrest). cbn in Hq. destruct (decide (p = q)) as [<-|Hne].
    + rewrite Hr in Hq. injection Hq as <-. exists (set_r_result (Some []) r). cbn.
      by rewrite list_lookup_insert_eq.
    + exists rq. cbn. by rewrite list_lookup_insert_ne.
  - destruct inv_queues as [? Hq]. split; [done|]. cbn. by rewrite length_insert.
  - intros o. rewrite length_insert. apply inv_writing.
  - destruct inv_callers as [Hnd Hc]. split; [by apply NoDup_filter|].
    rewrite Forall_forall in Hc |- *. intros q [Hne Hq]%list_elem_of_filter.
    destruct (Hc q Hq) as (rq&Hrq&Hrest). exists rq. cbn. by rewrite list_lookup_insert_ne.
  - etransitivity; [exact inv_past|]. apply (evolves_store _ _ p r (set_r_result (Some []) r)); try done.
    apply list_subseteq_filter.
Qed.

Lemma take_result_run n e p :
  Inv n Idle e → p ∈ e_callers e →
  ∃ r, e_heap e !! p = Some r ∧
    ((e_rpcs e !! r_key r = Some p ∧ take_result p e = inl (None, e)) ∨
     (e_rpcs e !! r_key r ≠ Some p ∧ ∃ v e', r_result r = Some [v] ∧ result_ok gh (r_key r) v ∧
        take_result p e = inl (Some v, e') ∧ Inv n Idle e' ∧
        e_callers e' = filter (λ q, q ≠ p) (e_callers e))).
Proof.
  intros Hinv Hp. destruct (inv_callers _ _ _ _ _ _ Hinv) as [_ Hf]. rewrite Forall_forall in Hf.
  destruct (Hf p Hp) as (r&Hr&Hc&Hcase). exists r. split; [done|].
  unfold take_result. rewrite (bind_run _ _ _ _ _ (load_run p r e Hr)).
  destruct Hcase as [Hk|[Hk (v&Hv&Hvok)]].
  - left. split; [done|]. destruct (inv_keys _ _ _ _ _ _ Hinv _ _ Hk) as (_&r'&Hr'&_&Hb&_).
    rewrite Hr in Hr'. injection Hr' as <-. by rewrite (base_result _ _ _ Hb), Hc.
  - right. split; [done|]. rewrite Hv. eexists v, _. do 3 (split; [done|]).
    split; [exact (Inv_taken n e p r v Hinv Hp Hr Hk Hv)|done].
Qed.

(** A canceled call gets a result at once. *)
Lemma wp_call_done n e p err :
  Inv n Idle e → p ∈ e_callers e →
  wp (call_done p err) (λ v e', Inv n Idle e' ∧ e_callers e' = filter (λ q, q ≠ p) (e_callers e) ∧
    ∃ r, e_heap e !! p = Some r ∧
      (if bool_decide (e_rpcs e !! r_key r = Some p)
       then v = {| res_data := []; res_err := Some {| ce_Err := err;
                     ce_Sent := (0 <? r_sent r) || r_received r |} |}
       else r_result r = Some [v])) e.
Proof.
  intros Hinv Hp. destruct (take_result_run n e p Hinv Hp) as (r&Hr&Hcase).
  unfold call_done. wp_step. eapply wp_intro; [by apply is_current_run|]. cbn beta.
  destruct Hcase as [[Hk _]|[Hk (v&e'&Hv&_&Htake&Hinv'&Hcs)]].
  - rewrite bool_decide_eq_true_2 by done.
    destruct (inv_keys _ _ _ _ _ _ Hinv _ _ Hk) as (_&r0&Hr0&_&Hb&_).
    rewrite Hr in Hr0. injection Hr0 as <-.
    assert (is_client (r_key r) = true) as Hc.
    { destruct (inv_callers _ _ _ _ _ _ Hinv) as [_ Hf]. rewrite Forall_forall in Hf.
      destruct (Hf p Hp) as (r'&?&?&_). congruence. }
    pose proof (base_result _ _ _ Hb) as Hres. rewrite Hc in Hres.
    wp_step. eapply wp_intro; [apply (finish_run p r); auto|]. cbn beta.
    pose proof (over_finished cfg gh r [] (Some err) Hb ltac:(done)) as Ho.
    set (e1 := ended_canceled p r (finished_cell r [] (Some err)) e).
    assert (Inv n Idle e1) as Hinv1 by by apply Inv_ended_canceled.
    assert (e_callers e1 = e_callers e) as Hcs1 by (unfold e1, ended_canceled; by destruct (r_cancel r)).
    assert (e_heap e1 !! p = Some (finished_cell r [] (Some err))) as Hr1.
    { unfold e1, ended_canceled, ended. destruct (r_cancel r); cbn;
        by rewrite list_lookup_insert_eq by by eapply lookup_lt_Some. }
    destruct (take_result_run n e1 p Hinv1) as (r1&Hr1'&Hcase); [by rewrite Hcs1|].
    rewrite Hr1 in Hr1'. injection Hr1' as <-.
    destruct Hcase as [[Hk1 _]|[_ (v&e2&Hv&_&Htake&Hinv2&Hcs2)]].
    + exfalso. pose proof (ended_after gh p r _ e Hr Ho) as He. fold e1 in He.
      rewrite (ae_rpcs _ _ _ _ He), (over_key _ _ _ Ho), lookup_delete_eq in Hk1. done.
    + wp_step. eapply wp_intro; [exact Htake|]. cbv beta iota. wp_step. split; [done|].
      rewrite Hcs2, Hcs1. split; [done|]. exists r. rewrite bool_decide_eq_true_2 by done.
      split; [done|]. unfold finished_cell in Hv. rewrite Hres in Hv. cbn in Hv. by injection Hv as <-.
  - rewrite bool_decide_eq_false_2 by done. do 2 wp_step. wp_step. eapply wp_intro; [exact Htake|].
    cbv beta iota. wp_step. split; [done|]. split; [done|]. exists r. by rewrite bool_decide_eq_false_2.
Qed.
(** ** The writer *)

(** [dequeue] takes the oldest packet of the highest nonempty queue. *)
Definition first_packet_of (qs : list (list outgoingPacket)) (i : nat) (o : outgoingPacket)
  (rest : list outgoingPacket) : Prop :=
  qs !! i = Some (o :: rest) ∧ ∀ j q, (i < j)%nat → qs !! j = Some q → q = [].

Lemma dequeue_loop_run m e :
  (m ≤ length (e_outbound e))%nat →
  (∀ j q, (m ≤ j)%nat → e_outbound e !! j = Some q → q = []) →
  (∃ i o rest, first_packet_of (e_outbound e) i o rest ∧
     dequeue_loop m e = inl (Some o, set_e_outbound (<[i := rest]> (e_outbound e)) e)) ∨
  (Forall (λ q, q = []) (e_outbound e) ∧ dequeue_loop m e = inl (None, e)).
Proof.
  induction m as [|m IH]; intros Hm Hempty; cbn [dequeue_loop].
  { right. split; [|done]. apply Forall_lookup. intros j q. apply Hempty. lia. }
  destruct (lookup_lt_is_Some_2 (e_outbound e) m) as [q Hq]; [lia|].
  assert (idx (e_outbound e) (Z.of_nat m) = Some q) as Hidx.
  { unfold idx. rewrite (proj2 (Z.ltb_ge _ _)) by lia. by rewrite Nat2Z.id. }
  destruct q as [|o rest].
  - destruct IH as [(i&o&rest&Hfirst&Hrun)|[Hall Hrun]]; [lia| | |].
    + intros j q Hj Hjq. destruct (decide (j = m)) as [->|]; [congruence|]. apply (Hempty j); [lia|done].
    + left. exists i, o, rest. split; [done|]. m_unfold. rewrite Hidx. exact Hrun.
    + right. split; [done|]. m_unfold. rewrite Hidx. exact Hrun.
  - left. exists m, o, rest. split.
    + split; [done|]. intros j q Hj. apply Hempty. lia.
    + m_unfold. rewrite Hidx, upd_ok, Nat2Z.id by (unfold len; lia). done.
Qed.

Lemma dequeue_run e :
  (∃ i o rest, first_packet_of (e_outbound e) i o rest ∧
     dequeue e = inl (Some o, set_e_outbound (<[i := rest]> (e_outbound e)) e)) ∨
  (Forall (λ q, q = []) (e_outbound e) ∧ dequeue e = inl (None, e)).
Proof.
  unfold dequeue. m_unfold. apply dequeue_loop_run; [done|].
  intros j q Hj Hq. apply lookup_lt_Some in Hq. lia.
Qed.

(** The writer goroutine moves on; [e'] may have a shorter queue. *)
Lemma Inv_writer n e w out :
  Inv n Idle e → queues_ok local gh (set_e_outbound out e) →
  (∀ o, w = WWriting o → ∃ i, (i < 8)%nat ∧ datagram_ok local gh (length (e_heap e)) i o) →
  (w = WWaiting → Exists (λ q, q ≠ []) out → e_wake e = true) →
  Inv n Idle (set_e_writer w (set_e_outbound out e)).
Proof.
  intros [] Hq Hw Hwake. split; cbn [set_e_writer set_e_outbound e_rpcs e_heap e_cutoffs e_nextID
    e_stats e_closed e_done e_workers e_outbound e_wake e_running e_callers e_writer e_io_closed]; try done.
  etransitivity; [exact inv_past|]. by apply evolves_same.
Qed.

Lemma set_outbound_id e : set_e_outbound (e_outbound e) e = e.
Proof. by destruct e. Qed.

Lemma queues_tail n e i o rest :
  Inv n Idle e → first_packet_of (e_outbound e) i o rest →
  queues_ok local gh (set_e_outbound (<[i := rest]> (e_outbound e)) e) ∧ (i < 8)%nat ∧
  datagram_ok local gh (length (e_heap e)) i o.
Proof.
  intros Hinv [Hi _]. destruct (inv_queues _ _ _ _ _ _ Hinv) as [Hl Hq].
  destruct (Hq i _ Hi) as [Hlen Hf]. apply Forall_cons in Hf as [Ho Hrest].
  pose proof (lookup_lt_Some _ _ _ Hi). split; [|split; [lia|done]].
  split; cbn; [by rewrite length_insert|]. intros j q Hj.
  destruct (decide (i = j)) as [<-|Hne].
  - rewrite list_lookup_insert_eq in Hj by done. injection Hj as <-. cbn in Hlen. split; [lia|done].
  - rewrite list_lookup_insert_ne in Hj by done. by apply Hq.
Qed.

(** A queued DATA packet is stale when its RPC is over or out of time. *)
Definition stale (e : Endpoint) (o : outgoingPacket) (now : Z) : Prop :=
  o_typ o = wire.DataType ∧
  match o_origin o with
  | None => True
  | Some p => ∀ r, e_heap e !! p = Some r → e_rpcs e !! r_key r = Some p → r_deadline r ≤ now
  end.

Lemma stale_check_run e o :
  (∀ p, o_origin o = Some p → (p < length (e_heap e))%nat) →
  ∃ b t, stale_check o e = inl (b, set_e_ticks t e) ∧ (b = true ↔ stale e o (clock (e_ticks e))).
Proof.
  intros Ho. unfold stale_check, stale. destruct (Z.eqb_spec (o_typ o) wire.DataType) as [Ht|Ht]; cycle 1.
  { exists false, (e_ticks e). split; [by destruct e|]. split; [done|]. by intros [? _]. }
  destruct (o_origin o) as [p|]; cycle 1.
  { exists true, (e_ticks e). split; [by destruct e|done]. }
  destruct (lookup_lt_is_Some_2 (e_heap e) p) as [r Hr]; [by apply Ho|].
  cbn [origin_live]. rewrite (bind_run _ _ _ _ _ (is_current_run p r e Hr)).
  case_bool_decide as Hk; cbn [negb]; cycle 1.
  { exists true, (e_ticks e). split; [by destruct e|]. split; [|done]. intros _. split; [done|].
    intros r' Hr' Hk'. congruence. }
  exists (negb (clock (e_ticks e) <? r_deadline r)), (S (e_ticks e)). unfold time_Now, load.
  m_unfold. cbn [set_e_ticks e_heap]. rewrite Hr. split; [done|].
  rewrite negb_true_iff, Z.ltb_ge. split; [|intros [_ Hst]; by apply Hst].
  intros Hd. split; [done|]. intros r' Hr' _. congruence.
Qed.

(** One round of the writer: it stops, sleeps, drops a stale packet, or starts
    to send the oldest packet of the highest priority. *)
Definition writer_round (e e' : Endpoint) : Prop :=
  if e_closed e then e_writer e' = WExited
  else
    (Forall (λ q, q = []) (e_outbound e) ∧ e_writer e' = WWaiting) ∨
    ∃ i o rest, first_packet_of (e_outbound e) i o rest ∧
      e_outbound e' = <[i := rest]> (e_outbound e) ∧
      ((stale e o (clock (e_ticks e)) ∧ e_writer e' = WReady) ∨
       (¬ stale e o (clock (e_ticks e)) ∧ e_writer e' = WWriting o)).

Lemma wp_writeLoop_next n e :
  Inv n Idle e → e_writer e = WReady →
  wp writeLoop_next (λ _ e', Inv n Idle e' ∧ writer_round e e') e.
Proof.
  intros Hinv Hw. unfold writeLoop_next, writer_round. do 2 wp_step. destruct (e_closed e) eqn:Hcl.
  { wp_step. split; [|done]. pose proof (Inv_writer n e WExited (e_outbound e) Hinv) as Hi.
    rewrite set_outbound_id in Hi. apply Hi; try done. apply Hinv. }
  destruct (dequeue_run e) as [(i&o&rest&Hfirst&Hrun)|[Hall Hrun]]; wp_step;
    (eapply wp_intro; [exact Hrun|]); cbv beta iota.
  - destruct (queues_tail n e i o rest Hinv Hfirst) as (Hqs&Hi8&Ho).
    set (e1 := set_e_outbound (<[i := rest]> (e_outbound e)) e).
    destruct (stale_check_run e1 o) as (b&t&Hst&Hb); [apply Ho|].
    wp_step. eapply wp_intro; [exact Hst|]. cbv beta.
    change (stale e1 o (clock (e_ticks e1))) with (stale e o (clock (e_ticks e))) in Hb. destruct b.
    + unfold count_dropped, bump. wp_step. split.
      * pose proof (Inv_writer n e WReady (<[i := rest]> (e_outbound e)) Hinv Hqs) as Hi.
        eapply Inv_ext; [by apply Hi|..]; try done. unfold quiet, core. cbn. by rewrite Hw.
      * right. exists i, o, rest. split; [done|]. split; [done|]. left. split; [by apply Hb|done].
    + wp_step. split.
      * pose proof (Inv_writer n e (WWriting o) (<[i := rest]> (e_outbound e)) Hinv Hqs) as Hi.
        eapply Inv_ext; [apply Hi|..]; try done. intros o' [= <-]. by exists i.
      * right. exists i, o, rest. split; [done|]. split; [done|]. right. split; [|done].
        rewrite <- Hb. done.
  - wp_step. split; [|by left]. pose proof (Inv_writer n e WWaiting (e_outbound e) Hinv) as Hi.
    rewrite set_outbound_id in Hi. apply Hi; try done; [apply Hinv|].
    intros _ (q&Hq&Hne)%Exists_exists. rewrite Forall_forall in Hall. by apply Hall in Hq.
Qed.

Lemma wp_writeLoop_wake n e pick :
  Inv n Idle e → e_writer e = WWaiting →
  wp (writeLoop_wake pick) (λ _ e', Inv n Idle e' ∧
    ((e_writer e' = WReady ∧ e_wake e = true) ∨ (e_writer e' = WExited ∧ e_closed e = true) ∨
     (e' = e ∧ e_wake e = false ∧ e_closed e = false))) e.
Proof.
  intros Hinv Hw. destruct (inv_closed _ _ _ _ _ _ Hinv) as [Hd _]. unfold writeLoop_wake.
  do 2 wp_step. rewrite Hd. destruct (e_closed e && _) eqn:E1; bool_to_prop.
  - wp_step. split; [|auto]. pose proof (Inv_writer n e WExited (e_outbound e) Hinv) as Hi.
    rewrite set_outbound_id in Hi. apply Hi; try done. apply Hinv.
  - destruct (e_wake e) eqn:Ewake; wp_step; (split; [|auto]).
    + pose proof (Inv_writer n e WReady (e_outbound e) Hinv) as Hi. rewrite set_outbound_id in Hi.
      eapply Inv_quiet; [apply Hi; try done; apply Hinv|done|apply Hinv|done].
    + done.
    + right; right. split_and!; try done. destruct E1 as [|E1]; [done|]. destruct pick; done.
Qed.

Lemma wp_writeLoop_done n e o err :
  Inv n Idle e → e_writer e = WWriting o →
  wp (writeLoop_done o err) (λ _ e', Inv n Idle e' ∧ e_writer e' = WReady) e.
Proof.
  intros Hinv Hw. destruct (inv_writing _ _ _ _ _ _ Hinv o Hw) as (i&_&_&Ho&_).
  unfold writeLoop_done. wp_step. eapply (wp_mono _ (λ _ e', Inv n Idle e')).
  - destruct err as [err|]; [|unfold count_sent, bump; wp_step; by eapply Inv_ext].
    unfold count_write_error, bump. do 2 wp_step. set (e1 := set_e_stats _ e).
    assert (Inv n Idle e1) as Hinv1 by by eapply Inv_ext.
    destruct (o_origin o) as [p|]; [|by wp_step; cbn [origin_live]; do 2 apply wp_ret].
    destruct (lookup_lt_is_Some_2 (e_heap e1) p) as [r Hr]; [by apply Ho|].
    wp_step. cbn [origin_live]. eapply wp_intro; [by apply is_current_run|]. cbv beta.
    case_bool_decide as Hk; [|by wp_step].
    eapply wp_mono; [by apply (wp_finish cfg local gh n Idle e1 (r_key r))|]. by intros _ e' [? _].
  - intros [] e1 Hinv1. wp_step. split; [|done].
    pose proof (Inv_writer n e1 WReady (e_outbound e1) Hinv1) as Hi.
    rewrite set_outbound_id in Hi. apply Hi; try done. apply Hinv1.
Qed.
(** ** Shutdown *)

Lemma Inv_closing n e : Inv n Idle e → Inv n Closing (set_e_done true (set_e_closed true e)).
Proof.
  intros []. split; cbn [set_e_done set_e_closed e_rpcs e_heap e_cutoffs e_nextID e_stats e_closed
    e_done e_workers e_outbound e_wake e_running e_callers e_writer e_io_closed]; try done.
  - intros k p Hk. destruct (inv_keys k p Hk) as (?&r&?&?&?&Hph). split; [done|].
    exists r. split_and!; try done. intros _. by apply Hph.
  - etransitivity; [exact inv_past|]. by apply evolves_same.
Qed.

Lemma Inv_close n e :
  Inv n Closing e → e_closed e = true → e_rpcs e = ∅ → Inv n Idle (set_e_io_closed true e).
Proof.
  intros [] Hcl Hempty. split; cbn [set_e_io_closed e_rpcs e_heap e_cutoffs e_nextID e_stats e_closed
    e_done e_workers e_outbound e_wake e_running e_callers e_writer e_io_closed]; try done.
  - intros k p Hk. by rewrite Hempty in Hk.
  - destruct inv_closed as [? _]. done.
  - etransitivity; [exact inv_past|]. by apply evolves_same.
Qed.

(** Every RPC left is among the entries still to be visited. *)
Lemma wp_finish_all n entries err e :
  Inv n Closing e → e_closed e = true →
  (∀ k p, e_rpcs e !! k = Some p → (k, p) ∈ entries) →
  wp (for_each entries (λ '(k, p), e ← get;
        if bool_decide (e_rpcs e !! k = Some p) then finish p [] (Some err) else mret ()))
    (λ _ e', Inv n Closing e' ∧ e_closed e' = true ∧ e_rpcs e' = ∅ ∧ e_callers e' = e_callers e) e.
Proof.
  revert e. induction entries as [|[k p] entries IH]; intros e Hinv Hcl Hleft; cbn [for_each].
  { wp_step. split_and!; try done. apply map_empty. intros k. apply eq_None_not_Some.
    intros [p Hp]. by apply Hleft, not_elem_of_nil in Hp. }
  do 3 wp_step. case_bool_decide as Hk.
  - eapply wp_mono; [by apply (wp_finish cfg local gh n Closing e k)|].
    intros [] e1 [Hinv1 He1]. pose proof (ae_rest _ _ _ _ He1) as Hrest. injection Hrest as Ecs _ Ecl _ _ _.
    rewrite <- Ecs. apply IH; [done|congruence|].
    intros k' p'. rewrite (ae_rpcs _ _ _ _ He1). intros [Hne Hk']%lookup_delete_Some.
    apply Hleft, elem_of_cons in Hk' as [[= -> ->]|]; [by destruct Hne|done].
  - wp_step. apply IH; [done..|]. intros k' p' Hk'. pose proof (Hleft k' p' Hk') as Hin.
    apply elem_of_cons in Hin as [[= -> ->]|]; [congruence|done].
Qed.

Lemma wp_shutdown n e err :
  Inv n Idle e →
  wp (shutdown err) (λ _ e', Inv n Idle e' ∧ e_closed e' = true ∧ e_callers e' = e_callers e) e.
Proof.
  intros Hinv. unfold shutdown. do 2 wp_step. destruct (e_closed e) eqn:Hcl; [by wp_step|].
  destruct (inv_closed _ _ _ _ _ _ Hinv) as [Hd _]. rewrite Hd, Hcl. do 4 wp_step.
  pose proof (Inv_closing n e Hinv) as Hinv1. set (e1 := set_e_done true (set_e_closed true e)) in *.
  unfold for_rpcs, range_rpcs. wp_steps.
  eapply wp_mono; [apply (wp_finish_all n)|].
  - by apply Inv_tick.
  - done.
  - intros k p Hk. by apply entries_in.
  - intros [] e2 (Hinv2&Hcl2&Hempty&Hcs). cbv beta. wp_step. split_and!; try done. by apply Inv_close.
Qed.

(** ** The reader *)

Lemma wp_readLoop_packet n e b ip :
  Inv n Idle e → bytes_ok b → len b ≤ 65535 →
  (∀ w, wire.Parse b = Some (inr w) → packet_arrives local gh ip w) →
  wp (readLoop_packet cfg local handler b ip) (λ _ e', Inv n Idle e') e.
Proof.
  intros Hinv Hb Hlen Harr. unfold readLoop_packet.
  assert (len b ≤ maxInt) as Hmax by (pose proof maxInt_lower; lia).
  pose proof (wire_facts.Parse_view b Hb Hmax) as V.
  destruct (wire.Parse b) as [[err|w]|] eqn:HP; [| |by inversion V].
  - wp_step. eapply wp_or_panic; [done|]. do 2 wp_step. case_if; [by wp_step|].
    unfold count_invalid, bump. wp_step. by eapply Inv_ext.
  - inversion V as [| | | |? pad ? Hok Hm ? ?]; subst.
    wp_step. eapply wp_or_panic; [done|]. do 2 wp_step. case_if; [by wp_step|].
    unfold count_received, bump. do 2 wp_step. apply wp_receive; try done; [by eapply Inv_ext|by apply Harr].
Qed.
End loops.
