(* ===== verification/Trace.v ===== *)
(** * Executions of an endpoint

    The goroutines of an endpoint interleave at the lock.  An event is one
    critical section of one goroutine together with what the outside world
    chose for it: a packet, a clock tick, the end of a socket write, a call or
    its cancellation, the return of the application's handler.  [steps] is any
    interleaving of such events. *)
From S2P Require Import Prelude Wire WireFacts Assembly AssemblyFacts Api.
From S2P Require Import EndpointState Endpoint EndpointInv EndpointSend EndpointOps EndpointRecv.
From S2P Require Import EndpointTimer EndpointLoops.

#[local] Open Scope Z_scope.

Inductive event :=
| EvCall (ctx_err : option error) (ctx_deadline : option Z) (peer : Addr) (request : list Z)
| EvResult (p : loc)
| EvCtxDone (p : loc) (err : error)
| EvRead (b : list Z) (ip : IPAddr)
| EvReadError (err : error)
| EvTick (now : Z)
| EvReply (p : loc) (response : list Z)
| EvWriteNext
| EvWriteWake (pick_done : bool)
| EvWritten (err : option error)
| EvClose.

Section trace.
Context `{GoRuntime} (cfg : Config) (local : Addr) (handler : bool).

(** The payload the handler of [p] was started with. *)
Definition payload_of (p : loc) (e : Endpoint) : option (list Z) :=
  (λ q, q.2.2) <$> list_find (λ q : loc * list Z, q.1 = p) (e_running e).

Definition run_event (ev : event) : M Endpoint unit :=
  match ev with
  | EvCall ctx_err ctx_deadline peer request =>
      _ ← Call cfg local ctx_err ctx_deadline peer request; mret ()
  | EvResult p => _ ← take_result p; mret ()
  | EvCtxDone p err => _ ← call_done p err; mret ()
  | EvRead b ip => readLoop_packet cfg local handler b ip
  | EvReadError err => readLoop_error err
  | EvTick now => timerLoop_tick cfg local now
  | EvReply p response =>
      e ← get;
      match payload_of p e with
      | Some payload => handler_done cfg local p payload response
      | None => mret ()
      end
  | EvWriteNext => writeLoop_next
  | EvWriteWake pick_done => writeLoop_wake pick_done
  | EvWritten err =>
      e ← get;
      match e_writer e with
      | WWriting packet => writeLoop_done packet err
      | _ => mret ()
      end
  | EvClose => shutdown ErrClosed
  end.

(** When an event can happen: the goroutine is at that point of its loop, and
    the values from outside have their Go types. *)
Definition enabled (ev : event) (e : Endpoint) : Prop :=
  match ev with
  | EvCall _ _ peer request => is_u16 (Port peer) ∧ bytes_ok request
  | EvResult p | EvCtxDone p _ => p ∈ e_callers e
  | EvRead b _ => bytes_ok b ∧ len b ≤ 65535
  | EvReply p response => p ∈ (e_running e).*1 ∧ bytes_ok response
  | EvWriteNext => e_writer e = WReady
  | EvWriteWake _ => e_writer e = WWaiting
  | EvWritten _ => ∃ packet, e_writer e = WWriting packet
  | EvReadError _ | EvTick _ | EvClose => True
  end.

Inductive steps : Endpoint → list event → Endpoint → Prop :=
| steps_nil e : steps e [] e
| steps_cons e ev e' evs e'' :
    enabled ev e → run_event ev e = inl ((), e') → steps e' evs e'' → steps e (ev :: evs) e''.

(** The number of calls of a trace. *)
Definition is_call (ev : event) : nat := match ev with EvCall _ _ _ _ => 1 | _ => 0 end.

Definition calls (evs : list event) : nat := sum_list_with is_call evs.

(** ** One step keeps the invariant *)

Context (Hcfg : config_ok cfg) (Hlocal : is_u16 (Port local)).

Definition even_seed (seed : Z) : Prop := ∃ s0, seed = 2 * s0 ∧ 0 ≤ s0 < 2 ^ 63.

Lemma payload_of_running n gh e p :
  Inv cfg local gh n Idle e → p ∈ (e_running e).*1 →
  ∃ payload, payload_of p e = Some payload ∧ (p, payload) ∈ e_running e.
Proof.
  intros Hinv (q&->&Hq)%list_elem_of_fmap. unfold payload_of.
  destruct (list_find_elem_of (λ x : loc * list Z, x.1 = q.1) (e_running e) q Hq eq_refl) as [[i x] Hx].
  exists x.2. rewrite Hx. split; [done|]. apply list_find_Some in Hx as (Hi&E&_).
  apply list_elem_of_lookup_2 in Hi. rewrite <- E. by destruct x.
Qed.

(** The messages that an event brings are those the histories of [gh] allow. *)
Definition explained (gh : ghost) (ev : event) (e : Endpoint) : Prop :=
  match ev with
  | EvCall ctx_err _ peer request => call_refused cfg ctx_err peer request e = None →
      g_tx gh {| k_peer := peer; k_id := next_id (e_nextID e) |} request
  | EvRead b ip => ∀ w, wire.Parse b = Some (inr w) → packet_arrives local gh ip w
  | EvReply p response => ∀ r, e_heap e !! p = Some r → g_tx gh (r_key r) response
  | _ => True
  end.

Lemma explained_plain s past ev e : explained (plain s past) ev e.
Proof. by destruct ev. Qed.

(** One more call is started by an accepted [Call], none by anything else. *)
Definition accepts (ev : event) (e : Endpoint) : nat :=
  match ev with
  | EvCall ctx_err _ peer request =>
      match call_refused cfg ctx_err peer request e with None => 1 | Some _ => 0 end
  | _ => 0
  end.

Lemma accepts_le ev e : (accepts ev e ≤ is_call ev)%nat.
Proof. destruct ev; cbn; try lia. case_match; lia. Qed.

Lemma wp_run_event gh n e ev :
  even_seed (g_seed gh) → Inv cfg local gh n Idle e → Z.of_nat n < id_period → enabled ev e →
  explained gh ev e →
  wp (run_event ev) (λ _ e', Inv cfg local gh (accepts ev e + n) Idle e') e.
Proof.
  intros (s0&Hseed&Hs0) Hinv Hn Hen Hex.
  destruct ev; cbn [enabled run_event explained accepts Nat.add] in *.
  - destruct Hen. wp_step. eapply wp_mono; [eapply (wp_Call cfg local gh Hcfg Hlocal s0); try done|].
    { intros Hr. specialize (Hex Hr). by rewrite (inv_next _ _ _ _ _ _ Hinv) in Hex. }
    intros o e' Ho. wp_step. destruct (call_refused _ _ _ _ _).
    + by destruct Ho as [_ ->].
    + by destruct Ho as (p&_&Hi&_).
  - destruct (take_result_run cfg local gh n e p Hinv Hen) as (r&_&[[_ E]|[_ (v&e'&_&_&E&?&_)]]);
      wp_step; (eapply wp_intro; [exact E|]); by wp_step.
  - wp_step. eapply wp_mono; [by eapply (wp_call_done cfg local gh)|].
    intros v e' [? _]. by wp_step.
  - destruct Hen. by apply (wp_readLoop_packet cfg local handler gh).
  - eapply wp_mono; [by apply (wp_shutdown cfg local gh)|]. by intros _ e' [? _].
  - eapply wp_mono; [by apply (wp_timerLoop_tick cfg local Hcfg Hlocal gh n)|].
    by intros _ e' [? _].
  - destruct Hen as [Hp Hby]. do 2 wp_step.
    destruct (payload_of_running n gh e p Hinv Hp) as (payload&->&Hin).
    by eapply (wp_handler_done cfg local gh).
  - eapply wp_mono; [by apply (wp_writeLoop_next cfg local gh)|]. by intros _ e' [? _].
  - eapply wp_mono; [by apply (wp_writeLoop_wake cfg local gh)|]. by intros _ e' [? _].
  - destruct Hen as [packet Hw]. do 2 wp_step. rewrite Hw.
    eapply wp_mono; [by apply (wp_writeLoop_done cfg local gh n)|]. by intros _ e' [? _].
  - eapply wp_mono; [by apply (wp_shutdown cfg local gh)|]. by intros _ e' [? _].
Qed.

Lemma steps_Inv s past n e evs e' :
  even_seed s → Inv cfg local (plain s past) n Idle e → steps e evs e' →
  Z.of_nat (n + calls evs) < id_period →
  ∃ n', (n ≤ n' ≤ n + calls evs)%nat ∧ Inv cfg local (plain s past) n' Idle e'.
Proof.
  intros Hseed Hinv Hsteps. revert n Hinv.
  induction Hsteps as [e|e ev e1 evs e2 Hen Hrun Hsteps IH]; intros n Hinv Hn.
  { exists n. split; [cbn; lia|done]. }
  unfold calls in *. cbn [sum_list_with] in *.
  pose proof (wp_run_event (plain s past) n e ev Hseed Hinv ltac:(lia) Hen (explained_plain _ _ _ _)) as Hwp.
  unfold wp in Hwp. rewrite Hrun in Hwp. pose proof (accepts_le ev e).
  destruct (IH _ Hwp) as (n2&Hn2&Hinv2); [lia|]. exists n2. split; [lia|done].
Qed.
End trace.

(** ** The initial state *)

Lemma ldiff_even z : Z.ldiff z 1 = 2 * (z / 2).
Proof.
  change 1 with (Z.ones 1). rewrite Z.ldiff_ones_r by lia.
  rewrite Z.shiftr_div_pow2, Z.shiftl_mul_pow2 by lia. change (2 ^ 1) with 2. lia.
Qed.

Lemma New_rand io local cfg handler rand c e :
  New io local cfg handler rand = inr (c, e) → ∃ seed, rand = inr seed.
Proof.
  unfold New. destruct (defaults cfg); [done|]. case_if; [done|]. case_if; [done|].
  destruct rand; [done|eauto].
Qed.

Lemma New_inv io local cfg handler seed c e :
  New io local cfg handler (inr seed) = inr (c, e) →
  defaults cfg = inr c ∧ io = true ∧ Is4 (IP local) = true ∧ Port local ≠ 0 ∧
  (handler = true → Port local < 32768) ∧
  e = {| e_rpcs := ∅; e_heap := []; e_cutoffs := ∅;
         e_nextID := Z.ldiff (be_decode seed) 1; e_stats := Stats_zero;
         e_closed := false; e_done := false; e_workers := 0;
         e_outbound := replicate 8 []; e_wake := false; e_running := [];
         e_canceled := []; e_callers := []; e_writer := WReady;
         e_io_closed := false; e_ticks := 0 |}.
Proof.
  unfold New. destruct (defaults cfg) as [err|c']; [done|]. case_if; [done|]. case_if; [done|].
  intros [= -> <-]. split_and!; try done. intros ->. destruct E as [|E%Z.leb_gt]; [done|lia].
Qed.

Lemma New_even_seed seed :
  bytes_ok seed → length seed = 8%nat → even_seed (Z.ldiff (be_decode seed) 1).
Proof.
  intros Hb Hl. rewrite ldiff_even. eexists. split; [done|].
  pose proof (be_decode_range seed Hb) as Hr. unfold len in Hr. rewrite Hl in Hr.
  change (256 ^ Z.of_nat 8) with (2 * 2 ^ 63) in Hr.
  split; [apply Z.div_pos; lia|apply Z.div_lt_upper_bound; lia].
Qed.

Lemma New_Inv `{GoRuntime} io local cfg handler seed c e tx rx :
  New io local cfg handler (inr seed) = inr (c, e) →
  Inv c local (mkGhost (e_nextID e) e tx rx) 0 Idle e.
Proof.
  intros HN. destruct (New_inv _ _ _ _ _ _ _ HN) as (Hd&_&_&_&_&->).
  destruct (defaults_ok _ _ Hd). split; cbn -[replicate]; try done; try lia.
  - rewrite map_size_empty. lia.
  - split; [done|lia].
  - split; constructor.
  - split; [done|]. cbn -[replicate]. intros i q Hq. apply lookup_replicate_1 in Hq as [-> _].
    split; [simpl; lia|constructor].
  - split; constructor.
  - rewrite map_size_empty. lia.
Qed.

(** [New] succeeds exactly with a valid configuration, a packet I/O, an IPv4
    address, a nonzero port, for a server a port below 32768, and a seed from
    the random source; no other configuration or
    address is accepted. *)
Theorem new_accepts_exactly io local cfg handler rand :
  (∃ c e, New io local cfg handler rand = inr (c, e)) ↔
  (∃ c, defaults cfg = inr c) ∧ io = true ∧ Is4 (IP local) = true ∧ Port local ≠ 0 ∧
  (handler = true → Port local < 32768) ∧ ∃ seed, rand = inr seed.
Proof.
  split.
  - intros (c&e&HN). destruct (New_rand _ _ _ _ _ _ _ HN) as [seed ->].
    destruct (New_inv _ _ _ _ _ _ _ HN) as (?&?&?&?&?&_). eauto 10.
  - intros ([c Hd]&->&H4&Hp&Hh&seed&->). unfold New.
    rewrite Hd, H4, (proj2 (Z.eqb_neq _ _)) by done. cbn [negb orb].
    assert (handler && (32768 <=? Port local) = false) as ->; [|eauto].
    destruct handler; [|done]. cbn. apply Z.leb_gt. by apply Hh.
Qed.
