(* ===== verification/System.v ===== *)
(** * What every execution of an endpoint guarantees

    Theorems about each state an endpoint reaches from [New] by any
    interleaving of its goroutines, any packets, any clock and any choice of
    map iteration order. *)
From S2P Require Import Prelude Wire WireFacts Assembly AssemblyFacts Api.
From S2P Require Import EndpointState Endpoint EndpointInv EndpointSend EndpointOps EndpointRecv.
From S2P Require Import EndpointTimer EndpointLoops Trace.

#[local] Open Scope Z_scope.

(** ** Reachable states *)

(** [e] is a state of an endpoint that [New] created with the random bytes
    [seed], after the events [evs]; [c] is its configuration. *)
Definition reachable `{GoRuntime} (cfg : Config) (local : Addr) (handler : bool) (seed : list Z)
  (c : Config) (evs : list event) (e : Endpoint) : Prop :=
  ∃ e0, New true local cfg handler (inr seed) = inr (c, e0) ∧ steps c local handler e0 evs e.

(** An execution as a function: the state after the events, if each was enabled
    and none faulted. *)
Definition enabledb (ev : event) (e : Endpoint) : bool :=
  match ev with
  | EvCall _ _ peer request => bool_decide (is_u16 (Port peer)) && bool_decide (Forall is_byte request)
  | EvResult p | EvCtxDone p _ => bool_decide (p ∈ e_callers e)
  | EvRead b _ => bool_decide (Forall is_byte b) && (len b <=? 65535)
  | EvReply p response => bool_decide (p ∈ (e_running e).*1) && bool_decide (Forall is_byte response)
  | EvWriteNext => match e_writer e with WReady => true | _ => false end
  | EvWriteWake _ => match e_writer e with WWaiting => true | _ => false end
  | EvWritten _ => match e_writer e with WWriting _ => true | _ => false end
  | EvReadError _ | EvTick _ | EvClose => true
  end.

Lemma enabledb_sound ev e : enabledb ev e = true → enabled ev e.
Proof.
  destruct ev; cbn; intros E; bool_to_prop; repeat match goal with
    | H : bool_decide _ = true |- _ => apply bool_decide_eq_true in H end; try done.
  - by destruct (e_writer e).
  - by destruct (e_writer e).
  - destruct (e_writer e); try done. by eexists.
Qed.

Fixpoint run_trace `{GoRuntime} (c : Config) (local : Addr) (handler : bool) (evs : list event)
  (e : Endpoint) : option Endpoint :=
  match evs with
  | [] => Some e
  | ev :: evs =>
      if enabledb ev e then
        match run_event c local handler ev e with
        | inl (_, e') => run_trace c local handler evs e'
        | inr _ => None
        end
      else None
  end.

Lemma run_trace_steps `{GoRuntime} c local handler evs e e' :
  run_trace c local handler evs e = Some e' → steps c local handler e evs e'.
Proof.
  revert e. induction evs as [|ev evs IH]; intros e; cbn [run_trace]; [intros [= ->]; constructor|].
  destruct (enabledb ev e) eqn:Hen; [|done].
  destruct (run_event c local handler ev e) as [[[] e1]|] eqn:Hrun; [|done].
  intros Hrest. econstructor; [by apply enabledb_sound|exact Hrun|by apply IH].
Qed.

(** What is used about the environment: an IP port is 16 bits wide, the seed is
    eight bytes, and fewer than 2^63 - 1 calls were made. *)
Definition plausible (local : Addr) (seed : list Z) (evs : list event) : Prop :=
  is_u16 (Port local) ∧ bytes_ok seed ∧ length seed = 8%nat ∧ Z.of_nat (calls evs) < id_period.

Section reachable.
Context `{GoRuntime} (cfg c : Config) (local : Addr) (handler : bool) (seed : list Z).
Context (evs : list event) (e : Endpoint).
Context (Hreach : reachable cfg local handler seed c evs e) (Hok : plausible local seed evs).

Lemma reachable_config : config_ok c.
Proof. destruct Hreach as (e0&HN&_). destruct (New_inv _ _ _ _ _ _ _ HN) as [Hd _]. by eapply defaults_ok. Qed.

(** The invariant, relative to the state itself. *)
Lemma reachable_Inv : ∃ n s, even_seed s ∧ (n ≤ calls evs)%nat ∧ Inv c local (plain s e) n Idle e.
Proof.
  destruct Hreach as (e0&HN&Hsteps). destruct Hok as (Hport&Hb&Hl&Hn).
  pose proof (New_Inv _ _ _ _ _ _ _ (λ _ _, True) (λ _ _ _ _, True) HN) as Hinv.
  assert (even_seed (e_nextID e0)) as Hseed.
  { destruct (New_inv _ _ _ _ _ _ _ HN) as (_&_&_&_&_&->). by apply New_even_seed. }
  destruct (steps_Inv c local handler reachable_config Hport (e_nextID e0) e0 0 e0 evs e)
    as (n&Hle&Hi); [done|done|done|lia|].
  exists n, (e_nextID e0). split; [done|]. split; [lia|]. by eapply Inv_rebase in Hi.
Qed.

Lemma later_Inv evs2 e2 :
  steps c local handler e evs2 e2 → Z.of_nat (calls evs + calls evs2) < id_period →
  ∃ n s, Inv c local (plain s e) n Idle e2.
Proof.
  intros Hsteps Hn. destruct reachable_Inv as (n&s&Hseed&Hle&Hinv). destruct Hok as (Hport&_).
  destruct (steps_Inv c local handler reachable_config Hport s e n e evs2 e2)
    as (n2&_&Hi); [done|done|done|lia|]. by exists n2, s.
Qed.

(** The datagrams of the queues and of the writer. *)
Definition unsent (o : outgoingPacket) : Prop :=
  (∃ q, q ∈ e_outbound e ∧ o ∈ q) ∨ e_writer e = WWriting o.

Lemma unsent_ok o : unsent o → ∃ i gh, (i < 8)%nat ∧ datagram_ok local gh (length (e_heap e)) i o.
Proof.
  intros Ho. destruct reachable_Inv as (n&s&_&_&Hinv).
  destruct Ho as [(q&Hq&Hin)|Ho].
  2: { destruct (inv_writing _ _ _ _ _ _ Hinv o Ho) as (i&?&?). by exists i, (plain s e). } apply list_elem_of_lookup in Hq as [i Hi].
  destruct (inv_queues _ _ _ _ _ _ Hinv) as [Hlen Hqs]. destruct (Hqs i q Hi) as [_ Hf].
  exists i, (plain s e). apply lookup_lt_Some in Hi. split; [lia|]. rewrite Forall_forall in Hf. by apply Hf.
Qed.
End reachable.

(** ** Two concrete endpoints

    A client that calls a server, under a clock that stands still. *)
Module demo.
Definition runtime : GoRuntime := still_clock 0.
#[local] Existing Instance runtime.

Definition config : Config := mkConfig 0 0 0 0 0 0 0 0 0 0.
Definition effective : Config := match defaults config with inr c => c | inl _ => config end.
Definition seed : list Z := [0; 0; 0; 0; 0; 0; 0; 7].
Definition client : Addr := mkAddr (AddrFrom4 10 0 0 1) 40000.
Definition server : Addr := mkAddr (AddrFrom4 10 0 0 2) 99.

Definition start (local : Addr) (handler : bool) : Endpoint :=
  match New true local config handler (inr seed) with inr (_, e) => e | inl _ => {|
    e_rpcs := ∅; e_heap := []; e_cutoffs := ∅; e_nextID := 0; e_stats := Stats_zero;
    e_closed := false; e_done := false; e_workers := 0; e_outbound := []; e_wake := false;
    e_running := []; e_canceled := []; e_callers := []; e_writer := WReady;
    e_io_closed := false; e_ticks := 0 |} end.

Definition after (local : Addr) (handler : bool) (evs : list event) : Endpoint :=
  default (start local handler) (run_trace effective local handler evs (start local handler)).

(** The datagrams an endpoint has queued, highest priority first. *)
Definition sent (e : Endpoint) : list (list Z) := o_data <$> concat (reverse (e_outbound e)).

Definition request : list Z := [1; 2; 3].
Definition reply : list Z := [4; 5].

Definition call : list event := [EvCall None None server request].
(** The request reaches the server, which answers. *)
Definition serve : list event := (λ b, EvRead b (IP client)) <$> sent (after client false call).
Definition answer : list event := serve ++ [EvReply 0 reply].
(** The answer reaches the client. *)
Definition finish : list event :=
  call ++ ((λ b, EvRead b (IP server)) <$> sent (after server true answer)).

Lemma reachable_after local handler evs :
  bool_decide (is_Some (run_trace effective local handler evs (start local handler))) = true →
  New true local config handler (inr seed) = inr (effective, start local handler) →
  reachable config local handler seed effective evs (after local handler evs).
Proof.
  intros Hrun HN. apply bool_decide_eq_true in Hrun as [e He]. exists (start local handler).
  split; [done|]. apply run_trace_steps. unfold after. by rewrite He.
Qed.

Lemma plausible_demo local evs :
  bool_decide (is_u16 (Port local)) = true → (Z.of_nat (calls evs) <? id_period) = true →
  plausible local seed evs.
Proof.
  intros Hp%bool_decide_eq_true Hc%Z.ltb_lt. split; [done|]. split; [by repeat constructor|]. done.
Qed.

(** Two endpoints and the network between them: the caller gets the reply. *)
Lemma call_returns_reply :
  take_result 0 (after client false finish) =
  inl (Some {| res_data := reply; res_err := None |},
       set_e_callers [] (set_e_heap (set_r_result (Some []) <$> e_heap (after client false finish))
         (after client false finish))).
Proof. vm_compute. reflexivity. Qed.
End demo.

(** ** Theorems *)

Section theorems.
Context `{GoRuntime} (cfg c : Config) (local : Addr) (handler : bool) (seed : list Z).
Context (evs : list event) (e : Endpoint).

(** C3: no critical section of any goroutine ever panics, blocks for good on a
    channel while it holds the lock, or loops for ever, whatever packets arrive
    and however the goroutines interleave. *)
Theorem endpoint_never_faults ev :
  reachable cfg local handler seed c evs e → plausible local seed evs → enabled ev e →
  ∃ e', run_event c local handler ev e = inl ((), e').
Proof.
  intros Hreach Hok Hen. destruct (reachable_Inv _ _ _ _ _ _ _ Hreach Hok) as (n&s&Hseed&Hle&Hinv).
  pose proof (reachable_config _ _ _ _ _ _ _ Hreach) as Hcfg. destruct Hok as (Hport&_&_&Hn).
  destruct (wp_run _ _ _ (wp_run_event c local handler Hcfg Hport (plain s e) n e ev
    Hseed Hinv ltac:(lia) Hen (explained_plain _ _ _ _ _ _))) as ([]&e'&Hrun&_). by exists e'.
Qed.

(** C4: [Stats.BufferedBytes] is at every moment the number of bytes held by the
    live RPCs and the running handlers, and within [MaxBufferedBytes]; it is
    zero when nothing is live. *)
Theorem memory_accounting :
  reachable cfg local handler seed c evs e → plausible local seed evs →
  s_BufferedBytes (e_stats e) = live_bytes (e_rpcs e) (e_heap e) + running_bytes (e_running e) ∧
  0 ≤ s_BufferedBytes (e_stats e) ≤ c_MaxBufferedBytes c ∧
  (e_rpcs e = ∅ → e_running e = [] → s_BufferedBytes (e_stats e) = 0).
Proof.
  intros Hreach Hok. destruct (reachable_Inv _ _ _ _ _ _ _ Hreach Hok) as (n&s&_&_&Hinv).
  pose proof (inv_bytes _ _ _ _ _ _ Hinv) as Hb. pose proof (inv_budget _ _ _ _ _ _ Hinv).
  pose proof (live_bytes_nonneg (e_rpcs e) (e_heap e)). pose proof (running_bytes_nonneg (e_running e)).
  split; [done|]. split; [lia|]. intros Er El. by rewrite Hb, Er, El.
Qed.

(** C5: the state of an endpoint is bounded: at most [MaxRPCs] RPCs and cutoff
    records, at most [HandlerWorkers] handlers, each with a worker slot of its
    own, eight queues of at most 32 packets. *)
Theorem resources_bounded :
  reachable cfg local handler seed c evs e → plausible local seed evs →
  Z.of_nat (size (e_rpcs e)) ≤ c_MaxRPCs c ∧ Z.of_nat (size (e_cutoffs e)) ≤ c_MaxRPCs c ∧
  e_workers e = len (e_running e) ∧ len (e_running e) ≤ c_HandlerWorkers c ∧
  length (e_outbound e) = 8%nat ∧ Forall (λ q, (length q ≤ 32)%nat) (e_outbound e).
Proof.
  intros Hreach Hok. destruct (reachable_Inv _ _ _ _ _ _ _ Hreach Hok) as (n&s&_&_&Hinv).
  destruct (inv_workers _ _ _ _ _ _ Hinv) as [Hw ?]. destruct (inv_queues _ _ _ _ _ _ Hinv) as [? Hq].
  split_and!; try done; try apply Hinv; [lia|]. apply Forall_lookup. intros i q Hi. by apply (Hq i).
Qed.

(** C6: a call never gets two results and never loses its result: while its RPC
    is live the channel of a blocked caller is empty, once it is over the
    channel holds exactly one result. *)
Theorem caller_result_unique p :
  reachable cfg local handler seed c evs e → plausible local seed evs → p ∈ e_callers e →
  ∃ r, e_heap e !! p = Some r ∧
    ((e_rpcs e !! r_key r = Some p ∧ r_result r = Some []) ∨
     (e_rpcs e !! r_key r ≠ Some p ∧ ∃ v, r_result r = Some [v])).
Proof.
  intros Hreach Hok Hp. destruct (reachable_Inv _ _ _ _ _ _ _ Hreach Hok) as (n&s&_&_&Hinv).
  destruct (inv_callers _ _ _ _ _ _ Hinv) as [_ Hf]. rewrite Forall_forall in Hf.
  destruct (Hf p Hp) as (r&Hr&Hc&Hcase). exists r. split; [done|].
  destruct Hcase as [Hk|[Hk (v&?&_)]]; [|right; eauto]. left. split; [done|].
  destruct (inv_keys _ _ _ _ _ _ Hinv _ _ Hk) as (_&r0&Hr0&_&Hb&_).
  rewrite Hr in Hr0. injection Hr0 as <-. by rewrite (base_result _ _ _ Hb), Hc.
Qed.

(** C7: a call ends by its deadline: the first tick of the timer at or after the
    deadline leaves a result for the blocked caller. *)
Theorem deadline_delivers_result p r now :
  reachable cfg local handler seed c evs e → plausible local seed evs →
  p ∈ e_callers e → e_heap e !! p = Some r → r_deadline r ≤ now →
  ∃ e' v e'', run_event c local handler (EvTick now) e = inl ((), e') ∧
    take_result p e' = inl (Some v, e'').
Proof.
  intros Hreach Hok Hp Hr Hd. destruct (reachable_Inv _ _ _ _ _ _ _ Hreach Hok) as (n&s&_&_&Hinv).
  pose proof (reachable_config _ _ _ _ _ _ _ Hreach) as Hcfg. destruct Hok as (Hport&_).
  destruct (wp_run _ _ _ (wp_timerLoop_tick c local Hcfg Hport (plain s e) n e now Hinv))
    as ([]&e'&Hrun&Hinv'&Hcs&Ht).
  destruct (take_result_run c local _ n e' p Hinv') as (r'&Hr'&Hcase); [by rewrite Hcs|].
  destruct (ev_cells _ _ (inv_past _ _ _ _ _ _ Hinv') _ _ Hr) as (r''&Hr''&_&Ed&_).
  rewrite Hr' in Hr''. injection Hr'' as <-.
  destruct Hcase as [[Hk _]|[_ (v&e''&_&_&Htake&_)]]; [|by exists e', v, e''].
  exfalso. destruct (e_closed e) eqn:Hcl.
  - destruct (inv_closed _ _ _ _ _ _ Hinv') as [_ Hc]. destruct (Hc ltac:(done)) as [_ Hempty].
    rewrite Hempty in Hk; [done|]. by apply (ev_closed _ _ (inv_past _ _ _ _ _ _ Hinv')).
  - specialize (Ht eq_refl _ _ Hk _ Hr'). lia.
Qed.



(** Pointer identity is stable: an RPC object that left the map is never
    live again, so a late packet, write error or handler cannot touch a newer
    RPC through it. *)
Theorem ended_stays_ended evs2 e2 p k :
  reachable cfg local handler seed c evs e → plausible local seed evs →
  steps c local handler e evs2 e2 → Z.of_nat (calls evs + calls evs2) < id_period →
  (p < length (e_heap e))%nat → (∀ k', e_rpcs e !! k' ≠ Some p) → e_rpcs e2 !! k ≠ Some p.
Proof.
  intros Hreach Hok Hsteps Hn Hp Hnot Hk.
  destruct (later_Inv _ _ _ _ _ _ _ Hreach Hok evs2 e2 Hsteps Hn) as (n&s&Hinv).
  by apply (Hnot k), (ev_live _ _ (inv_past _ _ _ _ _ _ Hinv)).
Qed.

(** C10: every datagram that waits in a queue or is being written parses as a
    packet from this endpoint's port, of the type and priority it is queued
    under, and fits an Ethernet frame behind an IPv4 header. *)
Theorem datagrams_well_formed o :
  reachable cfg local handler seed c evs e → plausible local seed evs →
  unsent e o →
  ∃ w, wire.Parse (o_data o) = Some (inr w) ∧ wire.h_Type (wire.Header w) = o_typ o ∧
    wire.h_SourcePort (wire.Header w) = Port local ∧ len (o_data o) ≤ 1480 ∧ 0 ≤ o_priority o < 8.
Proof.
  intros Hreach Hok Ho.
  destruct (unsent_ok _ _ _ _ _ _ _ Hreach Hok o Ho) as (i&gh&Hi&Hpr&_&w&Hw&Hm&Ed&Et&Hl&Hs&_).
  exists (wire.canonical w). rewrite Ed, Et. split; [|split; [|split; [|split; [congruence|lia]]]].
  - pose proof (wire_facts.Parse_bytes w [] Hw Hm) as HP. rewrite app_nil_r in HP. by apply HP.
  - by rewrite wire_facts.canonical_header.
  - by rewrite wire_facts.canonical_header.
Qed.
End theorems.

(** ** The theorems at the concrete endpoints *)

#[local] Existing Instance demo.runtime.

Ltac demo_reachable :=
  apply demo.reachable_after; [vm_compute; reflexivity|vm_compute; reflexivity].
Ltac demo_plausible := apply demo.plausible_demo; vm_compute; reflexivity.
Ltac demo_elem :=
  lazymatch goal with |- ?P => refine (bool_decide_eq_true_1 P _); vm_compute; reflexivity end.

Lemma endpoint_never_faults_witness :
  ∃ e', run_event demo.effective demo.client false EvWriteNext
    (demo.after demo.client false demo.call) = inl ((), e').
Proof.
  apply (endpoint_never_faults demo.config _ _ _ demo.seed demo.call);
    [demo_reachable|demo_plausible|vm_compute; reflexivity].
Defined.

Lemma memory_accounting_witness :
  s_BufferedBytes (e_stats (demo.after demo.server true demo.serve)) = 3 ∧
  s_BufferedBytes (e_stats (demo.after demo.server true demo.serve)) ≤ c_MaxBufferedBytes demo.effective.
Proof.
  split; [vm_compute; reflexivity|].
  apply (memory_accounting demo.config _ demo.server true demo.seed demo.serve);
    [demo_reachable|demo_plausible].
Defined.

Lemma resources_bounded_witness :
  length (e_running (demo.after demo.server true demo.serve)) = 1%nat ∧
  len (e_running (demo.after demo.server true demo.serve)) ≤ c_HandlerWorkers demo.effective.
Proof.
  split; [vm_compute; reflexivity|].
  apply (resources_bounded demo.config _ demo.server true demo.seed demo.serve);
    [demo_reachable|demo_plausible].
Defined.

Lemma caller_result_unique_witness :
  ∃ r, e_heap (demo.after demo.client false demo.finish) !! 0%nat = Some r ∧
    ((e_rpcs (demo.after demo.client false demo.finish) !! r_key r = Some 0%nat ∧ r_result r = Some []) ∨
     (e_rpcs (demo.after demo.client false demo.finish) !! r_key r ≠ Some 0%nat ∧
      ∃ v, r_result r = Some [v])).
Proof.
  apply (caller_result_unique demo.config demo.effective demo.client false demo.seed demo.finish);
    [demo_reachable|demo_plausible|demo_elem].
Defined.

Lemma deadline_delivers_result_witness :
  ∃ e' v e'', run_event demo.effective demo.client false (EvTick (6 * Second))
      (demo.after demo.client false demo.call) = inl ((), e') ∧
    take_result 0 e' = inl (Some v, e'').
Proof.
  eapply (deadline_delivers_result demo.config demo.effective demo.client false demo.seed demo.call);
    [demo_reachable|demo_plausible|demo_elem|vm_compute; reflexivity|vm_compute; discriminate].
Defined.



(** The call is over once its reply was received. *)
Lemma ended_stays_ended_witness :
  length (e_heap (demo.after demo.client false demo.finish)) = 1%nat ∧
  e_rpcs (demo.after demo.client false (demo.finish ++ [EvTick 0])) !! {| k_peer := demo.server; k_id := 8 |} ≠
    Some 0%nat.
Proof.
  split; [vm_compute; reflexivity|].
  eapply (ended_stays_ended demo.config demo.effective demo.client false demo.seed demo.finish
    (demo.after demo.client false demo.finish) [EvTick 0]);
    [demo_reachable|demo_plausible| |vm_compute; reflexivity|vm_compute; lia|].
  - assert (run_trace demo.effective demo.client false [EvTick 0] (demo.after demo.client false demo.finish)
      = Some (demo.after demo.client false (demo.finish ++ [EvTick 0]))) as Hrun by (vm_compute; reflexivity).
    by apply run_trace_steps.
  - intros k'. assert (e_rpcs (demo.after demo.client false demo.finish) = ∅) as -> by (vm_compute; reflexivity).
    by rewrite lookup_empty.
Defined.

Lemma datagrams_well_formed_witness :
  ∃ o w, (∃ q, q ∈ e_outbound (demo.after demo.client false demo.call) ∧ o ∈ q) ∧
    wire.Parse (o_data o) = Some (inr w) ∧ wire.h_Type (wire.Header w) = o_typ o ∧
    wire.h_SourcePort (wire.Header w) = 40000 ∧ len (o_data o) ≤ 1480 ∧ 0 ≤ o_priority o < 8.
Proof.
  assert (∃ o, (∃ q, q ∈ e_outbound (demo.after demo.client false demo.call) ∧ o ∈ q)) as [o Ho].
  { eexists _, _. split; [|left]. apply (list_elem_of_lookup_2 _ 7). vm_compute. reflexivity. }
  exists o.
  destruct (datagrams_well_formed demo.config demo.effective demo.client false demo.seed demo.call
    (demo.after demo.client false demo.call) o) as (w&Hw); [demo_reachable|demo_plausible|by left|].
  by exists w.
Defined.
