(* ===== verification/Transfer.v ===== *)
(** * A message from sender to receiver

    Segmentation by [sendNew] and [resend], the wire, and the receive buffer,
    put together: what a sender cuts up, a receiver reassembles. *)
From S2P Require Import Prelude Wire WireFacts Assembly AssemblyFacts Api.
From S2P Require Import EndpointState Endpoint EndpointInv EndpointSend EndpointOps EndpointRecv.
From S2P Require Import EndpointTimer EndpointLoops Trace System.

#[local] Open Scope Z_scope.

(** ** Cutting a message *)

Section segments.
Context `{GoRuntime} (cfg : Config) (local : Addr).
Context (Hcfg : config_ok cfg).

(** The bytes of the segment of [msg] that starts at [start]. *)
Definition segment_bytes (msg : list Z) (start : Z) : list Z :=
  take (Z.to_nat (Z.min (start + c_SegmentBytes cfg) (len msg) - start)) (drop (Z.to_nat start) msg).

Lemma segment_payload r version start rt :
  wire.d_Payload (segment_data cfg local r version start rt) = segment_bytes (r_tx r) start.
Proof. done. Qed.

Lemma segment_bytes_length msg start :
  0 ≤ start ≤ len msg →
  len (segment_bytes msg start) = Z.min (c_SegmentBytes cfg) (len msg - start).
Proof.
  intros Hs. unfold segment_bytes, len in *. rewrite length_take, length_drop.
  pose proof (ok_segment cfg Hcfg). lia.
Qed.

Lemma take_drop_add {A} (l : list A) i n m :
  take n (drop i l) ++ take m (drop (i + n) l) = take (n + m) (drop i l).
Proof. by rewrite <- drop_drop, take_take_drop. Qed.

(** Consecutive segments are a contiguous piece of the message. *)
Lemma segments_concat fuel msg s lim :
  0 ≤ s ≤ len msg → lim ≤ len msg → lim - s < Z.of_nat fuel →
  let starts := segment_starts cfg fuel s lim in
  let s' := sent_after cfg starts s (len msg) in
  s ≤ s' ≤ len msg ∧ lim ≤ s' ∧
  concat (segment_bytes msg <$> starts) = take (Z.to_nat (s' - s)) (drop (Z.to_nat s) msg).
Proof.
  pose proof (ok_segment cfg Hcfg) as Hseg. revert s.
  induction fuel as [|fuel IH]; intros s Hs Hlim Hf; cbn [segment_starts].
  { cbn. rewrite Z.sub_diag. split_and!; (done || lia). }
  case_if; cycle 1.
  { cbn. rewrite Z.sub_diag. split_and!; (done || lia). }
  set (next := Z.min (s + c_SegmentBytes cfg) (len msg)).
  destruct (IH next) as (H1&H2&H3); [lia|done|lia|]. unfold next in H1, H2, H3.
  rewrite segment_starts_clip in H1, H2, H3 by done. fold next in H1, H2, H3.
  set (rest := segment_starts cfg fuel (s + c_SegmentBytes cfg) lim) in *.
  assert (sent_after cfg (s :: rest) s (len msg) = sent_after cfg rest next (len msg)) as ->.
  { unfold sent_after. rewrite last_cons. by destruct (last rest). }
  set (s' := sent_after cfg rest next (len msg)) in *. split; [lia|]. split; [done|].
  cbn [fmap list_fmap concat]. rewrite H3. unfold segment_bytes. fold next.
  replace (Z.to_nat next) with (Z.to_nat s + Z.to_nat (next - s))%nat by lia.
  rewrite take_drop_add. f_equal. lia.
Qed.

(** The offsets are [s], [s + SegmentBytes], ... below [lim]. *)
Lemma segment_starts_in fuel s lim at_ :
  lim - s < Z.of_nat fuel →
  at_ ∈ segment_starts cfg fuel s lim ↔ s ≤ at_ < lim ∧ (c_SegmentBytes cfg | at_ - s).
Proof.
  pose proof (ok_segment cfg Hcfg) as Hseg. revert s.
  induction fuel as [|fuel IH]; intros s Hf; cbn [segment_starts].
  { split; [by intros ?%not_elem_of_nil|lia]. }
  case_if; cycle 1.
  { split; [by intros ?%not_elem_of_nil|lia]. }
  rewrite elem_of_cons, IH by lia. split.
  - intros [->|[? Hd]]; [split; [lia|rewrite Z.sub_diag; apply Z.divide_0_r]|].
    split; [lia|]. replace (at_ - s) with (at_ - (s + c_SegmentBytes cfg) + c_SegmentBytes cfg) by lia.
    apply Z.divide_add_r; [done|apply Z.divide_refl].
  - intros [? Hd]. destruct (decide (at_ = s)) as [->|Hne]; [by left|]. right.
    destruct Hd as [k Hk]. assert (1 ≤ k) by nia. split; [nia|]. exists (k - 1). lia.
Qed.

Lemma segment_starts_NoDup fuel s lim : NoDup (segment_starts cfg fuel s lim).
Proof.
  pose proof (ok_segment cfg Hcfg) as Hseg.
  assert (∀ fuel s, Forall (λ at_, s ≤ at_) (segment_starts cfg fuel s lim)) as Hge.
  { clear fuel s. induction fuel as [|fuel IH]; intros s; cbn [segment_starts]; [constructor|].
    case_if; constructor; [done|]. eapply Forall_impl; [apply IH|]. cbn. lia. }
  revert s. induction fuel as [|fuel IH]; intros s; cbn [segment_starts]; [constructor|].
  case_if; constructor; [|apply IH]. intros Hin. specialize (Hge fuel (s + c_SegmentBytes cfg)).
  rewrite Forall_forall in Hge. specialize (Hge _ Hin). lia.
Qed.
End segments.

(** ** The segments that [sendNew] and [resend] queue *)

Section sending.
Context `{GoRuntime} (cfg : Config) (local : Addr).

(** The DATA packets of [r] at the given offsets. *)
Definition data_packets (r : rpc) (version : Z) (rt : bool) (starts : list Z) : list wire.Packet :=
  (λ start, wire.PData (segment_data cfg local r version start rt)) <$> starts.

(** Handing packets to [send] one after the other, as far as the queues go. *)
Definition queue_all (peer : Addr) (priority : Z) (ws : list wire.Packet) (e : Endpoint) : Endpoint :=
  foldl (λ e w, sent_state peer w priority e) e ws.

(** What queueing a packet depends on and changes. *)
Definition view (e : Endpoint) := (e_rpcs e, e_cutoffs e, e_outbound e).

Lemma push_view o e e' : view e = view e' → view (push o e) = view (push o e').
Proof.
  unfold view, push. intros [= Er Ec Eo]. rewrite Eo.
  destruct (e_outbound e' !! _); [|congruence]. case_if; cbn; congruence.
Qed.

Lemma sent_view peer w priority e e' :
  view e = view e' → view (sent_state peer w priority e) = view (sent_state peer w priority e').
Proof.
  intros Hv. unfold sent_state. assert (outgoing e peer w priority = outgoing e' peer w priority) as ->.
  { unfold view in Hv. injection Hv as Er _ _. unfold outgoing, origin_of. by rewrite Er. }
  by apply push_view.
Qed.

Lemma version_view e e' r : view e = view e' → version_of e r = version_of e' r.
Proof. unfold view, version_of. intros [= _ -> _]. done. Qed.

Lemma sent_version peer w priority e r : version_of (sent_state peer w priority e) r = version_of e r.
Proof.
  pose proof (push_quiet (outgoing e peer w priority) e) as Hq. unfold quiet, core in Hq.
  injection Hq as _ _ Ec _ _ _ _ _ _ _ _ _. unfold version_of, sent_state. by rewrite Ec.
Qed.

Lemma segments_queue r rt priority starts version e e' :
  view e' = view e → version = version_of e r →
  view (foldl (segment_state cfg local r rt priority) e' starts) =
  view (queue_all (k_peer (r_key r)) priority (data_packets r version rt starts) e).
Proof.
  unfold queue_all, data_packets. revert e e'.
  induction starts as [|s starts IH]; intros e e' Hv Hver; [done|]. cbn [fmap list_fmap foldl].
  apply IH; [|by rewrite sent_version].
  unfold segment_state. rewrite (version_view e' e), <- Hver by done.
  apply sent_view. rewrite <- Hv. by destruct rt.
Qed.
End sending.

Section theorems.
Context `{GoRuntime} (cfg c : Config) (local : Addr) (handler : bool) (seed : list Z).
Context (evs : list event) (e : Endpoint).


(** C14: [resend] retransmits segments at their original boundaries: exactly
    those below [r.sent] that start at a multiple of [SegmentBytes] from the one
    containing [start] up to [end_], each once, so that every requested byte
    that was sent is covered; nothing else in the RPC changes. *)
Theorem resend_reuses_boundaries k p r start end_ priority :
  reachable cfg local handler seed c evs e → plausible local seed evs →
  e_rpcs e !! k = Some p → e_heap e !! p = Some r → r_tx r ≠ [] →
  0 ≤ start → 0 ≤ priority < 8 →
  ∃ starts e', resend c local p start end_ priority e = inl ((), e') ∧
    e_outbound e' = e_outbound (queue_all (k_peer k) priority
      (data_packets c local r (version_of e r) true starts) e) ∧
    e_heap e' = e_heap e ∧ NoDup starts ∧
    (∀ at_, at_ ∈ starts ↔ (c_SegmentBytes c | at_) ∧
       start - start `mod` c_SegmentBytes c ≤ at_ < Z.min end_ (r_sent r)) ∧
    (∀ i, start ≤ i < Z.min end_ (r_sent r) → ∃ at_, at_ ∈ starts ∧ at_ ≤ i < at_ + c_SegmentBytes c).
Proof.
  intros Hreach Hok Hk Hr Htx Hst Hpr. destruct (reachable_Inv _ _ _ _ _ _ _ Hreach Hok) as (n&s&_&_&Hinv).
  pose proof (reachable_config _ _ _ _ _ _ _ Hreach) as Hcfg. destruct Hok as (Hport&_).
  pose proof (Inv_key _ _ _ _ _ _ _ _ _ Hinv Hk Hr) as Ek. pose proof (ok_segment c Hcfg) as Hseg.
  destruct (inv_keys _ _ _ _ _ _ Hinv _ _ Hk) as (Hkey&r0&Hr0&_&Hb&_).
  rewrite Hr in Hr0. injection Hr0 as <-. destruct (base_tx _ _ _ Hb Htx) as [Hs _].
  destruct (resend_run c local (plain s e) Hcfg Hport n Idle e p r start end_ priority) as [Hrun _];
    try (done || congruence).
  set (seg := c_SegmentBytes c) in *. pose proof (Z.mod_pos_bound start seg ltac:(lia)).
  pose proof (Z.mod_le start seg ltac:(lia) ltac:(lia)).
  assert ((start `quot` seg) * seg = start - start `mod` seg) as Eq.
  { rewrite Z.quot_div_nonneg by lia. pose proof (Z.div_mod start seg ltac:(lia)). lia. }
  assert (∀ at_, at_ ∈ resend_starts c r start end_ ↔ (seg | at_) ∧
    start - start `mod` seg ≤ at_ < Z.min end_ (r_sent r)) as Hin.
  { intros at_. unfold resend_starts. rewrite segment_starts_in; [|done|fold seg; rewrite Eq; unfold len in *; lia].
    fold seg. rewrite Eq. assert ((seg | start - start `mod` seg)) as Hd0 by (rewrite <- Eq; by eexists).
    split; [intros [? Hd]; split; [|done]|intros [Hd ?]; split; [done|]].
    - replace at_ with (at_ - (start - start `mod` seg) + (start - start `mod` seg)) by lia.
      by apply Z.divide_add_r.
    - by apply Z.divide_sub_r. }
  exists (resend_starts c r start end_). eexists. split; [exact Hrun|]. split; [|split; [|split; [|split; [exact Hin|]]]].
  - rewrite <- Ek. pose proof (segments_queue c local r true priority (resend_starts c r start end_) _ e e
      eq_refl eq_refl) as Hq.
    unfold view in Hq. by injection Hq as _ _ ->.
  - pose proof (segments_quiet c local r true priority (resend_starts c r start end_) e) as Hq.
    unfold quiet, core in Hq. congruence.
  - by apply segment_starts_NoDup.
  - intros i Hi. exists (i - i `mod` seg). pose proof (Z.mod_pos_bound i seg ltac:(lia)).
    split; [|lia]. apply Hin. pose proof (Z.div_mod i seg ltac:(lia)). pose proof (Z.div_mod start seg ltac:(lia)).
    pose proof (Z.div_le_mono start i seg ltac:(lia) ltac:(lia)). split; [exists (i / seg); lia|nia].
Qed.
End theorems.

(** ** End to end *)

Section transfer.
Context `{GoRuntime} (cfg rcfg : Config) (local : Addr) (r : rpc).
Context (Hcfg : config_ok cfg) (Hrcfg : config_ok rcfg) (Hlocal : is_u16 (Port local)).
Context (Hkey : key_ok (r_key r)) (Hby : bytes_ok (r_tx r)).
Context (Hlen : 0 < len (r_tx r) ≤ c_MaxMessageSize rcfg).

(** One transmission of a segment of [r.tx]: its offset, what was granted at
    that moment, the sender's cutoff version, and whether it is a repetition. *)
Record transmission := mkTransmission {
  tr_start : Z; tr_granted : Z; tr_version : Z; tr_retransmit : bool
}.

Definition transmission_ok (t : transmission) : Prop :=
  (c_SegmentBytes cfg | tr_start t) ∧ 0 ≤ tr_start t < len (r_tx r) ∧
  0 ≤ tr_granted t ≤ len (r_tx r) ∧ is_u16 (tr_version t).

Definition transmitted (t : transmission) : wire.Data :=
  segment_data cfg local (set_r_granted (tr_granted t) r) (tr_version t) (tr_start t) (tr_retransmit t).

(** What [data] makes of a packet: offset, bytes and window for [accept]. *)
Definition as_segment (d : wire.Data) : segment :=
  (Z.to_nat (wire.EffectiveOffset d), wire.d_Payload d, wire.d_Incoming d).

Lemma message_small : len (r_tx r) ≤ MaxMessageSize.
Proof. pose proof (ok_message rcfg Hrcfg). lia. Qed.

Lemma transmitted_offset t : transmission_ok t → wire.EffectiveOffset (transmitted t) = tr_start t.
Proof.
  intros (_&Hs&_). pose proof message_small as Hm. unfold MaxMessageSize in Hm.
  unfold wire.EffectiveOffset, transmitted, segment_data. cbn [wire.d_SegmentOffset].
  rewrite u32_id by (unfold is_u32; lia). rewrite (proj2 (Z.eqb_neq _ _)); [done|unfold wire.SequenceOffset; lia].
Qed.

Lemma transmitted_incoming t :
  transmission_ok t → 0 ≤ wire.d_Incoming (transmitted t) ≤ len (r_tx r).
Proof.
  intros (_&_&Hg&_). pose proof message_small as Hm. unfold MaxMessageSize in Hm.
  pose proof (ok_segment cfg Hcfg) as Hseg.
  assert (0 ≤ ((tr_granted t + c_SegmentBytes cfg - 1) `quot` c_SegmentBytes cfg) * c_SegmentBytes cfg).
  { rewrite Z.quot_div_nonneg by lia.
    pose proof (Z.div_pos (tr_granted t + c_SegmentBytes cfg - 1) (c_SegmentBytes cfg)). nia. }
  unfold transmitted, segment_data. cbn [wire.d_Incoming set_r_granted r_tx r_granted].
  rewrite u32_id by (unfold is_u32; lia). lia.
Qed.

Lemma transmitted_wire t :
  transmission_ok t → wire.packet_ok (wire.PData (transmitted t)) ∧ wire.marshalable (wire.PData (transmitted t)).
Proof.
  intros (_&Hs&_&Hv). destruct (segment_wire cfg local Hcfg Hlocal (set_r_granted (tr_granted t) r)
    (tr_version t) (tr_start t) (tr_retransmit t)) as (?&?&_); (done || lia).
Qed.

(** A transmitted segment passes every check of the receiver. *)
Lemma transmitted_valid t : transmission_ok t → valid_data rcfg (transmitted t).
Proof.
  intros Ht. destruct (transmitted_wire t Ht) as (Hd&_). pose proof (transmitted_incoming t Ht).
  destruct (Ht) as (_&Hs&_). pose proof (ok_segment cfg Hcfg). pose proof message_small as Hm.
  unfold MaxMessageSize in Hm.
  assert (len (wire.d_Payload (transmitted t)) = Z.min (c_SegmentBytes cfg) (len (r_tx r) - tr_start t)) as Hpl
    by (apply segment_bytes_length; [done|cbn; lia]).
  assert (wire.d_MessageLength (transmitted t) = len (r_tx r)) as Eml
    by (cbn -[len u32]; apply u32_id; unfold is_u32; lia).
  split; try done; rewrite ?Eml; try lia.
  - apply len_pos. lia.
  - rewrite transmitted_offset, Hpl by done. lia.
Qed.

Lemma transmitted_piece t : transmission_ok t → piece_of (r_tx r) (as_segment (transmitted t)).
Proof.
  intros Ht. pose proof (transmitted_incoming t Ht). destruct (Ht) as (_&Hs&_).
  pose proof (ok_segment cfg Hcfg). unfold as_segment. rewrite transmitted_offset by done.
  change (wire.d_Payload (transmitted t)) with (segment_bytes cfg (r_tx r) (tr_start t)).
  pose proof (segment_bytes_length cfg Hcfg (r_tx r) (tr_start t) ltac:(lia)) as Hl.
  split; [unfold len in *; lia|]. split; [|done]. unfold segment_bytes.
  rewrite length_take, length_drop. f_equal. unfold len in *. lia.
Qed.

(** Every byte is covered exactly when every aligned offset was transmitted. *)
Lemma transmitted_covers ts :
  Forall transmission_ok ts →
  (∀ i, (i < length (r_tx r))%nat → covers (as_segment ∘ transmitted <$> ts) i) ↔
  (∀ at_, (c_SegmentBytes cfg | at_) → 0 ≤ at_ < len (r_tx r) → at_ ∈ tr_start <$> ts).
Proof.
  intros Hts. rewrite Forall_forall in Hts. pose proof (ok_segment cfg Hcfg) as Hseg.
  set (seg := c_SegmentBytes cfg) in *.
  assert (∀ t, t ∈ ts → length (wire.d_Payload (transmitted t)) =
    Z.to_nat (Z.min seg (len (r_tx r) - tr_start t))) as Hpl.
  { intros t Ht. destruct (Hts t Ht) as (_&Hs&_).
    pose proof (segment_bytes_length cfg Hcfg (r_tx r) (tr_start t) ltac:(lia)) as Hl.
    change (wire.d_Payload (transmitted t)) with (segment_bytes cfg (r_tx r) (tr_start t)).
    fold seg in Hl. unfold len in *. lia. }
  split.
  - intros Hcov at_ [k Hk] Hat. destruct (Hcov (Z.to_nat at_)) as (s&pl&inc&Hin&Hr); [unfold len in *; lia|].
    apply list_elem_of_fmap in Hin as (t&Et&Ht). unfold as_segment, compose in Et.
    pose proof (f_equal (λ x, x.1.1) Et) as Es. pose proof (f_equal (λ x, x.1.2) Et) as Ep.
    cbn [fst snd] in Es, Ep. subst s pl. rewrite (Hpl t Ht) in Hr. destruct (Hts t Ht) as ([j Hj]&Hs&_).
    rewrite transmitted_offset in Hr by by apply Hts. fold seg in Hj, Hk.
    assert (tr_start t = at_) as <-; [|by apply list_elem_of_fmap_2].
    assert (j = k) by (assert (j * seg ≤ k * seg < j * seg + seg) by lia; nia). congruence.
  - intros Hall i Hi. set (at_ := Z.of_nat i - Z.of_nat i `mod` seg).
    pose proof (Z.mod_pos_bound (Z.of_nat i) seg ltac:(lia)).
    pose proof (Z.div_mod (Z.of_nat i) seg ltac:(lia)).
    pose proof (Z.mod_le (Z.of_nat i) seg ltac:(lia) ltac:(lia)).
    assert (at_ ∈ tr_start <$> ts) as (t&Et&Ht)%list_elem_of_fmap.
    { apply Hall; [exists (Z.of_nat i / seg); unfold at_; lia|unfold at_, len; lia]. }
    exists (Z.to_nat at_), (wire.d_Payload (transmitted t)), (wire.d_Incoming (transmitted t)).
    split.
    + apply list_elem_of_fmap. exists t. split; [|done]. unfold as_segment, compose.
      by rewrite transmitted_offset, <- Et by by apply Hts.
    + rewrite (Hpl t Ht), <- Et. unfold at_, len in *. lia.
Qed.

End transfer.

(** ** The theorems at the concrete endpoints *)

#[local] Existing Instance demo.runtime.

Definition demo_key : rpcKey := {| k_peer := demo.server; k_id := 8 |}.
Definition demo_state : Endpoint := demo.after demo.client false demo.call.
Definition demo_rpc : rpc := default (mkRpc demo_key [] 0 0 0 None false false 0 0 None None false) (e_heap demo_state !! 0%nat).


Lemma resend_reuses_boundaries_witness :
  ∃ starts e', resend demo.effective demo.client 0 0 3 7 demo_state = inl ((), e') ∧ NoDup starts ∧
    ∃ at_, at_ ∈ starts ∧ at_ ≤ 2 < at_ + c_SegmentBytes demo.effective.
Proof.
  destruct (resend_reuses_boundaries demo.config demo.effective demo.client false demo.seed demo.call demo_state
    demo_key 0 demo_rpc 0 3 7) as (starts&e'&?&_&_&?&_&Hcov);
    [demo_reachable|demo_plausible|vm_compute; reflexivity|vm_compute; reflexivity|
     vm_compute; discriminate|lia|lia|].
  exists starts, e'. split; [assumption|]. split; [assumption|]. apply Hcov.
  assert (r_sent demo_rpc = 3) as -> by (vm_compute; reflexivity). lia.
Defined.

(** Two segments, received in the wrong order and one of them twice. *)
Definition long_rpc : rpc :=
  mkRpc demo_key (replicate 2000 9) 2000 2000 0 None false false 0 0 None (Some []) false.
Definition transmissions : list transmission :=
  [mkTransmission 1400 2000 0 false; mkTransmission 0 2000 0 true; mkTransmission 1400 1400 1 true].

