(* ===== verification/Behaviour.v ===== *)
(** * What single operations of a reachable endpoint do

    Grant scheduling, calls and their cancellation, the writer's choice of
    packets, priorities of unscheduled bytes. *)
From S2P Require Import Prelude Wire WireFacts Assembly AssemblyFacts Api.
From S2P Require Import EndpointState Endpoint EndpointInv EndpointSend EndpointOps EndpointRecv.
From S2P Require Import EndpointTimer EndpointLoops Trace System.

#[local] Open Scope Z_scope.

(** ** Ranking *)

#[global] Instance candidate_le_total : Total candidate_le.
Proof. intros x y. unfold candidate_le. lia. Qed.

#[global] Instance candidate_le_trans : Transitive candidate_le.
Proof. intros x y z. unfold candidate_le. lia. Qed.

Lemma sorted_split {A} (R : A → A → Prop) `{!Transitive R} n l x y :
  Sorted R l → x ∈ take n l → y ∈ drop n l → R x y.
Proof.
  intros Hs Hx Hy. apply Sorted_StronglySorted in Hs; [|done].
  rewrite <- (take_drop n l) in Hs. by eapply StronglySorted_app_1_elem_of.
Qed.

Lemma regrant_all_lookup cfg ps heap p :
  NoDup ps →
  regrant_all cfg ps heap !! p = (if bool_decide (p ∈ ps) then regrant cfg else id) <$> heap !! p.
Proof.
  unfold regrant_all. revert heap. induction ps as [|q ps IH]; intros heap; cbn [foldl].
  { intros _. rewrite bool_decide_eq_false_2 by apply not_elem_of_nil. by destruct (heap !! p). }
  intros [Hnew Hnd]%NoDup_cons. rewrite IH by done. destruct (decide (p = q)) as [->|Hne].
  - rewrite (bool_decide_eq_false_2 (q ∈ ps)), (bool_decide_eq_true_2 (q ∈ q :: ps)) by (done || left).
    rewrite list_lookup_alter_eq. by destruct (heap !! q).
  - rewrite list_lookup_alter_ne by done. f_equal. case_bool_decide as Hin.
    + by rewrite bool_decide_eq_true_2 by by right.
    + by rewrite bool_decide_eq_false_2 by by intros [->|?]%elem_of_cons.
Qed.

(** A live RPC whose message is incomplete and not fully granted. *)
Definition awaits_grant (e : Endpoint) (x : loc * rpcKey * assembly) : Prop :=
  e_rpcs e !! x.1.2 = Some x.1.1 ∧
  ∃ r, e_heap e !! x.1.1 = Some r ∧ r_rx r = Some x.2 ∧
    a_count x.2 < len (a_data x.2) ∧ a_granted x.2 < len (a_data x.2).

Lemma ranked_awaits `{GoRuntime} cfg local gh n e x :
  Inv cfg local gh n Idle e → x ∈ ranked e ↔ awaits_grant e x.
Proof.
  intros Hinv. rewrite ranked_in, candidates_spec. split.
  - intros (k&r&Hin%entries_in&Hr&Ek&Hrest).
    pose proof (Inv_key _ _ _ _ _ _ _ _ _ Hinv Hin Hr) as E. split; [by rewrite <- Ek, E|]. by exists r.
  - intros [Hk (r&Hr&Hrest)]. exists x.1.2, r. split; [by apply entries_in|]. split; [done|].
    split; [by eapply Inv_key|done].
Qed.

(** The key [receive] files a packet with header [h] from [ip] under. *)
Definition filed (ip : IPAddr) (h : wire.Common) : rpcKey :=
  {| k_peer := {| IP := ip; Port := wire.h_SourcePort h |}; k_id := wire.LocalID h |}.

(** The ID of an accepted call. *)
Lemma Call_id `{GoRuntime} c local (Hcfg : config_ok c) (Hlocal : is_u16 (Port local))
    s past n e ctx deadline peer request p e' :
  let gh := plain s past in
  even_seed s → Inv c local gh n Idle e → Z.of_nat n < id_period → is_u16 (Port peer) →
  bytes_ok request → Call c local ctx deadline peer request e = inl (inr p, e') →
  Inv c local gh (S n) Idle e' ∧ ∃ r, e_heap e' !! p = Some r ∧ k_id (r_key r) = id_after s (S n).
Proof.
  intros gh (s0&Es&Hs0) Hinv Hn Hport Hby Hrun.
  pose proof (wp_Call c local gh Hcfg Hlocal s0 Es Hs0 n e ctx deadline peer request Hinv Hn Hport Hby ltac:(done)) as Hwp.
  unfold wp in Hwp. rewrite Hrun in Hwp. destruct (call_refused _ _ _ _ _); [by destruct Hwp|].
  destruct Hwp as (q&[= <-]&Hinv'&[_ Hr _ _ _]). split; [done|].
  destruct (inv_keys _ _ _ _ _ _ Hinv' {| k_peer := peer; k_id := id_after (g_seed gh) (S n) |} p) as (_&r&Hcell&Hk&_).
  { rewrite Hr. by rewrite lookup_insert_eq. }
  exists r. split; [done|]. by rewrite Hk.
Qed.

Section theorems.
Context `{GoRuntime} (cfg c : Config) (local : Addr) (handler : bool) (seed : list Z).
Context (evs : list event) (e : Endpoint).

(** C15: [schedule] grants by shortest remaining time: it opens the window of at
    most [Overcommit] waiting messages, none of them behind one it leaves out,
    to [GrantWindow] bytes past what has arrived and never further than the
    message, never closes a window, queues one GRANT for each window it opened,
    and touches no other RPC. *)
Theorem schedule_srpt :
  reachable cfg local handler seed c evs e → plausible local seed evs →
  ∃ cs e', schedule c local e = inl ((), e') ∧ len cs ≤ c_Overcommit c ∧
    Forall (awaits_grant e) cs ∧
    (∀ y, awaits_grant e y → y ∉ cs → len cs = c_Overcommit c ∧ Forall (λ x, candidate_le x y) cs) ∧
    e_rpcs e' = e_rpcs e ∧
    (∀ p, e_heap e' !! p = (if bool_decide (p ∈ cs.*1.*1) then regrant c else id) <$> e_heap e !! p) ∧
    e_outbound e' = e_outbound (emit (grants c local 0 cs) (set_e_ticks (S (e_ticks e)) e)).
Proof.
  intros Hreach Hok. destruct (reachable_Inv _ _ _ _ _ _ _ Hreach Hok) as (n&s&_&_&Hinv).
  pose proof (reachable_config _ _ _ _ _ _ _ Hreach) as Hcfg. destruct Hok as (Hport&_).
  destruct (schedule_run c local _ Hcfg Hport n e Hinv) as [Hrun _].
  pose proof (ok_overcommit c Hcfg) as Hover.
  assert (∀ x, x ∈ chosen c e → x ∈ ranked e) as Hsub.
  { intros x Hx. unfold chosen in Hx. rewrite <- (take_drop (Z.to_nat (c_Overcommit c)) (ranked e)).
    apply elem_of_app. by left. }
  eexists (chosen c e), _. split; [exact Hrun|]. split_and!.
  - unfold chosen, len. rewrite length_take. lia.
  - apply Forall_forall. intros x Hx%Hsub. by apply (ranked_awaits c local (plain s e) n e).
  - intros y Hy Hnot. apply (ranked_awaits c local (plain s e) n e) in Hy; [|done].
    rewrite <- (take_drop (Z.to_nat (c_Overcommit c)) (ranked e)) in Hy.
    apply elem_of_app in Hy as [?|Hy]; [done|]. split.
    + unfold chosen, len. rewrite length_take.
      assert (0 < length (drop (Z.to_nat (c_Overcommit c)) (ranked e)))%nat as Hl
        by (destruct (drop _ (ranked e)); [by apply not_elem_of_nil in Hy|simpl; lia]).
      rewrite length_drop in Hl. lia.
    + apply Forall_forall. intros x Hx. eapply sorted_split; [apply _| |exact Hx|exact Hy].
      unfold ranked. apply Sorted_merge_sort. apply _.
  - cbn. by rewrite emit_rpcs.
  - intros p. cbn [set_e_heap e_heap]. apply regrant_all_lookup. unfold chosen.
    rewrite !fmap_take. eapply sublist_NoDup; [by eapply (ranked_NoDup c local)|apply sublist_take].
  - done.
Qed.

(** C16: a call is refused by the first check that fails, with the error of that
    check, [Sent] false and no change of state; otherwise it gets a new even
    nonzero ID no live RPC of this peer has, its request is stored, its bytes
    are reserved, and it waits. *)
Theorem call_outcomes ctx_err ctx_deadline peer request :
  reachable cfg local handler seed c evs e → plausible local seed evs →
  is_u16 (Port peer) → bytes_ok request →
  ∃ o e', Call c local ctx_err ctx_deadline peer request e = inl (o, e') ∧
    match call_refused c ctx_err peer request e with
    | Some err => o = inl {| ce_Err := err; ce_Sent := false |} ∧ e' = e
    | None => ∃ p id r, o = inr p ∧ id ≠ 0 ∧ Z.even id = true ∧ is_u64 id ∧
        e_rpcs e !! {| k_peer := peer; k_id := id |} = None ∧
        e_rpcs e' = <[{| k_peer := peer; k_id := id |} := p]> (e_rpcs e) ∧
        e_heap e' !! p = Some r ∧ r_tx r = request ∧ r_result r = Some [] ∧
        s_BufferedBytes (e_stats e') = s_BufferedBytes (e_stats e) + len request ∧
        e_callers e' = p :: e_callers e
    end.
Proof.
  intros Hreach Hok Hport Hby. destruct (reachable_Inv _ _ _ _ _ _ _ Hreach Hok) as (n&s&Hseed&Hle&Hinv).
  pose proof (reachable_config _ _ _ _ _ _ _ Hreach) as Hcfg. destruct Hok as (Hlocal&_&_&Hn).
  destruct Hseed as (s0&Es&Hs0).
  destruct (wp_run _ _ _ (wp_Call c local (plain s e) Hcfg Hlocal s0 Es Hs0 n e ctx_err ctx_deadline
    peer request Hinv ltac:(lia) Hport Hby ltac:(done))) as (o&e'&Hrun&Hpost).
  exists o, e'. split; [exact Hrun|]. destruct (call_refused _ _ _ _ _); [done|].
  destruct Hpost as (p&->&_&[Hf Hr (r&Hcell&Htx&Hres) Hbytes Hcs]).
  destruct (id_after_range s0 n Hs0) as (Hu&Hz&Hev). cbn in Es. rewrite <- Es in Hu, Hz, Hev.
  exists p, (id_after s (S n)), r. by split_and!.
Qed.

(** No two calls share an ID: a later call of the same endpoint, to any
    peer, gets another RPC object with another ID, for as long as fewer than
    2^63 - 1 calls were made. *)
Theorem call_ids_distinct ctx1 deadline1 peer1 request1 p1 e1 evs2 e2
    ctx2 deadline2 peer2 request2 p2 e3 :
  reachable cfg local handler seed c evs e → plausible local seed evs →
  is_u16 (Port peer1) → bytes_ok request1 → is_u16 (Port peer2) → bytes_ok request2 →
  Call c local ctx1 deadline1 peer1 request1 e = inl (inr p1, e1) →
  steps c local handler e1 evs2 e2 → Z.of_nat (S (calls evs + calls evs2)) < id_period →
  Call c local ctx2 deadline2 peer2 request2 e2 = inl (inr p2, e3) →
  ∃ r1 r2, e_heap e3 !! p1 = Some r1 ∧ e_heap e3 !! p2 = Some r2 ∧
    k_id (r_key r1) ≠ k_id (r_key r2) ∧ p1 ≠ p2.
Proof.
  intros Hreach Hok Hport1 Hby1 Hport2 Hby2 Hc1 Hsteps Hn Hc2.
  destruct (reachable_Inv _ _ _ _ _ _ _ Hreach Hok) as (n&s&Hseed&Hle&Hinv).
  pose proof (reachable_config _ _ _ _ _ _ _ Hreach) as Hcfg. destruct Hok as (Hlocal&_).
  destruct (Call_id c local Hcfg Hlocal s e n e _ _ _ _ _ _ Hseed Hinv ltac:(lia) Hport1 Hby1 Hc1)
    as (Hinv1&r1&Hr1&Eid1).
  apply Inv_rebase in Hinv1. cbn [g_seed] in Hinv1.
  destruct (steps_Inv c local handler Hcfg Hlocal s e1 _ _ _ _ Hseed Hinv1 Hsteps ltac:(lia)) as (n2&Hn2&Hinv2).
  destruct (Call_id c local Hcfg Hlocal s e1 n2 e2 _ _ _ _ _ _ Hseed Hinv2 ltac:(lia) Hport2 Hby2 Hc2)
    as (Hinv3&r2&Hr2&Eid2).
  destruct (ev_cells _ _ (inv_past _ _ _ _ _ _ Hinv3) _ _ Hr1) as (r1'&Hr1'&Hk1&_).
  exists r1', r2. split; [done|]. split; [done|].
  assert (k_id (r_key r1') ≠ k_id (r_key r2)) as Hne.
  { rewrite Hk1, Eid1, Eid2. destruct Hseed as (s0&->&Hs0). apply id_after_inj; [done|lia|lia]. }
  split; [done|]. intros ->. congruence.
Qed.

(** A canceled call returns at once: it never blocks on the channel, gets
    the context's error (and whether anything was sent) if its RPC was still
    live, and otherwise the result that was already there. *)
Theorem cancel_never_blocks p err :
  reachable cfg local handler seed c evs e → plausible local seed evs → p ∈ e_callers e →
  ∃ v e' r, call_done p err e = inl (v, e') ∧ (p ∉ e_callers e') ∧ e_heap e !! p = Some r ∧
    (if bool_decide (e_rpcs e !! r_key r = Some p)
     then v = {| res_data := []; res_err := Some {| ce_Err := err;
                   ce_Sent := (0 <? r_sent r) || r_received r |} |}
     else r_result r = Some [v]).
Proof.
  intros Hreach Hok Hp. destruct (reachable_Inv _ _ _ _ _ _ _ Hreach Hok) as (n&s&_&_&Hinv).
  destruct (wp_run _ _ _ (wp_call_done c local _ n e p err Hinv Hp)) as (v&e'&Hrun&_&Hcs&r&Hr&Hv).
  exists v, e', r. split_and!; try done. rewrite Hcs. by intros [Hne _]%list_elem_of_filter.
Qed.

(** One round of the writer takes the oldest packet of the highest nonempty
    priority; DATA whose RPC is over or past its deadline is dropped and never
    reaches the socket; with nothing queued it goes to sleep, once closed it
    stops. *)
Theorem writer_round_spec :
  reachable cfg local handler seed c evs e → plausible local seed evs → e_writer e = WReady →
  ∃ e', writeLoop_next e = inl ((), e') ∧ writer_round e e'.
Proof.
  intros Hreach Hok Hw. destruct (reachable_Inv _ _ _ _ _ _ _ Hreach Hok) as (n&s&_&_&Hinv).
  destruct (wp_run _ _ _ (wp_writeLoop_next c local _ n e Hinv Hw)) as ([]&e'&Hrun&_&Hround).
  by exists e'.
Qed.

(** C17: no lost wakeup: a writer that sleeps while a packet is queued has a
    token waiting, so its select does not block and it takes the lock again. *)
Theorem no_lost_wakeup pick_done :
  reachable cfg local handler seed c evs e → plausible local seed evs →
  e_writer e = WWaiting → Exists (λ q, q ≠ []) (e_outbound e) → e_closed e = false →
  ∃ e', writeLoop_wake pick_done e = inl ((), e') ∧ e_writer e' = WReady.
Proof.
  intros Hreach Hok Hw Hq Hcl. destruct (reachable_Inv _ _ _ _ _ _ _ Hreach Hok) as (n&s&_&_&Hinv).
  pose proof (inv_wake _ _ _ _ _ _ Hinv Hw Hq) as Hwake.
  destruct (wp_run _ _ _ (wp_writeLoop_wake c local _ n e pick_done Hinv Hw)) as ([]&e'&Hrun&_&Hcase).
  exists e'. split; [done|]. destruct Hcase as [[? _]|[[_ ?]|(_&?&_)]]; congruence.
Qed.

(** The two ends of an RPC agree on its key.  A packet that [local] sends
    for the RPC [id] with [peer] is addressed to [peer]'s port and is filed
    there under [local] and the ID of the other parity; the packets sent back
    for that key are filed under the original one; and different RPCs of one
    endpoint get different keys. *)
Theorem rpc_keys_pair peer id id' t t' :
  is_u16 (Port local) → is_u64 id → is_u64 id' →
  wire.h_DestinationPort (wire.Header (wire.PCommonPacket (common local {| k_peer := peer; k_id := id |} t))) = Port peer ∧
  k_peer (filed (IP local) (common local {| k_peer := peer; k_id := id |} t)) = local ∧
  is_client (filed (IP local) (common local {| k_peer := peer; k_id := id |} t)) =
    negb (is_client {| k_peer := peer; k_id := id |}) ∧
  filed (IP peer) (common peer (filed (IP local) (common local {| k_peer := peer; k_id := id |} t)) t') =
    {| k_peer := peer; k_id := id |} ∧
  (filed (IP local) (common local {| k_peer := peer; k_id := id |} t) =
   filed (IP local) (common local {| k_peer := peer; k_id := id' |} t) → id = id').
Proof.
  intros Hp Hid Hid'.
  destruct (wire_facts.local_id_pairs (common local {| k_peer := peer; k_id := id |} t)
    (common peer (filed (IP local) (common local {| k_peer := peer; k_id := id |} t)) t') Hid eq_refl) as (E&_&Hev).
  split_and!; [done|by destruct local|exact Hev| |].
  - unfold filed at 1. rewrite E. by destruct peer.
  - intros [= Hx]. unfold wire.LocalID in Hx. cbn in Hx. apply (f_equal (λ z, Z.lxor z 1)) in Hx.
    by rewrite !Z.lxor_assoc, !Z.lxor_nilpotent, !Z.lxor_0_r in Hx.
Qed.

(** Unscheduled bytes go out at the highest priority whose cutoff admits a
    message of that length, at priority 0 when none does. *)
Theorem unsched_highest ip m :
  reachable cfg local handler seed c evs e → plausible local seed evs → is_u32 m →
  ∃ v, unsched ip m e = inl (v, e) ∧ 0 ≤ v ≤ 7 ∧
    let values := match e_cutoffs e !! ip with Some ct => ct_values ct | None => defaultCutoffs end in
    (∀ j x, v < Z.of_nat j → values !! j = Some x → x < m) ∧
    (v ≠ 0 → ∃ x, values !! Z.to_nat v = Some x ∧ m ≤ x).
Proof.
  intros Hreach Hok Hm. destruct (reachable_Inv _ _ _ _ _ _ _ Hreach Hok) as (n&s&_&_&Hinv).
  destruct (unsched_run c local (plain s e) n Idle e ip m Hinv) as (v&Hrun&Hv).
  exists v. split; [done|]. split; [done|]. revert Hrun. unfold unsched. m_unfold.
  set (values := match e_cutoffs e !! ip with Some ct => _ | None => _ end).
  destruct (unsched_loop values m 8) as [w|] eqn:Hl; [|done]. intros [= ->]. cbv zeta.
  assert (length values = 8%nat) as Hlen.
  { unfold values. destruct (e_cutoffs e !! ip) as [ct|] eqn:Hct; [|done].
    by destruct (inv_cutoffs _ _ _ _ _ _ Hinv _ _ Hct). }
  destruct (unsched_loop_spec values m 8 v Hlen Hm ltac:(lia) Hl) as [H1 H2]. split; [|done].
  intros j x Hj Hx. apply (H1 j x); [done| |done]. apply lookup_lt_Some in Hx. lia.
Qed.
End theorems.

(** ** The theorems at the concrete endpoints *)

#[local] Existing Instance demo.runtime.

(** A request of 20,000 bytes of which the first segment has arrived. *)
Definition long_request : list event :=
  (λ b, EvRead b (IP demo.client)) <$>
    take 1 (demo.sent (demo.after demo.client false [EvCall None None demo.server (replicate (Z.to_nat 20000) 1)])).

Lemma schedule_srpt_witness :
  ∃ cs e', schedule demo.effective demo.server (demo.after demo.server true long_request) = inl ((), e') ∧
    len cs ≤ c_Overcommit demo.effective ∧
    Forall (awaits_grant (demo.after demo.server true long_request)) cs.
Proof.
  destruct (schedule_srpt demo.config demo.effective demo.server true demo.seed long_request
    (demo.after demo.server true long_request)) as (cs&e'&H1&H2&H3&_); [demo_reachable|demo_plausible|].
  exists cs, e'. exact (conj H1 (conj H2 H3)).
Defined.

Lemma call_outcomes_witness :
  ∃ o e', Call demo.effective demo.client None None demo.server demo.request
    (demo.after demo.client false demo.call) = inl (o, e') ∧ ∃ p, o = inr p.
Proof.
  destruct (call_outcomes demo.config demo.effective demo.client false demo.seed demo.call
    (demo.after demo.client false demo.call) None None demo.server demo.request)
    as (o&e'&Hrun&Hcase); [demo_reachable|demo_plausible|by vm_compute|by repeat constructor|].
  exists o, e'. split; [exact Hrun|].
  assert (call_refused demo.effective None demo.server demo.request (demo.after demo.client false demo.call)
    = None) as Hok by (vm_compute; reflexivity).
  rewrite Hok in Hcase. destruct Hcase as (p&_&_&->&_). by exists p.
Defined.

Lemma call_ids_distinct_witness :
  ∃ r1 r2, e_heap (demo.after demo.client false (demo.call ++ demo.call)) !! 0%nat = Some r1 ∧
    e_heap (demo.after demo.client false (demo.call ++ demo.call)) !! 1%nat = Some r2 ∧
    k_id (r_key r1) ≠ k_id (r_key r2).
Proof.
  destruct (call_ids_distinct demo.config demo.effective demo.client false demo.seed []
    (demo.after demo.client false []) None None demo.server demo.request 0
    (demo.after demo.client false demo.call) [] (demo.after demo.client false demo.call)
    None None demo.server demo.request 1 (demo.after demo.client false (demo.call ++ demo.call)))
    as (r1&r2&H1&H2&H3&_);
    [demo_reachable|demo_plausible|by vm_compute|by repeat constructor|by vm_compute|by repeat constructor
    |vm_compute; reflexivity|constructor|by vm_compute|vm_compute; reflexivity|].
  exists r1, r2. exact (conj H1 (conj H2 H3)).
Defined.

Lemma cancel_never_blocks_witness :
  ∃ v e' r, call_done 0 Canceled (demo.after demo.client false demo.call) = inl (v, e') ∧
    (0%nat ∉ e_callers e') ∧ e_heap (demo.after demo.client false demo.call) !! 0%nat = Some r ∧
    (if bool_decide (e_rpcs (demo.after demo.client false demo.call) !! r_key r = Some 0%nat)
     then v = {| res_data := []; res_err := Some {| ce_Err := Canceled;
                   ce_Sent := (0 <? r_sent r) || r_received r |} |}
     else r_result r = Some [v]).
Proof.
  apply (cancel_never_blocks demo.config demo.effective demo.client false demo.seed demo.call);
    [demo_reachable|demo_plausible|demo_elem].
Defined.

Lemma writer_round_spec_witness :
  ∃ e', writeLoop_next (demo.after demo.client false demo.call) = inl ((), e') ∧
    writer_round (demo.after demo.client false demo.call) e'.
Proof.
  apply (writer_round_spec demo.config demo.effective demo.client false demo.seed demo.call);
    [demo_reachable|demo_plausible|vm_compute; reflexivity].
Defined.

(** The writer went to sleep before the call was made. *)
Lemma no_lost_wakeup_witness :
  ∃ e', writeLoop_wake false (demo.after demo.client false (EvWriteNext :: demo.call)) = inl ((), e') ∧
    e_writer e' = WReady.
Proof.
  apply (no_lost_wakeup demo.config demo.effective demo.client false demo.seed (EvWriteNext :: demo.call));
    [demo_reachable|demo_plausible|vm_compute; reflexivity| |vm_compute; reflexivity].
  apply Exists_exists. eexists. split; [apply (list_elem_of_lookup_2 _ 7); vm_compute; reflexivity|done].
Defined.

Lemma unsched_highest_witness :
  ∃ v, unsched (IP demo.server) 3000 (demo.after demo.client false demo.call) =
    inl (v, demo.after demo.client false demo.call) ∧ 0 ≤ v ≤ 7.
Proof.
  destruct (unsched_highest demo.config demo.effective demo.client false demo.seed demo.call
    (demo.after demo.client false demo.call) (IP demo.server) 3000) as (v&H1&H2&_);
    [demo_reachable|demo_plausible|by vm_compute|]. exists v. exact (conj H1 H2).
Defined.

Lemma rpc_keys_pair_witness :
  filed (IP demo.client) (common demo.client {| k_peer := demo.server; k_id := 8 |} wire.DataType) =
    {| k_peer := demo.client; k_id := 9 |} ∧
  filed (IP demo.server) (common demo.server {| k_peer := demo.client; k_id := 9 |} wire.DataType) =
    {| k_peer := demo.server; k_id := 8 |}.
Proof.
  split; [vm_compute; reflexivity|].
  destruct (rpc_keys_pair demo.client demo.server 8 10 wire.DataType wire.DataType)
    as (_&_&_&E&_); [by vm_compute..|exact E].
Defined.
