(* ===== verification/Lifecycle.v ===== *)
(** * The goroutines of an endpoint from New to Close (src/endpoint.go)

    [New] starts three goroutines and counts them in [e.wg]; each of them counts
    itself off when it returns, and [Close] waits until all have.  The state is
    the endpoint's together with the counter, the goroutines that still run and
    the calls of [Close] that wait. *)
From S2P Require Import Prelude Wire Assembly Api EndpointState Endpoint.
From S2P Require Import EndpointInv EndpointOps EndpointTimer EndpointLoops Trace System.

#[local] Open Scope Z_scope.

Module lifecycle.

(** ** State *)

(** [l_reader] and [l_timer] tell whether the goroutine runs; the writer is over
    when it is at [WExited]. *)
Record life := mkLife {
  l_end : Endpoint; l_wg : Z; l_reader : bool; l_timer : bool; l_waiting : nat
}.

Definition set_wg (n : Z) (s : life) : life := mkLife (l_end s) n (l_reader s) (l_timer s) (l_waiting s).
Definition stop_reader (s : life) : life := mkLife (l_end s) (l_wg s) false (l_timer s) (l_waiting s).
Definition stop_timer (s : life) : life := mkLife (l_end s) (l_wg s) (l_reader s) false (l_waiting s).
Definition set_waiting (n : nat) (s : life) : life := mkLife (l_end s) (l_wg s) (l_reader s) (l_timer s) n.

Definition on_end {A} (m : M Endpoint A) : M life A := λ s,
  match m (l_end s) with
  | inl (a, e) => inl (a, mkLife e (l_wg s) (l_reader s) (l_timer s) (l_waiting s))
  | inr f => inr f
  end.

(** [e.wg.Done()]: the counter of a WaitGroup must not become negative. *)
Definition wg_done : M life unit :=
  s ← get;
  if l_wg s <=? 0 then stop Panic else modify (set_wg (l_wg s - 1)).

(** What [New] leaves behind: [e.wg.Add(3)] and the three goroutines. *)
Definition started (e : Endpoint) : life := mkLife e 3 true true 0.

(** ** Only the writer moves the writer *)

Definition keeps_writer {A} (m : M Endpoint A) : Prop :=
  ∀ e a e', m e = inl (a, e') → e_writer e' = e_writer e.

Lemma keeps_ret {A} (a : A) : keeps_writer (mret a).
Proof. by intros e b e' [= _ <-]. Qed.

Lemma keeps_stop {A} x : keeps_writer (stop x : M Endpoint A).
Proof. done. Qed.

Lemma keeps_get : keeps_writer (get : M Endpoint Endpoint).
Proof. by intros e b e' [= _ <-]. Qed.

Lemma keeps_modify f : (∀ e, e_writer (f e) = e_writer e) → keeps_writer (modify f).
Proof. intros Hf e b e' [= _ <-]. apply Hf. Qed.

Lemma keeps_or_panic {A} (o : option A) : keeps_writer (or_panic o).
Proof. intros e b e'. destruct o; [by intros [= _ <-]|done]. Qed.

Lemma keeps_bind {A B} (m : M Endpoint A) (f : A → M Endpoint B) :
  keeps_writer m → (∀ a, keeps_writer (f a)) → keeps_writer (m ≫= f).
Proof.
  intros Hm Hf e b e2. unfold mbind, M_bind. destruct (m e) as [[a e1]|] eqn:E; [|done].
  intros Hb. rewrite (Hf a e1 b e2 Hb). by apply (Hm e a e1).
Qed.

Lemma keeps_for_each {A} (l : list A) body : (∀ x, keeps_writer (body x)) → keeps_writer (for_each l body).
Proof. intros Hb. induction l as [|x l IH]; [apply keeps_ret|]. by apply keeps_bind. Qed.

Create HintDb writer.
#[export] Hint Resolve keeps_ret keeps_stop keeps_get keeps_or_panic : writer.

(** The cases of a computation, one after the other. *)
Ltac keeps_auto :=
  repeat first
    [ progress intros
    | done
    | progress auto with writer
    | apply keeps_bind
    | apply keeps_modify
    | apply keeps_for_each
    | progress cbv zeta
    | progress autounfold with writer
    | match goal with |- e_writer (if ?b then _ else _) = _ => destruct b end
    | match goal with |- keeps_writer (match ?x with _ => _ end) => destruct x end ].

#[export] Hint Unfold load store alloc time_Now range_rpcs for_rpcs lookup_rpc bump count_sent count_received
  count_retransmission count_invalid count_dropped count_write_error count_completed count_handled add_buffered
  is_current cancel_context send_result reserve enqueue send control unsched sendSegment sendNew resend remove
  finish shutdown requestMissing grant_one schedule ack startHandler data_rpc data_cutoffs data_buffer data_complete
  data receive_grant receive_resend touch receive Call take_result call_done origin_live readLoop_error
  readLoop_packet timer_rpc timerLoop_tick start_waiting handler_reply handler_done : writer.

Section frame.
Context `{GoRuntime} (c : Config) (local : Addr) (handler : bool).

Lemma keeps_sendNew_loop fuel p : keeps_writer (sendNew_loop c local fuel p).
Proof. induction fuel; cbn [sendNew_loop]; keeps_auto. Qed.

Lemma keeps_resend_loop fuel p at_ end_ priority : keeps_writer (resend_loop c local fuel p at_ end_ priority).
Proof. revert at_. induction fuel; intros at_; cbn [resend_loop]; keeps_auto. Qed.

Lemma keeps_collect entries : keeps_writer (collect entries).
Proof. induction entries; cbn [collect]; keeps_auto. Qed.

Lemma keeps_grant_loop rank l : keeps_writer (grant_loop c local rank l).
Proof. revert rank. induction l; intros rank; cbn [grant_loop]; keeps_auto. Qed.
#[local] Hint Resolve keeps_sendNew_loop keeps_resend_loop keeps_collect keeps_grant_loop : writer.

(** Every event but the writer's own. *)
Lemma keeps_event ev :
  match ev with EvWriteNext | EvWriteWake _ | EvWritten _ => False | _ => True end →
  keeps_writer (run_event c local handler ev).
Proof. destruct ev; intros Hev; try done; cbn [run_event]; keeps_auto. Qed.
End frame.

(** ** Steps *)

(** What a goroutine does next, with what it receives from outside: the reader's
    call of ReadPacket returns, the timer's select takes a tick or the closed
    [done], the writer takes a packet, wakes up or its WritePacket returns; a
    call of [Close] begins or returns; anything else the endpoint does. *)
Inductive action :=
| ReadReturns (r : error + (list Z * IPAddr))
| TimerTick (now : Z) | TimerDone
| WriterNext | WriterWake (pick_done : bool) | WriterWritten (err : option error)
| CloseCall | CloseReturn
| Other (ev : event).

Section steps.
Context `{GoRuntime} (c : Config) (local : Addr) (handler : bool).

(** One round of [readLoop]. *)
Definition read_round (r : error + (list Z * IPAddr)) : M life unit :=
  match r with
  | inl err => on_end (readLoop_error err);; wg_done;; modify stop_reader
  | inr (b, ip) =>
      s ← get;
      on_end (readLoop_packet c local handler b ip);;
      if e_closed (l_end s) then wg_done;; modify stop_reader else mret ()
  end.

(** One round of [timerLoop]. *)
Definition timer_round (now : Z) : M life unit :=
  s ← get;
  on_end (timerLoop_tick c local now);;
  if e_closed (l_end s) then wg_done;; modify stop_timer else mret ().

(** A step of [writeLoop] that may be its last. *)
Definition writer_step (m : M Endpoint unit) : M life unit :=
  on_end m;;
  s ← get;
  match e_writer (l_end s) with
  | WExited => wg_done
  | _ => mret ()
  end.

(** [Close] up to [e.wg.Wait()]. *)
Definition Close : M life unit :=
  on_end (shutdown ErrClosed);;
  modify (λ s, set_waiting (S (l_waiting s)) s).

Definition life_step (a : action) : M life unit :=
  match a with
  | ReadReturns r => read_round r
  | TimerTick now => timer_round now
  | TimerDone => wg_done;; modify stop_timer
  | WriterNext => writer_step writeLoop_next
  | WriterWake pick_done => writer_step (writeLoop_wake pick_done)
  | WriterWritten err => writer_step (run_event c local handler (EvWritten err))
  | CloseCall => Close
  | CloseReturn => modify (λ s, set_waiting (pred (l_waiting s)) s)
  | Other ev => on_end (run_event c local handler ev)
  end.

(** The event of the endpoint that an action is. *)
Definition event_of (a : action) : option event :=
  match a with
  | ReadReturns (inl err) => Some (EvReadError err)
  | ReadReturns (inr (b, ip)) => Some (EvRead b ip)
  | TimerTick now => Some (EvTick now)
  | WriterNext => Some EvWriteNext
  | WriterWake pick_done => Some (EvWriteWake pick_done)
  | WriterWritten err => Some (EvWritten err)
  | CloseCall => Some EvClose
  | Other ev => Some ev
  | TimerDone | CloseReturn => None
  end.

(** When an action can happen: its goroutine runs and is there; [Wait] returns
    when the counter is zero. *)
Definition life_enabled (a : action) (s : life) : Prop :=
  match a with
  | ReadReturns _ => l_reader s = true
  | TimerTick _ => l_timer s = true
  | TimerDone => l_timer s = true ∧ e_done (l_end s) = true
  | CloseReturn => (0 < l_waiting s)%nat ∧ l_wg s = 0
  | Other ev =>
      match ev with EvCall _ _ _ _ | EvResult _ | EvCtxDone _ _ | EvReply _ _ => True | _ => False end
  | _ => True
  end ∧ match event_of a with Some ev => enabled ev (l_end s) | None => True end.

Inductive life_steps : life → list action → life → Prop :=
| life_nil s : life_steps s [] s
| life_cons s a s1 acts s2 :
    life_enabled a s → life_step a s = inl ((), s1) → life_steps s1 acts s2 → life_steps s (a :: acts) s2.

(** ** The invariant *)

Definition live (w : writer) : bool := match w with WExited => false | _ => true end.

(** The goroutines that have not returned. *)
Definition running (s : life) : Z :=
  Z.b2z (l_reader s) + Z.b2z (l_timer s) + Z.b2z (live (e_writer (l_end s))).

(** The counter is right, and a goroutine is over, or a call of [Close] waits,
    only when the endpoint is closed. *)
Record life_ok (s : life) : Prop := {
  lo_wg : l_wg s = running s;
  lo_closed : l_reader s = false ∨ l_timer s = false ∨ live (e_writer (l_end s)) = false ∨ (0 < l_waiting s)%nat →
    e_closed (l_end s) = true
}.

(** The endpoint's own invariant, relative to the state itself. *)
Definition good (n : nat) (e : Endpoint) : Prop := ∃ sd, even_seed sd ∧ Inv c local (plain sd e) n Idle e.

Context (Hcfg : config_ok c) (Hlocal : is_u16 (Port local)).

Definition writer_event (ev : event) : Prop :=
  match ev with EvWriteNext | EvWriteWake _ | EvWritten _ => True | _ => False end.

(** What an event does to the writer. *)
Definition writer_moves (ev : event) (e e' : Endpoint) : Prop :=
  match ev with
  | EvWriteNext => if e_closed e then e_writer e' = WExited else live (e_writer e') = true
  | EvWriteWake _ => if e_closed e then e_writer e' ∈ [WReady; WExited] else live (e_writer e') = true
  | EvWritten _ => e_writer e' = WReady
  | _ => e_writer e' = e_writer e
  end.

Lemma good_closed n e : good n e → e_done e = e_closed e ∧ e_io_closed e = e_closed e.
Proof. intros (sd&_&Hinv). destruct (inv_closed _ _ _ _ _ _ Hinv) as [Hd Hc]. split; [done|]. by apply Hc. Qed.

Lemma writer_moves_run sd n e ev e' :
  Inv c local (plain sd e) n Idle e → enabled ev e → run_event c local handler ev e = inl ((), e') →
  writer_moves ev e e'.
Proof.
  intros Hinv Hen Hrun. assert (¬ writer_event ev → e_writer e' = e_writer e) as Hkeep.
  { intros Hw. eapply (keeps_event c local handler ev); [by destruct ev|exact Hrun]. }
  destruct ev; try (apply Hkeep; by intros []); clear Hkeep; cbn [run_event enabled writer_moves] in *.
  - pose proof (wp_writeLoop_next c local _ n e Hinv Hen) as Hwp. unfold wp in Hwp. rewrite Hrun in Hwp.
    destruct Hwp as [_ Hr]. unfold writer_round in Hr. destruct (e_closed e); [done|].
    destruct Hr as [[_ ->]|(i&o&rest&_&_&[[_ ->]|[_ ->]])]; done.
  - pose proof (wp_writeLoop_wake c local _ n e pick_done Hinv Hen) as Hwp. unfold wp in Hwp. rewrite Hrun in Hwp.
    destruct Hwp as [_ [[-> _]|[[-> ->]|(->&_&->)]]]; [|set_solver|by rewrite Hen].
    destruct (e_closed e); [set_solver|done].
  - destruct Hen as [o Hw]. assert (writeLoop_done o err e = inl ((), e')) as Hd.
    { revert Hrun. unfold mbind, M_bind, get. by rewrite Hw. }
    pose proof (wp_writeLoop_done c local _ n e o err Hinv Hw) as Hwp. unfold wp in Hwp. rewrite Hd in Hwp. by destruct Hwp.
Qed.

(** The events that close the endpoint. *)
Definition closing (ev : event) : Prop := match ev with EvReadError _ | EvClose => True | _ => False end.

Lemma closing_run sd n e ev e' :
  Inv c local (plain sd e) n Idle e → closing ev → run_event c local handler ev e = inl ((), e') → e_closed e' = true.
Proof.
  intros Hinv Hc Hrun. assert (∃ err, shutdown err e = inl ((), e')) as [err Hs] by (destruct ev; try done; eauto).
  pose proof (wp_shutdown c local _ n e err Hinv) as Hwp. unfold wp in Hwp. rewrite Hs in Hwp. by destruct Hwp as (_&?&_).
Qed.

(** Every event of a good endpoint runs, and closing is for good. *)
Lemma wp_good_event n e ev :
  good n e → Z.of_nat n < id_period → enabled ev e →
  wp (run_event c local handler ev) (λ _ e', good (accepts c ev e + n) e' ∧
    (e_closed e = true ∨ closing ev → e_closed e' = true) ∧ writer_moves ev e e') e.
Proof.
  intros (sd&Hseed&Hinv) Hn Hen.
  pose proof (wp_run_event c local handler Hcfg Hlocal (plain sd e) n e ev Hseed Hinv Hn Hen (explained_plain _ _ _ _ _ _)) as Hwp.
  destruct (wp_run _ _ _ Hwp) as ([]&e'&Hrun&Hinv'). eapply wp_intro; [exact Hrun|]. split; [|split].
  - exists sd. split; [done|]. by eapply Inv_rebase in Hinv'.
  - intros [Hc|Hc]; [by apply (ev_closed _ _ (inv_past _ _ _ _ _ _ Hinv'))|].
    by apply (closing_run sd n e ev).
  - by eapply writer_moves_run.
Qed.

(** ** Steps of a closed endpoint *)

Definition goroutine (a : action) : nat :=
  match a with CloseCall | CloseReturn | Other _ => 0 | _ => 1 end.

(** The steps the goroutines of a closed endpoint can still take. *)
Definition writer_left (w : writer) : nat :=
  match w with WExited => 0 | WReady => 1 | WWaiting | WWriting _ => 2 end.

Definition left (s : life) : nat :=
  Nat.b2n (l_reader s) + Nat.b2n (l_timer s) + writer_left (e_writer (l_end s)).

Definition calls_of (a : action) (s : life) : nat :=
  match event_of a with Some ev => accepts c ev (l_end s) | None => 0 end.

(** What a step leads to. *)
Definition stepped (n : nat) (a : action) (s s' : life) : Prop :=
  good (calls_of a s + n) (l_end s') ∧ life_ok s' ∧
  (e_closed (l_end s) = true → e_closed (l_end s') = true ∧ (goroutine a + left s' ≤ left s)%nat).

Lemma wp_on_end {A} (m : M Endpoint A) Q s :
  wp m (λ a e, Q a (mkLife e (l_wg s) (l_reader s) (l_timer s) (l_waiting s))) (l_end s) → wp (on_end m) Q s.
Proof. unfold wp, on_end. by destruct (m (l_end s)) as [[a e]|]. Qed.

Lemma wp_wg_done Q s : 0 < l_wg s → Q () (set_wg (l_wg s - 1) s) → wp wg_done Q s.
Proof. intros Hwg HQ. unfold wg_done. do 2 wp_step. rewrite (proj2 (Z.leb_gt _ _)) by lia. by wp_step. Qed.

(** The reader or the timer returns, from a round that left the endpoint closed
    and the writer where it was. *)
Lemma wp_exit n a s (e : Endpoint) (stop_ : life → life) :
  (stop_ = stop_reader ∧ l_reader s = true ∨ stop_ = stop_timer ∧ l_timer s = true) →
  good (calls_of a s + n) e → e_closed e = true → e_writer e = e_writer (l_end s) → life_ok s → (goroutine a ≤ 1)%nat →
  wp (wg_done;; modify stop_) (λ _ s', stepped n a s s') (mkLife e (l_wg s) (l_reader s) (l_timer s) (l_waiting s)).
Proof.
  intros Hstop Hg Hc Hw [Hwg _] Ha. unfold running in Hwg. wp_step. apply wp_wg_done.
  { cbn. destruct Hstop as [[_ E]|[_ E]]; rewrite E in Hwg; destruct (l_reader s), (l_timer s), (live _); cbn in *; lia. }
  wp_step. unfold stepped, left. destruct Hstop as [[-> E]|[-> E]]; cbn; rewrite Hw, E in *.
  all: split; [done|]; split; [split; [unfold running; cbn; rewrite Hw; cbn in *; lia|done]|].
  all: intros _; split; [done|]; cbn; lia.
Qed.

(** A round after which the goroutine goes on. *)
Lemma stepped_on n a s e :
  good (calls_of a s + n) e → (e_closed (l_end s) = true → e_closed e = true) → e_writer e = e_writer (l_end s) →
  (e_closed (l_end s) = true → goroutine a = 0%nat) → life_ok s →
  stepped n a s (mkLife e (l_wg s) (l_reader s) (l_timer s) (l_waiting s)).
Proof.
  intros Hg Hc Hw Ha [Hwg Hcl]. unfold stepped, left. split; [done|]. cbn. rewrite Hw. split.
  - split; [unfold running; cbn; by rewrite Hw|]. cbn. rewrite Hw. auto.
  - intros E. split; [auto|]. rewrite (Ha E). lia.
Qed.

Lemma wp_read_round n r s :
  good n (l_end s) → Z.of_nat n < id_period → life_ok s → life_enabled (ReadReturns r) s →
  wp (read_round r) (λ _ s', stepped n (ReadReturns r) s s') s.
Proof.
  intros Hg Hn Hok [Hr Hen]. destruct r as [err|[b ip]]; cbn [read_round event_of] in *.
  - wp_step. apply wp_on_end. eapply wp_mono; [by apply (wp_good_event n _ (EvReadError err))|].
    intros [] e (Hg'&Hc'&Hw). apply wp_exit; auto using I.
  - do 3 wp_step. apply wp_on_end. eapply wp_mono; [by apply (wp_good_event n _ (EvRead b ip))|].
    intros [] e (Hg'&Hc'&Hw). destruct (e_closed (l_end s)) eqn:E; [apply wp_exit; auto|].
    wp_step. apply stepped_on; [done|by rewrite E|done|by rewrite E|done].
Qed.

Lemma wp_timer_round n now s :
  good n (l_end s) → Z.of_nat n < id_period → life_ok s → life_enabled (TimerTick now) s →
  wp (timer_round now) (λ _ s', stepped n (TimerTick now) s s') s.
Proof.
  intros Hg Hn Hok [Ht Hen]. unfold timer_round.
  do 3 wp_step. apply wp_on_end. eapply wp_mono; [by apply (wp_good_event n _ (EvTick now))|].
  intros [] e (Hg'&Hc'&Hw). destruct (e_closed (l_end s)) eqn:E; [apply wp_exit; auto|].
  wp_step. apply stepped_on; [done|by rewrite E|done|by rewrite E|done].
Qed.

(** A step of the writer. *)
Lemma wp_writer_step n a ev s :
  event_of a = Some ev → writer_event ev → goroutine a = 1%nat →
  good n (l_end s) → Z.of_nat n < id_period → life_ok s → enabled ev (l_end s) →
  wp (writer_step (run_event c local handler ev)) (λ _ s', stepped n a s s') s.
Proof.
  intros Ea Hev Ha Hg Hn [Hwg Hcl] Hen. unfold writer_step. wp_step. apply wp_on_end.
  eapply wp_mono; [by apply (wp_good_event n _ ev)|]. intros [] e (Hg'&Hc'&Hw). do 2 wp_step. cbn [l_end].
  assert (live (e_writer (l_end s)) = true) as Hlive.
  { destruct ev; try done; cbn in Hen; [by rewrite Hen|by rewrite Hen|by destruct Hen as [o ->]]. }
  assert (e_closed (l_end s) = true → (S (writer_left (e_writer e)) ≤ writer_left (e_writer (l_end s)))%nat) as Hless.
  { intros E. destruct ev; try done; cbn [writer_moves enabled] in *; rewrite ?E in Hw.
    - by rewrite Hw, Hen.
    - rewrite Hen. apply elem_of_cons in Hw as [Hw|Hw]; [|apply list_elem_of_singleton in Hw]; rewrite Hw; cbn; lia.
    - destruct Hen as [o ->]. by rewrite Hw. }
  assert (live (e_writer e) = false → e_closed e = true) as Hexit.
  { intros Hl. apply Hc'. left. destruct (e_closed (l_end s)) eqn:E; [done|]. destruct ev; try done; cbn in Hw.
    all: rewrite ?Hl, ?Hw, ?E in *; done. }
  assert (stepped n a s (mkLife e (l_wg s - (1 - Z.b2z (live (e_writer e)))) (l_reader s) (l_timer s) (l_waiting s))) as Hstep.
  { unfold stepped, left, calls_of, running in *. rewrite Ea, Ha. split; [done|]. split; [split|]; cbn.
    - unfold running. cbn. rewrite Hwg, Hlive. cbn. lia.
    - intros [?|[?|[?|?]]]; auto 7.
    - intros E. split; [auto|]. specialize (Hless E). lia. }
  destruct (e_writer e); cbn [live Z.b2z] in Hstep; rewrite ?Z.sub_diag, ?Z.sub_0_r in Hstep; try by wp_step.
  apply wp_wg_done; [|done]. cbn. rewrite Hwg. unfold running. rewrite Hlive. destruct (l_reader s), (l_timer s); cbn; lia.
Qed.

Lemma wp_life_step n a s :
  good n (l_end s) → Z.of_nat n < id_period → life_ok s → life_enabled a s →
  wp (life_step a) (λ _ s', stepped n a s s') s.
Proof.
  intros Hg Hn Hok Hen. destruct a; cbn [life_step].
  - by apply wp_read_round.
  - by apply wp_timer_round.
  - destruct Hen as [[Ht Hd] _]. destruct (good_closed n _ Hg) as [Hdc _]. rewrite Hd in Hdc. destruct s as [e wg r t k].
    apply (wp_exit n TimerDone (mkLife e wg r t k) e stop_timer); auto.
  - by apply (wp_writer_step n WriterNext EvWriteNext); [..|apply Hen].
  - by apply (wp_writer_step n (WriterWake pick_done) (EvWriteWake pick_done)); [..|apply Hen].
  - by apply (wp_writer_step n (WriterWritten err) (EvWritten err)); [..|apply Hen].
  - unfold Close. wp_step. apply wp_on_end. eapply wp_mono; [by apply (wp_good_event n _ EvClose)|].
    intros [] e (Hg'&Hc'&Hw). wp_step. specialize (Hc' (or_intror I)). cbn in Hw. destruct Hok as [Hwg _].
    split; [done|]. split; [split; [by unfold running in *; cbn; rewrite Hw|done]|].
    intros _. split; [done|]. unfold left. cbn. by rewrite Hw.
  - wp_step. destruct Hok as [Hwg Hcl]. destruct Hen as [[Hwait _] _]. unfold stepped. cbn. split; [done|].
    split; [split; [done|cbn; intros _; apply Hcl; auto]|]. intros E. by split.
  - apply wp_on_end. destruct Hen as [Hev Hen]. eapply wp_mono; [by apply (wp_good_event n _ ev)|].
    intros [] e (Hg'&Hc'&Hw). apply stepped_on; auto. by destruct ev.
Qed.

(** ** Sequences of steps *)

Definition calls_in (acts : list action) : nat := calls (omap event_of acts).

Definition moves (acts : list action) : nat := sum_list_with goroutine acts.

Lemma calls_in_cons a acts s : (calls_of a s + calls_in acts ≤ calls_in (a :: acts))%nat.
Proof.
  unfold calls_of, calls_in, calls. cbn [omap list_omap]. destruct (event_of a) as [ev|]; cbn; [|lia].
  pose proof (accepts_le c ev (l_end s)). lia.
Qed.

Lemma life_steps_ok n s acts s' :
  good n (l_end s) → life_ok s → life_steps s acts s' → Z.of_nat (n + calls_in acts) < id_period →
  ∃ m, (m ≤ n + calls_in acts)%nat ∧ good m (l_end s') ∧ life_ok s' ∧
    (e_closed (l_end s) = true → e_closed (l_end s') = true ∧ (moves acts + left s' ≤ left s)%nat).
Proof.
  intros Hg Hok Hsteps. revert n Hg Hok. induction Hsteps as [s|s a s1 acts s2 Hen Hrun Hsteps IH]; intros n Hg Hok Hn.
  { exists n. split; [lia|]. split; [done|]. split; [done|]. intros E. by split. }
  pose proof (calls_in_cons a acts s) as Hc.
  pose proof (wp_life_step n a s Hg ltac:(lia) Hok Hen) as Hwp. unfold wp in Hwp. rewrite Hrun in Hwp.
  destruct Hwp as (Hg1&Hok1&Hp1). destruct (IH _ Hg1 Hok1) as (m&Hm&Hgm&Hokm&Hp); [lia|].
  exists m. split; [lia|]. split; [done|]. split; [done|]. intros E. destruct (Hp1 E) as [E1 Hl1]. destruct (Hp E1) as [E2 Hl2].
  split; [done|]. unfold moves in *. cbn [sum_list_with]. lia.
Qed.

Lemma started_ok n e : good n e → e_closed e = false → e_writer e = WReady → life_ok (started e).
Proof. intros Hg Hc Hw. split; unfold running; cbn; rewrite Hw; cbn; [done|]. intros [?|[?|[?|?]]]; [done..|lia]. Qed.
End steps.

(** Everything that can happen to an endpoint that [New] made. *)
Definition life_reachable `{GoRuntime} (cfg c : Config) (local : Addr) (handler : bool) (seed : list Z)
  (acts : list action) (s : life) : Prop :=
  ∃ e, New true local cfg handler (inr seed) = inr (c, e) ∧ life_steps c local handler (started e) acts s.

(** What is assumed of the environment. *)
Definition life_plausible (local : Addr) (seed : list Z) (acts : list action) : Prop :=
  plausible local seed (omap event_of acts).

Section theorems.
Context `{GoRuntime} (cfg c : Config) (local : Addr) (handler : bool) (seed : list Z).

Lemma life_reachable_ok acts s :
  life_reachable cfg c local handler seed acts s → life_plausible local seed acts →
  ∃ n, (n ≤ calls_in acts)%nat ∧ good c local n (l_end s) ∧ life_ok s ∧ config_ok c.
Proof.
  intros (e&HN&Hsteps) (Hport&Hb&Hl&Hn). destruct (New_inv _ _ _ _ _ _ _ HN) as (Hd&_&_&_&_&He).
  pose proof (defaults_ok _ _ Hd) as Hcfg.
  assert (good c local 0 e) as Hg.
  { exists (e_nextID e). split; [rewrite He; by apply New_even_seed|]. by eapply New_Inv. }
  assert (life_ok (started e)) as Hok by (eapply (started_ok c local); [exact Hg|by rewrite He..]).
  destruct (life_steps_ok c local handler Hcfg Hport 0 (started e) acts s Hg Hok Hsteps Hn) as (m&Hm&Hgm&Hokm&_).
  exists m. split; [lia|]. by split.
Qed.

(** C11: [Close] returns: from the moment it has been called, whatever else
    happens, the three goroutines of the endpoint take at most four more steps
    between them, each that has not returned can take its next one, without a
    fault, as soon as the packet I/O's calls return, and when all have returned
    the counter is zero, never negative, and every waiting [Close] returns. *)
Theorem close_returns acts s acts' s' :
  life_reachable cfg c local handler seed acts s → (0 < l_waiting s)%nat →
  life_steps c local handler s acts' s' → life_plausible local seed (acts ++ acts') →
  e_closed (l_end s') = true ∧ e_io_closed (l_end s') = true ∧
  (moves acts' + left s' ≤ left s ≤ 4)%nat ∧ l_wg s' = running s' ∧
  (∀ a, life_enabled a s' → ∃ s'', life_step c local handler a s' = inl ((), s'')) ∧
  (l_reader s' = true → ∀ err, life_enabled (ReadReturns (inl err)) s') ∧
  (l_timer s' = true → life_enabled TimerDone s') ∧
  (live (e_writer (l_end s')) = true →
     ∃ a, a ∈ [WriterNext; WriterWake true; WriterWritten None] ∧ life_enabled a s') ∧
  (left s' = 0%nat → l_wg s' = 0 ∧ ((0 < l_waiting s')%nat → life_enabled CloseReturn s')).
Proof.
  intros Hreach Hwait Hsteps Hpl. unfold life_plausible in Hpl. rewrite omap_app in Hpl.
  destruct Hpl as (Hport&Hb&Hl&Hn). unfold calls in Hn. rewrite sum_list_with_app in Hn.
  destruct (life_reachable_ok acts s Hreach) as (n&Hle&Hg&Hok&Hcfg).
  { split_and!; try done. unfold calls. lia. }
  unfold calls_in, calls in Hle.
  destruct (life_steps_ok c local handler Hcfg Hport n s acts' s' Hg Hok Hsteps) as (m&Hm&Hg'&Hok'&Hp).
  { unfold calls_in, calls. lia. }
  unfold calls_in, calls in Hm. destruct (Hp (lo_closed _ Hok ltac:(auto))) as [Hc' Hleft].
  destruct (good_closed c local m _ Hg') as [Hd Hio]. rewrite Hc' in Hd, Hio. pose proof (lo_wg _ Hok') as Hwg.
  split; [done|]. split; [done|]. split.
  { split; [done|]. unfold left. destruct (l_reader s), (l_timer s), (e_writer (l_end s)); cbn; lia. }
  split; [done|]. split.
  { intros a Hen. destruct (wp_run _ _ _ (wp_life_step c local handler Hcfg Hport m a s' Hg' ltac:(lia) Hok' Hen))
      as ([]&s''&Hrun&_). by exists s''. }
  split; [by intros Hr err|]. split; [by intros Ht|]. split.
  - intros Hlive. unfold life_enabled. destruct (e_writer (l_end s')) eqn:Ew; try done.
    + exists WriterNext. split; [set_solver|]. cbn. by rewrite Ew.
    + exists (WriterWake true). split; [set_solver|]. cbn. by rewrite Ew.
    + exists (WriterWritten None). split; [set_solver|]. cbn. split; [done|]. by eexists.
  - unfold left, running in *. intros E. assert (l_wg s' = 0) as E0.
    { rewrite Hwg. destruct (l_reader s'), (l_timer s'), (e_writer (l_end s')); cbn in *; lia. }
    split; [done|]. intros Hw'. by split.
Qed.
End theorems.

(** ** A client that is closed at once *)
Module life_demo.
Import demo.
#[local] Existing Instance demo.runtime.

Definition step_to (a : action) (s : life) : life :=
  match life_step effective client false a s with inl (_, s') => s' | inr _ => s end.

Definition begun : life := started (start client false).
Definition closing_life : life := step_to CloseCall begun.
Definition ending_life : life := step_to TimerDone closing_life.

Lemma begun_closing : life_step effective client false CloseCall begun = inl ((), closing_life).
Proof. vm_compute. reflexivity. Qed.

Lemma closing_ending : life_step effective client false TimerDone closing_life = inl ((), ending_life).
Proof. vm_compute. reflexivity. Qed.

Lemma close_returns_witness :
  life_reachable config effective client false seed [CloseCall] closing_life ∧ (0 < l_waiting closing_life)%nat ∧
  (1 + left ending_life ≤ left closing_life ≤ 4)%nat ∧ l_wg ending_life = 2 ∧
  ∀ err, life_enabled (ReadReturns (inl err)) ending_life.
Proof.
  assert (life_reachable config effective client false seed [CloseCall] closing_life) as Hreach.
  { exists (start client false). split; [vm_compute; reflexivity|].
    eapply life_cons; [by split|exact begun_closing|constructor]. }
  assert (0 < l_waiting closing_life)%nat as Hwait by (vm_compute; lia).
  assert (life_steps effective client false closing_life [TimerDone] ending_life) as Hsteps.
  { eapply life_cons; [|exact closing_ending|constructor]. split; [|done]. by split; vm_compute. }
  assert (life_plausible client seed ([CloseCall] ++ [TimerDone])) as Hpl by by apply plausible_demo; vm_compute.
  destruct (close_returns config effective client false seed [CloseCall] closing_life [TimerDone] ending_life
    Hreach Hwait Hsteps Hpl) as (_&_&Hleft&Hwg&_&Hread&_).
  split; [exact Hreach|]. split; [exact Hwait|]. split; [exact Hleft|]. split; [rewrite Hwg; vm_compute; reflexivity|].
  apply Hread. vm_compute. reflexivity.
Defined.
End life_demo.
End lifecycle.
