(* ===== verification/Network.v ===== *)
(** * A network of endpoints

    Any number of endpoints, each with its own address, configuration, clock
    and seed, over a network that may lose, duplicate, delay and reorder
    datagrams, together with hosts outside the system that may send anything
    from their own addresses.  What a handler is given is what a caller sent;
    what a caller gets is what a handler answered to that request. *)
From stdpp Require Import functions.
From S2P Require Import Prelude Wire WireFacts Assembly AssemblyFacts Api.
From S2P Require Import EndpointState Endpoint EndpointInv EndpointSend EndpointOps EndpointRecv.
From S2P Require Import EndpointTimer EndpointLoops Trace System.

#[local] Open Scope Z_scope.

(** One endpoint of the network: what [New] was called with, and the
    configuration it made of it. *)
Record host := mkHost {
  n_runtime : GoRuntime;
  n_given : Config;
  n_config : Config;
  n_local : Addr;
  n_handler : bool;
  n_seed : list Z
}.

Record datagram := mkDatagram { dg_src : IPAddr; dg_dst : IPAddr; dg_data : list Z }.

#[global] Instance datagram_eq_dec : EqDecision datagram.
Proof. solve_decision. Defined.

(** The other end of an RPC files it under this key. *)
Definition mirror (local : Addr) (k : rpcKey) : rpcKey :=
  {| k_peer := local; k_id := Z.lxor (k_id k) 1 |}.

Section network.
Context {node : Type} `{EqDecision node} (hosts : node → host).

#[local] Abbreviation local i := (n_local (hosts i)).
#[local] Abbreviation config i := (n_config (hosts i)).

(** What the applications did: a call was accepted and filed under a key, a
    handler was given a request and returned a response. *)
Inductive entry :=
| Called (i : node) (k : rpcKey) (request : list Z)
| Served (i : node) (k : rpcKey) (request response : list Z).

(** The endpoints, every datagram that was ever put on the wire, and the log. *)
Record world := mkWorld {
  w_ends : node → Endpoint;
  w_sent : list datagram;
  w_log : list entry
}.

Inductive action :=
| ActLocal (i : node) (ev : event)
| ActTransmit (i : node)
| ActDeliver (i : node) (d : datagram)
| ActIntrude (i : node) (b : list Z) (ip : IPAddr).

Definition run (i : node) (ev : event) : M Endpoint unit :=
  @run_event (n_runtime (hosts i)) (config i) (local i) (n_handler (hosts i)) ev.

Definition entries (i : node) (ev : event) (e : Endpoint) : list entry :=
  match ev with
  | EvCall ctx_err _ peer request =>
      match call_refused (config i) ctx_err peer request e with
      | None => [Called i {| k_peer := peer; k_id := next_id (e_nextID e) |} request]
      | Some _ => []
      end
  | EvReply p response =>
      match e_heap e !! p, payload_of p e with
      | Some r, Some request => [Served i (r_key r) request response]
      | _, _ => []
      end
  | _ => []
  end.

Definition is_read (ev : event) : bool := match ev with EvRead _ _ => true | _ => false end.

(** An endpoint moves on its own; a datagram in the writer's hands reaches the
    wire, any number of times; a datagram from the wire reaches an endpoint at
    its destination, any number of times or never; a foreign host sends. *)
Inductive network_step : world → action → world → Prop :=
| step_local w i ev e' :
    is_read ev = false → enabled ev (w_ends w i) → run i ev (w_ends w i) = inl ((), e') →
    network_step w (ActLocal i ev)
      (mkWorld (<[i := e']> (w_ends w)) (w_sent w) (entries i ev (w_ends w i) ++ w_log w))
| step_transmit w i o :
    e_writer (w_ends w i) = WWriting o →
    network_step w (ActTransmit i)
      (mkWorld (w_ends w) (mkDatagram (IP (local i)) (o_peer o) (o_data o) :: w_sent w) (w_log w))
| step_deliver w i d e' :
    d ∈ w_sent w → dg_dst d = IP (local i) → enabled (EvRead (dg_data d) (dg_src d)) (w_ends w i) →
    run i (EvRead (dg_data d) (dg_src d)) (w_ends w i) = inl ((), e') →
    network_step w (ActDeliver i d) (mkWorld (<[i := e']> (w_ends w)) (w_sent w) (w_log w))
| step_intrude w i b ip e' :
    (∀ j, IP (local j) ≠ ip) → enabled (EvRead b ip) (w_ends w i) →
    run i (EvRead b ip) (w_ends w i) = inl ((), e') →
    network_step w (ActIntrude i b ip) (mkWorld (<[i := e']> (w_ends w)) (w_sent w) (w_log w)).

(** Every endpoint is as [New] made it and nothing was sent. *)
Definition initial (w : world) : Prop :=
  w_sent w = [] ∧ w_log w = [] ∧
  ∀ i, New true (local i) (n_given (hosts i)) (n_handler (hosts i)) (inr (n_seed (hosts i))) =
    inr (config i, w_ends w i).

Inductive network_reachable : list action → world → Prop :=
| reach_initial w : initial w → network_reachable [] w
| reach_step acts w a w' :
    network_reachable acts w → network_step w a w' → network_reachable (a :: acts) w'.

(** Distinct addresses, 16-bit ports, seeds of eight bytes, and fewer than
    2^63 - 1 actions. *)
Definition network_ok (acts : list action) : Prop :=
  (∀ i j, local i = local j → i = j) ∧
  (∀ i, is_u16 (Port (local i)) ∧ bytes_ok (n_seed (hosts i)) ∧ length (n_seed (hosts i)) = 8%nat) ∧
  Z.of_nat (length acts) < id_period.

(** ** Histories *)

(** The messages node [i] was given to send for [k]. *)
Definition sends (log : list entry) (i : node) (k : rpcKey) (m : list Z) : Prop :=
  Called i k m ∈ log ∨ ∃ request, Served i k request m ∈ log.

(** The bytes that may arrive at node [i] for [k]: of a peer in the system,
    those of a message it was given to send. *)
Definition arrivals (log : list entry) (i : node) (k : rpcKey) (l : Z) (at_ : nat) (b : Z) : Prop :=
  ∀ j, local j = k_peer k →
    ∃ m, sends log j (mirror (local i) k) m ∧ len m = l ∧ m !! at_ = Some b.

Definition first_id (i : node) : Z := Z.ldiff (be_decode (n_seed (hosts i))) 1.

Definition history (log : list entry) (i : node) (past : Endpoint) : ghost :=
  mkGhost (first_id i) past (sends log i) (arrivals log i).

(** A complete message received for [k]. *)
Definition arrived (log : list entry) (i : node) (k : rpcKey) (m : list Z) : Prop :=
  m ≠ [] ∧ ∀ at_ b, m !! at_ = Some b → arrivals log i k (len m) at_ b.

(** A datagram on the wire left the writer of an endpoint at its source. *)
Definition genuine (log : list entry) (d : datagram) : Prop :=
  ∃ j w, IP (local j) = dg_src d ∧ wire.packet_ok w ∧ (∀ P, @wire.marshalable P w) ∧
    dg_data d = wire.packetBytes w ∧ wire.h_SourcePort (wire.Header w) = Port (local j) ∧
    ∀ v, w = wire.PData v → ∃ m,
      sends log j {| k_peer := {| IP := dg_dst d; Port := wire.h_DestinationPort (wire.d_Common v) |};
                     k_id := wire.h_SenderID (wire.d_Common v) |} m ∧
      wire.d_MessageLength v = len m ∧
      ∀ i b, wire.d_Payload v !! i = Some b → m !! (Z.to_nat (wire.EffectiveOffset v) + i)%nat = Some b.

(** The calls node [i] has started. *)
Definition started_by (i : node) (en : entry) : nat :=
  match en with Called j _ _ => if decide (i = j) then 1 else 0 | Served _ _ _ _ => 0 end.

Definition calls_of (log : list entry) (i : node) : nat := sum_list_with (started_by i) log.

Record network_inv (w : world) : Prop := {
  ni_ends : ∀ i, @Inv (n_runtime (hosts i)) (config i) (local i) (history (w_log w) i (w_ends w i))
    (calls_of (w_log w) i) Idle (w_ends w i);
  ni_sent : ∀ d, d ∈ w_sent w → genuine (w_log w) d;
  ni_called : ∀ i k m, Called i k m ∈ w_log w →
    is_client k = true ∧ ∃ n, (n < calls_of (w_log w) i)%nat ∧ k_id k = id_after (first_id i) (S n);
  ni_unique : ∀ i k m m', Called i k m ∈ w_log w → Called i k m' ∈ w_log w → m = m';
  ni_served : ∀ i k q a, Served i k q a ∈ w_log w → is_client k = false ∧ arrived (w_log w) i k q
}.

(** ** Histories grow *)

Lemma sends_mono log log' i k m : log ⊆ log' → sends log i k m → sends log' i k m.
Proof. intros Hsub [H|[q H]]; [left|right; exists q]; by apply Hsub. Qed.

Lemma arrivals_mono log log' i k l at_ b : log ⊆ log' → arrivals log i k l at_ b → arrivals log' i k l at_ b.
Proof. intros Hsub Ha j Hj. destruct (Ha j Hj) as (m&?&?). exists m. eauto using sends_mono. Qed.

Lemma arrived_mono log log' i k m : log ⊆ log' → arrived log i k m → arrived log' i k m.
Proof. intros Hsub [? Ha]. split; [done|]. intros. eapply arrivals_mono; eauto. Qed.

Lemma genuine_mono log log' d : log ⊆ log' → genuine log d → genuine log' d.
Proof.
  intros Hsub (j&w&?&?&?&?&?&Hv). exists j, w. do 5 (split; [done|]). intros v Ev.
  destruct (Hv v Ev) as (m&?&?). exists m. split; [by eapply sends_mono|done].
Qed.

Lemma Inv_history log log' i past n e :
  log ⊆ log' → evolves past e → @Inv (n_runtime (hosts i)) (config i) (local i) (history log i e) n Idle e →
  @Inv (n_runtime (hosts i)) (config i) (local i) (history log' i past) n Idle e.
Proof.
  intros Hsub Hev Hinv. eapply (@Inv_weaken_ghost (n_runtime (hosts i))); [..|exact Hinv|]; try done; cbn.
  - intros k m. by apply sends_mono.
  - intros k l at_ b. by apply arrivals_mono.
Qed.

(** ** Every step keeps the invariant *)

Section preserved.
Context (Hcfg : ∀ i, config_ok (config i)) (Hport : ∀ i, is_u16 (Port (local i))).
Context (Hinj : ∀ i j, local i = local j → i = j) (Hseed : ∀ i, even_seed (first_id i)).

Lemma run_Inv log log' i n e ev e' :
  log ⊆ log' → @Inv (n_runtime (hosts i)) (config i) (local i) (history log i e) n Idle e →
  Z.of_nat n < id_period → enabled ev e →
  explained (config i) (local i) (history log' i e) ev e →
  run i ev e = inl ((), e') →
  @Inv (n_runtime (hosts i)) (config i) (local i) (history log' i e') (accepts (config i) ev e + n) Idle e'.
Proof.
  intros Hsub Hinv Hn Hen Hex Hrun.
  assert (Inv (config i) (local i) (history log' i e) n Idle e) as Hinv' by by eapply Inv_history.
  pose proof (@wp_run_event (n_runtime (hosts i)) (config i) (local i) (n_handler (hosts i)) (Hcfg i) (Hport i)
    (history log' i e) n e ev (Hseed i) Hinv' Hn Hen Hex) as Hwp.
  unfold wp, run in *. rewrite Hrun in Hwp. by apply (@Inv_rebase (n_runtime (hosts i))) in Hwp.
Qed.

Lemma calls_of_app l1 l2 i : calls_of (l1 ++ l2) i = (calls_of l1 i + calls_of l2 i)%nat.
Proof. apply sum_list_with_app. Qed.

Lemma calls_of_entries i j ev e :
  calls_of (entries i ev e) j = if decide (i = j) then accepts (config i) ev e else 0%nat.
Proof.
  destruct ev; cbn; repeat case_match; try done; cbn;
    repeat case_decide; congruence || lia.
Qed.

(** A read does not add to the log. *)
Lemma read_step w i b ip e' :
  network_inv w → Z.of_nat (calls_of (w_log w) i) < id_period → enabled (EvRead b ip) (w_ends w i) →
  (∀ p, wire.Parse b = Some (inr p) →
    packet_arrives (local i) (history (w_log w) i (w_ends w i)) ip p) →
  run i (EvRead b ip) (w_ends w i) = inl ((), e') →
  network_inv (mkWorld (<[i := e']> (w_ends w)) (w_sent w) (w_log w)).
Proof.
  intros [] Hn Hen Harr Hrun. split; cbn; try done. intros j.
  destruct (decide (i = j)) as [<-|Hne]; [|by rewrite fn_lookup_insert_ne].
  rewrite fn_lookup_insert. by apply (run_Inv (w_log w) (w_log w) i _ (w_ends w i) (EvRead b ip)).
Qed.

(** A packet that left an endpoint of the system brings what that endpoint was
    given to send. *)
Lemma genuine_arrives log i d past p :
  genuine log d → dg_dst d = IP (local i) →
  wire.Parse (dg_data d) = Some (inr p) →
  packet_arrives (local i) (history log i past) (dg_src d) p.
Proof.
  intros (j&w&Hsrc&Hok&Hm&Hb&Hsp&Hseg) Hdst HP v -> Hdp at_ b Hat j' Hj'. cbn in Hj'.
  pose proof (@wire_facts.Parse_bytes amd64 w [] Hok (Hm _) ltac:(done)) as HP'.
  rewrite app_nil_r, <- Hb, HP in HP'. injection HP' as HP'.
  destruct w as [u|?|?|?|?|?|?|?|?|[]|?]; cbn in HP'; try done; try (repeat case_match; done).
  injection HP' as <-. destruct (Hseg v eq_refl) as (m&Hs&Hl&Hp). exists m.
  assert (j' = j) as -> by (apply Hinj; rewrite Hj'; cbn in Hsp; rewrite Hsp, <- Hsrc; by destruct (local j)).
  split; [|split; [done|by apply Hp]]. unfold mirror. cbn [k_id wire.LocalID]. unfold wire.LocalID.
  rewrite Z.lxor_assoc, Z.lxor_nilpotent, Z.lxor_0_r.
  rewrite Hdst, Hdp in Hs. by destruct (local i).
Qed.

Lemma entries_called i ev e j k m :
  Called j k m ∈ entries i ev e →
  j = i ∧ accepts (config i) ev e = 1%nat ∧ k_id k = next_id (e_nextID e) ∧
  ∀ m', Called j k m' ∈ entries i ev e → m' = m.
Proof.
  destruct ev; cbn; try by intros ?%not_elem_of_nil.
  - destruct (call_refused _ _ _ _ _); [by intros ?%not_elem_of_nil|].
    intros [= -> -> ->]%list_elem_of_singleton. split_and!; try done.
    by intros m' [= ->]%list_elem_of_singleton.
  - repeat case_match; try by intros ?%not_elem_of_nil. by intros ?%list_elem_of_singleton.
Qed.

Lemma entries_served i ev e j k q a :
  Served j k q a ∈ entries i ev e →
  j = i ∧ ∃ p r, e_heap e !! p = Some r ∧ payload_of p e = Some q ∧ k = r_key r.
Proof.
  destruct ev; cbn; try by intros ?%not_elem_of_nil.
  - case_match; [by intros ?%not_elem_of_nil|by intros ?%list_elem_of_singleton].
  - repeat case_match; try by intros ?%not_elem_of_nil. intros [= -> -> -> ->]%list_elem_of_singleton. eauto 10.
Qed.

(** What an application does is in the log before its endpoint acts on it. *)
Lemma local_explained log i ev e n :
  @Inv (n_runtime (hosts i)) (config i) (local i) (history log i e) n Idle e →
  is_read ev = false → enabled ev e →
  explained (config i) (local i) (history (entries i ev e ++ log) i e) ev e.
Proof.
  intros Hinv Hread Hen. destruct ev; cbn in *; try done.
  - intros ->. left. apply elem_of_app. left. by apply list_elem_of_singleton.
  - intros r Hr. destruct Hen as [Hp _]. destruct (payload_of_running _ _ _ _ _ _ Hinv Hp) as (q&Hq&_).
    right. exists q. apply elem_of_app. left. rewrite Hr, Hq. by apply list_elem_of_singleton.
Qed.

Lemma served_arrived log i e n p r q :
  @Inv (n_runtime (hosts i)) (config i) (local i) (history log i e) n Idle e →
  e_heap e !! p = Some r → payload_of p e = Some q →
  is_client (r_key r) = false ∧ arrived log i (r_key r) q.
Proof.
  intros Hinv Hr Hq. unfold payload_of in Hq. apply fmap_Some in Hq as ([k [p' q']]&Hf&->). cbn.
  apply list_find_Some in Hf as (Hk&Ep&_). cbn in Ep. subst p'. apply list_elem_of_lookup_2 in Hk.
  destruct (inv_running _ _ _ _ _ _ Hinv) as [_ Hrun]. rewrite Forall_forall in Hrun.
  destruct (Hrun _ Hk) as (r'&Hr'&Hc&_&_&_&_&Hm). cbn in Hr'. rewrite Hr in Hr'. injection Hr' as <-. done.
Qed.

(** The key of a new call is none of those in the log. *)
Lemma called_new w i ev j k m :
  network_inv w → Z.of_nat (calls_of (w_log w) i) < id_period →
  Called j k m ∈ entries i ev (w_ends w i) →
  j = i ∧ accepts (config i) ev (w_ends w i) = 1%nat ∧ is_client k = true ∧
  k_id k = id_after (first_id i) (S (calls_of (w_log w) i)) ∧ ∀ m', Called j k m' ∉ w_log w.
Proof.
  intros [] Hn Hin. destruct (entries_called _ _ _ _ _ _ Hin) as (->&Hacc&Hid&_).
  rewrite (inv_next _ _ _ _ _ _ (ni_ends0 i)) in Hid.
  change (k_id k = id_after (first_id i) (S (calls_of (w_log w) i))) in Hid.
  destruct (Hseed i) as (s0&Es&Hs0). split_and!; try done.
  { unfold is_client. rewrite Hid, Es. by apply id_after_range. }
  intros m' Hin'. destruct (ni_called0 _ _ _ Hin') as (_&n&Hlt&Hid'). rewrite Hid, Es in Hid'.
  symmetry in Hid'. revert Hid'. apply id_after_inj; lia.
Qed.

Lemma local_step w i ev e' :
  network_inv w → Z.of_nat (calls_of (w_log w) i) < id_period → is_read ev = false →
  enabled ev (w_ends w i) → run i ev (w_ends w i) = inl ((), e') →
  network_inv (mkWorld (<[i := e']> (w_ends w)) (w_sent w) (entries i ev (w_ends w i) ++ w_log w)).
Proof.
  intros Hinv Hn Hread Hen Hrun. pose proof (λ j k m, called_new w i ev j k m Hinv Hn) as Hnew.
  destruct Hinv. set (log' := entries i ev (w_ends w i) ++ w_log w).
  assert (w_log w ⊆ log') as Hsub by (intros en Hin; apply elem_of_app; by right).
  assert (∀ j, calls_of log' j = (if decide (i = j) then accepts (config i) ev (w_ends w i) else 0%nat)
    + calls_of (w_log w) j)%nat as Hcalls by (intros j; unfold log'; by rewrite calls_of_app, calls_of_entries).
  split; cbn [w_ends w_sent w_log].
  - intros j. destruct (decide (i = j)) as [<-|Hne].
    + rewrite fn_lookup_insert, Hcalls, decide_True by done.
      apply (run_Inv (w_log w) log' i _ (w_ends w i) ev); try done. by eapply local_explained.
    + rewrite fn_lookup_insert_ne, Hcalls, decide_False by done. by eapply Inv_history.
  - intros d Hd. by eapply genuine_mono, ni_sent0.
  - intros j k m [Hin|Hin]%elem_of_app.
    + destruct (Hnew _ _ _ Hin) as (->&Hacc&Hc&Hid&_). split; [done|].
      eexists. split; [|exact Hid]. rewrite Hcalls, decide_True by done. lia.
    + destruct (ni_called0 _ _ _ Hin) as (?&n&?&?). split; [done|]. exists n. rewrite Hcalls. split; [lia|done].
  - intros j k m m' [Hin|Hin]%elem_of_app [Hin'|Hin']%elem_of_app; [|..|by eapply ni_unique0].
    + symmetry. by eapply entries_called.
    + destruct (Hnew _ _ _ Hin) as (_&_&_&_&Hno). by apply Hno in Hin'.
    + destruct (Hnew _ _ _ Hin') as (_&_&_&_&Hno). by apply Hno in Hin.
  - intros j k q a [Hin|Hin]%elem_of_app.
    + destruct (entries_served _ _ _ _ _ _ _ Hin) as (->&p&r&Hr&Hq&->).
      destruct (served_arrived _ _ _ _ _ _ _ (ni_ends0 i) Hr Hq). eauto using arrived_mono.
    + destruct (ni_served0 _ _ _ _ Hin). eauto using arrived_mono.
Qed.

Lemma marshalable_any P P' w :
  @wire.marshalable P w → wire.packet_ok w → len (wire.packetBytes w) ≤ 1480 → @wire.marshalable P' w.
Proof.
  intros Hm Hok Hl. destruct w as [v|?|?|?|?|?|?|?|?|?|?]; try exact Hm.
  rewrite packet_length, wire_facts.bodyBytes_data, len_app in Hl by done.
  destruct Hm as [? _]. split; [done|]. pose proof (@maxInt_lower P').
  pose proof (len_nonneg (wire_facts.dataHead v)). unfold wire.DataSize. lia.
Qed.

Lemma transmit_step w i o :
  network_inv w → e_writer (w_ends w i) = WWriting o →
  network_inv (mkWorld (w_ends w) (mkDatagram (IP (local i)) (o_peer o) (o_data o) :: w_sent w) (w_log w)).
Proof.
  intros [] Hw. split; cbn; try done. intros d [->|Hd]%elem_of_cons; [|by apply ni_sent0].
  destruct (inv_writing _ _ _ _ _ _ (ni_ends0 i) o Hw) as (q&_&_&_&v&Hok&Hm&Hb&_&Hl&Hsp&Hseg).
  exists i, v. do 2 (split; [done|]). split; [|done].
  intros P. apply (marshalable_any _ P v Hm Hok). by rewrite <- Hb.
Qed.

Lemma network_step_inv w a w' :
  network_inv w → (∀ i, Z.of_nat (calls_of (w_log w) i) < id_period) → network_step w a w' → network_inv w'.
Proof.
  intros Hinv Hn Hstep. destruct Hstep as [w i ev e' ???|w i o ?|w i d e' Hd Hdst ??|w i b ip e' Hip ??].
  - by apply local_step.
  - by apply transmit_step.
  - apply (read_step w i (dg_data d) (dg_src d)); try done. intros p HP.
    eapply genuine_arrives; [by eapply ni_sent|done..].
  - apply (read_step w i b ip); try done. intros p _ v -> _ at_ x _ j Hj. by destruct (Hip j); rewrite Hj.
Qed.
End preserved.

(** ** Reachable states of the network *)

Lemma calls_of_le log i : (calls_of log i ≤ length log)%nat.
Proof.
  unfold calls_of. induction log as [|[j ? ?|? ? ? ?] log IH]; cbn in *; [done| |lia]. case_decide; lia.
Qed.

Lemma network_step_log w a w' : network_step w a w' → (length (w_log w') ≤ S (length (w_log w)))%nat.
Proof.
  intros []; cbn; try lia. rewrite length_app. destruct ev; cbn; repeat case_match; cbn; lia.
Qed.

Lemma network_reachable_initial acts w : network_reachable acts w → ∃ w0, initial w0.
Proof. induction 1; eauto. Qed.

Lemma initial_config w i : initial w → config_ok (config i).
Proof. intros (_&_&HN). destruct (New_inv _ _ _ _ _ _ _ (HN i)) as [Hd _]. by eapply defaults_ok. Qed.

Lemma initial_inv w : initial w → network_inv w.
Proof.
  intros (Hs&Hl&HN). split; rewrite ?Hs, ?Hl; try (intros; by apply not_elem_of_nil in H).
  intros i. pose proof (@New_Inv (n_runtime (hosts i)) _ _ _ _ _ _ _ (sends [] i) (arrivals [] i) (HN i)) as Hinv.
  destruct (New_inv _ _ _ _ _ _ _ (HN i)) as (_&_&_&_&_&E). unfold history, first_id.
  by rewrite E in Hinv |- *.
Qed.

Lemma network_reachable_inv acts w :
  network_reachable acts w → network_ok acts → network_inv w ∧ (length (w_log w) ≤ length acts)%nat.
Proof.
  induction 1 as [w Hw|acts w a w' Hreach IH Hstep].
  { intros _. split; [by apply initial_inv|]. destruct Hw as (_&->&_). cbn. lia. }
  intros (Hinj&Hnodes&Hlen). cbn [length] in Hlen.
  destruct IH as [Hinv Hle]. { split; [done|]. split; [done|]. lia. }
  pose proof (network_step_log _ _ _ Hstep). split; [|cbn; lia].
  destruct (network_reachable_initial _ _ Hreach) as [w0 Hw0].
  eapply network_step_inv; [..|exact Hstep]; try done.
  - intros i. by eapply initial_config.
  - intros i. by apply Hnodes.
  - intros i. destruct (Hnodes i) as (_&?&?). by apply New_even_seed.
  - intros i. pose proof (calls_of_le (w_log w) i). lia.
Qed.

(** ** What arrives *)

Lemma mirror_client l k : is_client (mirror l k) = negb (is_client k).
Proof. apply lxor_1_even. Qed.

Lemma mirror_twice l k : mirror (k_peer k) (mirror l k) = k.
Proof.
  destruct k as [peer id]. unfold mirror. cbn. by rewrite Z.lxor_assoc, Z.lxor_nilpotent, Z.lxor_0_r.
Qed.

(** Only calls are sent under a client's key, only answers under a server's. *)
Lemma sends_called w i k m :
  network_inv w → is_client k = true → sends (w_log w) i k m → Called i k m ∈ w_log w.
Proof. intros Hinv Hc [?|[q Hq]]; [done|]. destruct (ni_served _ Hinv _ _ _ _ Hq). congruence. Qed.

Lemma sends_served w i k m :
  network_inv w → is_client k = false → sends (w_log w) i k m → ∃ q, Served i k q m ∈ w_log w.
Proof. intros Hinv Hc [Hm|?]; [|done]. destruct (ni_called _ Hinv _ _ _ Hm). congruence. Qed.

(** A message of the right length with the right bytes. *)
Lemma eq_by_bytes (l k : list Z) :
  len k = len l → (∀ at_ x, l !! at_ = Some x → k !! at_ = Some x) → k = l.
Proof.
  intros Hl Hb. unfold len in Hl. symmetry. apply (list_eq_same_length _ _ (length l)); [lia|done|].
  intros at_ x y _ Hx Hy. apply Hb in Hx. congruence.
Qed.

(** A request that arrived is the one that was called. *)
Lemma request_called w i j k q :
  network_inv w → is_client k = false → k_peer k = local i → arrived (w_log w) j k q →
  Called i (mirror (local j) k) q ∈ w_log w.
Proof.
  intros Hinv Hc Hi [Hq Harr].
  assert (∀ at_ b, q !! at_ = Some b → ∃ m, Called i (mirror (local j) k) m ∈ w_log w ∧ len m = len q ∧
    m !! at_ = Some b) as Hbytes.
  { intros at_ b Hb. destruct (Harr at_ b Hb i (eq_sym Hi)) as (m&Hs&?&?). exists m. split; [|done].
    apply sends_called; [done| |done]. by rewrite mirror_client, Hc. }
  destruct q as [|b q]; [done|]. destruct (Hbytes 0%nat b eq_refl) as (m&Hm&Hl&_).
  rewrite <- (eq_by_bytes (b :: q) m Hl); [done|]. intros at_ x Hx.
  destruct (Hbytes at_ x Hx) as (m'&Hm'&_&Hx'). by rewrite (ni_unique _ Hinv _ _ _ _ Hm' Hm) in Hx'.
Qed.

(** Each byte of a reply that arrived is one of a handler's answer to the
    request of that call. *)
Lemma reply_served w i j k data :
  network_inv w → is_client k = true → k_peer k = local j → arrived (w_log w) i k data →
  ∃ request, Called i k request ∈ w_log w ∧ ∀ at_ b, data !! at_ = Some b →
    ∃ response, Served j (mirror (local i) k) request response ∈ w_log w ∧
      len response = len data ∧ response !! at_ = Some b.
Proof.
  intros Hinv Hc Hj [Hdata Harr].
  assert (is_client (mirror (local i) k) = false) as Hs by by rewrite mirror_client, Hc.
  assert (∀ at_ b, data !! at_ = Some b → ∃ request response, Called i k request ∈ w_log w ∧
    Served j (mirror (local i) k) request response ∈ w_log w ∧ len response = len data ∧
    response !! at_ = Some b) as Hbytes.
  { intros at_ b Hb. destruct (Harr at_ b Hb j (eq_sym Hj)) as (m&Hm&?&?).
    destruct (sends_served _ _ _ _ Hinv Hs Hm) as [q Hq]. exists q, m. split; [|done].
    destruct (ni_served _ Hinv _ _ _ _ Hq) as [_ Hq'].
    pose proof (request_called w i j _ q Hinv Hs eq_refl Hq') as Hcall.
    by rewrite <- Hj, mirror_twice in Hcall. }
  destruct data as [|b data]; [done|]. destruct (Hbytes 0%nat b eq_refl) as (q&_&Hq&_).
  exists q. split; [done|]. intros at_ x Hx. destruct (Hbytes at_ x Hx) as (q'&a&Hq'&Ha).
  exists a. by rewrite (ni_unique _ Hinv _ _ _ _ Hq Hq').
Qed.

(** What [Call] returns to the caller of [p], by either case of its select. *)
Definition call_returns (p : loc) (e : Endpoint) (v : result) : Prop :=
  (∃ e', take_result p e = inl (Some v, e')) ∨ ∃ err e', call_done p err e = inl (v, e').

Lemma call_returns_arrived w i p r v :
  network_inv w → p ∈ e_callers (w_ends w i) → e_heap (w_ends w i) !! p = Some r →
  call_returns p (w_ends w i) v → res_err v = None →
  is_client (r_key r) = true ∧ arrived (w_log w) i (r_key r) (res_data v).
Proof.
  intros Hinv Hp Hr Hret Hok. pose proof (ni_ends _ Hinv i) as Hi.
  destruct (inv_callers _ _ _ _ _ _ Hi) as [_ Hf]. rewrite Forall_forall in Hf.
  destruct (Hf p Hp) as (r'&Hr'&Hc&Hcase). rewrite Hr in Hr'. injection Hr' as <-. split; [done|].
  assert (∃ v', r_result r = Some [v'] ∧ v' = v ∧ e_rpcs (w_ends w i) !! r_key r ≠ Some p) as (v'&Hv'&->&Hdead).
  { destruct Hret as [[e' Ht]|(err&e'&Ht)].
    - destruct (take_result_run _ _ _ _ _ _ Hi Hp) as (r'&Hr'&[[_ Hn]|[? (u&?&Hu&_&Hn&_)]]); [congruence|].
      exists u. rewrite Hr in Hr'. injection Hr' as <-. rewrite Hn in Ht. by injection Ht.
    - pose proof (wp_call_done _ _ _ _ _ _ err Hi Hp) as Hwp. unfold wp in Hwp. rewrite Ht in Hwp.
      destruct Hwp as (_&_&r'&Hr'&Hv). rewrite Hr in Hr'. injection Hr' as <-.
      case_bool_decide; [by subst v|]. by exists v. }
  destruct Hcase as [|[_ (u&Hu&Huok)]]; [done|]. rewrite Hv' in Hu. injection Hu as ->. by apply Huok.
Qed.

(** C1: what a handler is given for an RPC of another endpoint is byte for byte
    the request of the call that endpoint made under the same ID, whatever the
    network lost, duplicated, delayed or reordered and whatever foreign hosts
    sent. *)
Theorem handler_gets_request acts w i j p payload r :
  network_reachable acts w → network_ok acts →
  (p, payload) ∈ e_running (w_ends w j) → e_heap (w_ends w j) !! p = Some r →
  k_peer (r_key r) = local i → Called i (mirror (local j) (r_key r)) payload ∈ w_log w.
Proof.
  intros Hreach Hok Hrun Hr Hpeer. destruct (network_reachable_inv _ _ Hreach Hok) as [Hinv _].
  destruct (inv_running _ _ _ _ _ _ (ni_ends _ Hinv j)) as [_ Hf]. rewrite Forall_forall in Hf.
  destruct (Hf _ Hrun) as (r'&Hr'&Hc&_&_&_&_&Hm). cbn in Hr'. rewrite Hr in Hr'. injection Hr' as <-.
  by apply request_called.
Qed.

(** C2: when a call to an endpoint of the system succeeds, its request reached
    that endpoint's handler unchanged, every byte it returns comes from an
    answer of that handler to that request, and if all such answers agree, in
    particular if the handler ran once, it returns exactly that answer. *)
Theorem call_gets_answer acts w i j p r v :
  network_reachable acts w → network_ok acts →
  p ∈ e_callers (w_ends w i) → e_heap (w_ends w i) !! p = Some r → k_peer (r_key r) = local j →
  call_returns p (w_ends w i) v → res_err v = None →
  ∃ request, Called i (r_key r) request ∈ w_log w ∧
    (∀ at_ b, res_data v !! at_ = Some b →
      ∃ answer, Served j (mirror (local i) (r_key r)) request answer ∈ w_log w ∧
        len answer = len (res_data v) ∧ answer !! at_ = Some b) ∧
    ((∀ a a', Served j (mirror (local i) (r_key r)) request a ∈ w_log w →
              Served j (mirror (local i) (r_key r)) request a' ∈ w_log w → a = a') →
     Served j (mirror (local i) (r_key r)) request (res_data v) ∈ w_log w).
Proof.
  intros Hreach Hok Hp Hr Hpeer Hret Herr. destruct (network_reachable_inv _ _ Hreach Hok) as [Hinv _].
  destruct (call_returns_arrived _ _ _ _ _ Hinv Hp Hr Hret Herr) as [Hc Harr].
  destruct (reply_served _ _ _ _ _ Hinv Hc Hpeer Harr) as (request&Hcall&Hbytes).
  exists request. split; [done|]. split; [done|]. intros Hsame. destruct Harr as [Hne _].
  destruct (res_data v) as [|b data]; [done|]. destruct (Hbytes 0%nat b eq_refl) as (a&Ha&Hl&_).
  rewrite <- (eq_by_bytes (b :: data) a Hl); [done|]. intros at_ x Hx.
  destruct (Hbytes at_ x Hx) as (a'&Ha'&_&Hx'). by rewrite (Hsame a' a Ha' Ha) in Hx'.
Qed.

(** ** Executions as functions *)

Definition perform (a : action) (w : world) : option world :=
  match a with
  | ActLocal i ev =>
      if negb (is_read ev) && enabledb ev (w_ends w i) then
        match run i ev (w_ends w i) with
        | inl (_, e') =>
            Some (mkWorld (<[i := e']> (w_ends w)) (w_sent w) (entries i ev (w_ends w i) ++ w_log w))
        | inr _ => None
        end
      else None
  | ActTransmit i =>
      match e_writer (w_ends w i) with
      | WWriting o =>
          Some (mkWorld (w_ends w) (mkDatagram (IP (local i)) (o_peer o) (o_data o) :: w_sent w) (w_log w))
      | _ => None
      end
  | ActDeliver i d =>
      if bool_decide (d ∈ w_sent w) && bool_decide (dg_dst d = IP (local i)) &&
         enabledb (EvRead (dg_data d) (dg_src d)) (w_ends w i)
      then match run i (EvRead (dg_data d) (dg_src d)) (w_ends w i) with
           | inl (_, e') => Some (mkWorld (<[i := e']> (w_ends w)) (w_sent w) (w_log w))
           | inr _ => None
           end
      else None
  | ActIntrude _ _ _ => None
  end.

(** A schedule: events of a node, [ActTransmit], and the delivery of the [n]-th
    latest datagram. *)
Inductive move := Do (i : node) (ev : event) | Send (i : node) | Recv (i : node) (n : nat).

Definition action_of (m : move) (w : world) : option action :=
  match m with
  | Do i ev => Some (ActLocal i ev)
  | Send i => Some (ActTransmit i)
  | Recv i n => ActDeliver i <$> w_sent w !! n
  end.

Fixpoint play (ms : list move) (acts : list action) (w : world) : option (list action * world) :=
  match ms with
  | [] => Some (acts, w)
  | m :: ms => a ← action_of m w; w' ← perform a w; play ms (a :: acts) w'
  end.

Lemma perform_step a w w' : perform a w = Some w' → network_step w a w'.
Proof.
  destruct a as [i ev|i|i d|i b ip]; cbn [perform].
  - destruct (negb _ && _) eqn:E; [|done]. destruct (run i ev (w_ends w i)) as [[[] e']|] eqn:Hrun; [|done]. intros [= <-].
    apply andb_true_iff in E as [E1%negb_true_iff E2]. constructor; [done|by apply enabledb_sound|done].
  - destruct (e_writer (w_ends w i)) eqn:Hw; try done. intros [= <-]. by constructor.
  - destruct (_ && _ && _) eqn:E; [|done]. destruct (run i (EvRead (dg_data d) (dg_src d)) (w_ends w i)) as [[[] e']|] eqn:Hrun; [|done]. intros [= <-].
    apply andb_true_iff in E as [[E1%bool_decide_eq_true E2%bool_decide_eq_true]%andb_true_iff E3].
    constructor; [done..|by apply enabledb_sound|done].
  - done.
Qed.

Lemma play_reachable ms acts w acts' w' :
  network_reachable acts w → play ms acts w = Some (acts', w') → network_reachable acts' w'.
Proof.
  revert acts w. induction ms as [|m ms IH]; intros acts w Hreach; cbn [play]; [by intros [= <- <-]|].
  destruct (action_of m w) as [a|]; [|done]. cbn. destruct (perform a w) as [w1|] eqn:Hp; [|done]. cbn.
  apply IH. econstructor; [done|by apply perform_step].
Qed.
End network.

Arguments Called {node} _ _ _.
Arguments Served {node} _ _ _ _.
Arguments mkWorld {node} _ _ _.

(** ** A caller and a server

    The endpoints of [System.demo] with a network between them. *)
Module net_demo.
Inductive party := Caller | Server.

#[global] Instance party_eq_dec : EqDecision party.
Proof. solve_decision. Defined.

Definition hosts (i : party) : host :=
  match i with
  | Caller => mkHost demo.runtime demo.config demo.effective demo.client false demo.seed
  | Server => mkHost demo.runtime demo.config demo.effective demo.server true demo.seed
  end.

Definition start : @world party :=
  mkWorld (λ i, match i with Caller => demo.start demo.client false | Server => demo.start demo.server true end) [] [].

Lemma start_initial : initial hosts start.
Proof. split; [done|]. split; [done|]. intros []; by vm_compute. Qed.

Lemma demo_ok acts : (Z.of_nat (length acts) <? id_period) = true → network_ok hosts acts.
Proof.
  intros Hl%Z.ltb_lt. split; [by intros [] []|]. split; [|done].
  intros []; (split; [by vm_compute|]; split; [by repeat constructor|done]).
Qed.

(** The writer of [i] takes the next packet and puts it on the wire. *)
Definition write (i : party) : list (move (node := party)) :=
  [Do i EvWriteNext; Send i; Do i (EvWritten None)].

(** The request reaches the server twice. *)
Definition asking : list move :=
  Do Caller (EvCall None None demo.server demo.request) :: write Caller ++ [Recv Server 0; Recv Server 0].

(** The answer, behind the server's cutoffs, reaches the caller. *)
Definition answering : list move :=
  asking ++ Do Server (EvReply 0 demo.reply) :: write Server ++ write Server ++ [Recv Caller 0].

Definition after (ms : list move) : list (@action party) * world := default ([], start) (play hosts ms [] start).

Lemma after_reachable ms :
  bool_decide (is_Some (play hosts ms [] start)) = true →
  network_reachable hosts (after ms).1 (after ms).2.
Proof.
  intros [[acts w] Hp]%bool_decide_eq_true. unfold after. rewrite Hp.
  by eapply play_reachable; [apply reach_initial, start_initial|].
Qed.

(** The first RPC of [i] is filed under [k]. *)
Definition filed_under (w : @world party) (i : party) (k : rpcKey) : bool :=
  match e_heap (w_ends w i) !! 0%nat with Some r => bool_decide (r_key r = k) | None => false end.

Lemma filed_under_cell w i k :
  filed_under w i k = true → ∃ r, e_heap (w_ends w i) !! 0%nat = Some r ∧ r_key r = k.
Proof.
  unfold filed_under. destruct (e_heap (w_ends w i) !! 0%nat) as [r|]; [|done].
  intros Hk%bool_decide_eq_true. by exists r.
Qed.

Definition first_key (peer : Addr) (server : bool) : rpcKey :=
  {| k_peer := peer; k_id := if server then 9 else 8 |}.

Ltac run_demo := vm_compute; reflexivity.

(** The handler of the server has the request of the caller. *)
Lemma handler_gets_request_witness :
  network_reachable hosts (after asking).1 (after asking).2 ∧
  Called Caller (mirror demo.server (first_key demo.client true)) demo.request ∈ w_log (after asking).2.
Proof.
  assert (network_reachable hosts (after asking).1 (after asking).2) as Hreach
    by (apply after_reachable; run_demo).
  assert (network_ok hosts (after asking).1) as Hok by (apply demo_ok; run_demo).
  assert (filed_under (after asking).2 Server (first_key demo.client true) = true) as Hk by run_demo.
  assert (bool_decide ((0%nat, demo.request) ∈ e_running (w_ends (after asking).2 Server)) = true) as Hrun by run_demo.
  apply bool_decide_eq_true in Hrun. apply filed_under_cell in Hk as (r&Hr&Ek).
  split; [exact Hreach|]. rewrite <- Ek.
  apply (handler_gets_request hosts (after asking).1 (after asking).2 Caller Server 0 demo.request r Hreach Hok Hrun Hr).
  by rewrite Ek.
Defined.

Definition returned (w : @world party) (data : list Z) : bool :=
  match take_result 0 (w_ends w Caller) with
  | inl (Some v, _) => bool_decide (res_data v = data) && bool_decide (res_err v = None)
  | _ => false
  end.

Lemma returned_result w data :
  returned w data = true →
  ∃ v, call_returns 0 (w_ends w Caller) v ∧ res_data v = data ∧ res_err v = None.
Proof.
  unfold returned. destruct (take_result 0 (w_ends w Caller)) as [[[v|] e']|] eqn:Ht; try done.
  intros [Hd%bool_decide_eq_true He%bool_decide_eq_true]%andb_true_iff. exists v.
  split; [left; by exists e'|done].
Qed.

(** The caller has the server's answer to its request. *)
Lemma call_gets_answer_witness :
  network_reachable hosts (after answering).1 (after answering).2 ∧
  ∃ v, call_returns 0 (w_ends (after answering).2 Caller) v ∧ res_data v = demo.reply ∧
    ∃ request, Called Caller (first_key demo.server false) request ∈ w_log (after answering).2.
Proof.
  assert (network_reachable hosts (after answering).1 (after answering).2) as Hreach
    by (apply after_reachable; run_demo).
  assert (network_ok hosts (after answering).1) as Hok by (apply demo_ok; run_demo).
  assert (filed_under (after answering).2 Caller (first_key demo.server false) = true) as Hk by run_demo.
  assert (returned (after answering).2 demo.reply = true) as Hret by run_demo.
  assert (bool_decide (0%nat ∈ e_callers (w_ends (after answering).2 Caller)) = true) as Hp by run_demo.
  apply bool_decide_eq_true in Hp. apply filed_under_cell in Hk as (r&Hr&Ek).
  apply returned_result in Hret as (v&Hret&Hd&He).
  split; [exact Hreach|]. exists v. split; [exact Hret|]. split; [exact Hd|].
  assert (k_peer (r_key r) = n_local (hosts Server)) as Hpeer by by rewrite Ek.
  destruct (call_gets_answer hosts (after answering).1 (after answering).2 Caller Server 0 r v
    Hreach Hok Hp Hr Hpeer Hret He) as (request&Hcall&_).
  exists request. rewrite <- Ek. exact Hcall.
Defined.
End net_demo.

(** ** Two executions of one call

    The condition of [call_gets_answer] on the answers is needed.  A server that
    forgets an RPC before the caller does, because its [Timeout] is shorter, runs
    the handler again when the request arrives once more, and the caller puts
    segments of both answers together. *)
Module splice.
Import net_demo.

(** A clock that moves on once, from zero to two seconds. *)
Definition late_clock (n : nat) : Z := if (n <? 10)%nat then 0 else 2 * Second.

Lemma late_clock_mono n m : (n ≤ m)%nat → late_clock n ≤ late_clock m.
Proof.
  intros Hle. unfold late_clock. destruct (Nat.ltb_spec n 10), (Nat.ltb_spec m 10); (lia || by vm_compute).
Qed.

Definition late : GoRuntime := {|
  runtime_platform := amd64;
  clock := late_clock;
  clock_mono := late_clock_mono;
  map_order := λ _ m, map_to_list m;
  map_order_perm := λ _ m, Permutation_refl (map_to_list m)
|}.

Definition given : Config := mkConfig 0 0 0 0 Second 0 256 0 0 0.
Definition effective : Config := match defaults given with inr c => c | inl _ => given end.

Definition spliced_hosts (i : party) : host :=
  match i with
  | Caller => hosts Caller
  | Server => mkHost late given effective demo.server true demo.seed
  end.

Definition answer1 : list Z := replicate 257 1.
Definition answer2 : list Z := replicate 257 2.

(** The handler answers once; only the first segment of two arrives; the server
    gives up; the request arrives again and is answered again; the second
    segment of that answer arrives. *)
Definition schedule : list move :=
  [Do Caller (EvCall None None demo.server demo.request)] ++ write Caller ++ [Recv Server 0] ++
  [Do Server (EvReply 0 answer1)] ++ write Server ++ write Server ++ write Server ++ [Recv Caller 1] ++
  [Do Server (EvTick (2 * Second)); Recv Server 3; Do Server (EvReply 1 answer2)] ++
  write Server ++ write Server ++ write Server ++ [Recv Caller 0].

Definition final : list (@action party) * world :=
  default ([], start) (play spliced_hosts schedule [] start).

Lemma spliced_initial : initial spliced_hosts start.
Proof. split; [done|]. split; [done|]. intros []; by vm_compute. Qed.

Lemma spliced_ok acts : (Z.of_nat (length acts) <? id_period) = true → network_ok spliced_hosts acts.
Proof.
  intros Hl%Z.ltb_lt. split; [by intros [] []|]. split; [|done].
  intros []; (split; [by vm_compute|]; split; [by repeat constructor|done]).
Qed.

Definition answers (log : list (@entry party)) : list (list Z) :=
  omap (λ en, match en with Served _ _ _ a => Some a | Called _ _ _ => None end) log.

Lemma answers_in log i k request answer : Served i k request answer ∈ log → answer ∈ answers log.
Proof. intros Hin. apply list_elem_of_omap. by exists (Served i k request answer). Qed.

(** A call can succeed with bytes that no handler ever returned. *)
Theorem answers_spliced :
  network_reachable spliced_hosts final.1 final.2 ∧ network_ok spliced_hosts final.1 ∧
  ∃ v, call_returns 0 (w_ends final.2 Caller) v ∧ res_err v = None ∧
    res_data v = take 256 answer1 ++ drop 256 answer2 ∧
    ∀ i k request answer, Served i k request answer ∈ w_log final.2 → answer ≠ res_data v.
Proof.
  assert (returned final.2 (take 256 answer1 ++ drop 256 answer2) = true) as Hret by run_demo.
  assert (bool_decide (take 256 answer1 ++ drop 256 answer2 ∈ answers (w_log final.2)) = false) as Hno by run_demo.
  apply returned_result in Hret as (v&Hret&Hd&He). apply bool_decide_eq_false in Hno.
  split; [|split; [apply spliced_ok; run_demo|]].
  - assert (bool_decide (is_Some (play spliced_hosts schedule [] start)) = true) as Hp by run_demo.
    apply bool_decide_eq_true in Hp as [[acts w] Hp]. unfold final. rewrite Hp.
    by eapply play_reachable; [apply reach_initial, spliced_initial|].
  - exists v. do 3 (split; [done|]). intros i k request answer Hin%answers_in ->. by rewrite Hd in Hin.
Qed.
End splice.
