(* ===== verification/Net.v ===== *)
(** * Streams, Ethernet frames and IPv4 headers of the interoperability tools

    What src/interop/lanrelay/main.go and src/interop/vmcheck/main.go share:
    the local stream socket to QEMU, on which each Ethernet frame follows its
    length, and the IPv4 header checksum.  The socket is a parameter: reads
    take bytes from what the other side sent, a write takes as many bytes as
    the socket chooses and may fail.  So are the system calls on a raw socket,
    which the relay and src/rawip.go use. *)
From S2P Require Import Prelude Wire Api.

#[local] Open Scope Z_scope.

(** ** Errors and addresses *)

(** [Errno code] is an error whose chain contains that system error. *)
Inductive io_error :=
| ShortWrite | EOF | UnexpectedEOF | InvalidFrame | ShortBuffer | UnexpectedPeer
| InvalidSource | InvalidPriority | InvalidSize | NetClosed
| Errno (code : Z).

#[global] Instance io_error_eq_dec : EqDecision io_error.
Proof. solve_decision. Defined.

(** [netip.Addr.AsSlice]. *)
Definition AsSlice (ip : IPAddr) : list Z :=
  match ip with
  | IPNone => []
  | IPv4 a => be_encode 4 a
  | IPv6 a _ => be_encode 16 a
  end.

(** ** The stream socket *)

(** [c_in] are the bytes the peer sent and nobody read yet, [c_out] the bytes
    written so far, [c_calls] the number of calls made to the socket. *)
Record conn := mkConn { c_in : list Z; c_out : list Z; c_calls : nat }.

(** The socket's choices, by call: whether setting a deadline fails, and what
    [Write] returns, which by the contract of io.Writer is the number of bytes
    taken, at most as many as it was given. *)
Class Socket := {
  set_deadline : nat → option io_error;
  write_result : nat → list Z → Z * option io_error;
  write_result_ok : ∀ n b, 0 ≤ (write_result n b).1 ≤ len b
}.

(** A socket that takes everything at once. *)
Definition plain_socket : Socket := {|
  set_deadline := λ _, None;
  write_result := λ _ b, (len b, None);
  write_result_ok := λ _ b, conj (Zle_0_nat (length b)) (Z.le_refl (len b))
|}.

Section stream.
Context `{Socket}.

Definition conn_SetWriteDeadline : M conn (option io_error) :=
  c ← get;
  modify (λ c, mkConn (c_in c) (c_out c) (S (c_calls c)));;
  mret (set_deadline (c_calls c)).

Definition conn_Write (b : list Z) : M conn (Z * option io_error) :=
  c ← get;
  let r := write_result (c_calls c) b in
  modify (λ c, mkConn (c_in c) (c_out c ++ take (Z.to_nat r.1) b) (S (c_calls c)));;
  mret r.

(** [io.ReadFull(conn, b)] with [len(b) = n]. *)
Definition ReadFull (n : nat) : M conn (io_error + list Z) :=
  c ← get;
  let got := take n (c_in c) in
  modify (λ c, mkConn (drop n (c_in c)) (c_out c) (c_calls c));;
  mret (if Nat.eqb (length got) n then inr got
        else if Nat.eqb (length got) 0 then inl EOF else inl UnexpectedEOF).

(** [for len(b) > 0 { count, err := conn.Write(b); ...; b = b[count:] }]. *)
Fixpoint write_loop (fuel : nat) (b : list Z) : M conn (option io_error) :=
  match fuel with
  | O => stop OutOfFuel
  | S fuel =>
      if len b <=? 0 then mret None else
      r ← conn_Write b;
      match r.2 with
      | Some err => mret (Some err)
      | None =>
          if r.1 =? 0 then mret (Some ShortWrite) else
          rest ← or_panic (slice b r.1 (len b));
          write_loop fuel rest
      end
  end.

(** The length-prefixed form of a frame:
    [b := make([]byte, 4+len(f)); PutUint32(b, uint32(len(f))); copy(b[4:], f)]. *)
Definition prefixed (f : list Z) : option (list Z) :=
  b ← PutUint32 (replicate (4 + length f) 0) 0 (u32 (len f));
  bput b 4 f.

(** Every iteration writes at least a byte, so [length b + 1] rounds suffice. *)
Definition write_frame (f : list Z) : M conn (option io_error) :=
  b ← or_panic (prefixed f);
  write_loop (S (length b)) b.

(** Reading a frame: its length, which must be plausible, then its bytes. *)
Definition read_prefixed : M conn (io_error + list Z) :=
  head ← ReadFull 4;
  match head with
  | inl err => mret (inl err)
  | inr head =>
      size ← or_panic (Uint32 head 0);
      if (size <? 14) || (65535 + 14 <? size) then mret (inl InvalidFrame)
      else ReadFull (Z.to_nat size)
  end.

(** ** Writing and reading frames *)

Lemma prefixed_bytes f : prefixed f = Some (be_encode 4 (u32 (len f)) ++ f).
Proof.
  assert (∀ v, ∃ w x y z, be_encode 4 v = [w; x; y; z]) as Hv by (intros; do 4 eexists; reflexivity).
  unfold prefixed, PutUint32. destruct (Hv (u32 (len f))) as (w&x&y&z&->).
  transitivity (bput ([w; x; y; z] ++ replicate (length f) 0) 4 f); [reflexivity|].
  apply bput_end; [done|]. by rewrite length_replicate.
Qed.

(** Writing [b] returns; either all of [b] was written, or an error is
    reported and some beginning of [b] was. *)
Definition written (b : list Z) (c : conn) (err : option io_error) (c' : conn) : Prop :=
  c_in c' = c_in c ∧
  match err with
  | None => c_out c' = c_out c ++ b
  | Some _ => ∃ k, c_out c' = c_out c ++ take k b
  end.

Lemma wp_write_loop fuel b c :
  (length b < fuel)%nat → wp (write_loop fuel b) (written b c) c.
Proof.
  revert b c. induction fuel as [|fuel IH]; intros b c Hf; [lia|]. cbn [write_loop].
  destruct (Z.leb_spec (len b) 0) as [Hz|Hpos].
  { wp_step. assert (b = []) as -> by (apply len_zero; pose proof (len_nonneg b); lia).
    split; [done|]. by rewrite app_nil_r. }
  unfold conn_Write. wp_steps. pose proof (write_result_ok (c_calls c) b) as Hk.
  destruct (write_result (c_calls c) b) as [k err]. cbn [fst snd] in *.
  destruct err as [err|]; [wp_step; split; [done|by exists (Z.to_nat k)]|].
  destruct (Z.eqb_spec k 0) as [->|Hne]; [wp_step; split; [done|by exists 0%nat]|].
  wp_step. apply (wp_or_panic _ (drop (Z.to_nat k) b)).
  { unfold slice. rewrite !(proj2 (Z.leb_le _ _)) by lia. cbn [andb]. f_equal. apply take_ge.
    rewrite length_drop. unfold len in *. lia. }
  eapply wp_mono; [apply IH; rewrite length_drop; unfold len in *; lia|].
  intros err c' [Hin Hout]. split; [done|]. cbn [c_out] in Hout. destruct err as [err|].
  - destruct Hout as [j Hj]. exists (Z.to_nat k + j)%nat. rewrite Hj, <- app_assoc. f_equal.
    by rewrite <- (take_drop (Z.to_nat k) (take (Z.to_nat k + j) b)), take_take, skipn_firstn_comm,
      Nat.min_l, Nat.add_comm, Nat.add_sub by lia.
  - rewrite Hout, <- app_assoc. f_equal. apply take_drop.
Qed.

Lemma wp_write_frame f c :
  wp (write_frame f) (written (be_encode 4 (u32 (len f)) ++ f) c) c.
Proof.
  unfold write_frame. wp_step. apply (wp_or_panic _ _ _ _ (prefixed_bytes f)). apply wp_write_loop. lia.
Qed.

Lemma ReadFull_run b rest out calls :
  ReadFull (length b) (mkConn (b ++ rest) out calls) = inl (inr b, mkConn rest out calls).
Proof.
  unfold ReadFull. m_unfold. cbn [c_in c_out c_calls].
  by rewrite take_app_length, drop_app_length, Nat.eqb_refl.
Qed.

(** A frame on the stream. *)
Definition frame_ok (f : list Z) : Prop := 14 ≤ len f ≤ 65535 + 14.

Definition encoded (f : list Z) : list Z := be_encode 4 (len f) ++ f.

Lemma read_prefixed_run f rest out calls :
  frame_ok f → read_prefixed (mkConn (encoded f ++ rest) out calls) = inl (inr f, mkConn rest out calls).
Proof.
  intros [H1 H2]. unfold read_prefixed, encoded. rewrite <- app_assoc.
  rewrite (bind_run _ _ _ _ _ (ReadFull_run (be_encode 4 (len f)) (f ++ rest) out calls)).
  assert (Uint32 (be_encode 4 (len f)) 0 = Some (len f)) as E.
  { transitivity (Some (be_decode (be_encode 4 (len f)))); [reflexivity|].
    f_equal. apply (be_decode_encode 4). unfold is_u32. lia. }
  unfold or_panic at 1, mbind at 1, M_bind at 1. rewrite E.
  rewrite !(proj2 (Z.ltb_ge _ _)) by lia. cbn [orb].
  unfold len at 1. rewrite Nat2Z.id. apply ReadFull_run.
Qed.

(** What reading a frame does with any stream: an error, or a frame of permitted
    length, taken from the stream with its prefix. *)
Lemma wp_read_prefixed c :
  bytes_ok (c_in c) →
  wp read_prefixed (λ o c', c_out c' = c_out c ∧ bytes_ok (c_in c') ∧
    match o with
    | inl _ => True
    | inr f => frame_ok f ∧ bytes_ok f ∧ c_in c = encoded f ++ c_in c'
    end) c.
Proof.
  intros Hb. unfold read_prefixed. wp_step. unfold ReadFull at 1. wp_steps.
  set (head := take 4 (c_in c)). pose proof (Forall_take _ 4 _ Hb) as Hh. pose proof (Forall_drop _ 4 _ Hb) as Hd.
  destruct (Nat.eqb_spec (length head) 4) as [El|]; [|by destruct (Nat.eqb _ _); wp_step].
  wp_step. apply (wp_or_panic _ (be_decode head)).
  { unfold Uint32, bsub. rewrite drop_0, take_ge by lia. by rewrite El. }
  destruct (Z.ltb_spec (be_decode head) 14); cbn [orb]; [by wp_step|].
  destruct (Z.ltb_spec (65535 + 14) (be_decode head)); [by wp_step|].
  unfold ReadFull. wp_steps. cbn [c_in c_out]. set (n := Z.to_nat (be_decode head)).
  split; [done|]. split; [by apply Forall_drop|].
  destruct (Nat.eqb_spec (length (take n (drop 4 (c_in c)))) n) as [En|]; [|by destruct (Nat.eqb _ _)].
  set (f := take n (drop 4 (c_in c))) in *.
  assert (len f = be_decode head) as Ef by (unfold len; lia).
  split; [unfold frame_ok; lia|]. split; [by apply Forall_take|].
  unfold encoded. rewrite Ef, <- El at 1. rewrite be_encode_decode by done.
  unfold f, head. by rewrite <- app_assoc, !take_drop.
Qed.
End stream.

(** ** Raw sockets *)

(** The system's choices for a raw IPv4 socket, by call: opening it and sizing
    its queue, its control and deadline calls, setting the traffic class, and
    what [WriteToIP] returns. *)
Class RawSocket := {
  raw_listen : nat → option io_error;
  raw_read_buffer : nat → option io_error;
  raw_syscall : nat → option io_error;
  raw_control : nat → option io_error;
  raw_set_tos : nat → Z → option io_error;
  raw_deadline : nat → option io_error;
  raw_write : nat → list Z → Z * option io_error
}.

(** A raw socket on which every call succeeds. *)
Definition plain_raw : RawSocket := {|
  raw_listen := λ _, None; raw_read_buffer := λ _, None; raw_syscall := λ _, None;
  raw_control := λ _, None; raw_set_tos := λ _ _, None; raw_deadline := λ _, None;
  raw_write := λ _ p, (len p, None)
|}.

(** ** The IPv4 header checksum *)

(** [for sum > 65535 { sum = sum&65535 + sum>>16 }]; a 32-bit sum needs at most
    two rounds. *)
Fixpoint fold_carry (fuel : nat) (sum : Z) : Z :=
  match fuel with
  | O => sum
  | S fuel =>
      if 65535 <? sum then fold_carry fuel (u32 (Z.land sum 65535 + Z.shiftr sum 16)) else sum
  end.

(** The ones' complement sum: [x] reduced modulo 65535 to a value that is zero
    only for zero. *)
Definition ones (x : Z) : Z := if x =? 0 then 0 else (x - 1) `mod` 65535 + 1.

Lemma ones_range x : 0 ≤ x → 0 ≤ ones x ≤ 65535 ∧ (ones x = 0 ↔ x = 0).
Proof.
  intros Hx. unfold ones. destruct (Z.eqb_spec x 0); [lia|].
  pose proof (Z.mod_pos_bound (x - 1) 65535 ltac:(lia)). lia.
Qed.

Lemma ones_small x : 0 ≤ x ≤ 65535 → ones x = x.
Proof. intros Hx. unfold ones. destruct (Z.eqb_spec x 0); [lia|]. rewrite Z.mod_small; lia. Qed.

Lemma carry_split x : 0 ≤ x → Z.land x 65535 + Z.shiftr x 16 = x `mod` 65536 + x / 65536.
Proof.
  intros Hx. change 65535 with (Z.ones 16). rewrite Z.land_ones, Z.shiftr_div_pow2 by lia. done.
Qed.

Lemma ones_carry x : 65535 < x → ones (x `mod` 65536 + x / 65536) = ones x.
Proof.
  intros Hx. pose proof (Z.div_mod x 65536 ltac:(lia)). pose proof (Z.mod_pos_bound x 65536 ltac:(lia)).
  assert (1 ≤ x / 65536) by (apply Z.div_le_lower_bound; lia).
  unfold ones. rewrite !(proj2 (Z.eqb_neq _ _)) by lia. f_equal.
  replace (x - 1) with (x `mod` 65536 + x / 65536 - 1 + (x / 65536) * 65535) by lia.
  by rewrite Z.mod_add.
Qed.

(** The loop ends, with the ones' complement sum. *)
Lemma fold_carry_spec x : is_u32 x → fold_carry 2 x = ones x.
Proof.
  intros [H0 H1]. cbn [fold_carry]. destruct (Z.ltb_spec 65535 x) as [Hx|Hx]; [|by rewrite ones_small by lia].
  pose proof (Z.div_mod x 65536 ltac:(lia)). pose proof (Z.mod_pos_bound x 65536 ltac:(lia)).
  assert (1 ≤ x / 65536 < 65536) by (split; [apply Z.div_le_lower_bound|apply Z.div_lt_upper_bound]; lia).
  rewrite carry_split, u32_id by (unfold is_u32; lia). rewrite <- (ones_carry x) by lia.
  set (y := x `mod` 65536 + x / 65536) in *.
  destruct (Z.ltb_spec 65535 y) as [Hy|Hy]; [|by rewrite ones_small by lia].
  rewrite carry_split by lia. rewrite <- (ones_carry y) by lia.
  pose proof (Z.div_mod y 65536 ltac:(lia)). pose proof (Z.mod_pos_bound y 65536 ltac:(lia)).
  assert (y / 65536 = 1) as Eq by (symmetry; apply (Z.div_unique y 65536 1 (y - 65536)); lia).
  rewrite u32_id by (unfold is_u32; lia). symmetry. apply ones_small. lia.
Qed.

(** The sum of the big-endian 16-bit words of [b], the last one padded. *)
Fixpoint words (b : list Z) : Z :=
  match b with
  | x :: y :: b => 256 * x + y + words b
  | [x] => 256 * x
  | [] => 0
  end.

(** [^uint16(sum)]. *)
Definition not16 (sum : Z) : Z := Z.lxor (u16 sum) 65535.

Lemma not16_spec x : 0 ≤ x ≤ 65535 → not16 x = 65535 - x.
Proof.
  intros Hx. unfold not16. rewrite u16_id by (unfold is_u16; lia).
  change 65535 with (Z.ones 16) in *.
  assert (∀ n, 16 ≤ n → Z.testbit x n = false) as Hhigh.
  { intros n Hn. destruct (Z.eqb_spec x 0) as [->|]; [by rewrite Z.testbit_0_l|].
    apply Z.bits_above_log2; [lia|]. apply Z.log2_lt_pow2; [lia|].
    assert (2 ^ 16 ≤ 2 ^ n) by (apply Z.pow_le_mono_r; lia). change (Z.ones 16) with 65535 in Hx. lia. }
  rewrite Z.sub_nocarry_ldiff.
  - apply Z.bits_inj'. intros n Hn. rewrite Z.lxor_spec, Z.ldiff_spec.
    destruct (Z.ltb_spec n 16).
    + rewrite Z.ones_spec_low by lia. by destruct (Z.testbit x n).
    + by rewrite Z.ones_spec_high, Hhigh by lia.
  - apply Z.bits_inj'. intros n Hn. rewrite Z.ldiff_spec, Z.testbit_0_l.
    destruct (Z.ltb_spec n 16).
    + rewrite Z.ones_spec_low by lia. apply andb_false_r.
    + by rewrite Hhigh by lia.
Qed.

Lemma list_pair_ind (P : list Z → Prop) :
  P [] → (∀ x, P [x]) → (∀ x y b, P b → P (x :: y :: b)) → ∀ b, P b.
Proof.
  intros H0 H1 H2 b. assert (P b ∧ ∀ x, P (x :: b)) as [? _]; [|done].
  induction b as [|x b [IH1 IH2]]; [auto|]. split; [auto|]. intros y. by apply H2.
Qed.

Lemma words_bound b : bytes_ok b → 0 ≤ words b ≤ 65535 * len b.
Proof.
  induction b as [|x|x y b IH] using list_pair_ind; intros Hb; cbn [words].
  - done.
  - apply Forall_cons in Hb as [[? ?] _]. unfold len. simpl length. lia.
  - apply Forall_cons in Hb as [[? ?] Hb]. apply Forall_cons in Hb as [[? ?] Hb].
    specialize (IH Hb). unfold len in *. cbn [length]. lia.
Qed.

Lemma decode_pair x y : is_byte x → is_byte y → be_decode [x; y] = 256 * x + y.
Proof.
  intros Hx Hy. unfold be_decode. cbn [foldl]. rewrite !be_step_spec by done. lia.
Qed.

Lemma words_app a b : Nat.even (length a) = true → words (a ++ b) = words a + words b.
Proof.
  induction a as [|x|x y a IH] using list_pair_ind; intros He; [done|done|].
  cbn [app words]. rewrite IH by done. lia.
Qed.

(** Changing byte [i] of a string changes the sum of its words. *)
Lemma words_insert b i x y :
  b !! i = Some y → words (<[i := x]> b) = words b + (x - y) * (if Nat.even i then 256 else 1).
Proof.
  revert i. induction b as [|z|z w b IH] using list_pair_ind; intros i Hi; [done| |].
  - destruct i as [|i]; [|done]. injection Hi as ->. cbn [insert list_insert words Nat.even]. lia.
  - destruct i as [|[|i]].
    + injection Hi as ->. cbn [insert list_insert words Nat.even]. lia.
    + injection Hi as ->. cbn [insert list_insert words Nat.even]. lia.
    + change (<[S (S i) := x]> (z :: w :: b)) with (z :: w :: <[i := x]> b). cbn [words Nat.even].
      rewrite (IH i Hi). lia.
Qed.

Lemma ones_mod x : 0 < x → ones x = 65535 ↔ (65535 | x).
Proof.
  intros Hx. unfold ones. rewrite (proj2 (Z.eqb_neq _ _)) by lia. split.
  - intros E. exists ((x - 1) / 65535 + 1). pose proof (Z.div_mod (x - 1) 65535 ltac:(lia)). lia.
  - intros [k ->]. replace (k * 65535 - 1) with (65534 + (k - 1) * 65535) by lia.
    by rewrite Z.mod_add.
Qed.

(** A sum and the complement of its fold add up to all ones. *)
Lemma ones_complement x : 0 < x → ones (x + (65535 - ones x)) = 65535.
Proof.
  intros Hx. destruct (ones_range x) as [? ?]; [lia|]. apply ones_mod; [lia|].
  assert (ones x = (x - 1) `mod` 65535 + 1) as E by (unfold ones; by rewrite (proj2 (Z.eqb_neq _ _)) by lia).
  exists ((x - 1) / 65535 + 1). pose proof (Z.div_mod (x - 1) 65535 ltac:(lia)). lia.
Qed.

(** ** IPv4 datagrams *)

(** [ip] is an IPv4 datagram from [src] to [dst] that carries [p]: a header [h]
    of the length its first byte says, the total length, protocol 146, a
    correct checksum, no fragment, the two addresses, and at least
    [least] bytes; link-layer padding may follow. *)
Record native (least : Z) (ip : list Z) (src dst : IPAddr) (p : list Z) (tos : Z) (h pad : list Z) : Prop := {
  nat_split : ip = h ++ p ++ pad;
  nat_length : 20 ≤ len h ≤ 60;
  nat_first : h !! 0%nat = Some (64 + len h / 4);
  nat_aligned : (4 | len h);
  nat_tos : h !! 1%nat = Some tos;
  nat_total : Uint16 h 2 = Some (len h + len p);
  nat_fragment : ∃ f, Uint16 h 6 = Some f ∧ Z.land f 16383 = 0;
  nat_protocol : h !! 9%nat = Some 146;
  nat_checksum : ones (words h) = 65535;
  nat_src : bsub h 12 4 = Some (AsSlice src);
  nat_dst : bsub h 16 4 = Some (AsSlice dst);
  nat_size : least ≤ len p
}.

Lemma nibble_header k : 0 ≤ k < 16 → Z.shiftr (64 + k) 4 = 4 ∧ Z.land (64 + k) 15 = k.
Proof.
  intros Hk. rewrite Z.shiftr_div_pow2 by lia. change 15 with (Z.ones 4). rewrite Z.land_ones by lia.
  change (2 ^ 4) with 16. replace (64 + k) with (k + 4 * 16) by lia.
  rewrite Z.div_add, Z.mod_add, Z.div_small, Z.mod_small by lia. lia.
Qed.

Lemma nibbles x : is_byte x → Z.shiftr x 4 = 4 → x = 64 + Z.land x 15 ∧ 0 ≤ Z.land x 15 < 16.
Proof.
  intros Hx E. change 15 with (Z.ones 4). rewrite Z.land_ones by lia.
  rewrite Z.shiftr_div_pow2 in E by lia. change (2 ^ 4) with 16 in *.
  pose proof (Z.div_mod x 16 ltac:(lia)). pose proof (Z.mod_pos_bound x 16 ltac:(lia)). lia.
Qed.

Lemma native_parts least ip src dst p tos h pad :
  bytes_ok ip → native least ip src dst p tos h pad →
  bytes_ok p ∧ is_byte tos ∧ least ≤ len p ≤ 65515.
Proof.
  intros Hb [-> Hl _ _ Htos Htotal _ _ _ _ _ Hs]. apply Forall_app in Hb as [Hh Hb].
  apply Forall_app in Hb as [Hp _]. split; [done|]. split; [by eapply (Forall_lookup_1 _ _ _ _ Hh)|].
  split; [done|]. unfold Uint16, bsub in Htotal.
  destruct (Nat.eqb_spec (length (take 2 (drop 2 h))) 2) as [El|]; [|done]. injection Htotal as Ht.
  assert (bytes_ok (take 2 (drop 2 h))) as Ht2 by by apply Forall_take, Forall_drop.
  pose proof (be_decode_range _ Ht2) as [_ Hlt]. unfold len in Hlt. rewrite El in Hlt. fold (len h) (len p) in Ht.
  change (256 ^ Z.of_nat 2) with 65536 in Hlt. lia.
Qed.
