(* ===== verification/Relay.v ===== *)
(** * The LAN relay (src/interop/lanrelay/main.go)

    The relay takes native Homa datagrams from one peer on the LAN, checks
    them, and hands them to a guest behind a QEMU stream socket, and back.  It
    rewrites the IPv4 addresses and leaves the Homa bytes alone.  Modelled are
    the packet functions, the two forwarding loops (one iteration each) and
    the evidence the relay collects. *)
From S2P Require Import Prelude Wire Api Net.

#[local] Open Scope Z_scope.

Module lanrelay.

Definition virtualHost : IPAddr := AddrFrom4 10 0 0 1.
Definition virtualGuest : IPAddr := AddrFrom4 10 0 0 2.
Definition hostMAC : list Z := [2; 0; 0; 0; 0; 1].
Definition guestMAC : list Z := [82; 84; 0; 18; 52; 86].

(** ** State *)

Record report := mkReport {
  Path : string; Local : string; Peer : string;
  LANToVM : Z; VMToLAN : Z; DroppedLAN : Z; DroppedVM : Z; LANSendBufferDrops : Z;
  ObservedLANIngressTOS : gmap Z Z; ObservedVMIngressTOS : gmap Z Z;
  RequestedLANEgressTOS : gmap Z Z;
  MacClientRPCsAcknowledged : Z; KernelServerRequestsReceived : Z;
  KernelClientSweepPassed : bool; Complete : bool; Error : string
}.

(** [acks map[uint64]bool] only ever holds [true]. *)
Record state := mkState { r : report; acks : gset Z }.

Definition snapshot (s : state) : report :=
  let r := r s in
  mkReport (Path r) (Local r) (Peer r) (LANToVM r) (VMToLAN r) (DroppedLAN r) (DroppedVM r)
    (LANSendBufferDrops r) (ObservedLANIngressTOS r) (ObservedVMIngressTOS r)
    (RequestedLANEgressTOS r) (Z.of_nat (size (acks s))) (KernelServerRequestsReceived r)
    (KernelClientSweepPassed r) (Complete r) (Error r).

(** ** Packets *)

Fixpoint sum_words (sum : Z) (b : list Z) : Z :=
  match b with
  | x :: y :: b => sum_words (u32 (sum + be_decode [x; y])) b
  | [x] => u32 (sum + u32 (Z.shiftl x 8))
  | [] => sum
  end.

Definition ipChecksum (b : list Z) : Z := not16 (fold_carry 2 (sum_words 0 b)).

(** [None] is a run-time panic, [Some None] a rejected datagram. *)
Definition nativePacket (ip : list Z) (source destination : IPAddr) : option (option (list Z * Z)) :=
  if len ip <? 20 then Some None else
  first ← idx ip 0;
  if negb (Z.shiftr first 4 =? 4) then Some None else
  let header := Z.land first 15 * 4 in
  total ← Uint16 ip 2;
  if (header <? 20) || (len ip <? header) || (total <? header + 28) || (len ip <? total)
  then Some None else
  protocol ← idx ip 9;
  if negb (protocol =? 146) then Some None else
  h ← slice ip 0 header;
  if negb (ipChecksum h =? 0) then Some None else
  fragment ← Uint16 ip 6;
  if negb (Z.land fragment 16383 =? 0) then Some None else
  from ← slice ip 12 16;
  if negb (bool_decide (from = AsSlice source)) then Some None else
  to ← slice ip 16 20;
  if negb (bool_decide (to = AsSlice destination)) then Some None else
  p ← slice ip header total;
  tos ← idx ip 1;
  Some (Some (p, tos)).

(** [lengths[typ]]. *)
Definition lengths (typ : Z) : option Z :=
  if typ =? 16 then Some 56 else
  if typ =? 17 then Some 33 else
  if typ =? 18 then Some 37 else
  if typ =? 19 then Some 28 else
  if typ =? 20 then Some 28 else
  if typ =? 21 then Some 62 else
  if typ =? 23 then Some 28 else
  if typ =? 24 then Some 80 else None.

Definition allowedHoma (p : list Z) (fromLAN : bool) : option bool :=
  if len p <? 28 then Some false else
  src ← Uint16 p 0;
  dst ← Uint16 p 2;
  if (if fromLAN
      then negb ((src =? 4003) && (dst =? 4000) || (src =? 4001) && (dst =? 4002))
      else negb ((src =? 4000) && (dst =? 4003) || (src =? 4002) && (dst =? 4001)))
  then Some false else
  typ ← idx p 11;
  match lengths typ with
  | Some minimum => Some (minimum <=? len p)
  | None => Some false
  end.

Definition ethernetPacket (payload : list Z) (tos : Z) : option (list Z) :=
  let frame := replicate (14 + 20 + length payload) 0 in
  frame ← bput frame 0 guestMAC;
  frame ← bput frame 6 hostMAC;
  frame ← PutUint16 frame 12 2048;
  ip ← slice frame 14 (len frame);
  ip ← upd ip 0 69;
  ip ← upd ip 1 tos;
  ip ← upd ip 8 64;
  ip ← upd ip 9 146;
  ip ← PutUint16 ip 2 (u16 (len ip));
  ip ← bput ip 12 (AsSlice virtualHost);
  ip ← bput ip 16 (AsSlice virtualGuest);
  h ← slice ip 0 20;
  ip ← PutUint16 ip 10 (ipChecksum h);
  ip ← bput ip 20 payload;
  Some (take 14 frame ++ ip).

(** ** The connection to the guest *)

Section nic.
Context `{Socket}.

Definition nic_write (frame : list Z) : M conn (option io_error) :=
  err ← conn_SetWriteDeadline;
  match err with
  | Some err => mret (Some err)
  | None => write_frame frame
  end.

Definition nic_read : M conn (io_error + list Z) := read_prefixed.

(** The ARP request the guest sends for the host's address. *)
Definition arp_request (frame : list Z) : option bool :=
  if len frame <? 42 then Some false else
  hardware ← Uint16 frame 14;
  protocol ← Uint16 frame 16;
  hlen ← idx frame 18;
  plen ← idx frame 19;
  operation ← Uint16 frame 20;
  sender ← slice frame 28 32;
  target ← slice frame 38 42;
  Some ((hardware =? 1) && (protocol =? 2048) && (hlen =? 6) && (plen =? 4) && (operation =? 1) &&
        bool_decide (sender = AsSlice virtualGuest) && bool_decide (target = AsSlice virtualHost)).

Definition arp_reply (frame : list Z) : option (list Z) :=
  let reply := replicate 42 0 in
  asker ← slice frame 6 12;
  reply ← bput reply 0 asker;
  reply ← bput reply 6 hostMAC;
  kind ← slice frame 12 22;
  reply ← bput reply 12 kind;
  reply ← PutUint16 reply 20 2;
  reply ← bput reply 22 hostMAC;
  reply ← bput reply 28 (AsSlice virtualHost);
  mac ← slice frame 22 28;
  reply ← bput reply 32 mac;
  ip ← slice frame 28 32;
  bput reply 38 ip.

Definition nic_arp (frame : list Z) : M conn (option io_error) :=
  ask ← or_panic (arp_request frame);
  if negb ask then mret None else
  reply ← or_panic (arp_reply frame);
  nic_write reply.

End nic.

(** ** Evidence of acknowledged calls *)

Definition add_ack (id : Z) (acks : gset Z) : gset Z :=
  if negb (id =? 0) && (Z.land id 1 =? 0) && (Z.of_nat (size acks) <? 1024)
  then {[ id ]} ∪ acks else acks.

(** [for i := 0; i < count; i++], [n] rounds from [i] on. *)
Fixpoint note_records (p : list Z) (i n : nat) (acks : gset Z) : option (gset Z) :=
  match n with
  | O => Some acks
  | S n =>
      port ← Uint16 p (30 + i * 10 + 8);
      acks ← (if port =? 4000 then id ← Uint64 p (30 + i * 10); Some (add_ack id acks) else Some acks);
      note_records p (S i) n acks
  end.

Definition noteAcks (p : list Z) (acks : gset Z) : option (gset Z) :=
  src ← Uint16 p 0;
  if negb (src =? 4003) then Some acks else
  dst ← Uint16 p 2;
  if negb (dst =? 4000) then Some acks else
  typ ← idx p 11;
  if typ =? 24 then
    id ← Uint64 p 20;
    let acks := add_ack id acks in
    count ← Uint16 p 28;
    if 5 <? count then Some acks else note_records p 0 (Z.to_nat count) acks
  else if typ =? 16 then
    port ← Uint16 p 44;
    if port =? 4000 then id ← Uint64 p 36; Some (add_ack id acks) else Some acks
  else Some acks.

(** ** Forwarding *)

(** The relay, its connection to the guest and what it sent to the LAN: the
    Homa bytes of each datagram and the traffic class asked for. *)
Record relay := mkRelay {
  s : state; vm : conn; lan_out : list (list Z * Z); lan_calls : nat
}.

Definition count (tos : Z) (m : gmap Z Z) : gmap Z Z :=
  <[tos := u64 (default 0 (m !! tos) + 1)]> m.

Definition ENOBUFS : Z := 105.
Definition EAGAIN : Z := 11.

Definition transientSendDrop (err : io_error) : bool :=
  bool_decide (err = Errno ENOBUFS) || bool_decide (err = Errno EAGAIN).

Definition drop_lan (s : state) : state :=
  let r := r s in
  mkState (mkReport (Path r) (Local r) (Peer r) (LANToVM r) (VMToLAN r) (u64 (DroppedLAN r + 1))
    (DroppedVM r) (LANSendBufferDrops r) (ObservedLANIngressTOS r) (ObservedVMIngressTOS r)
    (RequestedLANEgressTOS r) (MacClientRPCsAcknowledged r) (KernelServerRequestsReceived r)
    (KernelClientSweepPassed r) (Complete r) (Error r)) (acks s).

Definition drop_vm (s : state) : state :=
  let r := r s in
  mkState (mkReport (Path r) (Local r) (Peer r) (LANToVM r) (VMToLAN r) (DroppedLAN r)
    (u64 (DroppedVM r + 1)) (LANSendBufferDrops r) (ObservedLANIngressTOS r)
    (ObservedVMIngressTOS r) (RequestedLANEgressTOS r) (MacClientRPCsAcknowledged r)
    (KernelServerRequestsReceived r) (KernelClientSweepPassed r) (Complete r) (Error r)) (acks s).

Definition drop_send (s : state) : state :=
  let r := r (drop_vm s) in
  mkState (mkReport (Path r) (Local r) (Peer r) (LANToVM r) (VMToLAN r) (DroppedLAN r)
    (DroppedVM r) (u64 (LANSendBufferDrops r + 1)) (ObservedLANIngressTOS r)
    (ObservedVMIngressTOS r) (RequestedLANEgressTOS r) (MacClientRPCsAcknowledged r)
    (KernelServerRequestsReceived r) (KernelClientSweepPassed r) (Complete r) (Error r)) (acks s).

Definition note_lan (tos : Z) (acks' : gset Z) (s : state) : state :=
  let r := r s in
  mkState (mkReport (Path r) (Local r) (Peer r) (u64 (LANToVM r + 1)) (VMToLAN r) (DroppedLAN r)
    (DroppedVM r) (LANSendBufferDrops r) (count tos (ObservedLANIngressTOS r))
    (ObservedVMIngressTOS r) (RequestedLANEgressTOS r) (MacClientRPCsAcknowledged r)
    (KernelServerRequestsReceived r) (KernelClientSweepPassed r) (Complete r) (Error r)) acks'.

Definition note_vm (tos : Z) (s : state) : state :=
  let r := r s in
  mkState (mkReport (Path r) (Local r) (Peer r) (LANToVM r) (VMToLAN r) (DroppedLAN r)
    (DroppedVM r) (LANSendBufferDrops r) (ObservedLANIngressTOS r)
    (count tos (ObservedVMIngressTOS r)) (count tos (RequestedLANEgressTOS r))
    (MacClientRPCsAcknowledged r) (KernelServerRequestsReceived r) (KernelClientSweepPassed r)
    (Complete r) (Error r)) (acks s).

Definition sent_vm (s : state) : state :=
  let r := r s in
  mkState (mkReport (Path r) (Local r) (Peer r) (LANToVM r) (u64 (VMToLAN r + 1)) (DroppedLAN r)
    (DroppedVM r) (LANSendBufferDrops r) (ObservedLANIngressTOS r) (ObservedVMIngressTOS r)
    (RequestedLANEgressTOS r) (MacClientRPCsAcknowledged r) (KernelServerRequestsReceived r)
    (KernelClientSweepPassed r) (Complete r) (Error r)) (acks s).

Section forwarding.
Context `{Socket, RawSocket}.

(** An operation on the connection to the guest. *)
Definition on_vm {A} (m : M conn A) : M relay A := λ w,
  match m (vm w) with
  | inl (a, c) => inl (a, mkRelay (s w) c (lan_out w) (lan_calls w))
  | inr x => inr x
  end.

Definition on_state (f : state → state) : M relay unit :=
  modify (λ w, mkRelay (f (s w)) (vm w) (lan_out w) (lan_calls w)).

(** The number of the next call to the raw socket. *)
Definition next_call : M relay nat :=
  w ← get;
  modify (λ w, mkRelay (s w) (vm w) (lan_out w) (S (lan_calls w)));;
  mret (lan_calls w).

(** The loop of [lanToVM] for one datagram [buf[:n]]; [truncated] is
    [flags&MSG_TRUNC != 0].  [None] goes on with the next datagram. *)
Definition lanToVM (local peer : IPAddr) (datagram : list Z) (truncated : bool)
  : M relay (option io_error) :=
  found ← or_panic (nativePacket datagram peer local);
  match found with
  | None => on_state drop_lan;; mret None
  | Some (p, tos) =>
      if truncated then on_state drop_lan;; mret None else
      allowed ← or_panic (allowedHoma p true);
      if negb allowed then on_state drop_lan;; mret None else
      frame ← or_panic (ethernetPacket p tos);
      err ← on_vm (nic_write frame);
      match err with
      | Some err => mret (Some err)
      | None =>
          w ← get;
          acks' ← or_panic (noteAcks p (acks (s w)));
          on_state (note_lan tos acks');;
          mret None
      end
  end.

(** [raw.WriteToIP(p, peer)] after the traffic class was set to [tos]. *)
Definition raw_send (p : list Z) (tos : Z) : M relay (Z * option io_error) :=
  n ← next_call;
  let result := raw_write n p in
  match result.2 with
  | None => modify (λ w, mkRelay (s w) (vm w) (lan_out w ++ [(p, tos)]) (lan_calls w))
  | Some _ => mret ()
  end;;
  mret result.

(** The loop of [vmToLAN] for one frame. *)
Definition vmToLAN : M relay (option io_error) :=
  got ← on_vm nic_read;
  match got with
  | inl err => mret (Some err)
  | inr frame =>
      kind ← or_panic (Uint16 frame 12);
      if kind =? 2054 then on_vm (nic_arp frame) else
      mac ← or_panic (slice frame 6 12);
      if negb (kind =? 2048) || negb (bool_decide (mac = guestMAC)) then mret None else
      ip ← or_panic (slice frame 14 (len frame));
      found ← or_panic (nativePacket ip virtualGuest virtualHost);
      match found with
      | None => on_state drop_vm;; mret None
      | Some (p, tos) =>
          allowed ← or_panic (allowedHoma p false);
          if negb allowed then on_state drop_vm;; mret None else
          n ← next_call;
          match raw_control n with Some err => mret (Some err) | None =>
          n ← next_call;
          match raw_set_tos n tos with Some err => mret (Some err) | None =>
          n ← next_call;
          match raw_deadline n with Some err => mret (Some err) | None =>
          on_state (note_vm tos);;
          result ← raw_send p tos;
          match result.2 with
          | Some err =>
              if transientSendDrop err then on_state drop_send;; mret None else mret (Some err)
          | None =>
              if negb (result.1 =? len p) then mret (Some ShortWrite) else
              on_state sent_vm;; mret None
          end end end end
      end
  end.

End forwarding.
End lanrelay.
