(* ===== verification/RelayFacts.v ===== *)
(** * Theorems about the LAN relay

    The checksum, what the relay accepts, that it forwards Homa bytes and
    traffic class unchanged in both directions, the frames on the stream, and
    the acknowledgments it counts. *)
From S2P Require Import Prelude Wire WireFacts Api Net Relay.

#[local] Open Scope Z_scope.

Module lanrelay_facts.
Import lanrelay.

(** ** Checksum *)

Lemma sum_words_spec b sum :
  bytes_ok b → 0 ≤ sum → sum + words b < 2 ^ 32 → sum_words sum b = sum + words b.
Proof.
  revert sum. induction b as [|x|x y b IH] using list_pair_ind; intros sum Hb H0 Hs; cbn [words sum_words] in *.
  - lia.
  - apply Forall_cons in Hb as [[? ?] _]. rewrite Z.shiftl_mul_pow2, (u32_id (x * 2 ^ 8)), u32_id by (unfold is_u32; lia). lia.
  - apply Forall_cons in Hb as [Hx Hb]. apply Forall_cons in Hb as [Hy Hb].
    pose proof (words_bound b Hb). destruct Hx, Hy.
    rewrite decode_pair, u32_id, IH by (done || unfold is_u32; lia). lia.
Qed.

Lemma ipChecksum_spec b : bytes_ok b → len b ≤ 65536 → ipChecksum b = 65535 - ones (words b).
Proof.
  intros Hb Hl. pose proof (words_bound b Hb) as Hw. unfold ipChecksum.
  rewrite sum_words_spec, fold_carry_spec by (done || unfold is_u32; lia).
  apply not16_spec. destruct (ones_range (words b)); lia.
Qed.

Lemma ipChecksum_zero b : bytes_ok b → len b ≤ 65536 → ipChecksum b = 0 ↔ ones (words b) = 65535.
Proof. intros Hb Hl. rewrite ipChecksum_spec by done. lia. Qed.

(** ** Building a frame *)

(** The IPv4 header with its checksum field set to [cksum]. *)
Definition header (size tos cksum : Z) : list Z :=
  [69; tos] ++ be_encode 2 size ++ [0; 0; 0; 0; 64; 146] ++ be_encode 2 cksum ++
  AsSlice virtualHost ++ AsSlice virtualGuest.

Definition ip_packet (payload : list Z) (tos : Z) : list Z :=
  header (u16 (20 + len payload)) tos (ipChecksum (header (u16 (20 + len payload)) tos 0)) ++ payload.

Lemma ethernetPacket_bytes payload tos :
  ethernetPacket payload tos = Some (guestMAC ++ hostMAC ++ [8; 0] ++ ip_packet payload tos).
Proof.
  unfold ethernetPacket. set (z := replicate (length payload) 0).
  assert (length z = length payload) as Hz by apply length_replicate.
  change (replicate (14 + 20 + length payload) 0) with (replicate 14 0 ++ replicate 20 0 ++ z).
  set (eth := guestMAC ++ hostMAC ++ [8; 0]).
  change (bput (replicate 14 0 ++ replicate 20 0 ++ z) 0 guestMAC) with
    (Some (guestMAC ++ replicate 8 0 ++ replicate 20 0 ++ z)). cbn [mbind option_bind].
  change (bput (guestMAC ++ replicate 8 0 ++ replicate 20 0 ++ z) 6 hostMAC) with
    (Some (guestMAC ++ hostMAC ++ replicate 2 0 ++ replicate 20 0 ++ z)). cbn [mbind option_bind].
  change (PutUint16 (guestMAC ++ hostMAC ++ replicate 2 0 ++ replicate 20 0 ++ z) 12 2048) with
    (Some (eth ++ replicate 20 0 ++ z)). cbn [mbind option_bind].
  rewrite slice_tail by done. cbn [mbind option_bind].
  do 4 (rewrite upd_head by done; cbn [mbind option_bind]).
  cbn [insert list_insert replicate Z.to_nat Pos.to_nat Pos.iter_op Nat.add].
  match goal with |- context [len (?a ++ z)] => set (h := a) end.
  assert (len (h ++ z) = 20 + len payload) as -> by (rewrite len_app; unfold len; rewrite Hz; done).
  set (size := u16 (20 + len payload)). unfold ip_packet. fold size.
  transitivity (h0 ← slice (header size tos 0 ++ z) 0 20;
    ip ← PutUint16 (header size tos 0 ++ z) 10 (ipChecksum h0);
    ip ← bput ip 20 payload; Some (eth ++ ip)); [reflexivity|].
  rewrite slice_head by done. cbn [mbind option_bind].
  change (PutUint16 (header size tos 0 ++ z) 10 (ipChecksum (header size tos 0))) with
    (Some (header size tos (ipChecksum (header size tos 0)) ++ z)). cbn [mbind option_bind].
  by rewrite bput_end by done.
Qed.
(** ** What the relay accepts *)

Lemma nativePacket_native ip src dst p tos h pad :
  bytes_ok ip → native 28 ip src dst p tos h pad → nativePacket ip src dst = Some (Some (p, tos)).
Proof.
  intros Hb [-> Hlen Hfirst [k Hk] Htos Htotal (f&Hf&Hf0) Hproto Hsum Hsrc Hdst Hsize].
  apply Forall_app in Hb as [Hh _]. pose proof (len_nonneg pad).
  rewrite Hk, Z.div_mul in Hfirst by lia.
  assert (20 ≤ length h)%nat as Hl by (unfold len in Hlen; lia).
  destruct (nibble_header k) as [E1 E2]; [lia|].
  unfold nativePacket, Uint16 in *. rewrite !idx_head, !bsub_head by lia.
  change (slice (h ++ p ++ pad) 12 16) with (slice (h ++ p ++ pad) (Z.of_nat 12) (Z.of_nat (12 + 4))).
  change (slice (h ++ p ++ pad) 16 20) with (slice (h ++ p ++ pad) (Z.of_nat 16) (Z.of_nat (16 + 4))).
  rewrite !slice_header by lia.
  change (Z.to_nat 0) with 0%nat. change (Z.to_nat 1) with 1%nat. change (Z.to_nat 9) with 9%nat.
  rewrite Hfirst, Htotal, Hproto, Hf, Hsrc, Hdst, Htos.
  rewrite (proj2 (Z.ltb_ge _ _)) by (rewrite !len_app; lia). cbn [mbind option_bind].
  rewrite E1, E2, <- Hk, !(proj2 (Z.ltb_ge _ _)) by (rewrite ?len_app; lia).
  cbn [mbind option_bind orb negb Z.eqb Pos.eqb].
  rewrite slice_head by done. cbn [mbind option_bind].
  rewrite (proj2 (ipChecksum_zero _ Hh ltac:(lia))), Hf0 by done. cbn [negb Z.eqb].
  rewrite !bool_decide_true by done. cbn [negb].
  by rewrite slice_middle by done.
Qed.
(** [nativePacket] never panics and accepts only what [native] describes. *)
Lemma nativePacket_inv ip src dst :
  bytes_ok ip → ∃ o, nativePacket ip src dst = Some o ∧
    ∀ p tos, o = Some (p, tos) → ∃ h pad, native 28 ip src dst p tos h pad.
Proof.
  intros Hb. unfold nativePacket.
  destruct (Z.ltb_spec (len ip) 20) as [|Hlen]; [by eexists|].
  assert (20 ≤ length ip)%nat as Hl by (unfold len in Hlen; lia).
  destruct (idx_ok ip 0) as [first Ef]; [lia|]. rewrite Ef. cbn [mbind option_bind].
  assert (is_byte first) as Hfb by (eapply (Forall_lookup_1 _ _ _ _ Hb); exact Ef).
  destruct (Z.eqb_spec (Z.shiftr first 4) 4) as [E4|]; cbn [negb]; [|by eexists].
  destruct (nibbles first Hfb E4) as [Efirst Hk]. set (k := Z.land first 15) in *.
  destruct (bsub_some ip 2 2) as [t Et]; [lia|]. unfold Uint16. rewrite Et. cbn [fmap option_fmap option_map mbind option_bind].
  assert (∃ total, be_decode t = total) as [total Etotal] by eauto. rewrite Etotal.
  destruct (Z.ltb_spec (k * 4) 20) as [|Hh]; cbn [orb]; [by eexists|].
  destruct (Z.ltb_spec (len ip) (k * 4)) as [|_]; cbn [orb]; [by eexists|].
  destruct (Z.ltb_spec total (k * 4 + 28)) as [|Hmin]; cbn [orb]; [by eexists|].
  destruct (Z.ltb_spec (len ip) total) as [|Htot]; [by eexists|].
  destruct (cut_at ip (k * 4) total) as (h&p&pad&->&Hhl&Hpl); [lia|lia|].
  assert (20 ≤ length h)%nat as Hl' by (unfold len in Hhl; lia).
  revert Ef Et. rewrite !idx_head, !bsub_head by lia. intros Ef Et.
  destruct (lookup_lt_is_Some_2 h 9) as [proto Eproto]; [lia|].
  change (Z.to_nat 9) with 9%nat. rewrite Eproto. cbn [mbind option_bind].
  destruct (Z.eqb_spec proto 146) as [->|]; cbn [negb]; [|by eexists].
  rewrite slice_head by done. cbn [mbind option_bind].
  apply Forall_app in Hb as [Hhb _]. pose proof (ipChecksum_zero h Hhb ltac:(lia)) as Hck.
  destruct (Z.eqb_spec (ipChecksum h) 0) as [E0|]; cbn [negb]; [|by eexists].
  destruct (bsub_some h 6 2) as [f Eb]; [lia|]. rewrite Eb. cbn [fmap option_fmap option_map mbind option_bind].
  destruct (Z.eqb_spec (Z.land (be_decode f) 16383) 0) as [Ef0|]; cbn [negb]; [|by eexists].
  destruct (bsub_some h 12 4) as [a1 E12]; [lia|]. destruct (bsub_some h 16 4) as [a2 E16]; [lia|].
  change (slice (h ++ p ++ pad) 12 16) with (slice (h ++ p ++ pad) (Z.of_nat 12) (Z.of_nat (12 + 4))).
  change (slice (h ++ p ++ pad) 16 20) with (slice (h ++ p ++ pad) (Z.of_nat 16) (Z.of_nat (16 + 4))).
  rewrite !slice_header, E12, E16 by lia. cbn [mbind option_bind].
  case_bool_decide as Hsrc; cbn [negb]; [|by eexists]. case_bool_decide as Hdst; cbn [negb]; [|by eexists].
  destruct (lookup_lt_is_Some_2 h 1) as [tos Etos]; [lia|].
  change (Z.to_nat 1) with 1%nat. rewrite Etos.
  rewrite (slice_middle h p pad) by lia. cbn [mbind option_bind].
  eexists. split; [reflexivity|]. intros p' tos' [= <- <-]. exists h, pad. clearbody k. subst first a1 a2.
  split; try done; try lia.
  - rewrite Hhl, Z.div_mul by lia. exact Ef.
  - exists k. lia.
  - unfold Uint16. rewrite Et. cbn. f_equal. lia.
  - exists (be_decode f). unfold Uint16. by rewrite Eb.
Qed.
(** The packets the relay builds are what it accepts. *)
Lemma header_bytes size tos c : is_byte tos → bytes_ok (header size tos c).
Proof.
  intros Ht. unfold header. repeat apply Forall_app_2; try apply be_encode_bytes;
    repeat (apply Forall_cons_2; [done|]); by apply Forall_nil_2.
Qed.

Lemma ip_packet_bytes payload tos : bytes_ok payload → is_byte tos → bytes_ok (ip_packet payload tos).
Proof. intros Hb Ht. apply Forall_app_2; [by apply header_bytes|done]. Qed.

Lemma ip_packet_native payload tos :
  bytes_ok payload → is_byte tos → 28 ≤ len payload ≤ 65515 →
  ∃ h, native 28 (ip_packet payload tos) virtualHost virtualGuest payload tos h [].
Proof.
  intros Hb Ht Hl. unfold ip_packet. rewrite u16_id by (unfold is_u16; lia).
  set (size := 20 + len payload). set (h0 := header size tos 0). set (ck := ipChecksum h0).
  assert (∀ c, bytes_ok (header size tos c)) as Hok by (intros c; by apply header_bytes).
  assert (∀ c, words (header size tos c) = 256 * 69 + tos + words (be_encode 2 size) +
    (256 * 64 + 146) + words (be_encode 2 c) + words [10; 0; 0; 1; 10; 0; 0; 2]) as Hws.
  { intros c. change (header size tos c) with ([69; tos] ++ be_encode 2 size ++ [0; 0; 0; 0; 64; 146] ++
      be_encode 2 c ++ [10; 0; 0; 1; 10; 0; 0; 2]). rewrite !words_app by done. cbn -[Z.mul be_encode]. lia. }
  assert (words h0 > 0) as Hpos.
  { unfold h0. rewrite Hws. pose proof (words_bound _ (be_encode_bytes 2 size)). destruct Ht.
    change (words (be_encode 2 0)) with 0. change (words [10; 0; 0; 1; 10; 0; 0; 2]) with 5123. lia. }
  assert (∀ c, is_u16 c → words (header size tos c) = words h0 + c) as Hw.
  { intros c Hc. unfold h0. rewrite !Hws. change (words (be_encode 2 0)) with 0.
    pose proof (be_decode_encode 2 c Hc) as E. change (be_encode 2 c) with [byte_at c 1; byte_at c 0] in *.
    rewrite decode_pair in E by apply byte_at_range.
    change (words [byte_at c 1; byte_at c 0]) with (256 * byte_at c 1 + byte_at c 0 + 0). lia. }
  assert (ck = 65535 - ones (words h0)) as Eck by (apply ipChecksum_spec; [apply Hok|done]).
  destruct (ones_range (words h0)) as [? ?]; [lia|].
  exists (header size tos ck). split; try done.
  - by rewrite app_nil_r.
  - exists 5. done.
  - unfold size. transitivity (Some (be_decode (be_encode 2 (20 + len payload)))); [reflexivity|].
    f_equal. apply (wire_facts.decode16 (20 + len payload)). unfold is_u16. lia.
  - by exists 0.
  - rewrite Hw by (unfold is_u16; lia). rewrite Eck. apply ones_complement. lia.
  - lia.
Qed.

(** ** Theorems about acceptance *)

(** C24: the relay's check of a datagram is exact and never panics: it accepts
    precisely the IPv4 datagrams of protocol 146 between the two addresses that
    are complete, unfragmented, with a correct header checksum and at least a
    Homa common header, and gives their Homa bytes and traffic class. *)
Theorem native_exact ip src dst :
  bytes_ok ip → ∃ o, nativePacket ip src dst = Some o ∧
    ∀ p tos, o = Some (p, tos) ↔ ∃ h pad, native 28 ip src dst p tos h pad.
Proof.
  intros Hb. destruct (nativePacket_inv ip src dst Hb) as (o&Ho&Hinv). exists o. split; [done|].
  intros p tos. split; [apply Hinv|]. intros (h&pad&Hn).
  pose proof (nativePacket_native _ _ _ _ _ _ _ Hb Hn) as E. congruence.
Qed.

(** Every single-byte corruption of the IPv4 header after its first byte
    is detected: the corrupted datagram is rejected. *)
Theorem header_corruption_rejected ip src dst p tos h pad i x :
  bytes_ok ip → native 28 ip src dst p tos h pad → (1 ≤ i < length h)%nat → is_byte x →
  ip !! i ≠ Some x → nativePacket (<[i := x]> ip) src dst = Some None.
Proof.
  intros Hb Hn Hi Hx Hne.
  destruct (nativePacket_inv (<[i := x]> ip) src dst) as ([[p' tos']|]&Ho&Hinv); [by apply Forall_insert| |done].
  exfalso. destruct (Hinv _ _ eq_refl) as (h'&pad'&Hn').
  destruct Hn as [-> Hlen Hfirst [k Hk] _ _ _ _ Hsum _ _ _].
  destruct Hn' as [Es Hlen' Hfirst' [k' Hk'] _ _ _ _ Hsum' _ _ _].
  rewrite insert_app_l in Es by lia.
  assert (length h' = length h) as Hll.
  { apply (f_equal (λ l, l !! 0%nat)) in Es. rewrite !lookup_app_l in Es
      by (rewrite ?length_insert; unfold len in *; lia).
    rewrite list_lookup_insert_ne, Hfirst, Hfirst' in Es by lia. rewrite Hk, Hk', !Z.div_mul in Es by lia.
    injection Es as Es. unfold len in *. lia. }
  apply app_inj_1 in Es as [<- _]; [|by rewrite length_insert].
  destruct (lookup_lt_is_Some_2 h i) as [y Hy]; [lia|].
  apply Forall_app in Hb as [Hhb _]. rewrite lookup_app_l, Hy in Hne by lia.
  assert (is_byte y) as [? ?] by by eapply (Forall_lookup_1 _ _ _ _ Hhb).
  assert (x ≠ y) as Hxy by congruence. destruct Hx.
  rewrite (words_insert h i x y Hy) in Hsum'.
  assert (∀ z, ones z = 65535 → 0 ≤ z → (65535 | z)) as Hdiv.
  { intros z E Hz. apply ones_mod; [|done]. destruct (Z.eq_dec z 0) as [->|]; [done|lia]. }
  pose proof (words_bound h Hhb).
  assert (0 ≤ words h + (x - y) * (if Nat.even i then 256 else 1)) as Hnn.
  { rewrite <- (words_insert h i x y Hy). apply words_bound. by apply Forall_insert. }
  destruct (Hdiv _ Hsum ltac:(lia)) as [a Ea]. destruct (Hdiv _ Hsum' Hnn) as [b Eb].
  destruct (Nat.even i); nia.
Qed.
(** ** Homa packets the relay lets through *)

(** The two routes: the peer's client 4003 to the guest's server 4000, and the
    peer's server 4001 to the guest's client 4002. *)
Definition route (src dst : Z) (fromLAN : bool) : Prop :=
  if fromLAN then (src = 4003 ∧ dst = 4000) ∨ (src = 4001 ∧ dst = 4002)
  else (src = 4000 ∧ dst = 4003) ∨ (src = 4002 ∧ dst = 4001).

Lemma allowedHoma_spec p fromLAN :
  bytes_ok p → ∃ o, allowedHoma p fromLAN = Some o ∧
    (o = true ↔ 28 ≤ len p ∧ ∃ src dst typ size, Uint16 p 0 = Some src ∧ Uint16 p 2 = Some dst ∧
      route src dst fromLAN ∧ p !! 11%nat = Some typ ∧ lengths typ = Some size ∧ size ≤ len p).
Proof.
  intros Hb. unfold allowedHoma. destruct (Z.ltb_spec (len p) 28) as [|Hl].
  { exists false. split; [done|]. split; [done|]. intros [? _]. lia. }
  assert (28 ≤ length p)%nat by (unfold len in Hl; lia).
  unfold Uint16. destruct (bsub_some p 0 2) as [a Ea]; [lia|]. destruct (bsub_some p 2 2) as [b Eb]; [lia|].
  rewrite Ea, Eb. cbn [fmap option_fmap option_map mbind option_bind].
  destruct (idx_ok p 11) as [typ Et]; [lia|]. rewrite Et. cbn [mbind option_bind].
  assert (p !! 11%nat = Some typ) as Et' by exact Et. clear Et.
  match goal with |- context [if ?t then Some false else _] => assert (t = false ↔ route (be_decode a) (be_decode b) fromLAN) as Hr end.
  { unfold route. destruct fromLAN; rewrite negb_false_iff, orb_true_iff, !andb_true_iff, !Z.eqb_eq; done. }
  match goal with |- context [if ?t then Some false else _] => destruct t end.
  { exists false. split; [done|]. split; [done|]. intros (_&?&?&?&?&[= <-]&[= <-]&Hrt&_). by apply Hr in Hrt. }
  destruct (lengths typ) as [size|] eqn:Hs.
  - exists (size <=? len p). split; [done|]. rewrite Z.leb_le. split.
    + intros Hle. split; [done|]. exists (be_decode a), (be_decode b), typ, size. split_and!; try done. by apply Hr.
    + intros (_&?&?&t&z&_&_&_&E&Hz&?). rewrite Et' in E. injection E as <-. congruence.
  - exists false. split; [done|]. split; [done|].
    intros (_&?&?&t&z&_&_&_&E&Hz&_). rewrite Et' in E. injection E as <-. congruence.
Qed.

(** The relay's table of lengths is the wire format's, without FREEZE. *)
Lemma lengths_HeaderSize typ size :
  lengths typ = Some size → wire.HeaderSize typ = Some size ∧ typ ≠ wire.FreezeType.
Proof.
  unfold lengths. intros E.
  repeat match type of E with
  | (if ?x =? ?y then _ else _) = _ => destruct (Z.eqb_spec x y) as [->|]; [injection E as <-; done|]
  end. done.
Qed.
(** The fields [Parse] reads first. *)
Lemma parseCommon_reads b h :
  wire.parseCommon b = Some h →
  Uint16 b 0 = Some (wire.h_SourcePort h) ∧ Uint16 b 2 = Some (wire.h_DestinationPort h) ∧
  b !! 11%nat = Some (wire.h_Type h) ∧ Uint64 b 20 = Some (wire.h_SenderID h).
Proof.
  unfold wire.parseCommon. intros E.
  repeat match type of E with
  | (?o ≫= _) = Some _ => let x := fresh "v" in destruct o as [x|] eqn:?; [cbn [mbind option_bind] in E|done]
  end. injection E as <-. done.
Qed.

Lemma parse_common `{GoPlatform} b w :
  bytes_ok b → len b ≤ maxInt → wire.Parse b = Some (inr w) → wire.parseCommon b = Some (wire.Header w).
Proof.
  intros Hb Hmax HP. pose proof (wire_facts.Parse_view b Hb Hmax) as V. rewrite HP in V.
  inversion V as [| | | |? pad Es Hok Hm Hc Hpad]; subst.
  pose proof (wire_facts.packet_ok_header _ Hok) as Hh. unfold wire.packetBytes. rewrite <- app_assoc.
  apply wire_facts.parseCommon_bytes. exact Hh.
Qed.

Lemma allowed_parse `{GoPlatform} p fromLAN :
  bytes_ok p → len p ≤ maxInt → allowedHoma p fromLAN = Some true →
  wire.Parse p = Some (inl wire.ErrAckCount) ∨
  ∃ w, wire.Parse p = Some (inr w) ∧ wire.h_Type (wire.Header w) ≠ wire.FreezeType ∧
    route (wire.h_SourcePort (wire.Header w)) (wire.h_DestinationPort (wire.Header w)) fromLAN.
Proof.
  intros Hb Hmax Ha. destruct (allowedHoma_spec p fromLAN Hb) as (o&Ho&Hiff).
  rewrite Ha in Ho. injection Ho as <-.
  destruct (proj1 Hiff eq_refl) as (Hl&src&dst&typ&size&Hsrc&Hdst&Hr&Ht&Hs&Hle).
  destruct (lengths_HeaderSize _ _ Hs) as [HH Hfr]. pose proof (wire_facts.Parse_view p Hb Hmax) as V.
  destruct (wire.Parse p) as [[e|w]|] eqn:HP; [..|by inversion V].
  { left. inversion V as [|t z _ Et Ez|t _ Et Ez|n| ]; subst; try done; exfalso;
      [unfold wire.CommonSize in *; lia|..]; rewrite Ht in Et; simplify_eq. lia. }
  right. exists w. split; [done|].
  destruct (parseCommon_reads p _ (parse_common p w Hb Hmax HP)) as (E1&E2&E3&_).
  assert (wire.h_SourcePort (wire.Header w) = src ∧ wire.h_DestinationPort (wire.Header w) = dst ∧
    wire.h_Type (wire.Header w) = typ) as (->&->&->) by (split_and!; congruence). done.
Qed.

(** What the relay forwards is Homa: a packet it allows parses as a packet
    of one of the two configured routes in that direction, never a FREEZE, or
    is an acknowledgment with too many records; and no packet is allowed in
    both directions. *)
Theorem allowed_packets_parse `{GoPlatform} p fromLAN :
  bytes_ok p → len p ≤ maxInt → allowedHoma p fromLAN = Some true →
  allowedHoma p (negb fromLAN) = Some false ∧
  (wire.Parse p = Some (inl wire.ErrAckCount) ∨
   ∃ w, wire.Parse p = Some (inr w) ∧ wire.h_Type (wire.Header w) ≠ wire.FreezeType ∧
     route (wire.h_SourcePort (wire.Header w)) (wire.h_DestinationPort (wire.Header w)) fromLAN).
Proof.
  intros Hb Hmax Ha. split; [|by apply allowed_parse].
  destruct (allowedHoma_spec p fromLAN Hb) as (o&Ho&Hiff). rewrite Ha in Ho. injection Ho as <-.
  destruct (proj1 Hiff eq_refl) as (_&src&dst&_&_&Hsrc&Hdst&Hr&_).
  destruct (allowedHoma_spec p (negb fromLAN) Hb) as ([|]&Ho&Hiff'); [exfalso|done].
  destruct (proj1 Hiff' eq_refl) as (_&src'&dst'&_&_&Hsrc'&Hdst'&Hr'&_).
  assert (src' = src ∧ dst' = dst) as [-> ->] by (split; congruence).
  destruct fromLAN; cbn in Hr, Hr'; lia.
Qed.

(** ** Counting acknowledged calls *)

(** The client IDs a packet from the peer's client acknowledges to the guest's
    server on port 4000. *)
Definition acked (w : wire.Packet) : list Z :=
  match w with
  | wire.PAck v =>
      wire.h_SenderID (wire.ak_Common v) ::
      (wire.ar_ClientID <$> filter (λ a, wire.ar_ServerPort a = 4000)
         (take (Z.to_nat (wire.ak_NumAcks v)) (wire.ak_Acks v)))
  | wire.PData d =>
      if wire.ar_ServerPort (wire.d_Ack d) =? 4000 then [wire.ar_ClientID (wire.d_Ack d)] else []
  | _ => []
  end.

Definition add_acks (ids : list Z) (acks : gset Z) : gset Z := foldl (λ s id, add_ack id s) acks ids.

Lemma parseAck_reads b off a :
  wire.parseAck b off = Some a →
  Uint64 b off = Some (wire.ar_ClientID a) ∧ Uint16 b (off + 8) = Some (wire.ar_ServerPort a).
Proof.
  unfold wire.parseAck, bsub, wire.AckRecordSize. destruct (Nat.eqb_spec (length (take 10 (drop off b))) 10) as [El|]; [|done].
  cbn [mbind option_bind]. unfold Uint64, Uint16, bsub.
  rewrite length_take, length_drop in El. rewrite !drop_0, take_take.
  rewrite skipn_firstn_comm, drop_drop, take_take.
  rewrite !length_take, !length_drop. cbn [Nat.sub].
  replace (min (min 8 10) (length b - off)) with 8%nat by lia.
  replace (min 8 (length b - off)) with 8%nat by lia.
  replace (min (min 2 2) (length b - (off + 8))) with 2%nat by lia.
  replace (min 2 (length b - (off + 8))) with 2%nat by lia.
  cbn [Nat.eqb fmap option_fmap option_map mbind option_bind Nat.min]. intros [= <-]. done.
Qed.

Lemma note_records_spec p recs n i m acks :
  Forall2 (λ j a, wire.parseAck p (30 + j * 10) = Some a) (seq i m) recs → (n ≤ m)%nat →
  note_records p i n acks =
    Some (add_acks (wire.ar_ClientID <$> filter (λ a, wire.ar_ServerPort a = 4000) (take n recs)) acks).
Proof.
  revert recs i m acks. induction n as [|n IH]; intros recs i m acks Hf Hn; [done|].
  destruct m as [|m]; [lia|]. cbn [seq] in Hf. inversion Hf as [|? a ? recs' Ha Hf']; subst.
  destruct (parseAck_reads _ _ _ Ha) as [Eid Eport]. cbn [note_records take].
  rewrite Eport, Eid. cbn [mbind option_bind].
  rewrite filter_cons. destruct (Z.eqb_spec (wire.ar_ServerPort a) 4000) as [E|E].
  - rewrite decide_True by done. cbn [mbind option_bind fmap list_fmap]. cbn [add_acks foldl].
    apply (IH _ (S i) m); [done|lia].
  - rewrite decide_False by done. cbn [mbind option_bind]. apply (IH _ (S i) m); [done|lia].
Qed.
(** What [Parse] did with an acknowledgment and with DATA. *)
Lemma parse_ack_reads b h :
  wire.parseCommon b = Some h → wire.h_Type h = wire.AckType → wire.CommonSize ≤ len b → wire.AckSize ≤ len b →
  wire.Parse b = (n ← Uint16 b 28;
    if Z.of_nat wire.MaxAcks <? n then Some (inl wire.ErrAckCount) else
    acks ← mapM (λ i, wire.parseAck b (30 + i * wire.AckRecordSize)) (seq 0 wire.MaxAcks);
    Some (inr (wire.PAck {| wire.ak_Common := h; wire.ak_NumAcks := n; wire.ak_Acks := acks |}))).
Proof.
  intros Hh Ht H1 H2. unfold wire.Parse. rewrite (proj2 (Z.ltb_ge _ _)), Hh by done. cbn [mbind option_bind].
  rewrite Ht. change (wire.HeaderSize wire.AckType) with (Some wire.AckSize).
  cbv beta iota. by rewrite (proj2 (Z.ltb_ge _ _)) by done.
Qed.

Lemma parse_data_reads b h w :
  wire.parseCommon b = Some h → wire.h_Type h = wire.DataType → wire.Parse b = Some (inr w) →
  ∃ d, w = wire.PData d ∧ wire.parseAck b 36 = Some (wire.d_Ack d).
Proof.
  intros Hh Ht. unfold wire.Parse. case_if; [done|]. rewrite Hh. cbn [mbind option_bind]. rewrite Ht.
  change (wire.HeaderSize wire.DataType) with (Some wire.DataSize). cbv beta iota. case_if; [done|].
  change (wire.DataType =? wire.DataType) with true. cbv iota.
  destruct (wire.parseData h b) as [d|] eqn:Hd; [|done]. cbn [mbind option_bind]. intros [= <-].
  exists d. split; [done|]. unfold wire.parseData in Hd.
  destruct (Uint32 b 28); [|done]. destruct (Uint32 b 32); [|done]. cbn [mbind option_bind] in Hd.
  destruct (wire.parseAck b 36) as [a|]; [|done]. cbn [mbind option_bind] in Hd.
  repeat match type of Hd with
  | (?o ≫= _) = Some _ => destruct o; [cbn [mbind option_bind] in Hd|done]
  end. by injection Hd as <-.
Qed.

Lemma noteAcks_parsed `{GoPlatform} p w acks :
  bytes_ok p → len p ≤ maxInt → wire.Parse p = Some (inr w) →
  noteAcks p acks = Some (
    if (wire.h_SourcePort (wire.Header w) =? 4003) && (wire.h_DestinationPort (wire.Header w) =? 4000)
    then add_acks (acked w) acks else acks).
Proof.
  intros Hb Hmax HP. pose proof (parse_common p w Hb Hmax HP) as Hh.
  destruct (parseCommon_reads p _ Hh) as (E1&E2&E3&E4). unfold noteAcks. rewrite E1. cbn [mbind option_bind].
  destruct (wire.h_SourcePort (wire.Header w) =? 4003); cbn [negb andb]; [|done].
  rewrite E2. cbn [mbind option_bind].
  destruct (wire.h_DestinationPort (wire.Header w) =? 4000); cbn [negb]; [|done].
  assert (idx p 11 = Some (wire.h_Type (wire.Header w))) as -> by exact E3. cbn [mbind option_bind].
  destruct (Z.eqb_spec (wire.h_Type (wire.Header w)) 24) as [Ht|Ht].
  - assert (wire.AckSize ≤ len p) as Hsz.
    { destruct (Z.le_gt_cases wire.AckSize (len p)) as [|Hlt]; [done|]. exfalso. revert HP.
      unfold wire.Parse. case_if; [done|]. rewrite Hh. cbn [mbind option_bind]. rewrite Ht.
      change (wire.HeaderSize 24) with (Some wire.AckSize). cbv beta iota.
      by rewrite (proj2 (Z.ltb_lt _ _)) by done. }
    revert HP. rewrite (parse_ack_reads p _ Hh Ht) by (unfold wire.CommonSize, wire.AckSize in *; lia).
    rewrite E4. cbn [mbind option_bind]. destruct (Uint16 p 28) as [n|] eqn:En; [|done].
    cbn [mbind option_bind]. change (Z.of_nat wire.MaxAcks) with 5.
    destruct (Z.ltb_spec 5 n) as [|Hn]; [done|].
    destruct (mapM _ _) as [recs|] eqn:Hm; [|done]. cbn [mbind option_bind]. intros [= <-].
    apply mapM_Some in Hm. rewrite (note_records_spec p recs _ 0 5) by (done || lia). done.
  - destruct (Z.eqb_spec (wire.h_Type (wire.Header w)) 16) as [Ht'|Ht'].
    + destruct (parse_data_reads p _ w Hh Ht' HP) as (d&->&Ha).
      destruct (parseAck_reads _ _ _ Ha) as [Eid Eport].
      change (Uint16 p 44) with (Uint16 p (36 + 8)). rewrite Eport, Eid. cbn [mbind option_bind acked].
      by destruct (_ =? 4000).
    + pose proof (wire_facts.Parse_view p Hb Hmax) as V. rewrite HP in V.
      inversion V as [| | | |? pad _ _ Hm _ _]; subst. by destruct w; try done; destruct Hm.
Qed.
(** The set of acknowledged calls: at most 1024 client IDs. *)
Definition acks_ok (acks : gset Z) : Prop :=
  Z.of_nat (size acks) ≤ 1024 ∧ ∀ id, id ∈ acks → id ≠ 0 ∧ Z.even id = true.

Lemma add_ack_ok id acks : acks_ok acks → acks_ok (add_ack id acks).
Proof.
  intros [Hs He]. unfold add_ack. case_if; [|done]. split.
  - rewrite size_union_alt, size_singleton.
    assert (size (acks ∖ {[ id ]}) ≤ size acks)%nat by (apply subseteq_size; by intros x [? _]%elem_of_difference). lia.
  - intros i [->%elem_of_singleton|Hi]%elem_of_union; [|by apply He]. split; [done|].
    rewrite land_1 in *. by destruct (Z.even id).
Qed.

Lemma add_acks_ok ids acks : acks_ok acks → acks_ok (add_acks ids acks).
Proof.
  revert acks. induction ids as [|id ids IH]; intros acks Hok; [done|]. cbn. apply IH. by apply add_ack_ok.
Qed.

(** An allowed acknowledgment with too many records only counts its sender. *)
Lemma noteAcks_overfull `{GoPlatform} p acks :
  bytes_ok p → len p ≤ maxInt → wire.Parse p = Some (inl wire.ErrAckCount) →
  ∃ ids, noteAcks p acks = Some (add_acks ids acks).
Proof.
  intros Hb Hmax HP. pose proof (wire_facts.Parse_view p Hb Hmax) as V. rewrite HP in V.
  inversion V as [| | |n Hl Ht En Hn|]; subst. unfold wire.AckSize in Hl.
  assert (80 ≤ length p)%nat by (unfold len in Hl; lia).
  unfold noteAcks, Uint16, Uint64 in *.
  destruct (bsub_some p 0 2) as [a ->]; [lia|]. destruct (bsub_some p 2 2) as [b ->]; [lia|].
  destruct (bsub_some p 20 8) as [d ->]; [lia|]. cbn [fmap option_fmap option_map mbind option_bind].
  assert (idx p 11 = Some wire.AckType) as -> by exact Ht. rewrite En. cbn [mbind option_bind].
  case_if; [by exists []|]. case_if; [by exists []|].
  change (wire.AckType =? 24) with true. cbv beta iota zeta.
  rewrite (proj2 (Z.ltb_lt 5 n)) by (change (Z.of_nat wire.MaxAcks) with 5 in Hn; lia).
  by exists [be_decode d].
Qed.

Lemma noteAcks_total `{GoPlatform} p acks :
  bytes_ok p → len p ≤ maxInt → allowedHoma p true = Some true → ∃ acks', noteAcks p acks = Some acks'.
Proof.
  intros Hb Hmax Ha. destruct (allowed_parse p true Hb Hmax Ha) as [HP|(w&HP&_)].
  - destruct (noteAcks_overfull p acks Hb Hmax HP) as [ids E]. eauto.
  - rewrite (noteAcks_parsed p w acks Hb Hmax HP). eauto.
Qed.

(** The relay's evidence is exact: for every packet it forwards from the
    LAN, counting does not panic and adds exactly the client IDs which that
    packet acknowledges to the guest's server; the evidence only ever holds
    even nonzero IDs, at most 1024 of them, each once. *)
Theorem acknowledgments_counted `{GoPlatform} p acks :
  bytes_ok p → len p ≤ maxInt → allowedHoma p true = Some true → acks_ok acks →
  ∃ acks', noteAcks p acks = Some acks' ∧ acks_ok acks' ∧
    ∀ w, wire.Parse p = Some (inr w) → acks' =
      if wire.h_DestinationPort (wire.Header w) =? 4000 then add_acks (acked w) acks else acks.
Proof.
  intros Hb Hmax Ha Hok. destruct (allowed_parse p true Hb Hmax Ha) as [HP|(w&HP&_&Hr)].
  - destruct (noteAcks_overfull p acks Hb Hmax HP) as [ids E]. exists (add_acks ids acks).
    split; [done|]. split; [by apply add_acks_ok|]. congruence.
  - rewrite (noteAcks_parsed p w acks Hb Hmax HP). eexists. split; [done|].
    assert ((wire.h_SourcePort (wire.Header w) =? 4003) && (wire.h_DestinationPort (wire.Header w) =? 4000) =
      (wire.h_DestinationPort (wire.Header w) =? 4000)) as ->
      by (destruct Hr as [[-> ->]|[-> ->]]; done).
    split; [case_if; [by apply add_acks_ok|done]|]. intros w' E. assert (w' = w) as -> by congruence. done.
Qed.
(** ** Frames on the stream *)

Section stream.
Context `{Socket}.

Lemma wp_nic_write f c :
  frame_ok f →
  wp (nic_write f) (written (encoded f) c) c.
Proof.
  intros [H1 H2]. unfold nic_write, conn_SetWriteDeadline. wp_steps.
  destruct (set_deadline (c_calls c)) as [err|]; [wp_step; split; [done|]; exists 0%nat; by rewrite take_0, app_nil_r|].
  eapply wp_mono; [apply wp_write_frame|]. rewrite u32_id by (unfold is_u32; lia). by intros err c' Hw.
Qed.

(** Writing frames one after the other, up to the first error, and reading as
    many. *)
Fixpoint write_frames (fs : list (list Z)) : M conn (option io_error) :=
  match fs with
  | [] => mret None
  | f :: fs =>
      err ← nic_write f;
      match err with Some err => mret (Some err) | None => write_frames fs end
  end.

Fixpoint read_frames (n : nat) : M conn (io_error + list (list Z)) :=
  match n with
  | O => mret (inr [])
  | S n =>
      got ← nic_read;
      match got with
      | inl err => mret (inl err)
      | inr f => more ← read_frames n; mret (match more with inl err => inl err | inr fs => inr (f :: fs) end)
      end
  end.

Lemma read_frames_run fs rest out calls :
  Forall frame_ok fs →
  read_frames (length fs) (mkConn (concat (encoded <$> fs) ++ rest) out calls) =
    inl (inr fs, mkConn rest out calls).
Proof.
  induction fs as [|f fs IH]; intros Hf; [done|]. apply Forall_cons in Hf as [Hok Hf].
  cbn [length read_frames fmap list_fmap concat]. rewrite <- app_assoc.
  rewrite (bind_run _ _ _ _ _ (read_prefixed_run f _ out calls Hok)).
  by rewrite (bind_run _ _ _ _ _ (IH Hf)).
Qed.

(** C25: the stream keeps frames apart: however the socket cuts the writes,
    writing frames always returns, and when it reports no error the reader at
    the other end gets the same frames in the same order. *)
Theorem frames_roundtrip fs c rest out calls :
  Forall frame_ok fs →
  ∃ err c', write_frames fs c = inl (err, c') ∧
    (err = None → ∃ bytes, c_out c' = c_out c ++ bytes ∧
      read_frames (length fs) (mkConn (bytes ++ rest) out calls) = inl (inr fs, mkConn rest out calls)).
Proof.
  intros Hf.
  assert (wp (write_frames fs) (λ err c', err = None → c_out c' = c_out c ++ concat (encoded <$> fs)) c) as Hw.
  { revert c. induction fs as [|f fs IH]; intros c; cbn [write_frames]; [wp_step; intros _; by rewrite app_nil_r|].
    apply Forall_cons in Hf as [Hok Hf]. wp_step. eapply wp_mono; [by apply wp_nic_write|].
    intros [err|] c' [_ Hout]; [by wp_step|]. eapply wp_mono; [by apply IH|].
    intros err c'' Ho E. rewrite (Ho E), Hout. cbn. by rewrite <- app_assoc. }
  destruct (wp_run _ _ _ Hw) as (err&c'&Hrun&Ho). exists err, c'. split; [done|].
  intros E. exists (concat (encoded <$> fs)). split; [by apply Ho|by apply read_frames_run].
Qed.
End stream.

(** ** Forwarding *)

(** The Homa packet of a datagram or frame that the relay forwards. *)
Definition forwarded (ip : list Z) (src dst : IPAddr) (fromLAN : bool) (p : list Z) (tos : Z) : Prop :=
  (∃ h pad, native 28 ip src dst p tos h pad) ∧ allowedHoma p fromLAN = Some true.

(** The frame for the guest. *)
Lemma ethernetPacket_frame p tos :
  bytes_ok p → is_byte tos → 28 ≤ len p ≤ 65515 →
  ∃ frame h, ethernetPacket p tos = Some frame ∧ frame_ok frame ∧ take 12 frame = guestMAC ++ hostMAC ∧
    native 28 (drop 14 frame) virtualHost virtualGuest p tos h [].
Proof.
  intros Hb Ht Hl. destruct (ip_packet_native p tos Hb Ht Hl) as [h Hn].
  eexists _, h. split; [apply ethernetPacket_bytes|]. split; [|split; [reflexivity|exact Hn]].
  unfold frame_ok. rewrite !len_app. unfold ip_packet. rewrite len_app.
  change (len (header _ _ _)) with 20. change (len guestMAC) with 6. change (len hostMAC) with 6.
  change (len [8; 0]) with 2. lia.
Qed.

Section forwarding.
Context `{Socket, RawSocket}.

Lemma wp_on_vm {A} (m : M conn A) (Q : A → relay → Prop) w :
  wp m (λ a c, Q a (mkRelay (s w) c (lan_out w) (lan_calls w))) (vm w) → wp (on_vm m) Q w.
Proof. unfold wp, on_vm. by destruct (m (vm w)) as [[a c]|]. Qed.

Lemma wp_on_state f (Q : unit → relay → Prop) w :
  Q () (mkRelay (f (s w)) (vm w) (lan_out w) (lan_calls w)) → wp (on_state f) Q w.
Proof. intros HQ. unfold on_state. by wp_step. Qed.

(** One round of [lanToVM]: the datagram is dropped and counted, or its frame
    goes to the guest and is counted, or the write to the guest failed. *)
Inductive lan_round (local peer : IPAddr) (datagram : list Z) (truncated : bool) (w : relay)
  : option io_error → relay → Prop :=
| lan_dropped :
    (truncated = true ∨ ¬ ∃ p tos, forwarded datagram peer local true p tos) →
    lan_round local peer datagram truncated w None
      (mkRelay (drop_lan (s w)) (vm w) (lan_out w) (lan_calls w))
| lan_forwarded p tos frame h acks' c :
    forwarded datagram peer local true p tos → truncated = false →
    ethernetPacket p tos = Some frame → native 28 (drop 14 frame) virtualHost virtualGuest p tos h [] →
    noteAcks p (acks (s w)) = Some acks' →
    c_in c = c_in (vm w) → c_out c = c_out (vm w) ++ encoded frame →
    lan_round local peer datagram truncated w None
      (mkRelay (note_lan tos acks' (s w)) c (lan_out w) (lan_calls w))
| lan_failed p tos frame k c err :
    forwarded datagram peer local true p tos → truncated = false → ethernetPacket p tos = Some frame →
    c_in c = c_in (vm w) → c_out c = c_out (vm w) ++ take k (encoded frame) →
    lan_round local peer datagram truncated w (Some err)
      (mkRelay (s w) c (lan_out w) (lan_calls w)).

Lemma wp_lanToVM local peer datagram truncated w :
  bytes_ok datagram →
  wp (lanToVM local peer datagram truncated) (lan_round local peer datagram truncated w) w.
Proof.
  intros Hb. unfold lanToVM.
  destruct (nativePacket_inv datagram peer local Hb) as ([[p tos]|]&Ho&Hinv); wp_step;
    apply (wp_or_panic _ _ _ _ Ho); cbv beta iota; cycle 1.
  { wp_step. apply wp_on_state. wp_step. apply lan_dropped. right. intros (p&tos&(h&pad&Hn)&_).
    pose proof (nativePacket_native _ _ _ _ _ _ _ Hb Hn). congruence. }
  destruct (Hinv p tos eq_refl) as (h&pad&Hn). destruct (native_parts _ _ _ _ _ _ _ _ Hb Hn) as (Hp&Ht&Hl).
  destruct truncated; [wp_step; apply wp_on_state; wp_step; apply lan_dropped; by left|].
  destruct (allowedHoma_spec p true Hp) as (o&Ha&_). wp_step. apply (wp_or_panic _ _ _ _ Ha).
  destruct o; cbn [negb]; cycle 1.
  { wp_step. apply wp_on_state. wp_step. apply lan_dropped. right. intros (p'&tos'&(h'&pad'&Hn')&Ha').
    pose proof (nativePacket_native _ _ _ _ _ _ _ Hb Hn'). congruence. }
  destruct (ethernetPacket_frame p tos Hp Ht Hl) as (frame&h'&Hf&Hfok&_&Hn').
  wp_step. apply (wp_or_panic _ _ _ _ Hf). wp_step. apply wp_on_vm.
  eapply wp_mono; [by apply wp_nic_write|]. intros [err|] c [Hin Hout].
  - destruct Hout as [k Hk]. wp_step. eapply lan_failed; try done. split; [by eauto|done].
  - do 2 wp_step.
    assert (len p ≤ @maxInt amd64) as Hmax by (pose proof (@maxInt_lower amd64); lia).
    destruct (noteAcks_total (H:=amd64) p (acks (s w)) Hp Hmax Ha) as [acks' Hack].
    cbn [s]. wp_step. apply (wp_or_panic _ _ _ _ Hack). wp_step. apply wp_on_state. wp_step.
    cbn [s vm lan_out lan_calls]. eapply (lan_forwarded _ _ _ _ w); try done. split; [by eauto|done].
Qed.

(** LAN to guest.  Whatever datagram arrives, the round ends: a datagram
    is dropped and counted exactly when it is truncated, not a valid native
    packet from the peer or not on a permitted route; every other one reaches
    the guest as one frame that carries the same Homa bytes and traffic class,
    with the guest's addresses and a valid checksum, or the failure of the
    connection is reported and nothing is counted. *)
Theorem lan_to_vm_exact local peer datagram truncated w :
  bytes_ok datagram →
  ∃ err w', lanToVM local peer datagram truncated w = inl (err, w') ∧
    lan_round local peer datagram truncated w err w'.
Proof.
  intros Hb. destruct (wp_run _ _ _ (wp_lanToVM local peer datagram truncated w Hb)) as (err&w'&?&?). eauto.
Qed.
(** ** From the guest *)

(** The answer to an ARP request: the host's address and hardware address, sent
    to the one who asked. *)
Definition arp_answer (frame : list Z) : list Z :=
  take 6 (drop 6 frame) ++ hostMAC ++ take 8 (drop 12 frame) ++ [0; 2] ++
  hostMAC ++ AsSlice virtualHost ++ take 6 (drop 22 frame) ++ take 4 (drop 28 frame).

Lemma arp_reply_bytes frame : 42 ≤ len frame → arp_reply frame = Some (arp_answer frame).
Proof.
  intros Hl. assert (∃ a r, frame = a ++ r ∧ length a = 42%nat) as (a&r&->&Ha).
  { exists (take 42 frame), (drop 42 frame). rewrite take_drop, length_take. unfold len in Hl. split; [done|]. lia. }
  unfold arp_reply.
  rewrite (slice_const _ 6 12 6 6), (slice_const _ 12 22 12 10), (slice_const _ 22 28 22 6),
    (slice_const _ 28 32 28 4) by (first [reflexivity|rewrite length_app; lia]).
  explode a Ha. reflexivity.
Qed.

Lemma arp_request_total frame :
  ∃ o, arp_request frame = Some o ∧ (o = true → 42 ≤ len frame).
Proof.
  unfold arp_request. destruct (Z.ltb_spec (len frame) 42) as [|Hl]; [by exists false|].
  assert (42 ≤ length frame)%nat by (unfold len in Hl; lia). unfold Uint16.
  rewrite (slice_const _ 28 32 28 4), (slice_const _ 38 42 38 4) by (done || lia).
  rewrite !bsub_take_drop by lia. cbn [fmap option_fmap option_map mbind option_bind].
  destruct (idx_ok frame 18) as [x ->]; [lia|]. destruct (idx_ok frame 19) as [y ->]; [lia|]. eauto.
Qed.

(** What [nic.arp] puts on the stream. *)
Definition answered (frame : list Z) (c : conn) (err : option io_error) (c' : conn) : Prop :=
  if default false (arp_request frame) then written (encoded (arp_answer frame)) c err c'
  else err = None ∧ c' = c.

Lemma wp_nic_arp frame c : wp (nic_arp frame) (answered frame c) c.
Proof.
  unfold nic_arp, answered. destruct (arp_request_total frame) as (o&Ho&Hlen).
  wp_step. apply (wp_or_panic _ _ _ _ Ho). rewrite Ho. destruct o; cbn [negb default]; [|by wp_step].
  specialize (Hlen eq_refl). wp_step. apply (wp_or_panic _ _ _ _ (arp_reply_bytes frame Hlen)).
  apply wp_nic_write. unfold frame_ok, arp_answer. rewrite !len_app. unfold len in *.
  rewrite !length_take, !length_drop. change (length hostMAC) with 6%nat.
  change (length (AsSlice virtualHost)) with 4%nat. cbn [length]. lia.
Qed.

(** A frame that holds an IPv4 packet of the guest. *)
Definition guest_ip (frame : list Z) : Prop :=
  Uint16 frame 12 = Some 2048 ∧ bsub frame 6 6 = Some guestMAC.

(** The calls to the raw socket, the [n]th and the three after it, that send
    [p] with traffic class [tos] all succeed. *)
Definition raw_works (n : nat) (p : list Z) (tos : Z) : Prop :=
  raw_control n = None ∧ raw_set_tos (1 + n) tos = None ∧ raw_deadline (2 + n) = None ∧
  raw_write (3 + n) p = (len p, None).

(** One round of [vmToLAN]. *)
Inductive vm_round (w : relay) : option io_error → relay → Prop :=
| vm_read_failed err c :
    c_out c = c_out (vm w) → vm_round w (Some err) (mkRelay (s w) c (lan_out w) (lan_calls w))
| vm_arp frame c c' err :
    c_in (vm w) = encoded frame ++ c_in c → c_out c = c_out (vm w) → Uint16 frame 12 = Some 2054 →
    answered frame c err c' → vm_round w err (mkRelay (s w) c' (lan_out w) (lan_calls w))
| vm_ignored frame c :
    c_in (vm w) = encoded frame ++ c_in c → c_out c = c_out (vm w) → ¬ guest_ip frame →
    vm_round w None (mkRelay (s w) c (lan_out w) (lan_calls w))
| vm_dropped frame c :
    c_in (vm w) = encoded frame ++ c_in c → c_out c = c_out (vm w) → guest_ip frame →
    (¬ ∃ p tos, forwarded (drop 14 frame) virtualGuest virtualHost false p tos) →
    vm_round w None (mkRelay (drop_vm (s w)) c (lan_out w) (lan_calls w))
| vm_forwarded frame p tos c n :
    c_in (vm w) = encoded frame ++ c_in c → c_out c = c_out (vm w) → guest_ip frame →
    forwarded (drop 14 frame) virtualGuest virtualHost false p tos →
    vm_round w None (mkRelay (sent_vm (note_vm tos (s w))) c (lan_out w ++ [(p, tos)]) n)
| vm_transient frame p tos c n err :
    c_in (vm w) = encoded frame ++ c_in c → c_out c = c_out (vm w) → guest_ip frame →
    forwarded (drop 14 frame) virtualGuest virtualHost false p tos →
    (raw_write (3 + lan_calls w) p).2 = Some err → transientSendDrop err = true →
    vm_round w None (mkRelay (drop_send (note_vm tos (s w))) c (lan_out w) n)
| vm_socket_failed frame p tos c s' out n err :
    c_in (vm w) = encoded frame ++ c_in c → c_out c = c_out (vm w) → guest_ip frame →
    forwarded (drop 14 frame) virtualGuest virtualHost false p tos →
    ¬ raw_works (lan_calls w) p tos → s' = s w ∨ s' = note_vm tos (s w) →
    out = lan_out w ∨ out = lan_out w ++ [(p, tos)] →
    vm_round w (Some err) (mkRelay s' c out n).

(** The part of a round after a packet was found. *)
Lemma wp_send_lan w frame c p tos :
  c_in (vm w) = encoded frame ++ c_in c → c_out c = c_out (vm w) → guest_ip frame →
  forwarded (drop 14 frame) virtualGuest virtualHost false p tos →
  wp (n ← next_call;
      match raw_control n with Some err => mret (Some err) | None =>
      n ← next_call;
      match raw_set_tos n tos with Some err => mret (Some err) | None =>
      n ← next_call;
      match raw_deadline n with Some err => mret (Some err) | None =>
      on_state (note_vm tos);;
      result ← raw_send p tos;
      match result.2 with
      | Some err => if transientSendDrop err then on_state drop_send;; mret None else mret (Some err)
      | None => if negb (result.1 =? len p) then mret (Some ShortWrite) else on_state sent_vm;; mret None
      end end end end) (vm_round w) (mkRelay (s w) c (lan_out w) (lan_calls w)).
Proof.
  intros Hin Hout Hg Hf. unfold next_call, raw_send.
  assert (∀ s' out n err, ¬ raw_works (lan_calls w) p tos → s' = s w ∨ s' = note_vm tos (s w) →
    out = lan_out w ∨ out = lan_out w ++ [(p, tos)] → vm_round w (Some err) (mkRelay s' c out n)) as Hfail
    by (intros; by eapply vm_socket_failed).
  unfold raw_works in Hfail. wp_steps. cbn [lan_calls s vm lan_out].
  destruct (raw_control (lan_calls w)) as [err|] eqn:E1; [wp_step; apply Hfail; [intros (?&?&?&?); simpl in *; congruence|tauto|tauto]|].
  wp_steps. cbn [lan_calls s vm lan_out].
  destruct (raw_set_tos _ tos) as [err|] eqn:E2; [wp_step; apply Hfail; [intros (?&?&?&?); simpl in *; congruence|tauto|tauto]|].
  wp_steps. cbn [lan_calls s vm lan_out].
  destruct (raw_deadline _) as [err|] eqn:E3; [wp_step; apply Hfail; [intros (?&?&?&?); simpl in *; congruence|tauto|tauto]|].
  wp_step. apply wp_on_state. unfold next_call. wp_steps. cbn [lan_calls s vm lan_out].
  destruct (raw_write _ p) as [k [err|]] eqn:E4; cbn [snd]; wp_steps; cbn [fst snd lan_calls s vm lan_out].
  - destruct (transientSendDrop err) eqn:Et; [|wp_step; apply Hfail; [intros (?&?&?&?); simpl in *; congruence|tauto|tauto]].
    wp_step. apply wp_on_state. wp_step. cbn [lan_calls s vm lan_out].
    eapply vm_transient; try done. by rewrite E4.
  - destruct (Z.eqb_spec k (len p)) as [->|]; cbn [negb]; [|wp_step; apply Hfail; [intros (?&?&?&?); simpl in *; congruence|tauto|tauto]].
    wp_step. apply wp_on_state. wp_step. cbn [lan_calls s vm lan_out]. by eapply vm_forwarded.
Qed.
Lemma wp_vmToLAN w : bytes_ok (c_in (vm w)) → wp vmToLAN (vm_round w) w.
Proof.
  intros Hb. unfold vmToLAN. wp_step. apply wp_on_vm. eapply wp_mono; [by apply wp_read_prefixed|].
  intros [err|frame] c (Hout&_&Hcase); [wp_step; by apply vm_read_failed|].
  destruct Hcase as (Hfok&Hfb&Hin). destruct Hfok as [Hl _].
  assert (14 ≤ length frame)%nat as Hl' by (unfold len in Hl; lia).
  assert (∃ kind, Uint16 frame 12 = Some kind) as [kind Hkind]
    by (unfold Uint16; rewrite bsub_take_drop by lia; by eexists).
  wp_step. apply (wp_or_panic _ _ _ _ Hkind).
  destruct (Z.eqb_spec kind 2054) as [->|Hk].
  { apply wp_on_vm. eapply wp_mono; [apply wp_nic_arp|]. intros err c' Ha. cbn [s vm lan_out lan_calls] in *.
    by eapply (vm_arp w). }
  destruct (bsub_some frame 6 6) as [mac Hmac]; [lia|].
  wp_step. apply (wp_or_panic _ mac); [by rewrite (slice_const _ 6 12 6 6) by (done || lia)|].
  assert (guest_ip frame ↔ kind = 2048 ∧ mac = guestMAC) as Hg
    by (unfold guest_ip; rewrite Hkind, Hmac; split; [by intros [[= ->] [= ->]]|by intros [-> ->]]).
  destruct (Z.eqb_spec kind 2048) as [->|Hk']; cbn [negb orb]; [|wp_step; eapply vm_ignored; try done; tauto].
  case_bool_decide as Hm; cbn [negb]; [|wp_step; eapply vm_ignored; try done; tauto].
  wp_step. apply (wp_or_panic _ (drop 14 frame)).
  { rewrite slice_ok by (unfold len; lia). f_equal. apply take_ge. rewrite length_drop. unfold len. lia. }
  assert (bytes_ok (drop 14 frame)) as Hib by by apply Forall_drop.
  destruct (nativePacket_inv (drop 14 frame) virtualGuest virtualHost Hib) as ([[p tos]|]&Ho&Hinv);
    wp_step; apply (wp_or_panic _ _ _ _ Ho); cbv beta iota; cycle 1.
  { wp_step. apply wp_on_state. wp_step. cbn [s vm lan_out lan_calls].
    eapply (vm_dropped w); try done; [tauto|].
    intros (p&tos&(h&pad&Hn)&_). pose proof (nativePacket_native _ _ _ _ _ _ _ Hib Hn). congruence. }
  destruct (Hinv p tos eq_refl) as (h&pad&Hn). destruct (native_parts _ _ _ _ _ _ _ _ Hib Hn) as (Hp&_).
  destruct (allowedHoma_spec p false Hp) as (o&Ha&_). wp_step. apply (wp_or_panic _ _ _ _ Ha).
  destruct o; cbn [negb]; cycle 1.
  { wp_step. apply wp_on_state. wp_step. cbn [s vm lan_out lan_calls].
    eapply (vm_dropped w); try done; [tauto|].
    intros (p'&tos'&(h'&pad'&Hn')&Ha'). pose proof (nativePacket_native _ _ _ _ _ _ _ Hib Hn'). congruence. }
  eapply (wp_send_lan w frame); try done; [tauto|]. split; [by eauto|done].
Qed.

End forwarding.

(** ** The theorems at a concrete packet *)

(** An acknowledgment of call 24 from the peer's client, in a datagram. *)
Definition sample_packet : list Z :=
  wire.packetBytes (wire.PAck {| wire.ak_Common := wire.NewCommon wire.AckType 4003 4000 24;
    wire.ak_NumAcks := 0; wire.ak_Acks := replicate 5 (wire.mkAckRecord 0 0) |}).
Definition sample_datagram : list Z := ip_packet sample_packet 224.

Lemma sample_packet_ok : bytes_ok sample_packet.
Proof. apply (bool_decide_unpack _). vm_compute. exact I. Qed.

Lemma sample_datagram_ok : bytes_ok sample_datagram.
Proof. apply (bool_decide_unpack _). vm_compute. exact I. Qed.

Lemma sample_native :
  ∃ h, native 28 sample_datagram virtualHost virtualGuest sample_packet 224 h [].
Proof.
  apply ip_packet_native; [apply sample_packet_ok|by vm_compute|by vm_compute].
Qed.

Lemma native_exact_witness :
  nativePacket sample_datagram virtualHost virtualGuest = Some (Some (sample_packet, 224)) ∧
  ∃ h pad, native 28 sample_datagram virtualHost virtualGuest sample_packet 224 h pad.
Proof.
  assert (nativePacket sample_datagram virtualHost virtualGuest = Some (Some (sample_packet, 224))) as E
    by (vm_compute; reflexivity).
  split; [exact E|].
  destruct (native_exact sample_datagram virtualHost virtualGuest sample_datagram_ok) as (o&Ho&Hiff).
  rewrite E in Ho. injection Ho as <-. by apply Hiff.
Defined.

(** The traffic class of the datagram is changed. *)
Lemma header_corruption_rejected_witness :
  nativePacket (<[1%nat := 0]> sample_datagram) virtualHost virtualGuest = Some None ∧
  sample_datagram !! 1%nat = Some 224.
Proof.
  destruct sample_native as [h Hn]. split; [|vm_compute; reflexivity].
  apply (header_corruption_rejected _ _ _ _ _ _ _ 1 0 sample_datagram_ok Hn).
  - destruct (nat_length _ _ _ _ _ _ _ _ Hn) as [Hl _]. unfold len in Hl. lia.
  - by vm_compute.
  - vm_compute. discriminate.
Defined.

Lemma allowed_packets_parse_witness :
  allowedHoma sample_packet true = Some true ∧ allowedHoma sample_packet false = Some false.
Proof.
  split; [vm_compute; reflexivity|].
  apply (allowed_packets_parse (H:=amd64) sample_packet true sample_packet_ok); [by vm_compute|].
  vm_compute. reflexivity.
Defined.

Lemma acknowledgments_counted_witness :
  ∃ acks', noteAcks sample_packet ∅ = Some acks' ∧ acks_ok acks'.
Proof.
  destruct (acknowledgments_counted (H:=amd64) sample_packet ∅ sample_packet_ok) as (acks'&H1&H2&_);
    [by vm_compute|vm_compute; reflexivity|split; [by vm_compute|intros id Hid; by apply not_elem_of_empty in Hid]|].
  by exists acks'.
Defined.

Lemma frames_roundtrip_witness :
  ∃ c', @write_frames plain_socket [replicate 14 1; replicate 20 2] (mkConn [] [] 0) = inl (None, c') ∧
    read_frames 2 (mkConn (c_out c') [] 0) = inl (inr [replicate 14 1; replicate 20 2], mkConn [] [] 0).
Proof.
  destruct (@frames_roundtrip plain_socket [replicate 14 1; replicate 20 2] (mkConn [] [] 0) [] [] 0)
    as (err&c'&Hw&Hr); [repeat constructor; by vm_compute|].
  assert (err = None) as -> by (vm_compute in Hw; congruence).
  destruct (Hr eq_refl) as (bytes&Ho&Hread). rewrite app_nil_r in Hread. cbn [c_out app] in Ho.
  exists c'. rewrite Ho. exact (conj Hw Hread).
Defined.

(** A relay before its first packet. *)
Definition sample_relay (stream : list Z) : relay :=
  mkRelay (mkState (mkReport EmptyString EmptyString EmptyString 0 0 0 0 0 ∅ ∅ ∅ 0 0 false false EmptyString) ∅)
    (mkConn stream [] 0) [] 0.

Lemma lan_to_vm_exact_witness :
  ∃ w', @lanToVM plain_socket virtualGuest virtualHost sample_datagram false (sample_relay []) = inl (None, w') ∧
    @lan_round virtualGuest virtualHost sample_datagram false (sample_relay []) None w' ∧
    LANToVM (r (s w')) = 1.
Proof.
  destruct (@lan_to_vm_exact plain_socket virtualGuest virtualHost sample_datagram false (sample_relay [])
    sample_datagram_ok) as (err&w'&Hrun&Hround).
  assert (err = None ∧ LANToVM (r (s w')) = 1) as [-> E] by (vm_compute in Hrun; injection Hrun as <- <-; done).
  exists w'. exact (conj Hrun (conj Hround E)).
Defined.

End lanrelay_facts.
