(* ===== verification/RelayLoops.v ===== *)
(** * The LAN relay's two loops (lanToVM and vmToLAN of src/interop/lanrelay/main.go)

    The goroutines as whole loops over the rounds of Relay, and both together:
    their rounds in any order on the shared state.  The theorem is about the
    evidence the relay collects: its counters account for every datagram. *)
From S2P Require Import Prelude Wire Api Net Relay RelayFacts.

#[local] Open Scope Z_scope.

Module lanrelay_loops.
Import lanrelay lanrelay_facts.

(** What [ReadMsgIP] returns: an error, or a datagram and whether it was cut. *)
Definition lan_read : Type := io_error + (list Z * bool).

Section loops.
Context `{Socket, RawSocket}.

(** One round of [lanToVM]. *)
Definition lan_turn (local peer : IPAddr) (read : lan_read) : M relay (option io_error) :=
  match read with
  | inl err => mret (Some err)
  | inr (datagram, truncated) => lanToVM local peer datagram truncated
  end.

(** [lanToVM] for the datagrams that arrive; [None] while it waits for the next. *)
Fixpoint lanToVM_loop (local peer : IPAddr) (reads : list lan_read) : M relay (option io_error) :=
  match reads with
  | [] => mret None
  | read :: reads =>
      err ← lan_turn local peer read;
      match err with
      | Some err => mret (Some err)
      | None => lanToVM_loop local peer reads
      end
  end.

(** [vmToLAN] from its first line to the end of the stream. *)
Fixpoint vmToLAN_frames (fuel : nat) : M relay io_error :=
  match fuel with
  | O => stop OutOfFuel
  | S fuel =>
      err ← vmToLAN;
      match err with
      | Some err => mret err
      | None => vmToLAN_frames fuel
      end
  end.

(** Every round that goes on has taken a frame off the stream. *)
Definition vmToLAN_loop : M relay io_error :=
  n ← next_call;
  match raw_syscall n with
  | Some err => mret err
  | None => w ← get; vmToLAN_frames (S (length (c_in (vm w))))
  end.

(** Both goroutines: the rounds of one and the other in the order they happen,
    until one of them ends. *)
Inductive turn := FromLAN (read : lan_read) | FromVM.

Definition relay_turn (local peer : IPAddr) (t : turn) : M relay (option io_error) :=
  match t with FromLAN read => lan_turn local peer read | FromVM => vmToLAN end.

Fixpoint relay_run (local peer : IPAddr) (turns : list turn) : M relay (option io_error) :=
  match turns with
  | [] => mret None
  | t :: turns =>
      err ← relay_turn local peer t;
      match err with
      | Some err => mret (Some err)
      | None => relay_run local peer turns
      end
  end.
End loops.

(** ** Counters *)

(** The sum of a table of counters. *)
Definition total (m : gmap Z Z) : Z := map_fold (λ _ v acc, v + acc) 0 m.

Lemma total_insert m k v : m !! k = None → total (<[k := v]> m) = v + total m.
Proof.
  intros Hk. unfold total. rewrite (map_fold_insert_L (λ _ v acc, v + acc) 0 k v m); [done| |done].
  intros. lia.
Qed.

Lemma total_set m k v : total (<[k := v]> m) = v + total m - default 0 (m !! k).
Proof.
  destruct (m !! k) as [u|] eqn:E; cbn.
  - pose proof (total_insert (delete k m) k u (lookup_delete_eq m k)) as Hu.
    pose proof (total_insert (delete k m) k v (lookup_delete_eq m k)) as Hv.
    rewrite insert_delete_id in Hu by done. rewrite insert_delete_eq in Hv. lia.
  - rewrite total_insert by done. lia.
Qed.

Definition table_ok (m : gmap Z Z) (n : Z) : Prop := total m = n ∧ map_Forall (λ _ v, 0 ≤ v ≤ n) m.

Lemma table_count m n tos : table_ok m n → 0 ≤ n < 2 ^ 64 - 1 → table_ok (count tos m) (n + 1).
Proof.
  intros [Ht Hf] Hn. unfold count.
  assert (0 ≤ default 0 (m !! tos) ≤ n) as Hv.
  { destruct (m !! tos) as [v|] eqn:E; cbn; [exact (Hf tos v E)|lia]. }
  rewrite u64_id by (unfold is_u64; lia). split; [rewrite total_set; lia|].
  apply map_Forall_insert_2; [lia|]. intros k v Hk. specialize (Hf k v Hk). cbn in *. lia.
Qed.

(** ** The evidence *)

(** The counters of a relay that has taken [lan] datagrams from the LAN and
    found [ips] IPv4 packets in the guest's frames: every datagram is forwarded
    or dropped, every table of traffic classes sums to its packets, and what
    was sent to the LAN is what the counter says. *)
Record evidence (lan ips : Z) (w : relay) : Prop := {
  ev_lan : LANToVM (r (s w)) + DroppedLAN (r (s w)) = lan;
  ev_vm : VMToLAN (r (s w)) + DroppedVM (r (s w)) = ips;
  ev_nonneg : 0 ≤ LANToVM (r (s w)) ∧ 0 ≤ DroppedLAN (r (s w)) ∧ 0 ≤ LANSendBufferDrops (r (s w)) ≤ DroppedVM (r (s w));
  ev_lan_tos : table_ok (ObservedLANIngressTOS (r (s w))) (LANToVM (r (s w)));
  ev_vm_tos : table_ok (ObservedVMIngressTOS (r (s w))) (VMToLAN (r (s w)) + LANSendBufferDrops (r (s w)));
  ev_requested : RequestedLANEgressTOS (r (s w)) = ObservedVMIngressTOS (r (s w));
  ev_sent : VMToLAN (r (s w)) = len (lan_out w)
}.

Lemma lan_round_evidence local peer datagram truncated w w' lan ips :
  lan < 2 ^ 64 - 1 → evidence lan ips w → lan_round local peer datagram truncated w None w' → evidence (lan + 1) ips w'.
Proof.
  intros Hb [El Ev (Hn1&Hn2&Hn3) Et Ew Er Es]. inversion 1; subst; clear H.
  - split; cbn; rewrite ?u64_id by (unfold is_u64; lia); try done; lia.
  - split; cbn; rewrite ?u64_id by (unfold is_u64; lia); try done; try lia. apply table_count; [done|lia].
Qed.

#[global] Instance guest_ip_dec frame : Decision (guest_ip frame).
Proof. unfold guest_ip. apply _. Defined.

(** The IPv4 packets of the guest among frames. *)
Definition guest_packets (fs : list (list Z)) : Z := len (filter guest_ip fs).

Lemma guest_packets_cons f fs :
  guest_packets (f :: fs) = (if decide (guest_ip f) then 1 else 0) + guest_packets fs.
Proof.
  unfold guest_packets, len. destruct (decide (guest_ip f)).
  - rewrite filter_cons_True by done. cbn. lia.
  - rewrite filter_cons_False by done. lia.
Qed.

Lemma vm_round_evidence `{RawSocket} w w' lan ips :
  ips < 2 ^ 64 - 1 → evidence lan ips w → vm_round w None w' →
  ∃ frame, c_in (vm w) = encoded frame ++ c_in (vm w') ∧
    evidence lan (ips + (if decide (guest_ip frame) then 1 else 0)) w'.
Proof.
  intros Hb [El Ev (Hn1&Hn2&Hn3) Et Ew Er Es] Hround. pose proof (len_nonneg (lan_out w)) as Hlen.
  inversion Hround as [|frame c c' err Hin Hout Hkind Harp|frame c Hin Hout Hg|frame c Hin Hout Hg Hf
    |frame p tos c n Hin Hout Hg Hf|frame p tos c n err Hin Hout Hg Hf Hw Ht|]; subst; exists frame.
  - assert (¬ guest_ip frame) as Hg by (intros [Hk _]; congruence). rewrite decide_False by done. split.
    + unfold answered in Harp. cbn. destruct (default false (arp_request frame)); [by destruct Harp as [-> _]|by destruct Harp as [_ ->]].
    + rewrite Z.add_0_r. by split.
  - rewrite decide_False by done. split; [done|]. rewrite Z.add_0_r. by split.
  - rewrite decide_True by done. split; [done|].
    split; cbn; rewrite ?u64_id by (unfold is_u64; lia); try done; lia.
  - rewrite decide_True by done. split; [done|].
    split; cbn; rewrite ?u64_id by (unfold is_u64; lia); try done; try lia.
    + replace (VMToLAN (r (s w)) + 1 + LANSendBufferDrops (r (s w)))
        with (VMToLAN (r (s w)) + LANSendBufferDrops (r (s w)) + 1) by lia. apply table_count; [done|lia].
    + by rewrite Er.
    + rewrite len_app, Es. change (len [(p, tos)]) with 1. lia.
  - rewrite decide_True by done. split; [done|].
    split; cbn; rewrite ?u64_id by (unfold is_u64; lia); try done; try lia.
    + rewrite Z.add_assoc. apply table_count; [done|lia].
    + by rewrite Er.
Qed.

(** The datagrams among the turns. *)
Fixpoint datagrams (turns : list turn) : Z :=
  match turns with
  | [] => 0
  | FromLAN _ :: turns => 1 + datagrams turns
  | FromVM :: turns => datagrams turns
  end.

Definition turn_ok (t : turn) : Prop :=
  match t with FromLAN (inr (datagram, _)) => bytes_ok datagram | _ => True end.

(** What the turns leave behind when none of them fails: the frames they took
    from the guest's stream and the evidence about them. *)
Definition accounted (lan ips : Z) (turns : list turn) (w : relay) (err : option io_error) (w' : relay) : Prop :=
  err = None → ∃ fs, c_in (vm w) = concat (encoded <$> fs) ++ c_in (vm w') ∧ len fs ≤ len turns ∧
    evidence (lan + datagrams turns) (ips + guest_packets fs) w'.

Section evidence.
Context `{Socket, RawSocket}.

Lemma lan_round_stream local peer datagram truncated w err w' :
  lan_round local peer datagram truncated w err w' → c_in (vm w') = c_in (vm w).
Proof. by inversion 1. Qed.

Lemma wp_relay_turn local peer t w lan ips :
  turn_ok t → bytes_ok (c_in (vm w)) → lan < 2 ^ 64 - 1 → ips < 2 ^ 64 - 1 → evidence lan ips w →
  wp (relay_turn local peer t) (accounted lan ips [t] w) w.
Proof.
  intros Ht Hb Hlan Hips Hev. destruct t as [[err|[datagram truncated]]|]; cbn [relay_turn lan_turn].
  - wp_step. done.
  - eapply wp_mono; [by apply wp_lanToVM|]. intros err w' Hr ->. exists []. cbn [fmap list_fmap concat app].
    split; [by rewrite (lan_round_stream _ _ _ _ _ _ _ Hr)|]. split; [done|]. cbn [datagrams]. change (guest_packets []) with 0. rewrite !Z.add_0_r.
    by eapply lan_round_evidence.
  - eapply wp_mono; [by apply wp_vmToLAN|]. intros err w' Hr ->.
    destruct (vm_round_evidence w w' lan ips Hips Hev Hr) as (frame&Hin&He). exists [frame].
    cbn [fmap list_fmap concat app]. rewrite app_nil_r. split; [done|]. split; [done|]. rewrite guest_packets_cons. cbn [datagrams].
    change (guest_packets []) with 0. by rewrite !Z.add_0_r.
Qed.

Lemma guest_packets_app fs gs : guest_packets (fs ++ gs) = guest_packets fs + guest_packets gs.
Proof. unfold guest_packets. by rewrite filter_app, len_app. Qed.

Lemma guest_packets_bound fs : 0 ≤ guest_packets fs ≤ len fs.
Proof. unfold guest_packets, len. pose proof (length_filter guest_ip fs). lia. Qed.

Lemma datagrams_bound turns : 0 ≤ datagrams turns ≤ len turns.
Proof. unfold len. induction turns as [|[read|] turns IH]; cbn [datagrams length]; lia. Qed.

Lemma wp_relay_run local peer turns w lan ips :
  Forall turn_ok turns → bytes_ok (c_in (vm w)) → lan + len turns < 2 ^ 64 → ips + len turns < 2 ^ 64 →
  evidence lan ips w → wp (relay_run local peer turns) (accounted lan ips turns w) w.
Proof.
  intros Ht. revert w lan ips. induction Ht as [|t turns Ht Hts IH]; intros w lan ips Hb Hl Hi Hev; cbn [relay_run].
  { wp_step. intros _. exists []. split; [done|]. split; [done|]. cbn. by rewrite !Z.add_0_r. }
  assert (len (t :: turns) = 1 + len turns) as El by (unfold len; cbn; lia). pose proof (len_nonneg turns).
  wp_step. eapply wp_mono; [apply (wp_relay_turn local peer t w lan ips); try done; lia|].
  intros [err|] w1 Hone; [by wp_step|]. destruct (Hone eq_refl) as (fs&Hin&Hfs&Hev1).
  pose proof (guest_packets_bound fs). pose proof (datagrams_bound [t]). change (len [t]) with 1 in *.
  rewrite Hin in Hb. apply Forall_app in Hb as [_ Hb]. eapply wp_mono; [apply IH; [done| | |exact Hev1]; lia|].
  intros err w2 Hrest E. destruct (Hrest E) as (gs&Hin2&Hgs&Hev2). exists (fs ++ gs).
  rewrite Hin, Hin2, fmap_app, concat_app, <- app_assoc. split; [done|]. split; [rewrite len_app; lia|].
  rewrite guest_packets_app. destruct t; cbn [datagrams] in *; rewrite !Z.add_assoc in *; rewrite ?Z.add_0_r in Hev2; done.
Qed.


(** The loop of [vmToLAN] always ends: every round that goes on has taken a frame
    off the stream. *)
Lemma vm_round_takes w w' : vm_round w None w' → ∃ frame, c_in (vm w) = encoded frame ++ c_in (vm w').
Proof.
  inversion 1 as [|frame c c' err Hin Hout Hkind Harp| | | | |]; subst; eauto. exists frame. cbn.
  unfold answered in Harp. destruct (default false (arp_request frame)); [by destruct Harp as [-> _]|by destruct Harp as [_ ->]].
Qed.

Lemma wp_vmToLAN_frames fuel w :
  (length (c_in (vm w)) < fuel)%nat → bytes_ok (c_in (vm w)) → wp (vmToLAN_frames fuel) (λ _ _, True) w.
Proof.
  revert w. induction fuel as [|fuel IH]; intros w Hf Hw; [lia|]. cbn [vmToLAN_frames]. wp_step.
  eapply wp_mono; [by apply wp_vmToLAN|]. intros [err|] w1 Hr; [by wp_step|].
  destruct (vm_round_takes w w1 Hr) as [frame E]. rewrite E in Hf, Hw. apply Forall_app in Hw as [_ Hw].
  apply IH; [|done]. rewrite length_app in Hf. unfold encoded in Hf. rewrite length_app, be_encode_length in Hf. lia.
Qed.

Lemma vmToLAN_ends w : bytes_ok (c_in (vm w)) → wp vmToLAN_loop (λ _ _, True) w.
Proof.
  intros Hb. unfold vmToLAN_loop, next_call. wp_steps. destruct (raw_syscall _); [by wp_step|]. do 2 wp_step.
  apply wp_vmToLAN_frames; [cbn; lia|done].
Qed.
End evidence.

(** The relay at its start, and a datagram of the peer. *)
Lemma start_evidence stream : evidence 0 0 (sample_relay stream).
Proof. by split. Qed.

Definition sample_turns : list turn := [FromLAN (inr (sample_datagram, false)); FromLAN (inr ([], false))].

Definition undisturbed (o : (option io_error * relay) + fault) : bool :=
  match o with inl (None, _) => true | _ => false end.

Lemma sample_turns_run :
  undisturbed (@relay_run plain_socket plain_raw virtualGuest virtualHost sample_turns (sample_relay [])) = true.
Proof. vm_compute. reflexivity. Qed.

End lanrelay_loops.
