(* ===== verification/RelayRun.v ===== *)
(** * The LAN relay's command (run of src/interop/lanrelay/main.go)

    The checks before the relay starts, the user QEMU runs as, the bounded
    console log, the loop that waits for the guest and the report at the end.
    A string is the list of its bytes.  The process environment, the user
    database, the guest's console and the counters of the packet path are
    parameters. *)
From S2P Require Import Prelude Wire Api Text Net Relay.

#[local] Open Scope Z_scope.

Module lanrelay_run.

(** ** Strings *)

Fixpoint HasPrefix (s prefix : list Z) : bool :=
  match prefix, s with
  | [], _ => true
  | c :: prefix, d :: s => (c =? d) && HasPrefix s prefix
  | _ :: _, [] => false
  end.

(** [strings.Contains]. *)
Fixpoint Contains (s substr : list Z) : bool :=
  HasPrefix s substr || match s with [] => false | _ :: s => Contains s substr end.

(** [strings.Count] of a string that is not empty: occurrences that do not
    overlap; [skip] bytes belong to the last one. *)
Fixpoint Count (s substr : list Z) (skip : nat) : Z :=
  match s with
  | [] => 0
  | _ :: s' =>
      match skip with
      | S skip => Count s' substr skip
      | O => if HasPrefix s substr then 1 + Count s' substr (pred (length substr)) else Count s' substr 0
      end
  end.

(** ** Before the start *)

Inductive error :=
| ErrLocal | ErrPeer | ErrArguments | ErrNumber | ErrNoUser | ErrUnknownUser
| ErrDone | ErrPacketPath | ErrGuestExited | ErrGuestFailed | ErrReadyFile | ErrNotReady
| ErrSystem (err : io_error).

(** The address checks of [run]: unicast IPv4 addresses that differ. *)
Definition parse_unicast (s : list Z) : option IPAddr :=
  fields ← addr.parseIPv4Fields s 0 0 [];
  let ip := IPv4 (be_decode fields) in
  if IsUnspecified ip || IsMulticast ip then None else Some ip.

Definition check_run (localText peerText kernel initrd : list Z) (duration : Z) (narg : Z) : error + (IPAddr * IPAddr) :=
  match parse_unicast localText with
  | None => inl ErrLocal
  | Some local =>
      match parse_unicast peerText with
      | None => inl ErrPeer
      | Some peer =>
          if bool_decide (peer = local) then inl ErrPeer else
          if bool_decide (kernel = []) || bool_decide (initrd = []) || (duration <=? 0) ||
             (180000000000 <? duration) || negb (narg =? 0)
          then inl ErrArguments else inr (local, peer)
      end
  end.

(** The user of the environment: the first variable that is set. *)
Fixpoint env_uid `{GoPlatform} (uid : Z) (values : list (list Z)) : error + Z :=
  match values with
  | [] => inr uid
  | [] :: values => env_uid uid values
  | value :: _ => match Atoi value with None => inl ErrNumber | Some uid => inr uid end
  end.

(** [lookup] is user.LookupId: the group of a known user, as text. *)
Definition qemuCredentials `{GoPlatform} (euid : Z) (pkexec sudo : list Z) (lookup : Z → option (list Z))
  (uidFlag : Z) : error + option (Z * Z) :=
  if negb (euid =? 0) then inr None else
  match (if uidFlag <? 0 then env_uid uidFlag [pkexec; sudo] else inr uidFlag) with
  | inl err => inl err
  | inr uid =>
      if uid <=? 0 then inl ErrNoUser else
      match lookup uid with
      | None => inl ErrUnknownUser
      | Some group =>
          match group with
          | [] => inl ErrNumber
          | _ =>
              match digits 0 group with
              | None => inl ErrNumber
              | Some gid => if 2 ^ 32 <=? gid then inl ErrNumber else inr (Some (u32 uid, u32 gid))
              end
          end
      end
  end.

(** ** The console log *)

(** [logBuffer.Write]: the log after the write, and the count it returns. *)
Definition log_Write (b p : list Z) : list Z * Z :=
  (if len b + len p <=? 4 * 1024 * 1024 then b ++ p else b, len p).

(** ** Waiting for the guest *)

(** What the select of [run] receives: the end of the context, of the packet
    path or of the guest, or a tick with the log of that moment, the number of
    acknowledged calls, whether the boot deadline has passed and whether
    writing the ready file works. *)
Inductive event :=
| Done | PathFailed | GuestExited
| Tick (log : list Z) (acknowledged : Z) (late ready_written : bool).

(** The body of the tick: the new [ready], and the result if [run] returns. *)
Definition on_tick (ready : bool) (log : list Z) (acknowledged : Z) (late ready_written : bool)
  : bool * option (option error) :=
  if Contains log (text "HOMA_GUEST_ERROR") || Contains log (text "HOMA_GUEST_CLIENT_FAIL")
  then (ready, Some (Some ErrGuestFailed)) else
  let first := negb ready && Contains log (text "HOMA_GUEST_READY") in
  let ready := ready || first in
  if first && negb ready_written then (ready, Some (Some ErrReadyFile)) else
  if negb ready && late then (ready, Some (Some ErrNotReady)) else
  if ready && Contains log (text "HOMA_GUEST_CLIENT_PASS") &&
     (8 <=? Count log (text "ok mode=serve call=") 0) && (8 <=? acknowledged)
  then (ready, Some None) else (ready, None).

(** The loop; [None] while it waits. *)
Fixpoint supervise (ready : bool) (evs : list event) : option (option error) :=
  match evs with
  | [] => None
  | Done :: _ => Some (Some ErrDone)
  | PathFailed :: _ => Some (Some ErrPacketPath)
  | GuestExited :: _ => Some (Some ErrGuestExited)
  | Tick log acknowledged late ready_written :: evs =>
      match on_tick ready log acknowledged late ready_written with
      | (_, Some result) => Some result
      | (ready, None) => supervise ready evs
      end
  end.

(** ** The report *)

(** The deferred function: the report of a run that ended with [result], with
    the text of its error. *)
Definition final_report (s : lanrelay.state) (passLog callLog : list Z) (result : option error)
  (message : error → string) : lanrelay.report :=
  let r := lanrelay.snapshot s in
  lanrelay.mkReport (lanrelay.Path r) (lanrelay.Local r) (lanrelay.Peer r) (lanrelay.LANToVM r)
    (lanrelay.VMToLAN r) (lanrelay.DroppedLAN r) (lanrelay.DroppedVM r) (lanrelay.LANSendBufferDrops r)
    (lanrelay.ObservedLANIngressTOS r) (lanrelay.ObservedVMIngressTOS r) (lanrelay.RequestedLANEgressTOS r)
    (lanrelay.MacClientRPCsAcknowledged r) (Count callLog (text "ok mode=serve call=") 0)
    (Contains passLog (text "HOMA_GUEST_CLIENT_PASS")) (bool_decide (result = None))
    (match result with None => lanrelay.Error r | Some err => message err end).

(** ** Theorems *)

(** Started as root, the relay never runs QEMU as root: when the user database
    only knows user numbers of 32 bits, the credentials name a user other than
    root, or the relay does not start. *)
Theorem qemu_never_root `{GoPlatform} pkexec sudo lookup uidFlag c :
  (∀ uid, lookup uid ≠ None → uid < 2 ^ 32) →
  qemuCredentials 0 pkexec sudo lookup uidFlag = inr c →
  ∃ uid gid, c = Some (uid, gid) ∧ 0 < uid < 2 ^ 32.
Proof.
  intros Hknown. unfold qemuCredentials. cbn [Z.eqb negb].
  destruct (if uidFlag <? 0 then _ else _) as [err|uid]; [done|].
  destruct (Z.leb_spec uid 0); [done|]. destruct (lookup uid) as [group|] eqn:El; [|done].
  destruct group as [|g group]; [done|]. destruct (digits 0 (g :: group)) as [gid|]; [|done].
  destruct (2 ^ 32 <=? gid); [done|]. intros [= <-]. pose proof (Hknown uid ltac:(congruence)) as Hu.
  exists (u32 uid), (u32 gid). split; [done|]. rewrite u32_id; [lia|]. unfold is_u32. lia.
Qed.

(** The console log never grows past 4 MiB, however much the guest prints, and
    every write is reported as complete. *)
Theorem log_bounded ps :
  len (foldl (λ b p, (log_Write b p).1) [] ps) ≤ 4 * 1024 * 1024 ∧ ∀ b p, (log_Write b p).2 = len p.
Proof.
  split; [|done]. assert (∀ b, len b ≤ 4 * 1024 * 1024 →
    len (foldl (λ b p, (log_Write b p).1) b ps) ≤ 4 * 1024 * 1024) as Hfold; [|by apply Hfold].
  induction ps as [|p ps IH]; intros b Hb; [done|]. cbn [foldl]. apply IH. unfold log_Write. cbn [fst].
  destruct (Z.leb_spec (len b + len p) (4 * 1024 * 1024)); [|done]. by rewrite len_app.
Qed.

(** A tick that proves the run: the guest's client passed, eight calls were
    served and eight acknowledged, and the guest reported no failure. *)
Definition passes (log : list Z) (acknowledged : Z) : Prop :=
  Contains log (text "HOMA_GUEST_CLIENT_PASS") = true ∧ 8 ≤ Count log (text "ok mode=serve call=") 0 ∧
  8 ≤ acknowledged ∧ Contains log (text "HOMA_GUEST_ERROR") = false ∧
  Contains log (text "HOMA_GUEST_CLIENT_FAIL") = false.

(** A tick that saw the guest ready and announced it. *)
Definition announced (ev : event) : Prop :=
  ∃ log acknowledged late, ev = Tick log acknowledged late true ∧ Contains log (text "HOMA_GUEST_READY") = true.

Lemma on_tick_pass ready log acknowledged late written ready' :
  on_tick ready log acknowledged late written = (ready', Some None) →
  passes log acknowledged ∧ (ready = true ∨ announced (Tick log acknowledged late written)).
Proof.
  unfold on_tick, passes, announced. destruct (_ || _) eqn:Efail; [done|]. apply orb_false_iff in Efail as [E1 E2].
  destruct (negb ready && _ && negb written) eqn:Ewrite; [done|].
  destruct (negb (ready || _) && late); [done|].
  destruct (_ && _ && _ && _) eqn:Epass; [|done]. intros _.
  rewrite !andb_true_iff, orb_true_iff, !Z.leb_le in Epass. destruct Epass as (((Hready&Hpass)&Hcount)&Hack).
  split; [done|]. destruct Hready as [->|Hfirst]; [by left|right].
  rewrite Hfirst in Ewrite. destruct written; [|done]. apply andb_true_iff in Hfirst as [_ Hr]. eauto 6.
Qed.

Lemma on_tick_waits ready log acknowledged late written ready' :
  on_tick ready log acknowledged late written = (ready', None) → ready' = true →
  ready = true ∨ announced (Tick log acknowledged late written).
Proof.
  unfold on_tick, announced. destruct (_ || _); [done|].
  destruct (negb ready && _ && negb written) eqn:Ewrite; [done|].
  destruct (negb (ready || _) && late); [done|]. destruct (_ && _ && _ && _); [done|]. intros [= <-].
  intros [->|Hfirst]%orb_true_iff; [by left|right]. rewrite Hfirst in Ewrite. destruct written; [|done].
  apply andb_true_iff in Hfirst as [_ Hr]. eauto 6.
Qed.

(** The relay's evidence is sound: it ends successfully only at a tick that
    proves the run, after a tick that saw the guest ready and wrote the ready
    file; and the report says complete exactly for such an end. *)
Theorem completion_sound evs s passLog callLog message :
  (supervise false evs = Some None →
   ∃ before final acknowledged late written rest,
     evs = before ++ Tick final acknowledged late written :: rest ∧ passes final acknowledged ∧
     Exists announced (before ++ [Tick final acknowledged late written])) ∧
  ∀ result, lanrelay.Complete (final_report s passLog callLog result message) = true ↔ result = None.
Proof.
  split; [|intros result; cbn; apply bool_decide_eq_true].
  assert (∀ ready, supervise ready evs = Some None →
    ∃ before final acknowledged late written rest,
      evs = before ++ Tick final acknowledged late written :: rest ∧ passes final acknowledged ∧
      (ready = true ∨ Exists announced (before ++ [Tick final acknowledged late written]))) as Hgen.
  2: { intros Hs. destruct (Hgen false Hs) as (b&f&a&l&w&rest&E&Hp&[|Hr]); [done|]. eauto 10. }
  induction evs as [|ev evs IH]; intros ready; [done|]. destruct ev as [| | |f a l w]; try done. cbn [supervise].
  destruct (on_tick ready f a l w) as [ready' [result|]] eqn:E.
  - intros [= ->]. destruct (on_tick_pass _ _ _ _ _ _ E) as [Hp Hr]. exists [], f, a, l, w, evs.
    split; [done|]. split; [done|]. destruct Hr as [|Hr]; [by left|right]. by apply Exists_cons_hd.
  - intros Hs. destruct (IH ready' Hs) as (b&f'&a'&l'&w'&rest&->&Hp&Hr).
    exists (Tick f a l w :: b), f', a', l', w', rest. split; [done|]. split; [done|]. destruct Hr as [Hready|Hr].
    + destruct (on_tick_waits _ _ _ _ _ _ E Hready) as [|Ha]; [by left|right]. by apply Exists_cons_hd.
    + right. by apply Exists_cons_tl.
Qed.
End lanrelay_run.
