(* ===== verification/VmCheck.v ===== *)
(** * The packet I/O of the VM check (src/interop/vmcheck/main.go)

    A homa.PacketIO over QEMU's stream socket: [WritePacket] wraps a Homa packet
    into IPv4 and Ethernet and sends the frame, [ReadPacket] reads frames,
    answers ARP, and returns the first Homa packet of the guest. *)
From S2P Require Import Prelude Wire Api Net.

#[local] Open Scope Z_scope.

Module vmcheck.

Definition hostIP : IPAddr := AddrFrom4 10 0 0 1.
Definition guestIP : IPAddr := AddrFrom4 10 0 0 2.
Definition hostMAC : list Z := [2; 0; 0; 0; 0; 1].
Definition guestMAC : list Z := [82; 84; 0; 18; 52; 86].

(** [for i := 0; i < len(b); i += 2]: a string of odd length is a panic. *)
Fixpoint sum_pairs (sum : Z) (b : list Z) : option Z :=
  match b with
  | x :: y :: b => sum_pairs (u32 (sum + be_decode [x; y])) b
  | [x] => None
  | [] => Some sum
  end.

Definition checksum (b : list Z) : option Z :=
  sum ← sum_pairs 0 b;
  Some (not16 (fold_carry 2 sum)).

(** The frame [WritePacket] builds. *)
Definition packet_frame (p : list Z) (priority : Z) : option (list Z) :=
  let f := replicate (14 + 20 + length p) 0 in
  f ← bput f 0 guestMAC;
  f ← bput f 6 hostMAC;
  f ← PutUint16 f 12 2048;
  ip ← slice f 14 (len f);
  ip ← upd ip 0 69;
  ip ← upd ip 1 (u8 (Z.shiftl priority 5));
  ip ← PutUint16 ip 2 (u16 (len ip));
  ip ← upd ip 8 64;
  ip ← upd ip 9 146;
  ip ← bput ip 12 (AsSlice hostIP);
  ip ← bput ip 16 (AsSlice guestIP);
  h ← slice ip 0 20;
  sum ← checksum h;
  ip ← PutUint16 ip 10 sum;
  ip ← bput ip 20 p;
  Some (take 14 f ++ ip).

(** The test of [case 0x0806]: a request for the host's address. *)
Definition arp_asked (f : list Z) : option bool :=
  if len f <? 42 then Some false else
  operation ← Uint16 f 20;
  target ← slice f 38 42;
  Some ((operation =? 1) && bool_decide (target = AsSlice hostIP)).

Definition arp_reply (f : list Z) : option (list Z) :=
  let reply := replicate 42 0 in
  asker ← slice f 6 12;
  reply ← bput reply 0 asker;
  reply ← bput reply 6 hostMAC;
  kind ← slice f 12 22;
  reply ← bput reply 12 kind;
  reply ← PutUint16 reply 20 2;
  reply ← bput reply 22 hostMAC;
  reply ← bput reply 28 (AsSlice hostIP);
  mac ← slice f 22 28;
  reply ← bput reply 32 mac;
  ip ← slice f 28 32;
  bput reply 38 ip.

(** The tests of [case 0x0800]: [Some None] goes on with the next frame, and
    [Some (Some (p, src))] is the Homa packet of the frame
    and its sender. *)
Definition ip_payload (f : list Z) : option (option (list Z * IPAddr)) :=
  if len f <? 34 then Some None else
  ip ← slice f 14 (len f);
  first ← idx ip 0;
  let hlen := Z.land first 15 * 4 in
  total ← Uint16 ip 2;
  if negb (Z.shiftr first 4 =? 4) || (hlen <? 20) || (total <? hlen) || (len ip <? total)
  then Some None else
  protocol ← idx ip 9;
  if negb (protocol =? 146) then Some None else
  h ← slice ip 0 hlen;
  sum ← checksum h;
  if negb (sum =? 0) then Some None else
  fragment ← Uint16 ip 6;
  if negb (Z.land fragment 16383 =? 0) then Some None else
  src ← slice ip 12 16;
  if negb (bool_decide (IPv4 (be_decode src) = guestIP)) then Some None else
  dst ← slice ip 16 20;
  if negb (bool_decide (dst = AsSlice hostIP)) then Some None else
  p ← slice ip hlen total;
  Some (Some (p, IPv4 (be_decode src))).

Section nic.
Context `{Socket}.

(** The error of [SetWriteDeadline] is ignored. *)
Definition frame (f : list Z) : M conn (option io_error) :=
  _ ← conn_SetWriteDeadline;
  write_frame f.

Definition WritePacket (p : list Z) (peer : IPAddr) (priority : Z) : M conn (option io_error) :=
  if negb (bool_decide (peer = guestIP)) then mret (Some UnexpectedPeer) else
  f ← or_panic (packet_frame p priority);
  frame f.

(** One iteration of the loop of [ReadPacket] with a buffer of [n] bytes;
    [None] is [continue]. *)
Definition read_frame (n : Z) : M conn (option (io_error + (list Z * IPAddr))) :=
  got ← read_prefixed;
  match got with
  | inl err => mret (Some (inl err))
  | inr f =>
      kind ← or_panic (Uint16 f 12);
      if kind =? 2054 then
        asked ← or_panic (arp_asked f);
        if negb asked then mret None else
        reply ← or_panic (arp_reply f);
        err ← frame reply;
        mret (match err with Some err => Some (inl err) | None => None end)
      else if kind =? 2048 then
        found ← or_panic (ip_payload f);
        match found with
        | None => mret None
        | Some (p, src) => mret (Some (if n <? len p then inl ShortBuffer else inr (p, src)))
        end
      else mret None
  end.

Fixpoint read_loop (fuel : nat) (n : Z) : M conn (io_error + (list Z * IPAddr)) :=
  match fuel with
  | O => stop OutOfFuel
  | S fuel =>
      r ← read_frame n;
      match r with
      | Some r => mret r
      | None => read_loop fuel n
      end
  end.

(** Every iteration that goes on has consumed a frame, so one more than the
    bytes of the stream is enough. *)
Definition ReadPacket (n : Z) : M conn (io_error + (list Z * IPAddr)) :=
  c ← get;
  read_loop (S (length (c_in c))) n.

End nic.
End vmcheck.
