(* ===== verification/VmCheckFacts.v ===== *)
(** * Theorems about the packet I/O of the VM check

    It builds the frames and checks the datagrams the LAN relay does, and
    [ReadPacket] ends with the first Homa packet of the guest. *)
From S2P Require Import Prelude Wire Api Net Relay RelayFacts.
From S2P Require Import VmCheck.

#[local] Open Scope Z_scope.

Module vmcheck_facts.
Import vmcheck.

(** ** Frames *)

Lemma sum_pairs_words b sum :
  Nat.even (length b) = true → sum_pairs sum b = Some (lanrelay.sum_words sum b).
Proof.
  revert sum. induction b as [|x|x y b IH] using list_pair_ind; intros sum He; [done|done|].
  cbn [sum_pairs lanrelay.sum_words]. by apply IH.
Qed.

Lemma checksum_even b : Nat.even (length b) = true → checksum b = Some (lanrelay.ipChecksum b).
Proof. intros He. unfold checksum. by rewrite sum_pairs_words. Qed.

(** The steps of [WritePacket] on the start of a buffer, before the part [z]
    that will hold the packet. *)
Lemma frame_macs z : bput (replicate 14 0 ++ z) 0 guestMAC = Some (guestMAC ++ replicate 8 0 ++ z).
Proof. reflexivity. Qed.

Lemma frame_host z :
  bput (guestMAC ++ replicate 8 0 ++ z) 6 hostMAC = Some (guestMAC ++ hostMAC ++ replicate 2 0 ++ z).
Proof. reflexivity. Qed.

Lemma frame_kind z :
  PutUint16 (guestMAC ++ hostMAC ++ replicate 2 0 ++ z) 12 2048 = Some ((guestMAC ++ hostMAC ++ [8; 0]) ++ z).
Proof. reflexivity. Qed.

Lemma header_start tos z :
  (ip ← upd (replicate 20 0 ++ z) 0 69; upd ip 1 tos) = Some ([69; tos] ++ replicate 18 0 ++ z).
Proof. rewrite upd_head by done. cbn [mbind option_bind]. by rewrite upd_head by done. Qed.

Lemma header_size size tos z :
  PutUint16 ([69; tos] ++ replicate 18 0 ++ z) 2 size =
    Some (([69; tos] ++ be_encode 2 size ++ replicate 16 0) ++ z).
Proof. reflexivity. Qed.

Lemma header_protocol size tos z :
  (ip ← upd (([69; tos] ++ be_encode 2 size ++ replicate 16 0) ++ z) 8 64; upd ip 9 146) =
    Some (([69; tos] ++ be_encode 2 size ++ [0; 0; 0; 0; 64; 146] ++ replicate 10 0) ++ z).
Proof. rewrite upd_head by done. cbn [mbind option_bind]. by rewrite upd_head by done. Qed.

Lemma header_addresses size tos z :
  (ip ← bput (([69; tos] ++ be_encode 2 size ++ [0; 0; 0; 0; 64; 146] ++ replicate 10 0) ++ z) 12 (AsSlice hostIP);
   bput ip 16 (AsSlice guestIP)) = Some (lanrelay_facts.header size tos 0 ++ z).
Proof. reflexivity. Qed.

Lemma header_checksum size tos z sum :
  PutUint16 (lanrelay_facts.header size tos 0 ++ z) 10 sum = Some (lanrelay_facts.header size tos sum ++ z).
Proof. reflexivity. Qed.

Lemma packet_frame_bytes p priority :
  packet_frame p priority = lanrelay.ethernetPacket p (u8 (Z.shiftl priority 5)).
Proof.
  rewrite lanrelay_facts.ethernetPacket_bytes. unfold packet_frame, lanrelay_facts.ip_packet.
  generalize (u8 (Z.shiftl priority 5)) as tos. intros tos.
  assert (replicate (14 + 20 + length p) 0 = replicate 14 0 ++ replicate 20 0 ++ replicate (length p) 0) as ->
    by reflexivity.
  pose proof (length_replicate (length p) (0 : Z)) as Hz. revert Hz. generalize (replicate (length p) 0) as z.
  intros z Hz. cbv zeta.
  rewrite (bind_one _ _ _ (frame_macs _)), (bind_one _ _ _ (frame_host _)), (bind_one _ _ _ (frame_kind _)).
  rewrite (bind_one _ _ _ (slice_tail (guestMAC ++ hostMAC ++ [8; 0]) _ 14 eq_refl)), (bind_two _ _ _ _ (header_start tos z)).
  assert (len ([69; tos] ++ replicate 18 0 ++ z) = 20 + len p) as ->.
  { rewrite !len_app. unfold len at 3. rewrite Hz. unfold len. cbn [length replicate]. lia. }
  generalize (u16 (20 + len p)) as size. intros size.
  rewrite (bind_one _ _ _ (header_size size tos z)), (bind_two _ _ _ _ (header_protocol size tos z)).
  rewrite (bind_two _ _ _ _ (header_addresses size tos z)), (bind_one _ _ _ (slice_head (lanrelay_facts.header size tos 0) _ 20 eq_refl)).
  rewrite (bind_one _ _ _ (checksum_even (lanrelay_facts.header size tos 0) eq_refl)).
  generalize (lanrelay.ipChecksum (lanrelay_facts.header size tos 0)) as sum. intros sum.
  rewrite (bind_one _ _ _ (header_checksum size tos z sum)).
  by rewrite (bind_one _ _ _ (bput_end (lanrelay_facts.header size tos sum) z p 20 eq_refl Hz)).
Qed.

(** ** Received datagrams *)

Lemma address_bytes a b :
  bytes_ok b → length b = 4%nat → IPv4 (be_decode b) = IPv4 a ↔ b = be_encode 4 a ∧ 0 ≤ a < 2 ^ 32.
Proof.
  intros Hb Hl. pose proof (be_decode_range b Hb) as Hr. unfold len in Hr. rewrite Hl in Hr.
  change (256 ^ Z.of_nat 4) with (2 ^ 32) in Hr. split.
  - intros [= <-]. rewrite <- Hl at 1. by rewrite be_encode_decode.
  - intros [-> Ha]. f_equal. by apply (be_decode_encode 4).
Qed.

(** The tests find exactly the IPv4 datagrams from the guest to the host. *)
Lemma ip_payload_native f p tos h pad :
  bytes_ok f → native 0 (drop 14 f) guestIP hostIP p tos h pad → ip_payload f = Some (Some (p, guestIP)).
Proof.
  intros Hfb Hn. pose proof (Forall_drop _ 14 _ Hfb) as Hb.
  destruct Hn as [Es Hlen Hfirst [k Hk] Htos Htotal (g&Hg&Hg0) Hproto Hsum Hsrc Hdst _].
  assert (len (drop 14 f) = len h + len p + len pad) as Hdl by (rewrite Es, !len_app; lia).
  pose proof (len_nonneg pad). pose proof (len_nonneg p).
  assert (34 ≤ len f) as Hf by (unfold len in *; rewrite length_drop in Hdl; lia).
  unfold ip_payload. rewrite (proj2 (Z.ltb_ge _ _)) by done.
  assert (slice f 14 (len f) = Some (h ++ p ++ pad)) as ->.
  { rewrite slice_ok, <- Es by lia. f_equal. apply take_ge. rewrite length_drop. unfold len. lia. }
  rewrite Es in Hb. apply Forall_app in Hb as [Hh _]. cbn [mbind option_bind].
  rewrite Hk, Z.div_mul in Hfirst by lia. destruct (nibble_header k) as [E1 E2]; [lia|].
  assert (20 ≤ length h)%nat as Hl by (unfold len in Hlen; lia).
  unfold Uint16 in *. rewrite !idx_head, !bsub_head by lia.
  rewrite (slice_const _ 12 16 12 4), (slice_const _ 16 20 16 4), !bsub_head
    by first [reflexivity|rewrite ?length_app; lia].
  change (Z.to_nat 0) with 0%nat. change (Z.to_nat 9) with 9%nat.
  rewrite Hfirst, Htotal, Hproto, Hg, Hsrc, Hdst. cbn [mbind option_bind].
  rewrite E1, E2, <- Hk, !(proj2 (Z.ltb_ge _ _)) by (rewrite ?len_app; lia).
  cbn [mbind option_bind orb negb Z.eqb Pos.eqb].
  rewrite slice_head by done. cbn [mbind option_bind].
  assert (Nat.even (length h) = true) as Hev
    by (apply Nat.even_spec; exists (Z.to_nat (k * 2)); unfold len in Hk; lia).
  rewrite checksum_even by done. cbn [mbind option_bind].
  rewrite (proj2 (lanrelay_facts.ipChecksum_zero h Hh ltac:(lia))), Hg0 by done.
  cbn [negb Z.eqb]. change (IPv4 (be_decode (AsSlice guestIP))) with guestIP.
  rewrite !bool_decide_true by done. cbn [negb]. by rewrite slice_middle by done.
Qed.

Lemma ip_payload_inv f :
  bytes_ok f → ∃ o, ip_payload f = Some o ∧
    ∀ p src, o = Some (p, src) → src = guestIP ∧ ∃ tos h pad, native 0 (drop 14 f) guestIP hostIP p tos h pad.
Proof.
  intros Hfb. unfold ip_payload. destruct (Z.ltb_spec (len f) 34) as [|Hf]; [by eexists|].
  assert (slice f 14 (len f) = Some (drop 14 f)) as ->.
  { rewrite slice_ok by lia. f_equal. apply take_ge. rewrite length_drop. unfold len. lia. }
  cbn [mbind option_bind]. assert (bytes_ok (drop 14 f)) as Hb by by apply Forall_drop.
  assert (20 ≤ len (drop 14 f)) as Hlen by (unfold len in *; rewrite length_drop; lia).
  set (ip := drop 14 f) in *. clearbody ip. clear f Hfb Hf.
  assert (20 ≤ length ip)%nat as Hl by (unfold len in Hlen; lia).
  destruct (idx_ok ip 0) as [first Ef]; [lia|]. rewrite Ef. cbn [mbind option_bind].
  assert (is_byte first) as Hfb by (eapply (Forall_lookup_1 _ _ _ _ Hb); exact Ef).
  destruct (bsub_some ip 2 2) as [t Et]; [lia|]. unfold Uint16. rewrite Et.
  cbn [fmap option_fmap option_map mbind option_bind].
  assert (∃ total, be_decode t = total) as [total Etotal] by eauto. rewrite Etotal.
  destruct (Z.eqb_spec (Z.shiftr first 4) 4) as [E4|]; cbn [negb orb]; [|by eexists].
  destruct (nibbles first Hfb E4) as [Efirst Hk]. set (k := Z.land first 15) in *.
  destruct (Z.ltb_spec (k * 4) 20) as [|Hh]; cbn [orb]; [by eexists|].
  destruct (Z.ltb_spec total (k * 4)) as [|Hmin]; cbn [orb]; [by eexists|].
  destruct (Z.ltb_spec (len ip) total) as [|Htot]; [by eexists|].
  destruct (cut_at ip (k * 4) total) as (h&p&pad&->&Hhl&Hpl); [lia|lia|].
  assert (20 ≤ length h)%nat as Hl' by (unfold len in Hhl; lia).
  revert Ef Et. rewrite !idx_head, !bsub_head by lia. intros Ef Et.
  destruct (lookup_lt_is_Some_2 h 9) as [proto Eproto]; [lia|].
  change (Z.to_nat 9) with 9%nat. rewrite Eproto. cbn [mbind option_bind].
  destruct (Z.eqb_spec proto 146) as [->|]; cbn [negb]; [|by eexists].
  rewrite slice_head by done. cbn [mbind option_bind].
  apply Forall_app in Hb as [Hhb _]. pose proof (lanrelay_facts.ipChecksum_zero h Hhb ltac:(lia)) as Hck.
  rewrite checksum_even by (apply Nat.even_spec; exists (Z.to_nat (k * 2)); unfold len in Hhl; lia).
  cbn [mbind option_bind].
  destruct (Z.eqb_spec (lanrelay.ipChecksum h) 0) as [E0|]; cbn [negb]; [|by eexists].
  destruct (bsub_some h 6 2) as [g Eg]; [lia|]. rewrite Eg. cbn [fmap option_fmap option_map mbind option_bind].
  destruct (Z.eqb_spec (Z.land (be_decode g) 16383) 0) as [Eg0|]; cbn [negb]; [|by eexists].
  rewrite (slice_const _ 12 16 12 4), (slice_const _ 16 20 16 4), !bsub_head
    by first [reflexivity|rewrite ?length_app; lia].
  rewrite !bsub_take_drop by lia. cbn [mbind option_bind].
  case_bool_decide as Hsrc; cbn [negb]; [|by eexists]. case_bool_decide as Hdst; cbn [negb]; [|by eexists].
  rewrite slice_middle by lia. cbn [mbind option_bind]. eexists. split; [reflexivity|].
  intros p' src [= <- <-]. split; [done|]. destruct (lookup_lt_is_Some_2 h 1) as [tos Etos]; [lia|].
  apply address_bytes in Hsrc as [Hsrc _]; [|by apply Forall_take, Forall_drop|rewrite length_take, length_drop; lia].
  exists tos, h, pad. clearbody k. subst first. split; try done; try lia.
  - rewrite Hhl, Z.div_mul by lia. exact Ef.
  - exists k. lia.
  - unfold Uint16. rewrite Et. cbn. f_equal. lia.
  - exists (be_decode g). unfold Uint16. by rewrite Eg.
  - rewrite bsub_take_drop by lia. by rewrite Hsrc.
  - rewrite bsub_take_drop by lia. by rewrite Hdst.
Qed.

(** The two tools agree.  The VM check computes the relay's checksum on
    headers, builds the relay's frames with the priority in the precedence bits
    of the traffic class, and takes from a frame exactly the packets the relay
    would take from it, packets shorter than a Homa header apart. *)
Theorem tools_agree b f p priority :
  Nat.even (length b) = true → bytes_ok f → 28 ≤ len p →
  checksum b = Some (lanrelay.ipChecksum b) ∧
  packet_frame p priority = lanrelay.ethernetPacket p (u8 (Z.shiftl priority 5)) ∧
  (ip_payload f = Some (Some (p, guestIP)) ↔
   ∃ tos, lanrelay.nativePacket (drop 14 f) guestIP hostIP = Some (Some (p, tos))).
Proof.
  intros He Hf Hp. split; [by apply checksum_even|]. split; [apply packet_frame_bytes|].
  assert (bytes_ok (drop 14 f)) as Hb by by apply Forall_drop. split.
  - intros E. destruct (ip_payload_inv f Hf) as (o&Ho&Hinv). rewrite E in Ho. injection Ho as <-.
    destruct (Hinv _ _ eq_refl) as (_&tos&h&pad&Hn). exists tos.
    apply (lanrelay_facts.nativePacket_native _ _ _ _ _ h pad Hb). destruct Hn. by split.
  - intros [tos E]. destruct (lanrelay_facts.nativePacket_inv _ guestIP hostIP Hb) as (o&Ho&Hinv).
    rewrite E in Ho. injection Ho as <-. destruct (Hinv _ _ eq_refl) as (h&pad&Hn).
    apply (ip_payload_native f p tos h pad Hf). destruct Hn. split; try done. lia.
Qed.

(** ** Reading packets *)

(** The frame [f] carries the Homa packet [p] from the guest. *)
Definition delivers (f p : list Z) : Prop :=
  Uint16 f 12 = Some 2048 ∧ ∃ tos h pad, native 0 (drop 14 f) guestIP hostIP p tos h pad.

Lemma arp_asked_total f : ∃ o, arp_asked f = Some o ∧ (o = true → 42 ≤ len f).
Proof.
  unfold arp_asked. destruct (Z.ltb_spec (len f) 42) as [|Hl]; [by exists false|].
  assert (42 ≤ length f)%nat by (unfold len in Hl; lia). unfold Uint16.
  rewrite (slice_const _ 38 42 38 4), !bsub_take_drop by first [reflexivity|lia]. eexists. split; [done|lia].
Qed.

Section reading.
Context `{Socket}.

Lemma wp_frame f c : wp (frame f) (written (be_encode 4 (u32 (len f)) ++ f) c) c.
Proof.
  unfold frame, conn_SetWriteDeadline. wp_steps. eapply wp_mono; [apply wp_write_frame|]. by intros err c' Hw.
Qed.

(** A packet that was written without an error is in the stream, in a frame from
    which the relay's check takes it with its priority. *)
Lemma wp_WritePacket p peer priority c :
  wp (WritePacket p peer priority) (λ err c', c_in c' = c_in c ∧
    (err = None → bytes_ok p → 28 ≤ len p ≤ 65515 → 0 ≤ priority < 8 →
     ∃ f, frame_ok f ∧ c_out c' = c_out c ++ encoded f ∧
       lanrelay.nativePacket (drop 14 f) hostIP guestIP = Some (Some (p, Z.shiftl priority 5)))) c.
Proof.
  unfold WritePacket. case_bool_decide; cbn [negb]; [|by wp_step]. wp_step. rewrite packet_frame_bytes.
  set (tos := u8 (Z.shiftl priority 5)).
  pose proof (lanrelay_facts.ethernetPacket_bytes p tos) as Ef. apply (wp_or_panic _ _ _ _ Ef).
  eapply wp_mono; [apply wp_frame|]. intros err c' [Hin Hout]. split; [done|]. intros -> Hb Hl Hp.
  destruct (lanrelay_facts.ethernetPacket_frame p tos Hb (u8_range _) Hl) as (f&h&Ef'&Hok&_&Hn).
  rewrite Ef in Ef'. apply (inj Some) in Ef'. subst f. eexists. split; [exact Hok|]. split.
  - rewrite Hout, u32_id; [done|]. unfold is_u32. unfold frame_ok in Hok. lia.
  - assert (tos = Z.shiftl priority 5) as <-.
    { unfold tos. rewrite Z.shiftl_mul_pow2 by lia. apply u8_id. unfold is_u8. lia. }
    eapply lanrelay_facts.nativePacket_native; [|exact Hn]. apply lanrelay_facts.ip_packet_bytes; [done|apply u8_range].
Qed.

Lemma wp_read_frame n c :
  bytes_ok (c_in c) →
  wp (read_frame n) (λ r c', bytes_ok (c_in c') ∧
    match r with
    | None => ∃ f, c_in c = encoded f ++ c_in c' ∧ ¬ ∃ p, delivers f p
    | Some (inl _) => True
    | Some (inr (p, src)) => ∃ f, c_in c = encoded f ++ c_in c' ∧ delivers f p ∧ src = guestIP ∧
        bytes_ok p ∧ len p ≤ n
    end) c.
Proof.
  intros Hb. unfold read_frame. wp_step. eapply wp_mono; [by apply wp_read_prefixed|].
  intros [err|f] c' (_&Hb'&Hcase); [by wp_step|]. destruct Hcase as (Hfok&Hfb&Hin).
  assert (14 ≤ length f)%nat as Hl by (destruct Hfok; unfold len in *; lia).
  assert (∃ kind, Uint16 f 12 = Some kind) as [kind Hkind]
    by (unfold Uint16; rewrite bsub_take_drop by lia; by eexists).
  assert (kind ≠ 2048 → ¬ ∃ p, delivers f p) as Hother by (intros Hne (p&E&_); congruence).
  wp_step. apply (wp_or_panic _ _ _ _ Hkind). destruct (Z.eqb_spec kind 2054) as [->|Hk].
  - destruct (arp_asked_total f) as (o&Ho&Hlen). wp_step. apply (wp_or_panic _ _ _ _ Ho).
    destruct o; cbn [negb]; [|wp_step; split; [done|by exists f; auto]].
    wp_step. apply (wp_or_panic _ _ _ _ (lanrelay_facts.arp_reply_bytes f (Hlen eq_refl))).
    wp_step. eapply wp_mono; [apply wp_frame|]. intros [err|] c'' [Hin' _]; wp_step; rewrite Hin'; [done|].
    split; [done|]. exists f. auto.
  - destruct (Z.eqb_spec kind 2048) as [->|Hk']; [|wp_step; split; [done|by exists f; auto]].
    destruct (ip_payload_inv f Hfb) as ([[p src]|]&Ho&Hinv); wp_step; apply (wp_or_panic _ _ _ _ Ho);
      cbv beta iota; wp_step; (split; [done|]); cycle 1.
    { exists f. split; [done|]. intros (p&_&tos&h&pad&Hn).
      pose proof (ip_payload_native f p tos h pad Hfb Hn). congruence. }
    destruct (Z.ltb_spec n (len p)); [done|]. destruct (Hinv _ _ eq_refl) as (->&tos&h&pad&Hn).
    exists f. split; [done|]. split; [by split; eauto|]. split; [done|].
    destruct (native_parts _ _ _ _ _ _ _ _ (Forall_drop _ 14 _ Hfb) Hn) as (Hp&_). done.
Qed.

(** The packet [ReadPacket] found, after the frames it skipped. *)
Definition first_packet (n : Z) (c : conn) (r : io_error + (list Z * IPAddr)) (c' : conn) : Prop :=
  bytes_ok (c_in c') ∧
  ∀ p src, r = inr (p, src) → src = guestIP ∧ bytes_ok p ∧ len p ≤ n ∧
    ∃ skipped f, c_in c = concat (encoded <$> skipped) ++ encoded f ++ c_in c' ∧
      Forall (λ g, ¬ ∃ q, delivers g q) skipped ∧ delivers f p.

Lemma wp_read_loop fuel n c :
  bytes_ok (c_in c) → (length (c_in c) < fuel)%nat → wp (read_loop fuel n) (first_packet n c) c.
Proof.
  revert c. induction fuel as [|fuel IH]; intros c Hb Hf; [lia|]. cbn [read_loop]. wp_step.
  eapply wp_mono; [by apply wp_read_frame|]. intros [[err|[p src]]|] c' [Hb' Hcase]; cbv beta iota in *.
  - wp_step. by split.
  - wp_step. split; [done|]. intros p' src' [= <- <-]. destruct Hcase as (f&Hin&Hd&->&Hp&Hl).
    split_and!; try done. by exists [], f.
  - destruct Hcase as (f&Hin&Hno).
    assert (length (c_in c') < fuel)%nat as Hf'.
    { rewrite Hin in Hf. unfold encoded in Hf. rewrite !length_app, be_encode_length in Hf. lia. }
    eapply wp_mono; [by apply IH|]. intros r c'' [Hb'' Hr]. split; [done|]. intros p src E.
    destruct (Hr p src E) as (->&Hp&Hl&skipped&g&Hin'&Hskip&Hd). split_and!; try done.
    exists (f :: skipped), g. rewrite Hin, Hin'. cbn. rewrite <- app_assoc. split_and!; try done. by constructor.
Qed.

Lemma wp_ReadPacket n c : bytes_ok (c_in c) → wp (ReadPacket n) (first_packet n c) c.
Proof. intros Hb. unfold ReadPacket. wp_steps. apply wp_read_loop; [done|lia]. Qed.

(** [ReadPacket] always returns: it skips frames until the first one that
    carries a Homa packet of the guest and returns that packet, which fits the
    buffer, or reports an error of the stream. *)
Theorem read_packet_first n c :
  bytes_ok (c_in c) →
  ∃ r c', ReadPacket n c = inl (r, c') ∧ first_packet n c r c'.
Proof.
  intros Hb. destruct (wp_run _ _ _ (wp_ReadPacket n c Hb)) as (r&c'&?&?). eauto.
Qed.
End reading.

(** ** The theorems at a frame of the guest *)

(** The relay's sample datagram with the two addresses exchanged, which leaves
    the checksum correct. *)
Definition guest_frame : list Z :=
  hostMAC ++ guestMAC ++ [8; 0] ++ take 12 lanrelay_facts.sample_datagram ++ AsSlice guestIP ++ AsSlice hostIP ++
  lanrelay_facts.sample_packet.

Lemma tools_agree_witness :
  ip_payload guest_frame = Some (Some (lanrelay_facts.sample_packet, guestIP)) ∧
  ∃ tos, lanrelay.nativePacket (drop 14 guest_frame) guestIP hostIP =
    Some (Some (lanrelay_facts.sample_packet, tos)).
Proof.
  assert (ip_payload guest_frame = Some (Some (lanrelay_facts.sample_packet, guestIP))) as E
    by (vm_compute; reflexivity).
  split; [exact E|].
  apply (tools_agree [] guest_frame lanrelay_facts.sample_packet 7); [reflexivity| |vm_compute; discriminate|exact E].
  apply (bool_decide_unpack _). vm_compute. exact I.
Defined.

(** A frame of another kind before it. *)
Lemma read_packet_first_witness :
  ∃ c', @ReadPacket plain_socket 65535 (mkConn (encoded (replicate 14 0) ++ encoded guest_frame) [] 0) =
      inl (inr (lanrelay_facts.sample_packet, guestIP), c') ∧
    first_packet 65535 (mkConn (encoded (replicate 14 0) ++ encoded guest_frame) [] 0)
      (inr (lanrelay_facts.sample_packet, guestIP)) c'.
Proof.
  destruct (@read_packet_first plain_socket 65535 (mkConn (encoded (replicate 14 0) ++ encoded guest_frame) [] 0))
    as (r&c'&Hrun&Hfirst); [apply (bool_decide_unpack _); vm_compute; exact I|].
  assert (r = inr (lanrelay_facts.sample_packet, guestIP)) as -> by (vm_compute in Hrun; injection Hrun as <- <-; reflexivity).
  exists c'. exact (conj Hrun Hfirst).
Defined.
End vmcheck_facts.
