(* ===== verification/RawIP.v ===== *)
(** * Native packets over a raw IPv4 socket (src/rawip.go, [Listen] of src/endpoint.go)

    The operating system is a parameter: what each call returns, and the
    datagrams and senders [ReadFromIP] reports. *)
From S2P Require Import Prelude Wire Api Net.
From S2P Require Import EndpointState Endpoint.

#[local] Open Scope Z_scope.

Module rawip.

(** ** Addresses *)

(** [netip.AddrFromSlice]: four or sixteen bytes. *)
Definition AddrFromSlice (b : list Z) : option IPAddr :=
  if Nat.eqb (length b) 4 then Some (IPv4 (be_decode b))
  else if Nat.eqb (length b) 16 then Some (IPv6 (be_decode b) EmptyString)
  else None.

(** [netip.Addr.Unmap]: an IPv4-mapped IPv6 address becomes the IPv4 address. *)
Definition Unmap (ip : IPAddr) : IPAddr :=
  match ip with
  | IPv6 a _ => if Z.shiftr a 32 =? 65535 then IPv4 (a `mod` 2 ^ 32) else ip
  | _ => ip
  end.

(** ** The socket *)

(** [s_in] are the results of the coming calls to [ReadFromIP], the payload of
    a datagram with the bytes of its sender's address, or an error; a socket
    with no more of them was closed.  [s_tos] is the socket's option IP_TOS,
    [s_out] are the datagrams sent, with their destination and the value of that
    option, and [s_open] counts the sockets of the process. *)
Record host := mkHost {
  s_in : list (io_error + (list Z * list Z));
  s_tos : Z;
  s_out : list (list Z * IPAddr * Z);
  s_open : Z;
  s_calls : nat
}.

Definition with_open (n : Z) (h : host) : host := mkHost (s_in h) (s_tos h) (s_out h) n (s_calls h).

(** The number of the next system call. *)
Definition syscall : M host nat :=
  h ← get;
  modify (λ h, mkHost (s_in h) (s_tos h) (s_out h) (s_open h) (S (s_calls h)));;
  mret (s_calls h).

Definition opened : M host unit := modify (λ h, with_open (s_open h + 1) h).
Definition close : M host unit := modify (λ h, with_open (s_open h - 1) h).

Section socket.
Context `{RawSocket}.

Definition OpenRaw (ip : IPAddr) : M host (option io_error) :=
  if negb (Is4 ip) then mret (Some InvalidSource) else
  n ← syscall;
  match raw_listen n with
  | Some err => mret (Some err)
  | None =>
      opened;;
      n ← syscall;
      match raw_read_buffer n with
      | Some err => close;; mret (Some err)
      | None => mret None
      end
  end.

(** [ReadPacket(buf)] with [len(buf) = n]. *)
Definition ReadPacket (n : Z) : M host (io_error + (list Z * IPAddr)) :=
  h ← get;
  match s_in h with
  | [] => mret (inl NetClosed)
  | next :: rest =>
      modify (λ h, mkHost rest (s_tos h) (s_out h) (s_open h) (s_calls h));;
      match next with
      | inl err => mret (inl err)
      | inr (payload, from) =>
          match AddrFromSlice from with
          | None => mret (inl InvalidSource)
          | Some ip =>
              if negb (Is4 (Unmap ip)) then mret (inl InvalidSource) else
              if n <? len payload then mret (inl ShortBuffer)
              else mret (inr (payload, Unmap ip))
          end
      end
  end.

(** [SetsockoptInt(fd, IPPROTO_IP, IP_TOS, v)]. *)
Definition set_tos (v : Z) : M host (option io_error) :=
  n ← syscall;
  match raw_set_tos n v with
  | Some err => mret (Some err)
  | None => modify (λ h, mkHost (s_in h) v (s_out h) (s_open h) (s_calls h));; mret None
  end.

(** [WriteToIP(packet, peer)]. *)
Definition WriteToIP (packet : list Z) (peer : IPAddr) : M host (Z * option io_error) :=
  n ← syscall;
  let result := raw_write n packet in
  match result.2 with
  | Some err => mret result
  | None =>
      modify (λ h, mkHost (s_in h) (s_tos h)
        (s_out h ++ [(take (Z.to_nat result.1) packet, peer, s_tos h)]) (s_open h) (s_calls h));;
      mret result
  end.

Definition WritePacket (packet : list Z) (peer : IPAddr) (priority : Z) : M host (option io_error) :=
  if negb (Is4 peer) || IsUnspecified peer || IsMulticast peer ||
     bool_decide (peer = AddrFrom4 255 255 255 255)
  then mret (Some UnexpectedPeer) else
  if 7 <? priority then mret (Some InvalidPriority) else
  if (len packet =? 0) || (65535 - 20 <? len packet) then mret (Some InvalidSize) else
  n ← syscall;
  match raw_deadline n with Some err => mret (Some err) | None =>
  n ← syscall;
  match raw_syscall n with Some err => mret (Some err) | None =>
  n ← syscall;
  match raw_control n with Some err => mret (Some err) | None =>
  optionErr ← set_tos (Z.shiftl priority 5);
  match optionErr with Some err => mret (Some err) | None =>
  result ← WriteToIP packet peer;
  match result.2 with
  | Some err => mret (Some err)
  | None => if negb (result.1 =? len packet) then mret (Some ShortWrite) else mret None
  end end end end end.

(** [Listen]; [rand] is what the random source gives. *)
Definition Listen (local : Addr) (cfg : Config) (handler : bool) (rand : error + list Z)
  : M host ((io_error + error) + (Config * Endpoint)) :=
  p ← OpenRaw (IP local);
  match p with
  | Some err => mret (inl (inl err))
  | None =>
      match New true local cfg handler rand with
      | inl err => close;; mret (inl (inr err))
      | inr e => mret (inr e)
      end
  end.

End socket.
End rawip.
