(* ===== verification/RawIPFacts.v ===== *)
(** * Theorems about the raw socket

    What a read delivers, what a write sends, and that opening an endpoint on a
    raw socket never leaks the socket. *)
From S2P Require Import Prelude Wire Api Net.
From S2P Require Import EndpointState Endpoint Trace RawIP.

#[local] Open Scope Z_scope.

Module rawip_facts.
Import rawip.

(** The socket delivers strings of bytes. *)
Definition host_ok (h : host) : Prop :=
  Forall (λ r : io_error + (list Z * list Z),
    match r with inl _ => True | inr (b, _) => bytes_ok b end) (s_in h).

(** A unicast IPv4 address. *)
Definition unicast (ip : IPAddr) : Prop :=
  Is4 ip = true ∧ IsUnspecified ip = false ∧ IsMulticast ip = false ∧ ip ≠ AddrFrom4 255 255 255 255.

(** What a write to the socket did: an error, or the packet went out as it is,
    to a unicast address, under its own priority. *)
Definition sent (packet : list Z) (peer : IPAddr) (priority : Z) (h : host)
  (err : option io_error) (h' : host) : Prop :=
  s_in h' = s_in h ∧ s_open h' = s_open h ∧
  (err = None → 0 < len packet ≤ 65515 ∧ priority ≤ 7 ∧ unicast peer ∧
     s_out h' = s_out h ++ [(packet, peer, Z.shiftl priority 5)]).

Section socket.
Context `{RawSocket}.

Lemma wp_raw_read n h :
  host_ok h → wp (ReadPacket n) (λ r h', host_ok h' ∧
    ∀ b ip, r = inr (b, ip) → bytes_ok b ∧ len b ≤ n ∧ Is4 ip = true) h.
Proof.
  intros Hok. unfold ReadPacket. do 2 wp_step. unfold host_ok in *.
  destruct (s_in h) as [|next rest] eqn:E; [wp_step; by rewrite E|].
  apply Forall_cons in Hok as [Hnext Hrest]. wp_steps. cbn [s_in].
  destruct next as [err|[payload from]]; [by wp_step|].
  destruct (AddrFromSlice from) as [ip|]; [|by wp_step].
  destruct (Is4 (Unmap ip)) eqn:E4; cbn [negb]; [|by wp_step].
  destruct (Z.ltb_spec n (len payload)); wp_step; [done|]. split; [done|]. by intros b ip' [= <- <-].
Qed.

Lemma wp_raw_write packet peer priority h :
  wp (WritePacket packet peer priority) (sent packet peer priority h) h.
Proof.
  unfold WritePacket, sent, unicast. destruct (negb (Is4 peer) || _ || _ || _) eqn:Ep; [by wp_step|].
  destruct (Z.ltb_spec 7 priority) as [|Hpr]; [by wp_step|].
  destruct ((len packet =? 0) || _) eqn:El; [by wp_step|].
  assert (0 < len packet ≤ 65515) as Hl by (pose proof (len_nonneg packet); bool_to_prop; lia).
  unfold set_tos, WriteToIP, syscall. wp_steps. destruct (raw_deadline _); [by wp_step|].
  wp_steps. destruct (raw_syscall _); [by wp_step|]. wp_steps. destruct (raw_control _); [by wp_step|].
  wp_steps. destruct (raw_set_tos _ _); [by wp_steps|]. wp_steps. cbn [s_in s_tos s_out s_open s_calls].
  destruct (raw_write _ packet) as [k [err|]]; cbn [fst snd]; [by wp_steps|]. wp_steps. cbn [fst snd].
  destruct (Z.eqb_spec k (len packet)) as [->|]; cbn [negb fst snd]; wp_step; [|done].
  split_and!; try done.
  intros _. rewrite !orb_false_iff, negb_false_iff, bool_decide_eq_false in Ep.
  destruct Ep as (((H4&Hu)&Hm)&Hb). split_and!; try done; try lia. cbn.
  unfold len. by rewrite Nat2Z.id, firstn_all.
Qed.

(** The system grants every call of a write and takes whole datagrams. *)
Definition granted : Prop :=
  (∀ n, raw_deadline n = None ∧ raw_syscall n = None ∧ raw_control n = None) ∧
  (∀ n v, raw_set_tos n v = None) ∧ (∀ n p, raw_write n p = (len p, None)).

Lemma WritePacket_granted packet peer priority h err h' :
  granted → unicast peer → priority ≤ 7 → 0 < len packet ≤ 65515 →
  WritePacket packet peer priority h = inl (err, h') → err = None.
Proof.
  intros (Hcalls&Htos&Hwrite) (H4&Hu&Hm&Hb) Hpr Hl.
  cut (wp (WritePacket packet peer priority) (λ err _, err = None) h); [unfold wp; by intros Hw E; rewrite E in Hw|].
  unfold WritePacket, set_tos, WriteToIP, syscall.
  rewrite H4, Hu, Hm, bool_decide_false, (proj2 (Z.ltb_ge _ _)), (proj2 (Z.eqb_neq _ _)), (proj2 (Z.ltb_ge _ _))
    by first [done|lia]. cbn [negb orb].
  wp_steps. destruct (Hcalls (s_calls h)) as (->&_&_). wp_steps.
  rewrite (proj1 (proj2 (Hcalls _))). wp_steps. rewrite (proj2 (proj2 (Hcalls _))). wp_steps.
  rewrite Htos. wp_steps. rewrite Hwrite. cbn [fst snd]. wp_steps. cbn [fst snd]. rewrite Z.eqb_refl. cbn [negb]. by wp_step.
Qed.

(** What [Listen] leaves behind: its endpoint with one more open socket, or an
    error and the sockets it found. *)
Definition listened (local : Addr) (cfg : Config) (handler : bool) (rand : error + list Z) (h : host)
  (r : (io_error + error) + (Config * Endpoint)) (h' : host) : Prop :=
  s_in h' = s_in h ∧ s_out h' = s_out h ∧
  match r with
  | inl _ => s_open h' = s_open h
  | inr e => s_open h' = s_open h + 1 ∧ New true local cfg handler rand = inr e
  end ∧
  (raw_listen (s_calls h) = None → raw_read_buffer (S (s_calls h)) = None →
   (∃ e, r = inr e) ↔ ∃ e, New true local cfg handler rand = inr e).

Lemma wp_Listen local cfg handler rand h :
  wp (Listen local cfg handler rand) (listened local cfg handler rand h) h.
Proof.
  unfold listened, Listen, OpenRaw, syscall, opened, close.
  destruct (Is4 (IP local)) eqn:E4; cbn [negb].
  - wp_steps. destruct (raw_listen _) eqn:E1; wp_steps; [done|]. cbn [s_calls with_open].
    destruct (raw_read_buffer _) eqn:E2; wp_steps; [cbn; split_and!; [done|done|lia|done]|].
    destruct (New true local cfg handler rand) as [err|e]; wp_steps; cbn.
    + split_and!; [done|done|lia|]. intros _ _. by split; intros [? [=]].
    + split_and!; try done. intros _ _. by split; intros _; eexists.
  - wp_steps. split_and!; try done. intros _ _. split; [by intros []|]. intros [[c e] HN].
    destruct (New_rand _ _ _ _ _ _ _ HN) as [seed ->]. destruct (New_inv _ _ _ _ _ _ _ HN) as (_&_&?&_).
    congruence.
Qed.

(** [Listen] never leaks the raw socket: it always returns, with exactly one
    more open socket and the endpoint [New] made when it succeeds, and with the
    sockets it found when it fails; and when the system grants the socket it
    succeeds exactly when [New] accepts its arguments. *)
Theorem listen_owns_socket local cfg handler rand h :
  ∃ r h', Listen local cfg handler rand h = inl (r, h') ∧ s_in h' = s_in h ∧ s_out h' = s_out h ∧
    match r with
    | inl _ => s_open h' = s_open h
    | inr e => s_open h' = s_open h + 1 ∧ New true local cfg handler rand = inr e
    end ∧
    (raw_listen (s_calls h) = None → raw_read_buffer (S (s_calls h)) = None →
     (∃ e, r = inr e) ↔ ∃ e, New true local cfg handler rand = inr e).
Proof. apply (wp_run _ (listened local cfg handler rand h)), wp_Listen. Qed.

End socket.
End rawip_facts.
