(* ===== verification/PacketIO.v ===== *)
(** * The packet I/O an endpoint runs on (PacketIO of src/api.go)

    The class states what an endpoint relies on; the raw socket and the VM
    check's connection are its instances.  An endpoint together with its packet
    I/O is a transition system, and every execution of it is an execution of
    the endpoint by itself, so that the theorems of System hold for it. *)
From S2P Require Import Prelude Wire WireFacts Assembly AssemblyFacts Api.
From S2P Require Import EndpointState Endpoint EndpointInv EndpointSend EndpointOps EndpointRecv.
From S2P Require Import EndpointTimer EndpointLoops Trace System.
From S2P Require Import Net Relay RelayFacts VmCheck VmCheckFacts.
From S2P Require Import RawIP RawIPFacts.

#[local] Open Scope Z_scope.

(** ** The interface *)

(** The operations: [io_read n] is [ReadPacket(buf)] with a buffer of [n] bytes. *)
Class PacketIO (S : Type) := {
  io_read : Z → M S (io_error + (list Z * IPAddr));
  io_write : list Z → IPAddr → Z → M S (option io_error)
}.

(** What the endpoint relies on: neither call panics or hangs in a state of the
    I/O, and a packet that was read is a string of bytes that fits the buffer,
    from an IPv4 address. *)
Class PacketIOLaws (S : Type) `{PacketIO S} := {
  io_ok : S → Prop;
  io_read_law n s : io_ok s → wp (io_read n) (λ r s', io_ok s' ∧
    ∀ b ip, r = inr (b, ip) → bytes_ok b ∧ len b ≤ n ∧ Is4 ip = true) s;
  io_write_law b ip priority s : io_ok s → wp (io_write b ip priority) (λ _ s', io_ok s') s
}.

(** ** Its instances *)

#[global] Instance raw_io `{RawSocket} : PacketIO rawip.host := {|
  io_read := rawip.ReadPacket; io_write := rawip.WritePacket
|}.

#[global] Instance vm_io `{Socket} : PacketIO conn := {|
  io_read := vmcheck.ReadPacket; io_write := vmcheck.WritePacket
|}.

#[global] Instance raw_laws `{RawSocket} : PacketIOLaws rawip.host.
Proof.
  refine {| io_ok := rawip_facts.host_ok |}.
  - apply rawip_facts.wp_raw_read.
  - intros b ip priority h Hok. eapply wp_mono; [apply rawip_facts.wp_raw_write|]. intros err h' (Hin&_).
    unfold rawip_facts.host_ok. by rewrite Hin.
Defined.

#[global] Instance vm_laws `{Socket} : PacketIOLaws conn.
Proof.
  refine {| io_ok := λ c, bytes_ok (c_in c) |}.
  - intros n c Hb. eapply wp_mono; [by apply vmcheck_facts.wp_ReadPacket|]. intros r c' [Hb' Hr].
    split; [done|]. intros b ip E. destruct (Hr b ip E) as (->&?&?&_). done.
  - intros b ip priority c Hb. eapply wp_mono; [apply vmcheck_facts.wp_WritePacket|]. by intros err c' [-> _].
Defined.

(** ** An endpoint on its packet I/O *)

(** The errors of the I/O as the endpoint passes them on. *)
Definition io_code (err : io_error) : Z :=
  match err with
  | ShortWrite => -1 | EOF => -2 | UnexpectedEOF => -3 | InvalidFrame => -4 | ShortBuffer => -5
  | UnexpectedPeer => -6 | InvalidSource => -7 | InvalidPriority => -8 | InvalidSize => -9
  | NetClosed => -10 | Errno code => code
  end.

Definition wrap (err : io_error) : error := ErrIO (io_code err).

(** What happens next: the reader's call returns and its packet is processed,
    the writer's call returns, or an event that does not touch the I/O. *)
Inductive action := ActRead | ActWrite | ActOther (ev : event).

Section running.
Context {S : Type} `{GoRuntime} `{PacketIOLaws S}.
Context (c : Config) (local : Addr) (handler : bool).

Definition on_endpoint {A} (m : M Endpoint A) : M (Endpoint * S) A := λ w,
  match m w.1 with inl (a, e) => inl (a, (e, w.2)) | inr f => inr f end.

Definition on_io {A} (m : M S A) : M (Endpoint * S) A := λ w,
  match m w.2 with inl (a, s) => inl (a, (w.1, s)) | inr f => inr f end.

(** One round of [readLoop], with its buffer of 65535 bytes. *)
Definition readLoop : M (Endpoint * S) event :=
  r ← on_io (io_read 65535);
  let ev := match r with inl err => EvReadError (wrap err) | inr (b, ip) => EvRead b ip end in
  on_endpoint (run_event c local handler ev);;
  mret ev.

(** [writeLoop] from the call of [WritePacket] on. *)
Definition writeLoop (packet : outgoingPacket) : M (Endpoint * S) event :=
  err ← on_io (io_write (o_data packet) (o_peer packet) (o_priority packet));
  let ev := EvWritten (wrap <$> err) in
  on_endpoint (run_event c local handler ev);;
  mret ev.

(** An action and the event of the endpoint it amounts to. *)
Definition act (a : action) : M (Endpoint * S) event :=
  match a with
  | ActRead => readLoop
  | ActWrite =>
      w ← get;
      match e_writer w.1 with
      | WWriting packet => writeLoop packet
      | _ => stop Panic
      end
  | ActOther ev => on_endpoint (run_event c local handler ev);; mret ev
  end.

Definition act_enabled (a : action) (e : Endpoint) : Prop :=
  match a with
  | ActRead => True
  | ActWrite => ∃ packet, e_writer e = WWriting packet
  | ActOther ev =>
      match ev with EvRead _ _ | EvReadError _ | EvWritten _ => False | _ => enabled ev e end
  end.

Inductive io_steps : Endpoint * S → list event → Endpoint * S → Prop :=
| io_steps_nil w : io_steps w [] w
| io_steps_cons w a ev w' evs w'' :
    act_enabled a w.1 → act a w = inl (ev, w') → io_steps w' evs w'' → io_steps w (ev :: evs) w''.

Lemma io_steps_snoc w evs w' a ev w'' :
  io_steps w evs w' → act_enabled a w'.1 → act a w' = inl (ev, w'') → io_steps w (evs ++ [ev]) w''.
Proof.
  induction 1 as [w|w b evb w1 evs w2 Hb Hrun Hsteps IH]; intros Ha Hact; cbn.
  - by eapply io_steps_cons; [..|constructor].
  - eapply io_steps_cons; [done..|]. by apply IH.
Qed.

(** An execution as a function of the actions. *)
Definition act_enabledb (a : action) (e : Endpoint) : bool :=
  match a with
  | ActRead => true
  | ActWrite => match e_writer e with WWriting _ => true | _ => false end
  | ActOther ev =>
      match ev with EvRead _ _ | EvReadError _ | EvWritten _ => false | _ => enabledb ev e end
  end.

Lemma act_enabledb_sound a e : act_enabledb a e = true → act_enabled a e.
Proof.
  destruct a as [| |ev]; cbn [act_enabledb act_enabled]; [done| |].
  - destruct (e_writer e); try done. by eexists.
  - intros Hen. destruct ev; try done; by apply enabledb_sound.
Qed.

Fixpoint run_acts (acts : list action) (w : Endpoint * S) : option (list event * (Endpoint * S)) :=
  match acts with
  | [] => Some ([], w)
  | a :: acts =>
      if act_enabledb a w.1 then
        match act a w with
        | inl (ev, w') => r ← run_acts acts w'; Some (ev :: r.1, r.2)
        | inr _ => None
        end
      else None
  end.

Lemma run_acts_steps acts w evs w' : run_acts acts w = Some (evs, w') → io_steps w evs w'.
Proof.
  revert w evs. induction acts as [|a acts IH]; intros w evs; cbn [run_acts]; [intros [= <- <-]; constructor|].
  destruct (act_enabledb a w.1) eqn:Hen; [|done]. destruct (act a w) as [[ev w1]|] eqn:Hact; [|done].
  destruct (run_acts acts w1) as [[evs1 w2]|] eqn:Hrun; [|done]. cbn. intros [= <- <-].
  eapply io_steps_cons; [by apply act_enabledb_sound|done|by apply IH].
Qed.

(** An action calls the I/O, if at all, and then is one enabled event of the
    endpoint. *)
Lemma act_split a e s :
  act_enabled a e → io_ok s →
  ∃ ev s', enabled ev e ∧ io_ok s' ∧
    act a (e, s) = (on_endpoint (run_event c local handler ev);; mret ev) (e, s').
Proof.
  intros Ha Hs. destruct a as [| |ev]; cbn [act act_enabled] in *.
  - destruct (wp_run _ _ _ (io_read_law 65535 s Hs)) as (r&s'&Hrun&Hs'&Hr). unfold readLoop.
    eexists _, s'. split; [|split; [done|]]; cycle 1.
    { erewrite bind_run; [reflexivity|]. unfold on_io. cbn [fst snd]. by rewrite Hrun. }
    destruct r as [err|[b ip]]; [done|]. destruct (Hr b ip eq_refl) as (?&?&_). done.
  - destruct Ha as [o Hw].
    destruct (wp_run _ _ _ (io_write_law (o_data o) (o_peer o) (o_priority o) s Hs)) as (err&s'&Hrun&Hs').
    exists (EvWritten (wrap <$> err)), s'. split; [by exists o|]. split; [done|].
    m_unfold. cbn [fst]. rewrite Hw. unfold writeLoop, on_io. m_unfold. cbn [fst snd]. by rewrite Hrun.
  - exists ev, s. split; [by destruct ev|done].
Qed.

Lemma event_run ev e s e' :
  run_event c local handler ev e = inl ((), e') →
  (on_endpoint (run_event c local handler ev);; mret ev) (e, s) = inl (ev, (e', s)).
Proof. intros Hrun. unfold on_endpoint. m_unfold. cbn [fst snd]. by rewrite Hrun. Qed.

Lemma event_inv ev e s r w' :
  (on_endpoint (run_event c local handler ev);; mret ev) (e, s) = inl (r, w') →
  r = ev ∧ run_event c local handler ev e = inl ((), w'.1) ∧ w'.2 = s.
Proof.
  unfold on_endpoint. m_unfold. cbn [fst snd].
  destruct (run_event c local handler ev e) as [[[] e']|]; [|done]. by intros [= <- <-].
Qed.

Lemma io_steps_refine w evs w' :
  io_steps w evs w' → io_ok w.2 → steps c local handler w.1 evs w'.1 ∧ io_ok w'.2.
Proof.
  induction 1 as [w|[e s] a ev w' evs w'' Ha Hrun Hsteps IH]; intros Hs; [by repeat constructor|].
  destruct (act_split a e s Ha Hs) as (ev'&s'&Hen&Hs'&E). rewrite Hrun in E.
  destruct (event_inv _ _ _ _ _ (eq_sym E)) as (->&He&Es). rewrite <- Es in Hs'.
  destruct (IH Hs') as [Hrest ?]. split; [|done]. by econstructor.
Qed.

End running.

(** ** Datagrams on the wire *)

Section delivery.
Context `{GoRuntime} (cfg c : Config) (local : Addr) (handler : bool) (seed : list Z).
Context (evs : list event) (e : Endpoint).

Lemma writing_ok o :
  reachable cfg local handler seed c evs e → plausible local seed evs → e_writer e = WWriting o →
  bytes_ok (o_data o) ∧ 28 ≤ len (o_data o) ≤ 1480 ∧ 0 ≤ o_priority o < 8.
Proof.
  intros Hreach Hok Hw.
  destruct (unsent_ok _ _ _ _ _ _ _ Hreach Hok o (or_intror Hw)) as (i&gh&Hi&Hpr&_&w&Hwok&_&Ed&_&Hl&_).
  rewrite Ed in *. split; [by apply packet_bytes|]. rewrite packet_length in * by done.
  pose proof (len_nonneg (wire.bodyBytes w)). lia.
Qed.

(** The end of a write: the writer is ready again. *)
Lemma write_act {S} `{PacketIO S} o s Q :
  reachable cfg local handler seed c evs e → plausible local seed evs → e_writer e = WWriting o →
  wp (io_write (o_data o) (o_peer o) (o_priority o)) Q s →
  ∃ err e' s', act c local handler ActWrite (e, s) = inl (EvWritten (wrap <$> err), (e', s')) ∧
    e_writer e' = WReady ∧ io_write (o_data o) (o_peer o) (o_priority o) s = inl (err, s') ∧ Q err s'.
Proof.
  intros Hreach Hok Hw Hio. destruct (wp_run _ _ _ Hio) as (err&s'&Hrun&HQ).
  destruct (reachable_Inv _ _ _ _ _ _ _ Hreach Hok) as (n&sd&_&_&Hinv).
  destruct (wp_run _ _ _ (wp_writeLoop_done c local _ n e o (wrap <$> err) Hinv Hw)) as ([]&e'&He&_&Hready).
  exists err, e', s'. split; [|done]. cbn [act]. m_unfold. cbn [fst]. rewrite Hw.
  unfold writeLoop, on_io. m_unfold. cbn [fst snd]. rewrite Hrun.
  unfold on_endpoint. cbn [fst snd run_event]. m_unfold. by rewrite Hw, He.
Qed.

(** C23: what the endpoint puts on the VM check's connection arrives: the write
    returns and frees the writer, and when it reports no error the stream has
    one more frame, from which the other side's check takes exactly the
    endpoint's datagram, with its priority in the traffic class. *)
Theorem vm_datagram_delivered `{Socket} o k :
  reachable cfg local handler seed c evs e → plausible local seed evs → e_writer e = WWriting o →
  ∃ err e' k', act c local handler ActWrite (e, k) = inl (EvWritten (wrap <$> err), (e', k')) ∧
    e_writer e' = WReady ∧ c_in k' = c_in k ∧
    (err = None → ∃ f, frame_ok f ∧ c_out k' = c_out k ++ encoded f ∧
       lanrelay.nativePacket (drop 14 f) vmcheck.hostIP vmcheck.guestIP =
         Some (Some (o_data o, Z.shiftl (o_priority o) 5))).
Proof.
  intros Hreach Hok Hw. destruct (writing_ok o Hreach Hok Hw) as (Hb&Hl&Hp).
  destruct (@write_act conn vm_io o k _ Hreach Hok Hw (vmcheck_facts.wp_WritePacket (o_data o) (o_peer o) (o_priority o) k))
    as (err&e'&k'&Hact&Hready&_&Hin&Hout).
  exists err, e', k'. split_and!; try done. intros E. apply Hout; [done..|lia|done].
Qed.

(** The raw socket takes what the endpoint sends: a write to a unicast peer
    fails only if the system refuses a call, and without an error exactly the
    endpoint's datagram was sent, to its peer and under its priority. *)
Theorem raw_datagram_sent `{RawSocket} o h :
  reachable cfg local handler seed c evs e → plausible local seed evs → e_writer e = WWriting o →
  ∃ err e' h', act c local handler ActWrite (e, h) = inl (EvWritten (wrap <$> err), (e', h')) ∧
    e_writer e' = WReady ∧ rawip.s_in h' = rawip.s_in h ∧
    (err = None → rawip.s_out h' = rawip.s_out h ++ [(o_data o, o_peer o, Z.shiftl (o_priority o) 5)]) ∧
    (rawip_facts.granted → rawip_facts.unicast (o_peer o) → err = None).
Proof.
  intros Hreach Hok Hw. destruct (writing_ok o Hreach Hok Hw) as (_&Hl&Hp).
  destruct (@write_act rawip.host raw_io o h _ Hreach Hok Hw (rawip_facts.wp_raw_write (o_data o) (o_peer o) (o_priority o) h))
    as (err&e'&h'&Hact&Hready&Hrun&Hin&_&Hsent).
  exists err, e', h'. split_and!; try done.
  - intros E. by apply Hsent.
  - intros Hg Hu. apply (rawip_facts.WritePacket_granted _ _ _ _ _ _ Hg Hu) in Hrun; [done|lia|lia].
Qed.
End delivery.

(** ** A client on a raw socket and on the VM check's connection *)

Module io_demo.
#[local] Existing Instance demo.runtime.
#[local] Existing Instance plain_raw.

(** The socket will deliver the server's answer. *)
Definition socket : rawip.host :=
  rawip.mkHost ((λ b, inr (b, [10; 0; 0; 2])) <$> demo.sent (demo.after demo.server true demo.answer)) 0 [] 1 0.

(** The client calls, its writer sends the request, its reader takes the
    two packets of the answer. *)
Definition acts : list action :=
  [ActOther (EvCall None None demo.server demo.request); ActOther EvWriteNext; ActWrite; ActRead; ActRead].

Definition outcome : list event * (Endpoint * rawip.host) :=
  default ([], (demo.start demo.client false, socket))
    (run_acts demo.effective demo.client false acts (demo.start demo.client false, socket)).

(** The client while its request is being written. *)
Definition writing : Endpoint := demo.after demo.client false (demo.call ++ [EvWriteNext]).

Definition datagram : outgoingPacket :=
  match e_writer writing with WWriting o => o | _ => mkOutgoing [] IPNone 0 None 0 end.


Lemma vm_datagram_delivered_witness :
  ∃ e' k' f, @act conn demo.runtime (@vm_io plain_socket) demo.effective demo.client false ActWrite
      (writing, mkConn [] [] 0) = inl (EvWritten None, (e', k')) ∧
    c_out k' = encoded f ∧
    lanrelay.nativePacket (drop 14 f) vmcheck.hostIP vmcheck.guestIP = Some (Some (o_data datagram, 224)).
Proof.
  destruct (@vm_datagram_delivered demo.runtime demo.config demo.effective demo.client false demo.seed
    (demo.call ++ [EvWriteNext]) writing plain_socket datagram (mkConn [] [] 0))
    as (err&e'&k'&Hact&_&_&Hout).
  - apply demo.reachable_after; vm_compute; reflexivity.
  - apply demo.plausible_demo; vm_compute; reflexivity.
  - vm_compute. reflexivity.
  - assert (err = None) as -> by (destruct err; [vm_compute in Hact; discriminate|reflexivity]).
    destruct (Hout eq_refl) as (f&_&Ho&Hn). exists e', k', f. split; [exact Hact|]. split; [exact Ho|exact Hn].
Defined.

Lemma raw_datagram_sent_witness :
  ∃ e' h', act demo.effective demo.client false ActWrite (writing, socket) = inl (EvWritten None, (e', h')) ∧
    rawip.s_out h' = [(o_data datagram, IP demo.server, 224)].
Proof.
  destruct (raw_datagram_sent demo.config demo.effective demo.client false demo.seed
    (demo.call ++ [EvWriteNext]) writing datagram socket) as (err&e'&h'&Hact&_&_&Hout&Hnone).
  - apply demo.reachable_after; vm_compute; reflexivity.
  - apply demo.plausible_demo; vm_compute; reflexivity.
  - vm_compute. reflexivity.
  - assert (err = None) as ->.
    { apply Hnone; [repeat split|]. split_and!; [vm_compute; reflexivity..|vm_compute; discriminate]. }
    exists e', h'. split; [exact Hact|]. exact (Hout eq_refl).
Defined.
End io_demo.
