(* ===== verification/Float64.v ===== *)
(** * The float64 arithmetic of the measuring tools

    Go's float64 is IEEE 754 binary64; the operations are those of the Standard
    Library's SpecFloat at precision 53, which compute.  The theorem of this
    file is that rounding a product up to an integer, [int(math.Ceil(q*n))],
    gives the exact integer when the exact product keeps a distance from the
    integer below. *)
From Stdlib Require Import SpecFloat.
From S2P Require Import Prelude.

#[local] Open Scope Z_scope.

Definition float64 := spec_float.

(** [float64(z)]. *)
Definition of_int (z : Z) : float64 := binary_normalize 53 1024 z 0 false.

Definition fmul : float64 → float64 → float64 := SFmul 53 1024.
Definition fdiv : float64 → float64 → float64 := SFdiv 53 1024.
Definition fadd : float64 → float64 → float64 := SFadd 53 1024.

(** [int(math.Ceil(x))] of a finite number. *)
Definition Ceil (x : float64) : Z :=
  match x with
  | S754_finite sign m e =>
      let v := if sign then Z.neg m else Z.pos m in
      if 0 <=? e then v * 2 ^ e else - (- v / 2 ^ (- e))
  | _ => 0
  end.

(** [r] is [m / 2^j] rounded to an integer next to it: no integer lies strictly
    between them. *)
Definition near (m j r : Z) : Prop :=
  ∀ k, (m ≤ k * 2 ^ j → r ≤ k) ∧ (k * 2 ^ j ≤ m → k ≤ r).

Lemma digits_bound m p : 0 ≤ p → 0 < m ≤ 2 ^ p → Zdigits2 m ≤ p + 1.
Proof.
  intros Hp [Hm Hle]. destruct m as [|m|]; try lia. cbn [Zdigits2].
  assert (digits2_pos m = Pos.size m) as -> by (clear; induction m; cbn; congruence).
  pose proof (Pos.size_le m) as Hs. apply Pos2Z.pos_le_pos in Hs.
  rewrite Pos2Z.inj_pow in Hs. change (Z.pos m~0) with (2 * Z.pos m) in Hs.
  apply (Z.pow_le_mono_r_iff 2); [lia|lia|]. rewrite Z.pow_add_r by lia. lia.
Qed.

(** ** Shifting out bits *)

(** [rec] holds [m] without its last [j] bits and is exact if they are zeros. *)
Definition shifted (m j : Z) (rec : shr_record) : Prop :=
  shr_m rec = m / 2 ^ j ∧ (m mod 2 ^ j = 0 → shr_r rec = false ∧ shr_s rec = false).

Lemma half_odd q : Z.pos q~1 / 2 = Z.pos q ∧ Z.pos q~1 mod 2 = 1.
Proof.
  rewrite Pos2Z.inj_xI. split; [symmetry; apply (Z.div_unique _ _ _ 1); lia|].
  symmetry. apply (Z.mod_unique _ _ (Z.pos q)); lia.
Qed.

Lemma half_even q : Z.pos q~0 / 2 = Z.pos q.
Proof. rewrite Pos2Z.inj_xO, Z.mul_comm. by apply Z.div_mul. Qed.

Lemma shr_1_spec m j rec : 0 ≤ m → 0 ≤ j → shifted m j rec → shifted m (j + 1) (shr_1 rec).
Proof.
  intros Hm Hj [Eq Hexact]. rewrite Z.add_1_r. unfold shifted.
  rewrite Z.pow_succ_r, (Z.mul_comm 2), <- Z.div_div by (try apply Z.pow_pos_nonneg; lia).
  rewrite Z.rem_mul_r by (try apply Z.pow_pos_nonneg; lia).
  assert (0 < 2 ^ j) as Hp by (apply Z.pow_pos_nonneg; lia).
  pose proof (Z.mod_pos_bound m (2 ^ j) Hp) as Hr. pose proof (Z.div_pos m (2 ^ j) Hm Hp) as Hq.
  rewrite <- Eq in *. clear Eq. destruct rec as [q r s]. cbn [shr_m shr_r shr_s] in *.
  assert (∀ b, m mod 2 ^ j + 2 ^ j * b = 0 → 0 ≤ b → b = 0 ∧ m mod 2 ^ j = 0) as Hz by (intros b Hb Hb0; nia).
  destruct q as [|[q|q|]|]; [| | | |lia]; cbn [shr_1 shr_m shr_r shr_s].
  all: split; [try reflexivity; symmetry; first [apply half_odd|apply half_even]|].
  all: intros H0; destruct (Hz _ H0) as [Hb Hm0]; [by apply Z.mod_pos_bound|].
  all: destruct (Hexact Hm0) as [-> ->]; split; try done.
  by rewrite (proj2 (half_odd q)) in Hb.
Qed.

Lemma iter_shr m p : ∀ j rec, 0 ≤ m → 0 ≤ j → shifted m j rec →
  shifted m (j + Z.pos p) (SpecFloat.iter_pos shr_1 p rec).
Proof.
  induction p as [p IH|p IH|]; intros j rec Hm Hj Hs; cbn [SpecFloat.iter_pos].
  - replace (j + Z.pos p~1) with (((j + 1) + Z.pos p) + Z.pos p) by lia.
    apply IH; [done|lia|]. apply IH; [done|lia|]. by apply shr_1_spec.
  - replace (j + Z.pos p~0) with ((j + Z.pos p) + Z.pos p) by lia.
    apply IH; [done|lia|]. by apply IH.
  - by apply shr_1_spec.
Qed.

Lemma shr_spec m e n :
  0 ≤ m → ∃ rec, shr (shr_record_of_loc m loc_Exact) e n = (rec, e + Z.max n 0) ∧ shifted m (Z.max n 0) rec.
Proof.
  intros Hm. assert (shifted m 0 (shr_record_of_loc m loc_Exact)) as H0.
  { split; [cbn; by rewrite Z.div_1_r|done]. }
  destruct n as [|p|p]; cbn [shr].
  - eexists. split; [by rewrite Z.add_0_r|done].
  - eexists. split; [done|]. by apply (iter_shr m p 0).
  - eexists. split; [by rewrite Z.add_0_r|done].
Qed.

(** ** Rounding *)

Lemma near_round m j rec :
  0 ≤ m → 0 ≤ j → shifted m j rec → near m j (round_nearest_even (shr_m rec) (loc_of_shr_record rec)).
Proof.
  intros Hm Hj [Eq Hexact] k. assert (0 < 2 ^ j) as Hp by (apply Z.pow_pos_nonneg; lia).
  pose proof (Z.div_mod m (2 ^ j) ltac:(lia)) as Hdm. pose proof (Z.mod_pos_bound m (2 ^ j) Hp) as Hr.
  set (R := round_nearest_even _ _).
  assert (m / 2 ^ j ≤ R ≤ m / 2 ^ j + 1 ∧ (m mod 2 ^ j = 0 → R = m / 2 ^ j)) as [HR Hex].
  { rewrite <- Eq. split.
    - unfold R. destruct rec as [q [] []]; cbn; try destruct (Z.even q); lia.
    - intros H0. destruct (Hexact H0) as [Er Es]. unfold R. destruct rec. cbn in *. by subst. }
  clearbody R. split; intros Hk.
  - destruct (decide (m mod 2 ^ j = 0)) as [E|]; [rewrite (Hex E) in *; nia|nia].
  - nia.
Qed.

Lemma near_floor m j i r : 0 ≤ j → 0 ≤ i → near m j r → near m (j + i) (r / 2 ^ i).
Proof.
  intros Hj Hi Hn k. assert (0 < 2 ^ i) as Hp by (apply Z.pow_pos_nonneg; lia).
  rewrite Z.pow_add_r by lia. destruct (Hn (k * 2 ^ i)) as [H1 H2]. split; intros Hk.
  - apply Z.div_le_upper_bound; [done|]. rewrite Z.mul_comm. apply H1. lia.
  - apply Z.div_le_lower_bound; [done|]. rewrite Z.mul_comm. apply H2. lia.
Qed.

(** A number from 2^-32 up to 2^20 is rounded at an exponent of at most -32. *)
Lemma round_spec m e :
  e ≤ -32 → 2 ^ (-32 - e) ≤ m ≤ 2 ^ (20 - e) →
  ∃ m' e', binary_round_aux 53 1024 false m e loc_Exact = S754_finite false m' e' ∧
    e ≤ e' ≤ -32 ∧ near m (e' - e) (Z.pos m').
Proof.
  intros He Hm. assert (0 < 2 ^ (-32 - e)) by (apply Z.pow_pos_nonneg; lia).
  unfold binary_round_aux, shr_fexp.
  pose proof (digits_bound m (20 - e) ltac:(lia) ltac:(lia)) as Hd.
  set (n := fexp 53 1024 (Zdigits2 m + e) - e).
  assert (e + Z.max n 0 ≤ -32) as Hn by (unfold n, fexp, emin; lia). clearbody n.
  destruct (shr_spec m e n ltac:(lia)) as (rec&->&Hs).
  assert (0 ≤ Z.max n 0) as Hj by lia. revert Hs Hn Hj. generalize (Z.max n 0) as j. intros j Hs Hn Hj.
  pose proof (near_round m j rec ltac:(lia) Hj Hs) as Hnear.
  revert Hnear. generalize (round_nearest_even (shr_m rec) (loc_of_shr_record rec)) as R. intros R Hnear.
  assert (0 < R ≤ 2 ^ (20 - (e + j))) as HR.
  { split.
    - enough (1 ≤ R) by lia. apply Hnear. rewrite Z.mul_1_l. transitivity (2 ^ (-32 - e)); [|lia].
      apply Z.pow_le_mono_r; lia.
    - apply Hnear. rewrite <- Z.pow_add_r by lia. replace (20 - (e + j) + j) with (20 - e) by lia. lia. }
  pose proof (digits_bound R (20 - (e + j)) ltac:(lia) HR) as HdR.
  set (n' := fexp 53 1024 (Zdigits2 R + (e + j)) - (e + j)).
  assert (e + j + Z.max n' 0 ≤ -32) as Hn' by (unfold n', fexp, emin; lia). clearbody n'.
  destruct (shr_spec R (e + j) n' ltac:(lia)) as (rec'&->&[Eq _]). rewrite Eq.
  assert (0 ≤ Z.max n' 0) as Hi by lia. revert Hn' Hi. generalize (Z.max n' 0) as i. intros i Hn' Hi.
  pose proof (near_floor m j i R Hj Hi Hnear) as Hfloor. clear Eq HR HdR Hnear.
  assert (1 ≤ R / 2 ^ i) as Hpos.
  { apply Hfloor. rewrite Z.mul_1_l. transitivity (2 ^ (-32 - e)); [|lia]. apply Z.pow_le_mono_r; lia. }
  destruct (R / 2 ^ i) as [|m'|]; [lia| |lia]. rewrite (proj2 (Z.leb_le _ _)) by lia.
  exists m', (e + j + i). split; [done|]. split; [lia|]. by replace (e + j + i - e) with (j + i) by lia.
Qed.

(** ** Integers and products *)

Lemma iter_double p d : Z.pos (Pos.iter xO p d) = Z.pos p * 2 ^ Z.pos d.
Proof.
  induction d as [|d IH] using Pos.peano_ind; [cbn; lia|].
  rewrite Pos.iter_succ, Pos2Z.inj_xO, IH, Pos2Z.inj_succ, Z.pow_succ_r by lia. lia.
Qed.

(** Integers up to 2^20 are exact. *)
Lemma of_int_spec n :
  0 < n ≤ 2 ^ 20 → ∃ m e, of_int n = S754_finite false m e ∧ e ≤ -32 ∧ Z.pos m = n * 2 ^ (- e).
Proof.
  intros Hn. destruct n as [|p|]; [lia| |lia]. unfold of_int, binary_normalize, binary_round.
  pose proof (digits_bound (Z.pos p) 20 ltac:(lia) Hn) as Hd. cbn [Zdigits2] in Hd.
  unfold shl_align. rewrite Z.add_0_r, Z.sub_0_r.
  destruct (fexp 53 1024 (Z.pos (digits2_pos p))) as [|ex|d] eqn:Ed; [unfold fexp, emin in Ed; lia..|].
  assert (Z.neg d ≤ -32) as Hd32 by (unfold fexp, emin in Ed; lia).
  destruct (round_spec (Z.pos (Pos.iter xO p d)) (Z.neg d)) as (m&e&->&He&Hnear).
  - done.
  - rewrite iter_double. replace (-32 - Z.neg d) with (Z.pos d - 32) by lia.
    replace (20 - Z.neg d) with (20 + Z.pos d) by lia. rewrite (Z.pow_add_r 2 20) by lia.
    assert (2 ^ (Z.pos d - 32) ≤ 2 ^ Z.pos d) by (apply Z.pow_le_mono_r; lia).
    assert (0 < 2 ^ (Z.pos d - 32)) by (apply Z.pow_pos_nonneg; lia). nia.
  - exists m, e. split; [done|]. split; [lia|]. destruct (Hnear (Z.pos p * 2 ^ (- e))) as [H1 H2].
    assert (Z.pos p * 2 ^ (- e) * 2 ^ (e - Z.neg d) = Z.pos (Pos.iter xO p d)) as E.
    { rewrite iter_double, <- Z.mul_assoc, <- Z.pow_add_r by lia. do 2 f_equal. lia. }
    lia.
Qed.

(** The product of [q = mq * 2^eq], at most one, with [n] rounds up to [k] when
    the exact product is at most [k] and at least 2^-32 above [k - 1]. *)
Lemma Ceil_mul mq eq n k :
  eq ≤ -32 → 0 < n ≤ 2 ^ 20 → 1 ≤ k → Z.pos mq ≤ 2 ^ (- eq) →
  (k - 1) * 2 ^ (- eq) + 2 ^ (-32 - eq) ≤ Z.pos mq * n ≤ k * 2 ^ (- eq) →
  Ceil (fmul (S754_finite false mq eq) (of_int n)) = k.
Proof.
  intros Heq Hn Hk Hq1 [Hlow Hup]. destruct (of_int_spec n Hn) as (mn&en&->&Hen&Emn).
  unfold fmul. cbn [SFmul xorb]. assert (0 < 2 ^ (- en)) as Hpn by (apply Z.pow_pos_nonneg; lia).
  assert (0 < 2 ^ (- eq)) by (apply Z.pow_pos_nonneg; lia).
  assert (Z.pos (mq * mn) = Z.pos mq * n * 2 ^ (- en)) as Em by (rewrite Pos2Z.inj_mul, Emn; lia).
  assert (2 ^ (-32 - (eq + en)) = 2 ^ (-32 - eq) * 2 ^ (- en)) as E32
    by (rewrite <- Z.pow_add_r by lia; f_equal; lia).
  destruct (round_spec (Z.pos (mq * mn)) (eq + en)) as (m&e&->&He&Hnear); [lia| |].
  { assert (0 ≤ (k - 1) * 2 ^ (- eq)) by (apply Z.mul_nonneg_nonneg; lia).
    replace (20 - (eq + en)) with (- eq + 20 + - en) by lia. rewrite Em, E32, !(Z.pow_add_r 2 (_ + _)), Z.pow_add_r by lia.
    split; apply Z.mul_le_mono_nonneg_r; try lia. apply Z.mul_le_mono_nonneg; lia. }
  cbn [Ceil]. rewrite (proj2 (Z.leb_gt _ _)) by lia. assert (0 < 2 ^ (- e)) as Hpe by (apply Z.pow_pos_nonneg; lia).
  assert (∀ z, z * 2 ^ (- e) * 2 ^ (e - (eq + en)) = z * 2 ^ (- eq) * 2 ^ (- en)) as Escale.
  { intros z. rewrite <- !Z.mul_assoc, <- !Z.pow_add_r by lia. do 2 f_equal. lia. }
  assert (Z.pos m ≤ k * 2 ^ (- e)) as H1.
  { apply Hnear. rewrite Escale, Em. by apply Z.mul_le_mono_nonneg_r; [lia|]. }
  assert ((k - 1) * 2 ^ (- e) + 1 ≤ Z.pos m) as H2.
  { apply Hnear. rewrite Z.mul_add_distr_r, Escale, Z.mul_1_l, Em.
    assert (2 ^ (e - (eq + en)) ≤ 2 ^ (-32 - (eq + en))) by (apply Z.pow_le_mono_r; lia).
    rewrite E32 in *. transitivity (((k - 1) * 2 ^ (- eq) + 2 ^ (-32 - eq)) * 2 ^ (- en)); [lia|].
    apply Z.mul_le_mono_nonneg_r; lia. }
  clear -H1 H2 Hpe. enough (- Z.pos m / 2 ^ (- e) = - k) by lia.
  symmetry. apply (Z.div_unique_pos _ _ _ (k * 2 ^ (- e) - Z.pos m)); lia.
Qed.
