(* ===== verification/Flag.v ===== *)
(** * Command-line options

    The part of Go's flag, strconv and time packages that the commands use: a
    flag set with string, integer and duration flags, the integers of
    strconv.ParseInt in base 0, and time.ParseDuration with its float64
    fractions.  A string is the list of its bytes. *)
From Stdlib Require Import SpecFloat.
From S2P Require Import Prelude Api Text Float64.

#[local] Open Scope Z_scope.

Module flag.

(** ** Integers *)

(** [c | ('x' - 'X')]. *)
Definition lower (c : Z) : Z := Z.lor c 32.

Definition is_dec (c : Z) : bool := (48 <=? c) && (c <=? 57).

(** The base of a literal and what follows its prefix. *)
Definition base_prefix (s : list Z) : Z * list Z :=
  match s with
  | c :: rest =>
      if negb (c =? 48) then (10, s) else
      match rest with
      | b :: ((_ :: _) as digits) =>
          if lower b =? 98 then (2, digits)
          else if lower b =? 111 then (8, digits)
          else if lower b =? 120 then (16, digits)
          else (8, rest)
      | _ => (8, rest)
      end
  | [] => (10, s)
  end.

(** The digits of ParseUint; an underscore is skipped.  An overflow is an error
    wherever it happens, so the exact number is computed. *)
Fixpoint uint_digits (base acc : Z) (s : list Z) : option Z :=
  match s with
  | [] => Some acc
  | c :: s =>
      if c =? 95 then uint_digits base acc s else
      let d := if is_dec c then c - 48
               else if (97 <=? lower c) && (lower c <=? 122) then lower c - 97 + 10
               else 36 in
      if base <=? d then None else uint_digits base (acc * base + d) s
  end.

(** What underscoreOK saw last. *)
Inductive seen := SeenStart | SeenDigit | SeenUnderscore | SeenOther.

#[global] Instance seen_eq_dec : EqDecision seen.
Proof. solve_decision. Defined.

Fixpoint underscores (hex : bool) (last : seen) (s : list Z) : bool :=
  match s with
  | [] => negb (bool_decide (last = SeenUnderscore))
  | c :: s =>
      if is_dec c || hex && (97 <=? lower c) && (lower c <=? 102) then underscores hex SeenDigit s
      else if c =? 95 then bool_decide (last = SeenDigit) && underscores hex SeenUnderscore s
      else if bool_decide (last = SeenUnderscore) then false
      else underscores hex SeenOther s
  end.

Definition underscoreOK (s : list Z) : bool :=
  match s with
  | c :: b :: rest =>
      if (c =? 48) && ((lower b =? 98) || (lower b =? 111) || (lower b =? 120))
      then underscores (lower b =? 120) SeenDigit rest else underscores false SeenStart s
  | _ => underscores false SeenStart s
  end.

(** [strconv.ParseUint(s, 0, n)] without its limit. *)
Definition ParseUint0 (s : list Z) : option Z :=
  match s with
  | [] => None
  | _ =>
      let '(base, digits) := base_prefix s in
      n ← uint_digits base 0 digits;
      if bool_decide (95 ∈ digits) && negb (underscoreOK s) then None else Some n
  end.

(** [strconv.ParseInt(s, 0, strconv.IntSize)]. *)
Definition ParseInt0 `{GoPlatform} (s : list Z) : option Z :=
  match s with
  | [] => None
  | c :: rest =>
      let neg := c =? 45 in
      n ← ParseUint0 (if (c =? 43) || neg then rest else s);
      if neg then if maxInt + 1 <? n then None else Some (- n)
      else if maxInt <? n then None else Some n
  end.

(** ** Durations *)

(** [uint64(x)] of a finite number that is not negative. *)
Definition Trunc (x : float64) : Z :=
  match x with
  | S754_finite _ m e => if 0 <=? e then Z.pos m * 2 ^ e else Z.pos m / 2 ^ (- e)
  | _ => 0
  end.

Fixpoint leadingInt (x : Z) (s : list Z) : option (Z * list Z) :=
  match s with
  | [] => Some (x, [])
  | c :: rest =>
      if negb (is_dec c) then Some (x, s) else
      if 2 ^ 63 / 10 <? x then None else
      let x := x * 10 + c - 48 in
      if 2 ^ 63 <? x then None else leadingInt x rest
  end.

Fixpoint leadingFraction (x : Z) (scale : float64) (overflow : bool) (s : list Z)
  : Z * float64 * list Z :=
  match s with
  | [] => (x, scale, [])
  | c :: rest =>
      if negb (is_dec c) then (x, scale, s) else
      if overflow then leadingFraction x scale true rest else
      if (2 ^ 63 - 1) / 10 <? x then leadingFraction x scale true rest else
      let y := x * 10 + c - 48 in
      if 2 ^ 63 <? y then leadingFraction x scale true rest
      else leadingFraction y (fmul scale (of_int 10)) false rest
  end.

(** The unit is everything up to the next digit or point. *)
Fixpoint span_unit (s : list Z) : list Z * list Z :=
  match s with
  | [] => ([], [])
  | c :: rest =>
      if (c =? 46) || is_dec c then ([], s)
      else let '(u, rem) := span_unit rest in (c :: u, rem)
  end.

(** The keys of unitMap; the micro sign and the Greek letter are two bytes. *)
Definition unitMap (u : list Z) : option Z :=
  if bool_decide (u = text "ns") then Some 1
  else if bool_decide (u = text "us" ∨ u = [194; 181; 115] ∨ u = [206; 188; 115]) then Some 1000
  else if bool_decide (u = text "ms") then Some 1000000
  else if bool_decide (u = text "s") then Some 1000000000
  else if bool_decide (u = text "m") then Some 60000000000
  else if bool_decide (u = text "h") then Some 3600000000000
  else None.

(** One number with its unit: its nanoseconds and the rest. *)
Definition duration_part (s : list Z) : option (Z * list Z) :=
  match s with
  | [] => None
  | c :: _ =>
      if negb ((c =? 46) || is_dec c) then None else
      '(v, s1) ← leadingInt 0 s;
      let pre := negb (len s =? len s1) in
      let '(f, scale, s2, post) :=
        match s1 with
        | c :: s1' =>
            if c =? 46 then
              let '(f, scale, s2) := leadingFraction 0 (of_int 1) false s1' in
              (f, scale, s2, negb (len s1' =? len s2))
            else (0, of_int 1, s1, false)
        | [] => (0, of_int 1, s1, false)
        end in
      if negb pre && negb post then None else
      let '(u, s3) := span_unit s2 in
      unit ← (match u with [] => None | _ => unitMap u end);
      if 2 ^ 63 / unit <? v then None else
      let v := v * unit in
      let v := if 0 <? f then u64 (v + Trunc (fmul (of_int f) (fdiv (of_int unit) scale))) else v in
      if (0 <? f) && (2 ^ 63 <? v) then None else Some (v, s3)
  end.

(** The loop of ParseDuration; the outer [None] is the end of the fuel. *)
Fixpoint duration_loop (fuel : nat) (d : Z) (s : list Z) : option (option Z) :=
  match s with
  | [] => Some (Some d)
  | _ =>
      match fuel with
      | O => None
      | S fuel =>
          match duration_part s with
          | None => Some None
          | Some (v, rest) =>
              let d := u64 (d + v) in
              if 2 ^ 63 <? d then Some None else duration_loop fuel d rest
          end
      end
  end.

(** [time.ParseDuration], the error without its text.  Every part takes at least
    one byte. *)
Definition ParseDuration (s : list Z) : option (option Z) :=
  let '(neg, s) := match s with
    | c :: rest => if (c =? 45) || (c =? 43) then (c =? 45, rest) else (false, s)
    | [] => (false, [])
    end in
  if bool_decide (s = [48]) then Some (Some 0) else
  match s with
  | [] => Some None
  | _ =>
      d ← duration_loop (length s) 0 s;
      Some (d ← d;
        if (neg : bool) then Some (- d) else if 2 ^ 63 - 1 <? d then None else Some d)
  end.

(** ** Flag sets *)

Inductive value := VString (s : list Z) | VInt (n : Z) | VDuration (d : Z).

(** [flag.Value.Set]. *)
Definition Set_ `{GoPlatform} (v : value) (s : list Z) : option value :=
  match v with
  | VString _ => Some (VString s)
  | VInt _ => VInt <$> ParseInt0 s
  | VDuration _ => d ← ParseDuration s; VDuration <$> d
  end.

Definition flagset := list (list Z * value).

Fixpoint Lookup (fs : flagset) (name : list Z) : option value :=
  match fs with
  | [] => None
  | (n, v) :: fs => if bool_decide (n = name) then Some v else Lookup fs name
  end.

Fixpoint update (fs : flagset) (name : list Z) (v : value) : flagset :=
  match fs with
  | [] => []
  | (n, w) :: fs => if bool_decide (n = name) then (n, v) :: fs else (n, w) :: update fs name v
  end.

(** The name of a flag and the value after its first equals sign. *)
Fixpoint split_equals (s : list Z) : list Z * option (list Z) :=
  match s with
  | [] => ([], None)
  | c :: s =>
      if c =? 61 then ([], Some s) else
      let '(n, v) := split_equals s in (c :: n, v)
  end.

Inductive parse_error := ErrHelp | ErrSyntax.

(** What [parseOne] makes of one argument: not a flag, the end of the flags, or
    a flag with the value that follows it in the same argument. *)
Inductive argument := NotFlag | Terminator | BadFlag | Named (name : list Z) (value : option (list Z)).

Definition classify (s : list Z) : argument :=
  match s with
  | m :: c :: rest =>
      if negb (m =? 45) then NotFlag
      else if c =? 45 then
        match rest with
        | [] => Terminator
        | d :: tl => if (d =? 45) || (d =? 61) then BadFlag
                     else let '(n, v) := split_equals tl in Named (d :: n) v
        end
      else if c =? 61 then BadFlag
      else let '(n, v) := split_equals rest in Named (c :: n) v
  | _ => NotFlag
  end.

(** [fs.Parse(args)]: the flags and the arguments that are left. *)
Fixpoint Parse `{GoPlatform} (fs : flagset) (args : list (list Z)) : parse_error + (flagset * list (list Z)) :=
  match args with
  | [] => inr (fs, [])
  | s :: args' =>
      match classify s with
      | NotFlag => inr (fs, args)
      | Terminator => inr (fs, args')
      | BadFlag => inl ErrSyntax
      | Named name inline =>
          match Lookup fs name with
          | None =>
              if bool_decide (name = text "help" ∨ name = text "h") then inl ErrHelp else inl ErrSyntax
          | Some old =>
              match inline, args' with
              | Some s, _ =>
                  match Set_ old s with None => inl ErrSyntax | Some v => Parse (update fs name v) args' end
              | None, s :: args'' =>
                  match Set_ old s with None => inl ErrSyntax | Some v => Parse (update fs name v) args'' end
              | None, [] => inl ErrSyntax
              end
          end
      end
  end.

(** The variables the flags are read through; another kind of flag is a
    mistake in the program. *)
Definition get_string (fs : flagset) (name : string) : option (list Z) :=
  match Lookup fs (text name) with Some (VString s) => Some s | _ => None end.
Definition get_int (fs : flagset) (name : string) : option Z :=
  match Lookup fs (text name) with Some (VInt n) => Some n | _ => None end.
Definition get_duration (fs : flagset) (name : string) : option Z :=
  match Lookup fs (text name) with Some (VDuration d) => Some d | _ => None end.

(** ** Facts *)

Lemma leadingInt_shorter x s v r : leadingInt x s = Some (v, r) → (length r ≤ length s)%nat.
Proof.
  revert x. induction s as [|c s IH]; intros x; cbn [leadingInt]; [by intros [= <- <-]|].
  destruct (negb (is_dec c)); [by intros [= <- <-]|]. destruct (_ <? x); [done|]. destruct (_ <? _); [done|].
  intros H%IH. cbn. lia.
Qed.

Lemma leadingFraction_shorter x scale o s : (length (leadingFraction x scale o s).2 ≤ length s)%nat.
Proof.
  revert x scale o. induction s as [|c s IH]; intros x scale o; cbn [leadingFraction]; [done|].
  destruct (negb (is_dec c)); [done|].
  assert (∀ x scale o, length (leadingFraction x scale o s).2 ≤ length (c :: s))%nat as H.
  { intros x' scale' o'. specialize (IH x' scale' o'). cbn. lia. }
  destruct o; [done|]. destruct (_ <? x); [done|]. destruct (_ <? _); done.
Qed.

Lemma span_unit_length s : (length (span_unit s).1 + length (span_unit s).2 = length s)%nat.
Proof.
  induction s as [|c s IH]; [done|]. cbn [span_unit]. destruct (_ || _); [done|].
  destruct (span_unit s). cbn in *. lia.
Qed.

Lemma duration_part_shorter s v rest : duration_part s = Some (v, rest) → (length rest < length s)%nat.
Proof.
  destruct s as [|c s]; [done|]. cbn [duration_part]. destruct (negb _); [done|].
  destruct (leadingInt 0 (c :: s)) as [[w s1]|] eqn:Hi; [|done]. apply leadingInt_shorter in Hi. cbn [mbind option_bind].
  set (t := match s1 with [] => _ | _ => _ end).
  assert (length t.1.2 ≤ length s1)%nat as Ht.
  { unfold t. destruct s1 as [|d s1]; [done|]. destruct (d =? 46); [|done].
    pose proof (leadingFraction_shorter 0 (of_int 1) false s1) as Hf.
    destruct (leadingFraction 0 (of_int 1) false s1) as [[f scale] s2]. cbn in *. lia. }
  destruct t as [[[f scale] s2] post]. cbn in Ht. destruct (_ && _); [done|].
  pose proof (span_unit_length s2) as Hs. destruct (span_unit s2) as [u s3]. cbn in Hs.
  destruct u as [|? u]; [done|]. destruct (unitMap _) as [unit|]; [|done]. cbn [mbind option_bind].
  destruct (_ <? w); [done|]. destruct (_ && _); [done|]. intros [= _ <-]. cbn in *. lia.
Qed.

Lemma duration_loop_total fuel d s : (length s ≤ fuel)%nat → is_Some (duration_loop fuel d s).
Proof.
  revert d s. induction fuel as [|fuel IH]; intros d [|c s] Hl; cbn [duration_loop]; try by eexists.
  { cbn in Hl. lia. }
  destruct (duration_part (c :: s)) as [[v rest]|] eqn:Hp; [|by eexists]. apply duration_part_shorter in Hp.
  destruct (_ <? _); [by eexists|]. apply IH. cbn in *. lia.
Qed.

(** [ParseDuration] ends on every string. *)
Lemma ParseDuration_total s : is_Some (ParseDuration s).
Proof.
  unfold ParseDuration. destruct (match s with [] => _ | _ => _ end) as [neg t].
  case_bool_decide; [by eexists|]. destruct t as [|c t]; [by eexists|].
  destruct (duration_loop_total (length (c :: t)) 0 (c :: t) ltac:(done)) as [d ->]. cbn. by eexists.
Qed.

(** *** Decimal literals *)

Lemma is_dec_digit c : is_digit c → is_dec c = true.
Proof. unfold is_digit, is_dec. intros. by rewrite !(proj2 (Z.leb_le _ _)) by lia. Qed.

Lemma digits_ge acc s n : 0 ≤ acc → digits acc s = Some n → acc ≤ n.
Proof.
  revert acc. induction s as [|c s IH]; intros acc Hacc; cbn [digits]; [intros [= <-]; lia|].
  destruct ((48 <=? c) && (c <=? 57)) eqn:E; [|done]. intros Hn. bool_to_prop. apply IH in Hn; lia.
Qed.

Lemma uint_digits_decimal acc s : Forall is_digit s → uint_digits 10 acc s = digits acc s.
Proof.
  intros Hs. revert acc. induction Hs as [|c s Hc Hs IH]; intros acc; [done|]. cbn [uint_digits digits].
  pose proof (is_dec_digit c Hc) as Hd. rewrite Hd. unfold is_dec in Hd. rewrite Hd. unfold is_digit in Hc.
  rewrite (proj2 (Z.eqb_neq _ _)), (proj2 (Z.leb_gt _ _)) by lia. apply IH.
Qed.

(** A number other than zero does not start with a zero. *)
Lemma decimal_head fuel n :
  1 ≤ n < 10 ^ Z.of_nat (S fuel) → ∃ c l, decimal (S fuel) n = c :: l ∧ c ≠ 48.
Proof.
  revert n. induction fuel as [|fuel IH]; intros n Hn; rewrite decimal_S.
  - cbn in Hn. rewrite (proj2 (Z.ltb_lt _ _)) by lia. eexists _, _. split; [done|]. rewrite Z.mod_small by lia. lia.
  - destruct (Z.ltb_spec n 10).
    + eexists _, _. split; [done|]. rewrite Z.mod_small by lia. lia.
    + rewrite Nat2Z.inj_succ, Z.pow_succ_r in Hn by lia. destruct (IH (n / 10)) as (c&l&->&Hc).
      { split; [apply Z.div_le_lower_bound; lia|apply Z.div_lt_upper_bound; lia]. }
      by eexists _, _.
Qed.

(** An integer flag takes every decimal number of an [int]. *)
Lemma ParseInt0_decimal `{GoPlatform} n :
  0 ≤ n ≤ maxInt → n < 10 ^ 20 → ParseInt0 (decimal 20 n) = Some n.
Proof.
  intros Hn Hlim. destruct (decimal_digits 19 n) as (Hd&Hf&_); [change (Z.of_nat 20) with 20; lia|].
  assert (95 ∉ decimal 20 n) as Hno.
  { rewrite Forall_forall in Hf. intros [? ?]%Hf. lia. }
  destruct (decide (n = 0)) as [->|Hne].
  { change (decimal 20 0) with [48]. cbn -[maxInt bool_decide]. rewrite bool_decide_false by apply not_elem_of_nil.
    cbn -[maxInt]. by rewrite (proj2 (Z.ltb_ge _ _)) by lia. }
  destruct (decimal_head 19 n) as (c&l&E&Hc); [lia|]. rewrite E in *.
  apply Forall_cons in Hf as [Hdc Hl]. unfold ParseInt0, ParseUint0. unfold is_digit in Hdc.
  rewrite !(proj2 (Z.eqb_neq c _)) by lia. cbn [orb base_prefix]. rewrite (proj2 (Z.eqb_neq c 48)) by done. cbn [negb].
  rewrite uint_digits_decimal, Hd by (constructor; done). cbn [mbind option_bind].
  rewrite bool_decide_false by done. cbn [andb mbind option_bind]. by rewrite (proj2 (Z.ltb_ge _ _)) by lia.
Qed.

(** *** Durations *)

Lemma leadingInt_decimal acc s u n :
  Forall is_digit s → 0 ≤ acc ≤ 2 ^ 63 → digits acc s = Some n →
  match u with [] => True | c :: _ => is_dec c = false end →
  leadingInt acc (s ++ u) = if n <=? 2 ^ 63 then Some (n, u) else None.
Proof.
  intros Hs. revert acc. induction Hs as [|c s Hc Hs IH]; intros acc Hacc Hn Hu; cbn [app digits] in *.
  - injection Hn as <-. rewrite (proj2 (Z.leb_le _ _)) by lia. destruct u as [|c u]; [done|]. cbn [leadingInt]. by rewrite Hu.
  - pose proof (is_dec_digit c Hc) as Hd. cbn [leadingInt]. rewrite Hd. unfold is_dec in Hd. rewrite Hd in Hn.
    unfold is_digit in Hc. pose proof (digits_ge (acc * 10 + (c - 48)) s n ltac:(lia) Hn) as Hge. cbn [negb].
    change (2 ^ 63 / 10) with 922337203685477580. change (2 ^ 63) with 9223372036854775808 in *.
    destruct (Z.ltb_spec 922337203685477580 acc); [by rewrite (proj2 (Z.leb_gt _ _)) by lia|].
    destruct (Z.ltb_spec 9223372036854775808 (acc * 10 + c - 48)); [by rewrite (proj2 (Z.leb_gt _ _)) by lia|].
    apply IH; [lia| |done]. by rewrite <- Z.add_sub_assoc.
Qed.

(** The units are known words without digits. *)
Lemma unitMap_spec u unit :
  unitMap u = Some unit → 1 ≤ unit ≤ 3600000000000 ∧
  ∃ c l, u = c :: l ∧ is_dec c = false ∧ c ≠ 46 ∧ span_unit u = (u, []).
Proof.
  assert (∀ w k, w ≠ [] → (match w with c :: _ => is_dec c = false ∧ c ≠ 46 | [] => True end) →
    span_unit w = (w, []) → 1 ≤ k ≤ 3600000000000 → u = w → unit = k → 1 ≤ unit ≤ 3600000000000 ∧
    ∃ c l, u = c :: l ∧ is_dec c = false ∧ c ≠ 46 ∧ span_unit u = (u, [])) as Hgen.
  { intros [|c w] k Hne Hc Hs Hk -> ->; [done|]. split; [done|]. exists c, w. by destruct Hc. }
  unfold unitMap. intros H.
  repeat case_bool_decide; try done; injection H as <-; destruct_or?;
    (eapply Hgen; [| | | |eassumption|done]; [done|vm_compute; by split|reflexivity|lia]).
Qed.

Lemma duration_part_unit n u unit :
  0 ≤ n < 10 ^ 20 → unitMap u = Some unit →
  duration_part (decimal 20 n ++ u) = if n * unit <=? 2 ^ 63 then Some (n * unit, []) else None.
Proof.
  intros Hn Hu. destruct (unitMap_spec u unit Hu) as (Hunit&c&l&->&Hc&Hdot&Hspan).
  destruct (decimal_digits 19 n) as (Hd&Hf&Hne); [done|].
  pose proof (leadingInt_decimal 0 _ (c :: l) n Hf ltac:(lia) Hd Hc) as Hint.
  destruct (decimal 20 n) as [|d ds] eqn:E; [done|]. apply Forall_cons in Hf as [Hdd _]. apply is_dec_digit in Hdd.
  cbn [app duration_part] in *. rewrite Hdd, orb_true_r. cbn [negb]. rewrite Hint.
  assert (2 ^ 63 < n * unit ↔ 2 ^ 63 / unit < n) as Hover.
  { pose proof (Z.div_mod (2 ^ 63) unit ltac:(lia)) as Hdm. pose proof (Z.mod_pos_bound (2 ^ 63) unit ltac:(lia)).
    set (q := 2 ^ 63 / unit) in *. clearbody q. split; intros; nia. }
  destruct (Z.leb_spec n (2 ^ 63)); cbn [mbind option_bind].
  - rewrite (proj2 (Z.eqb_neq c 46)) by done. cbn [negb andb].
    assert ((len (d :: ds ++ c :: l) =? len (c :: l)) = false) as ->.
    { apply Z.eqb_neq. unfold len. cbn [length]. rewrite length_app. cbn. lia. }
    cbn [negb andb]. rewrite Hspan, Hu. cbn [mbind option_bind].
    destruct (Z.ltb_spec (2 ^ 63 / unit) n); destruct (Z.leb_spec (n * unit) (2 ^ 63)); try lia; done.
  - by rewrite (proj2 (Z.leb_gt _ _)) by nia.
Qed.

(** A duration option is exact: a decimal number with a unit is that many
    nanoseconds when they fit a [time.Duration], and an error otherwise. *)
Theorem duration_exact n u unit :
  0 ≤ n < 10 ^ 20 → unitMap u = Some unit →
  ParseDuration (decimal 20 n ++ u) = Some (if n * unit <=? 2 ^ 63 - 1 then Some (n * unit) else None).
Proof.
  intros Hn Hu. pose proof (duration_part_unit n u unit Hn Hu) as Hpart.
  destruct (unitMap_spec u unit Hu) as (Hunit&c&l&->&_).
  destruct (decimal_digits 19 n) as (_&Hf&Hne); [done|].
  destruct (decimal 20 n) as [|d ds]; [done|]. apply Forall_cons in Hf as [Hdd _]. unfold is_digit in Hdd.
  unfold ParseDuration. cbn [app] in *. rewrite !(proj2 (Z.eqb_neq d _)) by lia. cbn [orb].
  rewrite bool_decide_false by (by destruct ds). cbn [length duration_loop]. rewrite Hpart.
  destruct (Z.leb_spec (n * unit) (2 ^ 63)); cbn [mbind option_bind].
  - rewrite Z.add_0_l, u64_id by (unfold is_u64; nia). rewrite (proj2 (Z.ltb_ge _ _)) by lia.
    destruct (length (ds ++ c :: l)); cbn [duration_loop mbind option_bind];
    destruct (Z.ltb_spec (2 ^ 63 - 1) (n * unit)); destruct (Z.leb_spec (n * unit) (2 ^ 63 - 1)); try lia; done.
  - by rewrite (proj2 (Z.leb_gt _ _)) by lia.
Qed.

Lemma duration_exact_witness :
  0 ≤ 90 < 10 ^ 20 ∧ ParseDuration (text "90m") = Some (Some 5400000000000).
Proof. split; [lia|]. exact (duration_exact 90 (text "m") 60000000000 ltac:(lia) eq_refl). Defined.

(** *** Flag sets *)

(** [-name=value]. *)
Definition assignment (nv : list Z * list Z) : list Z := 45 :: nv.1 ++ 61 :: nv.2.

Definition name_ok (name : list Z) : Prop :=
  match name with [] => False | c :: _ => c ≠ 45 end ∧ 61 ∉ name.

(** Setting the flags one after the other; the last value of a flag stays. *)
Fixpoint assign `{GoPlatform} (fs : flagset) (l : list (list Z * list Z)) : option flagset :=
  match l with
  | [] => Some fs
  | (name, s) :: l => old ← Lookup fs name; v ← Set_ old s; assign (update fs name v) l
  end.

Lemma split_equals_name name s : 61 ∉ name → split_equals (name ++ 61 :: s) = (name, Some s).
Proof.
  induction name as [|c name IH]; [done|]. intros [Hc Hn]%not_elem_of_cons. cbn [app split_equals].
  rewrite (proj2 (Z.eqb_neq _ _)) by done. by rewrite IH.
Qed.

Lemma classify_assignment nv : name_ok nv.1 → classify (assignment nv) = Named nv.1 (Some nv.2).
Proof.
  destruct nv as [[|c name] s]; [by intros [[] _]|]. intros [Hc Hn]. cbn in *.
  apply not_elem_of_cons in Hn as [Hc' Hn]. rewrite !(proj2 (Z.eqb_neq _ _)) by done.
  by rewrite split_equals_name.
Qed.

Lemma Lookup_update fs name v n : is_Some (Lookup fs n) → is_Some (Lookup (update fs name v) n).
Proof.
  induction fs as [|[m w] fs IH]; [done|]. cbn [Lookup update].
  repeat (case_bool_decide; cbn [Lookup]); try done; try by eexists; auto.
  all: repeat case_bool_decide; try done; try by eexists.
Qed.

(** Parsing keeps the names and the kinds of the flags, so that the variables
    they are read through exist. *)
Definition same_kind (v w : value) : Prop :=
  match v, w with
  | VString _, VString _ | VInt _, VInt _ | VDuration _, VDuration _ => True
  | _, _ => False
  end.

Definition same_flags (fs fs' : flagset) : Prop := Forall2 (λ f g, f.1 = g.1 ∧ same_kind f.2 g.2) fs fs'.

Lemma same_flags_refl fs : same_flags fs fs.
Proof. apply Forall_Forall2_diag, Forall_forall. intros [n v] _. split; [done|]. by destruct v. Qed.

Lemma same_kind_trans u v w : same_kind u v → same_kind v w → same_kind u w.
Proof. by destruct u, v, w. Qed.

Lemma same_flags_trans fs gs hs : same_flags fs gs → same_flags gs hs → same_flags fs hs.
Proof.
  intros H. revert hs. induction H as [|[n v] [m w] fs gs [En Hk] _ IH]; intros hs Hh; inversion Hh as [|? [k x] ? hs' [Em Hk']]; subst; [constructor|].
  constructor; [|by apply IH]. cbn in *. split; [congruence|by eapply same_kind_trans].
Qed.

Lemma Set_kind `{GoPlatform} v s w : Set_ v s = Some w → same_kind v w.
Proof.
  destruct v as [t|n|d]; cbn [Set_].
  - by intros [= <-].
  - by destruct (ParseInt0 s); intros [= <-].
  - destruct (ParseDuration s) as [[d'|]|]; cbn; by intros [= <-].
Qed.

Lemma update_kind fs name v w : Lookup fs name = Some v → same_kind v w → same_flags fs (update fs name w).
Proof.
  induction fs as [|[n u] fs IH]; [done|]. cbn [Lookup update]. case_bool_decide as En.
  - intros [= ->] Hk. constructor; [done|apply same_flags_refl].
  - intros Hl Hk. constructor; [|by apply IH]. split; [done|]. by destruct u.
Qed.

Lemma Parse_kinds `{GoPlatform} fs args fs' rest : Parse fs args = inr (fs', rest) → same_flags fs fs'.
Proof.
  remember (length args) as n eqn:En. revert fs args En. induction (lt_wf n) as [n _ IH]. intros fs args ->.
  destruct args as [|s args]; cbn [Parse]; [intros [= <- _]; apply same_flags_refl|].
  destruct (classify s) as [| | |name inline]; try done; try (intros [= <- _]; apply same_flags_refl).
  destruct (Lookup fs name) as [old|] eqn:El; [|by case_bool_decide].
  destruct inline as [t|].
  - destruct (Set_ old t) as [v|] eqn:Ev; [|done]. intros Hp.
    eapply same_flags_trans; [by eapply update_kind, Set_kind|]. eapply IH; [|done|done]. cbn. lia.
  - destruct args as [|t args]; [done|]. destruct (Set_ old t) as [v|] eqn:Ev; [|done]. intros Hp.
    eapply same_flags_trans; [by eapply update_kind, Set_kind|]. eapply IH; [|done|done]. cbn. lia.
Qed.

(** [fs.NArg() != 0]. *)
Lemma narg {A} (l : list A) : negb (len l =? 0) = match l with [] => false | _ :: _ => true end.
Proof. by destruct l. Qed.

(** The flags of a set with known kinds. *)
Ltac open_flags Hp :=
  unfold same_flags in Hp;
  repeat (let n := fresh "n" in let v := fresh "v" in let k := fresh "k" in
    let Hn := fresh "Hn" in let Hk := fresh "Hk" in
    apply Forall2_cons_inv_l in Hp as ([n v]&k&[Hn Hk]&Hp&->); cbn [fst snd] in Hn, Hk; subst n;
    destruct v; try done; clear Hk);
  apply Forall2_nil_inv_l in Hp as ->.

(** Options given as [-name=value] set exactly those flags, in order, and a
    value that its flag does not accept is an error. *)
Theorem flags_assigned `{GoPlatform} fs l rest :
  Forall (λ nv, name_ok nv.1 ∧ is_Some (Lookup fs nv.1)) l → match rest with [] => True | s :: _ => classify s = NotFlag end →
  Parse fs ((assignment <$> l) ++ rest) =
  match assign fs l with Some fs' => inr (fs', rest) | None => inl ErrSyntax end.
Proof.
  intros Hl Hrest. revert fs Hl. induction l as [|[name s] l IH]; intros fs Hl.
  { cbn. destruct rest as [|r rest]; [done|]. cbn. by rewrite Hrest. }
  apply Forall_cons in Hl as [[Hok [old Hold]] Hl]. rewrite fmap_cons. cbn [app Parse assign].
  rewrite classify_assignment by done. cbn [fst snd] in *. rewrite Hold. cbn [mbind option_bind].
  destruct (Set_ old s) as [v|]; [|done]. cbn [mbind option_bind]. apply IH.
  eapply Forall_impl; [exact Hl|]. intros nv [? ?]. split; [done|]. by apply Lookup_update.
Qed.
End flag.
