(* ===== verification/Json.v ===== *)
(** * JSON reports

    The part of Go's encoding/json the commands use: an indented object of
    strings, numbers, lists and maps, with the escapes of strings, and the error
    for a number that JSON cannot write.  A string is the list of its bytes.  The
    digits of a floating point number are a parameter. *)
From Stdlib Require Import SpecFloat.
From stdpp Require Import sorting.
From S2P Require Import Prelude Wire Api Text Float64.

#[local] Open Scope Z_scope.

(** ** UTF-8 *)

Module utf8.

Definition RuneError : Z := 65533.

(** The length of a sequence by its first byte, and the range of its second. *)
Definition first (c : Z) : option (nat * Z * Z) :=
  if (194 <=? c) && (c <=? 223) then Some (2%nat, 128, 191)
  else if c =? 224 then Some (3%nat, 160, 191)
  else if c =? 237 then Some (3%nat, 128, 159)
  else if (225 <=? c) && (c <=? 239) then Some (3%nat, 128, 191)
  else if c =? 240 then Some (4%nat, 144, 191)
  else if (241 <=? c) && (c <=? 243) then Some (4%nat, 128, 191)
  else if c =? 244 then Some (4%nat, 128, 143)
  else None.

Definition continues (c : Z) : bool := (128 <=? c) && (c <=? 191).

(** [utf8.DecodeRuneInString] of a string that is not empty: the code point and
    the number of its bytes. *)
Definition DecodeRune (c : Z) (s : list Z) : Z * nat :=
  if c <? 128 then (c, 1%nat) else
  match first c, s with
  | Some (n, lo, hi), c1 :: s =>
      if (c1 <? lo) || (hi <? c1) then (RuneError, 1%nat) else
      match n, s with
      | 2%nat, _ => (Z.land c 31 * 64 + Z.land c1 63, 2%nat)
      | 3%nat, c2 :: _ =>
          if continues c2 then (Z.land c 15 * 4096 + Z.land c1 63 * 64 + Z.land c2 63, 3%nat)
          else (RuneError, 1%nat)
      | 4%nat, c2 :: c3 :: _ =>
          if continues c2 && continues c3
          then (Z.land c 7 * 262144 + Z.land c1 63 * 4096 + Z.land c2 63 * 64 + Z.land c3 63, 4%nat)
          else (RuneError, 1%nat)
      | _, _ => (RuneError, 1%nat)
      end
  | _, _ => (RuneError, 1%nat)
  end.

(** The code points of a string; [skip] bytes belong to the last one. *)
Fixpoint runes (skip : nat) (s : list Z) : list Z :=
  match s with
  | [] => []
  | c :: s =>
      match skip with
      | S skip => runes skip s
      | O => let '(r, n) := DecodeRune c s in r :: runes (pred n) s
      end
  end.

Lemma runes_ascii s : Forall (λ c, c < 128) s → runes 0 s = s.
Proof.
  induction 1 as [|c s Hc _ IH]; [done|]. cbn [runes]. unfold DecodeRune.
  rewrite (proj2 (Z.ltb_lt _ _)) by done. cbn [pred]. by rewrite IH.
Qed.
End utf8.

Module json.

(** ** Values *)

(** The values a report is made of, a struct as the list of its fields. *)
#[warnings="-register-all"]
Inductive value :=
| Null
| Bool (b : bool)
| Int (n : Z)
| Float (x : float64)
| Str (s : list Z)
| Arr (l : list value)
| Obj (fields : list (list Z * value)).

(** A field that is only there when it has a value. *)
Definition omitempty {A} (name : string) (f : A → value) (o : option A) : list (list Z * value) :=
  match o with Some a => [(text name, f a)] | None => [] end.

Definition fld (name : string) (v : value) : list Z * value := (text name, v).

(** Whether the encoder accepts the value: a number that is infinite or not a
    number is an UnsupportedValueError. *)
Definition finite (x : float64) : bool :=
  match x with S754_zero _ | S754_finite _ _ _ => true | _ => false end.

Fixpoint encodable (v : value) : bool :=
  match v with
  | Float x => finite x
  | Arr l => forallb encodable l
  | Obj fields => forallb (λ f, encodable f.2) fields
  | _ => true
  end.

(** ** Text *)

Definition hex (d : Z) : Z := if d <? 10 then 48 + d else 87 + d.

Definition escape_byte (c : Z) : list Z :=
  if (c =? 34) || (c =? 92) then [92; c]
  else if c =? 8 then text "\b"
  else if c =? 12 then text "\f"
  else if c =? 10 then text "\n"
  else if c =? 13 then text "\r"
  else if c =? 9 then text "\t"
  else if (c <? 32) || (c =? 60) || (c =? 62) || (c =? 38) then text "\u00" ++ [hex (c / 16); hex (c mod 16)]
  else [c].

(** The string with its escapes; [skip] bytes belong to the last code point. *)
Fixpoint escape (skip : nat) (s : list Z) : list Z :=
  match s with
  | [] => []
  | c :: s =>
      match skip with
      | S skip => escape skip s
      | O =>
          if c <? 128 then escape_byte c ++ escape 0 s else
          let '(r, n) := utf8.DecodeRune c s in
          (if (r =? utf8.RuneError) && Nat.eqb n 1 then text "\ufffd"
           else if (r =? 8232) || (r =? 8233) then text "\u202" ++ [hex (Z.land r 15)]
           else c :: take (pred n) s) ++ escape (pred n) s
      end
  end.

Definition quoted (s : list Z) : list Z := 34 :: escape 0 s ++ [34].

Definition integer (n : Z) : list Z := if n <? 0 then 45 :: decimal 20 (- n) else decimal 20 n.

Definition newline (depth : nat) : list Z := 10 :: concat (replicate depth [32; 32]).

(** The elements of a list or object, each on a line of its own. *)
Fixpoint lines (depth : nat) (l : list (list Z)) : list Z :=
  match l with
  | [] => []
  | [s] => newline depth ++ s
  | s :: l => newline depth ++ s ++ 44 :: lines depth l
  end.

Definition block (depth : nat) (opening closing : Z) (l : list (list Z)) : list Z :=
  match l with
  | [] => [opening; closing]
  | _ => opening :: lines (S depth) l ++ newline depth ++ [closing]
  end.

(** [FormatFloat] writes the digits of a floating point number. *)
Class FloatText := { FormatFloat : float64 → list Z }.

Fixpoint print `{FloatText} (depth : nat) (v : value) : list Z :=
  match v with
  | Null => text "null"
  | Bool b => if b then text "true" else text "false"
  | Int n => integer n
  | Float x => FormatFloat x
  | Str s => quoted s
  | Arr l => block depth 91 93 (print (S depth) <$> l)
  | Obj fields => block depth 123 125 ((λ f, quoted f.1 ++ 58 :: 32 :: print (S depth) f.2) <$> fields)
  end.

(** [json.MarshalIndent(v, [], [  ])]; [None] is its error. *)
Definition MarshalIndent `{FloatText} (v : value) : option (list Z) :=
  if encodable v then Some (print 0 v) else None.

(** ** Values of the program's types *)

(** A map with integer keys: the keys as text, in the order of the text. *)
Fixpoint text_le (s t : list Z) : bool :=
  match s, t with
  | [], _ => true
  | _ :: _, [] => false
  | c :: s, d :: t => (c <? d) || (c =? d) && text_le s t
  end.

#[global] Instance text_le_dec : RelDecision (λ s t : list Z * value, text_le s.1 t.1 = true).
Proof. intros s t. apply bool_eq_dec. Defined.

Definition of_map (m : gmap Z Z) : value :=
  Obj (merge_sort (λ s t : list Z * value, text_le s.1 t.1 = true)
    ((λ kv : Z * Z, (integer kv.1, Int kv.2)) <$> map_to_list m)).

Lemma of_map_encodable m : encodable (of_map m) = true.
Proof.
  unfold of_map. cbn [encodable]. apply forallb_forall. intros [k v] Hin%list_elem_of_In. cbn.
  rewrite merge_sort_Permutation in Hin. by apply list_elem_of_fmap in Hin as ([a b]&[= -> ->]&_).
Qed.

Definition of_stats (s : Stats) : value :=
  Obj [fld "SentPackets" (Int (s_SentPackets s)); fld "ReceivedPackets" (Int (s_ReceivedPackets s));
       fld "Retransmissions" (Int (s_Retransmissions s)); fld "InvalidPackets" (Int (s_InvalidPackets s));
       fld "DroppedPackets" (Int (s_DroppedPackets s)); fld "WriteErrors" (Int (s_WriteErrors s));
       fld "CompletedCalls" (Int (s_CompletedCalls s)); fld "HandledRequests" (Int (s_HandledRequests s));
       fld "ActiveRPCs" (Int (s_ActiveRPCs s)); fld "ActiveHandlers" (Int (s_ActiveHandlers s));
       fld "BufferedBytes" (Int (s_BufferedBytes s))].

(** A text for numbers, for examples. *)
Definition plain_text : FloatText := Build_FloatText (λ _, [48]).
End json.
