(* ===== verification/Bench.v ===== *)
(** * The benchmark (src/cmd/homa-bench/main.go)

    The checks of its options, the TCP echo server and call it compares with,
    the measuring loops and the percentiles of the report.  A command-line
    string is the list of its code points.  The network is a parameter: what
    each exchange returns, and the clock. *)
From Stdlib Require Import SpecFloat.
From stdpp Require Import sorting.
From S2P Require Import Prelude Wire Api Text Net Float64.

#[local] Open Scope Z_scope.

Module bench.

(** ** Payload sizes *)

(** [strings.Split(s, sep)] for a separator of one code point. *)
Fixpoint Split (s : list Z) (sep : Z) : list (list Z) :=
  match s with
  | [] => [[]]
  | c :: s =>
      if c =? sep then [] :: Split s sep else
      match Split s sep with
      | part :: parts => (c :: part) :: parts
      | [] => [[c]]
      end
  end.

(** [unicode.IsSpace]. *)
Definition IsSpace (c : Z) : bool :=
  (9 <=? c) && (c <=? 13) || (c =? 32) || (c =? 133) || (c =? 160) || (c =? 5760) ||
  (8192 <=? c) && (c <=? 8202) || (c =? 8232) || (c =? 8233) || (c =? 8239) || (c =? 8287) || (c =? 12288).

Fixpoint TrimLeft (s : list Z) : list Z :=
  match s with
  | c :: s' => if IsSpace c then TrimLeft s' else s
  | [] => []
  end.

Definition TrimSpace (s : list Z) : list Z := reverse (TrimLeft (reverse (TrimLeft s))).

Inductive error :=
| ErrTimeout | ErrDuration | ErrManySizes | ErrSizes | ErrLimits | ErrWorkload
| ErrLocal | ErrPeer | ErrTCPPeer | ErrSameAddress
| ErrCall (err : io_error) | ErrMismatch.

(** The loop over the parts, with the sizes seen so far. *)
Fixpoint parse_parts `{GoPlatform} (parts : list (list Z)) (seen : gset Z) (result : list Z) : error + list Z :=
  match parts with
  | [] => inr result
  | part :: parts =>
      match Atoi (TrimSpace part) with
      | None => inl ErrSizes
      | Some n =>
          if (n <? 1) || (MaxMessageSize <? n) || bool_decide (n ∈ seen) then inl ErrSizes
          else parse_parts parts ({[ n ]} ∪ seen) (result ++ [n])
      end
  end.

Definition parseSizes `{GoPlatform} (s : list Z) : error + list Z :=
  let parts := Split s 44 in
  if 32 <? len parts then inl ErrManySizes else parse_parts parts ∅ [].

(** ** Options *)

Record clientOptions := mkOptions {
  Local : list Z; Peer : list Z; TCPPeer : list Z; Sizes : list Z; Warmup : Z;
  SmallSamples : Z; LargeSamples : Z; Rounds : Z; Timeout : Z; Scope : list Z
}.

(** The number of samples for a payload size. *)
Definition samples_for (small large size : Z) : Z := if 65536 <=? size then large else small.

(** [samples] after the loop over the sizes. *)
Definition total_samples (small large rounds : Z) (sizes : list Z) : Z :=
  foldl (λ samples size,
    swrap 64 (samples + swrap 64 (swrap 64 (samples_for small large size * rounds) * 2))) 0 sizes.

(** The checks of [run] on the options that both commands share. *)
Definition check_limits (timeout duration : Z) : option error :=
  if (timeout <? 1000000) || (60000000000 <? timeout) then Some ErrTimeout else
  if (duration <=? 0) || (600000000000 <? duration) then Some ErrDuration else None.

(** The checks of [run] for the client. *)
Definition check_client `{GoPlatform} (local peer tcpPeer sizes scope : list Z)
  (warmup small large rounds timeout duration : Z) : error + clientOptions :=
  match check_limits timeout duration with
  | Some err => inl err
  | None =>
      match parseSizes sizes with
      | inl err => inl err
      | inr parsedSizes =>
          if (warmup <? 0) || (1000 <? warmup) || (small <? 1) || (100000 <? small) ||
             (large <? 1) || (10000 <? large) || (rounds <? 1) || (20 <? rounds)
          then inl ErrLimits else
          if 2000000 <? total_samples small large rounds parsedSizes then inl ErrWorkload else
          inr (mkOptions local peer tcpPeer parsedSizes warmup small large rounds timeout scope)
      end
  end.

(** The addresses [client] parses before it opens anything. *)
Definition check_addresses (options : clientOptions) : error + (Addr * Addr * Addr) :=
  match addr.ParseAddr (Local options) with
  | None => inl ErrLocal
  | Some local =>
      match addr.ParseAddr (Peer options) with
      | None => inl ErrPeer
      | Some peer =>
          match addr.ParseAddrPort (TCPPeer options) with
          | None => inl ErrTCPPeer
          | Some tcpAddr =>
              if negb (Is4 (IP tcpAddr)) || (Port tcpAddr =? 0) || negb (bool_decide (IP tcpAddr = IP peer))
              then inl ErrTCPPeer else
              if bool_decide (local = peer) then inl ErrSameAddress else inr (local, peer, tcpAddr)
          end
      end
  end.

(** ** The persistent TCP connection *)

Section tcp.
Context `{Socket}.

(** [net.Buffers.WriteTo] is one vectored write. *)
Definition writeFrame (payload : list Z) : M conn (option io_error) :=
  let header := be_encode 4 (u32 (len payload)) in
  r ← conn_Write (header ++ payload);
  mret (match r.2 with
        | Some err => Some err
        | None => if negb (r.1 =? len payload + 4) then Some ShortWrite else None
        end).

(** Setting a deadline without looking at the error. *)
Definition set_some_deadline : M conn unit := _ ← conn_SetWriteDeadline; mret ().

(** A frame of the stream, as [serve] and [tcpCall] read it; [serve] sets a
    deadline before the body. *)
Definition read_body (body_deadline : M conn unit) : M conn (io_error + list Z) :=
  header ← ReadFull 4;
  match header with
  | inl err => mret (inl err)
  | inr header =>
      n ← or_panic (Uint32 header 0);
      if (n =? 0) || (MaxMessageSize <? n) then mret (inl InvalidFrame)
      else body_deadline;; ReadFull (Z.to_nat n)
  end.

(** One iteration of a connection's loop in [serve]; false leaves it.  An
    expired deadline is an error of the read or the write. *)
Definition serve_frame : M conn bool :=
  set_some_deadline;;
  got ← read_body set_some_deadline;
  match got with
  | inl _ => mret false
  | inr payload =>
      set_some_deadline;;
      err ← writeFrame payload;
      mret (match err with Some _ => false | None => true end)
  end.

Fixpoint serve_loop (fuel : nat) : M conn unit :=
  match fuel with
  | O => stop OutOfFuel
  | S fuel =>
      more ← serve_frame;
      if (more : bool) then serve_loop fuel else mret ()
  end.

(** Every iteration that goes on has consumed a frame. *)
Definition serve_conn : M conn unit :=
  c ← get;
  serve_loop (S (length (c_in c))).

(** [ctx_err] is [ctx.Err()]. *)
Definition tcpCall (ctx_err : option io_error) (payload : list Z) : M conn (io_error + list Z) :=
  match ctx_err with
  | Some err => mret (inl err)
  | None =>
      err ← conn_SetWriteDeadline;
      match err with
      | Some err => mret (inl err)
      | None =>
          err ← writeFrame payload;
          match err with
          | Some err => mret (inl err)
          | None => read_body (mret ())
          end
      end
  end.
End tcp.

(** ** Percentiles *)

(** The constants .5, .95, .99 and 1. *)
Definition q50 : float64 := S754_finite false 4503599627370496 (-53).
Definition q95 : float64 := S754_finite false 8556839292003942 (-53).
Definition q99 : float64 := S754_finite false 8917127262193582 (-53).
Definition q100 : float64 := S754_finite false 4503599627370496 (-52).

Definition quantile (ordered : list Z) (q : float64) : option float64 :=
  v ← idx ordered (Ceil (fmul q (of_int (len ordered))) - 1);
  Some (fdiv (of_int v) (of_int 1000)).

Definition latencySummary (samples : list Z) : option (float64 * float64 * float64 * float64) :=
  let ordered := merge_sort Z.le samples in
  p50 ← quantile ordered q50;
  p95 ← quantile ordered q95;
  p99 ← quantile ordered q99;
  maximum ← quantile ordered q100;
  Some (p50, p95, p99, maximum).

(** ** Measurements *)

Record measurement := mkMeasurement {
  Round : Z; Order : Z; Transport : string; Bytes : Z; Count : Z; Elapsed : float64;
  PayloadBytes : Z; Goodput : float64; P50 : float64; P95 : float64; P99 : float64; Max : float64;
  Samples : list Z; HomaBefore : option Stats; HomaAfter : option Stats
}.

(** What the outside does, by the number of the call: the result of an exchange
    over a transport, the clock, and the endpoint's statistics. *)
Class Network := {
  exchange : nat → string → list Z → io_error + list Z;
  clock : nat → Z;
  statistics : nat → Stats
}.

Record world := mkWorld { w_calls : nat; w_ticks : nat; w_stats : nat }.

(** [for _, a := range l], with early return of an error. *)
Fixpoint for_range {S A B E} (l : list A) (body : A → B → M S (E + B)) (acc : B) : M S (E + B) :=
  match l with
  | [] => mret (inr acc)
  | a :: l =>
      r ← body a acc;
      match r with
      | inl err => mret (inl err)
      | inr acc => for_range l body acc
      end
  end.

(** [payload[i] = byte((i * 31) ^ (i >> 8) ^ round)]. *)
Definition payload (size round : Z) : list Z :=
  (λ i, u8 (Z.lxor (Z.lxor (i * 31) (Z.shiftr i 8)) round)) <$> seqZ 0 size.

(** [time.Duration] is the saturated difference; [Seconds] a float64. *)
Definition Sub (t u : Z) : Z := Z.max (- 2 ^ 63) (Z.min (2 ^ 63 - 1) (t - u)).

Definition Seconds (d : Z) : float64 :=
  fadd (of_int (Z.quot d 1000000000)) (fdiv (of_int (Z.rem d 1000000000)) (of_int 1000000000)).

Definition transports (round : Z) : list string :=
  if Z.rem round 2 =? 0 then ["tcp"; "homa"]%string else ["homa"; "tcp"]%string.

Section client.
Context `{Network}.

Definition Now : M world Z :=
  w ← get;
  modify (λ w, mkWorld (w_calls w) (S (w_ticks w)) (w_stats w));;
  mret (clock (w_ticks w)).

Definition Exchange (transport : string) (p : list Z) : M world (io_error + list Z) :=
  w ← get;
  modify (λ w, mkWorld (S (w_calls w)) (w_ticks w) (w_stats w));;
  mret (exchange (w_calls w) transport p).

(** [if transport == [homa] { s := h.Stats(); ... }]. *)
Definition HomaStats (transport : string) : M world (option Stats) :=
  if String.eqb transport "homa" then
    w ← get;
    modify (λ w, mkWorld (w_calls w) (w_ticks w) (S (w_stats w)));;
    mret (Some (statistics (w_stats w)))
  else mret None.

(** An unmeasured call. *)
Definition warm_once (transport : string) (p : list Z) (_ : Z) (_ : unit) : M world (error + unit) :=
  reply ← Exchange transport p;
  mret (match reply with
        | inl err => inl (ErrCall err)
        | inr reply => if negb (bool_decide (reply = p)) then inl ErrMismatch else inr ()
        end).

(** A measured call. *)
Definition sample_once (transport : string) (p : list Z) (_ : Z) (samples : list Z)
  : M world (error + list Z) :=
  began ← Now;
  reply ← Exchange transport p;
  ended ← Now;
  mret (match reply with
        | inl err => inl (ErrCall err)
        | inr reply =>
            if negb (bool_decide (reply = p)) then inl ErrMismatch
            else inr (samples ++ [Sub ended began])
        end).

(** The body of the loop over a round's two transports. *)
Definition measure (options : clientOptions) (round size : Z) (entry : nat * string)
  (results : list measurement) : M world (error + list measurement) :=
  let '(position, transport) := entry in
  let p := payload size round in
  let n := samples_for (SmallSamples options) (LargeSamples options) size in
  warm ← for_range (seqZ 0 (Warmup options)) (warm_once transport p) ();
  match warm with
  | inl err => mret (inl err)
  | inr _ =>
      before ← HomaStats transport;
      beganRound ← Now;
      sampled ← for_range (seqZ 0 n) (sample_once transport p) [];
      match sampled with
      | inl err => mret (inl err)
      | inr samples =>
          ended ← Now;
          let elapsed := Seconds (Sub ended beganRound) in
          let payloadBytes := swrap 64 (2 * size * len samples) in
          let goodput := fdiv (fdiv (fmul (of_int payloadBytes) (of_int 8)) elapsed) (of_int 1000000) in
          summary ← or_panic (latencySummary samples);
          let '(p50, p95, p99, maximum) := summary in
          after ← HomaStats transport;
          mret (inr (results ++ [mkMeasurement round (Z.of_nat position + 1) transport size (len samples)
            elapsed payloadBytes goodput p50 p95 p99 maximum samples before after]))
      end
  end.

(** The loops of [client]. *)
Definition client (options : clientOptions) : M world (error + list measurement) :=
  for_range (seqZ 1 (Rounds options)) (λ round,
    for_range (Sizes options) (λ size,
      for_range (imap pair (transports round)) (measure options round size))) [].
End client.
End bench.
