(* ===== verification/BenchFacts.v ===== *)
(** * Theorems about the benchmark

    The sizes it accepts, the percentiles it reports, the TCP echo, and that a
    report is written exactly when every exchange echoed its payload. *)
From Stdlib Require Import SpecFloat.
From stdpp Require Import sorting.
From S2P Require Import Prelude Wire Api Text Net Float64.
From S2P Require Import Bench.

#[local] Open Scope Z_scope.

Module bench_facts.
Import bench.

(** ** Payload sizes *)

Lemma TrimLeft_digits s : Forall is_digit s → TrimLeft s = s.
Proof.
  destruct 1 as [|c s Hc _]; [done|]. cbn [TrimLeft]. unfold is_digit in Hc.
  assert (IsSpace c = false) as ->; [|done]. unfold IsSpace.
  rewrite !orb_false_iff, !andb_false_iff, !Z.eqb_neq, !Z.leb_gt. lia.
Qed.

Lemma TrimSpace_digits s : Forall is_digit s → TrimSpace s = s.
Proof.
  intros Hs. unfold TrimSpace. rewrite (TrimLeft_digits s Hs).
  rewrite TrimLeft_digits by (by apply Forall_reverse). apply reverse_involutive.
Qed.

Lemma Atoi_decimal `{GoPlatform} n : 1 ≤ n ≤ 1000000 → Atoi (TrimSpace (decimal 7 n)) = Some n.
Proof.
  intros Hn. destruct (decimal_digits 6 n) as (Hd&Hf&Hne); [cbn; lia|]. rewrite TrimSpace_digits by done.
  unfold Atoi. destruct (decimal 7 n) as [|c s]; [done|]. apply Forall_cons in Hf as [Hc _]. unfold is_digit in Hc.
  rewrite !(proj2 (Z.eqb_neq _ _)) by lia. cbv beta iota. rewrite Hd. cbn [mbind option_bind].
  rewrite (proj2 (Z.ltb_ge _ _)); [done|]. pose proof maxInt_lower. lia.
Qed.

Fixpoint join (parts : list (list Z)) : list Z :=
  match parts with
  | [] => []
  | [part] => part
  | part :: parts => part ++ 44 :: join parts
  end.

Lemma Split_part part s : Forall is_digit part → Split (part ++ 44 :: s) 44 = part :: Split s 44.
Proof.
  induction 1 as [|c part Hc _ IH]; [done|]. cbn [app Split]. unfold is_digit in Hc.
  by rewrite (proj2 (Z.eqb_neq _ _)), IH by lia.
Qed.

Lemma Split_last part : Forall is_digit part → Split part 44 = [part].
Proof.
  induction 1 as [|c part Hc _ IH]; [done|]. cbn [Split]. unfold is_digit in Hc.
  by rewrite (proj2 (Z.eqb_neq _ _)), IH by lia.
Qed.

Lemma Split_join parts : parts ≠ [] → Forall (Forall is_digit) parts → Split (join parts) 44 = parts.
Proof.
  intros Hne Hf. induction Hf as [|part parts Hp Hf IH]; [done|].
  destruct parts as [|part' parts]; [by apply Split_last|].
  cbn [join]. rewrite Split_part by done. f_equal. by apply IH.
Qed.

Definition sizes_ok (l : list Z) : Prop := NoDup l ∧ Forall (λ n, 1 ≤ n ≤ 1000000) l.

Lemma none_seen (n : Z) : n ∈ (∅ : gset Z) ↔ n ∈ [].
Proof. split; [by intros ?%not_elem_of_empty|by intros ?%not_elem_of_nil]. Qed.

Lemma parse_parts_inv `{GoPlatform} parts seen result l :
  (∀ n, n ∈ seen ↔ n ∈ result) → sizes_ok result → parse_parts parts seen result = inr l →
  sizes_ok l ∧ length l = (length result + length parts)%nat.
Proof.
  revert seen result. induction parts as [|part parts IH]; intros seen result Hseen Hok; cbn [parse_parts].
  { intros [= <-]. split; [done|]. cbn. lia. }
  destruct (Atoi (TrimSpace part)) as [n|]; [|done].
  destruct ((n <? 1) || _ || _) eqn:E; [done|]. rewrite !orb_false_iff, bool_decide_eq_false, !Z.ltb_ge in E.
  destruct E as [[H1 H2] Hn]. unfold MaxMessageSize in H2. intros Hp.
  apply IH in Hp as [Hl Hlen].
  - split; [done|]. rewrite Hlen, length_app. cbn. lia.
  - intros m. rewrite elem_of_union, elem_of_singleton, elem_of_app, list_elem_of_singleton, Hseen. tauto.
  - destruct Hok as [Hnd Hf]. split; [|by apply Forall_app_2; [|apply Forall_singleton]].
    apply NoDup_app. split_and!; [done| |by apply NoDup_singleton]. intros m Hm ->%list_elem_of_singleton.
    by apply Hn, Hseen.
Qed.

Lemma parse_parts_decimal `{GoPlatform} l seen result :
  (∀ n, n ∈ seen ↔ n ∈ result) → sizes_ok (result ++ l) →
  parse_parts (decimal 7 <$> l) seen result = inr (result ++ l).
Proof.
  revert seen result. induction l as [|n l IH]; intros seen result Hseen [Hnd Hf]; [by rewrite app_nil_r|].
  rewrite fmap_cons. cbn [parse_parts]. pose proof Hf as (_&(Hn&_)%Forall_cons)%Forall_app.
  rewrite Atoi_decimal by done.
  assert ((n <? 1) || (MaxMessageSize <? n) || bool_decide (n ∈ seen) = false) as ->.
  { rewrite !orb_false_iff, !Z.ltb_ge, bool_decide_eq_false, Hseen. unfold MaxMessageSize.
    split; [lia|]. apply NoDup_app in Hnd as (_&Hd&_). intros Hin. apply (Hd n Hin). by left. }
  rewrite IH.
  - by rewrite <- app_assoc.
  - intros m. rewrite elem_of_union, elem_of_singleton, elem_of_app, list_elem_of_singleton, Hseen. tauto.
  - rewrite <- app_assoc. by split.
Qed.

Lemma parseSizes_ok `{GoPlatform} s l :
  parseSizes s = inr l → sizes_ok l ∧ (1 ≤ length l ≤ 32)%nat.
Proof.
  unfold parseSizes. destruct (Z.ltb_spec 32 (len (Split s 44))) as [|Hl]; [done|]. intros Hp.
  apply parse_parts_inv in Hp as [Hok Hlen]; [|apply none_seen|by repeat constructor].
  split; [done|]. rewrite Hlen. unfold len in Hl. cbn. split; [|lia].
  clear. destruct s as [|c s]; cbn; [lia|]. destruct (c =? 44); [cbn; lia|]. destruct (Split s 44); cbn; lia.
Qed.

(** The size list is parsed exactly: what [parseSizes] accepts is between one and
    32 distinct sizes between 1 and 1,000,000, and it accepts every such list
    when it is written in decimal with commas. *)
Theorem parse_sizes_exact `{GoPlatform} l :
  (∀ s, parseSizes s = inr l → sizes_ok l ∧ (1 ≤ length l ≤ 32)%nat) ∧
  (sizes_ok l ∧ (1 ≤ length l ≤ 32)%nat → parseSizes (join (decimal 7 <$> l)) = inr l).
Proof.
  split.
  - intros s. apply parseSizes_ok.
  - intros [Hok Hl]. unfold parseSizes. rewrite Split_join.
    + rewrite (proj2 (Z.ltb_ge _ _)) by (unfold len; rewrite length_fmap; lia).
      by apply parse_parts_decimal; [apply none_seen|].
    + destruct l; cbn in *; [lia|done].
    + apply Forall_fmap. destruct Hok as [_ Hf]. eapply Forall_impl; [exact Hf|]. intros n Hn.
      cbv beta in Hn. destruct (decimal_digits 6 n) as (_&?&_); [cbn; lia|done].
Qed.

(** ** Percentiles *)

(** The nearest rank of a percentile among [n] samples: [percent * n / 100]
    rounded up. *)
Definition rank (percent n : Z) : Z := (percent * n + 99) / 100.

Lemma rank_bounds percent n :
  100 * rank percent n - 99 ≤ percent * n ≤ 100 * rank percent n.
Proof.
  unfold rank. pose proof (Z.div_mod (percent * n + 99) 100 ltac:(lia)).
  pose proof (Z.mod_pos_bound (percent * n + 99) 100 eq_refl). lia.
Qed.

Lemma Sorted_lookup_le l i j x y :
  Sorted Z.le l → l !! i = Some x → l !! j = Some y → (i ≤ j)%nat → x ≤ y.
Proof.
  intros Hs%(Sorted_StronglySorted _) Hi Hj Hij. revert i j Hi Hj Hij.
  induction Hs as [|z l Hs IH Hz]; intros i j Hi Hj Hij; [done|].
  destruct i as [|i], j as [|j]; cbn in *; [|..|lia|by apply (IH i j); try lia].
  - injection Hi as ->. injection Hj as ->. lia.
  - injection Hi as ->. by apply (Forall_lookup_1 _ _ _ _ Hz Hj).
Qed.

(** The index the code computes with float64 is the nearest rank. *)
Lemma index_rank q percent n :
  (q, percent) ∈ [(q50, 50); (q95, 95); (q99, 99); (q100, 100)] → 1 ≤ n ≤ 2 ^ 20 →
  Ceil (fmul q (of_int n)) = rank percent n.
Proof.
  intros Hq Hn. pose proof (rank_bounds percent n) as Hr. revert Hr. generalize (rank percent n) as k. intros k Hr.
  rewrite !elem_of_cons in Hq. destruct Hq as [[= -> ->]|[[= -> ->]|[[= -> ->]|[[= -> ->]|[]%elem_of_nil]]]].
  all: apply Ceil_mul; cbn -[Z.mul Z.add Z.sub]; lia.
Qed.

Lemma rank_range percent n : 50 ≤ percent ≤ 100 → 1 ≤ n → 1 ≤ rank percent n ≤ n.
Proof. intros Hp Hn. pose proof (rank_bounds percent n). nia. Qed.

Definition micros (v : Z) : float64 := fdiv (of_int v) (of_int 1000).

Lemma quantile_rank ordered q percent :
  (q, percent) ∈ [(q50, 50); (q95, 95); (q99, 99); (q100, 100)] →
  ordered ≠ [] → len ordered ≤ 2 ^ 20 →
  ∃ v, ordered !! Z.to_nat (rank percent (len ordered) - 1) = Some v ∧ quantile ordered q = Some (micros v).
Proof.
  intros Hq Hne Hl. assert (1 ≤ len ordered ≤ 2 ^ 20) as Hn by (destruct ordered; [done|]; unfold len in *; cbn in *; lia).
  assert (50 ≤ percent ≤ 100) as Hp
    by (rewrite !elem_of_cons in Hq; destruct Hq as [[= _ ->]|[[= _ ->]|[[= _ ->]|[[= _ ->]|[]%elem_of_nil]]]]; lia).
  pose proof (rank_range percent (len ordered) Hp ltac:(lia)) as Hr. unfold quantile.
  rewrite (index_rank q percent _ Hq Hn). destruct (idx_ok ordered (rank percent (len ordered) - 1)) as [v Hv]; [lia|].
  exists v. rewrite Hv. split; [|done]. unfold idx in Hv. by rewrite (proj2 (Z.ltb_ge _ _)) in Hv by lia.
Qed.

Lemma summary_ranks samples :
  samples ≠ [] → (length samples ≤ Z.to_nat 100000)%nat →
  ∃ v50 v95 v99 vmax,
    merge_sort Z.le samples !! Z.to_nat (rank 50 (len samples) - 1) = Some v50 ∧
    merge_sort Z.le samples !! Z.to_nat (rank 95 (len samples) - 1) = Some v95 ∧
    merge_sort Z.le samples !! Z.to_nat (rank 99 (len samples) - 1) = Some v99 ∧
    merge_sort Z.le samples !! Z.to_nat (rank 100 (len samples) - 1) = Some vmax ∧
    latencySummary samples = Some (micros v50, micros v95, micros v99, micros vmax).
Proof.
  intros Hne Hl. unfold latencySummary. pose proof (merge_sort_Permutation Z.le samples) as Hperm.
  assert (len samples = len (merge_sort Z.le samples)) as -> by (unfold len; by rewrite Hperm).
  rewrite <- Hperm in Hl.
  assert (merge_sort Z.le samples ≠ []) as Hne' by (intros E; rewrite E in Hperm; by apply Permutation_nil_l in Hperm).
  revert Hl Hne'. generalize (merge_sort Z.le samples) as ordered. intros ordered Hl Hne'.
  assert (len ordered ≤ 2 ^ 20) as Hn by (unfold len; lia). clear Hl.
  destruct (quantile_rank ordered q50 50) as (v50&H50&->); [by repeat constructor|done|done|].
  destruct (quantile_rank ordered q95 95) as (v95&H95&->); [by repeat constructor|done|done|].
  destruct (quantile_rank ordered q99 99) as (v99&H99&->); [by repeat constructor|done|done|].
  destruct (quantile_rank ordered q100 100) as (vmax&Hmax&->); [by repeat constructor|done|done|].
  by exists v50, v95, v99, vmax.
Qed.

(** C27: the percentiles are exact: for the sample counts the client accepts, the
    float64 index arithmetic selects the nearest-rank percentile of the samples
    in ascending order, and the maximum is the largest sample. *)
Theorem percentiles_nearest_rank samples :
  samples ≠ [] → (length samples ≤ Z.to_nat 100000)%nat →
  ∃ ordered v50 v95 v99 vmax,
    Sorted Z.le ordered ∧ ordered ≡ₚ samples ∧
    ordered !! Z.to_nat (rank 50 (len samples) - 1) = Some v50 ∧
    ordered !! Z.to_nat (rank 95 (len samples) - 1) = Some v95 ∧
    ordered !! Z.to_nat (rank 99 (len samples) - 1) = Some v99 ∧
    vmax ∈ samples ∧ (∀ v, v ∈ samples → v ≤ vmax) ∧
    latencySummary samples = Some (micros v50, micros v95, micros v99, micros vmax).
Proof.
  intros Hne Hl. destruct (summary_ranks samples Hne Hl) as (v50&v95&v99&vmax&H50&H95&H99&Hmax&Hs).
  pose proof (Sorted_merge_sort Z.le samples) as Hsorted. pose proof (merge_sort_Permutation Z.le samples) as Hperm.
  exists (merge_sort Z.le samples), v50, v95, v99, vmax. split_and!; try done.
  - rewrite <- Hperm. by eapply list_elem_of_lookup_2.
  - intros v Hv. rewrite <- Hperm in Hv. apply list_elem_of_lookup in Hv as [i Hi]. apply lookup_lt_Some in Hi as Hlt.
    apply (Sorted_lookup_le _ i (Z.to_nat (rank 100 (len samples) - 1)) v vmax Hsorted Hi Hmax).
    rewrite Hperm in Hlt. unfold rank, len in *. rewrite Z.mul_comm, Z.div_add_l by lia.
    change (99 / 100) with 0. lia.
Qed.

(** ** The TCP echo *)

(** A payload the TCP framing carries. *)
Definition body_ok (p : list Z) : Prop := bytes_ok p ∧ 1 ≤ len p ≤ 1000000.

Section tcp.
Context `{Socket}.

(** The socket takes every write at once. *)
Definition whole : Prop := ∀ n b, write_result n b = (len b, None).

(** A step that leaves the stream alone. *)
Definition quiet (m : M conn unit) : Prop :=
  ∀ Q c, (∀ c', c_in c' = c_in c → c_out c' = c_out c → Q () c') → wp m Q c.

Lemma quiet_deadline : quiet set_some_deadline.
Proof. intros Q c HQ. unfold set_some_deadline, conn_SetWriteDeadline. wp_steps. by apply HQ. Qed.

Lemma quiet_ret : quiet (mret ()).
Proof. intros Q c HQ. wp_step. by apply HQ. Qed.

Lemma wp_writeFrame p c :
  body_ok p →
  wp (writeFrame p) (λ err c', written (encoded p) c err c' ∧ (whole → err = None)) c.
Proof.
  intros [_ Hl]. unfold writeFrame, conn_Write. wp_steps. rewrite u32_id by (unfold is_u32; lia).
  fold (encoded p). assert (len (encoded p) = len p + 4) as El.
  { unfold encoded. rewrite len_app. unfold len at 1. rewrite be_encode_length. lia. }
  pose proof (write_result_ok (c_calls c) (encoded p)) as Hr. split.
  - split; [done|]. cbn [c_out].
    destruct (write_result (c_calls c) (encoded p)) as [k [err|]]; cbn [fst snd] in *; [by eexists|].
    destruct (Z.eqb_spec k (len p + 4)) as [->|]; cbn [negb]; [|by eexists].
    rewrite <- El. unfold len. by rewrite Nat2Z.id, firstn_all.
  - intros Hw. rewrite Hw. cbn [fst snd]. by rewrite El, Z.eqb_refl.
Qed.

(** Reading takes the frame at the start of the stream, if there is one. *)
Lemma wp_read_body m c :
  quiet m → bytes_ok (c_in c) →
  wp (read_body m) (λ r c', c_out c' = c_out c ∧ bytes_ok (c_in c') ∧
    match r with
    | inr p => body_ok p ∧ c_in c = encoded p ++ c_in c'
    | inl _ => ¬ ∃ p rest, body_ok p ∧ c_in c = encoded p ++ rest
    end) c.
Proof.
  intros Hm Hb. unfold read_body. wp_step. unfold ReadFull at 1. wp_steps. cbn [c_in c_out c_calls].
  set (head := take 4 (c_in c)). pose proof (Forall_take _ 4 _ Hb) as Hh. pose proof (Forall_drop _ 4 _ Hb) as Hd.
  assert (∀ p rest, body_ok p → c_in c = encoded p ++ rest →
    head = be_encode 4 (len p) ∧ be_decode head = len p ∧ drop 4 (c_in c) = p ++ rest) as Hframe.
  { intros p rest [_ Hp] E. unfold head. rewrite E. unfold encoded. rewrite <- app_assoc.
    split; [reflexivity|]. split; [|reflexivity]. change (take 4 _) with (be_encode 4 (len p)).
    apply (be_decode_encode 4). unfold is_u32. lia. }
  destruct (Nat.eqb_spec (length head) 4) as [El|Hne]; cycle 1.
  { destruct (Nat.eqb _ _); wp_step; split_and!; try done; intros (p&rest&Hp&E);
      destruct (Hframe p rest Hp E) as (->&_); by rewrite be_encode_length in Hne. }
  wp_step. apply (wp_or_panic _ (be_decode head)).
  { unfold Uint32, bsub. rewrite drop_0, take_ge by lia. by rewrite El. }
  destruct ((be_decode head =? 0) || (MaxMessageSize <? be_decode head)) eqn:Erange.
  { wp_step. split_and!; try done. intros (p&rest&Hp&E). destruct (Hframe p rest Hp E) as (_&Ed&_).
    unfold MaxMessageSize in Erange. destruct Hp as [_ Hp]. bool_to_prop. lia. }
  assert (1 ≤ be_decode head ≤ 1000000) as Hrange.
  { pose proof (be_decode_range head Hh). unfold MaxMessageSize in Erange. bool_to_prop. lia. }
  wp_step. apply Hm. cbn [c_in c_out]. intros c' Hin' Hout'. unfold ReadFull. wp_steps. cbn [c_in c_out c_calls].
  rewrite Hin', Hout'. set (n := Z.to_nat (be_decode head)). split; [done|]. split; [by apply Forall_drop|].
  destruct (Nat.eqb_spec (length (take n (drop 4 (c_in c)))) n) as [En|Hn].
  - assert (len (take n (drop 4 (c_in c))) = be_decode head) as Ef by (unfold len; lia).
    split; [split; [by apply Forall_take|lia]|]. unfold encoded. rewrite Ef, <- El at 1.
    rewrite be_encode_decode by done. unfold head. by rewrite <- app_assoc, !take_drop.
  - assert (¬ ∃ p rest, body_ok p ∧ c_in c = encoded p ++ rest) as Hno.
    { intros (p&rest&Hp&E). destruct (Hframe p rest Hp E) as (_&Ed&Edrop). apply Hn. unfold n.
      rewrite Ed, Edrop. unfold len. by rewrite Nat2Z.id, take_app_length. }
    by destruct (Nat.eqb _ _).
Qed.

(** What a connection's loop did: it read frames and wrote them back, to the
    end if the socket takes every write. *)
Definition echoed (c c' : conn) : Prop :=
  ∃ ms rest, Forall body_ok ms ∧ c_in c = concat (encoded <$> ms) ++ rest ∧
    (∃ k, c_out c' = c_out c ++ take k (concat (encoded <$> ms))) ∧
    (whole → c_out c' = c_out c ++ concat (encoded <$> ms) ∧ ¬ ∃ p rest', body_ok p ∧ rest = encoded p ++ rest').

Lemma wp_serve_frame c :
  bytes_ok (c_in c) →
  wp serve_frame (λ more c', bytes_ok (c_in c') ∧
    if (more : bool) then ∃ p, body_ok p ∧ c_in c = encoded p ++ c_in c' ∧ c_out c' = c_out c ++ encoded p
    else echoed c c') c.
Proof.
  intros Hb. unfold serve_frame. wp_step. apply quiet_deadline. intros c1 Hin1 Hout1. wp_step.
  eapply wp_mono; [apply wp_read_body; [apply quiet_deadline|by rewrite Hin1]|].
  rewrite Hin1, Hout1. intros [err|p] c2 (Hout&Hb2&Hcase).
  { wp_step. split; [done|]. exists [], (c_in c). split_and!; try done.
    - exists 0%nat. by rewrite Hout, app_nil_r.
    - intros _. by rewrite Hout, app_nil_r. }
  destruct Hcase as [Hp Hin]. wp_step. apply quiet_deadline. intros c3 Hin3 Hout3. wp_step.
  eapply wp_mono; [by apply wp_writeFrame|]. intros err c4 [[Hin4 Hout4] Hwhole]. wp_step.
  rewrite Hin4, Hin3. split; [done|]. rewrite Hout3, Hout in Hout4. destruct err as [err|]; [|by exists p].
  exists [p], (c_in c2). cbn. rewrite !app_nil_r. split_and!; [by constructor|done|done|].
  by intros Hw%Hwhole.
Qed.

Lemma wp_serve_loop fuel c :
  bytes_ok (c_in c) → (length (c_in c) < fuel)%nat → wp (serve_loop fuel) (λ _ c', echoed c c') c.
Proof.
  revert c. induction fuel as [|fuel IH]; intros c Hb Hf; [lia|]. cbn [serve_loop]. wp_step.
  eapply wp_mono; [by apply wp_serve_frame|]. intros [] c1 [Hb1 Hcase]; [|by wp_step].
  destruct Hcase as (p&Hp&Hin&Hout).
  assert (length (c_in c1) < fuel)%nat as Hf1.
  { rewrite Hin in Hf. unfold encoded in Hf. rewrite !length_app, be_encode_length in Hf. lia. }
  eapply wp_mono; [by apply IH|]. intros _ c2 (ms&rest&Hms&Hin1&[k Hk]&Hw).
  exists (p :: ms), rest. rewrite fmap_cons. cbn [concat]. split_and!; [by constructor|by rewrite Hin, Hin1, app_assoc| |].
  - exists (length (encoded p) + k)%nat. rewrite Hk, Hout, <- app_assoc. by rewrite take_app_add.
  - intros Hwh. destruct (Hw Hwh) as [Ho ?]. split; [|done]. by rewrite Ho, Hout, <- app_assoc.
Qed.

Lemma wp_serve_conn c : bytes_ok (c_in c) → wp serve_conn (λ _ c', echoed c c') c.
Proof. intros Hb. unfold serve_conn. wp_steps. apply wp_serve_loop; [done|lia]. Qed.

Lemma encoded_inj p q x y : body_ok p → body_ok q → encoded p ++ x = encoded q ++ y → p = q ∧ x = y.
Proof.
  intros [_ Hp] [_ Hq]. unfold encoded. rewrite <- !app_assoc. intros E.
  apply app_inj_1 in E as [Elen E]; [|by rewrite !be_encode_length].
  apply (f_equal be_decode) in Elen. rewrite !(be_decode_encode 4) in Elen by (unfold is_u32; lia).
  apply app_inj_1 in E; [done|]. unfold len in Elen. lia.
Qed.

Lemma frames_unique ps ms rest :
  Forall body_ok ps → Forall body_ok ms → (¬ ∃ p rest', body_ok p ∧ rest = encoded p ++ rest') →
  concat (encoded <$> ps) = concat (encoded <$> ms) ++ rest → ps = ms.
Proof.
  intros Hps Hms Hrest. revert ms Hms. induction Hps as [|p ps Hp Hps IH]; intros ms Hms.
  - destruct Hms as [|q ms Hq Hms]; [done|]. by intros [[[=] _]%app_eq_nil _]%symmetry%app_eq_nil.
  - rewrite fmap_cons. cbn [concat]. destruct Hms as [|q ms Hq Hms].
    + cbn [fmap list_fmap concat app]. intros E. destruct Hrest. by exists p, (concat (encoded <$> ps)).
    + rewrite fmap_cons. cbn [concat]. rewrite <- app_assoc. intros E.
      apply encoded_inj in E as [-> E]; [|done..]. f_equal. by apply IH.
Qed.

(** Calls one after the other on one connection, up to the first error. *)
Definition tcp_calls (ps : list (list Z)) : list (list Z) → M conn (io_error + list (list Z)) :=
  for_range ps (λ p replies,
    r ← tcpCall None p;
    mret (match r with inl err => inl err | inr reply => inr (replies ++ [reply]) end)).

Lemma wp_tcpCall p rest c :
  whole → (∀ n, set_deadline n = None) → body_ok p → bytes_ok (c_in c) → c_in c = encoded p ++ rest →
  wp (tcpCall None p) (λ r c', r = inr p ∧ c_in c' = rest ∧ c_out c' = c_out c ++ encoded p) c.
Proof.
  intros Hw Hd Hp Hb Hin. unfold tcpCall. wp_step. unfold conn_SetWriteDeadline. wp_steps. rewrite Hd. wp_step.
  eapply wp_mono; [by apply wp_writeFrame|]. intros err c1 [[Hin1 Hout1] Hnone]. rewrite (Hnone Hw) in *.
  cbn [c_in c_out] in Hin1, Hout1.
  eapply wp_mono; [apply wp_read_body; [apply quiet_ret|by rewrite Hin1]|].
  rewrite Hin1, Hout1. intros [err'|q] c2 (Hout2&Hb2&Hcase); [destruct Hcase; eauto|].
  destruct Hcase as [Hq Hin2]. rewrite Hin in Hin2. apply encoded_inj in Hin2 as [-> ->]; [|done..]. done.
Qed.

Lemma wp_tcp_calls ps replies c :
  whole → (∀ n, set_deadline n = None) → Forall body_ok ps → bytes_ok (c_in c) →
  c_in c = concat (encoded <$> ps) →
  wp (tcp_calls ps replies) (λ r c', r = inr (replies ++ ps) ∧ c_out c' = c_out c ++ concat (encoded <$> ps)) c.
Proof.
  intros Hw Hd Hps. revert replies c. induction Hps as [|p ps Hp Hps IH]; intros replies c Hb Hin.
  { unfold tcp_calls. cbn [for_range]. wp_step. by rewrite !app_nil_r. }
  rewrite fmap_cons in *. cbn [concat] in *. unfold tcp_calls. cbn [for_range]. do 2 wp_step.
  eapply wp_mono; [by eapply wp_tcpCall|]. intros r c1 (->&Hin1&Hout1). wp_step. cbv beta iota.
  eapply wp_mono; [apply IH; [|done]|].
  - rewrite Hin in Hb. rewrite Hin1. by apply Forall_app in Hb as [_ ?].
  - intros r c2 [-> Hout2]. by rewrite Hout2, Hout1, <- !app_assoc.
Qed.

(** The TCP echo is exact: when the sockets take their writes, the server
    ends and has echoed every frame of a connection, and the client's calls on
    that connection return exactly the payloads they sent, in order. *)
Theorem tcp_echo_exact ps :
  whole → (∀ n, set_deadline n = None) → Forall body_ok ps →
  ∃ server client', serve_conn (mkConn (concat (encoded <$> ps)) [] 0) = inl ((), server) ∧
    tcp_calls ps [] (mkConn (c_out server) [] 0) = inl (inr ps, client') ∧
    c_out client' = concat (encoded <$> ps).
Proof.
  intros Hw Hd Hps. assert (bytes_ok (concat (encoded <$> ps))) as Hb.
  { clear Hw Hd. induction Hps as [|p ps [Hp _] Hps IH]; [by constructor|]. rewrite fmap_cons. cbn [concat].
    apply Forall_app_2; [|done]. by apply Forall_app_2; [apply be_encode_bytes|]. }
  destruct (wp_run _ _ _ (wp_serve_conn (mkConn (concat (encoded <$> ps)) [] 0) Hb))
    as ([]&server&Hserve&ms&rest&Hms&Hin&_&Hout).
  destruct (Hout Hw) as [Ho Hno]. cbn [c_in c_out app] in *. rewrite <- (frames_unique ps ms rest) in Ho by done.
  destruct (wp_run _ _ _ (wp_tcp_calls ps [] (mkConn (c_out server) [] 0) Hw Hd Hps
    ltac:(cbn; by rewrite Ho) Ho)) as (r&c'&Hrun&->&Hc).
  exists server, c'. done.
Qed.
End tcp.

(** ** Measurements *)

(** The exchanges of a measurement, and of a whole run, in order. *)
Definition measure_plan (o : clientOptions) (round size : Z) (entry : nat * string) : list (string * list Z) :=
  replicate (Z.to_nat (Warmup o) + Z.to_nat (samples_for (SmallSamples o) (LargeSamples o) size))
    (entry.2, payload size round).

(** What a measurement says about its place in the run and its volume. *)
Definition place (m : measurement) : Z * Z * string * Z * Z * Z :=
  (Round m, Order m, Transport m, Bytes m, Count m, PayloadBytes m).

Definition measure_place (o : clientOptions) (round size : Z) (entry : nat * string) : Z * Z * string * Z * Z * Z :=
  let n := samples_for (SmallSamples o) (LargeSamples o) size in
  (round, Z.of_nat entry.1 + 1, entry.2, size, n, 2 * size * n).

(** Going through the rounds, sizes and transports. *)
Definition over_run {A} (o : clientOptions) (f : Z → Z → nat * string → list A) : list A :=
  concat ((λ round, concat ((λ size, concat (f round size <$> imap pair (transports round)))
    <$> Sizes o)) <$> seqZ 1 (Rounds o)).

Definition plan (o : clientOptions) : list (string * list Z) := over_run o (measure_plan o).
Definition places (o : clientOptions) : list (Z * Z * string * Z * Z * Z) :=
  over_run o (λ round size entry, [measure_place o round size entry]).

(** The percentiles are those of the samples, one for each counted call. *)
Definition summary_ok (m : measurement) : Prop :=
  Count m = len (Samples m) ∧ latencySummary (Samples m) = Some (P50 m, P95 m, P99 m, Max m).

Definition report_ok (at_ : list (Z * Z * string * Z * Z * Z)) (results : list measurement) : Prop :=
  place <$> results = at_ ∧ Forall summary_ok results.

Section client.
Context `{Network}.

(** The exchanges from number [k] on echo what the plan sends. *)
Definition echoes (k : nat) (P : list (string * list Z)) : Prop :=
  ∀ i t p, P !! i = Some (t, p) → exchange (k + i) t p = inr p.

Lemma echoes_app k P Q : echoes k (P ++ Q) ↔ echoes k P ∧ echoes (k + length P) Q.
Proof.
  split.
  - intros He. split; intros i t p Hi.
    + apply He. by rewrite lookup_app_l by (by eapply lookup_lt_Some).
    + rewrite <- Nat.add_assoc. apply He. rewrite lookup_app_r by lia.
      by replace (length P + i - length P)%nat with i by lia.
  - intros [HP HQ] i t p [Hi|[Hl Hi]]%lookup_app_Some; [by apply HP|].
    replace (k + i)%nat with (k + length P + (i - length P))%nat by lia. by apply HQ.
Qed.

Lemma echoes_one k t p : echoes k [(t, p)] ↔ exchange k t p = inr p.
Proof.
  split; [intros He; rewrite <- (Nat.add_0_r k); by apply He|].
  intros E [|i] t' p' Hi; [|done]. injection Hi as <- <-. by rewrite Nat.add_0_r.
Qed.

(** A piece of the run makes the exchanges [P] and succeeds, with [I] of its
    result, exactly when they all echo. *)
Definition runs {E A} (m : M world (E + A)) (P : list (string * list Z)) (I : A → Prop) : Prop :=
  ∀ w, wp m (λ r w', match r with
    | inr a => I a ∧ echoes (w_calls w) P ∧ w_calls w' = (w_calls w + length P)%nat
    | inl _ => ¬ echoes (w_calls w) P
    end) w.

Lemma runs_for_range {E A B} (l : list A) (body : A → B → M world (E + B)) P (I : list A → B → Prop) done acc :
  (∀ done a acc, a ∈ l → I done acc → runs (body a acc) (P a) (I (done ++ [a]))) → I done acc →
  runs (for_range l body acc) (concat (P <$> l)) (I (done ++ l)).
Proof.
  revert done acc. induction l as [|a l IH]; intros done acc Hbody HI w.
  { cbn [for_range]. wp_step. rewrite app_nil_r. split; [done|]. split; [by intros i t p Hi|]. cbn. lia. }
  rewrite fmap_cons. cbn [for_range concat]. wp_step.
  eapply wp_mono; [apply (Hbody done a acc); [by left|done]|]. intros [err|acc'] w1 Hr.
  { wp_step. by intros [? _]%echoes_app. }
  destruct Hr as (HI'&He&Hw). eapply wp_mono; [apply (IH (done ++ [a]) acc')|].
  - intros done' a' acc'' Ha' ?. apply Hbody; [by right|done].
  - done.
  - intros [err|acc''] w2 Hr; cbv beta iota; rewrite echoes_app, <- Hw; [tauto|].
    destruct Hr as (HI2&He2&Hw2). rewrite <- app_assoc in HI2. rewrite length_app. split; [done|]. split; [done|lia].
Qed.

Lemma concat_one {A B} (x : B) (l : list A) : concat ((λ _, [x]) <$> l) = replicate (length l) x.
Proof. induction l as [|a l IH]; [done|]. rewrite fmap_cons. cbn [concat length replicate app]. by rewrite IH. Qed.

(** The verdict on one exchange: the error of the call, a mismatch, or the
    result. *)
Lemma runs_verdict {E A} t p (failed : io_error → E) (mismatch : E) (a : A) (I : A → Prop) k n :
  I a → n = S k →
  match (match exchange k t p with
         | inl err => inl (failed err)
         | inr reply => if negb (bool_decide (reply = p)) then inl mismatch else inr a
         end) with
  | inr a => I a ∧ echoes k [(t, p)] ∧ n = (k + 1)%nat
  | inl _ => ¬ echoes k [(t, p)]
  end.
Proof.
  intros HI Hw. destruct (exchange k t p) as [err|reply] eqn:Ex; [intros ?%echoes_one; congruence|].
  case_bool_decide as E'; cbn [negb]; [|intros ?%echoes_one; congruence].
  subst. split; [done|]. split; [by apply echoes_one|]. lia.
Qed.

Lemma runs_warm t p i u : runs (warm_once t p i u) [(t, p)] (λ _, True).
Proof. intros w. unfold warm_once, Exchange. wp_steps. by apply (runs_verdict t p ErrCall ErrMismatch () (λ _, True)). Qed.

Lemma runs_sample t p i samples :
  runs (sample_once t p i samples) [(t, p)] (λ samples', length samples' = S (length samples)).
Proof.
  intros w. unfold sample_once, Exchange, Now. wp_steps. cbn [w_calls].
  apply (runs_verdict t p ErrCall ErrMismatch _ (λ l, length l = S (length samples))); [rewrite length_app; cbn; lia|done].
Qed.

Lemma wp_HomaStats t Q w :
  (∀ st w', w_calls w' = w_calls w → Q st w') → wp (HomaStats t) Q w.
Proof. intros HQ. unfold HomaStats. destruct (String.eqb t "homa"); wp_steps; by apply HQ. Qed.

Lemma wp_Now Q w : (∀ t w', w_calls w' = w_calls w → Q t w') → wp Now Q w.
Proof. intros HQ. unfold Now. wp_steps. by apply HQ. Qed.

(** The bounds [run] checks. *)
Definition options_ok (o : clientOptions) : Prop :=
  0 ≤ Warmup o ≤ 1000 ∧ 1 ≤ SmallSamples o ≤ 100000 ∧ 1 ≤ LargeSamples o ≤ 10000 ∧ 1 ≤ Rounds o ≤ 20 ∧
  sizes_ok (Sizes o) ∧ (1 ≤ length (Sizes o) ≤ 32)%nat.

Lemma samples_for_range o size :
  options_ok o → 1 ≤ samples_for (SmallSamples o) (LargeSamples o) size ≤ 100000.
Proof. intros (_&?&?&_). unfold samples_for. destruct (65536 <=? size); lia. Qed.

Lemma swrap64_id z : - 2 ^ 63 ≤ z < 2 ^ 63 → swrap 64 z = z.
Proof. intros Hz. unfold swrap. rewrite Z.mod_small by lia. lia. Qed.

Lemma runs_measure o round size entry at_ results :
  options_ok o → 1 ≤ size ≤ 1000000 → report_ok at_ results →
  runs (measure o round size entry results) (measure_plan o round size entry)
    (report_ok (at_ ++ [measure_place o round size entry])).
Proof.
  intros Ho Hsize [Hplace Hsum] w. destruct entry as [position t]. unfold measure_plan, measure.
  cbn [snd]. set (p := payload size round). pose proof (samples_for_range o size Ho) as Hn.
  unfold measure_place. set (n := samples_for _ _ size) in *. cbv zeta. rewrite replicate_add.
  assert (Z.to_nat (Warmup o) = length (seqZ 0 (Warmup o))) as -> by by rewrite length_seqZ.
  assert (Z.to_nat n = length (seqZ 0 n)) as En by by rewrite length_seqZ.
  rewrite En, <- !(concat_one (t, p)). wp_step.
  eapply wp_mono; [apply (runs_for_range _ _ (λ _, [(t, p)]) (λ _ _, True) []); [intros; apply runs_warm|done]|].
  intros [err|[]] w1 Hr; [wp_step; by intros [? _]%echoes_app|]. destruct Hr as (_&He&Hw1).
  wp_step. apply wp_HomaStats. intros before w2 Hw2. wp_step. apply wp_Now. intros began w3 Hw3. wp_step.
  eapply wp_mono; [apply (runs_for_range _ _ (λ _, [(t, p)]) (λ done samples, length samples = length done) [])|].
  { intros done i samples _ Hl w'. eapply wp_mono; [apply runs_sample|]. intros [err|samples'] w'' Hr; [done|].
    destruct Hr as (Hl'&Hrest). split; [rewrite Hl', length_app; cbn; lia|done]. }
  { done. }
  rewrite Hw3, Hw2, Hw1. intros [err|samples] w4 Hr; [wp_step; by intros [_ ?]%echoes_app|].
  destruct Hr as (Hl&He'&Hw4). cbn [app] in Hl. rewrite <- En in Hl. wp_step. apply wp_Now. intros ended w5 Hw5.
  destruct (summary_ranks samples) as (v50&v95&v99&vmax&_&_&_&_&Hs); [intros ->; cbn in Hl; lia|lia|].
  wp_step. apply (wp_or_panic _ _ _ _ Hs). wp_step. apply wp_HomaStats. intros after w6 Hw6. wp_step.
  assert (len samples = n) as Elen by (unfold len; lia).
  split; [|split; [by apply echoes_app|rewrite Hw6, Hw5, Hw4, length_app; lia]]. split.
  - rewrite fmap_app, Hplace. unfold place. cbn. do 2 f_equal. rewrite Elen, swrap64_id by nia. done.
  - apply Forall_app_2; [done|]. apply Forall_singleton. split; [done|exact Hs].
Qed.

(** The loop over a list with a report that grows by [f]. *)
Lemma runs_report {A} (l : list A) (body : A → list measurement → M world (error + list measurement)) P f at_ results :
  (∀ a at_ results, a ∈ l → report_ok at_ results → runs (body a results) (P a) (report_ok (at_ ++ f a))) →
  report_ok at_ results →
  runs (for_range l body results) (concat (P <$> l)) (report_ok (at_ ++ concat (f <$> l))).
Proof.
  intros Hbody Hr.
  apply (runs_for_range l body P (λ done, report_ok (at_ ++ concat (f <$> done))) [] results).
  - intros done a results' Ha Hr'. rewrite fmap_app, concat_app, app_assoc. cbn [fmap list_fmap concat].
    rewrite app_nil_r. by apply Hbody.
  - by rewrite app_nil_r.
Qed.

Lemma runs_client o :
  options_ok o → runs (client o) (plan o) (report_ok (places o)).
Proof.
  intros Ho. apply (runs_report _ _ _ _ []); [|by split; constructor].
  intros round at1 results1 _ Hr1. apply runs_report; [|done].
  intros size at2 results2 Hsize Hr2. apply runs_report; [|done].
  intros entry at3 results3 _ Hr3. apply runs_measure; [done| |done].
  destruct Ho as (_&_&_&_&[_ Hf]&_). rewrite Forall_forall in Hf. by apply Hf.
Qed.

(** ** The workload *)

Definition zsum : list Z → Z := foldr Z.add 0.

Lemma zsum_app l k : zsum (l ++ k) = zsum l + zsum k.
Proof. induction l as [|x l IH]; cbn; [done|]. fold (zsum (l ++ k)) (zsum l). lia. Qed.

(** The calls a size needs in a round. *)
Definition pair_samples (o : clientOptions) (size : Z) : Z :=
  2 * samples_for (SmallSamples o) (LargeSamples o) size.

Definition counted (p : Z * Z * string * Z * Z * Z) : Z := p.1.2.

Lemma pair_counts o round size :
  zsum (counted <$> concat ((λ entry, [measure_place o round size entry]) <$> imap pair (transports round))) =
  pair_samples o size.
Proof. unfold transports. destruct (Z.rem round 2 =? 0); unfold pair_samples; cbn; lia. Qed.

Lemma places_counts o :
  zsum (counted <$> places o) = Z.of_nat (length (seqZ 1 (Rounds o))) * zsum (pair_samples o <$> Sizes o).
Proof.
  unfold places, over_run. generalize (seqZ 1 (Rounds o)) as rounds.
  induction rounds as [|round rounds IH]; [done|]. rewrite fmap_cons. cbn [concat length].
  rewrite fmap_app, zsum_app, IH. enough (∀ sizes, zsum (counted <$> concat ((λ size, concat
    ((λ entry, [measure_place o round size entry]) <$> imap pair (transports round))) <$> sizes)) =
    zsum (pair_samples o <$> sizes)) as -> by lia.
  induction sizes as [|size sizes IHs]; [done|]. rewrite !fmap_cons. cbn [concat].
  rewrite fmap_app, zsum_app, IHs, pair_counts. done.
Qed.

Lemma total_samples_exact o :
  options_ok o →
  total_samples (SmallSamples o) (LargeSamples o) (Rounds o) (Sizes o) =
  Rounds o * zsum (pair_samples o <$> Sizes o).
Proof.
  intros Ho. pose proof Ho as (_&_&_&Hr&_&Hl). unfold total_samples.
  assert (∀ sizes acc, 0 ≤ acc → acc + len sizes * 4000000 < 2 ^ 62 →
    foldl (λ samples size, swrap 64 (samples + swrap 64 (swrap 64
      (samples_for (SmallSamples o) (LargeSamples o) size * Rounds o) * 2))) acc sizes =
    acc + Rounds o * zsum (pair_samples o <$> sizes)) as Hfold.
  { induction sizes as [|size sizes IH]; intros acc Hacc Hbound; cbn [foldl]; [cbn; lia|].
    pose proof (samples_for_range o size Ho) as Hn. unfold len in *. cbn [length] in Hbound.
    rewrite fmap_cons. cbn [zsum foldr]. fold (zsum (pair_samples o <$> sizes)). unfold pair_samples at 1.
    set (n := samples_for _ _ size) in *. assert (0 ≤ n * Rounds o ≤ 2000000) as Hnr by nia.
    rewrite (swrap64_id (n * _)), (swrap64_id (_ * 2)), swrap64_id by lia. rewrite IH by lia. lia. }
  rewrite Hfold; [lia|lia|]. unfold len. lia.
Qed.

Lemma check_client_ok `{GoPlatform} local peer tcp sizes scope warmup small large rounds timeout duration o :
  check_client local peer tcp sizes scope warmup small large rounds timeout duration = inr o →
  options_ok o ∧ total_samples (SmallSamples o) (LargeSamples o) (Rounds o) (Sizes o) ≤ 2000000.
Proof.
  unfold check_client. destruct (check_limits timeout duration); [done|].
  destruct (parseSizes sizes) as [|l] eqn:Hp; [done|]. destruct (_ || _ || _ || _ || _ || _ || _ || _) eqn:E; [done|].
  destruct (Z.ltb_spec 2000000 (total_samples small large rounds l)); [done|]. intros [= <-]. split; [|done].
  destruct (parseSizes_ok sizes l Hp) as [Hok Hlen]. rewrite !orb_false_iff, !Z.ltb_ge in E.
  unfold options_ok. cbn [Warmup SmallSamples LargeSamples Rounds Sizes]. split_and!; try done; lia.
Qed.

(** A benchmark report is trustworthy: with options [run] accepts, the client
    always comes to an end; it reports results exactly when every exchange of
    the run returned its payload; the results are those of every round, size
    and transport in order, each with the percentiles of its own samples; and
    they count at most 2,000,000 calls. *)
Theorem report_iff_verified `{GoPlatform} local peer tcp sizes scope warmup small large rounds timeout duration o w :
  check_client local peer tcp sizes scope warmup small large rounds timeout duration = inr o →
  ∃ r w', client o w = inl (r, w') ∧
    ((∃ results, r = inr results) ↔ echoes (w_calls w) (plan o)) ∧
    ∀ results, r = inr results →
      place <$> results = places o ∧ Forall summary_ok results ∧
      w_calls w' = (w_calls w + length (plan o))%nat ∧ zsum (Count <$> results) ≤ 2000000.
Proof.
  intros [Ho Htotal]%check_client_ok. destruct (wp_run _ _ _ (runs_client o Ho w)) as (r&w'&Hrun&Hr).
  exists r, w'. split; [done|]. destruct r as [err|results].
  { split; [|done]. split; [by intros []|done]. }
  destruct Hr as ([Hp Hs]&He&Hw). split; [by split; [done|eauto]|]. intros ? [= <-]. split_and!; try done.
  assert (Count <$> results = counted <$> places o) as -> by (rewrite <- Hp, <- list_fmap_compose; done).
  rewrite places_counts, length_seqZ, Z2Nat.id, <- total_samples_exact; [done|done|].
  destruct Ho as (_&_&_&?&_). lia.
Qed.
End client.

(** ** The theorems at concrete inputs *)

Lemma percentiles_nearest_rank_witness :
  latencySummary [30; 10; 20] = Some (micros 20, micros 30, micros 30, micros 30) ∧
  ∃ vmax, vmax ∈ [30; 10; 20] ∧ ∀ v, v ∈ [30; 10; 20] → v ≤ vmax.
Proof.
  split; [vm_compute; reflexivity|].
  destruct (percentiles_nearest_rank [30; 10; 20]) as (_&_&_&_&vmax&_&_&_&_&_&Hin&Hmax&_); [discriminate|cbn; lia|].
  by exists vmax.
Defined.

Lemma tcp_echo_exact_witness :
  ∃ server client', @serve_conn plain_socket (mkConn (concat (encoded <$> [[1; 2]; [3]])) [] 0) = inl ((), server) ∧
    @tcp_calls plain_socket [[1; 2]; [3]] [] (mkConn (c_out server) [] 0) = inl (inr [[1; 2]; [3]], client').
Proof.
  destruct (@tcp_echo_exact plain_socket [[1; 2]; [3]]) as (server&client'&Hs&Hc&_); [done|done| |].
  - repeat constructor; by vm_compute.
  - exists server, client'. exact (conj Hs Hc).
Defined.

(** A network that echoes, and a run of one round with one size. *)
Definition echo_network : Network := {|
  exchange := λ _ _ p, inr p; clock := λ n, 1000 * Z.of_nat n; statistics := λ _, Stats_zero
|}.

Definition sample_options : clientOptions := mkOptions [] [] [] [64] 1 2 1 1 1000000 [].

Lemma report_iff_verified_witness :
  ∃ results w', @client echo_network sample_options (mkWorld 0 0 0) = inl (inr results, w') ∧
    place <$> results = [(1, 1, "homa", 64, 2, 256); (1, 2, "tcp", 64, 2, 256)]%string ∧ w_calls w' = 6%nat.
Proof.
  destruct (@report_iff_verified echo_network amd64 [] [] [] [54; 52] [] 1 2 1 1 1000000 1 sample_options
    (mkWorld 0 0 0)) as (r&w'&Hrun&Hiff&Hres); [vm_compute; reflexivity|].
  assert (∃ results, r = inr results) as [results ->] by (apply Hiff; by intros i t p _).
  exists results, w'. destruct (Hres results eq_refl) as (Hp&_&Hw&_). split; [exact Hrun|].
  rewrite Hp, Hw. split; vm_compute; reflexivity.
Defined.
End bench_facts.
