(* ===== verification/Echo.v ===== *)
(** * The echo tool (src/cmd/homa-echo/main.go) and the VM check's echoes

    The checks of the options, the call loop with its report, the self-test and
    the calls of src/interop/vmcheck/main.go.  Endpoint.Call and the clock are
    those of Bench's Network. *)
From stdpp Require Import sorting.
From S2P Require Import Prelude Wire Api Text Net Float64.
From S2P Require Import Bench.

#[local] Open Scope Z_scope.

Module echo.
Import bench.

Inductive error :=
| ErrBytesOrCount | ErrTimeout | ErrListen | ErrPeer | ErrSameAddress
| ErrCall (completed : Z) (err : io_error) | ErrMismatch.

(** [payload[j] = byte(i*17 + j*31)]. *)
Definition payload (i size : Z) : list Z := (λ j, u8 (i * 17 + j * 31)) <$> seqZ 0 size.

(** ** The call mode *)

(** [var remote homa.Addr]. *)
Definition no_addr : Addr := mkAddr IPNone 0.

(** The checks of [run] before it opens the endpoint, with the addresses it
    parsed; only the call mode has a remote one. *)
Definition check_run (call : bool) (size count timeout : Z) (listen peer : list Z) : error + (Addr * Addr) :=
  if (size <? 1) || (MaxMessageSize <? size) || (count <? 1) || (1000000 <? count) then inl ErrBytesOrCount else
  if (timeout <=? 0) || (60000000000 <? timeout) then inl ErrTimeout else
  match addr.ParseAddr listen with
  | None => inl ErrListen
  | Some local =>
      if negb call then inr (local, no_addr) else
      match addr.ParseAddr peer with
      | None => inl ErrPeer
      | Some remote => if bool_decide (local = remote) then inl ErrSameAddress else inr (local, remote)
      end
  end.

Record report := mkReport {
  Calls : Z; Bytes : Z; Elapsed : float64; Median : float64; Max : float64
}.

(** [float64(d) / float64(time.Microsecond)]. *)
Definition Microseconds (d : Z) : float64 := fdiv (of_int d) (of_int 1000).

Section calls.
Context `{Network}.

(** One iteration of the loop over the calls. *)
Definition call_once (size i : Z) (latencies : list Z) : M world (error + list Z) :=
  let p := payload i size in
  began ← Now;
  reply ← Exchange "homa" p;
  ended ← Now;
  mret (match reply with
        | inl callErr => inl (ErrCall (len latencies) callErr)
        | inr reply =>
            if negb (bool_decide (reply = p)) then inl ErrMismatch
            else inr (latencies ++ [Sub ended began])
        end).

(** The call mode from the first call to the report. *)
Definition call_mode (size count : Z) : M world (error + report) :=
  started ← Now;
  r ← for_range (seqZ 0 count) (call_once size) [];
  match r with
  | inl err => mret (inl err)
  | inr latencies =>
      ended ← Now;
      let ordered := merge_sort Z.le latencies in
      median ← or_panic (idx ordered (Z.quot (len ordered - 1) 2));
      maximum ← or_panic (idx ordered (len ordered - 1));
      mret (inr (mkReport (len ordered) size (Seconds (Sub ended started))
        (Microseconds median) (Microseconds maximum)))
  end.

(** ** The self-test *)

(** The sizes of the self-test and of the VM check. *)
Definition sizes : list Z := [1; 100; 1424; 65535; 65536; 65537; 100000; 1000000].

(** A verified size with its round-trip time. *)
Definition selftest_once (entry : Z * Z) (results : list (Z * float64))
  : M world (error + list (Z * float64)) :=
  let '(i, size) := entry in
  let p := payload i size in
  began ← Now;
  reply ← Exchange "homa" p;
  ended ← Now;
  mret (match reply with
        | inl callErr => inl (ErrCall (len results) callErr)
        | inr reply =>
            if negb (bool_decide (reply = p)) then inl ErrMismatch
            else inr (results ++ [(size, Microseconds (Sub ended began))])
        end).

(** The loop over the sizes, with the seconds it took. *)
Definition selftest_echoes : M world (error + (float64 * list (Z * float64))) :=
  started ← Now;
  r ← for_range (imap (λ i size, (Z.of_nat i, size)) sizes) selftest_once [];
  match r with
  | inl err => mret (inl err)
  | inr results => ended ← Now; mret (inr (Seconds (Sub ended started), results))
  end.

(** ** The VM check *)

(** [b[i] = byte((i * 31) ^ (i >> 8) ^ 0xa5)]. *)
Definition vm_payload (size : Z) : list Z :=
  (λ i, u8 (Z.lxor (Z.lxor (i * 31) (Z.shiftr i 8)) 165)) <$> seqZ 0 size.

Definition vm_once (size : Z) (passed : list Z) : M world (error + list Z) :=
  let p := vm_payload size in
  response ← Exchange "homa" p;
  mret (match response with
        | inl err => inl (ErrCall (len passed) err)
        | inr response =>
            if negb (bool_decide (response = p)) then inl ErrMismatch else inr (passed ++ [size])
        end).

Definition vm_echoes : M world (error + list Z) := for_range sizes vm_once [].
End calls.
End echo.
