(* ===== verification/EchoFacts.v ===== *)
(** * Theorems about the echo tool

    The tools report success exactly when every call returned its payload, and
    the report describes those calls. *)
From stdpp Require Import sorting.
From S2P Require Import Prelude Wire Api Text Net Float64.
From S2P Require Import Bench BenchFacts Echo.

#[local] Open Scope Z_scope.

Module echo_facts.
Import bench bench_facts echo.

(** The calls of the modes, in order. *)
Definition call_plan (size count : Z) : list (string * list Z) :=
  concat ((λ i, [("homa"%string, payload i size)]) <$> seqZ 0 count).

Definition selftest_plan : list (string * list Z) :=
  concat ((λ entry : Z * Z, [("homa"%string, payload entry.1 entry.2)]) <$>
    imap (λ i size, (Z.of_nat i, size)) sizes).

Definition vm_plan : list (string * list Z) := concat ((λ size, [("homa"%string, vm_payload size)]) <$> sizes).

Lemma length_call_plan size count : length (call_plan size count) = Z.to_nat count.
Proof.
  unfold call_plan. rewrite <- (length_seqZ 0 count). induction (seqZ 0 count) as [|i l IH]; [done|].
  rewrite fmap_cons. cbn [concat length app]. by rewrite IH.
Qed.

Section calls.
Context `{Network}.

Lemma runs_call size i latencies :
  runs (call_once size i latencies) [("homa"%string, payload i size)]
    (λ latencies', length latencies' = S (length latencies)).
Proof.
  intros w. unfold call_once, Exchange, Now. wp_steps. cbn [w_calls].
  apply (runs_verdict _ _ _ _ _ (λ l, length l = S (length latencies))); [rewrite length_app; cbn; lia|done].
Qed.

Lemma runs_selftest entry results :
  runs (selftest_once entry results) [("homa"%string, payload entry.1 entry.2)]
    (λ results', results'.*1 = results.*1 ++ [entry.2]).
Proof.
  destruct entry as [i size]. intros w. unfold selftest_once, Exchange, Now. wp_steps. cbn [w_calls fst snd].
  apply (runs_verdict _ _ _ _ _ (λ l : list (Z * float64), l.*1 = results.*1 ++ [size])); [by rewrite fmap_app|done].
Qed.

Lemma runs_vm size passed :
  runs (vm_once size passed) [("homa"%string, vm_payload size)] (λ passed', passed' = passed ++ [size]).
Proof.
  intros w. unfold vm_once, Exchange. wp_steps. by apply (runs_verdict _ _ _ _ _ (λ l, l = passed ++ [size])).
Qed.

Lemma runs_vm_echoes : runs vm_echoes vm_plan (λ passed, passed = sizes).
Proof.
  apply (runs_for_range sizes vm_once (λ size, [("homa"%string, vm_payload size)]) (λ done passed, passed = done) []); [|done].
  intros done size passed _ ->. apply runs_vm.
Qed.

Lemma runs_selftest_echoes : runs selftest_echoes selftest_plan (λ r, r.2.*1 = sizes).
Proof.
  intros w. unfold selftest_echoes. wp_step. apply wp_Now. intros began w' <-. wp_step.
  eapply wp_mono; [apply (runs_for_range (imap (λ i size, (Z.of_nat i, size)) sizes) selftest_once
    (λ entry : Z * Z, [("homa"%string, payload entry.1 entry.2)]) (λ done results, results.*1 = done.*2) [])|].
  - intros done entry results _ Hr w1. eapply wp_mono; [apply runs_selftest|].
    intros [err|results'] w2 Hres; [done|]. destruct Hres as [Hfst Hrest]. split; [|done].
    by rewrite Hfst, Hr, fmap_app.
  - done.
  - intros [err|results] w1 Hres; [by wp_step|]. wp_step. apply wp_Now. intros ended w2 Hw. wp_step.
    by rewrite Hw.
Qed.

(** The round-trip times of [n] calls from clock reading [tick] on. *)
Definition roundtrips (tick n : nat) : list Z :=
  (λ i, Sub (clock (tick + 2 * i + 1)) (clock (tick + 2 * i))) <$> seq 0 n.

Lemma roundtrips_S tick n :
  roundtrips tick (S n) = Sub (clock (S tick)) (clock tick) :: roundtrips (tick + 2) n.
Proof.
  unfold roundtrips. rewrite <- cons_seq, fmap_cons, <- fmap_S_seq, <- list_fmap_compose. f_equal.
  - f_equal; f_equal; lia.
  - apply list_fmap_ext. intros _ i _. cbn [compose]. f_equal; f_equal; lia.
Qed.

Lemma wp_latencies size (l : list Z) latencies w :
  wp (for_range l (call_once size) latencies)
    (λ r _, ∀ latencies', r = inr latencies' → latencies' = latencies ++ roundtrips (w_ticks w) (length l)) w.
Proof.
  revert latencies w. induction l as [|i l IH]; intros latencies w; cbn [for_range].
  { wp_step. intros latencies' [= <-]. by rewrite app_nil_r. }
  wp_step. unfold call_once at 1, Exchange, Now. cbv zeta. wp_steps. cbn [w_ticks w_calls w_stats].
  destruct (exchange (w_calls w) "homa"%string (payload i size)) as [err|reply]; [by wp_step|]. case_bool_decide; cbn [negb]; [|by wp_step].
  eapply wp_mono; [apply IH|]. intros r w' Hr latencies' E. rewrite (Hr latencies' E).
  cbn [length w_ticks]. rewrite roundtrips_S, <- app_assoc. do 3 f_equal. cbn. f_equal. lia.
Qed.

(** What the report of [count] calls says. *)
Definition report_of (size count : Z) (tick : nat) (rep : report) : Prop :=
  Calls rep = count ∧ Bytes rep = size ∧
  ∃ ordered median maximum, Sorted Z.le ordered ∧ ordered ≡ₚ roundtrips tick (Z.to_nat count) ∧
    ordered !! Z.to_nat ((count - 1) / 2) = Some median ∧ last ordered = Some maximum ∧
    Median rep = Microseconds median ∧ Max rep = Microseconds maximum.

Lemma wp_call_mode size count w :
  1 ≤ count →
  wp (call_mode size count) (λ r w', match r with
    | inl _ => ¬ echoes (w_calls w) (call_plan size count)
    | inr rep => echoes (w_calls w) (call_plan size count) ∧ report_of size count (S (w_ticks w)) rep ∧
        w_calls w' = (w_calls w + Z.to_nat count)%nat
    end) w.
Proof.
  intros Hc. unfold call_mode. wp_step. unfold Now at 1. wp_steps.
  set (w1 := mkWorld _ _ _). change (w_calls w) with (w_calls w1).
  pose proof (wp_latencies size (seqZ 0 count) [] w1) as Hlat. eapply wp_assume; [exact Hlat|]. clear Hlat.
  eapply wp_mono; [apply (runs_for_range _ _ (λ i, [("homa"%string, payload i size)])
    (λ done latencies, length latencies = length done) [])|].
  { intros done i latencies _ Hl w'. eapply wp_mono; [apply runs_call|]. intros [err|latencies'] w2 Hr; [done|].
    destruct Hr as [Hl' Hr]. split; [rewrite Hl', Hl, length_app; cbn; lia|done]. }
  { done. }
  intros [err|latencies] w2 Hr Hlat; [by wp_step|]. destruct Hr as (Hl&He&Hw). cbn [app] in Hl.
  specialize (Hlat latencies eq_refl). cbn [app] in Hlat. rewrite length_seqZ in Hl, Hlat. wp_step. apply wp_Now. intros ended w3 Hw3. cbv zeta.
  pose proof (Sorted_merge_sort Z.le latencies) as Hs. pose proof (merge_sort_Permutation Z.le latencies) as Hp.
  pose proof (Permutation_length Hp) as Hpl. rewrite Hl in Hpl. rewrite Hlat in Hp at 2.
  revert Hs Hp Hpl. generalize (merge_sort Z.le latencies) as ordered.
  intros ordered Hs Hp Hpl. assert (len ordered = count) as Elen by (unfold len; lia). rewrite Elen.
  rewrite Z.quot_div_nonneg by lia. assert (0 ≤ (count - 1) / 2 < count) as Hm.
  { split; [apply Z.div_pos; lia|apply Z.div_lt_upper_bound; lia]. }
  destruct (idx_ok ordered ((count - 1) / 2)) as [median Hmed]; [lia|].
  destruct (idx_ok ordered (count - 1)) as [maximum Hmax]; [lia|].
  wp_step. apply (wp_or_panic _ _ _ _ Hmed). wp_step. apply (wp_or_panic _ _ _ _ Hmax). wp_step.
  unfold idx in Hmed, Hmax. rewrite (proj2 (Z.ltb_ge _ _)) in Hmed by lia.
  rewrite (proj2 (Z.ltb_ge _ _)) in Hmax by lia.
  split; [done|]. split; [|rewrite Hw3, Hw; f_equal; apply length_call_plan].
  split; [done|]. split; [done|]. exists ordered, median, maximum. split_and!; try done.
  rewrite last_lookup, Hpl. replace (pred (Z.to_nat count)) with (Z.to_nat (count - 1)) by lia. exact Hmax.
Qed.

(** An echo report is trustworthy: with options [run] accepts, the call mode
    always ends; it reports exactly when every call returned its payload; and
    the report counts every call and gives the lower median and the maximum of
    the round-trip times. *)
Theorem echo_report_verified size count timeout listen peer local remote w :
  check_run true size count timeout listen peer = inr (local, remote) →
  local ≠ remote ∧
  ∃ r w', call_mode size count w = inl (r, w') ∧
    ((∃ rep, r = inr rep) ↔ echoes (w_calls w) (call_plan size count)) ∧
    ∀ rep, r = inr rep → Calls rep = count ∧ Bytes rep = size ∧ w_calls w' = (w_calls w + Z.to_nat count)%nat ∧
      ∃ ordered median maximum,
        Sorted Z.le ordered ∧ ordered ≡ₚ roundtrips (S (w_ticks w)) (Z.to_nat count) ∧
        ordered !! Z.to_nat ((count - 1) / 2) = Some median ∧ last ordered = Some maximum ∧
        Median rep = Microseconds median ∧ Max rep = Microseconds maximum.
Proof.
  intros Hc. assert (local ≠ remote ∧ 1 ≤ count) as [Hne Hcount].
  { unfold check_run in Hc. destruct (_ || _ || _ || _) eqn:E; [done|]. destruct (_ || _) in Hc; [done|].
    destruct (addr.ParseAddr listen); [|done]. cbn [negb] in Hc. destruct (addr.ParseAddr peer); [|done].
    case_bool_decide; [done|]. injection Hc as <- <-. split; [done|]. bool_to_prop. lia. }
  split; [done|].
  cut (wp (call_mode size count) (λ r w', match r with
    | inl _ => ¬ echoes (w_calls w) (call_plan size count)
    | inr rep => echoes (w_calls w) (call_plan size count) ∧ report_of size count (S (w_ticks w)) rep ∧
        w_calls w' = (w_calls w + Z.to_nat count)%nat
    end) w).
  - intros (r&w'&Hrun&Hr)%wp_run. exists r, w'. split; [done|]. destruct r as [err|rep].
    { split; [|done]. split; [by intros []|done]. }
    destruct Hr as (He&(Hcalls&Hbytes&Hrep)&Hw). split; [by split; eauto|]. by intros ? [= <-].
  - by apply wp_call_mode.
Qed.
End calls.

(** Three calls on a network that echoes. *)
Lemma echo_report_verified_witness :
  ∃ rep w', @call_mode echo_network 8 3 (mkWorld 0 0 0) = inl (inr rep, w') ∧ Calls rep = 3 ∧ w_calls w' = 3%nat.
Proof.
  set (host := IPv4 2130706433). set (text := addr.String (λ _, [])).
  destruct (@echo_report_verified echo_network 8 3 5000000000 (text (mkAddr host 4001)) (text (mkAddr host 4000))
    (mkAddr host 4001) (mkAddr host 4000) (mkWorld 0 0 0)) as (_&r&w'&Hrun&Hiff&Hrep); [vm_compute; reflexivity|].
  assert (∃ rep, r = inr rep) as [rep ->] by (apply Hiff; by intros i t p _).
  exists rep, w'. destruct (Hrep rep eq_refl) as (Hc&_&Hw&_). exact (conj Hrun (conj Hc Hw)).
Defined.
End echo_facts.
