(* ===== verification/Process.v ===== *)
(** * Processes

    What the commands do with the operating system: open and close sockets,
    connections, files and programs, read the clock and sleep, write files and
    the standard output.  What each system call answers is a parameter, by the
    number of the call.  A path or a text is the list of its bytes. *)
From S2P Require Import Prelude Wire Api Net Text Json.
From S2P Require Import EndpointState Endpoint RawIP RawIPFacts Bench.

#[local] Open Scope Z_scope.

Module process.

(** ** State *)

Record file := mkFile { f_data : list Z; f_mode : Z }.

(** [p_calls] counts the system calls and [p_next] is the number of the next
    handle; [p_open] are the open sockets, connections, files and programs, and
    [p_endpoints] the open endpoints, whose raw sockets [p_raw] counts.
    [p_world] is the network the endpoints and connections talk to. *)
Record process := mkProcess {
  p_calls : nat; p_time : Z; p_next : nat; p_open : gset nat; p_endpoints : gset nat;
  p_files : gmap (list Z) file; p_out : list Z; p_raw : rawip.host; p_world : bench.world
}.

(** The operating system's choices: the error of a call, how much a failing write
    wrote, the name of a temporary file, how long a call takes, whether the
    process has been told to stop, and whether it ever is.  A temporary file gets a name that is not in
    use, and time does not go backwards. *)
Class OS := {
  os_fails : nat → option io_error;
  os_written : nat → nat;
  os_temp : nat → list Z → gmap (list Z) file → list Z;
  os_temp_fresh : ∀ n path files, files !! os_temp n path files = None;
  os_delay : nat → Z;
  os_delay_ok : ∀ n, 0 ≤ os_delay n;
  os_done : nat → bool;
  os_stops : bool;
  os_random : nat → error + list Z
}.

(** What QEMU has written to its console by each system call. *)
Class Console := { console : nat → list (list Z) }.

(** A name that no file has and that is not [path]. *)
Definition fresh_path (path : list Z) (files : gmap (list Z) file) : list Z := fresh ({[ path ]} ∪ dom files).

Lemma fresh_path_new path files : files !! fresh_path path files = None.
Proof.
  apply not_elem_of_dom_1. intros Hin. apply (is_fresh ({[ path ]} ∪ dom files)), elem_of_union. by right.
Qed.

Lemma fresh_path_other path files : fresh_path path files ≠ path.
Proof.
  intros E. apply (is_fresh ({[ path ]} ∪ dom files)), elem_of_union. left. by apply elem_of_singleton.
Qed.

(** A system that grants every call at once. *)
Definition plain_os : OS := {|
  os_fails := λ _, None; os_written := λ _, 0%nat;
  os_temp := λ _, fresh_path; os_temp_fresh := λ _, fresh_path_new;
  os_delay := λ _, 0; os_delay_ok := λ _, Z.le_refl 0; os_done := λ _, false; os_stops := true;
  os_random := λ _, inr (replicate 8 1)
|}.

Definition ENOENT : io_error := Errno 2.
Definition EEXIST : io_error := Errno 17.

(** ** Computations on a part of the state *)

Definition zoom {S T A} (part : T → S) (put : S → T → T) (m : M S A) : M T A := λ t,
  match m (part t) with
  | inl (a, s) => inl (a, put s t)
  | inr f => inr f
  end.

Lemma wp_zoom {S T A} (part : T → S) (put : S → T → T) (m : M S A) Q t :
  wp m (λ a s, Q a (put s t)) (part t) → wp (zoom part put m) Q t.
Proof. unfold wp, zoom. by destruct (m (part t)) as [[a s]|f]. Qed.

Lemma or_panic_Some {S A B} (a : A) (f : A → M S B) : (or_panic (Some a) ≫= f) = f a.
Proof. reflexivity. Qed.

Definition set_raw (h : rawip.host) (p : process) : process :=
  mkProcess (p_calls p) (p_time p) (p_next p) (p_open p) (p_endpoints p) (p_files p) (p_out p) h (p_world p).
Definition set_world (w : bench.world) (p : process) : process :=
  mkProcess (p_calls p) (p_time p) (p_next p) (p_open p) (p_endpoints p) (p_files p) (p_out p) (p_raw p) w.
Definition set_files (files : gmap (list Z) file) (p : process) : process :=
  mkProcess (p_calls p) (p_time p) (p_next p) (p_open p) (p_endpoints p) files (p_out p) (p_raw p) (p_world p).
Definition set_out (out : list Z) (p : process) : process :=
  mkProcess (p_calls p) (p_time p) (p_next p) (p_open p) (p_endpoints p) (p_files p) out (p_raw p) (p_world p).
Definition set_open (open endpoints : gset nat) (p : process) : process :=
  mkProcess (p_calls p) (p_time p) (p_next p) open endpoints (p_files p) (p_out p) (p_raw p) (p_world p).
Definition tick (d : Z) (p : process) : process :=
  mkProcess (S (p_calls p)) (p_time p + d) (p_next p) (p_open p) (p_endpoints p) (p_files p) (p_out p)
    (p_raw p) (p_world p).
Definition grow (p : process) : process :=
  mkProcess (p_calls p) (p_time p) (S (p_next p)) (p_open p) (p_endpoints p) (p_files p) (p_out p)
    (p_raw p) (p_world p).

Definition on_raw {A} : M rawip.host A → M process A := zoom p_raw set_raw.
Definition on_network {A} : M bench.world A → M process A := zoom p_world set_world.

(** [defer cleanup] before the rest of a function. *)
Definition deferred {A} (cleanup : M process unit) (body : M process A) : M process A :=
  r ← body;
  cleanup;;
  mret r.

(** The same with a function that sees the result. *)
Definition deferred_with {A} (cleanup : A → M process unit) (body : M process A) : M process A :=
  r ← body;
  cleanup r;;
  mret r.

(** ** System calls *)

Section calls.
Context `{OS}.

(** A system call that takes at least [d] nanoseconds: its number. *)
Definition syscall_for (d : Z) : M process nat :=
  p ← get;
  modify (tick (d + os_delay (p_calls p)));;
  mret (p_calls p).

Definition syscall : M process nat := syscall_for 0.

(** A call that may fail. *)
Definition attempt : M process (option io_error) :=
  n ← syscall;
  mret (os_fails n).

(** [time.Now()] and [time.Sleep(d)]. *)
Definition Now : M process Z :=
  _ ← syscall;
  p ← get;
  mret (p_time p).

Definition Sleep (d : Z) : M process unit := _ ← syscall_for d; mret ().

(** [ctx.Err() != nil], and the function that [context.AfterFunc] runs when the
    context is done: by this call it has run, or the context is not done. *)
Definition ctx_done : M process bool := n ← syscall; mret (os_done n).

Definition after_func (f : M process unit) : M process unit :=
  fired ← ctx_done;
  if (fired : bool) then f else mret ().

(** [<-ctx.Done()]. *)
Definition wait_done : M process unit := if os_stops then mret () else stop Deadlock.

(** *** Handles *)

(** Opening a socket, a connection, a file or a program. *)
Definition acquire : M process (io_error + nat) :=
  err ← attempt;
  match err with
  | Some err => mret (inl err)
  | None =>
      p ← get;
      modify (λ p, grow (set_open ({[ p_next p ]} ∪ p_open p) (p_endpoints p) p));;
      mret (inr (p_next p))
  end.

(** Closing it; closing it again does nothing. *)
Definition release (h : nat) : M process unit :=
  modify (λ p, set_open (p_open p ∖ {[ h ]}) (p_endpoints p) p).

(** [homa.Listen] and [Endpoint.Close]. *)
Definition Listen `{RawSocket} (local : Addr) (cfg : Config) (handler : bool)
  : M process ((io_error + error) + nat) :=
  n ← syscall;
  r ← on_raw (rawip.Listen local cfg handler (os_random n));
  match r with
  | inl err => mret (inl err)
  | inr _ =>
      p ← get;
      modify (λ p, grow (set_open (p_open p) ({[ p_next p ]} ∪ p_endpoints p) p));;
      mret (inr (p_next p))
  end.

Definition Close (h : nat) : M process unit :=
  p ← get;
  if bool_decide (h ∈ p_endpoints p) then
    on_raw rawip.close;;
    modify (λ p, set_open (p_open p) (p_endpoints p ∖ {[ h ]}) p)
  else mret ().

(** *** Files *)

Definition put_file (path : list Z) (f : file) : M process unit :=
  modify (λ p, set_files (<[path := f]> (p_files p)) p).

(** [os.CreateTemp(filepath.Dir(path), pattern)]: the open file and its name. *)
Definition CreateTemp (path : list Z) : M process (io_error + (nat * list Z)) :=
  n ← syscall;
  r ← acquire;
  match r with
  | inl err => mret (inl err)
  | inr h =>
      p ← get;
      let name := os_temp n path (p_files p) in
      put_file name (mkFile [] 384);;
      mret (inr (h, name))
  end.

(** [os.OpenFile(path, O_WRONLY|O_CREATE|O_EXCL, 0600)]. *)
Definition CreateExclusive (path : list Z) : M process (io_error + nat) :=
  p ← get;
  match p_files p !! path with
  | Some _ => mret (inl EEXIST)
  | None =>
      r ← acquire;
      match r with
      | inl err => mret (inl err)
      | inr h => put_file path (mkFile [] 384);; mret (inr h)
      end
  end.

(** [file.Write(data)] at the end of a file that is still there; a write that
    fails may have written a part. *)
Definition append_file (path data : list Z) : M process (option io_error) :=
  n ← syscall;
  let err := os_fails n in
  modify (λ p, match p_files p !! path with
    | None => p
    | Some f => set_files (<[path := mkFile (f_data f ++ match err with
        | Some _ => take (os_written n) data | None => data end) (f_mode f)]> (p_files p)) p
    end);;
  mret err.

Definition Chmod (path : list Z) (mode : Z) : M process (option io_error) :=
  err ← attempt;
  match err with
  | Some err => mret (Some err)
  | None =>
      modify (λ p, match p_files p !! path with
        | None => p
        | Some f => set_files (<[path := mkFile (f_data f) mode]> (p_files p)) p
        end);;
      mret None
  end.

(** [file.Close()]: the file is closed even when an error is reported. *)
Definition CloseFile (h : nat) : M process (option io_error) :=
  err ← attempt;
  release h;;
  mret err.

Definition Remove (path : list Z) : M process (option io_error) :=
  err ← attempt;
  match err with
  | Some err => mret (Some err)
  | None =>
      p ← get;
      match p_files p !! path with
      | None => mret (Some ENOENT)
      | Some _ => modify (λ p, set_files (delete path (p_files p)) p);; mret None
      end
  end.

Definition Rename (from path : list Z) : M process (option io_error) :=
  err ← attempt;
  match err with
  | Some err => mret (Some err)
  | None =>
      p ← get;
      match p_files p !! from with
      | None => mret (Some ENOENT)
      | Some f => modify (λ p, set_files (<[path := f]> (delete from (p_files p))) p);; mret None
      end
  end.

(** [os.WriteFile(path, data, mode)]. *)
Definition WriteFile (path data : list Z) (mode : Z) : M process (option io_error) :=
  r ← acquire;
  match r with
  | inl err => mret (Some err)
  | inr h =>
      p ← get;
      put_file path (mkFile [] (match p_files p !! path with Some f => f_mode f | None => mode end));;
      err ← append_file path data;
      closed ← CloseFile h;
      mret (match err with Some err => Some err | None => closed end)
  end.

(** Writing to the standard output. *)
Definition write_out (data : list Z) : M process (option io_error) :=
  n ← syscall;
  let err := os_fails n in
  modify (λ p, set_out (p_out p ++ match err with
    | Some _ => take (os_written n) data | None => data end) p);;
  mret err.

(** The encoder of a report, with its errors. *)
Inductive encode_error := Unsupported | WriteFailed (err : io_error).

Definition Encode `{json.FloatText} (write : list Z → M process (option io_error)) (v : json.value)
  : M process (option encode_error) :=
  match json.MarshalIndent v with
  | None => mret (Some Unsupported)
  | Some s =>
      err ← write (s ++ [10]);
      mret (WriteFailed <$> err)
  end.
End calls.

(** ** Resources *)

(** Open handles have numbers that were given out. *)
Definition process_ok (p : process) : Prop :=
  ∀ h, h ∈ p_open p ∨ h ∈ p_endpoints p → (h < p_next p)%nat.

(** From [p] to [p'] only the handles in [H] and the endpoints in [K] may have
    changed: all others that were opened are closed again, and the raw sockets
    are those of the endpoints. *)
Record settled (H K : gset nat) (p p' : process) : Prop := {
  st_ok : process_ok p';
  st_open : p_open p' ∖ H = p_open p ∖ H;
  st_endpoints : p_endpoints p' ∖ K = p_endpoints p ∖ K;
  st_sockets : rawip.s_open (p_raw p') - Z.of_nat (size (p_endpoints p')) =
    rawip.s_open (p_raw p) - Z.of_nat (size (p_endpoints p))
}.

(** A computation always returns, and settles up to [H] and [K]. *)
Definition owns {A} (H K : gset nat) (m : M process A) : Prop :=
  ∀ p, process_ok p → wp m (λ _ p', settled H K p p') p.

(** Moreover it leaves the handle, or the endpoint, closed. *)
Definition closes {A} (H K : gset nat) (h : nat) (m : M process A) : Prop :=
  ∀ p, process_ok p → wp m (λ _ p', settled ({[ h ]} ∪ H) K p p' ∧ h ∉ p_open p') p.

Definition shuts {A} (H K : gset nat) (h : nat) (m : M process A) : Prop :=
  ∀ p, process_ok p → wp m (λ _ p', settled H ({[ h ]} ∪ K) p p' ∧ h ∉ p_endpoints p') p.

(** Nothing is open afterwards that was not before, and nothing closed. *)
Definition balanced (p p' : process) : Prop :=
  p_open p' = p_open p ∧ p_endpoints p' = p_endpoints p ∧
  rawip.s_open (p_raw p') = rawip.s_open (p_raw p).

(** A process at its start. *)
Definition start_process : process :=
  mkProcess 0 0 0 ∅ ∅ ∅ [] (rawip.mkHost [] 0 [] 0 0) (bench.mkWorld 0 0 0).

Lemma start_process_ok : process_ok start_process.
Proof. intros h [?%not_elem_of_empty|?%not_elem_of_empty]; done. Qed.

Section owns.
Context {os : OS}.
Implicit Types H K : gset nat.

Lemma settled_refl H K p : process_ok p → settled H K p p.
Proof. by split. Qed.

Lemma settled_trans H K p q r : settled H K p q → settled H K q r → settled H K p r.
Proof. intros [] []. split; [done|congruence..]. Qed.

Lemma settled_balanced p p' : settled ∅ ∅ p p' → balanced p p'.
Proof.
  intros [_ Ho He Hs]. rewrite !difference_empty_L in Ho, He. split_and!; [done|done|]. rewrite He in Hs. lia.
Qed.

(** Steps that do not touch the handles. *)
Lemma settled_same H K p p' :
  process_ok p → p_next p' = p_next p → p_open p' = p_open p → p_endpoints p' = p_endpoints p →
  rawip.s_open (p_raw p') = rawip.s_open (p_raw p) → settled H K p p'.
Proof. intros Hok Hn Ho He Hs. split; [|congruence..]. intros h. rewrite Ho, He, Hn. apply Hok. Qed.

Lemma difference_weaken (X Y H H' : gset nat) : H ⊆ H' → X ∖ H = Y ∖ H → X ∖ H' = Y ∖ H'.
Proof.
  intros Hsub HXY. apply set_eq. intros k. assert (k ∈ X ∖ H ↔ k ∈ Y ∖ H) as Hk by (by rewrite HXY).
  rewrite !elem_of_difference in *. specialize (Hsub k). tauto.
Qed.

Lemma settled_weaken H K H' K' p p' : H ⊆ H' → K ⊆ K' → settled H K p p' → settled H' K' p p'.
Proof. intros HH HK []. split; eauto using difference_weaken. Qed.

Lemma owns_weaken {A} H K H' K' (m : M process A) : H ⊆ H' → K ⊆ K' → owns H K m → owns H' K' m.
Proof. intros HH HK Hm p Hok. eapply wp_mono; [by apply Hm|]. intros a q. by apply settled_weaken. Qed.

Lemma owns_ret {A} H K (a : A) : owns H K (mret a).
Proof. intros p Hok. wp_step. by apply settled_refl. Qed.

Lemma owns_bind {A B} H K (m : M process A) (f : A → M process B) :
  owns H K m → (∀ a, owns H K (f a)) → owns H K (m ≫= f).
Proof.
  intros Hm Hf p Hok. wp_step. eapply wp_mono; [by apply Hm|]. intros a q Hq. cbn beta in *.
  eapply wp_mono; [apply Hf, Hq|]. intros b r Hr. by eapply settled_trans.
Qed.

Lemma owns_or_panic {A B} H K (o : option A) a (f : A → M process B) :
  o = Some a → owns H K (f a) → owns H K (or_panic o ≫= f).
Proof. intros -> Hf. apply Hf. Qed.

Lemma owns_get H K : owns H K (get : M process process).
Proof. intros p Hok. wp_step. by apply settled_refl. Qed.

Lemma owns_modify H K f :
  (∀ p, p_next (f p) = p_next p ∧ p_open (f p) = p_open p ∧ p_endpoints (f p) = p_endpoints p ∧
     rawip.s_open (p_raw (f p)) = rawip.s_open (p_raw p)) →
  owns H K (modify f).
Proof. intros Hf p Hok. wp_step. destruct (Hf p) as (?&?&?&?). by apply settled_same. Qed.

Lemma owns_deferred {A} H K cleanup (body : M process A) :
  owns H K body → owns H K cleanup → owns H K (deferred cleanup body).
Proof. intros Hb Hc. apply owns_bind; [done|]. intros a. apply owns_bind; [done|]. intros _. apply owns_ret. Qed.

Lemma owns_network {A} H K (m : M bench.world A) :
  (∀ w, wp m (λ _ _, True) w) → owns H K (on_network m).
Proof. intros Hm p Hok. apply wp_zoom. eapply wp_mono; [apply Hm|]. intros a w _. by apply settled_same. Qed.

Lemma owns_syscall_for H K d : owns H K (syscall_for d).
Proof.
  unfold syscall_for. apply owns_bind; [apply owns_get|]. intros p. apply owns_bind; [|intros; apply owns_ret].
  by apply owns_modify.
Qed.

Lemma owns_attempt H K : owns H K attempt.
Proof. apply owns_bind; [apply owns_syscall_for|]. intros n. apply owns_ret. Qed.

(** *** Closing *)

(** A handle that is owned does not matter. *)
Lemma without_owned (X H : gset nat) h : h ∈ H → X ∖ {[ h ]} ∖ H = X ∖ H.
Proof.
  intros Hh. apply set_eq. intros k. rewrite !elem_of_difference, elem_of_singleton.
  split; [by intros [[]]|]. intros [Hk HkH]. split; [|done]. split; [done|]. by intros ->.
Qed.

Lemma closes_release H K h : closes H K h (release h).
Proof.
  intros p Hok. unfold release. wp_step. cbn. split; [|by intros [_ []%not_elem_of_singleton]%elem_of_difference].
  split; cbn; [|apply without_owned, elem_of_union_l, elem_of_singleton_2; done|done|done].
  intros k [[]%elem_of_difference|]; apply Hok; auto.
Qed.

Lemma shuts_Close H K h : shuts H K h (Close h).
Proof.
  intros p Hok. unfold Close. do 2 wp_step. case_bool_decide as Hin; [|wp_step; split; [by apply settled_refl|done]].
  wp_step. apply wp_zoom. unfold rawip.close. wp_steps. cbn.
  split; [|by intros [_ []%not_elem_of_singleton]%elem_of_difference].
  split; cbn; [|done|apply without_owned, elem_of_union_l, elem_of_singleton_2; done|].
  - intros k [|[]%elem_of_difference]; apply Hok; auto.
  - rewrite size_difference, size_singleton by (by intros k ->%elem_of_singleton).
    assert (size (p_endpoints p) ≠ 0%nat); [|lia]. intros E%size_empty_inv. by apply (E h) in Hin.
Qed.

Lemma owned_union (H : gset nat) h : h ∈ H → {[ h ]} ∪ H = H.
Proof. intros Hh. apply subseteq_union_1_L. by apply singleton_subseteq_l. Qed.

Lemma closes_owns {A} H K h (m : M process A) : h ∈ H → closes H K h m → owns H K m.
Proof. intros Hh Hm p Hok. eapply wp_mono; [by apply Hm|]. intros a q [Hq _]. by rewrite owned_union in Hq. Qed.

Lemma shuts_owns {A} H K h (m : M process A) : h ∈ K → shuts H K h m → owns H K m.
Proof. intros Hh Hm p Hok. eapply wp_mono; [by apply Hm|]. intros a q [Hq _]. by rewrite owned_union in Hq. Qed.

Lemma closes_bind {A B} H K h (m : M process A) (f : A → M process B) :
  owns ({[ h ]} ∪ H) K m → (∀ a, closes H K h (f a)) → closes H K h (m ≫= f).
Proof.
  intros Hm Hf p Hok. wp_step. eapply wp_mono; [by apply Hm|]. intros a q Hq. cbn beta in *.
  eapply wp_mono; [apply Hf, Hq|]. intros b r [Hr Hh]. split; [by eapply settled_trans|done].
Qed.

Lemma shuts_bind {A B} H K h (m : M process A) (f : A → M process B) :
  owns H ({[ h ]} ∪ K) m → (∀ a, shuts H K h (f a)) → shuts H K h (m ≫= f).
Proof.
  intros Hm Hf p Hok. wp_step. eapply wp_mono; [by apply Hm|]. intros a q Hq. cbn beta in *.
  eapply wp_mono; [apply Hf, Hq|]. intros b r [Hr Hh]. split; [by eapply settled_trans|done].
Qed.

Lemma closes_then {A B} H K h (m : M process A) (f : A → M process B) :
  closes H K h m → (∀ a, owns ∅ ∅ (f a)) → closes H K h (m ≫= f).
Proof.
  intros Hm Hf p Hok. wp_step. eapply wp_mono; [by apply Hm|]. intros a q [Hq Hh]. cbn beta in *.
  eapply wp_mono; [apply Hf, Hq|]. intros b r Hr. split; [|by destruct (settled_balanced q r Hr) as (->&_)].
  apply (settled_trans _ _ p q r Hq), (settled_weaken ∅ ∅ _ _ q r); [apply empty_subseteq..|done].
Qed.

Lemma closes_deferred {A} H K h cleanup (body : M process A) :
  owns ({[ h ]} ∪ H) K body → closes H K h cleanup → closes H K h (deferred cleanup body).
Proof.
  intros Hb Hc. apply closes_bind; [done|]. intros a. apply closes_then; [done|]. intros _. apply owns_ret.
Qed.

(** The body closes the handle, and the deferred function does not matter. *)
Lemma closes_deferred_body {A} H K h cleanup (body : M process A) :
  closes H K h body → owns ∅ ∅ cleanup → closes H K h (deferred cleanup body).
Proof.
  intros Hb Hc. apply closes_then; [done|]. intros a. apply owns_bind; [done|]. intros _. apply owns_ret.
Qed.

Lemma closes_deferred_with {A} H K h cleanup (body : M process A) :
  owns ({[ h ]} ∪ H) K body → (∀ a, closes H K h (cleanup a)) → closes H K h (deferred_with cleanup body).
Proof.
  intros Hb Hc. apply closes_bind; [done|]. intros a. apply closes_then; [done|]. intros _. apply owns_ret.
Qed.

Lemma shuts_deferred {A} H K h cleanup (body : M process A) :
  owns H ({[ h ]} ∪ K) body → shuts H K h cleanup → shuts H K h (deferred cleanup body).
Proof.
  intros Hb Hc. apply shuts_bind; [done|]. intros a p Hok. wp_step.
  eapply wp_mono; [by apply Hc|]. intros [] q Hq. by wp_step.
Qed.

(** *** Opening *)

Lemma fresh_handle p : process_ok p → (p_next p ∉ p_open p) ∧ (p_next p ∉ p_endpoints p).
Proof. intros Hok. split; intros Hin; (assert (p_next p < p_next p)%nat; [apply Hok; auto|lia]). Qed.

Lemma closed_again (X Y Z H : gset nat) n :
  (∀ k, k ≠ n → (k ∈ Y ↔ k ∈ X)) → Z ∖ ({[ n ]} ∪ H) = Y ∖ ({[ n ]} ∪ H) → n ∉ X → n ∉ Z → Z ∖ H = X ∖ H.
Proof.
  intros HY HZ HnX HnZ. apply set_eq. intros k.
  assert (k ∈ Z ∖ ({[ n ]} ∪ H) ↔ k ∈ Y ∖ ({[ n ]} ∪ H)) as Hk by (by rewrite HZ).
  rewrite !elem_of_difference, !elem_of_union, !elem_of_singleton in Hk. rewrite !elem_of_difference.
  specialize (HY k). destruct (decide (k = n)) as [->|]; tauto.
Qed.

(** Using a new handle that is closed in the end. *)
Lemma owns_acquire {A} H K (f : io_error + nat → M process A) :
  (∀ err, owns H K (f (inl err))) → (∀ h, closes H K h (f (inr h))) → owns H K (acquire ≫= f).
Proof.
  intros Herr Hf p Hok. wp_step. unfold acquire, attempt, syscall, syscall_for. wp_steps.
  destruct (os_fails (p_calls p)) as [err|].
  - wp_step. eapply wp_mono; [apply Herr; exact Hok|]. intros a q Hq. refine (settled_trans _ _ _ _ _ _ Hq). by apply settled_same.
  - wp_steps. set (q := grow _). assert (process_ok q) as Hq.
    { intros k. cbn. rewrite elem_of_union, elem_of_singleton. intros [[->|Hk]|Hk]; [lia| |];
        (apply Nat.lt_lt_succ_r, Hok; auto). }
    eapply wp_mono; [apply (Hf _ q Hq)|]. intros a r [[Hrok Hro Hre Hrs] Hfresh]. destruct (fresh_handle p Hok).
    split; [done| |done|done]. apply (closed_again _ (p_open q) _ _ (p_next p)); try done.
    intros k Hk. cbn. rewrite elem_of_union, elem_of_singleton. tauto.
Qed.

Lemma owns_Listen {raw : RawSocket} {A} H K local cfg handler (f : (io_error + error) + nat → M process A) :
  (∀ err, owns H K (f (inl err))) → (∀ h, shuts H K h (f (inr h))) → owns H K (Listen local cfg handler ≫= f).
Proof.
  intros Herr Hf p Hok. wp_step. unfold Listen, syscall, syscall_for. wp_steps. apply wp_zoom.
  eapply wp_mono; [apply rawip_facts.wp_Listen|]. intros r h (_&_&Hr&_). destruct r as [err|e].
  - wp_step. eapply wp_mono; [apply Herr; exact Hok|]. intros a q Hq. refine (settled_trans _ _ _ _ _ _ Hq). by apply settled_same.
  - destruct Hr as [Hr _]. wp_steps. set (q := grow _). assert (process_ok q) as Hq.
    { intros k. cbn. rewrite elem_of_union, elem_of_singleton. intros [Hk|[->|Hk]]; [|lia|];
        (apply Nat.lt_lt_succ_r, Hok; auto). }
    eapply wp_mono; [apply (Hf _ q Hq)|]. intros a r [[Hrok Hro Hre Hrs] Hfresh]. destruct (fresh_handle p Hok).
    split; [done|done| |].
    + apply (closed_again _ (p_endpoints q) _ _ (p_next p)); try done.
      intros k Hk. cbn. rewrite elem_of_union, elem_of_singleton. tauto.
    + rewrite Hrs. cbn in *. rewrite Hr, size_union, size_singleton by (by apply disjoint_singleton_l). lia.
Qed.

(** *** Files and output *)

Lemma owns_put_file H K path f : owns H K (put_file path f).
Proof. by apply owns_modify. Qed.

Lemma owns_append_file H K path data : owns H K (append_file path data).
Proof.
  apply owns_bind; [apply owns_syscall_for|]. intros n. apply owns_bind; [|intros; apply owns_ret].
  apply owns_modify. intros p. by destruct (p_files p !! path).
Qed.

Lemma owns_Chmod H K path mode : owns H K (Chmod path mode).
Proof.
  apply owns_bind; [apply owns_attempt|]. intros [err|]; [apply owns_ret|].
  apply owns_bind; [|intros; apply owns_ret]. apply owns_modify. intros p. by destruct (p_files p !! path).
Qed.

Lemma owns_Remove H K path : owns H K (Remove path).
Proof.
  apply owns_bind; [apply owns_attempt|]. intros [err|]; [apply owns_ret|]. apply owns_bind; [apply owns_get|].
  intros p. destruct (p_files p !! path); [|apply owns_ret]. apply owns_bind; [by apply owns_modify|intros; apply owns_ret].
Qed.

Lemma owns_Rename H K from path : owns H K (Rename from path).
Proof.
  apply owns_bind; [apply owns_attempt|]. intros [err|]; [apply owns_ret|]. apply owns_bind; [apply owns_get|].
  intros p. destruct (p_files p !! from); [|apply owns_ret]. apply owns_bind; [by apply owns_modify|intros; apply owns_ret].
Qed.

(** Creating a file that is closed in the end. *)
Lemma owns_CreateExclusive {A} H K path (f : io_error + nat → M process A) :
  (∀ err, owns H K (f (inl err))) → (∀ h, closes H K h (f (inr h))) → owns H K (CreateExclusive path ≫= f).
Proof.
  intros Herr Hf. set (g := λ r : io_error + nat, match r with
    | inl err => f (inl err) | inr h => put_file path (mkFile [] 384);; f (inr h) end).
  assert (owns H K (acquire ≫= g)) as Hg.
  { apply owns_acquire; [done|]. intros h. apply closes_bind; [apply owns_put_file|]. by intros _. }
  intros p Hok. wp_step. unfold CreateExclusive. do 2 wp_step.
  destruct (p_files p !! path); [wp_step; by apply Herr|]. wp_step.
  specialize (Hg p Hok). apply wp_bind_inv in Hg. eapply wp_mono; [exact Hg|].
  intros [err|h] q Hq; cbn beta iota in *; [by wp_step|]. apply wp_bind_inv in Hq. wp_step.
  eapply wp_mono; [exact Hq|]. intros [] r Hr. by wp_step.
Qed.

Lemma owns_CreateTemp {A} H K path (f : io_error + (nat * list Z) → M process A) :
  (∀ err, owns H K (f (inl err))) → (∀ h name, closes H K h (f (inr (h, name)))) → owns H K (CreateTemp path ≫= f).
Proof.
  intros Herr Hf. set (g := λ n (r : io_error + nat), match r with
    | inl err => f (inl err)
    | inr h => p ← get; put_file (os_temp n path (p_files p)) (mkFile [] 384);;
        f (inr (h, os_temp n path (p_files p)))
    end).
  assert (owns H K (n ← syscall; acquire ≫= g n)) as Hg.
  { apply owns_bind; [apply owns_syscall_for|]. intros n. apply owns_acquire; [done|]. intros h.
    apply closes_bind; [apply owns_get|]. intros p. apply closes_bind; [apply owns_put_file|]. by intros _. }
  intros p Hok. wp_step. unfold CreateTemp. wp_step. specialize (Hg p Hok). apply wp_bind_inv in Hg.
  eapply wp_mono; [exact Hg|]. intros n q Hq. cbn beta in Hq. apply wp_bind_inv in Hq. wp_step.
  eapply wp_mono; [exact Hq|]. intros [err|h] r Hr; cbn beta iota in *; [by wp_step|].
  apply wp_bind_inv in Hr. do 2 wp_step. unfold wp at 1, get at 1 in Hr. apply wp_bind_inv in Hr. wp_step.
  eapply wp_mono; [exact Hr|]. intros [] s Hs. by wp_step.
Qed.

Lemma owns_write_out H K data : owns H K (write_out data).
Proof.
  apply owns_bind; [apply owns_syscall_for|]. intros n. apply owns_bind; [by apply owns_modify|intros; apply owns_ret].
Qed.

Lemma closes_CloseFile H K h : closes H K h (CloseFile h).
Proof.
  apply closes_bind; [apply owns_attempt|]. intros err. apply closes_then; [apply closes_release|]. intros _. apply owns_ret.
Qed.

Lemma owns_Now H K : owns H K Now.
Proof.
  apply owns_bind; [apply owns_syscall_for|]. intros _. apply owns_bind; [apply owns_get|]. intros p. apply owns_ret.
Qed.

Lemma owns_Sleep H K d : owns H K (Sleep d).
Proof. apply owns_bind; [apply owns_syscall_for|]. intros n. apply owns_ret. Qed.

Lemma owns_ctx_done H K : owns H K ctx_done.
Proof. apply owns_bind; [apply owns_syscall_for|]. intros n. apply owns_ret. Qed.

Lemma owns_after_func H K f : owns H K f → owns H K (after_func f).
Proof. intros Hf. apply owns_bind; [apply owns_ctx_done|]. intros [|]; [done|apply owns_ret]. Qed.

Lemma owns_wait_done H K : os_stops = true → owns H K wait_done.
Proof. intros E. unfold wait_done. rewrite E. apply owns_ret. Qed.

Lemma owns_Encode `{json.FloatText} H' K write v : (∀ s, owns H' K (write s)) → owns H' K (Encode write v).
Proof.
  intros Hw. unfold Encode. destruct (json.MarshalIndent v); [|apply owns_ret].
  apply owns_bind; [apply Hw|]. intros err. apply owns_ret.
Qed.

Lemma owns_run {A} (m : M process A) p :
  owns ∅ ∅ m → process_ok p → ∃ r p', m p = inl (r, p') ∧ balanced p p'.
Proof. intros Hm Hok. apply wp_run. eapply wp_mono; [by apply Hm|]. intros a q. apply settled_balanced. Qed.

(** *** What opening and closing leaves alone *)

Record same_view (p p' : process) : Prop := {
  sv_out : p_out p' = p_out p;
  sv_world : p_world p' = p_world p;
  sv_files : p_files p' = p_files p;
  sv_time : p_time p ≤ p_time p';
  sv_calls : (p_calls p ≤ p_calls p')%nat
}.

Lemma same_view_trans p q r : same_view p q → same_view q r → same_view p r.
Proof. intros [] []. split; [congruence..|lia|lia]. Qed.

Lemma same_view_refl p : same_view p p.
Proof. by split. Qed.

Definition hidden {A} (m : M process A) : Prop := ∀ p, wp m (λ _ p', same_view p p') p.

Lemma same_view_tick d p : 0 ≤ d → same_view p (tick (d + os_delay (p_calls p)) p).
Proof. intros Hd. pose proof (os_delay_ok (p_calls p)). split; cbn; try done; lia. Qed.

Lemma hidden_ret {A} (a : A) : hidden (mret a).
Proof. intros p. wp_step. apply same_view_refl. Qed.

Lemma hidden_modify f : (∀ p, same_view p (f p)) → hidden (modify f).
Proof. intros Hf p. wp_step. apply Hf. Qed.

Lemma hidden_bind {A B} (m : M process A) (f : A → M process B) :
  hidden m → (∀ a, hidden (f a)) → hidden (m ≫= f).
Proof.
  intros Hm Hf p. wp_step. eapply wp_mono; [apply Hm|]. intros a q Hq. cbn beta in *.
  eapply wp_mono; [apply Hf|]. intros b r Hr. by apply (same_view_trans p q r).
Qed.

Lemma hidden_get : hidden (get : M process process).
Proof. intros p. wp_step. apply same_view_refl. Qed.

Lemma hidden_syscall_for d : 0 ≤ d → hidden (syscall_for d).
Proof. intros Hd p. unfold syscall_for. wp_steps. by apply same_view_tick. Qed.

Lemma hidden_syscall : hidden syscall.
Proof. by apply hidden_syscall_for. Qed.

Lemma hidden_attempt : hidden attempt.
Proof. apply hidden_bind; [apply hidden_syscall|]. intros n. apply hidden_ret. Qed.

Lemma hidden_acquire : hidden acquire.
Proof.
  apply hidden_bind; [apply hidden_attempt|]. intros [err|]; [apply hidden_ret|]. apply hidden_bind; [apply hidden_get|].
  intros p. apply hidden_bind; [|intros _; apply hidden_ret]. by apply hidden_modify.
Qed.

Lemma hidden_release h : hidden (release h).
Proof. by apply hidden_modify. Qed.

Lemma hidden_Listen {raw : RawSocket} local cfg handler : hidden (Listen local cfg handler).
Proof.
  apply hidden_bind; [apply hidden_syscall|]. intros n. apply hidden_bind.
  - intros p. apply wp_zoom. eapply wp_mono; [apply rawip_facts.wp_Listen|]. by intros r h _.
  - intros [err|e]; [apply hidden_ret|]. apply hidden_bind; [apply hidden_get|].
    intros p. apply hidden_bind; [|intros _; apply hidden_ret]. by apply hidden_modify.
Qed.

Lemma hidden_Close h : hidden (Close h).
Proof.
  intros p. unfold Close. do 2 wp_step. case_bool_decide; [|wp_step; apply same_view_refl]. wp_step. apply wp_zoom.
  unfold rawip.close. by wp_steps.
Qed.

Lemma hidden_ctx_done : hidden ctx_done.
Proof. apply hidden_bind; [apply hidden_syscall|]. intros n. apply hidden_ret. Qed.

Lemma hidden_Now : hidden Now.
Proof.
  apply hidden_bind; [apply hidden_syscall|]. intros _. apply hidden_bind; [apply hidden_get|]. intros p. apply hidden_ret.
Qed.

Lemma hidden_after_func f : hidden f → hidden (after_func f).
Proof. intros Hf. apply hidden_bind; [apply hidden_ctx_done|]. intros [|]; [done|apply hidden_ret]. Qed.

(** A step of the function under a deferred one. *)
Lemma wp_deferred_by {A} (R : process → process → Prop) cleanup (body : M process A) (Q : A → process → Prop) p :
  (∀ a q r, Q a q → R q r → Q a r) → (∀ q, wp cleanup (λ _ r, R q r) q) → wp body Q p → wp (deferred cleanup body) Q p.
Proof.
  intros HQ Hc Hb. unfold deferred. wp_step. eapply wp_mono; [exact Hb|]. intros a q Hq. cbn beta in *.
  wp_step. eapply wp_mono; [apply Hc|]. intros [] r Hr. wp_step. by apply (HQ a q r).
Qed.

Lemma wp_deferred {A} cleanup (body : M process A) (Q : A → process → Prop) p :
  (∀ a q r, Q a q → same_view q r → Q a r) → hidden cleanup → wp body Q p → wp (deferred cleanup body) Q p.
Proof. apply wp_deferred_by. Qed.

Lemma wp_hidden {A B} (m : M process A) (f : A → M process B) Q p :
  hidden m → (∀ a q, same_view p q → wp (f a) Q q) → wp (m ≫= f) Q p.
Proof. intros Hm Hf. wp_step. eapply wp_mono; [apply Hm|]. intros a q Hq. by apply Hf. Qed.

(** *** Computations that do not touch the handles *)

(** Whenever it returns. *)
Definition steady {A} (m : M process A) : Prop :=
  ∀ p a q, m p = inl (a, q) →
    p_next q = p_next p ∧ p_open q = p_open p ∧ p_endpoints q = p_endpoints p ∧ p_raw q = p_raw p.

Lemma steady_ret {A} (a : A) : steady (mret a).
Proof. by intros p b q [= _ <-]. Qed.

Lemma steady_stop {A} f : steady (stop f : M process A).
Proof. done. Qed.

Lemma steady_bind {A B} (m : M process A) (f : A → M process B) :
  steady m → (∀ a, steady (f a)) → steady (m ≫= f).
Proof.
  intros Hm Hf p b r. unfold mbind, M_bind. destruct (m p) as [[a q]|] eqn:E; [|done]. intros Hr.
  destruct (Hm p a q E) as (?&?&?&?), (Hf a q b r Hr) as (?&?&?&?). split_and!; congruence.
Qed.

Lemma steady_syscall_for d : steady (syscall_for d).
Proof. by intros p n q [= _ <-]. Qed.

Lemma steady_get : steady (get : M process process).
Proof. by intros p a q [= _ <-]. Qed.

Lemma owns_steady {A} H K (m : M process A) : steady m → (∀ p, wp m (λ _ _, True) p) → owns H K m.
Proof.
  intros Hm Htotal p Hok. destruct (wp_run _ _ _ (Htotal p)) as (a&q&E&_). unfold wp. rewrite E.
  destruct (Hm p a q E) as (?&?&?&Hraw). apply settled_same; try done. by rewrite Hraw.
Qed.

(** *** Time and calls only go forward *)

Definition later (p q : process) : Prop := p_time p ≤ p_time q ∧ (p_calls p ≤ p_calls q)%nat.

Lemma later_trans p q r : later p q → later q r → later p r.
Proof. unfold later. lia. Qed.

Lemma later_view p q : same_view p q → later p q.
Proof. by intros []. Qed.

Definition forward {A} (m : M process A) : Prop := ∀ p, wp m (λ _ q, later p q) p.

Lemma forward_hidden {A} (m : M process A) : hidden m → forward m.
Proof. intros Hm p. eapply wp_mono; [apply Hm|]. intros a q. apply later_view. Qed.

Lemma forward_bind {A B} (m : M process A) (f : A → M process B) :
  forward m → (∀ a, forward (f a)) → forward (m ≫= f).
Proof.
  intros Hm Hf p. wp_step. eapply wp_mono; [apply Hm|]. intros a q Hq. cbn beta in *.
  eapply wp_mono; [apply Hf|]. intros b r Hr. by apply (later_trans p q r).
Qed.

Lemma forward_modify f : (∀ p, later p (f p)) → forward (modify f).
Proof. intros Hf p. wp_step. apply Hf. Qed.

Lemma forward_append_file path data : forward (append_file path data).
Proof.
  apply forward_bind; [apply forward_hidden, hidden_syscall|]. intros n.
  apply forward_bind; [|intros _; apply forward_hidden, hidden_ret].
  apply forward_modify. intros p. by destruct (p_files p !! path).
Qed.

Lemma forward_WriteFile path data mode : forward (WriteFile path data mode).
Proof.
  apply forward_bind; [apply forward_hidden, hidden_acquire|]. intros [err|h]; [apply forward_hidden, hidden_ret|].
  apply forward_bind; [apply forward_hidden, hidden_get|]. intros p.
  apply forward_bind; [by apply forward_modify|]. intros _. apply forward_bind; [apply forward_append_file|]. intros err.
  apply forward_bind; [|intros; apply forward_hidden, hidden_ret].
  apply forward_hidden, hidden_bind; [apply hidden_attempt|]. intros ?. apply hidden_bind; [apply hidden_release|].
  intros _. apply hidden_ret.
Qed.
End owns.

Create HintDb owns.
#[export] Hint Resolve owns_ret owns_get owns_attempt owns_put_file owns_append_file owns_Chmod owns_Remove
  owns_Rename owns_write_out owns_Now owns_Sleep owns_ctx_done owns_syscall_for : owns.

(** Walks through a computation: what it opens must be closed again. *)
Ltac owns_step :=
  match goal with
  | |- owns _ _ (mbind _ acquire) => apply owns_acquire; [intros ?|intros ?]
  | |- owns _ _ (mbind _ (CreateExclusive _)) => apply owns_CreateExclusive; [intros ?|intros ?]
  | |- owns _ _ (mbind _ (CreateTemp _)) => apply owns_CreateTemp; [intros ?|intros ? ?]
  | |- owns _ _ (mbind _ (Listen _ _ _)) => apply owns_Listen; [intros ?|intros ?]
  | |- owns _ _ (mbind _ _) => apply owns_bind; [|intros ?]
  | |- owns _ _ (deferred _ _) => apply owns_deferred
  | |- owns _ _ (after_func _) => apply owns_after_func
  | |- owns _ _ (release ?h) => apply (closes_owns _ _ h); [set_solver|]
  | |- owns _ _ (CloseFile ?h) => apply (closes_owns _ _ h); [set_solver|]
  | |- owns _ _ (Close ?h) => apply (shuts_owns _ _ h); [set_solver|]
  | |- owns _ _ (match ?x with _ => _ end) => destruct x
  | |- owns _ _ _ => solve [eauto with owns]
  | |- closes _ _ ?h (release ?h) => apply closes_release
  | |- closes _ _ ?h (CloseFile ?h) => apply closes_CloseFile
  | |- closes _ _ _ (deferred _ _) => apply closes_deferred
  | |- closes _ _ _ (deferred_with _ _) => apply closes_deferred_with; [|intros ?]
  | |- closes _ _ _ (match ?x with _ => _ end) => destruct x
  | |- shuts _ _ ?h (Close ?h) => apply shuts_Close
  | |- shuts _ _ _ (deferred _ _) => apply shuts_deferred
  | |- shuts _ _ _ (match ?x with _ => _ end) => destruct x
  end.
Ltac owns_auto := repeat (owns_step; cbv beta iota).

Lemma owns_WriteFile `{OS} K K' path data mode : owns K K' (WriteFile path data mode).
Proof.
  unfold WriteFile. owns_auto. apply closes_bind; [owns_auto|]. intros p. apply closes_bind; [owns_auto|]. intros _.
  apply closes_bind; [owns_auto|]. intros err. apply closes_then; [owns_auto|]. intros closed. apply owns_ret.
Qed.
End process.
