(* ===== verification/EchoRun.v ===== *)
(** * The echo tool as a process (run and selftest of src/cmd/homa-echo/main.go)

    From the command line to the report on the standard output: the flags, the
    checks, the endpoints with their deferred closing, the calls and the JSON
    report.  Progress messages on the standard error are left out. *)
From S2P Require Import Prelude Wire Api Text Net Float64.
From S2P Require Import Flag Json Bench BenchFacts Echo EchoFacts.
From S2P Require Import RawIP Process.

#[local] Open Scope Z_scope.

(** The names of the platform and the compiler. *)
Class GoRuntime := { GOOS : list Z; GOARCH : list Z; Version : list Z }.

Definition platform `{GoRuntime} : list Z := GOOS ++ text "/" ++ GOARCH.

(** The text of an IPv4 address with its port. *)
Definition addr_text (a : Addr) : list Z := addr.String (λ _, []) a.

Module echo_run.
Import bench echo process.

Inductive run_error :=
| ErrUsage | ErrFlags | ErrPositional
| ErrOptions (err : error)
| ErrOpen (err : io_error + Api.error)
| ErrEchoes (err : error)
| ErrOutput (err : encode_error).

(** [homa.Config{Timeout: timeout}]. *)
Definition timeout_config (timeout : Z) : Config := mkConfig 0 0 0 0 timeout 0 0 0 0 0.

(** ** Flags and reports *)

Definition run_flags (call : bool) : flag.flagset :=
  [(text "listen", flag.VString (if call then text "127.0.0.1:4001" else text "127.0.0.1:4000"));
   (text "peer", flag.VString (text "127.0.0.1:4000"));
   (text "bytes", flag.VInt 128);
   (text "count", flag.VInt 1);
   (text "timeout", flag.VDuration (5 * Second))].

Definition selftest_flags : flag.flagset := [(text "timeout", flag.VDuration (5 * Second))].

Definition report_json (local remote : Addr) (rep : report) (stats : Stats) : json.value :=
  json.Obj [json.fld "ip_protocol" (json.Int Protocol);
    json.fld "local" (json.Str (addr_text local));
    json.fld "peer" (json.Str (addr_text remote));
    json.fld "verified_echoes" (json.Int (Calls rep));
    json.fld "bytes_per_request_and_reply" (json.Int (Bytes rep));
    json.fld "elapsed_seconds" (json.Float (Elapsed rep));
    json.fld "median_rtt_us" (json.Float (Median rep));
    json.fld "max_rtt_us" (json.Float (Max rep));
    json.fld "endpoint_stats" (json.of_stats stats)].

Definition echo_json (result : Z * float64) : json.value :=
  json.Obj [json.fld "bytes" (json.Int result.1); json.fld "rtt_us" (json.Float result.2)].

Definition selftest_json `{GoRuntime} (server client : Addr) (elapsed : float64) (results : list (Z * float64))
  (server_stats client_stats : Stats) : json.value :=
  json.Obj [json.fld "status" (json.Str (text "passed"));
    json.fld "evidence" (json.Str (text "native raw IPv4 loopback between two userspace Homa endpoints"));
    json.fld "linux_kernel_interoperability_verified" (json.Bool false);
    json.fld "platform" (json.Str platform);
    json.fld "ip_protocol" (json.Int Protocol);
    json.fld "server" (json.Str (addr_text server));
    json.fld "client" (json.Str (addr_text client));
    json.fld "elapsed_seconds" (json.Float elapsed);
    json.fld "verified_echoes" (json.Arr (echo_json <$> results));
    json.fld "server_stats" (json.of_stats server_stats);
    json.fld "client_stats" (json.of_stats client_stats)].

(** ** The commands *)

Section run.
Context `{GoPlatform, OS, RawSocket, Network, json.FloatText, GoRuntime}.

(** [endpoint.Stats()]. *)
Definition Stats_ : M world Stats :=
  s ← HomaStats "homa";
  or_panic s.

Definition report_error (err : option encode_error) : option run_error := ErrOutput <$> err.

(** The call mode on an open endpoint. *)
Definition call_and_report (local remote : Addr) (size count : Z) : M process (option run_error) :=
  r ← on_network (call_mode size count);
  match r with
  | inl err => mret (Some (ErrEchoes err))
  | inr rep =>
      stats ← on_network Stats_;
      err ← Encode write_out (report_json local remote rep stats);
      mret (report_error err)
  end.

(** From [Listen] to the end of [run]. *)
Definition serve_or_call (call : bool) (local remote : Addr) (size count timeout : Z) : M process (option run_error) :=
  r ← Listen local (timeout_config timeout) (negb call);
  match r with
  | inl err => mret (Some (ErrOpen err))
  | inr endpoint =>
      deferred (Close endpoint) (
      deferred (after_func (Close endpoint)) (
      if negb call then wait_done;; mret None
      else call_and_report local remote size count))
  end.

Definition serverAddr : Addr := default no_addr (addr.ParseAddr (text "127.0.0.1:4000")).
Definition clientAddr : Addr := default no_addr (addr.ParseAddr (text "127.0.0.1:4001")).

(** The self-test on its two endpoints. *)
Definition echo_and_report : M process (option run_error) :=
  r ← on_network selftest_echoes;
  match r with
  | inl err => mret (Some (ErrEchoes err))
  | inr (elapsed, results) =>
      server_stats ← on_network Stats_;
      client_stats ← on_network Stats_;
      err ← Encode write_out (selftest_json serverAddr clientAddr elapsed results server_stats client_stats);
      mret (report_error err)
  end.

Definition selftest_endpoints (timeout : Z) : M process (option run_error) :=
  r ← Listen serverAddr (timeout_config timeout) true;
  match r with
  | inl err => mret (Some (ErrOpen err))
  | inr server =>
      deferred (Close server) (
      r ← Listen clientAddr (timeout_config timeout) false;
      match r with
      | inl err => mret (Some (ErrOpen err))
      | inr client =>
          deferred (Close client) (
          deferred (after_func (Close client;; Close server)) echo_and_report)
      end)
  end.

Definition selftest (args : list (list Z)) : M process (option run_error) :=
  match flag.Parse selftest_flags args with
  | inl flag.ErrHelp => mret None
  | inl flag.ErrSyntax => mret (Some ErrFlags)
  | inr (fs, rest) =>
      if negb (len rest =? 0) then mret (Some ErrPositional) else
      timeout ← or_panic (flag.get_duration fs "timeout");
      if (timeout <=? 0) || (Minute <? timeout) then mret (Some (ErrOptions ErrTimeout)) else
      selftest_endpoints timeout
  end.

Definition run (args : list (list Z)) : M process (option run_error) :=
  match args with
  | [] => mret (Some ErrUsage)
  | mode :: args =>
      if bool_decide (mode = text "selftest") then selftest args else
      if negb (bool_decide (mode = text "serve")) && negb (bool_decide (mode = text "call"))
      then mret (Some ErrUsage) else
      let call := bool_decide (mode = text "call") in
      match flag.Parse (run_flags call) args with
      | inl flag.ErrHelp => mret None
      | inl flag.ErrSyntax => mret (Some ErrFlags)
      | inr (fs, rest) =>
          if negb (len rest =? 0) then mret (Some ErrPositional) else
          listen ← or_panic (flag.get_string fs "listen");
          peer ← or_panic (flag.get_string fs "peer");
          size ← or_panic (flag.get_int fs "bytes");
          count ← or_panic (flag.get_int fs "count");
          timeout ← or_panic (flag.get_duration fs "timeout");
          match check_run call size count timeout listen peer with
          | inl err => mret (Some (ErrOptions err))
          | inr (local, remote) => serve_or_call call local remote size count timeout
          end
      end
  end.
End run.

(** ** Theorems *)

Import bench_facts echo_facts.

(** The calls a command line asks for. *)
Definition plan `{GoPlatform} (args : list (list Z)) : option (list (string * list Z)) :=
  match args with
  | [] => None
  | mode :: args =>
      if bool_decide (mode = text "selftest") then
        match flag.Parse selftest_flags args with inr (_, []) => Some selftest_plan | _ => None end
      else if bool_decide (mode = text "call") then
        match flag.Parse (run_flags true) args with
        | inr (fs, []) =>
            size ← flag.get_int fs "bytes";
            count ← flag.get_int fs "count";
            Some (call_plan size count)
        | _ => None
        end
      else None
  end.

Section facts.
Context `{GoPlatform, OS, RawSocket, Network, json.FloatText, GoRuntime}.

(** A report of as many verified echoes as there are calls. *)
Definition report_on (P : list (string * list Z)) (v : json.value) : Prop :=
  (∃ local remote rep stats, v = report_json local remote rep stats ∧ Calls rep = len P) ∨
  (∃ elapsed results stats1 stats2, v = selftest_json serverAddr clientAddr elapsed results stats1 stats2 ∧
     results.*1 = sizes ∧ len results = len P).

(** What [run] says about the calls [P]. *)
Definition verdict (P : option (list (string * list Z))) (p : process) (r : option run_error) (p' : process) : Prop :=
  match r with
  | None =>
      match P with
      | None => p_out p' = p_out p
      | Some P => echoes (w_calls (p_world p)) P ∧
          ∃ v s, report_on P v ∧ json.MarshalIndent v = Some s ∧ p_out p' = p_out p ++ s ++ [10]
      end
  | Some (ErrEchoes _) => p_out p' = p_out p ∧ ∃ P', P = Some P' ∧ ¬ echoes (w_calls (p_world p)) P'
  | Some (ErrOutput _) => ∃ P', P = Some P' ∧ echoes (w_calls (p_world p)) P'
  | Some _ => p_out p' = p_out p
  end.

Lemma echo_verdict_view P p a q r : verdict P p a q → same_view q r → verdict P p a r.
Proof. intros Hv [Ho _ _]. unfold verdict in *. by rewrite Ho. Qed.

Lemma echo_verdict_start P p q r p' : same_view p q → verdict P q r p' → verdict P p r p'.
Proof. intros [Ho Hw _]. unfold verdict. by rewrite Ho, Hw. Qed.

Lemma wp_Stats w : wp Stats_ (λ _ w', w_calls w' = w_calls w) w.
Proof. unfold Stats_, HomaStats. cbn [String.eqb Ascii.eqb Bool.eqb]. unfold or_panic. by wp_steps. Qed.

(** Writing a report is the last thing a command does. *)
Lemma wp_report P v p q :
  report_on P v → echoes (w_calls (p_world p)) P → p_out q = p_out p →
  wp (err ← Encode write_out v; mret (report_error err)) (verdict (Some P) p) q.
Proof.
  intros Hv He Hq. unfold Encode, write_out, syscall, syscall_for. wp_step.
  destruct (json.MarshalIndent v) as [s|] eqn:Es; [|by wp_steps; eexists].
  wp_steps. destruct (os_fails (p_calls q)) as [err|]; cbn; [by eexists|].
  split; [done|]. exists v, s. by rewrite Hq.
Qed.

Lemma wp_call_and_report local remote size count p :
  1 ≤ count → wp (call_and_report local remote size count) (verdict (Some (call_plan size count)) p) p.
Proof.
  intros Hc. unfold call_and_report. wp_step. apply wp_zoom. eapply wp_mono; [by apply wp_call_mode|].
  intros [err|rep] w Hr; [wp_step; split; [done|by eexists]|]. destruct Hr as (He&(Hcalls&_)&_).
  wp_step. apply wp_zoom. eapply wp_mono; [apply wp_Stats|]. intros stats w' _.
  apply wp_report; [|done|done]. left. exists local, remote, rep, stats. split; [done|].
  unfold len. rewrite length_call_plan, Hcalls. lia.
Qed.

Lemma wp_echo_and_report p : wp echo_and_report (verdict (Some selftest_plan) p) p.
Proof.
  unfold echo_and_report. wp_step. apply wp_zoom. eapply wp_mono; [apply runs_selftest_echoes|].
  intros [err|[elapsed results]] w Hr; [wp_step; split; [done|by eexists]|]. destruct Hr as (Hres&He&_). cbn [snd] in Hres.
  wp_step. apply wp_zoom. eapply wp_mono; [apply wp_Stats|]. intros stats1 w1 _.
  wp_step. apply wp_zoom. eapply wp_mono; [apply wp_Stats|]. intros stats2 w2 _.
  apply wp_report; [|done|done]. right. exists elapsed, results, stats1, stats2. split_and!; [done|done|].
  apply (f_equal len) in Hres. unfold len in *. rewrite length_fmap in Hres. rewrite Hres. reflexivity.
Qed.

Lemma wp_serve_or_call call local remote size count timeout p :
  os_stops = true → 1 ≤ count →
  wp (serve_or_call call local remote size count timeout)
    (verdict (if call then Some (call_plan size count) else None) p) p.
Proof.
  intros Hs Hc. unfold serve_or_call. apply wp_hidden; [apply hidden_Listen|]. intros [err|endpoint] q Hq.
  { wp_step. by destruct Hq. }
  apply wp_deferred; [apply echo_verdict_view|apply hidden_Close|].
  apply wp_deferred; [apply echo_verdict_view|apply hidden_after_func, hidden_Close|]. destruct call; cbn [negb].
  - eapply wp_mono; [by apply wp_call_and_report|]. intros r p'. by apply echo_verdict_start.
  - unfold wait_done. rewrite Hs. wp_steps. by destruct Hq.
Qed.

Lemma wp_selftest_endpoints timeout p : wp (selftest_endpoints timeout) (verdict (Some selftest_plan) p) p.
Proof.
  unfold selftest_endpoints. apply wp_hidden; [apply hidden_Listen|]. intros [err|server] q Hq.
  { wp_step. by destruct Hq. }
  apply wp_deferred; [apply echo_verdict_view|apply hidden_Close|].
  apply wp_hidden; [apply hidden_Listen|]. intros [err|client] q' Hq'; pose proof (same_view_trans _ _ _ Hq Hq') as Hv.
  { wp_step. by destruct Hv. }
  apply wp_deferred; [apply echo_verdict_view|apply hidden_Close|].
  apply wp_deferred; [apply echo_verdict_view|apply hidden_after_func, hidden_bind; intros; apply hidden_Close|].
  eapply wp_mono; [by apply wp_echo_and_report|]. intros r p'. by apply echo_verdict_start.
Qed.

(** The variables of the flags exist. *)
Lemma run_flags_values call args fs rest :
  flag.Parse (run_flags call) args = inr (fs, rest) →
  ∃ listen peer size count timeout,
    flag.get_string fs "listen" = Some listen ∧ flag.get_string fs "peer" = Some peer ∧
    flag.get_int fs "bytes" = Some size ∧ flag.get_int fs "count" = Some count ∧
    flag.get_duration fs "timeout" = Some timeout.
Proof.
  intros Hp%flag.Parse_kinds. unfold run_flags in Hp.
  flag.open_flags Hp. do 5 eexists. split_and!; reflexivity.
Qed.

Lemma selftest_flags_values args fs rest :
  flag.Parse selftest_flags args = inr (fs, rest) → ∃ timeout, flag.get_duration fs "timeout" = Some timeout.
Proof.
  intros Hp%flag.Parse_kinds. unfold selftest_flags in Hp.
  flag.open_flags Hp. eexists. reflexivity.
Qed.

Lemma check_run_count call size count timeout listen peer r :
  check_run call size count timeout listen peer = inr r → 1 ≤ count.
Proof. unfold check_run. destruct (_ || _ || _ || _) eqn:E; [done|]. intros _. bool_to_prop. lia. Qed.

Lemma echo_wp_run_verdict args p : os_stops = true → wp (run args) (verdict (plan args) p) p.
Proof.
  intros Hs. unfold run, plan. destruct args as [|mode args]; [by wp_step|].
  case_bool_decide.
  { unfold selftest. destruct (flag.Parse selftest_flags args) as [[]|[fs rest]] eqn:Ep; [by wp_step..|].
    rewrite flag.narg. destruct rest as [|]; [|by wp_step].
    destruct (selftest_flags_values args fs [] Ep) as [timeout Ht]. wp_step. apply (wp_or_panic _ _ _ _ Ht).
    destruct (_ || _); [by wp_step|]. apply wp_selftest_endpoints. }
  assert (bool_decide (mode = text "serve") && bool_decide (mode = text "call") = false) as Hmodes.
  { case_bool_decide as E; [|done]. rewrite E. reflexivity. }
  set (call := bool_decide (mode = text "call")) in *. destruct (_ && negb call) eqn:E; cbv iota.
  { by destruct call; [rewrite andb_false_r in E|wp_step]. }
  destruct (flag.Parse (run_flags call) args) as [[]|[fs rest]] eqn:Ep.
  1-2: by destruct call; [rewrite Ep|]; wp_step.
  rewrite flag.narg. destruct rest as [|]; [|by destruct call; [rewrite Ep|]; wp_step].
  destruct (run_flags_values call args fs [] Ep) as (listen&peer&size&count&timeout&Hl&Hp&Hsz&Hc&Ht).
  wp_step. apply (wp_or_panic _ _ _ _ Hl). wp_step. apply (wp_or_panic _ _ _ _ Hp). wp_step.
  apply (wp_or_panic _ _ _ _ Hsz). wp_step. apply (wp_or_panic _ _ _ _ Hc). wp_step. apply (wp_or_panic _ _ _ _ Ht).
  destruct (check_run _ _ _ _ _ _) as [err|[local remote]] eqn:Ec; [by wp_step|].
  apply check_run_count in Ec. eapply wp_mono; [by apply wp_serve_or_call|]. intros r p'.
  destruct call; [|done]. by rewrite Ep, Hsz, Hc.
Qed.

(** *** Resources *)

Lemma owns_call_and_report K K' local remote size count :
  1 ≤ count → owns K K' (call_and_report local remote size count).
Proof.
  intros Hc. unfold call_and_report. owns_auto.
  - apply owns_network. intros w. eapply wp_mono; [by apply wp_call_mode|done].
  - apply owns_network. intros w. eapply wp_mono; [apply wp_Stats|done].
  - apply owns_Encode. eauto with owns.
Qed.

Lemma owns_echo_and_report K K' : owns K K' echo_and_report.
Proof.
  unfold echo_and_report. owns_auto.
  - apply owns_network. intros w. eapply wp_mono; [apply runs_selftest_echoes|done].
  - apply owns_network. intros w. eapply wp_mono; [apply wp_Stats|done].
  - apply owns_network. intros w. eapply wp_mono; [apply wp_Stats|done].
  - apply owns_Encode. eauto with owns.
Qed.

Lemma owns_serve_or_call call local remote size count timeout :
  os_stops = true → 1 ≤ count → owns ∅ ∅ (serve_or_call call local remote size count timeout).
Proof.
  intros Hs Hc. unfold serve_or_call. owns_auto; eauto using owns_wait_done, owns_call_and_report.
Qed.

Lemma owns_selftest_endpoints timeout : owns ∅ ∅ (selftest_endpoints timeout).
Proof. unfold selftest_endpoints. owns_auto; eauto using owns_echo_and_report. Qed.

Lemma owns_echo args : os_stops = true → owns ∅ ∅ (run args).
Proof.
  intros Hs. unfold run. destruct args as [|mode args]; [apply owns_ret|]. case_bool_decide.
  { unfold selftest. destruct (flag.Parse _ args) as [[]|[fs rest]] eqn:Ep; [apply owns_ret..|].
    destruct (negb _); [apply owns_ret|]. destruct (selftest_flags_values args fs rest Ep) as [timeout Ht].
    apply (owns_or_panic _ _ _ _ _ Ht). destruct (_ || _); [apply owns_ret|]. apply owns_selftest_endpoints. }
  destruct (_ && _); [apply owns_ret|]. set (call := bool_decide _).
  destruct (flag.Parse (run_flags call) args) as [[]|[fs rest]] eqn:Ep; [apply owns_ret..|].
  destruct (negb _); [apply owns_ret|].
  destruct (run_flags_values call args fs rest Ep) as (listen&peer&size&count&timeout&Hl&Hp&Hsz&Hc&Ht).
  apply (owns_or_panic _ _ _ _ _ Hl), (owns_or_panic _ _ _ _ _ Hp), (owns_or_panic _ _ _ _ _ Hsz),
    (owns_or_panic _ _ _ _ _ Hc), (owns_or_panic _ _ _ _ _ Ht). destruct (check_run _ _ _ _ _ _) as [err|[local remote]] eqn:Ec; [apply owns_ret|].
  apply check_run_count in Ec. by apply owns_serve_or_call.
Qed.

(** C28: the echo tool is trustworthy from its command line to its output: told to
    stop some time, it always ends, with every endpoint and socket it opened
    closed again; it ends without an error only after every call the command
    line asked for returned its payload, and then the standard output has grown
    by exactly one report, of that many verified echoes; after any other error
    than a failing output it has printed nothing. *)
Theorem echo_run_sound args p :
  process_ok p → os_stops = true →
  ∃ r p', run args p = inl (r, p') ∧ balanced p p' ∧ verdict (plan args) p r p'.
Proof.
  intros Hok Hs. apply wp_run. eapply wp_assume; [by apply owns_echo|].
  eapply wp_mono; [by apply echo_wp_run_verdict|]. intros r p' Hv Hb. split; [by apply settled_balanced|done].
Qed.
End facts.

(** Three calls on a system that grants everything and a network that echoes. *)
Definition plain_runtime : GoRuntime := Build_GoRuntime (text "linux") (text "amd64") (text "go1.24").

#[local] Abbreviation demo_run := (@run amd64 plain_os plain_raw echo_network json.plain_text plain_runtime).

Definition demo_args : list (list Z) := [text "call"; text "-count=3"; text "-bytes"; text "8"; text "-timeout=1s"].

Lemma demo_plan : @plan amd64 demo_args = Some (call_plan 8 3).
Proof.
  unfold plan, demo_args. rewrite bool_decide_false, bool_decide_true by done.
  assert (∃ fs, flag.Parse (H:=amd64) (run_flags true) [text "-count=3"; text "-bytes"; text "8"; text "-timeout=1s"] =
    inr (fs, []) ∧ flag.get_int fs "bytes" = Some 8 ∧ flag.get_int fs "count" = Some 3) as (fs&->&->&->); [|done].
  eexists. split; [vm_compute; reflexivity|split; vm_compute; reflexivity].
Qed.

Definition succeeded (r : (option run_error * process) + fault) : bool :=
  match r with inl (None, _) => true | _ => false end.

Lemma echo_demo_succeeds : succeeded (demo_run demo_args start_process) = true.
Proof. vm_compute. reflexivity. Qed.

Lemma echo_run_sound_witness :
  process_ok start_process ∧ @os_stops plain_os = true ∧
  ∃ p', demo_run demo_args start_process = inl (None, p') ∧ balanced start_process p' ∧
    @echoes echo_network 0 (call_plan 8 3) ∧ p_out p' ≠ [].
Proof.
  split; [apply start_process_ok|]. split; [reflexivity|].
  pose proof echo_demo_succeeds as Hnone.
  destruct (@echo_run_sound amd64 plain_os plain_raw echo_network json.plain_text plain_runtime demo_args start_process
    start_process_ok eq_refl) as (r&p'&Hrun&Hb&Hv).
  rewrite Hrun in Hnone. destruct r as [err|]; [discriminate Hnone|].
  rewrite demo_plan in Hv. destruct Hv as (He&v&s&_&_&Hout). exists p'. split; [exact Hrun|]. split; [exact Hb|].
  split; [exact He|]. rewrite Hout. intros E%app_eq_nil. destruct E as [_ E%app_eq_nil]. by destruct E.
Defined.
End echo_run.
