(* ===== verification/BenchServe.v ===== *)
(** * The benchmark's echo server (serve of src/cmd/homa-bench/main.go)

    The accept loop, the goroutine of each connection, the shutdown that the end
    of the context starts in a goroutine of its own, and the deferred function,
    as one transition system: any interleaving of their atomic steps.  What a
    connection's goroutine does with its frames is [serve_conn] of Bench. *)
From S2P Require Import Prelude Wire Api Net Bench.

#[local] Open Scope Z_scope.

Module bench_serve.

(** ** State *)

(** The steps of the function [shutdown]. *)
Inductive stage := CloseListener | CloseConns | CloseHoma.

(** Where [serve] is: in AcceptTCP, before SetNoDelay, before the lock, in the
    deferred function's [shutdown] or its [Wait], or back. *)
Inductive phase :=
| Accepting
| NoDelay (conn : nat)
| Registering (conn : nat)
| Stopping (result : option io_error) (at_ : stage)
| Waiting (result : option io_error)
| Returned (result : option io_error).

(** The function given to context.AfterFunc. *)
Inductive after := Idle | Running (at_ : stage) | Finished | Stopped.

(** [connections] is the map, [opened] the connections that are open and
    [workers] those that have a goroutine. *)
Record server := mkServer {
  listener : bool; homa : bool; done : bool; connections : gset nat; opened : gset nat; workers : gset nat;
  next : nat; async : after; main : phase
}.

Definition set_main (ph : phase) (s : server) : server :=
  mkServer (listener s) (homa s) (done s) (connections s) (opened s) (workers s) (next s) (async s) ph.
Definition set_async (a : after) (s : server) : server :=
  mkServer (listener s) (homa s) (done s) (connections s) (opened s) (workers s) (next s) a (main s).
Definition close_conn (conn : nat) (s : server) : server :=
  mkServer (listener s) (homa s) (done s) (connections s) (opened s ∖ {[ conn ]}) (workers s) (next s) (async s) (main s).

(** ** Steps *)

(** One step of [shutdown], and the next one. *)
Definition shutdown_step (st : stage) (s : server) : server :=
  match st with
  | CloseListener =>
      mkServer false (homa s) (done s) (connections s) (opened s) (workers s) (next s) (async s) (main s)
  | CloseConns =>
      mkServer (listener s) (homa s) (done s) (connections s) (opened s ∖ connections s) (workers s) (next s)
        (async s) (main s)
  | CloseHoma =>
      mkServer (listener s) false (done s) (connections s) (opened s) (workers s) (next s) (async s) (main s)
  end.

Definition following (st : stage) : option stage :=
  match st with CloseListener => Some CloseConns | CloseConns => Some CloseHoma | CloseHoma => None end.

Inductive action :=
| AcceptConn | AcceptError (err : io_error) | SetNoDelay (err : option io_error) | Register
| Cancel | AsyncStep | MainStep
| WorkerClose (conn : nat) | WorkerDone (conn : nat).

(** The connection is served unless the server is stopping or sixteen are. *)
Definition register (conn : nat) (s : server) : server :=
  if done s || (16 <=? Z.of_nat (size (connections s))) then set_main Accepting (close_conn conn s)
  else mkServer (listener s) (homa s) (done s) ({[ conn ]} ∪ connections s) (opened s) ({[ conn ]} ∪ workers s)
    (next s) (async s) Accepting.

(** [stopClose()]: the function does not start any more. *)
Definition stop_after (a : after) : after := match a with Idle => Stopped | _ => a end.

(** A step, when it can happen: AcceptTCP gives a connection only while the
    listener is open, and an error at any time; the goroutine of a connection
    closes it, then leaves the map and is done. *)
Definition step (a : action) (s : server) : option server :=
  match a, main s with
  | AcceptConn, Accepting =>
      if listener s then
        Some (mkServer true (homa s) (done s) (connections s) ({[ next s ]} ∪ opened s) (workers s)
          (S (next s)) (async s) (NoDelay (next s)))
      else None
  | AcceptError err, Accepting =>
      Some (set_main (Stopping (if done s then None else Some err) CloseListener) (set_async (stop_after (async s)) s))
  | SetNoDelay None, NoDelay conn => Some (set_main (Registering conn) s)
  | SetNoDelay (Some _), NoDelay conn => Some (set_main Accepting (close_conn conn s))
  | Register, Registering conn => Some (register conn s)
  | Cancel, _ =>
      if done s then None else
      Some (mkServer (listener s) (homa s) true (connections s) (opened s) (workers s) (next s)
        (match async s with Idle => Running CloseListener | a => a end) (main s))
  | AsyncStep, _ =>
      match async s with
      | Running st => Some (set_async (match following st with Some st => Running st | None => Finished end)
          (shutdown_step st s))
      | _ => None
      end
  | MainStep, Stopping r st =>
      Some (set_main (match following st with Some st => Stopping r st | None => Waiting r end) (shutdown_step st s))
  | MainStep, Waiting r => if bool_decide (workers s = ∅) then Some (set_main (Returned r) s) else None
  | WorkerClose conn, _ =>
      if bool_decide (conn ∈ workers s) && bool_decide (conn ∈ opened s) then Some (close_conn conn s) else None
  | WorkerDone conn, _ =>
      if bool_decide (conn ∈ workers s) && negb (bool_decide (conn ∈ opened s)) then
        Some (mkServer (listener s) (homa s) (done s) (connections s ∖ {[ conn ]}) (opened s) (workers s ∖ {[ conn ]})
          (next s) (async s) (main s))
      else None
  | _, _ => None
  end.

Definition start : server := mkServer true true false ∅ ∅ ∅ 0 Idle Accepting.

Fixpoint steps (l : list action) (s : server) : option server :=
  match l with
  | [] => Some s
  | a :: l => s ← step a s; steps l s
  end.

Definition reachable (s : server) : Prop := ∃ l, steps l start = Some s.

(** ** The invariant *)

(** The connection that was accepted and is not decided on yet. *)
Definition pending (ph : phase) : gset nat :=
  match ph with NoDelay conn | Registering conn => {[ conn ]} | _ => ∅ end.

(** What the deferred function has closed by now. *)
Definition closed_by_main (s : server) : Prop :=
  match main s with
  | Accepting | NoDelay _ | Registering _ | Stopping _ CloseListener => True
  | Stopping _ CloseConns => listener s = false
  | Stopping _ CloseHoma => listener s = false ∧ opened s = ∅
  | Waiting _ => listener s = false ∧ opened s = ∅ ∧ homa s = false
  | Returned _ => listener s = false ∧ opened s = ∅ ∧ homa s = false ∧ workers s = ∅
  end.

(** The result of [serve] is nil only when the context is done. *)
Definition result_ok (s : server) : Prop :=
  match main s with
  | Stopping None _ | Waiting None | Returned None => done s = true
  | _ => True
  end.

Record serve_ok (s : server) : Prop := {
  so_workers : workers s = connections s;
  so_opened : opened s ⊆ connections s ∪ pending (main s);
  so_fresh : ∀ conn, conn ∈ connections s ∪ pending (main s) → (conn < next s)%nat;
  so_pending : connections s ## pending (main s);
  so_limit : (size (connections s) ≤ 16)%nat;
  so_main : closed_by_main s;
  so_result : result_ok s
}.

Lemma start_ok : serve_ok start.
Proof. split; cbn; try done; try set_solver. rewrite size_empty. lia. Qed.

Lemma size_add (X : gset nat) n k : (size X < k)%nat → (size ({[ n ]} ∪ X) ≤ k)%nat.
Proof. intros Hs. rewrite size_union_alt, size_singleton. pose proof (subseteq_size (X ∖ {[ n ]}) X). set_solver by lia. Qed.

Lemma size_remove (X : gset nat) n k : (size X ≤ k)%nat → (size (X ∖ {[ n ]}) ≤ k)%nat.
Proof. intros Hs. pose proof (subseteq_size (X ∖ {[ n ]}) X ltac:(set_solver)). lia. Qed.

(** The accept loop. *)
Lemma accept_conn_ok s s' : serve_ok s → step AcceptConn s = Some s' → serve_ok s'.
Proof.
  intros [Hw Ho Hf Hp Hl Hm Hr]. unfold step. destruct (main s) eqn:Em; try done. destruct (listener s); [|done].
  intros [= <-]. cbn [pending] in *. split; cbn; try done.
  - set_solver.
  - intros conn Hc. destruct (decide (conn = next s)) as [->|]; [lia|]. apply Nat.lt_lt_succ_r, Hf. set_solver.
  - intros conn Hc Hn. assert (conn < next s)%nat by (apply Hf; set_solver). set_unfold. lia.
Qed.

Lemma accept_error_ok err s s' : serve_ok s → step (AcceptError err) s = Some s' → serve_ok s'.
Proof.
  intros [Hw Ho Hf Hp Hl Hm Hr]. unfold step. destruct (main s) eqn:Em; try done. intros [= <-].
  split; cbn; try done. unfold result_ok. cbn. by destruct (done s).
Qed.

Lemma no_delay_ok err s s' : serve_ok s → step (SetNoDelay err) s = Some s' → serve_ok s'.
Proof.
  intros [Hw Ho Hf Hp Hl Hm Hr]. unfold step. destruct err as [err|], (main s) eqn:Em; try done; intros [= <-].
  - split; cbn in *; try done; set_solver.
  - split; cbn in *; done.
Qed.

Lemma register_ok s s' : serve_ok s → step Register s = Some s' → serve_ok s'.
Proof.
  intros [Hw Ho Hf Hp Hl Hm Hr]. unfold step. destruct (main s) eqn:Em; try done. intros [= <-]. unfold register.
  destruct (done s || (16 <=? _)) eqn:E; cbn [pending] in *.
  - split; cbn; try done; set_solver.
  - bool_to_prop. split; cbn; try done.
    + by rewrite Hw.
    + clear -Ho. set_solver.
    + clear -Hf. set_solver.
    + apply size_add. lia.
Qed.

(** The end of the context. *)
Lemma cancel_ok s s' : serve_ok s → step Cancel s = Some s' → serve_ok s'.
Proof.
  intros [Hw Ho Hf Hp Hl Hm Hr]. unfold step. destruct (done s) eqn:Ed; [done|].
  intros E. assert (s' = mkServer (listener s) (homa s) true (connections s) (opened s) (workers s) (next s)
    (match async s with Idle => Running CloseListener | a => a end) (main s)) as -> by (destruct (main s); congruence).
  split; try done. unfold result_ok. cbn. by destruct (main s) as [| | |[] []|[]|[]].
Qed.

(** Nothing that is closed opens again in a step of [shutdown]. *)
Lemma shutdown_step_ok st s : serve_ok s → serve_ok (shutdown_step st s).
Proof.
  intros [Hw Ho Hf Hp Hl Hm Hr]. destruct st; split; try done; cbn in *.
  - revert Hm. unfold closed_by_main. cbn. destruct (main s) as [| | |? []| |]; naive_solver.
  - set_solver.
  - revert Hm. unfold closed_by_main. cbn.
    assert (opened s = ∅ → opened s ∖ connections s = ∅) by set_solver.
    destruct (main s) as [| | |? []| |]; naive_solver.
  - revert Hm. unfold closed_by_main. cbn. destruct (main s) as [| | |? []| |]; naive_solver.
Qed.

Lemma set_async_ok a s : serve_ok s → serve_ok (set_async a s).
Proof. by intros []. Qed.

Lemma async_step_ok s s' : serve_ok s → step AsyncStep s = Some s' → serve_ok s'.
Proof.
  intros Hs E. assert (∃ a st, s' = set_async a (shutdown_step st s)) as (a&st&->).
  { unfold step in E. destruct (main s), (async s); try done; injection E as <-; eauto. }
  by apply set_async_ok, shutdown_step_ok.
Qed.

Lemma main_step_ok s s' : serve_ok s → step MainStep s = Some s' → serve_ok s'.
Proof.
  intros Hs. unfold step. destruct (main s) as [| | |r st|r|] eqn:Em; try done.
  - intros [= <-]. destruct (shutdown_step_ok st s Hs) as [Hw Ho Hf Hp Hl Hm Hr].
    destruct Hs as [_ Ho0 _ _ _ Hm0 Hr0]. unfold closed_by_main, result_ok in Hm0, Hr0. rewrite Em in *. cbn [pending] in *.
    destruct st; split; cbn in *; try done; rewrite ?Em in *; cbn [pending] in *; try done.
    + unfold closed_by_main. cbn. split; [done|]. set_solver.
    + unfold closed_by_main. cbn. naive_solver.
  - case_bool_decide as Hempty; [|done]. intros [= <-]. destruct Hs as [Hw Ho Hf Hp Hl Hm Hr].
    unfold closed_by_main, result_ok in *. rewrite Em in *. cbn [pending] in *.
    split; try done. unfold closed_by_main. cbn. naive_solver.
Qed.

(** The goroutines of the connections. *)
Lemma worker_close_ok conn s s' : serve_ok s → step (WorkerClose conn) s = Some s' → serve_ok s'.
Proof.
  intros [Hw Ho Hf Hp Hl Hm Hr] E. assert (s' = close_conn conn s) as ->.
  { unfold step in E. destruct (bool_decide (conn ∈ workers s) && bool_decide (conn ∈ opened s)), (main s); congruence. }
  split; try done; cbn; [set_solver|].
  revert Hm. unfold closed_by_main. cbn.
  assert (opened s = ∅ → opened s ∖ {[ conn ]} = ∅) by set_solver.
  destruct (main s) as [| | |? []| |]; naive_solver.
Qed.

Lemma worker_done_ok conn s s' : serve_ok s → step (WorkerDone conn) s = Some s' → serve_ok s'.
Proof.
  intros [Hw Ho Hf Hp Hl Hm Hr] E.
  assert ((conn ∉ opened s) ∧ s' = mkServer (listener s) (homa s) (done s) (connections s ∖ {[ conn ]}) (opened s)
    (workers s ∖ {[ conn ]}) (next s) (async s) (main s)) as [Hc ->].
  { unfold step in E. destruct (bool_decide (conn ∈ workers s)); [|by destruct (main s)].
    case_bool_decide; [by destruct (main s)|]. split; [done|]. destruct (main s); cbn in E; congruence. }
  split; try done; cbn.
  - by rewrite Hw.
  - intros k Hk. specialize (Ho k Hk). set_solver.
  - set_solver.
  - set_solver.
  - by apply size_remove.
  - revert Hm. unfold closed_by_main. cbn.
    assert (workers s = ∅ → workers s ∖ {[ conn ]} = ∅) by set_solver.
    destruct (main s) as [| | |? []| |]; naive_solver.
Qed.

Lemma step_ok a s s' : serve_ok s → step a s = Some s' → serve_ok s'.
Proof.
  intros Hs. destruct a;
    [apply accept_conn_ok|apply accept_error_ok|apply no_delay_ok|apply register_ok|apply cancel_ok
    |apply async_step_ok|apply main_step_ok|apply worker_close_ok|apply worker_done_ok]; exact Hs.
Qed.

Lemma steps_ok l s s' : serve_ok s → steps l s = Some s' → serve_ok s'.
Proof.
  revert s. induction l as [|a l IH]; intros s Hs; cbn; [by intros [= <-]|].
  destruct (step a s) as [s1|] eqn:E; [|done]. apply IH. by eapply step_ok.
Qed.

Lemma reachable_ok s : reachable s → serve_ok s.
Proof.
  intros [l Hl]. exact (steps_ok l start s start_ok Hl).
Qed.

(** ** Termination *)

Definition stage_left (st : stage) : nat :=
  match st with CloseListener => 3 | CloseConns => 2 | CloseHoma => 1 end.

(** How many steps [serve] can still take once its listener is closed. *)
Definition phase_left (ph : phase) : nat :=
  match ph with
  | NoDelay _ => 8
  | Registering _ => 7
  | Accepting => 5
  | Stopping _ st => 1 + stage_left st
  | Waiting _ => 1
  | Returned _ => 0
  end.

Definition async_left (a : after) : nat := match a with Running st => stage_left st | _ => 0 end.

Definition steps_left (s : server) : nat :=
  phase_left (main s) + async_left (async s) + (if done s then 0 else 4) + size (workers s) + size (opened s).

Lemma size_less (X : gset nat) n : n ∈ X → (size (X ∖ {[ n ]}) < size X)%nat.
Proof. intros Hn. apply subset_size. set_solver. Qed.

Lemma size_more (X : gset nat) n : (size ({[ n ]} ∪ X) ≤ S (size X))%nat.
Proof. apply size_add. lia. Qed.

(** Every step of a server whose listener is closed brings it nearer to its end. *)
Lemma step_decreases a s s' :
  serve_ok s → listener s = false → step a s = Some s' →
  listener s' = false ∧ (steps_left s' < steps_left s)%nat.
Proof.
  intros Hs Hl. destruct Hs as [_ Ho _ _ _ Hm _].
  pose proof (λ X n, size_remove X n (size X) ltac:(lia)) as Hremove.
  pose proof (subseteq_size (opened s ∖ connections s) (opened s) ltac:(set_solver)) as Hconns.
  unfold step, steps_left. destruct a as [|err|err| | | | |conn|conn].
  - rewrite Hl. by destruct (main s).
  - destruct (main s) eqn:Em; try done. intros [= <-]. split; [done|]. cbn. destruct (async s); cbn; lia.
  - destruct err as [err|], (main s) as [|conn|conn| | |] eqn:Em; try done; intros [= <-]; (split; [done|]); cbn.
    + specialize (Hremove (opened s) conn). lia.
    + lia.
  - destruct (main s) as [|conn|conn| | |] eqn:Em; try done. intros [= <-]. unfold register.
    destruct (_ || _); (split; [done|]); cbn.
    + specialize (Hremove (opened s) conn). lia.
    + pose proof (size_more (workers s) conn). lia.
  - destruct (done s) eqn:Ed; [by destruct (main s)|]. intros E.
    assert (s' = mkServer (listener s) (homa s) true (connections s) (opened s) (workers s) (next s)
      (match async s with Idle => Running CloseListener | a => a end) (main s)) as -> by (destruct (main s); congruence).
    split; [done|]. cbn. destruct (async s); cbn; lia.
  - destruct (async s) as [|st| |] eqn:Ea; try by destruct (main s). intros E.
    assert (s' = set_async (match following st with Some st => Running st | None => Finished end) (shutdown_step st s))
      as -> by (destruct (main s); congruence).
    destruct st; (split; [done|]); cbn; rewrite ?Ea; cbn; lia.
  - destruct (main s) as [| | |r st|r|] eqn:Em; try done.
    + intros [= <-]. destruct st; (split; [done|]); cbn; lia.
    + case_bool_decide; [|done]. intros [= <-]. split; [done|]. cbn. lia.
  - destruct (bool_decide (conn ∈ workers s)); [|by destruct (main s)].
    case_bool_decide as Hc; [|by destruct (main s)]. intros E.
    assert (s' = close_conn conn s) as -> by (destruct (main s); cbn in E; congruence).
    split; [done|]. cbn. pose proof (size_less (opened s) conn Hc). lia.
  - case_bool_decide as Hc; [|by destruct (main s)]. case_bool_decide; [by destruct (main s)|]. intros E.
    assert (s' = mkServer (listener s) (homa s) (done s) (connections s ∖ {[ conn ]}) (opened s)
      (workers s ∖ {[ conn ]}) (next s) (async s) (main s)) as -> by (destruct (main s); cbn in E; congruence).
    split; [done|]. cbn. pose proof (size_less (workers s) conn Hc). lia.
Qed.

(** The steps that do not depend on anyone else: AcceptTCP of a closed listener
    fails, and the goroutine of a closed connection ends. *)
Definition own_step (a : action) : Prop :=
  match a with AcceptConn | Cancel | WorkerClose _ => False | _ => True end.

Lemma own_progress s :
  serve_ok s → listener s = false →
  (∃ r, main s = Returned r) ∨ ∃ a s', own_step a ∧ step a s = Some s'.
Proof.
  intros [Hw Ho _ _ _ Hm _] Hl. destruct (main s) as [|conn|conn|r st|r|r] eqn:Em; [right..|left; by eexists].
  - exists (AcceptError EOF). eexists. split; [done|]. unfold step. by rewrite Em.
  - exists (SetNoDelay None). eexists. split; [done|]. unfold step. by rewrite Em.
  - exists Register. eexists. split; [done|]. unfold step. by rewrite Em.
  - exists MainStep. eexists. split; [done|]. unfold step. by rewrite Em.
  - unfold closed_by_main in Hm. rewrite Em in Hm. destruct Hm as (_&Hopen&_).
    destruct (decide (workers s = ∅)) as [He|(conn&Hc)%set_choose_L].
    + exists MainStep. eexists. split; [done|]. unfold step. rewrite Em. by rewrite bool_decide_true.
    + exists (WorkerDone conn). eexists. split; [done|]. unfold step. rewrite Em.
      rewrite (bool_decide_true (conn ∈ workers s)), (bool_decide_false (conn ∈ opened s)) by set_solver. done.
Qed.

Lemma steps_closed l s s' : serve_ok s → listener s = false → steps l s = Some s' → listener s' = false.
Proof.
  revert s. induction l as [|a l IH]; intros s Hs Hl; cbn; [by intros [= <-]|].
  destruct (step a s) as [s1|] eqn:E; [|done].
  apply IH; [by eapply step_ok|by destruct (step_decreases a s s1 Hs Hl E)].
Qed.

Lemma steps_bounded l s s' :
  serve_ok s → listener s = false → steps l s = Some s' → (length l + steps_left s' ≤ steps_left s)%nat.
Proof.
  revert s. induction l as [|a l IH]; intros s Hs Hl; cbn; [by intros [= <-]|].
  destruct (step a s) as [s1|] eqn:E; [|done]. cbn. intros Hrun.
  destruct (step_decreases a s s1 Hs Hl E) as [Hl1 Hless].
  pose proof (IH s1 (step_ok a s s1 Hs E) Hl1 Hrun). lia.
Qed.

(** *** The end of the context closes the listener *)

(** While the context is not done the function of AfterFunc waits; once it runs
    its first step closes the listener; it is kept from running only by the
    deferred function. *)
Definition after_ok (s : server) : Prop :=
  match async s with
  | Idle => done s = false
  | Running CloseListener => True
  | Running _ | Finished => listener s = false
  | Stopped => match main s with Accepting | NoDelay _ | Registering _ => False | _ => True end
  end.

(** Steps that leave alone what [after_ok] is about. *)
Lemma after_same s s' :
  async s' = async s → done s' = done s → (listener s = false → listener s' = false) →
  (match main s with Accepting | NoDelay _ | Registering _ => True | _ =>
     match main s' with Accepting | NoDelay _ | Registering _ => False | _ => True end end) →
  after_ok s → after_ok s'.
Proof.
  intros Ea Ed El Em. unfold after_ok. rewrite Ea, Ed. destruct (async s) as [|[]| |]; auto.
  by destruct (main s), (main s').
Qed.

Lemma shutdown_same st s : main (shutdown_step st s) = main s ∧ done (shutdown_step st s) = done s ∧
  async (shutdown_step st s) = async s ∧ (listener s = false → listener (shutdown_step st s) = false).
Proof. by destruct st. Qed.

Lemma after_step a s s' : after_ok s → step a s = Some s' → after_ok s'.
Proof.
  intros Hs. unfold step. destruct a as [|err|err| | | | |conn|conn].
  - destruct (main s) eqn:Em; try done. destruct (listener s) eqn:El; [|done]. intros [= <-].
    apply (after_same s); try done; rewrite ?Em; try done. congruence.
  - destruct (main s) eqn:Em; try done. intros [= <-]. unfold after_ok in *. cbn.
    by destruct (async s) as [|[]| |].
  - destruct err, (main s) eqn:Em; try done; intros [= <-]; (apply (after_same s); [done..|by rewrite Em|done]).
  - destruct (main s) eqn:Em; try done. intros [= <-].
    unfold register. destruct (_ || _); (apply (after_same s); [done..|by rewrite Em|done]).
  - destruct (done s) eqn:Ed; [by destruct (main s)|]. intros E.
    assert (s' = mkServer (listener s) (homa s) true (connections s) (opened s) (workers s) (next s)
      (match async s with Idle => Running CloseListener | a => a end) (main s)) as -> by (destruct (main s); congruence).
    unfold after_ok in *. cbn. by destruct (async s) as [|[]| |].
  - destruct (async s) as [|st| |] eqn:Ea; try by destruct (main s). intros E.
    assert (s' = set_async (match following st with Some st => Running st | None => Finished end) (shutdown_step st s))
      as -> by (destruct (main s); congruence).
    unfold after_ok in *. rewrite Ea in Hs. by destruct st.
  - destruct (main s) as [| | |r st|r|] eqn:Em; try done.
    + intros [= <-]. destruct (shutdown_same st s) as (_&Hd&Ha&Hl).
      apply (after_same s); [done..|rewrite Em; by destruct st|done].
    + case_bool_decide; [|done]. intros [= <-]. apply (after_same s); [done..|by rewrite Em|done].
  - destruct (_ && _); [|by destruct (main s)]. intros E.
    assert (s' = close_conn conn s) as -> by (destruct (main s); congruence).
    apply (after_same s); [done..|cbn; by destruct (main s)|done].
  - destruct (_ && _); [|by destruct (main s)]. intros E.
    assert (async s' = async s ∧ done s' = done s ∧ listener s' = listener s ∧ main s' = main s) as (Ha&Hd&Hl&Hm)
      by (destruct (main s) eqn:Em; by injection E as <-).
    apply (after_same s); [done|done|congruence| |done]. rewrite Hm. by destruct (main s).
Qed.

Lemma serve_after_reachable s : reachable s → after_ok s.
Proof.
  intros [l Hl]. revert Hl. assert (after_ok start) as Hstart by done. revert Hstart. generalize start as s0.
  induction l as [|a l IH]; intros s0 Hs; cbn; [by intros [= <-]|].
  destruct (step a s0) as [s1|] eqn:E; [|done]. apply IH. by eapply after_step.
Qed.

(** When the context is done, the next step of [shutdown] closes the listener. *)
Lemma cancel_closes s :
  reachable s → done s = true → listener s = true →
  ∃ a s', a ∈ [AsyncStep; MainStep] ∧ step a s = Some s' ∧ listener s' = false.
Proof.
  intros Hr Hd Hl. pose proof (reachable_ok s Hr) as [_ _ _ _ _ Hm _]. apply serve_after_reachable in Hr.
  unfold after_ok, closed_by_main in *. destruct (async s) as [|[]| |] eqn:Ea; try congruence.
  - exists AsyncStep. unfold step. rewrite Ea. destruct (main s); eexists; (split; [by left|done]).
  - destruct (main s) as [| | |r []| |] eqn:Em; try done; try naive_solver congruence.
    exists MainStep. unfold step. rewrite Em. eexists. split; [right; by left|done].
Qed.


(** A connection is served when the context ends. *)
Definition demo : list action :=
  [AcceptConn; SetNoDelay None; Register; Cancel; AsyncStep; AcceptError NetClosed; MainStep; MainStep; AsyncStep;
   MainStep; WorkerDone 0; AsyncStep; MainStep].

Definition ended (o : option server) : bool :=
  match o with Some s => match main s with Returned None => true | _ => false end | None => false end.

Lemma demo_ends : ended (steps demo start) = true.
Proof. vm_compute. reflexivity. Qed.

End bench_serve.
