(* ===== verification/BenchRun.v ===== *)
(** * The benchmark as a process (run, serve and client of src/cmd/homa-bench/main.go)

    From the command line to the report: the flags, the checks, the output file,
    the endpoint and the TCP connection with their deferred closing, the
    measurements and the JSON report.  The accept loop of [serve] is a parameter
    here; BenchServe models it.  Progress messages are left out. *)
From S2P Require Import Prelude Wire Api Text Net Float64.
From S2P Require Import Flag Json Bench BenchFacts.
From S2P Require Import RawIP Process EchoRun.

#[local] Open Scope Z_scope.

Module bench_run.
Import bench process.

Inductive run_error :=
| ErrUsage | ErrFlags | ErrPositional
| ErrOptions (err : error)
| ErrBind
| ErrOpen (err : io_error + Api.error)
| ErrSystem (err : io_error)
| ErrMeasure (err : error)
| ErrOutput (err : encode_error).

(** ** Flags and reports *)

Definition shared_flags : flag.flagset :=
  [(text "timeout", flag.VDuration (5 * Second)); (text "duration", flag.VDuration (10 * Minute))].

Definition serve_flags : flag.flagset := shared_flags ++ [(text "bind", flag.VString (text "127.0.0.1"))].

Definition client_flags : flag.flagset := shared_flags ++
  [(text "local", flag.VString (text "127.0.0.1:4003"));
   (text "peer", flag.VString (text "127.0.0.1:4000"));
   (text "tcp-peer", flag.VString (text "127.0.0.1:14000"));
   (text "sizes", flag.VString (text "64,1024,16384,65536,1000000"));
   (text "warmup", flag.VInt 10);
   (text "small-samples", flag.VInt 1000);
   (text "large-samples", flag.VInt 100);
   (text "rounds", flag.VInt 3);
   (text "out", flag.VString (text "-"));
   (text "scope", flag.VString (text "unspecified network"))].

Definition options_json (o : clientOptions) : json.value :=
  json.Obj [json.fld "local" (json.Str (Local o)); json.fld "homa_peer" (json.Str (Peer o));
    json.fld "tcp_peer" (json.Str (TCPPeer o));
    json.fld "payload_sizes" (json.Arr (json.Int <$> Sizes o));
    json.fld "warmups_per_measurement" (json.Int (Warmup o));
    json.fld "small_samples" (json.Int (SmallSamples o));
    json.fld "large_samples" (json.Int (LargeSamples o));
    json.fld "rounds" (json.Int (Rounds o));
    json.fld "call_timeout_ns" (json.Int (Timeout o));
    json.fld "network_scope" (json.Str (Scope o))].

Definition measurement_json (m : measurement) : json.value :=
  json.Obj ([json.fld "round" (json.Int (Round m)); json.fld "order_in_pair" (json.Int (Order m));
    json.fld "transport" (json.Str (text (Transport m)));
    json.fld "payload_bytes" (json.Int (Bytes m));
    json.fld "verified_calls" (json.Int (Count m));
    json.fld "elapsed_seconds_including_validation" (json.Float (Elapsed m));
    json.fld "verified_bidirectional_payload_bytes" (json.Int (PayloadBytes m));
    json.fld "bidirectional_payload_goodput_mbps" (json.Float (Goodput m));
    json.fld "p50_rtt_us" (json.Float (P50 m)); json.fld "p95_rtt_us" (json.Float (P95 m));
    json.fld "p99_rtt_us" (json.Float (P99 m)); json.fld "max_rtt_us" (json.Float (Max m));
    json.fld "rtt_samples_ns" (json.Arr (json.Int <$> Samples m))] ++
    json.omitempty "homa_stats_before" json.of_stats (HomaBefore m) ++
    json.omitempty "homa_stats_after" json.of_stats (HomaAfter m)).

(** [started.UTC()] as text. *)
Class Calendar := { UTC : Z → list Z }.

Definition evidence : string :=
  "Sequential verified plaintext echo RTT and bidirectional application-payload goodput; one persistent endpoint/connection; not link capacity, loaded tail-latency, or the Homa paper's kernel implementation performance. Homa requests IP precedence priorities while TCP uses default QoS; physical-network differences can include QoS treatment, not only transport logic.".

Definition report_json `{GoRuntime, Calendar} (started : Z) (options : clientOptions) (elapsed : float64)
  (results : list measurement) : json.value :=
  json.Obj [json.fld "status" (json.Str (text "passed"));
    json.fld "started_utc" (json.Str (UTC started));
    json.fld "client_platform" (json.Str platform);
    json.fld "go_version" (json.Str Version);
    json.fld "evidence" (json.Str (text evidence));
    json.fld "options" (options_json options);
    json.fld "total_elapsed_seconds" (json.Float elapsed);
    json.fld "measurements" (json.Arr (measurement_json <$> results))].

(** ** The client *)

Section run.
Context `{GoPlatform, OS, RawSocket, Network, json.FloatText, GoRuntime, Calendar}.

(** A file created for the report, or the standard output. *)
Definition with_output (outPath : list Z) (body : (list Z → M process (option io_error)) → M process (option run_error))
  : M process (option run_error) :=
  if bool_decide (outPath = text "-") then body write_out else
  r ← CreateExclusive outPath;
  match r with
  | inl err => mret (Some (ErrSystem err))
  | inr file => deferred (release file) (body (append_file outPath))
  end.

(** The measurements and the report. *)
Definition measure_and_report (options : clientOptions) (output : list Z → M process (option io_error))
  : M process (option run_error) :=
  started ← on_network bench.Now;
  r ← on_network (bench.client options);
  match r with
  | inl err => mret (Some (ErrMeasure err))
  | inr results =>
      ended ← on_network bench.Now;
      err ← Encode output (report_json started options (Seconds (Sub ended started)) results);
      mret (ErrOutput <$> err)
  end.

(** From [homa.Listen] to the end of [client]. *)
Definition connect_and_measure (local : Addr) (options : clientOptions) (output : list Z → M process (option io_error))
  : M process (option run_error) :=
  r ← Listen local (echo_run.timeout_config (Timeout options)) false;
  match r with
  | inl err => mret (Some (ErrOpen err))
  | inr h =>
      deferred (Close h) (
      r ← acquire;
      match r with
      | inl err => mret (Some (ErrSystem err))
      | inr conn =>
          deferred (release conn) (
          err ← attempt;
          match err with
          | Some err => mret (Some (ErrSystem err))
          | None => deferred (after_func (release conn;; Close h)) (measure_and_report options output)
          end)
      end)
  end.

Definition client (options : clientOptions) (outPath : list Z) : M process (option run_error) :=
  match check_addresses options with
  | inl err => mret (Some (ErrOptions err))
  | inr (local, peer, tcpAddr) => with_output outPath (connect_and_measure local options)
  end.

(** ** The server *)

(** [serve] around its accept loop, whose result is [loop]. *)
Definition serve (loop : M process (option io_error)) (bind : list Z) (timeout : Z) : M process (option run_error) :=
  match addr.parseIPv4Fields bind 0 0 [] with
  | None => mret (Some ErrBind)
  | Some fields =>
      r ← Listen (mkAddr (IPv4 (be_decode fields)) 4000) (echo_run.timeout_config timeout) true;
      match r with
      | inl err => mret (Some (ErrOpen err))
      | inr h =>
          deferred (Close h) (
          r ← acquire;
          match r with
          | inl err => mret (Some (ErrSystem err))
          | inr listener =>
              deferred (release listener) (
              deferred (release listener;; Close h) (
              deferred (after_func (release listener;; Close h)) (
              err ← loop;
              mret (ErrSystem <$> err))))
          end)
      end
  end.

(** ** The command *)

Definition run_client (fs : flag.flagset) (timeout duration : Z) : M process (option run_error) :=
  local ← or_panic (flag.get_string fs "local");
  peer ← or_panic (flag.get_string fs "peer");
  tcpPeer ← or_panic (flag.get_string fs "tcp-peer");
  sizes ← or_panic (flag.get_string fs "sizes");
  warmup ← or_panic (flag.get_int fs "warmup");
  small ← or_panic (flag.get_int fs "small-samples");
  large ← or_panic (flag.get_int fs "large-samples");
  rounds ← or_panic (flag.get_int fs "rounds");
  out ← or_panic (flag.get_string fs "out");
  scope ← or_panic (flag.get_string fs "scope");
  match check_client local peer tcpPeer (utf8.runes 0 sizes) scope warmup small large rounds timeout duration with
  | inl err => mret (Some (ErrOptions err))
  | inr options => client options out
  end.

Definition run (loop : M process (option io_error)) (args : list (list Z)) : M process (option run_error) :=
  match args with
  | [] => mret (Some ErrUsage)
  | mode :: args =>
      if negb (bool_decide (mode = text "serve")) && negb (bool_decide (mode = text "client"))
      then mret (Some ErrUsage) else
      let serving := bool_decide (mode = text "serve") in
      match flag.Parse (if serving then serve_flags else client_flags) args with
      | inl flag.ErrHelp => mret None
      | inl flag.ErrSyntax => mret (Some ErrFlags)
      | inr (fs, rest) =>
          if negb (len rest =? 0) then mret (Some ErrPositional) else
          timeout ← or_panic (flag.get_duration fs "timeout");
          duration ← or_panic (flag.get_duration fs "duration");
          match check_limits timeout duration with
          | Some err => mret (Some (ErrOptions err))
          | None =>
              if serving then
                bind ← or_panic (flag.get_string fs "bind");
                serve loop bind timeout
              else run_client fs timeout duration
          end
      end
  end.
End run.

(** ** Theorems *)

Import bench_facts.

(** The measurements a command line asks for, with the file for the report. *)
Definition requested `{GoPlatform} (args : list (list Z)) : option (clientOptions * list Z) :=
  match args with
  | [] => None
  | mode :: args =>
      if negb (bool_decide (mode = text "client")) then None else
      match flag.Parse client_flags args with
      | inr (fs, []) =>
          timeout ← flag.get_duration fs "timeout";
          duration ← flag.get_duration fs "duration";
          local ← flag.get_string fs "local";
          peer ← flag.get_string fs "peer";
          tcpPeer ← flag.get_string fs "tcp-peer";
          sizes ← flag.get_string fs "sizes";
          warmup ← flag.get_int fs "warmup";
          small ← flag.get_int fs "small-samples";
          large ← flag.get_int fs "large-samples";
          rounds ← flag.get_int fs "rounds";
          out ← flag.get_string fs "out";
          scope ← flag.get_string fs "scope";
          match check_client local peer tcpPeer (utf8.runes 0 sizes) scope warmup small large rounds timeout duration with
          | inl _ => None
          | inr options => Some (options, out)
          end
      | _ => None
      end
  end.

Section facts.
Context `{GoPlatform, OS, RawSocket, Network, json.FloatText, GoRuntime, Calendar}.

(** A report of the measurements the options ask for, in order, each with the
    percentiles of its own samples. *)
Definition report_on (o : clientOptions) (v : json.value) : Prop :=
  ∃ started elapsed results, v = report_json started o elapsed results ∧
    place <$> results = places o ∧ Forall summary_ok results.

Definition same_io (p p' : process) : Prop := p_out p' = p_out p ∧ p_files p' = p_files p.

(** What a report's destination looks like after a complete and after a failed
    write; no other file changes. *)
Definition delivered (out s : list Z) (p p' : process) : Prop :=
  if bool_decide (out = text "-") then p_out p' = p_out p ++ s ∧ p_files p' = p_files p
  else p_out p' = p_out p ∧ p_files p !! out = None ∧ p_files p' = <[out := mkFile s 384]> (p_files p).

Definition attempted (out : list Z) (p p' : process) : Prop := ∃ s, delivered out s p p'.

(** A run that does not come to the report has left at most the new, empty
    file. *)
Definition untouched (out : list Z) (p p' : process) : Prop := same_io p p' ∨ delivered out [] p p'.

(** What the client says about the measurements of the options. *)
Definition verdict (req : option (clientOptions * list Z)) (p : process) (r : option run_error) (p' : process) : Prop :=
  match req with
  | None => same_io p p'
  | Some (o, out) =>
      match r with
      | None => echoes (w_calls (p_world p)) (plan o) ∧
          ∃ v s, report_on o v ∧ json.MarshalIndent v = Some s ∧ delivered out (s ++ [10]) p p'
      | Some (ErrMeasure _) => ¬ echoes (w_calls (p_world p)) (plan o) ∧ untouched out p p'
      | Some (ErrOutput _) => echoes (w_calls (p_world p)) (plan o) ∧ attempted out p p'
      | Some _ => untouched out p p'
      end
  end.

Lemma delivered_view out s p q q' : delivered out s p q → same_view q q' → delivered out s p q'.
Proof. intros Hd [Ho _ Hf]. unfold delivered in *. by rewrite Ho, Hf. Qed.

Lemma untouched_view out p q q' : untouched out p q → same_view q q' → untouched out p q'.
Proof.
  intros [[Ho Hf]|Hd] Hs; [left|right; by eapply delivered_view]. destruct Hs. unfold same_io. split; congruence.
Qed.

Lemma attempted_view out p q q' : attempted out p q → same_view q q' → attempted out p q'.
Proof. intros [s Hd] Hs. exists s. by eapply delivered_view. Qed.

Lemma bench_verdict_view req p a q r : verdict req p a q → same_view q r → verdict req p a r.
Proof.
  intros Hv Hs. destruct req as [[o out]|]; cbn [verdict] in *.
  2: { destruct Hv, Hs. split; congruence. }
  destruct a as [err|].
  - destruct err; try (by eapply untouched_view); destruct Hv; split; eauto using untouched_view, attempted_view.
  - destruct Hv as (He&v&s&Hr&Hm&Hd). split; [done|]. exists v, s. eauto using delivered_view.
Qed.

(** The destination is ready for the report. *)
Definition ready (out : list Z) (p q : process) : Prop :=
  delivered out [] p q ∧ p_world q = p_world p.

Lemma ready_view out p q r : ready out p q → same_view q r → ready out p r.
Proof. intros [Hd Hw] Hs. split; [by eapply delivered_view|]. destruct Hs. congruence. Qed.

(** A destination that takes the report. *)
Definition takes (out : list Z) (output : list Z → M process (option io_error)) : Prop :=
  ∀ s p q, delivered out [] p q → wp (output s) (λ err q', match err with
    | None => delivered out s p q'
    | Some _ => attempted out p q'
    end) q.

Lemma takes_write_out : takes (text "-") write_out.
Proof.
  intros s p q. unfold attempted, delivered. rewrite bool_decide_true by done. rewrite app_nil_r. intros [Ho Hf].
  unfold write_out, syscall, syscall_for. wp_steps. cbn. rewrite Ho. destruct (os_fails _); [by eexists|done].
Qed.

Lemma takes_append_file out : out ≠ text "-" → takes out (append_file out).
Proof.
  intros Hne s p q. unfold attempted, delivered. rewrite bool_decide_false by done. intros (Ho&Hn&Hf).
  unfold append_file, syscall, syscall_for. wp_steps. cbn. rewrite Hf, lookup_insert_eq. cbn.
  destruct (os_fails _) as [err|]; cbn; [eexists|]; by rewrite insert_insert_eq.
Qed.

Lemma wp_measure_and_report o out output p q :
  options_ok o → takes out output → ready out p q →
  wp (measure_and_report o output) (verdict (Some (o, out)) p) q.
Proof.
  intros Ho Hout [Hd Hw]. unfold measure_and_report. wp_step. apply wp_zoom, wp_Now. intros started w1 Hw1.
  wp_step. apply wp_zoom. eapply wp_mono; [by apply runs_client|]. cbn [p_world set_world]. rewrite Hw1, Hw.
  intros [err|results] w2 Hr; [wp_step; split; [done|by right]|]. destruct Hr as ([Hp Hs]&He&_).
  wp_step. apply wp_zoom, wp_Now. intros ended w3 _. unfold Encode. set (v := report_json _ _ _ _).
  assert (report_on o v) as Hv by (do 3 eexists; split; [reflexivity|done]). wp_step.
  destruct (json.MarshalIndent v) as [s|] eqn:Es; [|do 2 wp_step; split; [done|by exists []]].
  wp_step. eapply wp_mono; [apply (Hout _ p); exact Hd|]. intros [err|] q' Hq; do 2 wp_step; [done|].
  split; [done|]. by exists v, s.
Qed.

Lemma wp_connect_and_measure local o out output p q :
  options_ok o → takes out output → ready out p q →
  wp (connect_and_measure local o output) (verdict (Some (o, out)) p) q.
Proof.
  intros Ho Hout Hr. unfold connect_and_measure. apply wp_hidden; [apply hidden_Listen|]. intros [err|h] q1 Hs1.
  all: pose proof (ready_view out p q q1 Hr Hs1) as Hr1.
  { wp_step. right. apply Hr1. }
  apply wp_deferred; [apply bench_verdict_view|apply hidden_Close|].
  apply wp_hidden; [apply hidden_acquire|]. intros [err|conn] q2 Hs2.
  all: pose proof (ready_view out p q1 q2 Hr1 Hs2) as Hr2.
  { wp_step. right. apply Hr2. }
  apply wp_deferred; [apply bench_verdict_view|apply hidden_release|].
  apply wp_hidden; [apply hidden_attempt|]. intros [err|] q3 Hs3.
  all: pose proof (ready_view out p q2 q3 Hr2 Hs3) as Hr3.
  { wp_step. right. apply Hr3. }
  apply wp_deferred; [apply bench_verdict_view| |by apply wp_measure_and_report].
  apply hidden_after_func, hidden_bind; [apply hidden_release|]. intros _. apply hidden_Close.
Qed.

Lemma same_io_view p q : same_view p q → same_io p q.
Proof. by intros [? _ ?]. Qed.

(** The file is created only when it does not exist. *)
Lemma wp_CreateExclusive out p :
  out ≠ text "-" → wp (CreateExclusive out) (λ r q, match r with
    | inl _ => same_io p q
    | inr _ => ready out p q
    end) p.
Proof.
  intros Hne. unfold CreateExclusive. do 2 wp_step. destruct (p_files p !! out) eqn:E; [by wp_step|].
  wp_step. eapply wp_mono; [apply hidden_acquire|]. intros [err|h] q Hq; [wp_step; by apply same_io_view|].
  unfold put_file. wp_steps. destruct Hq as [Ho Hw Hf]. split; [|done]. unfold delivered.
  rewrite bool_decide_false by done. cbn. by rewrite Hf.
Qed.

Lemma wp_client o out p : options_ok o → wp (client o out) (verdict (Some (o, out)) p) p.
Proof.
  intros Ho. unfold client. destruct (check_addresses o) as [err|[[local peer] tcpAddr]]; [wp_step; by left|].
  unfold with_output. case_bool_decide as Hout.
  - subst out. apply wp_connect_and_measure; [done|apply takes_write_out|]. split; [|done].
    unfold delivered. rewrite bool_decide_true by done. by rewrite app_nil_r.
  - wp_step. eapply wp_mono; [by apply wp_CreateExclusive|]. intros [err|file] q Hq; [wp_step; by left|].
    apply wp_deferred; [apply bench_verdict_view|apply hidden_release|].
    apply wp_connect_and_measure; [done|by apply takes_append_file|done].
Qed.

(** The accept loop of the server does not print. *)
Lemma wp_serve loop bind timeout p :
  (∀ q, wp loop (λ _ q', same_view q q') q) → wp (serve loop bind timeout) (λ _ p', same_io p p') p.
Proof.
  intros Hloop. unfold serve. destruct (addr.parseIPv4Fields bind 0 0 []) as [fields|]; [|by wp_step].
  eapply wp_mono; [|intros r p'; apply same_io_view].
  apply wp_hidden; [apply hidden_Listen|]. intros [err|h] q1 Hs1; [by wp_step|].
  assert (∀ (a : option run_error) q r, same_view p q → same_view q r → same_view p r) as Htrans
    by (intros _ q r; apply same_view_trans).
  apply wp_deferred; [done|apply hidden_Close|].
  apply wp_hidden; [apply hidden_acquire|]. intros [err|listener] q2 Hs2; [wp_step; by eapply same_view_trans|].
  assert (hidden (release listener;; Close h)) as Hshut
    by (apply hidden_bind; [apply hidden_release|intros _; apply hidden_Close]).
  apply wp_deferred; [done|apply hidden_release|]. apply wp_deferred; [done|done|].
  apply wp_deferred; [done|by apply hidden_after_func|].
  apply wp_hidden; [exact Hloop|]. intros err q3 Hs3. wp_step. eauto using same_view_trans.
Qed.

(** *** The command line *)

Lemma serve_flags_values args fs rest :
  flag.Parse serve_flags args = inr (fs, rest) →
  ∃ timeout duration bind, flag.get_duration fs "timeout" = Some timeout ∧
    flag.get_duration fs "duration" = Some duration ∧ flag.get_string fs "bind" = Some bind.
Proof.
  intros Hp%flag.Parse_kinds. unfold serve_flags in Hp. cbn [shared_flags app] in Hp. flag.open_flags Hp.
  do 3 eexists. split_and!; reflexivity.
Qed.

Lemma client_flags_values args fs rest :
  flag.Parse client_flags args = inr (fs, rest) →
  ∃ timeout duration local peer tcpPeer sizes warmup small large rounds out scope,
    flag.get_duration fs "timeout" = Some timeout ∧ flag.get_duration fs "duration" = Some duration ∧
    flag.get_string fs "local" = Some local ∧ flag.get_string fs "peer" = Some peer ∧
    flag.get_string fs "tcp-peer" = Some tcpPeer ∧ flag.get_string fs "sizes" = Some sizes ∧
    flag.get_int fs "warmup" = Some warmup ∧ flag.get_int fs "small-samples" = Some small ∧
    flag.get_int fs "large-samples" = Some large ∧ flag.get_int fs "rounds" = Some rounds ∧
    flag.get_string fs "out" = Some out ∧ flag.get_string fs "scope" = Some scope.
Proof.
  intros Hp%flag.Parse_kinds. unfold client_flags in Hp. cbn [shared_flags app] in Hp. flag.open_flags Hp.
  do 12 eexists. do 11 (split; [reflexivity|]). reflexivity.
Qed.

(** The command line decides between the server and the client. *)
Lemma check_client_limits local peer tcp sizes scope warmup small large rounds timeout duration err :
  check_limits timeout duration = Some err →
  check_client local peer tcp sizes scope warmup small large rounds timeout duration = inl err.
Proof. intros E. unfold check_client. by rewrite E. Qed.

(** The errors before anything is opened. *)
Definition early (err : run_error) : Prop :=
  match err with ErrMeasure _ | ErrOutput _ => False | _ => True end.

(** A property of [run] is one of the errors, of the server and of the client. *)
Lemma run_cases loop args (T : option (clientOptions * list Z) → M process (option run_error) → Prop) :
  (∀ req err, early err → T req (mret (Some err))) → T None (mret None) →
  (∀ bind timeout, T None (serve loop bind timeout)) →
  (∀ o out, options_ok o → T (Some (o, out)) (client o out)) →
  T (requested args) (run loop args).
Proof.
  intros Herr Hhelp Hserve Hclient. unfold run, requested. destruct args as [|mode args]; [by apply Herr|].
  destruct (decide (mode = text "serve")) as [->|Es].
  - rewrite (bool_decide_true (text "serve" = text "serve")), (bool_decide_false (text "serve" = text "client")) by done.
    cbn [negb andb].
    destruct (flag.Parse serve_flags args) as [[]|[fs rest]] eqn:Ep; [exact Hhelp|by apply Herr|].
    destruct (negb _); [by apply Herr|].
    destruct (serve_flags_values args fs rest Ep) as (timeout&duration&bind&->&->&->). rewrite !or_panic_Some.
    destruct (check_limits timeout duration); [by apply Herr|apply Hserve].
  - rewrite (bool_decide_false (mode = text "serve")) by done. case_bool_decide as Ec; cbn [negb andb]; [|by apply Herr].
    destruct (flag.Parse client_flags args) as [[]|[fs rest]] eqn:Ep; [exact Hhelp|by apply Herr|].
    rewrite flag.narg. destruct rest as [|]; [|by apply Herr].
    destruct (client_flags_values args fs [] Ep) as (timeout&duration&local&peer&tcp&sizes&warmup&small&large&rounds&out&
      scope&Ht&Hd&Hl&Hp&Htcp&Hs&Hw&Hsm&Hla&Hr&Hout&Hsc).
    rewrite Ht, Hd, !or_panic_Some. cbn [mbind option_bind].
    destruct (check_limits timeout duration) as [err|] eqn:El; [by apply Herr|].
    unfold run_client. rewrite Hl, Hp, Htcp, Hs, Hw, Hsm, Hla, Hr, Hout, Hsc, !or_panic_Some. cbn [mbind option_bind].
    destruct (check_client _ _ _ _ _ _ _ _ _ _ _) as [err|o] eqn:Eo; [by apply Herr|].
    apply Hclient. by apply check_client_ok in Eo as [? _].
Qed.

(** Files that exist are left alone. *)
Lemma delivered_kept out s p p' path f :
  delivered out s p p' → p_files p !! path = Some f → p_files p' !! path = Some f.
Proof.
  unfold delivered. case_bool_decide; [by intros [_ ->]|]. intros (_&Hn&->) Hp.
  rewrite lookup_insert_ne; [done|]. congruence.
Qed.

Lemma files_kept req p r p' path f :
  verdict req p r p' → p_files p !! path = Some f → p_files p' !! path = Some f.
Proof.
  destruct req as [[o out]|]; cbn [verdict]; [|by intros [_ ->]].
  assert (untouched out p p' → p_files p !! path = Some f → p_files p' !! path = Some f) as Hu.
  { intros [[_ ->]|Hd]; [done|]. by eapply delivered_kept. }
  destruct r as [err|].
  - destruct err; try done; [intros [_ ?]; by apply Hu|intros [_ [s Hd]]; by eapply delivered_kept].
  - intros (_&v&s&_&_&Hd). by eapply delivered_kept.
Qed.

Lemma bench_wp_run_verdict loop args p :
  (∀ q, wp loop (λ _ q', same_view q q') q) → wp (run loop args) (verdict (requested args) p) p.
Proof.
  intros Hloop. apply (run_cases loop args (λ req m, wp m (verdict req p) p)).
  - intros [[o out]|] err Herr; wp_step; [|done]. destruct err; try done; by left.
  - by wp_step.
  - intros bind timeout. by apply wp_serve.
  - intros o out Ho. by apply wp_client.
Qed.

(** *** Resources *)

Lemma owns_measure_and_report K K' o output :
  options_ok o → (∀ s, owns K K' (output s)) → owns K K' (measure_and_report o output).
Proof.
  intros Ho Hout. unfold measure_and_report. owns_auto.
  - apply owns_network. intros w. by apply wp_Now.
  - apply owns_network. intros w. eapply wp_mono; [by apply runs_client|done].
  - apply owns_network. intros w. by apply wp_Now.
  - by apply owns_Encode.
Qed.

Lemma owns_connect_and_measure K K' local o output :
  options_ok o → (∀ H H' s, owns H H' (output s)) → owns K K' (connect_and_measure local o output).
Proof. intros Ho Hout. unfold connect_and_measure. owns_auto; eauto using owns_measure_and_report. Qed.

Lemma owns_client o out : options_ok o → owns ∅ ∅ (client o out).
Proof.
  intros Ho. unfold client, with_output. owns_auto; apply owns_connect_and_measure; eauto with owns.
Qed.

Lemma owns_serve loop bind timeout : (∀ H H', owns H H' loop) → owns ∅ ∅ (serve loop bind timeout).
Proof. intros Hloop. unfold serve. owns_auto; apply Hloop. Qed.

End facts.

(** One round of one size, with the report in a new file. *)
Definition plain_calendar : Calendar := Build_Calendar (λ _, text "2025-01-01T00:00:00Z").

#[local] Abbreviation demo_run :=
  (@run amd64 plain_os plain_raw echo_network json.plain_text echo_run.plain_runtime plain_calendar).

Definition demo_args : list (list Z) :=
  [text "client"; text "-sizes=64"; text "-warmup=1"; text "-small-samples=2"; text "-rounds=1"; text "-out"; text "r"].

Definition demo_options : clientOptions :=
  mkOptions (text "127.0.0.1:4003") (text "127.0.0.1:4000") (text "127.0.0.1:14000") [64] 1 2 100 1 5000000000
    (text "unspecified network").

Lemma demo_requested : @requested amd64 demo_args = Some (demo_options, text "r").
Proof. vm_compute. reflexivity. Qed.

Definition succeeded (r : (option run_error * process) + fault) : bool :=
  match r with inl (None, _) => true | _ => false end.

Lemma bench_demo_succeeds : succeeded (demo_run (mret None) demo_args start_process) = true.
Proof. vm_compute. reflexivity. Qed.

End bench_run.
