(* ===== verification/VmRun.v ===== *)
(** * The VM check as a process (run of src/interop/vmcheck/main.go)

    The flags, QEMU with its console log, the connection to it, the endpoint on
    that connection, waiting for the guest, the verified echoes, and the cleanup.
    QEMU's console is a parameter: what it has written by each system call.  The
    text of durations and statistics is a parameter too. *)
From S2P Require Import Prelude Wire Api Text Net Float64.
From S2P Require Import Flag Json Bench BenchFacts Echo EchoFacts.
From S2P Require Import Endpoint VmCheck RawIP RelayRun Process.

#[local] Open Scope Z_scope.

Module vmcheck_run.
Import bench echo process.

(** ** The console log *)

(** [logBuffer.Write]. *)
Definition log_Write (b p : list Z) : list Z := b ++ p.

Class VmText := { duration_text : Z → list Z; stats_text : Stats → list Z }.

Inductive run_error :=
| ErrArguments
| ErrSystem (err : io_error)
| ErrEndpoint (err : Api.error)
| ErrNotReady | ErrEchoes (err : error) | ErrNotVerified.

(** [flag.Parse] ends the process when the command line is wrong. *)
Inductive ending := Exited (code : Z) | Ended (err : option run_error).

Definition flags : flag.flagset :=
  [(text "kernel", flag.VString []); (text "initrd", flag.VString []);
   (text "log", flag.VString (text "/tmp/homa-qemu.log"))].

(** [homa.Config{Timeout: 15s, RetryInterval: 10ms}]. *)
Definition endpoint_config : Config := mkConfig 0 0 0 0 (15 * Second) (10 * Millisecond) 0 0 0 0.

Definition local : Addr := mkAddr vmcheck.hostIP 4001.

(** The lines on the standard output. *)
Definition pass_line `{VmText} (size elapsed : Z) : list Z :=
  text "PASS userspace -> unmodified Linux HomaModule: " ++ decimal 7 size ++ text " bytes (" ++
  duration_text elapsed ++ text ", TCG correctness only)" ++ [10].

Definition guest_line `{VmText} (stats : Stats) : list Z :=
  text "PASS Linux HomaModule -> userspace (guest checks); stats=" ++ stats_text stats ++ [10].

Section run.
Context `{GoPlatform, OS, Network, Console, VmText}.

(** [logs.String()]. *)
Definition logs_String : M process (list Z) :=
  n ← syscall;
  mret (foldl log_Write [] (console n)).

(** Polling the log until the guest has written [marker], or the deadline has
    passed. *)
Fixpoint wait_for (fuel : nat) (marker : list Z) (deadline : Z) : M process bool :=
  match fuel with
  | O => stop OutOfFuel
  | S fuel =>
      log ← logs_String;
      if lanrelay_run.Contains log marker then mret true else
      now ← Now;
      if deadline <? now then mret false else
      Sleep (50 * Millisecond);;
      wait_for fuel marker deadline
  end.

(** Every round takes at least the 50 milliseconds it sleeps. *)
Definition wait_within (d : Z) (marker : list Z) : M process bool :=
  now ← Now;
  wait_for (Z.to_nat (d / (50 * Millisecond)) + 2) marker (now + d).

(** One size of the echo loop, with its line. *)
Definition echo_once (size : Z) (passed : list Z) : M process (error + list Z) :=
  began ← Now;
  r ← on_network (vm_once size passed);
  match r with
  | inl err => mret (inl err)
  | inr passed =>
      ended ← Now;
      _ ← write_out (pass_line size (Sub ended began));
      mret (inr passed)
  end.

(** The checks of an endpoint that is connected to the guest. *)
Definition check_guest : M process (option run_error) :=
  ready ← wait_within (70 * Second) (text "HOMA_GUEST_READY");
  if negb ready then mret (Some ErrNotReady) else
  r ← for_range sizes echo_once [];
  match r with
  | inl err => mret (Some (ErrEchoes err))
  | inr _ =>
      verified ← wait_within (40 * Second) (text "HOMA_GUEST_CLIENT_PASS");
      if negb verified then mret (Some ErrNotVerified) else
      s ← on_network (HomaStats "homa");
      stats ← or_panic s;
      _ ← write_out (guest_line stats);
      mret None
  end.

(** From the listener's deadline on; the endpoint owns the connection. *)
Definition connect_guest : M process (option run_error) :=
  _ ← attempt;
  r ← acquire;
  match r with
  | inl err => mret (Some (ErrSystem err))
  | inr conn =>
      n ← syscall;
      match New true local endpoint_config true (os_random n) with
      | inl err => release conn;; mret (Some (ErrEndpoint err))
      | inr _ => deferred (release conn) check_guest
      end
  end.

(** The deferred function: QEMU is killed and waited for, and its log written. *)
Definition end_guest (qemu : nat) (logPath : list Z) : M process unit :=
  _ ← attempt;
  release qemu;;
  log ← logs_String;
  _ ← WriteFile logPath log 420;
  mret ().

Definition run_guest (logPath : list Z) : M process (option run_error) :=
  r ← acquire;
  match r with
  | inl err => mret (Some (ErrSystem err))
  | inr listener =>
      deferred (release listener) (
      r ← acquire;
      match r with
      | inl err => mret (Some (ErrSystem err))
      | inr qemu => deferred (end_guest qemu logPath) connect_guest
      end)
  end.

Definition run (args : list (list Z)) : M process ending :=
  match flag.Parse flags args with
  | inl flag.ErrHelp => mret (Exited 0)
  | inl flag.ErrSyntax => mret (Exited 2)
  | inr (fs, _) =>
      kernel ← or_panic (flag.get_string fs "kernel");
      initrd ← or_panic (flag.get_string fs "initrd");
      logPath ← or_panic (flag.get_string fs "log");
      if bool_decide (kernel = []) || bool_decide (initrd = []) then mret (Ended (Some ErrArguments)) else
      err ← run_guest logPath;
      mret (Ended err)
  end.
End run.

(** ** Theorems *)

Import bench_facts echo_facts.

Section facts.
Context `{GoPlatform, OS, Network, Console, VmText}.

(** The log held [marker] at the system call [n]. *)
Definition seen (n : nat) (marker : string) : Prop :=
  lanrelay_run.Contains (foldl log_Write [] (console n)) (text marker) = true.

Lemma hidden_logs : hidden logs_String.
Proof. apply hidden_bind; [apply hidden_syscall|]. intros n. apply hidden_ret. Qed.

(** Reading the log at a system call of its own. *)
Lemma wp_logs Q p :
  (∀ q, same_view p q → (p_calls p < p_calls q)%nat → Q (foldl log_Write [] (console (p_calls p))) q) →
  wp logs_String Q p.
Proof.
  intros HQ. unfold logs_String, syscall, syscall_for. wp_steps. apply HQ; [by apply same_view_tick|]. cbn. lia.
Qed.

Lemma wp_Now_time Q p : (∀ q, same_view p q → Q (p_time q) q) → wp process.Now Q p.
Proof. intros HQ. unfold process.Now, syscall, syscall_for. wp_steps. by apply HQ, same_view_tick. Qed.

Lemma wp_Sleep Q d p : 0 ≤ d → (∀ q, same_view p q → p_time p + d ≤ p_time q → Q () q) → wp (Sleep d) Q p.
Proof.
  intros Hd HQ. unfold Sleep, syscall_for. wp_steps. apply HQ; [by apply same_view_tick|]. cbn.
  pose proof (os_delay_ok (p_calls p)). lia.
Qed.

(** What waiting for [marker] until [deadline] leaves behind. *)
Definition waited (marker : string) (deadline : Z) (p : process) (found : bool) (q : process) : Prop :=
  same_view p q ∧
  if found then ∃ n, (p_calls p ≤ n < p_calls q)%nat ∧ seen n marker else deadline < p_time q.

Lemma wp_wait_for fuel marker deadline p :
  deadline - p_time p < Z.of_nat fuel * (50 * Millisecond) →
  wp (wait_for (S fuel) (text marker) deadline) (waited marker deadline p) p.
Proof.
  unfold Millisecond. revert p. induction fuel as [|fuel IH]; intros p Hp; cbn [wait_for]; wp_step; apply wp_logs; intros q Hq Hc.
  all: destruct (lanrelay_run.Contains _ (text marker)) eqn:E; [wp_step; split; [done|]; by exists (p_calls p)|].
  all: wp_step; apply wp_Now_time; intros q1 Hq1; pose proof (same_view_trans _ _ _ Hq Hq1) as Hv;
    destruct (Z.ltb_spec deadline (p_time q1)) as [|Hle]; [by wp_step|].
  - destruct Hv. lia.
  - wp_step. apply wp_Sleep; [unfold Millisecond; lia|]. intros q2 Hq2 Ht. pose proof (same_view_trans _ _ _ Hv Hq2) as Hv2.
    eapply wp_mono; [apply IH; destruct Hv; unfold Millisecond in *; lia|]. intros found r [Hr Hfound].
    split; [by eapply same_view_trans|]. destruct found; [|done]. destruct Hfound as (n&Hn&Hs). exists n.
    destruct Hv2. split; [lia|done].
Qed.

Lemma wp_wait_within d marker p :
  0 ≤ d → wp (wait_within d (text marker)) (waited marker (p_time p + d) p) p.
Proof.
  intros Hd. unfold wait_within. wp_step. apply wp_Now_time. intros q Hq.
  rewrite Nat.add_comm. cbn [Nat.add]. eapply wp_mono; [apply wp_wait_for|].
  - rewrite Nat2Z.inj_succ, Z2Nat.id by (apply Z.div_pos; unfold Millisecond; lia).
    pose proof (Z.mod_pos_bound d (50 * Millisecond) ltac:(unfold Millisecond; lia)).
    pose proof (Z.div_mod d (50 * Millisecond) ltac:(unfold Millisecond; lia)). nia.
  - intros found r [Hr Hfound]. split; [by eapply same_view_trans|]. destruct Hq. destruct found; [|lia].
    destruct Hfound as (n&Hn&Hs). exists n. split; [lia|done].
Qed.

(** *** The echoes *)

(** Printing changes the standard output only. *)
Definition printed (p q : process) : Prop :=
  p_world q = p_world p ∧ p_files q = p_files p ∧ p_time p ≤ p_time q ∧ (p_calls p ≤ p_calls q)%nat.

Lemma wp_write_out s p : wp (write_out s) (λ _ q, printed p q) p.
Proof.
  unfold write_out, syscall, syscall_for. wp_steps. pose proof (os_delay_ok (p_calls p)).
  split; [done|]. split; [done|]. cbn. lia.
Qed.

(** What a part of the run keeps, whatever it does on the network. *)
Definition advanced (p q : process) : Prop :=
  p_files q = p_files p ∧ p_time p ≤ p_time q ∧ (p_calls p ≤ p_calls q)%nat.

Lemma advanced_trans p q r : advanced p q → advanced q r → advanced p r.
Proof. intros (?&?&?) (?&?&?). split; [congruence|]. lia. Qed.

Lemma advanced_view p q : same_view p q → advanced p q.
Proof. by intros []. Qed.

Lemma advanced_printed p q : printed p q → advanced p q.
Proof. by intros (_&?&?&?). Qed.

Lemma wp_echo_once size passed p :
  wp (echo_once size passed) (λ r q, advanced p q ∧ match r with
    | inl _ => ¬ echoes (w_calls (p_world p)) [("homa"%string, vm_payload size)]
    | inr _ => echoes (w_calls (p_world p)) [("homa"%string, vm_payload size)] ∧
        w_calls (p_world q) = S (w_calls (p_world p))
    end) p.
Proof.
  unfold echo_once. wp_step. apply wp_Now_time. intros q Hq. wp_step. apply wp_zoom.
  eapply wp_mono; [apply runs_vm|]. rewrite (sv_world _ _ Hq). intros [err|passed'] w Hr.
  - wp_step. split; [|done]. by apply (advanced_view p q).
  - destruct Hr as (_&He&Hw). wp_step. apply wp_Now_time. intros q1 Hq1. wp_step.
    eapply wp_mono; [apply wp_write_out|]. intros err q2 Hp2. wp_step.
    split; [|split; [done|]].
    + apply (advanced_trans p q); [by apply advanced_view|]. apply (advanced_trans q q1); [by apply advanced_view in Hq1|].
      by apply advanced_printed.
    + destruct Hp2 as [-> _]. rewrite (sv_world _ _ Hq1). cbn. rewrite Hw. cbn. lia.
Qed.

Lemma wp_echo_all l passed p :
  wp (for_range l echo_once passed) (λ r q, advanced p q ∧ match r with
    | inl _ => ¬ echoes (w_calls (p_world p)) (concat ((λ size, [("homa"%string, vm_payload size)]) <$> l))
    | inr _ => echoes (w_calls (p_world p)) (concat ((λ size, [("homa"%string, vm_payload size)]) <$> l))
    end) p.
Proof.
  revert passed p. induction l as [|size l IH]; intros passed p; cbn [for_range].
  { wp_step. split; [by split|]. by intros i t q Hi. }
  rewrite fmap_cons. cbn [concat]. wp_step. eapply wp_mono; [apply wp_echo_once|].
  intros [err|passed'] q [Ha Hr]; [wp_step; split; [done|]; by intros [? _]%echoes_app|].
  destruct Hr as [He Hw]. eapply wp_mono; [apply IH|]. rewrite Hw. intros r q1 [Ha1 Hr1].
  split; [by eapply advanced_trans|]. destruct r; rewrite echoes_app; cbn [length]; rewrite Nat.add_1_r; tauto.
Qed.

(** *** The verdict *)

(** What the check says about the guest. *)
Definition verdict (p : process) (r : option run_error) (q : process) : Prop :=
  match r with
  | None => echoes (w_calls (p_world p)) vm_plan ∧
      ∃ n k, (p_calls p ≤ n < k)%nat ∧ (k < p_calls q)%nat ∧ seen n "HOMA_GUEST_READY" ∧ seen k "HOMA_GUEST_CLIENT_PASS"
  | Some (ErrEchoes _) => ¬ echoes (w_calls (p_world p)) vm_plan ∧
      ∃ n, (p_calls p ≤ n < p_calls q)%nat ∧ seen n "HOMA_GUEST_READY"
  | Some ErrNotReady => p_time p + 70 * Second < p_time q
  | Some ErrNotVerified => echoes (w_calls (p_world p)) vm_plan ∧ p_time p + 40 * Second < p_time q
  | Some _ => True
  end.

Lemma guest_verdict_later p r q q' : verdict p r q → later q q' → verdict p r q'.
Proof.
  intros Hv [Ht Hc]. destruct r as [[]|]; cbn in *; try done.
  - lia.
  - destruct Hv as (He&n&Hn&Hs). split; [done|]. exists n. split; [lia|done].
  - destruct Hv. split; [done|lia].
  - destruct Hv as (He&n&k&Hn&Hk&Hs). split; [done|]. exists n, k. split; [lia|]. split; [lia|done].
Qed.

Lemma guest_verdict_start p p1 r q : same_view p p1 → verdict p1 r q → verdict p r q.
Proof.
  intros [_ Hw _ Ht Hc]. destruct r as [[]|]; cbn; rewrite ?Hw; try done.
  - lia.
  - intros (He&n&Hn&Hs). split; [done|]. exists n. split; [lia|done].
  - intros []. split; [done|lia].
  - intros (He&n&k&Hn&Hk&Hs). split; [done|]. exists n, k. split; [lia|done].
Qed.

Lemma wp_check_guest p : wp check_guest (verdict p) p.
Proof.
  unfold check_guest. wp_step. eapply wp_mono; [apply wp_wait_within; done|]. intros ready q [Hq Hready].
  destruct ready; cbn [negb]; [|by wp_step]. destruct Hready as (n&Hn&Hs).
  wp_step. eapply wp_mono; [apply wp_echo_all|]. rewrite (sv_world _ _ Hq). intros r q1 [(_&Ht1&Hc1) Hr].
  destruct r as [err|passed]; [wp_step; split; [done|]; exists n; split; [lia|done]|].
  wp_step. eapply wp_mono; [apply wp_wait_within; done|]. intros verified q2 [Hq2 Hver].
  destruct verified; cbn [negb]; [|wp_step; split; [done|]; destruct Hq; lia]. destruct Hver as (k&Hk&Hsk).
  wp_step. apply wp_zoom. unfold HomaStats. cbn [String.eqb Ascii.eqb Bool.eqb]. wp_steps.
  eapply wp_or_panic; [reflexivity|]. wp_step. eapply wp_mono; [apply wp_write_out|]. intros err q3 (_&_&_&Hc3). wp_step. split; [done|].
  exists n, k. cbn in Hc3. split; [lia|]. split; [lia|done].
Qed.

Lemma wp_connect_guest p : wp connect_guest (verdict p) p.
Proof.
  unfold connect_guest. apply wp_hidden; [apply hidden_attempt|]. intros _ q Hq.
  apply wp_hidden; [apply hidden_acquire|]. intros [err|conn] q1 Hq1; [by wp_step|].
  pose proof (same_view_trans _ _ _ Hq Hq1) as Hv1. apply wp_hidden; [apply hidden_syscall|]. intros n q2 Hq2.
  pose proof (same_view_trans _ _ _ Hv1 Hq2) as Hv2.
  destruct (New true local endpoint_config true (os_random n)); [unfold release; by wp_steps|].
  eapply wp_mono; [apply (wp_deferred _ _ (verdict q2)); [|apply hidden_release|apply wp_check_guest]|].
  - intros a q' r Hv Hr. eapply guest_verdict_later; [done|by apply later_view].
  - intros r q' Hv. by eapply guest_verdict_start.
Qed.

Lemma forward_end_guest qemu logPath : forward (end_guest qemu logPath).
Proof.
  apply forward_bind; [apply forward_hidden, hidden_attempt|]. intros _.
  apply forward_bind; [apply forward_hidden, hidden_release|]. intros _.
  apply forward_bind; [apply forward_hidden, hidden_logs|]. intros log.
  apply forward_bind; [apply forward_WriteFile|]. intros _. apply forward_hidden, hidden_ret.
Qed.

Lemma wp_run_guest logPath p : wp (run_guest logPath) (verdict p) p.
Proof.
  unfold run_guest. apply wp_hidden; [apply hidden_acquire|]. intros [err|listener] q Hq; [by wp_step|].
  apply (wp_deferred_by later); [intros a q' r; apply guest_verdict_later|apply forward_hidden, hidden_release|].
  apply wp_hidden; [apply hidden_acquire|]. intros [err|qemu] q1 Hq1; [by wp_step|].
  apply (wp_deferred_by later); [intros a q' r; apply guest_verdict_later|apply forward_end_guest|].
  eapply wp_mono; [apply wp_connect_guest|]. intros r q'. apply guest_verdict_start. by eapply same_view_trans.
Qed.

Lemma guest_flags_values args fs rest :
  flag.Parse flags args = inr (fs, rest) →
  ∃ kernel initrd logPath, flag.get_string fs "kernel" = Some kernel ∧ flag.get_string fs "initrd" = Some initrd ∧
    flag.get_string fs "log" = Some logPath.
Proof.
  intros Hp%flag.Parse_kinds. unfold flags in Hp. flag.open_flags Hp. do 3 eexists. split_and!; reflexivity.
Qed.

(** *** Resources *)

Lemma owns_logs H' K : owns H' K logs_String.
Proof. apply owns_bind; [apply owns_syscall_for|]. intros n. apply owns_ret. Qed.

Lemma steady_wait_for fuel marker deadline : steady (wait_for fuel marker deadline).
Proof.
  assert (steady logs_String) as Hlogs by (apply steady_bind; [apply steady_syscall_for|intros; apply steady_ret]).
  assert (steady process.Now) as Hnow.
  { apply steady_bind; [apply steady_syscall_for|]. intros _. apply steady_bind; [apply steady_get|].
    intros p. apply steady_ret. }
  induction fuel as [|fuel IH]; [apply steady_stop|]. cbn [wait_for]. apply steady_bind; [done|]. intros log.
  destruct (lanrelay_run.Contains log marker); [apply steady_ret|]. apply steady_bind; [done|]. intros now.
  destruct (deadline <? now); [apply steady_ret|]. apply steady_bind; [|by intros _].
  apply steady_bind; [apply steady_syscall_for|]. intros _. apply steady_ret.
Qed.

Lemma owns_wait_within H' K d marker : 0 ≤ d → owns H' K (wait_within d (text marker)).
Proof.
  intros Hd. apply owns_steady; [|intros p; eapply wp_mono; [by apply wp_wait_within|done]].
  apply steady_bind; [|intros now; apply steady_wait_for].
  apply steady_bind; [apply steady_syscall_for|]. intros _. apply steady_bind; [apply steady_get|].
  intros p. apply steady_ret.
Qed.

Lemma owns_echo_all H' K l passed : owns H' K (for_range l echo_once passed).
Proof.
  revert passed. induction l as [|size l IH]; intros passed; cbn [for_range]; [apply owns_ret|].
  apply owns_bind; [|intros [err|passed']; [apply owns_ret|apply IH]].
  unfold echo_once. owns_auto. apply owns_network. intros w. eapply wp_mono; [apply runs_vm|done].
Qed.

Lemma owns_check_guest H' K : owns H' K check_guest.
Proof.
  unfold check_guest. apply owns_bind; [by apply owns_wait_within|]. intros [|]; cbn [negb]; [|apply owns_ret].
  apply owns_bind; [apply owns_echo_all|]. intros [err|passed]; [apply owns_ret|].
  apply owns_bind; [by apply owns_wait_within|]. intros [|]; cbn [negb]; [|apply owns_ret].
  intros p Hok. wp_step. apply wp_zoom. unfold HomaStats. cbn [String.eqb Ascii.eqb Bool.eqb]. wp_steps.
  eapply wp_or_panic; [reflexivity|]. wp_step. eapply wp_mono; [by apply (owns_write_out H' K)|].
  intros err q Hq. wp_step. eapply settled_trans; [|exact Hq]. by apply settled_same.
Qed.

Lemma owns_run_guest logPath : owns ∅ ∅ (run_guest logPath).
Proof.
  unfold run_guest. owns_auto.
  - unfold connect_guest. owns_auto. apply closes_bind; [owns_auto|]. intros n.
    destruct (New true local endpoint_config true (os_random n)); [|owns_auto; apply owns_check_guest].
    apply closes_then; [owns_auto|]. intros _. apply owns_ret.
  - unfold end_guest. apply closes_bind; [owns_auto|]. intros _. apply closes_then; [owns_auto|]. intros _.
    apply owns_bind; [apply owns_logs|]. intros log. apply owns_bind; [apply owns_WriteFile|]. intros _. apply owns_ret.
Qed.

(** C31: the VM check is sound and always ends: whatever QEMU, its guest and the
    system do, [run] returns, with the listener, QEMU, the connection and every
    file it opened closed again; it succeeds only if the guest
    reported that it was ready, then every size was echoed exactly, and then the
    guest reported that its own client passed; it gives up on the guest only
    after the whole deadline has passed. *)
Theorem vm_run_sound args p :
  process_ok p →
  ∃ r p', run args p = inl (r, p') ∧ balanced p p' ∧
    match r with Exited _ => same_view p p' | Ended err => verdict p err p' end.
Proof.
  intros Hok. apply wp_run. unfold run. destruct (flag.Parse flags args) as [[]|[fs rest]] eqn:Ep; [by wp_step..|].
  destruct (guest_flags_values args fs rest Ep) as (kernel&initrd&logPath&->&->&->). rewrite !or_panic_Some.
  destruct (_ || _); [by wp_step|]. wp_step. eapply wp_assume; [by apply owns_run_guest|].
  eapply wp_mono; [apply wp_run_guest|]. intros r q Hv Hq. wp_step. split; [by apply settled_balanced|done].
Qed.
End facts.

(** A guest that is ready, on a network where the first echo fails. *)
Definition ready_console : Console := {| console := λ _, [text "boot "; text "HOMA_GUEST_READY"] |}.

Definition broken_network : Network := {|
  exchange := λ _ _ _, inl EOF; clock := λ n, 1000 * Z.of_nat n; statistics := λ _, Stats_zero
|}.

Definition plain_vm_text : VmText := Build_VmText (λ _, text "1ms") (λ _, text "{}").

#[local] Abbreviation demo_run := (@run amd64 plain_os broken_network ready_console plain_vm_text).

Definition demo_args : list (list Z) := [text "-kernel=vmlinuz"; text "-initrd=initrd.gz"; text "-log"; text "l"].

Definition echo_failed (r : (ending * process) + fault) : bool :=
  match r with inl (Ended (Some (ErrEchoes _)), _) => true | _ => false end.

Lemma demo_fails : echo_failed (demo_run demo_args start_process) = true.
Proof. vm_compute. reflexivity. Qed.

Lemma vm_run_sound_witness :
  process_ok start_process ∧
  ∃ err p' n, demo_run demo_args start_process = inl (Ended (Some (ErrEchoes err)), p') ∧
    balanced start_process p' ∧ @seen ready_console n "HOMA_GUEST_READY".
Proof.
  split; [apply start_process_ok|]. pose proof demo_fails as Hf.
  destruct (@vm_run_sound amd64 plain_os broken_network ready_console plain_vm_text demo_args start_process
    start_process_ok) as (r&p'&Hrun&Hb&Hv).
  rewrite Hrun in Hf. destruct r as [code|[[]|]]; try discriminate Hf.
  destruct Hv as (_&n&_&Hs). exists err, p', n. split; [exact Hrun|]. split; [exact Hb|exact Hs].
Defined.
End vmcheck_run.
