(* ===== verification/RelayProcess.v ===== *)
(** * The LAN relay as a process (run and writeFile of src/interop/lanrelay/main.go)

    The flags, the checks, the sockets and QEMU with their deferred closing, the
    loop that waits for the guest, and the function at the end that writes the
    log and the report.  What the loops of the packet path have counted
    (RelayLoops) and QEMU's console are parameters, by the system call at which
    they are looked at; so is what each round of the select receives. *)
From S2P Require Import Prelude Wire Api Text Net.
From S2P Require Import Flag Json Relay RelayRun RawIP Process.

#[local] Open Scope Z_scope.

Module lanrelay_process.
Import lanrelay_run process.

(** ** Parameters *)

Class Environment := {
  euid : Z; pkexec : list Z; sudo : list Z; user_group : Z → option (list Z); pid : Z;
  message : error → string
}.

(** The relay's state at a system call. *)
Class PacketPath := { relay_state : nat → lanrelay.state }.

(** What the select of [run] receives, in order. *)
Inductive wake := WDone | WPathFailed | WGuestExited | WTick.

(** ** Texts *)

(** [netip.Addr.String] of an IPv4 address. *)
Definition ip_text (ip : IPAddr) : list Z :=
  match AsSlice ip with
  | [a; b; c; d] => decimal 3 a ++ 46 :: decimal 3 b ++ 46 :: decimal 3 c ++ 46 :: decimal 3 d
  | _ => []
  end.

Definition ready_text `{Environment} (local peer : IPAddr) : list Z :=
  text "pid=" ++ json.integer pid ++ text " local=" ++ ip_text local ++ text " peer=" ++ ip_text peer ++
  text " native_protocol=146" ++ [10].

Definition ready_line (local peer : IPAddr) : list Z :=
  text "RELAY_READY local=" ++ ip_text local ++ text " peer=" ++ ip_text peer ++
  text " Mac-client4003->guest4000 Mac-server4001<-guest4002" ++ [10].

Definition complete_line : list Z :=
  text "RELAY_COMPLETE kernel client sweep passed; at least8 unique Mac client ACKs forwarded (confirm Mac payload-check logs separately)" ++ [10].

Definition report_json (r : lanrelay.report) : json.value :=
  json.Obj ([json.fld "path" (json.Str (text (lanrelay.Path r)));
    json.fld "Local" (json.Str (text (lanrelay.Local r))); json.fld "Peer" (json.Str (text (lanrelay.Peer r)));
    json.fld "LANToVM" (json.Int (lanrelay.LANToVM r)); json.fld "VMToLAN" (json.Int (lanrelay.VMToLAN r));
    json.fld "DroppedLAN" (json.Int (lanrelay.DroppedLAN r)); json.fld "DroppedVM" (json.Int (lanrelay.DroppedVM r));
    json.fld "LANSendBufferDrops" (json.Int (lanrelay.LANSendBufferDrops r));
    json.fld "ObservedLANIngressTOS" (json.of_map (lanrelay.ObservedLANIngressTOS r));
    json.fld "ObservedVMIngressTOS" (json.of_map (lanrelay.ObservedVMIngressTOS r));
    json.fld "RequestedLANEgressTOS" (json.of_map (lanrelay.RequestedLANEgressTOS r));
    json.fld "MacClientRPCsAcknowledged" (json.Int (lanrelay.MacClientRPCsAcknowledged r));
    json.fld "KernelServerRequestsReceived" (json.Int (lanrelay.KernelServerRequestsReceived r));
    json.fld "KernelClientSweepPassed" (json.Bool (lanrelay.KernelClientSweepPassed r));
    json.fld "Complete" (json.Bool (lanrelay.Complete r))] ++
    match lanrelay.Error r with
    | EmptyString => []
    | e => [json.fld "error" (json.Str (text e))]
    end).

(** ** Writing files *)

Section files.
Context `{OS}.

(** A new file takes the place of the old one only when it is complete. *)
Definition writeFile (path data : list Z) : M process (option io_error) :=
  r ← CreateTemp path;
  match r with
  | inl err => mret (Some err)
  | inr (file, name) =>
      deferred (_ ← Remove name; mret ()) (
      err ← append_file name data;
      match err with
      | Some err => _ ← CloseFile file; mret (Some err)
      | None =>
          err ← Chmod name 420;
          match err with
          | Some err => _ ← CloseFile file; mret (Some err)
          | None =>
              err ← CloseFile file;
              match err with
              | Some err => mret (Some err)
              | None => Rename name path
              end
          end
      end)
  end.

(** *** What writing a file leaves behind *)

(** The system refuses some call. *)
Definition denied : Prop := ∃ n, os_fails n ≠ None.

Lemma wp_attempt {A} (f : option io_error → M process A) Q p :
  (∀ err q, same_view p q → err = None ∨ denied → wp (f err) Q q) → wp (attempt ≫= f) Q p.
Proof.
  intros Hf. unfold attempt, syscall, syscall_for. wp_steps. apply Hf; [apply same_view_tick; lia|].
  destruct (os_fails (p_calls p)) eqn:E; [right|by left]. exists (p_calls p). by rewrite E.
Qed.

Lemma wp_acquire {A} (f : io_error + nat → M process A) Q p :
  (∀ r q, same_view p q → match r with inl _ => denied | inr _ => True end → wp (f r) Q q) → wp (acquire ≫= f) Q p.
Proof.
  intros Hf. unfold acquire. wp_step. apply wp_attempt. intros [err|] q Hq Herr; wp_steps; apply Hf; try done.
  - by destruct Herr.
  - destruct Hq. by split.
Qed.

Lemma refused (err : io_error) : Some err = None ∨ denied → denied.
Proof. by intros []. Qed.

(** The file system with at most one more file, the temporary one, which stays
    only if removing it failed. *)
Definition leftover (path : list Z) (F : gmap (list Z) file) (q : process) : Prop :=
  p_files q = F ∨
  ∃ name f, name ≠ path ∧ F !! name = None ∧ p_files q = <[name := f]> F ∧ os_fails (pred (p_calls q)) ≠ None.

Definition replaced (path data : list Z) (p : process) (err : option io_error) (q : process) : Prop :=
  p_out q = p_out p ∧ p_world q = p_world p ∧ later p q ∧
  match err with
  | None => p_files q = <[path := mkFile data 420]> (p_files p)
  | Some _ => denied ∧ leftover path (p_files p) q
  end.

(** The function without its deferred part: the temporary file is still there,
    or has replaced the old one. *)
Definition half_done (path data name : list Z) (F : gmap (list Z) file) (p : process) (err : option io_error) (q : process) : Prop :=
  p_out q = p_out p ∧ p_world q = p_world p ∧ later p q ∧
  match err with
  | None => p_files q = <[path := mkFile data 420]> F
  | Some _ => denied ∧ ∃ f, p_files q = <[name := f]> F
  end.

Lemma half_done_view path data name F p q err r :
  same_view p q → half_done path data name F q err r → half_done path data name F p err r.
Proof.
  intros Hv (Ho&Hw&Hl&Hf). destruct Hv as [Ho' Hw' _ Ht Hc]. unfold half_done, later in *.
  split; [congruence|]. split; [congruence|]. split; [lia|done].
Qed.

Lemma wp_Rename_temp path data name F q :
  F !! name = None → p_files q = <[name := mkFile data 420]> F →
  wp (Rename name path) (half_done path data name F q) q.
Proof.
  intros Hn Hf. unfold Rename. apply wp_attempt. intros err q1 Hq Herr.
  apply (wp_mono _ (half_done path data name F q1)); [|intros a r; by apply half_done_view].
  destruct Hq as [_ _ Hf1 _ _]. rewrite <- Hf1 in Hf. destruct err as [err|].
  { wp_step. split; [done|]. split; [done|]. split; [done|]. split; [by eapply refused|by exists (mkFile data 420)]. }
  do 2 wp_step. rewrite Hf, lookup_insert_eq. wp_steps. split; [done|]. split; [done|]. split; [done|]. cbn.
  by rewrite Hf, delete_insert_id.
Qed.

(** Steps that keep everything but the temporary file. *)
Definition only_temp (name : list Z) (F : gmap (list Z) file) (p q : process) (f : file) : Prop :=
  p_out q = p_out p ∧ p_world q = p_world p ∧ later p q ∧ p_files q = <[name := f]> F.

Lemma only_temp_half path data name F p q f r err :
  only_temp name F p q f → half_done path data name F q err r → half_done path data name F p err r.
Proof.
  intros (Ho&Hw&Hl&_) (Ho'&Hw'&Hl'&Hf). split; [congruence|]. split; [congruence|]. split; [|done].
  by eapply later_trans.
Qed.

Lemma only_temp_view name F p q r f : only_temp name F p q f → same_view q r → only_temp name F p r f.
Proof.
  intros (Ho&Hw&Hl&Hf) Hv. pose proof (later_view _ _ Hv) as Hl'. destruct Hv as [Ho' Hw' Hf' _ _].
  split; [congruence|]. split; [congruence|]. split; [by eapply later_trans|congruence].
Qed.

Lemma wp_append_temp name data F q f :
  p_files q = <[name := f]> F →
  wp (append_file name data) (λ err r, ∃ f', only_temp name F q r f' ∧ (err = None ∨ denied) ∧
    (err = None → f' = mkFile (f_data f ++ data) (f_mode f))) q.
Proof.
  intros Hf. unfold append_file. apply wp_hidden; [apply hidden_syscall|]. intros n q1 Hq.
  pose proof (later_view _ _ Hq) as Hl. destruct Hq as [Ho Hw Hf1 _ _]. rewrite <- Hf1 in Hf.
  wp_steps. rewrite Hf, lookup_insert_eq. cbn. eexists. split; [|split].
  - split; [done|]. split; [done|]. split; [done|]. cbn. by rewrite insert_insert_eq.
  - destruct (os_fails n) eqn:E; [right|by left]. exists n. by rewrite E.
  - by intros ->.
Qed.

Lemma wp_Chmod_temp name mode F q f :
  p_files q = <[name := f]> F →
  wp (Chmod name mode) (λ err r, ∃ f', only_temp name F q r f' ∧ (err = None ∨ denied) ∧
    (err = None → f' = mkFile (f_data f) mode)) q.
Proof.
  intros Hf. unfold Chmod. apply wp_attempt. intros err q1 Hq Herr.
  pose proof (later_view _ _ Hq) as Hl. destruct Hq as [Ho Hw Hf1 _ _]. rewrite <- Hf1 in Hf.
  destruct err as [err|]; wp_steps.
  - exists f. split; [by split|done].
  - rewrite Hf, lookup_insert_eq. cbn. eexists. split; [|split; [by left|by intros _]].
    split; [done|]. split; [done|]. split; [done|]. cbn. by rewrite insert_insert_eq.
Qed.

Lemma hidden_CloseFile h : hidden (CloseFile h).
Proof.
  apply hidden_bind; [apply hidden_attempt|]. intros err. apply hidden_bind; [apply hidden_release|]. intros _. apply hidden_ret.
Qed.

Lemma wp_CloseFile {A} h (f : option io_error → M process A) Q p :
  (∀ err q, same_view p q → err = None ∨ denied → wp (f err) Q q) → wp (CloseFile h ≫= f) Q p.
Proof.
  intros Hf. unfold CloseFile. wp_step. apply wp_attempt. intros err q Hq Herr.
  apply wp_hidden; [apply hidden_release|]. intros _ r Hr. wp_step. apply Hf; [by eapply same_view_trans|done].
Qed.

(** An error after the temporary file was made. *)
Lemma wp_give_up path data name F p q f file err :
  only_temp name F p q f → Some err = None ∨ denied → wp (_ ← CloseFile file; mret (Some err)) (half_done path data name F p) q.
Proof.
  intros Ht Herr. apply wp_hidden; [apply hidden_CloseFile|]. intros _ r Hr. wp_step.
  destruct (only_temp_view _ _ _ _ _ _ Ht Hr) as (Ho&Hw&Hl&Hf). split; [done|]. split; [done|]. split; [done|].
  split; [by eapply refused|by exists f].
Qed.

(** The body of the function, on a new temporary file. *)
Lemma wp_fill_temp path data name F q file :
  F !! name = None → p_files q = <[name := mkFile [] 384]> F →
  wp (err ← append_file name data;
      match err with
      | Some err => _ ← CloseFile file; mret (Some err)
      | None =>
          err ← Chmod name 420;
          match err with
          | Some err => _ ← CloseFile file; mret (Some err)
          | None => err ← CloseFile file; match err with Some err => mret (Some err) | None => Rename name path end
          end
      end) (half_done path data name F q) q.
Proof.
  intros Hn Hf. wp_step. eapply wp_mono; [by apply wp_append_temp|]. intros err q1 (f1&H1&He1&Hf1).
  destruct err as [err|]; [by eapply wp_give_up|]. specialize (Hf1 eq_refl). cbn in Hf1.
  eapply wp_mono; [|intros a r; eapply only_temp_half; exact H1]. wp_step.
  eapply wp_mono; [apply wp_Chmod_temp, H1|]. intros err q2 (f2&H2&He2&Hf2).
  destruct err as [err|]; [by eapply wp_give_up|]. specialize (Hf2 eq_refl). subst f1 f2. cbn [f_data] in H2.
  eapply wp_mono; [|intros a r; eapply only_temp_half; exact H2].
  apply wp_CloseFile. intros err q3 Hq3 He3.
  apply (wp_mono _ (half_done path data name F q3)); [|intros a r; by apply half_done_view].
  assert (p_files q3 = <[name := mkFile data 420]> F) as Hf3 by (rewrite (sv_files _ _ Hq3); apply H2).
  destruct err as [err|]; [|by apply wp_Rename_temp].
  wp_step. split; [done|]. split; [done|]. split; [done|]. split; [by eapply refused|by eexists].
Qed.

(** Removing the temporary file. *)
Lemma wp_Remove_temp path data name F p q err :
  F !! name = None → name ≠ path → p_files p = F → half_done path data name F p err q →
  wp (_ ← Remove name; mret ()) (λ _ r, replaced path data p err r) q.
Proof.
  intros Hn Hne HF (Ho&Hw&Hl&Hf). unfold Remove, attempt, syscall, syscall_for. wp_steps.
  pose proof (os_delay_ok (p_calls q)) as Hd. set (q1 := tick _ q).
  assert (later p q1) as Hl1 by (unfold later in *; cbn; lia).
  destruct (os_fails (p_calls q)) as [e|] eqn:E.
  - wp_steps. split; [done|]. split; [done|]. split; [done|]. rewrite HF. destruct err as [err|]; [|done].
    destruct Hf as [Hd' [f Hf]]. split; [done|]. right. exists name, f. cbn. split; [done|]. split; [done|]. split; [done|]. congruence.
  - do 2 wp_step. change (p_files q1) with (p_files q). destruct err as [err|].
    + destruct Hf as [Hd' [f Hf]]. rewrite Hf, lookup_insert_eq. wp_steps. split; [done|]. split; [done|].
      split; [done|]. split; [done|]. left. cbn. by rewrite Hf, HF, delete_insert_id.
    + rewrite Hf, lookup_insert_ne, Hn by done. wp_steps. split; [done|]. split; [done|]. split; [done|]. by rewrite HF.
Qed.

Lemma wp_writeFile path data p :
  (∀ n files, os_temp n path files ≠ path) → wp (writeFile path data) (replaced path data p) p.
Proof.
  intros Hne. unfold writeFile, CreateTemp. wp_step. apply wp_hidden; [apply hidden_syscall|]. intros n q0 H0.
  apply wp_acquire. intros [err|file] q1 H1 Herr; pose proof (same_view_trans _ _ _ H0 H1) as Hv.
  { wp_steps. pose proof (later_view _ _ Hv). destruct Hv. split; [done|]. split; [done|]. split; [done|].
    split; [done|by left]. }
  unfold put_file. wp_steps. pose proof (os_temp_fresh n path (p_files q1)) as Hfresh.
  specialize (Hne n (p_files q1)). set (name := os_temp n path (p_files q1)) in *. set (q2 := set_files _ q1).
  apply wp_bind. eapply wp_mono; [apply (wp_fill_temp path data name (p_files q1) q2 file); done|].
  intros err q3 H3. wp_step. eapply wp_mono; [apply (wp_Remove_temp path data name (p_files p) p q3 err)|].
  - by rewrite <- (sv_files _ _ Hv).
  - done.
  - done.
  - rewrite (sv_files _ _ Hv) in H3. destruct H3 as (Ho&Hw&Hl&Hf). pose proof (later_view _ _ Hv) as Hl0.
    destruct Hv as [Ho' Hw' Hf' Ht' Hc']. split; [rewrite Ho; exact Ho'|]. split; [rewrite Hw; exact Hw'|].
    split; [|exact Hf]. apply (later_trans p q1); [done|exact Hl].
  - intros [] q4 H4. by wp_step.
Qed.

Lemma owns_writeFile K K' path data : owns K K' (writeFile path data).
Proof.
  unfold writeFile. apply owns_CreateTemp; [intros err; apply owns_ret|]. intros file name.
  apply closes_deferred_body; [|owns_auto].
  assert (∀ err : io_error, closes K K' file (_ ← CloseFile file; mret (Some err))) as Hgive.
  { intros err. apply closes_then; [apply closes_CloseFile|]. intros _. apply owns_ret. }
  apply closes_bind; [owns_auto|]. intros [err|]; [apply Hgive|].
  apply closes_bind; [owns_auto|]. intros [err|]; [apply Hgive|].
  apply closes_then; [apply closes_CloseFile|]. intros err. owns_auto.
Qed.

(** C33: files are replaced atomically: [writeFile] always returns, with nothing
    left open; without an error the path holds exactly the new data, readable by
    everyone, and nothing else has changed; with an error, which the system must
    have caused, the old file is untouched, and a temporary file is left only if
    removing it failed. *)
Theorem writeFile_atomic path data p :
  (∀ n files, os_temp n path files ≠ path) → process_ok p →
  ∃ err p', writeFile path data p = inl (err, p') ∧ balanced p p' ∧ p_out p' = p_out p ∧
    match err with
    | None => p_files p' = <[path := mkFile data 420]> (p_files p)
    | Some _ => denied ∧ p_files p' !! path = p_files p !! path ∧ leftover path (p_files p) p'
    end.
Proof.
  intros Hne Hok. apply wp_run. eapply wp_assume; [by apply (owns_writeFile ∅ ∅)|].
  eapply wp_mono; [by apply wp_writeFile|]. intros err q (Ho&_&_&Hf) Hs. split; [by apply settled_balanced|].
  split; [done|]. destruct err as [err|]; [|done]. destruct Hf as [Hd Hf]. split; [done|]. split; [|done].
  destruct Hf as [->|(name&f&Hname&_&->&_)]; [done|]. by apply lookup_insert_ne.
Qed.
End files.

(** ** The command *)

Inductive ending := Exited (code : Z) | Ended (err : option error).

Definition flags : flag.flagset :=
  [(text "local", flag.VString []); (text "peer", flag.VString []); (text "kernel", flag.VString []);
   (text "initrd", flag.VString []); (text "log", flag.VString (text "/tmp/homa-lanrelay-qemu.log"));
   (text "report", flag.VString (text "/tmp/homa-lanrelay-report.json"));
   (text "ready-file", flag.VString (text "/tmp/homa-lanrelay.ready"));
   (text "duration", flag.VDuration (3 * Minute)); (text "qemu-uid", flag.VInt (-1))].

(** The paths of the files [run] writes. *)
Record paths := mkPaths { logPath : list Z; reportPath : list Z; readyPath : list Z }.

Section run.
Context `{GoPlatform, OS, Console, json.FloatText, Environment, PacketPath}.

(** [logs.String()], from the bounded buffer. *)
Definition log_at (n : nat) : list Z := foldl (λ b p, (log_Write b p).1) [] (console n).

Definition logs_String : M process (list Z) :=
  n ← syscall;
  mret (log_at n).

(** [s.snapshot().MacClientRPCsAcknowledged]. *)
Definition acknowledged : M process Z :=
  n ← syscall;
  mret (lanrelay.MacClientRPCsAcknowledged (lanrelay.snapshot (relay_state n))).

(** Announcing that the guest is ready; false is the error of [writeFile]. *)
Definition announce (local peer : IPAddr) (fs : paths) : M process bool :=
  err ← writeFile (readyPath fs) (ready_text local peer);
  match err with
  | Some _ => mret false
  | None => _ ← write_out (ready_line local peer); mret true
  end.

(** A tick of the loop: the new [ready] and the result if [run] returns. *)
Definition tick (local peer : IPAddr) (fs : paths) (bootDeadline : Z) (ready : bool)
  : M process (bool * option (option error)) :=
  log ← logs_String;
  let first := negb ready && Contains log (text "HOMA_GUEST_READY") in
  if Contains log (text "HOMA_GUEST_ERROR") || Contains log (text "HOMA_GUEST_CLIENT_FAIL")
  then mret (ready, Some (Some ErrGuestFailed)) else
  written ← (if first then announce local peer fs else mret true);
  now ← Now;
  acked ← acknowledged;
  let r := on_tick ready log acked (bootDeadline <? now) written in
  match r.2 with
  | Some None => _ ← write_out complete_line; mret r
  | _ => mret r
  end.

(** The loop over what the select receives; it waits when nothing comes. *)
Fixpoint wait_guest (local peer : IPAddr) (fs : paths) (bootDeadline : Z) (wakes : list wake) (ready : bool)
  : M process (option error) :=
  match wakes with
  | [] => stop Deadlock
  | WDone :: _ => mret (Some ErrDone)
  | WPathFailed :: _ => mret (Some ErrPacketPath)
  | WGuestExited :: _ => mret (Some ErrGuestExited)
  | WTick :: wakes =>
      r ← tick local peer fs bootDeadline ready;
      match r with
      | (_, Some result) => mret result
      | (ready, None) => wait_guest local peer fs bootDeadline wakes ready
      end
  end.

(** The deferred function: QEMU is killed and waited for, the ready file removed,
    and the log and the report written. *)
Definition conclude (qemu : nat) (fs : paths) (result : option error) : M process unit :=
  _ ← attempt;
  release qemu;;
  _ ← Remove (readyPath fs);
  n ← syscall;
  passLog ← logs_String;
  callLog ← logs_String;
  let r := final_report (relay_state n) passLog callLog result message in
  log ← logs_String;
  let data := default [] (json.MarshalIndent (report_json r)) in
  _ ← writeFile (logPath fs) log;
  _ ← writeFile (reportPath fs) (data ++ [10]);
  _ ← write_out (text "RELAY_REPORT " ++ reportPath fs ++ [10] ++ data ++ [10]);
  mret ().

(** From the connection of QEMU on. *)
Definition relay_guest (local peer : IPAddr) (fs : paths) (raw : nat) (wakes : list wake) : M process (option error) :=
  _ ← attempt;
  r ← acquire;
  match r with
  | inl err => mret (Some (ErrSystem err))
  | inr conn =>
      deferred (release conn) (
      deferred (after_func (release raw;; release conn)) (
      now ← Now;
      wait_guest local peer fs (now + 75 * Second) wakes false))
  end.

(** From the raw socket on. *)
Definition start_relay (local peer : IPAddr) (fs : paths) (wakes : list wake) : M process (option error) :=
  r ← acquire;
  match r with
  | inl err => mret (Some (ErrSystem err))
  | inr raw =>
      deferred (release raw) (
      r ← acquire;
      match r with
      | inl err => mret (Some (ErrSystem err))
      | inr listener =>
          deferred (release listener) (
          r ← acquire;
          match r with
          | inl err => mret (Some (ErrSystem err))
          | inr qemu => deferred_with (conclude qemu fs) (relay_guest local peer fs raw wakes)
          end)
      end)
  end.

Definition run (wakes : list wake) (args : list (list Z)) : M process ending :=
  match flag.Parse flags args with
  | inl flag.ErrHelp => mret (Exited 0)
  | inl flag.ErrSyntax => mret (Exited 2)
  | inr (fs, rest) =>
      localText ← or_panic (flag.get_string fs "local");
      peerText ← or_panic (flag.get_string fs "peer");
      kernel ← or_panic (flag.get_string fs "kernel");
      initrd ← or_panic (flag.get_string fs "initrd");
      log ← or_panic (flag.get_string fs "log");
      report ← or_panic (flag.get_string fs "report");
      ready ← or_panic (flag.get_string fs "ready-file");
      duration ← or_panic (flag.get_duration fs "duration");
      qemuUID ← or_panic (flag.get_int fs "qemu-uid");
      match check_run localText peerText kernel initrd duration (len rest) with
      | inl err => mret (Ended (Some err))
      | inr (local, peer) =>
          match qemuCredentials euid pkexec sudo user_group qemuUID with
          | inl err => mret (Ended (Some err))
          | inr credential =>
              err ← Remove ready;
              match err with
              | Some (Errno 2) | None =>
                  err ← start_relay local peer (mkPaths log report ready) wakes;
                  mret (Ended err)
              | Some err => mret (Ended (Some (ErrSystem err)))
              end
          end
      end
  end.
End run.

(** ** Theorems *)

Section facts.
Context `{GoPlatform, OS, Console, json.FloatText, Environment, PacketPath}.
Hypothesis temp_other : ∀ n path files, os_temp n path files ≠ path.

Lemma forward_writeFile path data : forward (writeFile path data).
Proof. intros p. eapply wp_mono; [apply wp_writeFile; intros n files; apply temp_other|]. by intros err q (_&_&?&_). Qed.

Lemma forward_write_out s : forward (write_out s).
Proof.
  apply forward_bind; [apply forward_hidden, hidden_syscall|]. intros n.
  apply forward_bind; [by apply forward_modify|intros _; apply forward_hidden, hidden_ret].
Qed.

Lemma forward_Remove path : forward (Remove path).
Proof.
  apply forward_bind; [apply forward_hidden, hidden_attempt|]. intros [err|]; [apply forward_hidden, hidden_ret|].
  apply forward_bind; [apply forward_hidden, hidden_get|]. intros p.
  destruct (p_files p !! path); [|apply forward_hidden, hidden_ret].
  apply forward_bind; [by apply forward_modify|intros _; apply forward_hidden, hidden_ret].
Qed.

Lemma forward_announce local peer fs : forward (announce local peer fs).
Proof.
  apply forward_bind; [apply forward_writeFile|]. intros [err|]; [apply forward_hidden, hidden_ret|].
  apply forward_bind; [apply forward_write_out|]. intros _. apply forward_hidden, hidden_ret.
Qed.

Lemma hidden_logs_String : hidden logs_String.
Proof. apply hidden_bind; [apply hidden_syscall|]. intros n. apply hidden_ret. Qed.

Lemma forward_conclude qemu fs result : forward (conclude qemu fs result).
Proof.
  apply forward_bind; [apply forward_hidden, hidden_attempt|]. intros _.
  apply forward_bind; [apply forward_hidden, hidden_release|]. intros _.
  apply forward_bind; [apply forward_Remove|]. intros _.
  apply forward_bind; [apply forward_hidden, hidden_syscall|]. intros n.
  do 3 (apply forward_bind; [apply forward_hidden, hidden_logs_String|]; intros ?).
  do 2 (apply forward_bind; [apply forward_writeFile|]; intros _).
  apply forward_bind; [apply forward_write_out|]. intros _. apply forward_hidden, hidden_ret.
Qed.

(** *** The evidence of a success *)

(** Between the calls [a] and [b] the guest was seen ready, and then a log that
    proves the run together with eight acknowledged calls. *)
Definition proved (a b : nat) : Prop :=
  ∃ k n m, (a ≤ k ≤ n)%nat ∧ (n < m < b)%nat ∧ Contains (log_at k) (text "HOMA_GUEST_READY") = true ∧
    passes (log_at n) (lanrelay.MacClientRPCsAcknowledged (lanrelay.snapshot (relay_state m))).

Definition seen_ready (a b : nat) : Prop :=
  ∃ k, (a ≤ k < b)%nat ∧ Contains (log_at k) (text "HOMA_GUEST_READY") = true.

Lemma seen_ready_later a b c : (b ≤ c)%nat → seen_ready a b → seen_ready a c.
Proof. intros Hbc (k&Hk&Hs). exists k. split; [lia|done]. Qed.

Lemma proved_later a b c : (b ≤ c)%nat → proved a b → proved a c.
Proof. intros Hbc (k&n&m&Hk&Hm&Hs). exists k, n, m. split; [lia|]. split; [lia|done]. Qed.

(** What a tick that saw the log at call [n] and the acknowledgments at call [m]
    leads to. *)
Lemma on_tick_evidence a n m b ready late written ready' result :
  (a ≤ n < m)%nat → (m < b)%nat → (ready = true → seen_ready a n) →
  on_tick ready (log_at n) (lanrelay.MacClientRPCsAcknowledged (lanrelay.snapshot (relay_state m))) late written =
    (ready', result) →
  match result with
  | None => ready' = true → seen_ready a b
  | Some None => proved a b
  | Some (Some _) => True
  end.
Proof.
  intros Hn Hb Hready Ht. set (acked := lanrelay.MacClientRPCsAcknowledged _) in *.
  assert (∀ late written, announced (Tick (log_at n) acked late written) →
    Contains (log_at n) (text "HOMA_GUEST_READY") = true) as Hann by (by intros ? ? (?&?&?&[= -> _ _]&?)).
  destruct result as [[err|]|]; [done| |].
  - apply on_tick_pass in Ht as [Hp [Hr|Ha]].
    + destruct (Hready Hr) as (k&Hk&Hs). exists k, n, m. split; [lia|]. split; [lia|done].
    + exists n, n, m. split; [lia|]. split; [lia|]. split; [by eapply Hann|done].
  - intros Hr'. apply on_tick_waits in Ht as [Hr|Ha]; [|exists n; split; [lia|by eapply Hann]|done].
    destruct (Hready Hr) as (k&Hk&Hs). exists k. split; [lia|done].
Qed.

Lemma wp_forward {A B} (m : M process A) (f : A → M process B) Q p :
  forward m → (∀ a q, later p q → wp (f a) Q q) → wp (m ≫= f) Q p.
Proof. intros Hm Hf. wp_step. eapply wp_mono; [apply Hm|]. intros a q Hq. by apply Hf. Qed.

Lemma wp_tick local peer fs bootDeadline ready a p :
  (a ≤ p_calls p)%nat → (ready = true → seen_ready a (p_calls p)) →
  wp (tick local peer fs bootDeadline ready) (λ r q, later p q ∧ match r.2 with
    | None => r.1 = true → seen_ready a (p_calls q)
    | Some None => proved a (p_calls q)
    | Some (Some _) => True
    end) p.
Proof.
  intros Ha Hready. unfold tick, logs_String. wp_step. unfold syscall at 1, syscall_for at 1. wp_steps.
  pose proof (os_delay_ok (p_calls p)) as Hd. set (q0 := process.tick _ p).
  assert (later p q0 ∧ p_calls q0 = S (p_calls p)) as [Hl0 Hc0] by (unfold later; cbn; lia).
  destruct (Contains _ _ || Contains _ _); [by wp_step|].
  apply wp_forward; [destruct (negb ready && _); [apply forward_announce|apply forward_hidden, hidden_ret]|].
  intros written q1 Hl1. apply wp_forward; [apply forward_hidden, hidden_Now|]. intros now q2 Hl2.
  unfold acknowledged, syscall, syscall_for. wp_steps. pose proof (os_delay_ok (p_calls q2)) as Hd2.
  set (q3 := process.tick _ q2). set (log := log_at (p_calls p)). destruct (on_tick _ _ _ _ _) as [ready' result] eqn:Et.
  assert (later p q3 ∧ (S (p_calls p) ≤ p_calls q2)%nat ∧ p_calls q3 = S (p_calls q2)) as (Hl3&Hc2&Hc3)
    by (unfold later in *; cbn; lia).
  pose proof (on_tick_evidence a (p_calls p) (p_calls q2) (p_calls q3) ready _ _ ready' result ltac:(lia) ltac:(lia) Hready Et) as Hev.
  cbn [snd]. destruct result as [[err|]|]; [by wp_step| |by wp_step].
  apply wp_forward; [apply forward_write_out|]. intros err q4 Hl4. wp_step. cbn [snd].
  split; [by eapply later_trans|]. eapply proved_later; [|exact Hev]. apply Hl4.
Qed.

(** What [run] says: a success is proved. *)
Definition verdict (p : process) (r : option error) (q : process) : Prop :=
  later p q ∧ (r = None → proved (p_calls p) (p_calls q)).

Lemma relay_verdict_later p r q q' : verdict p r q → later q q' → verdict p r q'.
Proof.
  intros [Hl Hr] Hq. split; [by eapply later_trans|]. intros E. eapply proved_later; [apply Hq|by apply Hr].
Qed.

Lemma relay_verdict_start p p1 r q : later p p1 → verdict p1 r q → verdict p r q.
Proof.
  intros Hp [Hl Hr]. split; [by eapply later_trans|]. intros E. destruct (Hr E) as (k&n&m&Hk&Hm&Hs).
  exists k, n, m. destruct Hp. split; [lia|done].
Qed.

Lemma verdict_error p err q : later p q → verdict p (Some err) q.
Proof. by split. Qed.

(** Something other than a tick comes. *)
Definition ends (wakes : list wake) : Prop := Exists (λ w, w ≠ WTick) wakes.

Lemma wp_wait_guest local peer fs bootDeadline wakes ready a p :
  ends wakes → (a ≤ p_calls p)%nat → (ready = true → seen_ready a (p_calls p)) →
  wp (wait_guest local peer fs bootDeadline wakes ready)
    (λ r q, later p q ∧ (r = None → proved a (p_calls q))) p.
Proof.
  intros Hends. revert ready p. induction wakes as [|w wakes IH]; intros ready p Ha Hready; [by apply Exists_nil in Hends|].
  destruct w; cbn [wait_guest]; [by wp_step..|].
  apply Exists_cons in Hends as [|Hends]; [done|]. wp_step. eapply wp_mono; [by apply wp_tick|].
  intros [ready' result] q [Hl Hr]. cbn [fst snd] in Hr. destruct result as [result|].
  - wp_step. split; [done|]. by intros ->.
  - eapply wp_mono; [apply (IH Hends); [destruct Hl; lia|done]|]. intros r q' [Hl' Hr'].
    split; [by eapply later_trans|done].
Qed.

Lemma wp_relay_guest local peer fs raw wakes p :
  ends wakes → wp (relay_guest local peer fs raw wakes) (verdict p) p.
Proof.
  intros Hends. unfold relay_guest. apply wp_forward; [apply forward_hidden, hidden_attempt|]. intros _ q Hq.
  apply wp_forward; [apply forward_hidden, hidden_acquire|]. intros [err|conn] q1 Hq1.
  { wp_step. apply verdict_error. by eapply later_trans. }
  pose proof (later_trans _ _ _ Hq Hq1) as Hl1.
  apply (wp_deferred_by later); [intros a q' r; apply relay_verdict_later|apply forward_hidden, hidden_release|].
  apply (wp_deferred_by later); [intros a q' r; apply relay_verdict_later| |].
  { apply forward_hidden, hidden_after_func, hidden_bind; intros; apply hidden_release. }
  apply wp_forward; [apply forward_hidden, hidden_Now|]. intros now q2 Hq2.
  eapply wp_mono; [apply (wp_wait_guest local peer fs _ wakes false (p_calls q2)); done|].
  intros r q3 Hr. eapply relay_verdict_start; [by eapply later_trans|exact Hr].
Qed.

Lemma wp_start_relay local peer fs wakes p :
  ends wakes → wp (start_relay local peer fs wakes) (verdict p) p.
Proof.
  intros Hends. unfold start_relay. apply wp_forward; [apply forward_hidden, hidden_acquire|].
  intros [err|raw] q Hq; [wp_step; by apply verdict_error|].
  apply (wp_deferred_by later); [intros a q' r; apply relay_verdict_later|apply forward_hidden, hidden_release|].
  apply wp_forward; [apply forward_hidden, hidden_acquire|]. intros [err|listener] q1 Hq1.
  all: pose proof (later_trans _ _ _ Hq Hq1) as Hl1.
  { wp_step. by apply verdict_error. }
  apply (wp_deferred_by later); [intros a q' r; apply relay_verdict_later|apply forward_hidden, hidden_release|].
  apply wp_forward; [apply forward_hidden, hidden_acquire|]. intros [err|qemu] q2 Hq2.
  all: pose proof (later_trans _ _ _ Hl1 Hq2) as Hl2.
  { wp_step. by apply verdict_error. }
  unfold deferred_with. wp_step. eapply wp_mono; [by apply wp_relay_guest|]. intros r q3 Hr.
  apply wp_forward; [apply forward_conclude|]. intros _ q4 Hq4. wp_step.
  eapply relay_verdict_later; [by eapply relay_verdict_start|done].
Qed.

(** *** Resources *)

Lemma owns_announce K K' local peer fs : owns K K' (announce local peer fs).
Proof. unfold announce. apply owns_bind; [apply owns_writeFile|]. intros [err|]; owns_auto. Qed.

Lemma owns_tick K K' local peer fs bootDeadline ready : owns K K' (tick local peer fs bootDeadline ready).
Proof.
  unfold tick, logs_String, acknowledged. apply owns_bind; [owns_auto|]. intros log.
  destruct (_ || _); [apply owns_ret|].
  apply owns_bind; [destruct (_ && _); [apply owns_announce|apply owns_ret]|]. intros written. owns_auto.
Qed.

Lemma owns_wait_guest K K' local peer fs bootDeadline wakes ready :
  ends wakes → owns K K' (wait_guest local peer fs bootDeadline wakes ready).
Proof.
  intros Hends. revert ready. induction wakes as [|w wakes IH]; intros ready; [by apply Exists_nil in Hends|].
  destruct w; cbn [wait_guest]; [apply owns_ret..|]. apply Exists_cons in Hends as [|Hends]; [done|].
  apply owns_bind; [apply owns_tick|]. intros [ready' [result|]]; [apply owns_ret|by apply IH].
Qed.

Lemma closes_conclude K K' qemu fs result : closes K K' qemu (conclude qemu fs result).
Proof.
  apply closes_bind; [owns_auto|]. intros _. apply closes_then; [owns_auto|]. intros _.
  apply owns_bind; [owns_auto|]. intros _. apply owns_bind; [owns_auto|]. intros n.
  do 3 (apply owns_bind; [unfold logs_String; owns_auto|]; intros ?).
  do 2 (apply owns_bind; [apply owns_writeFile|]; intros _). owns_auto.
Qed.

Lemma owns_start_relay local peer fs wakes : ends wakes → owns ∅ ∅ (start_relay local peer fs wakes).
Proof.
  intros Hends. unfold start_relay, relay_guest. owns_auto; eauto using owns_wait_guest, closes_conclude.
Qed.

Lemma relay_flags_values args fs rest :
  flag.Parse flags args = inr (fs, rest) →
  ∃ localText peerText kernel initrd log report ready duration uid,
    flag.get_string fs "local" = Some localText ∧ flag.get_string fs "peer" = Some peerText ∧
    flag.get_string fs "kernel" = Some kernel ∧ flag.get_string fs "initrd" = Some initrd ∧
    flag.get_string fs "log" = Some log ∧ flag.get_string fs "report" = Some report ∧
    flag.get_string fs "ready-file" = Some ready ∧ flag.get_duration fs "duration" = Some duration ∧
    flag.get_int fs "qemu-uid" = Some uid.
Proof.
  intros Hp%flag.Parse_kinds. unfold flags in Hp. flag.open_flags Hp. do 9 eexists.
  do 8 (split; [reflexivity|]). reflexivity.
Qed.

Lemma owns_relay_run wakes args : ends wakes → owns ∅ ∅ (run wakes args).
Proof.
  intros Hends. unfold run. destruct (flag.Parse flags args) as [[]|[fs rest]] eqn:Ep; [apply owns_ret..|].
  destruct (relay_flags_values args fs rest Ep) as (localText&peerText&kernel&initrd&log&report&ready&duration&uid&->&->&->&->&
    ->&->&->&->&->). rewrite !or_panic_Some.
  destruct (check_run _ _ _ _ _ _) as [err|[local peer]]; [apply owns_ret|].
  destruct (qemuCredentials _ _ _ _ _) as [err|credential]; [apply owns_ret|].
  assert (owns ∅ ∅ (err ← start_relay local peer (mkPaths log report ready) wakes; mret (Ended err))) as Hstart.
  { apply owns_bind; [by apply owns_start_relay|]. intros err. apply owns_ret. }
  apply owns_bind; [owns_auto|]. intros [err|]; [|done].
  repeat (case_match; try done; try apply owns_ret).
Qed.

Lemma wp_run_relay wakes args p :
  ends wakes → wp (run wakes args) (λ r q, r = Ended None → proved (p_calls p) (p_calls q)) p.
Proof.
  intros Hends. unfold run. destruct (flag.Parse flags args) as [[]|[fs rest]] eqn:Ep; [by wp_step..|].
  destruct (relay_flags_values args fs rest Ep) as (localText&peerText&kernel&initrd&log&report&ready&duration&uid&->&->&->&->&
    ->&->&->&->&->). rewrite !or_panic_Some.
  destruct (check_run _ _ _ _ _ _) as [err|[local peer]]; [by wp_step|].
  destruct (qemuCredentials _ _ _ _ _) as [err|credential]; [by wp_step|].
  apply wp_forward; [apply forward_Remove|]. intros removed q Hq.
  assert (wp (err ← start_relay local peer (mkPaths log report ready) wakes; mret (Ended err))
    (λ r q, r = Ended None → proved (p_calls p) (p_calls q)) q) as Hstart.
  { wp_step. eapply wp_mono; [by apply wp_start_relay|]. intros r q1 Hr. wp_step. intros [= ->].
    by apply (relay_verdict_start p q None q1 Hq Hr). }
  destruct removed as [err|]; [|done]. repeat (case_match; try done; try by wp_step).
Qed.


(** *** The report *)

Lemma wp_writeFile_granted path data Q p :
  ¬ denied → (∀ q, p_files q = <[path := mkFile data 420]> (p_files p) → Q None q) → wp (writeFile path data) Q p.
Proof.
  intros Hg Hf. eapply wp_mono; [apply wp_writeFile; intros; apply temp_other|].
  intros [err|] q (_&_&_&Hq); [by destruct Hq|by apply Hf].
Qed.

Lemma report_encodable r : json.encodable (report_json r) = true.
Proof.
  unfold report_json. cbn [json.encodable]. rewrite forallb_app. cbn -[json.of_map json.encodable].
  rewrite !json.of_map_encodable. by destruct (lanrelay.Error r).
Qed.

(** What a run that ended with [result] leaves in the file system. *)
Definition reported (fs : paths) (result : option error) (q : process) : Prop :=
  ∃ n a b c data,
    let r := final_report (relay_state n) (log_at a) (log_at b) result message in
    json.MarshalIndent (report_json r) = Some data ∧ (lanrelay.Complete r = true ↔ result = None) ∧
    p_files q !! reportPath fs = Some (mkFile (data ++ [10]) 420) ∧
    p_files q !! logPath fs = Some (mkFile (log_at c) 420) ∧
    p_files q !! readyPath fs = None.

Lemma reported_view fs result q q' : same_view q q' → reported fs result q → reported fs result q'.
Proof. intros Hv. unfold reported. by rewrite (sv_files _ _ Hv). Qed.

Definition distinct_paths (fs : paths) : Prop :=
  reportPath fs ≠ logPath fs ∧ readyPath fs ≠ logPath fs ∧ readyPath fs ≠ reportPath fs.

Lemma wp_Remove_granted {A} path (f : option io_error → M process A) Q p :
  ¬ denied → (∀ err q, p_files q = delete path (p_files p) → wp (f err) Q q) → wp (Remove path ≫= f) Q p.
Proof.
  intros Hg Hf. unfold Remove. wp_step. apply wp_attempt. intros err q Hq [->|?]; [|done]. do 2 wp_step.
  destruct (p_files q !! path) eqn:E; wp_steps; apply Hf; cbn; rewrite (sv_files _ _ Hq) in *; [done|by rewrite delete_id].
Qed.

Lemma wp_conclude qemu fs result p :
  ¬ denied → distinct_paths fs → wp (conclude qemu fs result) (λ _ q, reported fs result q) p.
Proof.
  intros Hg (Hrl&Hyl&Hyr). unfold conclude. apply wp_hidden; [apply hidden_attempt|]. intros _ q0 _.
  apply wp_hidden; [apply hidden_release|]. intros _ q1 _. apply wp_Remove_granted; [done|]. intros _ q2 F2.
  unfold logs_String, syscall, syscall_for. wp_steps. set (q3 := process.tick _ _).
  unfold json.MarshalIndent. rewrite report_encodable. cbn [default].
  apply wp_writeFile_granted; [done|]. intros q4 F4. wp_step. apply wp_writeFile_granted; [done|]. intros q5 F5.
  unfold write_out, syscall, syscall_for. wp_steps. do 5 eexists. cbn zeta. split.
  { unfold json.MarshalIndent. by rewrite report_encodable. }
  split; [cbn; apply bool_decide_eq_true|].
  cbn [p_files set_out process.tick]. rewrite F5, F4. cbn [p_files process.tick q3]. rewrite F2.
  split; [apply lookup_insert_eq|]. split.
  - by rewrite lookup_insert_ne, lookup_insert_eq.
  - by rewrite !lookup_insert_ne, lookup_delete_eq.
Qed.

Lemma wp_start_relay_report local peer fs wakes p :
  ends wakes → ¬ denied → distinct_paths fs → wp (start_relay local peer fs wakes) (reported fs) p.
Proof.
  intros Hends Hg Hfs. unfold start_relay. apply wp_acquire. intros [err|raw] q _ Hr; [done|].
  apply wp_deferred; [intros a q' r ? Hv; by apply (reported_view _ _ q')|apply hidden_release|].
  apply wp_acquire. intros [err|listener] q1 _ Hr1; [done|].
  apply wp_deferred; [intros a q' r ? Hv; by apply (reported_view _ _ q')|apply hidden_release|].
  apply wp_acquire. intros [err|qemu] q2 _ Hr2; [done|].
  unfold deferred_with. wp_step. eapply wp_mono; [by apply wp_relay_guest|]. intros r q3 _. wp_step.
  eapply wp_mono; [by apply wp_conclude|]. intros [] q4 Hq4. by wp_step.
Qed.

End facts.

(** ** A run on a plain system *)

Definition guest_console : Console := {|
  console := λ _, text "HOMA_GUEST_READY" :: text "HOMA_GUEST_CLIENT_PASS" :: replicate 8 (text "ok mode=serve call=1 ")
|}.

Definition plain_environment : Environment := {|
  euid := 501; pkexec := []; sudo := []; user_group := λ _, None; pid := 7; message := λ _, "error"%string
|}.

Definition busy_path : PacketPath := {|
  relay_state := λ _, lanrelay.mkState
    (lanrelay.mkReport "path" "10.0.0.1" "10.0.0.2" 20 20 0 0 0 ∅ ∅ ∅ 0 0 false false "")
    (list_to_set (seqZ 1 8))
|}.

#[local] Abbreviation demo_run :=
  (@run amd64 plain_os guest_console json.plain_text plain_environment busy_path [WTick; WDone]).

Definition demo_args : list (list Z) :=
  [text "-local=10.0.0.1"; text "-peer=10.0.0.2"; text "-kernel=vmlinuz"; text "-initrd=initrd.gz"].

Definition completed (r : (ending * process) + fault) : bool :=
  match r with inl (Ended None, _) => true | _ => false end.

Lemma relay_demo_completes : completed (demo_run demo_args start_process) = true.
Proof. vm_compute. reflexivity. Qed.

Lemma demo_ends_waiting : ends [WTick; WDone].
Proof. apply Exists_cons_tl, Exists_cons_hd. discriminate. Qed.


Lemma plain_grants : ¬ @denied plain_os.
Proof. intros [n Hn]. by apply Hn. Qed.

Lemma writeFile_atomic_witness :
  process_ok start_process ∧
  ∃ p', @writeFile plain_os (text "r") [1; 2] start_process = inl (None, p') ∧ balanced start_process p' ∧
    p_files p' = <[text "r" := mkFile [1; 2] 420]> ∅.
Proof.
  split; [apply start_process_ok|].
  destruct (@writeFile_atomic plain_os (text "r") [1; 2] start_process (λ _ files, fresh_path_other (text "r") files)
    start_process_ok) as (err&p'&Hrun&Hb&_&Hf).
  destruct err as [err|]; [destruct Hf as [Hd _]; by destruct plain_grants|].
  exists p'. split; [exact Hrun|]. split; [exact Hb|exact Hf].
Defined.

Definition demo_paths : paths := mkPaths (text "log") (text "report") (text "ready").

Lemma demo_paths_distinct : distinct_paths demo_paths.
Proof. split; [discriminate|]. split; discriminate. Qed.

End lanrelay_process.
