(* ===== verification/LinuxPeer.v ===== *)
(** * The Linux peer (src/interop/linux_peer.c)

    The program that runs against the Linux kernel's Homa inside the test guest:
    its numbers and addresses, the reconstruction of a message from the pages of
    the receive pool, and the calls of its client and server.  What the kernel
    answers is a parameter, by the number of the call.  Reading outside an array
    is [None], or the fault [Panic]. *)
From S2P Require Import Prelude Wire Api Text Net.

#[local] Open Scope Z_scope.

Module linux_peer.

(** ** Constants of vendor/homa.h *)

Definition HOMA_MAX_MESSAGE_LENGTH : Z := 1000000.
Definition HOMA_BPAGE_SIZE : Z := 65536.
Definition HOMA_MAX_BPAGES : Z := Z.shiftr (HOMA_MAX_MESSAGE_LENGTH + HOMA_BPAGE_SIZE - 1) 16.
Definition HOMA_MIN_DEFAULT_PORT : Z := 32768.

(** ** Numbers and addresses *)

Definition isspace (c : Z) : bool := (c =? 32) || ((9 <=? c) && (c <=? 13)).

Fixpoint skip_space (s : list Z) : list Z :=
  match s with
  | c :: s' => if isspace c then skip_space s' else s
  | [] => []
  end.

(** The digits at the start of a string: their number, their value and the rest. *)
Fixpoint leading_digits (n : nat) (acc : Z) (s : list Z) : nat * Z * list Z :=
  match s with
  | c :: s' => if (48 <=? c) && (c <=? 57) then leading_digits (S n) (acc * 10 + (c - 48)) s' else (n, acc, s)
  | [] => (n, acc, [])
  end.

(** [strtoul(text, &end, 10)] with 64-bit longs: the value and what is left of
    the text; [None] when [errno] is set. *)
Definition strtoul (text : list Z) : option (Z * list Z) :=
  let s := skip_space text in
  let '(neg, s) := match s with
    | c :: s' => if c =? 45 then (true, s') else if c =? 43 then (false, s') else (false, s)
    | [] => (false, [])
    end in
  let '(n, value, rest) := leading_digits 0 0 s in
  if Nat.eqb n 0 then Some (0, text) else
  if 2 ^ 64 <=? value then None else
  Some (if (neg : bool) then u64 (- value) else value, rest).

(** [None] is the result -1. *)
Definition number (text : list Z) (min max : Z) : option Z :=
  match text with
  | [] => None
  | c :: _ =>
      if c =? 45 then None else
      '(value, rest) ← strtoul text;
      match rest with
      | [] => if (value <? min) || (max <? value) then None else Some value
      | _ => None
      end
  end.

(** [inet_pton(AF_INET, ...)]: [octets] are those before the one being read, whose
    value is [val]; [saw] tells whether it has a digit. *)
Fixpoint inet_pton4 (s : list Z) (octets : list Z) (val : Z) (saw : bool) : option (list Z) :=
  match s with
  | [] => if (len octets =? 3) && saw then Some (octets ++ [val]) else None
  | c :: s =>
      if (48 <=? c) && (c <=? 57) then
        if saw && (val =? 0) then None else
        let val := val * 10 + (c - 48) in
        if 255 <? val then None else inet_pton4 s octets val true
      else if (c =? 46) && saw then
        if len octets =? 3 then None else inet_pton4 s (octets ++ [val]) 0 false
      else None
  end.

Record sockaddr := mkSockaddr { sin_addr : Z; sin_port : Z }.

#[global] Instance sockaddr_eq_dec : EqDecision sockaddr.
Proof. solve_decision. Defined.

Definition INET_ADDRSTRLEN : Z := 16.

Definition address (text : list Z) : option sockaddr :=
  '(host, port) ← addr.splitAddrPort text;
  port ← number port 0 65535;
  if INET_ADDRSTRLEN <=? len host then None else
  if len host =? 0 then Some (mkSockaddr 0 port) else
  octets ← inet_pton4 host [] 0 false;
  Some (mkSockaddr (be_decode octets) port).

Definition same_address (a b : sockaddr) : bool := (sin_port a =? sin_port b) && (sin_addr a =? sin_addr b).

(** ** Payloads *)

Definition pattern (index : Z) : Z := u8 (Z.lxor (Z.lxor (u64 (index * 31)) (Z.shiftr index 8)) 165).

(** The payload of the client. *)
Definition pattern_data (bytes : Z) : list Z := pattern <$> seqZ 0 bytes.

Fixpoint check_from (i : Z) (data : list Z) : bool :=
  match data with
  | [] => true
  | b :: data => if negb (b =? pattern i) then false else check_from (i + 1) data
  end.

Definition check_pattern (data : list Z) : bool := check_from 0 data.

(** FNV-1a. *)
Definition checksum (data : list Z) : Z :=
  foldl (λ value b, u64 (Z.lxor value b * 1099511628211)) 14695981039346656037 data.

(** ** Messages in the receive pool *)

Record recvmsg_args := mkRecv { rc_id : Z; rc_cookie : Z; num_bpages : Z; bpage_offsets : list Z }.

(** The pool is the memory from its start; it has [pool_size] bytes. *)
Record endpoint := mkEndpoint { pool_size : Z; pool : Z → Z; receive : recvmsg_args }.

(** Reading [n] bytes of the pool. *)
Definition pool_read (ep : endpoint) (offset n : Z) : option (list Z) :=
  if (0 <=? offset) && (offset + n <=? pool_size ep) then Some (pool ep <$> seqZ offset n) else None.

(** The loop of [copy_received], from page [i] on; the result is [None] for
    EPROTO. *)
Fixpoint copy_pages (ep : endpoint) (length pages : Z) (n : nat) (i : Z) (output : list Z)
  : option (option (list Z)) :=
  match n with
  | O => Some (Some output)
  | S n =>
      offset ← idx (bpage_offsets (receive ep)) i;
      let part := Z.min (length - len output) HOMA_BPAGE_SIZE in
      if (pool_size ep <? offset) || (pool_size ep - offset <? part) ||
         ((i + 1 <? pages) && negb (offset mod HOMA_BPAGE_SIZE =? 0)) then Some None else
      bytes ← pool_read ep offset part;
      copy_pages ep length pages n (i + 1) (output ++ bytes)
  end.

Definition copy_received (ep : endpoint) (length : Z) : option (option (list Z)) :=
  let pages := u64 (length + HOMA_BPAGE_SIZE - 1) / HOMA_BPAGE_SIZE in
  if (length =? 0) || (HOMA_MAX_MESSAGE_LENGTH <? length) ||
     negb (num_bpages (receive ep) =? pages) || (HOMA_MAX_BPAGES <? pages) then Some None else
  copy_pages ep length pages (Z.to_nat pages) 0 [].

(** ** Options *)

Record options := mkOptions {
  o_server : bool; remote_set : bool; bytes_set : bool; verify_pattern : bool;
  o_local : sockaddr; remote : sockaddr; o_bytes : Z; o_count : Z; timeout_ms : Z; pool_mib : Z
}.

Definition set_bind (a : sockaddr) (o : options) : options :=
  mkOptions (o_server o) (remote_set o) (bytes_set o) (verify_pattern o) a (remote o) (o_bytes o) (o_count o)
    (timeout_ms o) (pool_mib o).
Definition set_remote (a : sockaddr) (o : options) : options :=
  mkOptions (o_server o) true (bytes_set o) (verify_pattern o) (o_local o) a (o_bytes o) (o_count o)
    (timeout_ms o) (pool_mib o).
Definition set_bytes (n : Z) (o : options) : options :=
  mkOptions (o_server o) (remote_set o) true (verify_pattern o) (o_local o) (remote o) n (o_count o)
    (timeout_ms o) (pool_mib o).
Definition set_count (n : Z) (o : options) : options :=
  mkOptions (o_server o) (remote_set o) (bytes_set o) (verify_pattern o) (o_local o) (remote o) (o_bytes o) n
    (timeout_ms o) (pool_mib o).
Definition set_timeout (n : Z) (o : options) : options :=
  mkOptions (o_server o) (remote_set o) (bytes_set o) (verify_pattern o) (o_local o) (remote o) (o_bytes o)
    (o_count o) n (pool_mib o).
Definition set_pool (n : Z) (o : options) : options :=
  mkOptions (o_server o) (remote_set o) (bytes_set o) (verify_pattern o) (o_local o) (remote o) (o_bytes o)
    (o_count o) (timeout_ms o) n.
Definition set_verify (o : options) : options :=
  mkOptions (o_server o) (remote_set o) (bytes_set o) true (o_local o) (remote o) (o_bytes o) (o_count o)
    (timeout_ms o) (pool_mib o).

(** A flag with its value. *)
Definition flag_value (name value : list Z) (o : options) : option options :=
  if bool_decide (name = text "--bind") then (λ a, set_bind a o) <$> address value
  else if bool_decide (name = text "--remote") then (λ a, set_remote a o) <$> address value
  else if bool_decide (name = text "--bytes") then (λ n, set_bytes n o) <$> number value 1 HOMA_MAX_MESSAGE_LENGTH
  else if bool_decide (name = text "--count") then (λ n, set_count n o) <$> number value 0 1000000
  else if bool_decide (name = text "--timeout-ms") then (λ n, set_timeout n o) <$> number value 1 3600000
  else if bool_decide (name = text "--pool-mib") then (λ n, set_pool n o) <$> number value 1 4096
  else None.

(** The loop over the arguments. *)
Fixpoint parse_flags (args : list (list Z)) (o : options) : option options :=
  match args with
  | [] => Some o
  | name :: args =>
      if bool_decide (name = text "--verify-pattern") then parse_flags args (set_verify o) else
      match args with
      | [] => None
      | value :: args => o ← flag_value name value o; parse_flags args o
      end
  end.

Definition invalid (o : options) : bool :=
  (negb (o_server o) && (negb (remote_set o) || (o_count o =? 0) || verify_pattern o)) ||
  (HOMA_MIN_DEFAULT_PORT <=? sin_port (o_local o)) || (o_server o && (sin_port (o_local o) =? 0)) ||
  (remote_set o && ((sin_port (remote o) =? 0) || (sin_addr (remote o) =? 0))) ||
  (2 ^ 64 - 1 <? pool_mib o * 1024 * 1024).

(** What [main] makes of its arguments, after its name. *)
Inductive command := SelfTest | Help | Invalid | Run (o : options).

Definition command_of (args : list (list Z)) : command :=
  match args with
  | [] => Invalid
  | mode :: args =>
      if bool_decide (args = []) && bool_decide (mode = text "--self-test") then SelfTest else
      if bool_decide (args = []) && bool_decide (mode = text "--help") then Help else
      if negb (bool_decide (mode = text "serve")) && negb (bool_decide (mode = text "client")) then Invalid else
      let server := bool_decide (mode = text "serve") in
      let bind := default (mkSockaddr 0 0) (address (text (if server then "0.0.0.0:4000" else "0.0.0.0:0"))) in
      let o := mkOptions server false false false bind (mkSockaddr 0 0) 1024
        (if server then 0 else 1) 5000 256 in
      match parse_flags args o with
      | None => Invalid
      | Some o => if invalid o then Invalid else Run o
      end
  end.

(** ** The kernel *)

Definition EINTR : Z := 4.
Definition EIO : Z := 5.
Definition EBADF : Z := 9.
Definition EAGAIN : Z := 11.
Definition EPROTO : Z := 71.
Definition ETIMEDOUT : Z := 110.

(** [recvmsg]: an error, or the length of the message, the peer, whether its name
    is an IPv4 address and nothing was cut, and what the kernel wrote to the
    arguments and the pool. *)
Inductive received :=
| RecvError (errno : Z)
| RecvMessage (length : Z) (peer : sockaddr) (whole : bool) (args : recvmsg_args) (pool : Z → Z).

(** [sendmsg]: an error, or its result and the ID it wrote. *)
Inductive sent := SendError (errno : Z) | SendResult (result : Z) (id : Z).

Inductive polled := PollError (errno : Z) | PollReady (invalid : bool).

(** The answers of the kernel, within the C types; the signal that stops the
    program arrives before call [k_stop], as late as that may be. *)
Class Kernel := {
  k_recv : nat → received;
  k_recv_ok : ∀ n, match k_recv n with
    | RecvMessage length _ _ args _ => 0 ≤ length < 2 ^ 63 ∧ len (bpage_offsets args) = HOMA_MAX_BPAGES ∧
        Forall (λ o, 0 ≤ o < 2 ^ 32) (bpage_offsets args)
    | RecvError _ => True
    end;
  k_send : nat → sent;
  k_poll : nat → polled;
  k_clock : nat → Z;
  k_sleep : nat → option Z;
  k_malloc : bool;
  k_hijack : option (option Z);
  k_refuses : nat → bool;
  k_stop : nat
}.

(** What went over the socket. *)
Inductive message :=
| Sent (to : sockaddr) (data : list Z) (id cookie : Z)
| Received (from : sockaddr) (data : list Z) (id cookie : Z).

(** A line that says that a call succeeded. *)
Record ok_line := mkOk {
  ok_server : bool; ok_call : Z; ok_id : Z; ok_peer : sockaddr; ok_bytes : Z; ok_fnv : Z
}.

(** [p_fd] and [p_mapped] tell whether the socket is open and the pool mapped. *)
Record peer := mkPeer {
  p_calls : nat; p_ep : endpoint; p_out : list ok_line; p_trace : list message; p_fd : bool; p_mapped : bool
}.

Definition set_ep (ep : endpoint) (s : peer) : peer :=
  mkPeer (p_calls s) ep (p_out s) (p_trace s) (p_fd s) (p_mapped s).
Definition set_fd (b : bool) (s : peer) : peer :=
  mkPeer (p_calls s) (p_ep s) (p_out s) (p_trace s) b (p_mapped s).
Definition set_mapped (b : bool) (s : peer) : peer :=
  mkPeer (p_calls s) (p_ep s) (p_out s) (p_trace s) (p_fd s) b.

Section run.
Context `{Kernel}.

Definition syscall : M peer nat :=
  s ← get;
  modify (λ s, mkPeer (S (p_calls s)) (p_ep s) (p_out s) (p_trace s) (p_fd s) (p_mapped s));;
  mret (p_calls s).

(** Reading [stopped]. *)
Definition stopped : M peer bool :=
  n ← syscall;
  mret (k_stop <=? n)%nat.

Definition milliseconds : M peer Z :=
  n ← syscall;
  mret (k_clock n).

Definition say (line : ok_line) : M peer unit :=
  modify (λ s, mkPeer (p_calls s) (p_ep s) (p_out s ++ [line]) (p_trace s) (p_fd s) (p_mapped s)).

Definition note (m : message) : M peer unit :=
  modify (λ s, mkPeer (p_calls s) (p_ep s) (p_out s) (p_trace s ++ [m]) (p_fd s) (p_mapped s)).

(** The loop of [receive_message]: an error, or the peer and the message. *)
Fixpoint receive_loop (fuel : nat) (deadline : Z) : M peer (Z + (sockaddr * list Z)) :=
  match fuel with
  | O => stop OutOfFuel
  | S fuel =>
      halt ← stopped;
      if (halt : bool) then mret (inl EINTR) else
      modify (λ s, set_ep (mkEndpoint (pool_size (p_ep s)) (pool (p_ep s)) (mkRecv 0 (rc_cookie (receive (p_ep s)))
        (num_bpages (receive (p_ep s))) (bpage_offsets (receive (p_ep s))))) s);;
      n ← syscall;
      match k_recv n with
      | RecvMessage length from whole args pool =>
          s ← get;
          let ep := mkEndpoint (pool_size (p_ep s)) pool args in
          modify (set_ep ep);;
          if negb whole then mret (inl EPROTO) else
          copied ← or_panic (copy_received ep length);
          match copied with
          | None => mret (inl EPROTO)
          | Some data => note (Received from data (rc_id args) (rc_cookie args));; mret (inr (from, data))
          end
      | RecvError errno =>
          if errno =? EINTR then receive_loop fuel deadline else
          if negb (errno =? EAGAIN) then mret (inl errno) else
          now ← milliseconds;
          if deadline <=? now then mret (inl ETIMEDOUT) else
          n ← syscall;
          match k_poll n with
          | PollError errno => if errno =? EINTR then receive_loop fuel deadline else mret (inl errno)
          | PollReady true => mret (inl EBADF)
          | PollReady false => receive_loop fuel deadline
          end
      end
  end.

(** Every round reads [stopped], which is set from some call on. *)
Definition receive_message (timeout : Z) : M peer (Z + (sockaddr * list Z)) :=
  now ← milliseconds;
  receive_loop (S k_stop) (u64 (now + timeout)).

(** The ID after the call, or an error. *)
Definition send_message (to : sockaddr) (data : list Z) (id cookie : Z) : M peer (Z + Z) :=
  n ← syscall;
  match k_send n with
  | SendError errno => mret (inl errno)
  | SendResult result id' =>
      if negb (result =? 0) then mret (inl EIO) else
      note (Sent to data id' cookie);;
      mret (inr id')
  end.

(** How a round of [run] ends: with the line of a verified call, with a break, or
    at the label [done]. *)
Inductive round := Verified | Broken | Failed.

Definition cookie_of (call : Z) : Z := u64 (7525353765738643456 + call).

(** The checks on a received message. *)
Definition acceptable (o : options) (from : sockaddr) (data : list Z) : bool :=
  negb (remote_set o && negb (same_address from (remote o))) &&
  negb ((bytes_set o || negb (o_server o)) && negb (len data =? o_bytes o)) &&
  negb ((negb (o_server o) || verify_pattern o) && negb (check_pattern data)).

(** The part of a round that the client does before it receives: its ID. *)
Definition request (o : options) (cookie : Z) : M peer (option Z) :=
  if o_server o then mret (Some 0) else
  r ← send_message (remote o) (pattern_data (o_bytes o)) 0 cookie;
  match r with
  | inl _ => mret None
  | inr id => if (id =? 0) || negb (Z.land id 1 =? 0) then mret None else mret (Some id)
  end.

(** The server answers; the client compares the ID and the cookie. *)
Definition respond (o : options) (id cookie : Z) (from : sockaddr) (data : list Z) : M peer (option Z) :=
  s ← get;
  let args := receive (p_ep s) in
  if o_server o then
    if (Z.land (rc_id args) 1 =? 0) || negb (rc_cookie args =? 0) then mret None else
    r ← send_message from data (rc_id args) 0;
    match r with inl _ => mret None | inr id => mret (Some id) end
  else if negb (rc_id args =? id) || negb (rc_cookie args =? cookie) then mret None
  else mret (Some id).

Definition run_call (o : options) (call : Z) : M peer round :=
  let cookie := cookie_of call in
  requested ← request o cookie;
  match requested with
  | None => mret Failed
  | Some id =>
      r ← receive_message (timeout_ms o);
      match r with
      | inl _ => halt ← stopped; mret (if (halt : bool) then Broken else Failed)
      | inr (from, data) =>
          if negb (acceptable o from data) then mret Failed else
          responded ← respond o id cookie from data;
          match responded with
          | None => mret Failed
          | Some id =>
              say (mkOk (o_server o) (u32 (call + 1)) id from (len data) (checksum data));;
              mret Verified
          end
      end
  end.

(** The loop of [run]: false is a jump to [done]. *)
Fixpoint run_loop (fuel : nat) (o : options) (call : Z) : M peer bool :=
  match fuel with
  | O => stop OutOfFuel
  | S fuel =>
      halt ← stopped;
      if halt || (negb (o_count o =? 0) && (o_count o <=? call)) then mret true else
      r ← run_call o call;
      match r with
      | Verified => run_loop fuel o (u32 (call + 1))
      | Broken => mret true
      | Failed => mret false
      end
  end.

(** The time for acknowledgments at the end. *)
Fixpoint linger (fuel : nat) : M peer unit :=
  match fuel with
  | O => stop OutOfFuel
  | S fuel =>
      n ← syscall;
      match k_sleep n with
      | Some errno =>
          if negb (errno =? EINTR) then mret () else
          halt ← stopped;
          if (halt : bool) then mret () else linger fuel
      | None => mret ()
      end
  end.

(** Whether [run] returns 0. *)
Definition run (o : options) : M peer bool :=
  if negb k_malloc then mret false else
  ok ← run_loop (S k_stop) o 0;
  if negb ok then mret false else
  halt ← stopped;
  (if (halt : bool) then mret () else linger (S k_stop));;
  mret true.

(** A call that the kernel grants or refuses. *)
Definition refused : M peer bool :=
  n ← syscall;
  mret (k_refuses n).

(** Opening the socket and mapping the pool; [k_hijack] is what the file of the
    setting holds, if there is one.  False is the result -1. *)
Definition open_endpoint (o : options) : M peer bool :=
  modify (λ s, set_mapped false (set_fd false (set_ep (mkEndpoint 0 (λ _, 0) (mkRecv 0 0 0 (replicate 16 0))) s)));;
  if match k_hijack with Some setting => negb (bool_decide (setting = Some 0)) | None => false end then mret false else
  no ← refused;
  if (no : bool) then mret false else
  modify (set_fd true);;
  no ← refused;
  if (no : bool) then mret false else
  no ← refused;
  if (no : bool) then mret false else
  let size := pool_mib o * 1024 * 1024 in
  modify (λ s, set_ep (mkEndpoint size (pool (p_ep s)) (receive (p_ep s))) s);;
  no ← refused;
  if (no : bool) then mret false else
  modify (set_mapped true);;
  no ← refused;
  if (no : bool) then mret false else
  no ← refused;
  mret (negb no).

(** The socket is closed before the pool is unmapped. *)
Definition close_endpoint : M peer unit :=
  modify (set_fd false);;
  modify (set_mapped false).

(** [self_test]: the message of 131089 bytes on three pages, and the cases that
    must be refused; [None] is a read outside the pool, [false] a failure. *)
Fixpoint test_pool (offsets : list Z) (page length at_ : Z) : Z :=
  match offsets with
  | [] => 0
  | offset :: offsets =>
      let i := page * HOMA_BPAGE_SIZE + (at_ - offset) in
      if (offset <=? at_) && (at_ <? offset + HOMA_BPAGE_SIZE) && (i <? length) then pattern i
      else test_pool offsets (page + 1) length at_
  end.

Definition test_offsets : list Z := [2 * HOMA_BPAGE_SIZE; 0; HOMA_BPAGE_SIZE + 13].

Definition self_test (allocated : bool) : option bool :=
  if negb allocated then Some false else
  let size := 4 * HOMA_BPAGE_SIZE in
  let length := 2 * HOMA_BPAGE_SIZE + 17 in
  let memory := test_pool test_offsets 0 length in
  let ep num offsets := mkEndpoint size memory (mkRecv 0 0 num (offsets ++ replicate 13 0)) in
  first ← copy_received (ep 3 test_offsets) length;
  let high := [2 * HOMA_BPAGE_SIZE; 0; size - 16] in
  outside ← copy_received (ep 3 high) length;
  many ← copy_received (ep (HOMA_MAX_BPAGES + 1) high) length;
  none ← copy_received (ep (HOMA_MAX_BPAGES + 1) high) 0;
  large ← copy_received (ep (HOMA_MAX_BPAGES + 1) high) (HOMA_MAX_MESSAGE_LENGTH + 1);
  Some (match first with Some out => check_pattern out | None => false end &&
    forallb (λ r : option (list Z), match r with None => true | Some _ => false end) [outside; many; none; large]).

(** The exit status. *)
Definition main (args : list (list Z)) : M peer Z :=
  match command_of args with
  | SelfTest =>
      ok ← or_panic (self_test k_malloc);
      mret (if (ok : bool) then 0 else 1)
  | Help => mret 0
  | Invalid => mret 2
  | Run o =>
      no ← refused;
      if (no : bool) then mret 1 else
      opened ← open_endpoint o;
      if negb opened then close_endpoint;; mret 1 else
      ok ← run o;
      close_endpoint;;
      mret (if (ok : bool) then 0 else 1)
  end.
End run.

(** ** Receiving a message *)

Record endpoint_ok (ep : endpoint) : Prop := {
  eo_size : 0 ≤ pool_size ep < 2 ^ 64;
  eo_pages : len (bpage_offsets (receive ep)) = HOMA_MAX_BPAGES;
  eo_offsets : Forall (λ o, 0 ≤ o < 2 ^ 32) (bpage_offsets (receive ep))
}.

(** The number of pages of a message and of bytes on page [i]. *)
Definition pages_of (length : Z) : Z := (length + HOMA_BPAGE_SIZE - 1) / HOMA_BPAGE_SIZE.
Definition part_of (length i : Z) : Z := Z.min (length - i * HOMA_BPAGE_SIZE) HOMA_BPAGE_SIZE.

(** Page [i] lies in the pool, aligned unless it is the last. *)
Definition page_ok (ep : endpoint) (length i : Z) : Prop :=
  ∃ offset, idx (bpage_offsets (receive ep)) i = Some offset ∧ offset + part_of length i ≤ pool_size ep ∧
    (i + 1 < pages_of length → offset mod HOMA_BPAGE_SIZE = 0).

(** The message that the kernel describes. *)
Definition describes (ep : endpoint) (length : Z) : Prop :=
  1 ≤ length ≤ HOMA_MAX_MESSAGE_LENGTH ∧ num_bpages (receive ep) = pages_of length ∧
  ∀ i, 0 ≤ i < pages_of length → page_ok ep length i.

Definition assembled (ep : endpoint) (length : Z) (data : list Z) : Prop :=
  len data = length ∧
  ∀ i, 0 ≤ i < length → ∃ offset, idx (bpage_offsets (receive ep)) (i / HOMA_BPAGE_SIZE) = Some offset ∧
    0 ≤ offset + i mod HOMA_BPAGE_SIZE < pool_size ep ∧
    idx data i = Some (pool ep (offset + i mod HOMA_BPAGE_SIZE)).

Lemma pages_bounds length : 1 ≤ length → (pages_of length - 1) * HOMA_BPAGE_SIZE < length ≤ pages_of length * HOMA_BPAGE_SIZE.
Proof.
  intros Hl. unfold pages_of, HOMA_BPAGE_SIZE. pose proof (Z.div_mod (length + 65536 - 1) 65536 ltac:(lia)).
  pose proof (Z.mod_pos_bound (length + 65536 - 1) 65536 ltac:(lia)). lia.
Qed.

Lemma idx_nat {A} (l : list A) i : 0 ≤ i → idx l i = l !! Z.to_nat i.
Proof. intros Hi. unfold idx. by rewrite (proj2 (Z.ltb_ge _ _)) by lia. Qed.

(** The bytes below [n] are those of the pool. *)
Definition assembled_to (ep : endpoint) (n : Z) (data : list Z) : Prop :=
  len data = n ∧
  ∀ i, 0 ≤ i < n → ∃ offset, idx (bpage_offsets (receive ep)) (i / HOMA_BPAGE_SIZE) = Some offset ∧
    0 ≤ offset + i mod HOMA_BPAGE_SIZE < pool_size ep ∧
    idx data i = Some (pool ep (offset + i mod HOMA_BPAGE_SIZE)).

Lemma assembled_page ep length i data offset :
  assembled_to ep (i * HOMA_BPAGE_SIZE) data → 0 ≤ i → idx (bpage_offsets (receive ep)) i = Some offset → 0 ≤ offset →
  0 ≤ part_of length i → offset + part_of length i ≤ pool_size ep →
  assembled_to ep (i * HOMA_BPAGE_SIZE + part_of length i) (data ++ (pool ep <$> seqZ offset (part_of length i))).
Proof.
  intros [Hlen Hdata] Hi Hidx Ho Hpart Hsize.
  assert (part_of length i ≤ HOMA_BPAGE_SIZE) as Hle by (unfold part_of; lia).
  assert (len (pool ep <$> seqZ offset (part_of length i)) = part_of length i) as Hlp.
  { unfold len. rewrite length_fmap, length_seqZ. lia. }
  split; [rewrite len_app; lia|]. intros j Hj. rewrite (idx_nat (_ ++ _)) by lia.
  destruct (Z.lt_ge_cases j (i * HOMA_BPAGE_SIZE)) as [Hlt|Hge].
  - destruct (Hdata j ltac:(lia)) as (o&Ho'&Hb&Hd). exists o. split; [done|]. split; [done|].
    rewrite idx_nat in Hd by lia. rewrite lookup_app_l; [done|]. unfold len in Hlen. lia.
  - unfold HOMA_BPAGE_SIZE in *. assert (j / 65536 = i ∧ j mod 65536 = j - i * 65536) as [-> ->].
    { pose proof (Z.div_mod j 65536 ltac:(lia)). pose proof (Z.mod_pos_bound j 65536 ltac:(lia)). split; nia. }
    exists offset. split; [done|]. split; [lia|]. unfold len in Hlen. rewrite lookup_app_r by lia.
    rewrite list_lookup_fmap, (lookup_seqZ_lt _ _ (Z.to_nat j - List.length data)) by lia. cbn. do 2 f_equal. lia.
Qed.

(** Every page is copied, or one of them is not in order. *)
Lemma copy_pages_spec ep length n i output :
  endpoint_ok ep → 1 ≤ length ≤ HOMA_MAX_MESSAGE_LENGTH → i + Z.of_nat n = pages_of length → 0 ≤ i →
  pages_of length ≤ HOMA_MAX_BPAGES → assembled_to ep (Z.min (i * HOMA_BPAGE_SIZE) length) output →
  ∃ r, copy_pages ep length (pages_of length) n i output = Some r ∧
    match r with
    | Some data => assembled ep length data ∧ ∀ k, i ≤ k < pages_of length → page_ok ep length k
    | None => ∃ k, i ≤ k < pages_of length ∧ ¬ page_ok ep length k
    end.
Proof.
  intros [Hsize Hpages Hoff] Hl. revert i output. pose proof (pages_bounds length ltac:(lia)) as Hb.
  induction n as [|n IH]; intros i output Hn Hi Hmax Hout.
  { exists (Some output). split; [done|]. split; [|lia]. replace (Z.min _ length) with length in Hout by lia. done. }
  assert (i * HOMA_BPAGE_SIZE < length) as Hlt by (unfold HOMA_BPAGE_SIZE in *; nia).
  rewrite Z.min_l in Hout by lia. cbn [copy_pages].
  destruct (lookup_lt_is_Some_2 (bpage_offsets (receive ep)) (Z.to_nat i)) as [offset Hlook]; [unfold len in Hpages; lia|].
  assert (idx (bpage_offsets (receive ep)) i = Some offset) as Hidx by by rewrite idx_nat by lia.
  rewrite Hidx. cbn [mbind option_bind]. rewrite (proj1 Hout). change (Z.min (length - i * HOMA_BPAGE_SIZE) HOMA_BPAGE_SIZE)
    with (part_of length i). assert (0 ≤ offset < 2 ^ 32) as Ho by (rewrite Forall_forall in Hoff; eapply Hoff, list_elem_of_lookup_2, Hlook).
  assert (0 < part_of length i) as Hpart by (unfold part_of, HOMA_BPAGE_SIZE in *; lia).
  destruct (_ || _) eqn:Ebad.
  - exists None. split; [done|]. exists i. split; [lia|]. intros (o&Ho'&Hfit&Hal). rewrite Hidx in Ho'. injection Ho' as <-.
    rewrite !orb_true_iff, andb_true_iff, !Z.ltb_lt, negb_true_iff, Z.eqb_neq in Ebad.
    destruct Ebad as [[?|?]|[Hnext Hmod]]; [lia|lia|]. apply Hmod. by apply Hal.
  - rewrite !orb_false_iff, andb_false_iff, !Z.ltb_ge, negb_false_iff, Z.eqb_eq in Ebad. unfold pool_read. rewrite (proj2 (Z.leb_le _ _)), (proj2 (Z.leb_le _ _)) by lia. cbn [andb mbind option_bind].
    destruct (IH (i + 1) (output ++ (pool ep <$> seqZ offset (part_of length i)))) as (r&Hr&Hspec); [lia|lia|done| |].
    { replace (Z.min _ length) with (i * HOMA_BPAGE_SIZE + part_of length i) by (unfold part_of, HOMA_BPAGE_SIZE in *; lia).
      apply assembled_page; try done; lia. }
    exists r. split; [done|]. destruct r as [data|].
    + destruct Hspec as [Hdata Hok]. split; [done|]. intros k Hk. destruct (Z.eq_dec k i) as [->|]; [|apply Hok; lia].
      exists offset. split; [done|]. split; [lia|]. intros Hnext. destruct Ebad as [_ [?|?]]; [lia|done].
    + destruct Hspec as (k&Hk&Hbad). exists k. split; [lia|done].
Qed.

(** A received message is put together exactly as the kernel describes it: the
    copy never reads outside the pool or the array of offsets; it succeeds
    exactly when the length is possible, the number of pages is right and every
    page lies in the pool, aligned unless it is the last, and then each byte is
    the one of its page. *)
Lemma copy_received_spec ep length :
  endpoint_ok ep → 0 ≤ length < 2 ^ 63 →
  ∃ r, copy_received ep length = Some r ∧
    match r with
    | Some data => describes ep length ∧ assembled ep length data
    | None => ¬ describes ep length
    end.
Proof.
  intros Hok Hl. unfold copy_received. assert (u64 (length + HOMA_BPAGE_SIZE - 1) = length + HOMA_BPAGE_SIZE - 1) as ->.
  { unfold u64, HOMA_BPAGE_SIZE. apply Z.mod_small. lia. }
  fold (pages_of length). destruct (_ || _) eqn:E.
  - exists None. split; [done|]. intros (Hlen&Hnum&_). pose proof (pages_bounds length ltac:(lia)).
    rewrite !orb_true_iff, Z.eqb_eq, !Z.ltb_lt, negb_true_iff, Z.eqb_neq in E.
    unfold HOMA_BPAGE_SIZE, HOMA_MAX_MESSAGE_LENGTH in *. change HOMA_MAX_BPAGES with 16 in E. lia.
  - rewrite !orb_false_iff, Z.eqb_neq, !Z.ltb_ge, negb_false_iff, Z.eqb_eq in E. destruct E as [[[Hz Hm] Hnum] Hp].
    pose proof (pages_bounds length ltac:(lia)). unfold HOMA_BPAGE_SIZE in *.
    destruct (copy_pages_spec ep length (Z.to_nat (pages_of length)) 0 []) as (r&Hr&Hspec); try done; try lia.
    { split; [by rewrite Z.min_l by lia|]. intros i. rewrite Z.min_l by lia. lia. }
    exists r. split; [done|]. destruct r as [data|].
    + destruct Hspec as [Hdata Hpages]. split; [|done]. split; [lia|]. by split.
    + destruct Hspec as (k&Hk&Hbad). intros (_&_&Hall). by apply Hbad, Hall.
Qed.

(** ** The pattern *)

Lemma check_from_exact i data : check_from i data = true ↔ data = pattern <$> seqZ i (len data).
Proof.
  revert i. induction data as [|b data IH]; intros i; [done|]. cbn [check_from].
  replace (len (b :: data)) with (Z.succ (len data)) by (unfold len; cbn; lia).
  rewrite seqZ_cons by (pose proof (len_nonneg data); lia). replace (Z.pred (Z.succ (len data))) with (len data) by lia. cbn.
  destruct (Z.eqb_spec b (pattern i)) as [->|Hne]; cbn [negb].
  - rewrite IH, <- Z.add_1_r. split; [by intros <-|by intros [= ?]].
  - split; [done|]. by intros [= ? _].
Qed.

Lemma check_pattern_exact data : check_pattern data = true ↔ data = pattern_data (len data).
Proof. apply check_from_exact. Qed.
End linux_peer.
