(* ===== verification/LinuxPeerFacts.v ===== *)
(** * The Linux peer's calls

    The client and the server of src/interop/linux_peer.c always end once they
    are told to stop, every line they print stands for a verified call, and
    whatever happens the socket is closed and the pool unmapped at the end. *)
From S2P Require Import Prelude Wire Api Text Net LinuxPeer.

#[local] Open Scope Z_scope.

Module linux_peer_facts.
Import linux_peer.

(** ** The self-test *)

Definition test_endpoint (num : Z) (offsets : list Z) : endpoint :=
  mkEndpoint (4 * HOMA_BPAGE_SIZE) (test_pool test_offsets 0 (2 * HOMA_BPAGE_SIZE + 17))
    (mkRecv 0 0 num (offsets ++ replicate 13 0)).

Lemma test_endpoint_ok num a b c :
  0 ≤ a < 2 ^ 32 → 0 ≤ b < 2 ^ 32 → 0 ≤ c < 2 ^ 32 → endpoint_ok (test_endpoint num [a; b; c]).
Proof. intros Ha Hb Hc. split; cbn; [unfold HOMA_BPAGE_SIZE; lia|done|]. repeat constructor; lia. Qed.

(** The pool holds the pattern where the offsets say. *)
Lemma test_pool_pattern i :
  0 ≤ i < 2 * HOMA_BPAGE_SIZE + 17 →
  ∃ offset, idx test_offsets (i / HOMA_BPAGE_SIZE) = Some offset ∧
    test_pool test_offsets 0 (2 * HOMA_BPAGE_SIZE + 17) (offset + i mod HOMA_BPAGE_SIZE) = pattern i.
Proof.
  intros Hi. unfold HOMA_BPAGE_SIZE in *. pose proof (Z.div_mod i 65536 ltac:(lia)) as Hd.
  pose proof (Z.mod_pos_bound i 65536 ltac:(lia)) as Hm. set (q := i / 65536) in *. set (m := i mod 65536) in *.
  assert (q = 0 ∨ q = 1 ∨ q = 2) as [E|[E|E]] by lia; rewrite E in *; eexists; (split; [reflexivity|]);
    cbn [test_pool test_offsets]; unfold HOMA_BPAGE_SIZE;
    repeat (match goal with |- context [if ?b then _ else _] => destruct b eqn:? end; bool_to_prop; try lia);
    f_equal; lia.
Qed.

Lemma copy_refused ep length :
  endpoint_ok ep → 0 ≤ length < 2 ^ 63 → ¬ describes ep length → copy_received ep length = Some None.
Proof. intros Hok Hl Hno. destruct (copy_received_spec ep length Hok Hl) as (r & -> & Hr). destruct r; [by destruct Hr|done]. Qed.

Lemma first_test : ∃ data,
  copy_received (test_endpoint 3 test_offsets) (2 * HOMA_BPAGE_SIZE + 17) = Some (Some data) ∧ check_pattern data = true.
Proof.
  set (n := 2 * HOMA_BPAGE_SIZE + 17). assert (describes (test_endpoint 3 test_offsets) n) as Hd.
  { split; [by vm_compute|]. split; [done|]. intros i Hi. change (pages_of n) with 3 in *.
    assert (i = 0 ∨ i = 1 ∨ i = 2) as [-> | [-> | ->]] by lia; eexists; (split; [reflexivity|]); by vm_compute. }
  destruct (copy_received_spec (test_endpoint 3 test_offsets) n) as (r & -> & Hr);
    [by apply test_endpoint_ok; vm_compute|by vm_compute|]. destruct r as [data|]; [|done].
  exists data. split; [done|]. destruct Hr as (_&Hlen&Hdata). apply check_pattern_exact. rewrite Hlen. apply list_eq. intros k.
  destruct (Z.lt_ge_cases (Z.of_nat k) n) as [Hk|Hk].
  - destruct (Hdata (Z.of_nat k) ltac:(lia)) as (offset&Hoff&_&Hbyte).
    destruct (test_pool_pattern (Z.of_nat k)) as (offset'&Hoff'&Hpat); [split; [lia|exact Hk]|].
    assert (offset = offset') as ->.
    { assert (0 ≤ Z.of_nat k / HOMA_BPAGE_SIZE) by (apply Z.div_pos; [lia|done]). cbn [test_endpoint receive bpage_offsets] in Hoff.
      rewrite idx_nat in Hoff, Hoff' by done. rewrite (lookup_app_l_Some _ _ _ _ Hoff') in Hoff. by injection Hoff. }
    rewrite idx_nat, Nat2Z.id in Hbyte by lia. rewrite Hbyte. unfold pattern_data.
    rewrite list_lookup_fmap, lookup_seqZ_lt by done. cbn [fmap option_fmap option_map]. by rewrite Z.add_0_l, <- Hpat.
  - unfold len in Hlen. rewrite lookup_ge_None_2 by lia. symmetry. apply lookup_ge_None_2.
    unfold pattern_data. rewrite length_fmap, length_seqZ. lia.
Qed.

Definition high_offsets : list Z := [2 * HOMA_BPAGE_SIZE; 0; 4 * HOMA_BPAGE_SIZE - 16].

Lemma high_ok num : endpoint_ok (test_endpoint num high_offsets).
Proof. apply test_endpoint_ok; unfold HOMA_BPAGE_SIZE; lia. Qed.

(** The last page does not fit. *)
Lemma outside_test : copy_received (test_endpoint 3 high_offsets) (2 * HOMA_BPAGE_SIZE + 17) = Some None.
Proof.
  apply copy_refused; [apply high_ok|unfold HOMA_BPAGE_SIZE; lia|]. intros (_&_&Hpages).
  destruct (Hpages 2) as (o&Ho&Hfit&_); [change (pages_of _) with 3; lia|]. injection Ho as <-. by vm_compute in Hfit.
Qed.

(** The number of pages, or the length, is wrong. *)
Lemma many_test n :
  0 ≤ n < 2 ^ 63 → n ≤ 0 ∨ HOMA_MAX_MESSAGE_LENGTH < n ∨ pages_of n ≠ 17 →
  copy_received (test_endpoint (HOMA_MAX_BPAGES + 1) high_offsets) n = Some None.
Proof.
  intros Hn Hbad. apply copy_refused; [apply high_ok|exact Hn|]. intros (Hr&Hnum&_). change (17 = pages_of n) in Hnum.
  destruct Hbad as [?|[?|?]]; [lia|lia|congruence].
Qed.

(** The self-test passes whenever there is memory for it: the message is put together from its pages, and the
    four bad descriptions are refused. *)
Lemma self_test_passes allocated : self_test allocated = Some allocated.
Proof.
  destruct allocated; [|done].
  destruct first_test as (data&Hfirst&Hcheck).
  assert (self_test true = (first ← copy_received (test_endpoint 3 test_offsets) (2 * HOMA_BPAGE_SIZE + 17);
    outside ← copy_received (test_endpoint 3 high_offsets) (2 * HOMA_BPAGE_SIZE + 17);
    many ← copy_received (test_endpoint (HOMA_MAX_BPAGES + 1) high_offsets) (2 * HOMA_BPAGE_SIZE + 17);
    none ← copy_received (test_endpoint (HOMA_MAX_BPAGES + 1) high_offsets) 0;
    large ← copy_received (test_endpoint (HOMA_MAX_BPAGES + 1) high_offsets) (HOMA_MAX_MESSAGE_LENGTH + 1);
    Some (match first with Some out => check_pattern out | None => false end &&
      forallb (λ r : option (list Z), match r with None => true | Some _ => false end) [outside; many; none; large])))
    as -> by reflexivity.
  rewrite Hfirst, outside_test, (many_test (2 * HOMA_BPAGE_SIZE + 17)), (many_test 0), (many_test (HOMA_MAX_MESSAGE_LENGTH + 1));
    unfold HOMA_BPAGE_SIZE, HOMA_MAX_MESSAGE_LENGTH; try lia.
  - cbn. by rewrite Hcheck.
  - right. right. by vm_compute.
Qed.

(** ** The two readers of addresses *)

(** What has been read of an octet. *)
Definition octet (val digLen : Z) : Prop :=
  (digLen = 0 ∧ val = 0) ∨ (digLen = 1 ∧ 0 ≤ val ≤ 9) ∨ (digLen = 2 ∧ 10 ≤ val ≤ 99) ∨ (digLen = 3 ∧ 100 ≤ val ≤ 255).

Lemma fields_agree t val digLen fields r :
  octet val digLen → (t = [] → 0 < digLen) → len fields ≤ 3 → addr.parseIPv4Fields t val digLen fields = Some r →
  inet_pton4 t fields val (0 <? digLen) = Some r ∧ len t ≤ (3 - digLen) + 4 * (3 - len fields).
Proof.
  revert val digLen fields. induction t as [|ch t IH]; intros val digLen fields Ho Hne Hf; cbn [addr.parseIPv4Fields inet_pton4].
  { specialize (Hne eq_refl). destruct (Z.ltb_spec (len fields) 3); [done|]. intros [= <-].
    rewrite (proj2 (Z.ltb_lt 0 digLen) Hne), andb_true_r, (proj2 (Z.eqb_eq (len fields) 3)) by lia.
    rewrite len_nil. unfold octet in Ho. split; [done|lia]. }
  replace (len (ch :: t)) with (1 + len t) by (unfold len; cbn; lia).
  destruct ((48 <=? ch) && (ch <=? 57)) eqn:Ed; bool_to_prop.
  - destruct (Z.ltb_spec 255 (val * 10 + (ch - 48))); [by case_match|].
    destruct ((digLen =? 1) && (val =? 0)) eqn:Ez; [done|]. intros Hp.
    assert ((0 <? digLen) && (val =? 0) = false ∧ octet (val * 10 + (ch - 48)) (digLen + 1)) as [-> Ho'].
    { unfold octet in *. rewrite andb_false_iff, Z.eqb_neq, Z.eqb_neq in Ez. rewrite andb_false_iff, Z.ltb_ge, Z.eqb_neq. lia. }
    assert (t = [] → 0 < digLen + 1) as Hne' by (unfold octet in Ho; lia).
    destruct (IH _ _ _ Ho' Hne' Hf Hp) as [Hc Hl]. rewrite (proj2 (Z.ltb_lt _ _)) in Hc by (unfold octet in Ho; lia).
    split; [done|lia].
  - destruct (Z.eqb_spec ch 46) as [->|]; [|done]. cbn [andb].
    destruct ((digLen =? 0) || _) eqn:Ez; [done|]. rewrite orb_false_iff, Z.eqb_neq in Ez. destruct Ez as [Hd Ht].
    rewrite (proj2 (Z.ltb_lt 0 digLen)) by (unfold octet in Ho; lia).
    destruct (Z.eqb_spec (len fields) 3); [done|]. intros Hp.
    assert (len (fields ++ [val]) = len fields + 1) as El by (rewrite len_app; done).
    destruct (IH 0 0 (fields ++ [val])) as [Hc Hl]; [by left|by destruct t|lia|done|]. split; [done|]. unfold octet in Ho. lia.
Qed.

Lemma leading_digits_all n acc t v : digits acc t = Some v → leading_digits n acc t = (n + length t, v, [])%nat.
Proof.
  revert n acc. induction t as [|ch t IH]; intros n acc; cbn [digits leading_digits].
  - intros [= ->]. by rewrite Nat.add_0_r.
  - case_match; [|done]. intros Hd. rewrite (IH _ _ Hd). cbn [length]. do 2 f_equal. lia.
Qed.

Lemma number_digits t v max : t ≠ [] → digits 0 t = Some v → 0 ≤ v ≤ max → max < 2 ^ 64 → number t 0 max = Some v.
Proof.
  intros Hne Hd Hv Hmax. destruct t as [|ch t]; [done|]. assert (48 ≤ ch ≤ 57) as Hch.
  { cbn in Hd. destruct (_ && _) eqn:E; [|done]. rewrite andb_true_iff, !Z.leb_le in E. lia. }
  unfold number, strtoul. cbn [skip_space]. unfold isspace.
  rewrite (proj2 (Z.eqb_neq ch 45)), (proj2 (Z.eqb_neq ch 32)), (proj2 (Z.leb_gt ch 13)), andb_false_r by lia. cbn [orb].
  rewrite (proj2 (Z.eqb_neq ch 45)), (proj2 (Z.eqb_neq ch 43)) by lia. rewrite (leading_digits_all _ _ _ _ Hd).
  cbn [length Nat.add Nat.eqb]. rewrite (proj2 (Z.leb_gt (2 ^ 64) v)) by lia. cbn [mbind option_bind].
  by rewrite (proj2 (Z.ltb_ge v 0)), (proj2 (Z.ltb_ge max v)) by lia.
Qed.

(** Every address that the Go programs accept, the Linux peer reads the same. *)
Lemma addresses_agree t a :
  addr.ParseAddr t = Some a → ∃ ip, IP a = IPv4 ip ∧ address t = Some (mkSockaddr ip (Port a)).
Proof.
  unfold addr.ParseAddr, addr.ParseAddrPort, address. destruct (addr.splitAddrPort t) as [[host port]|]; [|done].
  cbn [mbind option_bind]. destruct host as [|h host]; [done|]. destruct port as [|d port]; [done|].
  destruct (digits 0 (d :: port)) as [n|] eqn:Hd; [|done]. cbn [mbind option_bind].
  destruct (Z.ltb_spec 65535 n); [done|]. destruct (addr.parseIPv4Fields (h :: host) 0 0 []) as [fields|] eqn:Hf; [|done].
  cbn [mbind option_bind Is4 IP Port negb orb]. destruct (n =? 0); [done|]. intros [= <-]. exists (be_decode fields). split; [done|].
  rewrite (number_digits _ n 65535); [|done|done|split; [by apply (digits_nonneg 0 (d :: port))|lia]|lia]. cbn [mbind option_bind].
  destruct (fields_agree (h :: host) 0 0 [] fields) as [Hp Hl]; [by left|done|done|done|].
  change (len []) with 0 in Hl. unfold INET_ADDRSTRLEN. rewrite (proj2 (Z.leb_gt _ _)), (proj2 (Z.eqb_neq _ _)) by (unfold len in *; cbn in *; lia).
  change (0 <? 0) with false in Hp. by rewrite Hp.
Qed.

(** ** Options *)

Lemma number_range t min max n : number t min max = Some n → min ≤ n ≤ max.
Proof.
  unfold number. destruct t as [|ch t]; [done|]. case_if; [done|].
  destruct (strtoul (ch :: t)) as [[value rest]|]; [|done]. cbn. destruct rest; [|done].
  destruct (_ || _) eqn:Er; [done|]. intros [= ->]. rewrite orb_false_iff, !Z.ltb_ge in Er. lia.
Qed.

(** The ranges of the flags. *)
Record in_range (o : options) : Prop := {
  ir_bytes : 1 ≤ o_bytes o ≤ HOMA_MAX_MESSAGE_LENGTH;
  ir_count : 0 ≤ o_count o ≤ 1000000;
  ir_timeout : 1 ≤ timeout_ms o ≤ 3600000;
  ir_pool : 1 ≤ pool_mib o ≤ 4096
}.

Lemma flag_value_range name value o o' :
  flag_value name value o = Some o' → in_range o → in_range o' ∧ o_server o' = o_server o.
Proof.
  unfold flag_value. intros Hf [].
  repeat (case_bool_decide; [apply fmap_Some in Hf as (x&Hx&->); try apply number_range in Hx; by split|]). done.
Qed.

Lemma parse_flags_range args o o' :
  parse_flags args o = Some o' → in_range o → in_range o' ∧ o_server o' = o_server o.
Proof.
  revert o. induction args as [args IH] using (induction_ltof1 _ (@length _)). unfold ltof in IH. intros o Hp Ho.
  destruct args as [|name args]; cbn [parse_flags] in Hp; [by injection Hp as <-|]. case_bool_decide.
  { destruct (IH args ltac:(cbn; lia) _ Hp) as [Hr Hs]; [by destruct Ho|]. done. }
  destruct args as [|value args]; [done|]. apply bind_Some in Hp as (o1&Hv&Hp).
  destruct (flag_value_range _ _ _ _ Hv Ho) as [Ho1 Hs1].
  destruct (IH args ltac:(cbn; lia) _ Hp Ho1) as [Hr Hs]. split; [done|congruence].
Qed.

(** What [main] accepts: every number in its range; a client has a peer and a
    number of calls, a server a port, no fixed port is in the range of the
    kernel's own, and a peer has an address and a port. *)
Record usable (o : options) : Prop := {
  us_range : in_range o;
  us_client : o_server o = false → remote_set o = true ∧ 1 ≤ o_count o ∧ verify_pattern o = false;
  us_port : sin_port (o_local o) < HOMA_MIN_DEFAULT_PORT;
  us_server : o_server o = true → sin_port (o_local o) ≠ 0;
  us_remote : remote_set o = true → sin_port (remote o) ≠ 0 ∧ sin_addr (remote o) ≠ 0
}.

Lemma command_usable args o : command_of args = Run o → usable o.
Proof.
  unfold command_of. destruct args as [|mode args]; [done|]. do 3 (case_match; [done|]).
  set (server := bool_decide _). destruct (parse_flags args _) as [o'|] eqn:Ep; [|done].
  destruct (invalid o') eqn:Ei; [done|]. intros [= <-].
  destruct (parse_flags_range _ _ _ Ep) as [Hr _]; [split; cbn; unfold HOMA_MAX_MESSAGE_LENGTH; destruct server; lia|].
  unfold invalid in Ei. rewrite !orb_false_iff in Ei. destruct Ei as [[[[Hc Hp] Hs] Hrem] _]. apply Z.leb_gt in Hp.
  split; [done| |done| |].
  - intros E. rewrite E in Hc. cbn in Hc. rewrite !orb_false_iff, negb_false_iff, Z.eqb_neq in Hc.
    destruct Hr. destruct Hc as [[? ?] ?]. repeat split; try done; lia.
  - intros E. rewrite E in Hs. cbn in Hs. by apply Z.eqb_neq.
  - intros E. rewrite E in Hrem. cbn in Hrem. by rewrite orb_false_iff, !Z.eqb_neq in Hrem.
Qed.

Section facts.
Context `{Kernel}.

(** ** Steps *)

(** A step that lets the messages [tr] go over the socket and prints nothing. *)
Record quiet (tr : list message) (s s' : peer) : Prop := {
  q_out : p_out s' = p_out s;
  q_trace : p_trace s' = p_trace s ++ tr;
  q_calls : (p_calls s ≤ p_calls s')%nat;
  q_fd : p_fd s' = p_fd s;
  q_mapped : p_mapped s' = p_mapped s;
  q_ep : endpoint_ok (p_ep s')
}.

Definition peer_ok (s : peer) : Prop := endpoint_ok (p_ep s).

Lemma quiet_refl s : peer_ok s → quiet [] s s.
Proof. intros Hs. split; rewrite ?app_nil_r; done || lia. Qed.

Lemma quiet_trans tr tr' s s1 s2 : quiet tr s s1 → quiet tr' s1 s2 → quiet (tr ++ tr') s s2.
Proof. intros [] []. split; try congruence; [|lia]. rewrite q_trace1, q_trace0. by rewrite app_assoc. Qed.

Lemma wp_syscall {A} (f : nat → M peer A) Q s :
  peer_ok s → (∀ s', quiet [] s s' → (p_calls s < p_calls s')%nat → wp (f (p_calls s)) Q s') → wp (syscall ≫= f) Q s.
Proof.
  intros Hs Hf. unfold syscall. wp_steps. apply Hf; [|cbn; lia]. split; cbn; rewrite ?app_nil_r; done || lia.
Qed.

Lemma wp_stopped {A} (f : bool → M peer A) Q s :
  peer_ok s →
  (∀ s', quiet [] s s' → (p_calls s < p_calls s')%nat → wp (f (k_stop <=? p_calls s)%nat) Q s') → wp (stopped ≫= f) Q s.
Proof. intros Hs Hf. unfold stopped. wp_step. apply wp_syscall; [done|]. intros s' Hq Hc. wp_step. by apply Hf. Qed.

Lemma wp_milliseconds {A} (f : Z → M peer A) Q s :
  peer_ok s → (∀ now s', quiet [] s s' → wp (f now) Q s') → wp (milliseconds ≫= f) Q s.
Proof. intros Hs Hf. unfold milliseconds. wp_step. apply wp_syscall; [done|]. intros s' Hq Hc. wp_step. by apply Hf. Qed.

(** *** Receiving *)

(** What a reception leaves: nothing, or one message with the ID and the cookie
    of the arguments. *)
Definition got (r : Z + (sockaddr * list Z)) (tr : list message) (s' : peer) : Prop :=
  match r with
  | inl _ => tr = []
  | inr (from, data) => let args := receive (p_ep s') in tr = [Received from data (rc_id args) (rc_cookie args)]
  end.

Lemma wp_receive_loop fuel deadline s :
  peer_ok s → (0 < fuel)%nat → (k_stop < p_calls s + fuel)%nat →
  wp (receive_loop fuel deadline) (λ r s', ∃ tr, quiet tr s s' ∧ got r tr s') s.
Proof.
  revert s. induction fuel as [|fuel IH]; intros s Hs Hpos Hfuel; [lia|]. cbn [receive_loop].
  apply wp_stopped; [done|]. intros s1 Hq1 Hc1. destruct (Nat.leb_spec k_stop (p_calls s)) as [Hstop|Hgo].
  { wp_step. by exists []. }
  do 2 wp_step. set (s2 := set_ep _ s1).
  assert (quiet [] s s2) as Hq2.
  { destruct Hq1 as [? ? ? ? ? [? ? ?]]. by split; [..|split]. }
  assert (∀ s', quiet [] s s' → (p_calls s < p_calls s')%nat →
    wp (receive_loop fuel deadline) (λ r s', ∃ tr, quiet tr s s' ∧ got r tr s') s') as Hagain.
  { intros s' Hq Hc. eapply wp_mono; [apply IH; [apply Hq|lia|lia]|]. intros r s'' (tr&Htr&Hr).
    exists tr. split; [|done]. by apply (quiet_trans [] tr s s' s''). }
  apply wp_syscall; [apply Hq2|]. intros s3 Hq3 Hc3. cbv beta. set (n := p_calls s2).
  pose proof (k_recv_ok n) as Hrecv.
  pose proof (quiet_trans _ _ _ _ _ Hq2 Hq3) as Hq03. cbn [app] in Hq03.
  destruct (k_recv n) as [errno|length from whole args memory].
  - destruct (errno =? EINTR); [apply Hagain; [done|destruct Hq2; lia]|].
    destruct (negb _); [wp_step; by exists []|]. apply wp_milliseconds; [apply Hq3|]. intros now s4 Hq4.
    pose proof (quiet_trans _ _ _ _ _ Hq03 Hq4) as Hq04. cbn [app] in Hq04.
    destruct (deadline <=? now); [wp_step; by exists []|]. apply wp_syscall; [apply Hq4|]. intros s5 Hq5 Hc5.
    pose proof (quiet_trans _ _ _ _ _ Hq04 Hq5) as Hq05. cbn [app] in Hq05.
    destruct (k_poll _) as [errno'|[|]]; [destruct (errno' =? EINTR)| |]; try (wp_step; by exists []).
    all: apply Hagain; [done|destruct Hq2, Hq4; lia].
  - do 4 wp_step. set (ep := mkEndpoint _ memory args).
    assert (endpoint_ok ep) as Hep by (destruct Hq3 as [_ _ _ _ _ [? _ _]], Hrecv as (_&?&?); by split).
    assert (quiet [] s (set_ep ep s3)) as Hq4 by (destruct Hq03; by split).
    destruct whole; cbn [negb]; [|wp_step; by exists []].
    destruct (copy_received_spec ep length Hep (proj1 Hrecv)) as (r&Hcopy&_). wp_step. rewrite Hcopy.
    eapply wp_intro; [reflexivity|]. destruct r as [data|]; [|wp_step; by exists []].
    unfold note. wp_steps. eexists. split; [|done]. destruct Hq4 as [? Ht ? ? ? ?]. split; cbn in *; try done.
    by rewrite Ht, app_nil_r.
Qed.

Lemma wp_receive_message timeout s :
  peer_ok s → wp (receive_message timeout) (λ r s', ∃ tr, quiet tr s s' ∧ got r tr s') s.
Proof.
  intros Hs. unfold receive_message. apply wp_milliseconds; [done|]. intros now s1 Hq1.
  eapply wp_mono; [apply wp_receive_loop; [apply Hq1|lia|lia]|]. intros r s2 (tr&Hq&Hr). exists tr.
  split; [by apply (quiet_trans [] tr s s1 s2)|done].
Qed.

(** *** Sending *)

Lemma wp_send_message to data id cookie s :
  peer_ok s →
  wp (send_message to data id cookie) (λ r s', ∃ tr, quiet tr s s' ∧ p_ep s' = p_ep s ∧
    match r with inl _ => tr = [] | inr id' => tr = [Sent to data id' cookie] end) s.
Proof.
  intros Hs. unfold send_message, syscall. wp_steps. set (s1 := mkPeer _ _ _ _ _ _).
  assert (quiet [] s s1) as Hq1 by (split; cbn; rewrite ?app_nil_r; done || lia).
  destruct (k_send (p_calls s)) as [errno|result id']; [wp_step; by exists []|].
  destruct (negb _); [wp_step; by exists []|]. unfold note. wp_steps. eexists. split; [|done].
  destruct Hq1. split; cbn; done || lia.
Qed.

(** ** A call *)

(** What the options ask of a message. *)
Definition wanted (o : options) (from : sockaddr) (data : list Z) : Prop :=
  (remote_set o = true → from = remote o) ∧
  (bytes_set o = true ∨ o_server o = false → len data = o_bytes o) ∧
  (verify_pattern o = true ∨ o_server o = false → data = pattern_data (len data)).

Lemma same_address_eq a b : same_address a b = true ↔ a = b.
Proof.
  unfold same_address. destruct a, b. cbn. rewrite andb_true_iff, !Z.eqb_eq. split; [by intros [-> ->]|by intros [= -> ->]].
Qed.

Lemma acceptable_wanted o from data : acceptable o from data = true ↔ wanted o from data.
Proof.
  unfold acceptable, wanted. rewrite <- check_pattern_exact, <- same_address_eq, <- Z.eqb_eq.
  destruct (remote_set o), (same_address _ _), (bytes_set o), (o_server o), (len data =? o_bytes o), (verify_pattern o),
    (check_pattern data); cbn; naive_solver.
Qed.

(** The messages of a verified call, and the line printed for it: the server sent
    back what it received, to where it came from; the client got its own payload
    back under the ID and the cookie of its request. *)
Definition verified (o : options) (call : Z) (line : ok_line) (tr : list message) : Prop :=
  ∃ from data id, wanted o from data ∧
    line = mkOk (o_server o) (u32 (call + 1)) id from (len data) (checksum data) ∧
    if o_server o then ∃ id0, Z.odd id0 = true ∧ tr = [Received from data id0 0; Sent from data id 0]
    else id ≠ 0 ∧ Z.even id = true ∧
      tr = [Sent (remote o) (pattern_data (o_bytes o)) id (cookie_of call); Received from data id (cookie_of call)].

Lemma land_1_even z : Z.land z 1 = 0 ↔ Z.even z = true.
Proof. change 1 with (Z.ones 1). rewrite Z.land_ones, Zeven_mod, Z.eqb_eq by lia. done. Qed.

Lemma wp_request o cookie s :
  peer_ok s →
  wp (request o cookie) (λ r s', ∃ tr, quiet tr s s' ∧ match r with
    | None => True
    | Some id => if o_server o then tr = [] else id ≠ 0 ∧ Z.even id = true ∧
        tr = [Sent (remote o) (pattern_data (o_bytes o)) id cookie]
    end) s.
Proof.
  intros Hs. unfold request. destruct (o_server o); [wp_step; exists []; by split; [apply quiet_refl|]|].
  wp_step. eapply wp_mono; [by apply wp_send_message|]. intros [errno|id] s' (tr&Hq&_&Htr); [wp_step; eauto|].
  destruct (_ || _) eqn:E; wp_step; [eauto|]. exists tr. split; [done|].
  rewrite orb_false_iff, Z.eqb_neq, negb_false_iff, Z.eqb_eq, land_1_even in E. destruct E. by split.
Qed.

Lemma wp_respond o id cookie from data tr0 s :
  peer_ok s → tr0 = [Received from data (rc_id (receive (p_ep s))) (rc_cookie (receive (p_ep s)))] →
  wp (respond o id cookie from data) (λ r s', ∃ tr, quiet tr s s' ∧ match r with
    | None => True
    | Some id' =>
        if o_server o then ∃ id0, Z.odd id0 = true ∧ tr0 ++ tr = [Received from data id0 0; Sent from data id' 0]
        else id' = id ∧ tr0 ++ tr = [Received from data id cookie]
    end) s.
Proof.
  intros Hs ->. unfold respond. do 2 wp_step. destruct (o_server o).
  - destruct (_ || _) eqn:E; [wp_step; exists []; by split; [apply quiet_refl|]|].
    rewrite orb_false_iff, negb_false_iff, Z.eqb_eq, Z.eqb_neq, land_1_even, <- Z.negb_odd in E. destruct E as [Hodd ->].
    wp_step. eapply wp_mono; [by apply wp_send_message|]. intros [errno|id'] s' (tr&Hq&_&->); wp_step; eauto.
    exists [Sent from data id' 0]. split; [done|]. exists (rc_id (receive (p_ep s))). split; [by destruct (Z.odd _)|done].
  - destruct (_ || _) eqn:E; wp_step; exists []; (split; [by apply quiet_refl|]); [done|].
    rewrite orb_false_iff, !negb_false_iff, !Z.eqb_eq in E. destruct E as [-> ->]. done.
Qed.

(** What a round of [run] did: nothing is printed unless the call is verified, and
    a break means that the program was told to stop. *)
Definition rounded (o : options) (call : Z) (s : peer) (r : round) (s' : peer) : Prop :=
  peer_ok s' ∧ (p_calls s ≤ p_calls s')%nat ∧ p_fd s' = p_fd s ∧ p_mapped s' = p_mapped s ∧
  ∃ tr, p_trace s' = p_trace s ++ tr ∧
    match r with
    | Verified => ∃ line, p_out s' = p_out s ++ [line] ∧ verified o call line tr
    | Broken => p_out s' = p_out s ∧ (k_stop < p_calls s')%nat
    | Failed => p_out s' = p_out s
    end.

Lemma quiet_failed o call tr s s' : quiet tr s s' → rounded o call s Failed s'.
Proof. intros []. do 4 (split; [done|]). by exists tr. Qed.

Lemma wp_run_call o call s : peer_ok s → wp (run_call o call) (rounded o call s) s.
Proof.
  intros Hs. unfold run_call. wp_step. eapply wp_mono; [by apply wp_request|]. intros [id|] s1 (tr1&Hq1&Hid).
  2: { wp_step. by eapply quiet_failed. }
  wp_step. eapply wp_mono; [apply wp_receive_message, Hq1|]. intros r s2 (tr2&Hq2&Hgot).
  pose proof (quiet_trans _ _ _ _ _ Hq1 Hq2) as Hq12. destruct r as [errno|[from data]].
  { apply wp_stopped; [apply Hq2|]. intros s3 Hq3 Hc3. wp_step. pose proof (quiet_trans _ _ _ _ _ Hq12 Hq3) as Hq13.
    destruct (Nat.leb_spec k_stop (p_calls s2)) as [Hle|]; [|by eapply quiet_failed].
    destruct Hq13. do 4 (split; [done|]). eexists. split; [done|]. split; [done|]. lia. }
  destruct (acceptable o from data) eqn:Ea; cbn [negb]; [|wp_step; by eapply quiet_failed].
  apply acceptable_wanted in Ea. wp_step. eapply wp_mono; [apply (wp_respond o id (cookie_of call) from data tr2); [apply Hq2|exact Hgot]|].
  intros [id'|] s3 (tr3&Hq3&Hresp); pose proof (quiet_trans _ _ _ _ _ Hq12 Hq3) as Hq13; [|wp_step; by eapply quiet_failed].
  unfold say. wp_steps. destruct Hq13 as [Hout Htr Hc Hfd Hm Hep]. do 4 (split; [done|]).
  exists ((tr1 ++ tr2) ++ tr3). split; [done|]. eexists. split; [cbn; by rewrite Hout|].
  exists from, data, id'. split; [done|]. split; [done|]. rewrite <- app_assoc. destruct (o_server o).
  - subst tr1. destruct Hresp as (id0&Hodd&E). exists id0. by rewrite E.
  - destruct Hid as (Hnz&Hev&->), Hresp as [-> E]. rewrite E. by split.
Qed.

(** ** A run *)

(** The lines of the calls from number [call] on, with their messages. *)
Definition verified_from (o : options) (call : Z) (lines : list ok_line) (ts : list (list message)) : Prop :=
  length lines = length ts ∧
  ∀ k line tr, lines !! k = Some line → ts !! k = Some tr → verified o (u32 (call + Z.of_nat k)) line tr.

(** What a run did: it printed [lines] for the verified calls [ts]; [rest] are
    messages of a call that was not.  It is over with success when it was told to
    stop, or after all its calls. *)
Definition ran (o : options) (call : Z) (s : peer) (ok : bool) (s' : peer) : Prop :=
  peer_ok s' ∧ (p_calls s ≤ p_calls s')%nat ∧ p_fd s' = p_fd s ∧ p_mapped s' = p_mapped s ∧
  ∃ lines ts rest, p_out s' = p_out s ++ lines ∧ p_trace s' = p_trace s ++ concat ts ++ rest ∧
    verified_from o call lines ts ∧
    (ok = true → (k_stop < p_calls s')%nat ∨ (o_count o ≠ 0 ∧ rest = [] ∧ call + len lines = o_count o)).

Lemma u32_step call k : u32 (u32 (call + 1) + Z.of_nat k) = u32 (call + Z.of_nat (S k)).
Proof. unfold u32. rewrite Zplus_mod_idemp_l. f_equal. lia. Qed.

Lemma verified_from_cons o call line tr lines ts :
  0 ≤ call < 2 ^ 32 → verified o call line tr → verified_from o (u32 (call + 1)) lines ts →
  verified_from o call (line :: lines) (tr :: ts).
Proof.
  intros Hcall Hv [Hlen Hall]. split; [cbn; lia|]. intros [|k] line' tr'; cbn.
  - intros [= <-] [= <-]. rewrite Z.add_0_r. unfold u32. by rewrite Z.mod_small.
  - intros Hl Ht. rewrite <- u32_step. by apply Hall.
Qed.

Lemma wp_run_loop fuel o call s :
  peer_ok s → (0 < fuel)%nat → (k_stop < p_calls s + fuel)%nat → 0 ≤ call < 2 ^ 32 →
  (o_count o ≠ 0 → call ≤ o_count o < 2 ^ 32 - 1) →
  wp (run_loop fuel o call) (ran o call s) s.
Proof.
  revert call s. induction fuel as [|fuel IH]; intros call s Hs Hpos Hfuel Hcall Hcount; [lia|]. cbn [run_loop].
  apply wp_stopped; [done|]. intros s1 Hq1 Hc1. destruct (_ || _) eqn:Eend.
  { wp_step. destruct Hq1 as [Hout Htr Hc Hfd Hm Hep]. do 4 (split; [done|]). exists [], [], [].
    rewrite app_nil_r. split; [done|]. split; [done|]. split; [by split|]. intros _.
    rewrite orb_true_iff, Nat.leb_le, andb_true_iff, negb_true_iff, Z.eqb_neq, Z.leb_le in Eend.
    destruct Eend as [?|[Hn Hle]]; [left; lia|right]. split; [done|]. split; [done|].
    specialize (Hcount Hn). rewrite len_nil. lia. }
  rewrite orb_false_iff, Nat.leb_gt, andb_false_iff, negb_false_iff, Z.eqb_eq, Z.leb_gt in Eend. destruct Eend as [Hgo Hleft].
  wp_step. eapply wp_mono; [apply wp_run_call, Hq1|]. intros r s2 (Hok2&Hc2&Hfd2&Hm2&tr&Htr2&Hr).
  destruct Hq1 as [Hout1 Htr1 _ Hfd1 Hm1 _]. rewrite app_nil_r in Htr1. rewrite Hfd1 in Hfd2. rewrite Hm1 in Hm2.
  rewrite Htr1 in Htr2. rewrite Hout1 in Hr. destruct r.
  - destruct Hr as (line&Hout2&Hv). assert (u32 (call + 1) = call + 1 ∨ o_count o = 0) as Hu.
    { destruct (Z.eq_dec (o_count o) 0) as [|Hn]; [by right|left]. specialize (Hcount Hn). unfold u32. apply Z.mod_small. lia. }
    eapply wp_mono; [apply (IH (u32 (call + 1)) s2); [done|lia|lia|unfold u32; apply Z.mod_pos_bound; lia|]|].
    { intros Hn. specialize (Hcount Hn). destruct Hu as [->|?], Hleft; lia. }
    intros ok s3 (Hok3&Hc3&Hfd3&Hm3&lines&ts&rest&Hout3&Htr3&Hvs&Hend). split; [done|]. split; [lia|].
    split; [congruence|]. split; [congruence|]. exists (line :: lines), (tr :: ts), rest.
    rewrite Hout3, Hout2, <- app_assoc. split; [done|]. split; [by rewrite Htr3, Htr2; cbn [concat]; rewrite <- !app_assoc|].
    split; [by apply verified_from_cons|]. intros Hok. destruct (Hend Hok) as [?|(Hn&Hrest&Hsum)]; [by left|right].
    split; [done|]. split; [done|]. destruct Hu as [Hu|?]; [|done]. unfold len in *. cbn [length]. lia.
  - wp_step. destruct Hr as [Hout2 Hstop]. split; [done|]. split; [lia|]. do 2 (split; [congruence|]). exists [], [], tr.
    rewrite app_nil_r. split; [done|]. split; [done|]. split; [by split|]. by left.
  - wp_step. split; [done|]. split; [lia|]. do 2 (split; [congruence|]). exists [], [], tr.
    rewrite app_nil_r. split; [done|]. split; [done|]. split; [by split|done].
Qed.

Lemma wp_linger fuel s :
  peer_ok s → (0 < fuel)%nat → (k_stop < p_calls s + fuel)%nat → wp (linger fuel) (λ _ s', quiet [] s s') s.
Proof.
  revert s. induction fuel as [|fuel IH]; intros s Hs Hpos Hfuel; [lia|]. cbn [linger].
  apply wp_syscall; [done|]. intros s1 Hq1 Hc1. destruct (k_sleep _) as [errno|]; [|by wp_step].
  destruct (negb _); [by wp_step|]. apply wp_stopped; [apply Hq1|]. intros s2 Hq2 Hc2.
  pose proof (quiet_trans _ _ _ _ _ Hq1 Hq2) as Hq12. destruct (Nat.leb_spec k_stop (p_calls s1)); [by wp_step|].
  eapply wp_mono; [apply IH; [apply Hq2|lia|lia]|]. intros [] s3 Hq3. by apply (quiet_trans [] [] s s2 s3).
Qed.

Lemma ran_quiet o call s ok s1 s2 : ran o call s ok s1 → quiet [] s1 s2 → ran o call s ok s2.
Proof.
  intros (Hok&Hc&Hfd&Hm&lines&ts&rest&Hout&Htr&Hv&Hend) [Hout2 Htr2 Hc2 Hfd2 Hm2 Hep2].
  split; [done|]. split; [lia|]. do 2 (split; [congruence|]). exists lines, ts, rest. rewrite Hout2, Htr2, app_nil_r.
  do 3 (split; [done|]). intros E. destruct (Hend E); [left; lia|by right].
Qed.

Lemma wp_run_peer o s :
  peer_ok s → 0 ≤ o_count o ≤ 1000000 → wp (run o) (ran o 0 s) s.
Proof.
  intros Hs Hcount. unfold run. destruct k_malloc; cbn [negb]; cycle 1.
  { wp_step. do 2 (split; [done|]). do 2 (split; [done|]). exists [], [], []. rewrite !app_nil_r. by do 3 (split; [done|]). }
  wp_step. eapply wp_mono; [apply wp_run_loop; try done; lia|]. intros ok s1 Hran. pose proof Hran as (Hok1&_).
  destruct ok; cbn [negb]; [|by wp_step]. apply wp_stopped; [done|]. intros s2 Hq2 Hc2.
  pose proof (ran_quiet _ _ _ _ _ _ Hran Hq2) as Hran2. wp_step.
  eapply (wp_mono _ (λ _ s', quiet [] s2 s')).
  - destruct (_ <=? _)%nat; [wp_step; apply quiet_refl, Hq2|apply wp_linger; [apply Hq2|lia|lia]].
  - intros [] s3 Hq3. wp_step. by eapply ran_quiet.
Qed.

(** ** The program *)

(** Printing and sending nothing. *)
Definition idle (s s' : peer) : Prop := p_out s' = p_out s ∧ p_trace s' = p_trace s.

(** A step that neither prints nor sends, of which only [R] is kept. *)
Lemma wp_abstract {A B} (m : M peer A) (f : A → M peer B) (R : peer → Prop) Q s :
  wp m (λ _, R) s → (∀ a s', R s' → wp (f a) Q s') → wp (m ≫= f) Q s.
Proof. intros Hm Hf. wp_step. eapply wp_mono; [exact Hm|]. intros a s'. apply Hf. Qed.

Definition fresh_recv : recvmsg_args := mkRecv 0 0 0 (replicate 16 0).

Definition opening (s : peer) (s' : peer) : Prop := idle s s' ∧ receive (p_ep s') = fresh_recv.

Lemma wp_refused s s1 : opening s s1 → wp refused (λ _, opening s) s1.
Proof. intros Ho. unfold refused, syscall. wp_steps. exact Ho. Qed.

Lemma opening_ok s s' o : in_range o → opening s s' → pool_size (p_ep s') = pool_mib o * 1024 * 1024 → peer_ok s'.
Proof.
  intros Ho [_ Hr] Hs. destruct (ir_pool _ Ho). split; [lia|by rewrite Hr|]. rewrite Hr. by repeat constructor.
Qed.

Lemma wp_open_endpoint o s :
  in_range o → wp (open_endpoint o) (λ ok s', idle s s' ∧ (ok = true → peer_ok s')) s.
Proof.
  intros Ho. unfold open_endpoint. set (sized := λ s', opening s s' ∧ pool_size (p_ep s') = pool_mib o * 1024 * 1024).
  assert (∀ s', sized s' → wp refused (λ _, sized) s') as Hrefuse.
  { intros s' [Ho' Hs']. unfold refused, syscall. by wp_steps. }
  apply (wp_abstract _ _ (opening s)); [by wp_step|]. intros _ s1 H1.
  destruct (match k_hijack with Some _ => _ | None => _ end); [wp_step; by split; [apply H1|]|].
  apply (wp_abstract _ _ (opening s)); [by apply wp_refused|]. intros [] s2 H2; [wp_step; by split; [apply H2|]|].
  apply (wp_abstract _ _ (opening s)); [by wp_step|]. intros _ s3 H3.
  apply (wp_abstract _ _ (opening s)); [by apply wp_refused|]. intros [] s4 H4; [wp_step; by split; [apply H4|]|].
  apply (wp_abstract _ _ (opening s)); [by apply wp_refused|]. intros [] s5 H5; [wp_step; by split; [apply H5|]|].
  apply (wp_abstract _ _ sized); [by wp_step|]. intros _ s6 H6.
  apply (wp_abstract _ _ sized); [by apply Hrefuse|]. intros [] s7 H7; [wp_step; by split; [apply H7|]|].
  apply (wp_abstract _ _ sized); [by wp_step|]. intros _ s8 H8.
  apply (wp_abstract _ _ sized); [by apply Hrefuse|]. intros [] s9 H9; [wp_step; by split; [apply H9|]|].
  apply (wp_abstract _ _ sized); [by apply Hrefuse|]. intros b s10 [H10 Hsize]. wp_step.
  split; [apply H10|]. intros _. by apply (opening_ok s s10 o).
Qed.

(** What the program did for its options. *)
Definition peer_verdict (o : options) (s : peer) (code : Z) (s' : peer) : Prop :=
  ∃ lines ts rest, p_out s' = p_out s ++ lines ∧ p_trace s' = p_trace s ++ concat ts ++ rest ∧
    verified_from o 0 lines ts ∧
    (code = 0 → (k_stop < p_calls s')%nat ∨ (o_count o ≠ 0 ∧ rest = [] ∧ len lines = o_count o)).

Lemma idle_verdict o s s' : idle s s' → peer_verdict o s 1 s'.
Proof. intros [Hout Htr]. exists [], [], []. rewrite !app_nil_r. split; [done|]. split; [done|]. by split. Qed.

(** The program with options it accepts. *)
Lemma wp_main_run args o s :
  command_of args = Run o → p_fd s = false → p_mapped s = false →
  wp (main args) (λ code s', p_fd s' = false ∧ p_mapped s' = false ∧ usable o ∧ peer_verdict o s code s') s.
Proof.
  intros Ec Hfd Hm. unfold main. rewrite Ec.
  pose proof (command_usable _ _ Ec) as Hu. pose proof (us_range _ Hu) as Hr. wp_step. unfold refused at 1, syscall at 1. wp_steps.
  case_match; [wp_step; do 3 (split; [done|]); by apply idle_verdict|].
  wp_step. eapply wp_mono; [by apply wp_open_endpoint|]. intros ok s1 [Hidle Hok]. destruct ok; cbn [negb]; cycle 1.
  { unfold close_endpoint. wp_steps. do 3 (split; [done|]). by apply idle_verdict. }
  wp_step. eapply wp_mono; [apply wp_run_peer; [by apply Hok|apply Hr]|].
  intros ok s2 (_&_&_&_&lines&ts&rest&Hout&Htr&Hv&Hend). unfold close_endpoint. wp_steps. do 3 (split; [done|]).
  destruct Hidle as [Ho Ht]. exists lines, ts, rest. cbn in *. rewrite Hout, Htr, Ho, Ht. do 3 (split; [done|]).
  intros E. destruct ok; [|done]. destruct (Hend eq_refl) as [?|(?&?&?)]; [by left|by right].
Qed.

End facts.

(** ** A client whose one call is echoed *)

Definition echo_peer : sockaddr := mkSockaddr 167772161 4001.

Definition echoed : received := RecvMessage 8 echo_peer true (mkRecv 2 (cookie_of 0) 1 (replicate 16 0)) pattern.

Definition echo_kernel : Kernel := {|
  k_recv := λ _, echoed;
  k_recv_ok := λ _, ltac:(cbn; split; [lia|split; [done|by repeat constructor]]);
  k_send := λ _, SendResult 0 2; k_poll := λ _, PollReady false; k_clock := λ _, 0; k_sleep := λ _, None;
  k_malloc := true; k_hijack := None; k_refuses := λ _, false; k_stop := 100
|}.

Definition peer_args : list (list Z) :=
  [text "client"; text "--remote"; text "10.0.0.1:4001"; text "--bytes"; text "8"].

Definition idle_peer : peer := mkPeer 0 (mkEndpoint 0 (λ _, 0) (mkRecv 0 0 0 [])) [] [] false false.

Definition exits_0 (r : (Z * peer) + fault) : bool :=
  match r with inl (code, s) => (code =? 0) && (p_calls s <=? 50)%nat | inr _ => false end.

Lemma peer_demo : exits_0 (@main echo_kernel peer_args idle_peer) = true.
Proof. vm_compute. reflexivity. Qed.

Lemma peer_demo_options : ∃ o, command_of peer_args = Run o ∧ o_count o = 1 ∧ o_server o = false.
Proof. vm_compute. eexists. split; [reflexivity|done]. Qed.

End linux_peer_facts.
