(* ===== verification/Guest.v ===== *)
(** * The test guest's first process (src/interop/qemu/guest_init.c)

    The options on the kernel's command line, the set-up of the guest, the server
    whose output it forwards, the sweep of clients, and the end.  What the kernel
    and the children answer is a parameter.  Ending the guest is a result, since
    nothing after it runs. *)
From S2P Require Import Prelude Wire Api Text Net RelayRun LinuxPeer LinuxPeerFacts.

#[local] Open Scope Z_scope.

Module guest.

(** ** Options *)

Definition space (c : Z) : bool := c =? 32.

Fixpoint skip_spaces (s : list Z) : list Z :=
  match s with
  | c :: s' => if space c then skip_spaces s' else s
  | [] => []
  end.

(** The characters before the next space, and the rest. *)
Fixpoint to_space (s : list Z) : list Z * list Z :=
  match s with
  | c :: s' => if space c then ([], s) else let '(word, rest) := to_space s' in (c :: word, rest)
  | [] => ([], [])
  end.

Inductive setting := Unset | Bad | Set_ (value : list Z).

(** [name=value]: the value. *)
Definition value_of (name word : list Z) : option (list Z) :=
  if (len name <? len word) && bool_decide (take (length name) word = name) &&
     bool_decide (word !! length name = Some 61)
  then Some (drop (S (length name)) word) else None.

(** The loop of [option]; every round that goes on leaves less of the line. *)
Fixpoint option_loop (fuel : nat) (at_ name : list Z) (capacity : Z) : setting :=
  match fuel, at_ with
  | O, _ | _, [] => Unset
  | S fuel, _ =>
      let '(word, rest) := to_space (skip_spaces at_) in
      match value_of name word with
      | Some value => if (len value =? 0) || (capacity <=? len value) then Bad else Set_ value
      | None => option_loop fuel rest name capacity
      end
  end.

(** [option(commandline, name, output, capacity, fallback)]; [None] is the failure
    that ends the guest. *)
Definition option_ (commandline name : list Z) (capacity : Z) (fallback : list Z) : option (list Z) :=
  match option_loop (S (length commandline)) commandline name capacity with
  | Unset => Some (take (Z.to_nat (capacity - 1)) fallback)
  | Bad => None
  | Set_ value => Some value
  end.

(** ** The processes *)

(** How a child ended: WIFEXITED with its status, or a signal. *)
Inductive status := Exit (code : Z) | Signal (number : Z).

Definition exit_code (st : status) : Z := match st with Exit code => code | Signal number => 128 + number end.

(** What [waitpid] answers. *)
Inductive waited := WaitError (errno : Z) | WaitStatus (pid : Z) (st : status).

(** The kernel, by the number of the call: the [errno] after a call that failed
    (or the one found there after a short read or write), and the answers of
    [waitpid], which signals do not interrupt for ever. *)
Class GuestKernel := {
  g_fails : nat → option Z;
  g_wait : nat → waited;
  g_patience : nat;
  g_wait_ends : ∀ n, ∃ k, (k < g_patience)%nat ∧ g_wait (n + k) ≠ WaitError linux_peer.EINTR;
  g_pid : Z;
  g_cmdline : list Z;
  g_stale : Z;
  strerror : Z → list Z
}.

(** How a process is over: the guest is powered off, or it exits alone. *)
Inductive ending := PowerOff (code : Z) | Exited (code : Z).

(** A peer with its arguments, or the sweep of clients. *)
Inductive process := Peer (args : list (list Z)) | Sweep.

(** [g_out] is what the process printed, [g_reaped] the clients of the sweep and
    how they ended, [g_started] the processes it started. *)
Record guest := mkGuest {
  g_calls : nat; g_out : list Z; g_reaped : list (list Z * status); g_started : list process
}.

(** A computation that may be the last of its process. *)
Abbreviation G A := (M guest (ending + A)).

Definition seq_ {A B} (m : G A) (f : A → G B) : G B :=
  r ← m;
  match r with
  | inl e => mret (inl e)
  | inr a => f a
  end.

#[local] Notation "x <~ m ; f" := (seq_ m (λ x, f)) (at level 20, m at level 100, f at level 200, only parsing).
#[local] Notation "' x <~ m ; f" := (seq_ m (λ x, f)) (at level 20, x pattern, m at level 100, f at level 200, only parsing).

Definition line (s : list Z) : list Z := s ++ [10].

(** [%d]. *)
Definition integer (n : Z) : list Z := if n <? 0 then 45 :: decimal 20 (- n) else decimal 20 n.

Section processes.
Context `{GuestKernel}.

Definition syscall : M guest nat :=
  g ← get;
  modify (λ g, mkGuest (S (g_calls g)) (g_out g) (g_reaped g) (g_started g));;
  mret (g_calls g).

Definition print (s : list Z) : M guest unit :=
  modify (λ g, mkGuest (g_calls g) (g_out g ++ s) (g_reaped g) (g_started g)).

(** [puts], [printf]. *)
Definition say (s : list Z) : G unit := print s;; mret (inr ()).

Definition error_line (operation : list Z) (errno : Z) : list Z :=
  line (text "HOMA_GUEST_ERROR operation=" ++ operation ++ text " errno=" ++ integer errno ++
        text " message=" ++ strerror errno).

(** [fail], with [errno]: it prints, and powers the guest off in every process. *)
Definition fail {A} (operation : list Z) (errno : Z) : G A :=
  print (error_line operation errno);;
  mret (inl (PowerOff 1)).

(** A call whose failure is [fail(operation)]. *)
Definition must (operation : list Z) : G unit :=
  n ← syscall;
  match g_fails n with
  | Some errno => fail operation errno
  | None => mret (inr ())
  end.

Definition load_module (path : list Z) : G unit :=
  _ <~ must path;
  _ <~ must path;
  say (line (text "HOMA_GUEST_MODULE path=" ++ path)).

Definition setting_ (path value : list Z) : G unit :=
  _ <~ must path;
  _ <~ must path;
  say (text "HOMA_GUEST_SETTING path=" ++ path ++ text " value=" ++ value).

Definition interface_up (name : list Z) : G unit :=
  _ <~ must (text "SIOCGIFFLAGS");
  must (text "SIOCSIFFLAGS").

(** An address written in the source. *)
Definition constant (operation address : list Z) : G unit :=
  match linux_peer.inet_pton4 address [] 0 false with
  | Some _ => mret (inr ())
  | None => fail operation g_stale
  end.

Definition network : G unit :=
  _ <~ must (text "network socket");
  _ <~ constant (text "address") (text "10.0.0.2");
  _ <~ must (text "SIOCSIFADDR");
  _ <~ constant (text "netmask") (text "255.255.255.0");
  _ <~ must (text "SIOCSIFNETMASK");
  _ <~ must (text "SIOCSIFMTU");
  _ <~ interface_up (text "lo");
  interface_up (text "eth0").

(** [while (waitpid(...) < 0) if (errno != linux_peer.EINTR) fail(operation);] *)
Fixpoint wait_loop (fuel : nat) (operation : list Z) : G (Z * status) :=
  match fuel with
  | O => stop OutOfFuel
  | S fuel =>
      n ← syscall;
      match g_wait n with
      | WaitStatus pid st => mret (inr (pid, st))
      | WaitError errno => if errno =? linux_peer.EINTR then wait_loop fuel operation else fail operation errno
      end
  end.

Definition wait_child (operation : list Z) : G (Z * status) := wait_loop g_patience operation.

(** ** The peers *)

(** [execl]'s arguments, after the program's name. *)
Definition server_args (count : list Z) : list (list Z) :=
  [text "serve"; text "--bind"; text "0.0.0.0:4000"; text "--count"; count; text "--timeout-ms"; text "120000"].

Definition client_args (bytes count : list Z) : list (list Z) :=
  [text "client"; text "--bind"; text "0.0.0.0:4002"; text "--remote"; text "10.0.0.1:4001"; text "--bytes"; bytes;
   text "--count"; count; text "--timeout-ms"; text "15000"].

Definition ready_line : list Z := line (text "HOMA_GUEST_READY ip=10.0.0.2 port=4000 mtu=1500").

(** The loop over what [fgets] reads from the server. *)
Fixpoint forward (chunks : list (list Z)) : G unit :=
  match chunks with
  | [] => mret (inr ())
  | chunk :: chunks =>
      _ <~ say chunk;
      _ <~ (if lanrelay_run.HasPrefix chunk (text "ready mode=serve ") then say ready_line else mret (inr ()));
      forward chunks
  end.

(** The process that [start_peer(true, ...)] leaves behind the server's output,
    [chunks]. *)
Definition server_process (chunks : list (list Z)) : G unit :=
  _ <~ must (text "server output pipe");
  _ <~ must (text "fork server");
  _ <~ must (text "read server output");
  _ <~ forward chunks;
  '(_, st) <~ wait_child (text "wait server");
  mret (inl (Exited (exit_code st))).

Definition started (p : process) : M guest unit :=
  modify (λ g, mkGuest (g_calls g) (g_out g) (g_reaped g) (g_started g ++ [p])).

(** The parent's side of [start_peer]; [args] are the peer's. *)
Definition start_peer (args : list (list Z)) : G unit :=
  _ <~ must (text "fork peer");
  started (Peer args);;
  mret (inr ()).

Definition sizes : list (list Z) :=
  text <$> ["1"; "100"; "1424"; "65535"; "65536"; "65537"; "100000"; "1000000"]%string.

Definition fail_line (size : list Z) : list Z := line (text "HOMA_GUEST_CLIENT_FAIL bytes=" ++ size).

Definition pass_line : list Z :=
  line (text "HOMA_GUEST_CLIENT_PASS sizes=1,100,1424,65535,65536,65537,100000,1000000").

Definition failed_status (st : status) : bool := match st with Exit code => negb (code =? 0) | Signal _ => true end.

(** The loop of [start_interop_clients]'s process. *)
Fixpoint sweep (sizes : list (list Z)) : G unit :=
  match sizes with
  | [] => mret (inr ())
  | size :: sizes =>
      _ <~ start_peer (client_args size (text "1"));
      '(_, st) <~ wait_child (text "wait interop client");
      modify (λ g, mkGuest (g_calls g) (g_out g) (g_reaped g ++ [(size, st)]) (g_started g));;
      if failed_status st then
        _ <~ say (fail_line size);
        mret (inl (Exited 1))
      else sweep sizes
  end.

(** The process of [start_interop_clients], after its second of sleep. *)
Definition interop_clients : G unit :=
  _ <~ sweep sizes;
  _ <~ say pass_line;
  mret (inl (Exited 0)).

(** The parent's side of [start_interop_clients]. *)
Definition start_interop_clients : G unit :=
  _ <~ must (text "fork interop sweep");
  started Sweep;;
  mret (inr ()).

(** ** The first process *)

(** [fgets] of a buffer for [n] characters, up to a line's end. *)
Fixpoint fgets (n : nat) (s : list Z) : list Z :=
  match n, s with
  | O, _ | _, [] => []
  | S n, c :: s => if c =? 10 then [c] else c :: fgets n s
  end.

(** The characters before the first of [stops]. *)
Fixpoint until (stops : list Z) (s : list Z) : list Z :=
  match s with
  | [] => []
  | c :: s => if bool_decide (c ∈ stops) then [] else c :: until stops s
  end.

Definition EPERM : Z := 1.
Definition EINVAL : Z := 22.

Definition read_option (commandline name : list Z) (fallback : list Z) : G (list Z) :=
  match option_ commandline name 16 fallback with
  | Some value => mret (inr value)
  | None => fail name EINVAL
  end.

Definition modes : list (list Z) := text <$> ["serve"; "client"; "both"; "interop"]%string.

(** Up to the check of the mode: the mode, the bytes and the count. *)
Definition configure : G (list Z * list Z * list Z) :=
  _ <~ must (text "mount proc");
  _ <~ must (text "read cmdline");
  let read := fgets 4095 g_cmdline in
  _ <~ (if bool_decide (read = []) then fail (text "read cmdline") g_stale else mret (inr ()));
  let commandline := until [0] read in
  _ <~ (if negb (lanrelay_run.Contains commandline (text "homa.test_guest=1"))
        then fail (text "missing homa.test_guest=1 marker") EPERM else mret (inr ()));
  let commandline := until [13; 10] commandline in
  mode <~ read_option commandline (text "homa.mode") (text "serve");
  bytes <~ read_option commandline (text "homa.bytes") (text "100000");
  count <~ read_option commandline (text "homa.count") (text "1");
  if bool_decide (mode ∈ modes) then mret (inr (mode, bytes, count)) else fail (text "homa.mode") EINVAL.

Definition network_line (mode : list Z) : list Z :=
  line (text "HOMA_GUEST_NETWORK ip=10.0.0.2 mode=" ++ mode ++ text " mtu=1500").

(** The console, the modules, their settings and the network. *)
Definition set_up (mode : list Z) : G unit :=
  _ <~ must (text "mount sysfs");
  _ <~ must (text "mount devtmpfs");
  _ <~ must (text "open console");
  _ <~ must (text "dup console");
  _ <~ must (text "dup console");
  _ <~ must (text "dup console");
  _ <~ say (line (text "HOMA_GUEST_INIT isolated QEMU test guest"));
  _ <~ load_module (text "/e1000.ko");
  _ <~ load_module (text "/homa.ko");
  _ <~ setting_ (text "/proc/sys/net/homa/hijack_tcp") (line (text "0"));
  _ <~ setting_ (text "/proc/sys/net/homa/max_gso_size") (line (text "1000"));
  _ <~ setting_ (text "/proc/sys/net/homa/unsched_bytes") (line (text "14000"));
  _ <~ setting_ (text "/proc/sys/net/homa/timeout_ticks") (line (text "2000"));
  _ <~ network;
  say (network_line mode).

Definition is_mode (mode : list Z) (s : string) : bool := bool_decide (mode = text s).

(** The children are started; the result is their number. *)
Definition start_children (mode bytes count : list Z) : G nat :=
  let server := is_mode mode "serve" || is_mode mode "both" || is_mode mode "interop" in
  let clients := is_mode mode "interop" in
  let client := is_mode mode "client" || is_mode mode "both" in
  _ <~ (if server then start_peer (server_args (if is_mode mode "serve" then count else text "0"))
        else mret (inr ()));
  _ <~ (if clients then start_interop_clients else mret (inr ()));
  _ <~ (if client then start_peer (client_args bytes count) else mret (inr ()));
  mret (inr (Nat.b2n server + Nat.b2n clients + Nat.b2n client)%nat).

Definition child_line (pid : Z) (code : Z) : list Z :=
  line (text "HOMA_GUEST_CHILD pid=" ++ integer pid ++ text " exit=" ++ integer code).

(** The loop over the children; the result is [failed]. *)
Fixpoint wait_children (children : nat) (failed : bool) : G bool :=
  match children with
  | O => mret (inr failed)
  | S children =>
      '(pid, st) <~ wait_child (text "waitpid");
      let code := exit_code st in
      _ <~ say (child_line pid code);
      wait_children children (failed || negb (code =? 0))
  end.

Definition done_line (failed : bool) : list Z :=
  line (text "HOMA_GUEST_DONE status=" ++ text (if failed then "FAIL" else "PASS")).

Definition main : G unit :=
  if negb (g_pid =? 1) then
    _ <~ say (line (text "guest-init must run as PID 1 inside the test VM"));
    mret (inl (Exited 2))
  else
  '(mode, bytes, count) <~ configure;
  _ <~ set_up mode;
  children <~ start_children mode bytes count;
  failed <~ wait_children children false;
  _ <~ say (done_line failed);
  mret (inl (PowerOff (if (failed : bool) then 1 else 0))).
End processes.
End guest.
