(* ===== verification/GuestFacts.v ===== *)
(** * What the test guest's report shows

    The options are those of the command line's words; the guest runs only as the
    first process of a machine that was booted for the test, and reports success
    only when its children did; the sweep of clients reports success only when all
    eight clients of linux_peer.c verified their calls. *)
From S2P Require Import Prelude Wire Api Text Net RelayRun.
From S2P Require Import LinuxPeer LinuxPeerFacts Guest.

#[local] Open Scope Z_scope.

Create HintDb acts.

Module guest_facts.
Import guest.

(** ** Options *)

(** The words of a line, [word] being the one that is read. *)
Fixpoint words_from (word s : list Z) : list (list Z) :=
  match s with
  | [] => [word]
  | c :: s => if space c then word :: words_from [] s else words_from (word ++ [c]) s
  end.

Definition words (s : list Z) : list (list Z) := words_from [] s.

(** The value of the first word that sets [name]. *)
Definition first_value (name : list Z) (ws : list (list Z)) : option (list Z) := head (omap (value_of name) ws).

Lemma value_of_nil name : value_of name [] = None.
Proof. unfold value_of. rewrite (proj2 (Z.ltb_ge _ _)); [done|]. unfold len. cbn. lia. Qed.

Lemma words_from_split word s :
  words_from word s = (word ++ (to_space s).1) :: match (to_space s).2 with [] => [] | _ :: rest => words rest end.
Proof.
  revert word. induction s as [|c s IH]; intros word; cbn [words_from to_space]; [by rewrite app_nil_r|].
  destruct (space c); [by rewrite app_nil_r|]. rewrite IH. destruct (to_space s) as [w rest]. cbn.
  by rewrite <- app_assoc.
Qed.

Lemma first_value_skip name s : first_value name (words (skip_spaces s)) = first_value name (words s).
Proof.
  induction s as [|c s IH]; [done|]. cbn [skip_spaces]. destruct (space c) eqn:E; [|done]. rewrite IH. unfold words at 2. cbn [words_from]. rewrite E.
  unfold first_value. cbn [omap list_omap]. by rewrite value_of_nil.
Qed.

Lemma to_space_rest s : (length (to_space s).2 ≤ length s)%nat ∧
  ∀ c rest, (to_space s).2 = c :: rest → space c = true.
Proof.
  induction s as [|c s [IH1 IH2]]; [done|]. cbn. destruct (space c) eqn:E; cbn; [split; [lia|by intros ?? [= <- _]]|].
  destruct (to_space s); cbn in *. split; [lia|done].
Qed.

Lemma to_space_shrinks s :
  s ≠ [] → (length (to_space (skip_spaces s)).2 < length s)%nat.
Proof.
  induction s as [|c s IH]; [done|]. intros _. cbn. destruct (space c) eqn:E.
  - destruct s as [|d s']; [cbn; lia|]. specialize (IH ltac:(done)). cbn in *. lia.
  - cbn. rewrite E. pose proof (proj1 (to_space_rest s)). destruct (to_space s); cbn in *. lia.
Qed.

Lemma option_loop_words fuel s name capacity :
  (length s < fuel)%nat →
  option_loop fuel s name capacity = match first_value name (words s) with
    | None => Unset
    | Some value => if (len value =? 0) || (capacity <=? len value) then Bad else Set_ value
    end.
Proof.
  revert s. induction fuel as [|fuel IH]; intros s Hfuel; [lia|]. destruct s as [|c s'].
  { unfold words, first_value. cbn. by rewrite value_of_nil. }
  cbn [option_loop]. set (s := c :: s') in *. rewrite <- first_value_skip. unfold words. rewrite words_from_split.
  pose proof (to_space_shrinks s ltac:(done)). pose proof (proj2 (to_space_rest (skip_spaces s))) as Hsp.
  destruct (to_space (skip_spaces s)) as [w rest]. cbn [fst snd app] in *. unfold first_value. cbn [omap list_omap].
  destruct (value_of name w) as [value|] eqn:E; [done|]. rewrite IH by lia. unfold first_value.
  destruct rest as [|d rest]; [unfold words; cbn; by rewrite value_of_nil|].
  unfold words at 1. cbn [words_from]. rewrite (Hsp d rest eq_refl). cbn [omap list_omap]. by rewrite value_of_nil.
Qed.

(** ** Processes *)

Section processes.
Context `{GuestKernel}.

(** The last thing printed is the report of an error. *)
Definition error_end (g : guest) : Prop := ∃ operation errno, error_line operation errno `suffix_of` g_out g.

(** [m] goes on as [Q] says, or it ends the guest with an error. *)
Definition fine {A} (m : M guest (ending + A)) (Q : A → guest → Prop) (g : guest) : Prop :=
  wp m (λ r g', match r with inl e => e = PowerOff 1 ∧ error_end g' | inr a => Q a g' end) g.

Lemma wp_seq {A B} (m : M guest (ending + A)) (f : A → M guest (ending + B)) P Q g :
  fine m P g → (∀ g', error_end g' → Q (inl (PowerOff 1)) g') → (∀ a g', P a g' → wp (f a) Q g') → wp (seq_ m f) Q g.
Proof.
  intros Hm He Hf. unfold seq_. wp_step. eapply wp_mono; [exact Hm|]. intros [e|a] g'; [|by apply Hf].
  intros [-> ?]. wp_step. by apply He.
Qed.

Lemma fine_seq {A B} (m : M guest (ending + A)) (f : A → M guest (ending + B)) P Q g :
  fine m P g → (∀ a g', P a g' → fine (f a) Q g') → fine (seq_ m f) Q g.
Proof. intros Hm Hf. by eapply wp_seq; [exact Hm| |exact Hf]. Qed.

Lemma fine_ret {A} (a : A) Q g : Q a g → fine (mret (inr a)) Q g.
Proof. intros. by apply wp_ret. Qed.

Lemma fine_mono {A} (m : M guest (ending + A)) (P Q : A → guest → Prop) g :
  fine m P g → (∀ a g', P a g' → Q a g') → fine m Q g.
Proof. intros Hm HPQ. eapply wp_mono; [exact Hm|]. intros [e|a] g'; [done|apply HPQ]. Qed.

Lemma fine_fail {A} operation errno (Q : A → guest → Prop) g : fine (fail operation errno) Q g.
Proof. unfold fail, print. apply wp_bind, wp_modify, wp_ret. split; [done|]. eexists operation, errno. by eexists. Qed.

(** Between [g] and [g'], [out] was printed, [ps] started and [rs] waited for. *)
Definition moves (out : list Z) (ps : list process) (rs : list (list Z * status)) (g g' : guest) : Prop :=
  g_out g' = g_out g ++ out ∧ g_started g' = g_started g ++ ps ∧ g_reaped g' = g_reaped g ++ rs.

Lemma moves_refl g : moves [] [] [] g g.
Proof. unfold moves. by rewrite !app_nil_r. Qed.

Lemma moves_trans o1 p1 r1 o2 p2 r2 g1 g2 g3 :
  moves o1 p1 r1 g1 g2 → moves o2 p2 r2 g2 g3 → moves (o1 ++ o2) (p1 ++ p2) (r1 ++ r2) g1 g3.
Proof. intros (Ho1&Hp1&Hr1) (Ho2&Hp2&Hr2). unfold moves. rewrite Ho2, Hp2, Hr2, Ho1, Hp1, Hr1, !app_assoc. done. Qed.

Definition acts {A} (m : M guest (ending + A)) (out : list Z) (ps : list process) (a : A) : Prop :=
  ∀ g, fine m (λ a' g', a' = a ∧ moves out ps [] g g') g.

Lemma acts_ret {A} (a : A) : acts (mret (inr a)) [] [] a.
Proof. intros g. apply fine_ret. split; [done|apply moves_refl]. Qed.

Lemma acts_seq {A B} (m : M guest (ending + A)) (f : A → M guest (ending + B)) o1 p1 a o2 p2 b :
  acts m o1 p1 a → acts (f a) o2 p2 b → acts (seq_ m f) (o1 ++ o2) (p1 ++ p2) b.
Proof.
  intros Hm Hf g. eapply fine_seq; [apply Hm|]. intros ? g1 [-> H1]. eapply fine_mono; [apply Hf|].
  intros ? g2 [-> H2]. split; [done|]. exact (moves_trans _ _ [] _ _ [] _ _ _ H1 H2).
Qed.

Lemma acts_say s : acts (say s) s [] ().
Proof. intros g. unfold say, print. apply wp_bind, wp_modify, wp_ret. split; [done|]. unfold moves. cbn. by rewrite !app_nil_r. Qed.

Lemma acts_must operation : acts (must operation) [] [] ().
Proof.
  intros g. unfold must, syscall, fine. do 2 apply wp_bind. apply wp_get, wp_bind, wp_modify, wp_ret.
  destruct (g_fails _) as [errno|]; [apply fine_fail|]. apply wp_ret. split; [done|]. unfold moves. cbn. by rewrite !app_nil_r.
Qed.

#[local] Hint Resolve acts_ret acts_say acts_must : acts.

Lemma acts_load_module path : acts (load_module path) (line (text "HOMA_GUEST_MODULE path=" ++ path)) [] ().
Proof. apply (acts_seq _ _ [] [] ()); [auto with acts|]. apply (acts_seq _ _ [] [] ()); auto with acts. Qed.

Lemma acts_setting path value :
  acts (setting_ path value) (text "HOMA_GUEST_SETTING path=" ++ path ++ text " value=" ++ value) [] ().
Proof. apply (acts_seq _ _ [] [] ()); [auto with acts|]. apply (acts_seq _ _ [] [] ()); auto with acts. Qed.

Lemma acts_constant operation address :
  linux_peer.inet_pton4 address [] 0 false ≠ None → acts (constant operation address) [] [] ().
Proof. intros. unfold constant. case_match; [auto with acts|done]. Qed.

#[local] Hint Resolve acts_load_module acts_setting : acts.

(** A sequence, step by step. *)
Ltac acts_seq_auto := repeat first [solve [eauto with acts] | eapply acts_seq; [solve [eauto with acts]|]].

Lemma acts_eq {A} (m : M guest (ending + A)) out ps a out' ps' :
  acts m out ps a → out = out' → ps = ps' → acts m out' ps' a.
Proof. by intros ? -> ->. Qed.

Lemma acts_interface_up name : acts (interface_up name) [] [] ().
Proof. eapply acts_eq; [unfold interface_up; acts_seq_auto|reflexivity..]. Qed.

#[local] Hint Resolve acts_interface_up : acts.
#[local] Hint Extern 1 (acts (constant _ _) _ _ _) => (apply acts_constant; discriminate) : acts.

Lemma acts_network : acts network [] [] ().
Proof. eapply acts_eq; [unfold network; acts_seq_auto|reflexivity..]. Qed.

(** What the set-up prints. *)
Definition set_up_output (mode : list Z) : list Z :=
  line (text "HOMA_GUEST_INIT isolated QEMU test guest") ++
  line (text "HOMA_GUEST_MODULE path=/e1000.ko") ++ line (text "HOMA_GUEST_MODULE path=/homa.ko") ++
  line (text "HOMA_GUEST_SETTING path=/proc/sys/net/homa/hijack_tcp value=0") ++
  line (text "HOMA_GUEST_SETTING path=/proc/sys/net/homa/max_gso_size value=1000") ++
  line (text "HOMA_GUEST_SETTING path=/proc/sys/net/homa/unsched_bytes value=14000") ++
  line (text "HOMA_GUEST_SETTING path=/proc/sys/net/homa/timeout_ticks value=2000") ++
  network_line mode.

#[local] Hint Resolve acts_network : acts.

Lemma acts_set_up mode : acts (set_up mode) (set_up_output mode) [] ().
Proof.
  unfold set_up. eapply acts_eq; [acts_seq_auto| |reflexivity].
  cbn [app]. unfold set_up_output. repeat f_equal.
Qed.

Lemma acts_start_peer args : acts (start_peer args) [] [Peer args] ().
Proof.
  apply (acts_seq _ _ [] [] () [] [Peer args]); [auto with acts|]. intros g. unfold started.
  apply wp_bind, wp_modify, wp_ret. split; [done|]. unfold moves. cbn. by rewrite !app_nil_r.
Qed.

Lemma acts_start_interop_clients : acts start_interop_clients [] [Sweep] ().
Proof.
  apply (acts_seq _ _ [] [] () [] [Sweep]); [auto with acts|]. intros g. unfold started.
  apply wp_bind, wp_modify, wp_ret. split; [done|]. unfold moves. cbn. by rewrite !app_nil_r.
Qed.

#[local] Hint Resolve acts_start_peer acts_start_interop_clients : acts.

(** The processes of a mode. *)
Definition processes (mode bytes count : list Z) : list process :=
  if is_mode mode "serve" then [Peer (server_args count)]
  else if is_mode mode "client" then [Peer (client_args bytes count)]
  else if is_mode mode "both" then [Peer (server_args (text "0")); Peer (client_args bytes count)]
  else [Peer (server_args (text "0")); Sweep].

Lemma acts_start_children mode bytes count :
  mode ∈ modes →
  acts (start_children mode bytes count) [] (processes mode bytes count) (length (processes mode bytes count)).
Proof.
  unfold modes. cbn [fmap list_fmap]. rewrite !elem_of_cons, elem_of_nil. intros [-> | [-> | [-> | [-> | []]]]].
  all: unfold start_children, processes, is_mode.
  all: repeat match goal with |- context [bool_decide (text ?a = text ?b)] =>
    let r := eval vm_compute in (bool_decide (text a = text b)) in change (bool_decide (text a = text b)) with r end.
  all: cbn [orb Nat.b2n Nat.add length]; eapply acts_eq; [acts_seq_auto|reflexivity..].
Qed.

(** ** Children *)

Lemma fine_wait_loop fuel k operation g :
  (k < fuel)%nat → g_wait (g_calls g + k) ≠ WaitError linux_peer.EINTR →
  fine (wait_loop fuel operation) (λ r g', moves [] [] [] g g' ∧ ∃ n, g_wait n = WaitStatus r.1 r.2) g.
Proof.
  revert k g. induction fuel as [|fuel IH]; intros k g Hk Hend; [lia|]. cbn [wait_loop]. unfold syscall, fine.
  do 2 apply wp_bind. apply wp_get, wp_bind, wp_modify, wp_ret.
  destruct (g_wait (g_calls g)) as [errno|pid st] eqn:E; cycle 1.
  { apply wp_ret. split; [apply (moves_refl g)|eauto]. }
  destruct (Z.eqb_spec errno linux_peer.EINTR) as [->|]; [|apply fine_fail].
  destruct k as [|k]; [by rewrite Nat.add_0_r, E in Hend|].
  eapply fine_mono; [apply (IH k); [lia|]|by intros]. cbn. by rewrite Nat.add_succ_r in Hend.
Qed.

Lemma fine_wait_child operation g :
  fine (wait_child operation) (λ r g', moves [] [] [] g g' ∧ ∃ n, g_wait n = WaitStatus r.1 r.2) g.
Proof. destruct (g_wait_ends (g_calls g)) as (k&Hk&Hend). by apply (fine_wait_loop _ k). Qed.

(** The report on the children [cs]. *)
Definition children_output (cs : list (Z * status)) : list Z :=
  concat ((λ c, child_line c.1 (exit_code c.2)) <$> cs).

Definition any_failed (cs : list (Z * status)) : bool := existsb (λ c, negb (exit_code c.2 =? 0)) cs.

(** [cs] are answers of [waitpid]. *)
Definition answered (cs : list (Z * status)) : Prop := Forall (λ c, ∃ n, g_wait n = WaitStatus c.1 c.2) cs.

Lemma fine_wait_children n failed g :
  fine (wait_children n failed) (λ r g', ∃ cs, length cs = n ∧ answered cs ∧ r = failed || any_failed cs ∧
    moves (children_output cs) [] [] g g') g.
Proof.
  revert failed g. induction n as [|n IH]; intros failed g; cbn [wait_children].
  { apply fine_ret. exists []. split; [done|]. split; [constructor|]. split; [by rewrite orb_false_r|apply moves_refl]. }
  eapply fine_seq; [apply fine_wait_child|]. intros [pid st] g1 [H1 Hn]. eapply fine_seq; [apply acts_say|].
  intros _ g2 [_ H2]. eapply fine_mono; [apply IH|]. intros r g3 (cs&Hlen&Hans&->&H3). exists ((pid, st) :: cs).
  split; [cbn; lia|]. split; [by constructor|]. split; [cbn; by rewrite orb_assoc|].
  exact (moves_trans _ _ _ _ _ _ _ _ _ H1 (moves_trans _ _ _ _ _ _ _ _ _ H2 H3)).
Qed.

(** ** The configuration *)

(** The option [name] is what the first word that sets it says, of at most 15
    characters, or [fallback]. *)
Definition chosen (commandline name fallback value : list Z) : Prop :=
  match first_value name (words commandline) with
  | Some v => value = v ∧ 0 < len v < 16
  | None => value = fallback
  end.

Lemma fine_read_option commandline name fallback g :
  len fallback < 16 →
  fine (read_option commandline name fallback) (λ value g', chosen commandline name fallback value ∧ moves [] [] [] g g') g.
Proof.
  intros Hf. unfold read_option, option_. rewrite option_loop_words by lia. unfold chosen.
  destruct (first_value _ _) as [v|]; cycle 1.
  { apply fine_ret. split; [|apply moves_refl]. apply take_ge. unfold len in Hf. lia. }
  destruct (_ || _) eqn:E; [apply fine_fail|]. apply fine_ret. split; [|apply moves_refl].
  apply orb_false_iff in E as [?%Z.eqb_neq ?%Z.leb_gt]. unfold len in *. split; [done|lia].
Qed.

(** The machine was booted for the test, with this mode, these bytes and count. *)
Definition configured (mode bytes count : list Z) : Prop :=
  let read := until [0] (fgets 4095 g_cmdline) in
  let commandline := until [13; 10] read in
  lanrelay_run.Contains read (text "homa.test_guest=1") = true ∧ mode ∈ modes ∧
  chosen commandline (text "homa.mode") (text "serve") mode ∧
  chosen commandline (text "homa.bytes") (text "100000") bytes ∧
  chosen commandline (text "homa.count") (text "1") count.

Lemma fine_configure g :
  fine configure (λ r g', configured r.1.1 r.1.2 r.2 ∧ moves [] [] [] g g') g.
Proof.
  unfold configure. eapply fine_seq; [apply acts_must|]. intros _ g1 [_ H1].
  eapply fine_seq; [apply acts_must|]. intros _ g2 [_ H2]. pose proof (moves_trans _ _ _ _ _ _ _ _ _ H1 H2) as H02.
  eapply (fine_seq _ _ (λ _ g', g' = g2)); [case_match; [apply fine_fail|by apply fine_ret]|]. intros _ ? ->.
  eapply (fine_seq _ _ (λ _ g', g' = g2 ∧ lanrelay_run.Contains _ _ = true)).
  { destruct (lanrelay_run.Contains _ _) eqn:E; [|apply fine_fail]. apply fine_ret. split; [done|exact E]. }
  intros _ ? [-> Hmark].
  eapply fine_seq; [apply fine_read_option; done|]. intros mode g3 [Hmode H3].
  eapply fine_seq; [apply fine_read_option; done|]. intros bytes g4 [Hbytes H4].
  eapply fine_seq; [apply fine_read_option; done|]. intros count g5 [Hcount H5].
  case_bool_decide; [|apply fine_fail]. apply fine_ret. split; [by repeat split|].
  exact (moves_trans _ _ _ _ _ _ _ _ _ (moves_trans _ _ _ _ _ _ _ _ _ H02 H3) (moves_trans _ _ _ _ _ _ _ _ _ H4 H5)).
Qed.

(** How the first process may end, having started in [g]. *)
Definition guest_verdict (g : guest) (e : ending) (g' : guest) : Prop :=
  if g_pid =? 1 then
    (e = PowerOff 1 ∧ error_end g') ∨
    ∃ mode bytes count cs, configured mode bytes count ∧ answered cs ∧
      length cs = length (processes mode bytes count) ∧
      e = PowerOff (if any_failed cs then 1 else 0) ∧
      moves (set_up_output mode ++ children_output cs ++ done_line (any_failed cs)) (processes mode bytes count) [] g g'
  else e = Exited 2 ∧ g_calls g' = g_calls g ∧ g_started g' = g_started g.


(** ** The server *)

(** The server's output, with the READY line after each line that says so. *)
Definition forwarded (chunks : list (list Z)) : list Z :=
  concat ((λ chunk, chunk ++ if lanrelay_run.HasPrefix chunk (text "ready mode=serve ") then ready_line else []) <$> chunks).

Lemma acts_forward chunks : acts (forward chunks) (forwarded chunks) [] ().
Proof.
  induction chunks as [|chunk chunks IH]; [apply acts_ret|]. unfold forwarded. cbn [forward fmap list_fmap concat].
  rewrite <- app_assoc. apply (acts_seq _ _ chunk [] ()); [apply acts_say|].
  apply (acts_seq _ _ (if lanrelay_run.HasPrefix chunk (text "ready mode=serve ") then ready_line else []) [] ()); [|exact IH].
  destruct (lanrelay_run.HasPrefix _ _); auto with acts.
Qed.

(** The process behind the server exits as the server does, having forwarded all
    of its output; or it powers the guest off with an error. *)
Lemma wp_server_process chunks g :
  wp (server_process chunks) (λ r g', match r with
    | inr _ => False
    | inl (PowerOff code) => code = 1 ∧ error_end g'
    | inl (Exited code) => moves (forwarded chunks) [] [] g g' ∧ ∃ n pid st, g_wait n = WaitStatus pid st ∧ code = exit_code st
    end) g.
Proof.
  unfold server_process. eapply wp_seq; [apply acts_must|by split|]. intros _ g1 [_ H1].
  eapply wp_seq; [apply acts_must|by split|]. intros _ g2 [_ H2].
  eapply wp_seq; [apply acts_must|by split|]. intros _ g3 [_ H3].
  eapply wp_seq; [apply acts_forward|by split|]. intros _ g4 [_ H4].
  eapply wp_seq; [apply fine_wait_child|by split|]. intros [pid st] g5 [H5 [n Hn]]. apply wp_ret. split; [|eauto].
  pose proof (moves_trans _ _ _ _ _ _ _ _ _ H1 (moves_trans _ _ _ _ _ _ _ _ _ H2 (moves_trans _ _ _ _ _ _ _ _ _ H3
    (moves_trans _ _ _ _ _ _ _ _ _ H4 H5)))) as Hall. cbn [app] in Hall. by rewrite app_nil_r in Hall.
Qed.

(** ** The sweep of clients *)

Definition clients (sizes : list (list Z)) : list process := (λ size, Peer (client_args size (text "1"))) <$> sizes.

Definition passed (sizes : list (list Z)) : list (list Z * status) := (λ size, (size, Exit 0)) <$> sizes.

(** How the loop over [sizes] may end: the first client that fails ends it. *)
Definition swept (sizes : list (list Z)) (g : guest) (r : ending + unit) (g' : guest) : Prop :=
  match r with
  | inr _ => moves [] (clients sizes) (passed sizes) g g'
  | inl (PowerOff code) => code = 1 ∧ error_end g'
  | inl (Exited code) => code = 1 ∧ ∃ before size after st, sizes = before ++ size :: after ∧ failed_status st = true ∧
      moves (fail_line size) (clients (before ++ [size])) (passed before ++ [(size, st)]) g g'
  end.

Lemma swept_cons size sizes g g1 r g' :
  moves [] (clients [size]) (passed [size]) g g1 → swept sizes g1 r g' → swept (size :: sizes) g r g'.
Proof.
  intros H1. destruct r as [[|]|]; cbn; [done| |intros H2; exact (moves_trans _ _ _ _ _ _ _ _ _ H1 H2)].
  intros [-> (before&size'&after&st&->&Hst&H2)]. split; [done|]. exists (size :: before), size', after, st.
  do 2 (split; [done|]). exact (moves_trans _ _ _ _ _ _ _ _ _ H1 H2).
Qed.

Lemma failed_status_false st : failed_status st = false → st = Exit 0.
Proof. destruct st as [code|]; [|done]. cbn. intros E%negb_false_iff%Z.eqb_eq. by rewrite E. Qed.

Lemma wp_sweep sizes g : wp (sweep sizes) (swept sizes g) g.
Proof.
  revert g. induction sizes as [|size sizes IH]; intros g; cbn [sweep]; [apply wp_ret, moves_refl|].
  eapply wp_seq; [apply acts_start_peer|by split|]. intros _ g1 [_ H1].
  eapply wp_seq; [apply fine_wait_child|by split|]. intros [pid st] g2 [H2 _].
  apply wp_bind, wp_modify. set (g3 := mkGuest _ _ _ _).
  assert (moves [] (clients [size]) [(size, st)] g g3) as H3.
  { destruct (moves_trans _ _ _ _ _ _ _ _ _ H1 H2) as (Ho&Hs&Hr). unfold moves. cbn.
    rewrite Ho, Hs, Hr, !app_nil_r. by split. }
  destruct (failed_status st) eqn:Est.
  - eapply wp_seq; [apply acts_say|by split|]. intros _ g4 [_ H4]. apply wp_ret. split; [done|].
    exists [], size, sizes, st. do 2 (split; [done|]). exact (moves_trans _ _ _ _ _ _ _ _ _ H3 H4).
  - apply failed_status_false in Est as ->. eapply wp_mono; [apply IH|]. intros r g4. by apply swept_cons.
Qed.
End processes.

(** *** What a client's success means *)

(** The address of the endpoint under test, 10.0.0.1:4001. *)
Definition machoma : linux_peer.sockaddr := linux_peer.mkSockaddr 167772161 4001.

(** The size of a client's call. *)
Definition size_of (size : list Z) : Z := default 0 (linux_peer.number size 1 linux_peer.HOMA_MAX_MESSAGE_LENGTH).

(** A fresh process of linux_peer.c with the client's arguments that exits with 0
    without being told to stop has sent one message of [n] bytes of the pattern
    to the endpoint under test, and received exactly it from there, under the same
    ID and cookie. *)
Definition client_verifies (size : list Z) : Prop :=
  ∀ (K : linux_peer.Kernel) s s',
    linux_peer.p_fd s = false → linux_peer.p_mapped s = false → linux_peer.p_trace s = [] →
    linux_peer.main (client_args size (text "1")) s = inl (0, s') →
    (linux_peer.p_calls s' ≤ linux_peer.k_stop)%nat →
    ∃ id cookie, linux_peer.p_trace s' =
      [linux_peer.Sent machoma (linux_peer.pattern_data (size_of size)) id cookie;
       linux_peer.Received machoma (linux_peer.pattern_data (size_of size)) id cookie].

(** The options that the peer reads from the client's arguments. *)
Lemma client_options size :
  size ∈ sizes → ∃ o, linux_peer.command_of (client_args size (text "1")) = linux_peer.Run o ∧
    linux_peer.o_server o = false ∧ linux_peer.remote o = machoma ∧ linux_peer.o_bytes o = size_of size ∧
    linux_peer.o_count o = 1.
Proof.
  unfold sizes. cbn [fmap list_fmap]. rewrite !elem_of_cons, elem_of_nil.
  intros [-> | [-> | [-> | [-> | [-> | [-> | [-> | [-> | []]]]]]]]].
  all: eexists; split; [vm_compute; reflexivity|vm_compute; done].
Qed.

Lemma all_clients_verify : Forall client_verifies sizes.
Proof.
  apply Forall_forall. intros size (o&Ho&Hserver&Hremote&Hbytes&Hcount)%client_options K s s' Hfd Hm Htr Hrun Hcalls.
  pose proof (linux_peer_facts.wp_main_run _ _ _ Ho Hfd Hm) as Hwp. unfold wp in Hwp. rewrite Hrun in Hwp.
  destruct Hwp as (_&_&Hu&lines&ts&rest&_&Htr'&[Hlen Hall]&Hend). destruct (Hend eq_refl) as [?|(_&->&Hn)]; [lia|].
  rewrite Hcount in Hn. destruct lines as [|l [|? ?]]; try discriminate Hn; [|unfold len in Hn; cbn in Hn; lia].
  destruct ts as [|tr [|? ?]]; try discriminate Hlen. cbn in Htr'. rewrite Htr, !app_nil_r in Htr'. cbn in Htr'.
  destruct (Hall 0%nat l tr eq_refl eq_refl) as (from&data&id&(Hfrom&Hsize&Hpat)&_&Htrace).
  rewrite Hserver in Htrace. destruct Htrace as (_&_&->). rewrite Htr'.
  rewrite Hfrom by apply (linux_peer_facts.us_client _ Hu Hserver). rewrite Hpat, Hsize, Hremote, Hbytes by auto. eauto.
Qed.

(** How the process of the sweep may end: it says PASS exactly when it exits with
    0, and then every client did. *)
Definition sweep_verdict `{GuestKernel} (g : guest) (e : ending) (g' : guest) : Prop :=
  match e with
  | Exited 0 => moves pass_line (clients sizes) (passed sizes) g g' ∧ Forall client_verifies sizes
  | _ => swept sizes g (inl e) g'
  end.


(** ** A guest whose second child is killed, and one where all is well *)

Definition demo_wait (st : status) (n : nat) : waited := WaitStatus (Z.of_nat n) (if (n =? 31)%nat then st else Exit 0).

Lemma demo_wait_ends st n : ∃ k, (k < 1)%nat ∧ demo_wait st (n + k) ≠ WaitError linux_peer.EINTR.
Proof. exists 0%nat. split; [lia|discriminate]. Qed.

Definition demo_kernel (st : status) : GuestKernel := {|
  g_fails := λ _, None; g_wait := demo_wait st; g_patience := 1; g_wait_ends := demo_wait_ends st;
  g_pid := 1; g_cmdline := line (text "console=ttyS0 homa.test_guest=1  homa.mode=interop"); g_stale := 0;
  strerror := λ _, []
|}.

Definition new_guest : guest := mkGuest 0 [] [] [].

(** The ending, and whether [s] is the last thing printed. *)
Definition ends_with {A} (s : list Z) (r : (ending + A) * guest + fault) : option (ending * bool) :=
  match r with
  | inl (inl e, g) => Some (e, bool_decide (drop (length (g_out g) - length s) (g_out g) = s))
  | _ => None
  end.

Lemma guest_demo_pass : ends_with (done_line false) (@main (demo_kernel (Exit 0)) new_guest) = Some (PowerOff 0, true).
Proof. vm_compute. reflexivity. Qed.

Lemma guest_demo_killed : ends_with (done_line true) (@main (demo_kernel (Signal 9)) new_guest) = Some (PowerOff 1, true).
Proof. vm_compute. reflexivity. Qed.

Lemma sweep_demo_pass : ends_with pass_line (@interop_clients (demo_kernel (Exit 0)) new_guest) = Some (Exited 0, true).
Proof. vm_compute. reflexivity. Qed.
End guest_facts.
