(* ===== verification/InitramfsFacts.v ===== *)
(** * The guest's archive can be read back

    Numbers in hexadecimal, entries, the order of the paths, and the round trip of
    the whole archive through a reader of its format. *)
From stdpp Require Import sorting.
From S2P Require Import Prelude Wire Text Initramfs.

#[local] Open Scope Z_scope.

Module initramfs_facts.
Import initramfs.

(** ** Hexadecimal *)

Lemma unhex_app acc s t : unhex acc (s ++ t) = v ← unhex acc s; unhex v t.
Proof. revert acc. induction s as [|c s IH]; intros acc; [done|]. cbn. destruct (hex_value c); [apply IH|done]. Qed.

Lemma unhex_zeros n : unhex 0 (replicate n 48) = Some 0.
Proof. by induction n. Qed.

Lemma hex_value_digit d : 0 ≤ d < 16 → hex_value (hex_digit d) = Some d.
Proof.
  intros Hd. unfold hex_digit, hex_value. destruct (Z.ltb_spec d 10); repeat case_if; bool_to_prop; try f_equal; lia.
Qed.

Lemma hexadecimal_S fuel n :
  hexadecimal (S fuel) n = (if n <? 16 then [] else hexadecimal fuel (n / 16)) ++ [hex_digit (n mod 16)].
Proof. done. Qed.

Lemma unhex_hexadecimal fuel n : 0 ≤ n < 16 ^ Z.of_nat (S fuel) → unhex 0 (hexadecimal (S fuel) n) = Some n.
Proof.
  revert n. induction fuel as [|fuel IH]; intros n Hn; rewrite hexadecimal_S, unhex_app.
  all: pose proof (Z.mod_pos_bound n 16 ltac:(lia)); pose proof (Z.div_mod n 16 ltac:(lia)).
  - rewrite (proj2 (Z.ltb_lt _ _)) by (cbn in Hn; lia). cbn [unhex mbind option_bind]. rewrite hex_value_digit by done.
    cbn. rewrite Z.mod_small; [done|cbn in Hn; lia].
  - destruct (Z.ltb_spec n 16).
    + cbn [unhex mbind option_bind]. rewrite hex_value_digit by done. cbn. by rewrite Z.mod_small by lia.
    + rewrite IH; cycle 1.
      { split; [apply Z.div_pos; lia|]. apply Z.div_lt_upper_bound; [lia|].
        rewrite Nat2Z.inj_succ, Z.pow_succ_r in Hn by lia. lia. }
      cbn [unhex mbind option_bind]. rewrite hex_value_digit by done. cbn. f_equal. lia.
Qed.

Lemma hexadecimal_length fuel k n :
  0 ≤ n < 16 ^ Z.of_nat (S k) → (length (hexadecimal fuel n) ≤ S k)%nat.
Proof.
  revert k n. induction fuel as [|fuel IH]; intros k n Hn; [cbn; lia|]. rewrite hexadecimal_S, length_app. cbn [length].
  destruct (Z.ltb_spec n 16); [cbn; lia|]. destruct k as [|k]; [cbn in Hn; lia|].
  enough (length (hexadecimal fuel (n / 16)) ≤ S k)%nat by lia. apply IH.
  split; [apply Z.div_pos; lia|]. apply Z.div_lt_upper_bound; [lia|].
  rewrite Nat2Z.inj_succ, Z.pow_succ_r in Hn by lia. lia.
Qed.

(** A number of 32 bits takes 8 digits, and they are its own. *)
Definition fits (n : Z) : Prop := 0 ≤ n < 2 ^ 32.

Lemma hex08_length n : fits n → length (hex08 n) = 8%nat.
Proof.
  intros Hn. unfold hex08. rewrite length_app, length_replicate.
  pose proof (hexadecimal_length 16 7 n Hn). lia.
Qed.

Lemma unhex_hex08 n : fits n → unhex 0 (hex08 n) = Some n.
Proof.
  intros [Hn Hm]. unfold hex08. rewrite unhex_app, unhex_zeros. cbn [mbind option_bind]. apply unhex_hexadecimal.
  split; [done|]. etrans; [exact Hm|done].
Qed.

(** ** Entries *)

Lemma hex_fields fields rest i n :
  Forall fits fields → fields !! i = Some n → take 8 (drop (8 * i) (concat (hex08 <$> fields) ++ rest)) = hex08 n.
Proof.
  revert i. induction fields as [|m fields IH]; intros i Hf Hi; [done|].
  apply Forall_cons in Hf as [Hm Hf]. cbn [fmap list_fmap concat]. rewrite <- app_assoc. destruct i as [|i].
  - injection Hi as <-. rewrite Nat.mul_0_r, drop_0, take_app_length'; [done|symmetry; by apply hex08_length].
  - rewrite <- (IH i Hf Hi). f_equal. replace (8 * S i)%nat with (length (hex08 m) + 8 * i)%nat by (rewrite hex08_length by done; lia).
    by rewrite <- drop_drop, drop_app_length.
Qed.

Lemma fields_length fields : Forall fits fields → length (concat (hex08 <$> fields)) = (8 * length fields)%nat.
Proof.
  induction 1 as [|n fields Hn Hf IH]; [done|]. cbn [fmap list_fmap concat length].
  rewrite length_app, IH, hex08_length by done. lia.
Qed.

Lemma len_zeros n : 0 ≤ n → len (zeros n) = n.
Proof. intros. unfold len, zeros. rewrite length_replicate. lia. Qed.

Lemma align4_pad n : 0 ≤ n → n + - n mod 4 = align4 n.
Proof. intros. unfold align4. Z.to_euclidean_division_equations. lia. Qed.

Lemma take_len {A} (l k : list A) n : len l = n → take (Z.to_nat n) (l ++ k) = l.
Proof. intros <-. unfold len. rewrite Nat2Z.id. apply take_app_length. Qed.

Lemma drop_len {A} (l k : list A) n : len l = n → drop (Z.to_nat n) (l ++ k) = k.
Proof. intros <-. unfold len. rewrite Nat2Z.id. apply drop_app_length. Qed.

(** What the format can hold. *)
Record entry_ok (e : cpio) : Prop := {
  eo_name : len (c_name e) + 1 < 2 ^ 32;
  eo_data : len (c_data e) < 2 ^ 32;
  eo_mode : fits (c_mode e);
  eo_inode : fits (c_inode e);
  eo_major : fits (c_rmajor e);
  eo_minor : fits (c_rminor e)
}.

Definition entry_bytes (e : cpio) : list Z :=
  cpio_entry (c_name e) (c_data e) (c_mode e) (c_inode e) (c_rmajor e) (c_rminor e).

Lemma len_snoc_fits (l : list Z) (x : Z) : len l + 1 < 2 ^ 32 → fits (len (l ++ [x])).
Proof. unfold fits, len. rewrite length_app. cbn [length]. lia. Qed.

Definition entry_fields (e : cpio) : list Z :=
  [c_inode e; c_mode e; 0; 0; 1; 0; len (c_data e); 0; 0; c_rmajor e; c_rminor e; len (c_name e ++ [0]); 0].

Lemma entry_fields_fit e : entry_ok e → Forall fits (entry_fields e).
Proof.
  intros [Hn Hd ? ? ? ?]. unfold entry_fields. repeat apply Forall_cons_2; try done; try (unfold fits; lia).
  - unfold fits. pose proof (len_nonneg (c_data e)). lia.
  - by apply len_snoc_fits.
Qed.

Definition entry_header (e : cpio) : list Z := text "070701" ++ concat (hex08 <$> entry_fields e).

Lemma entry_header_len e : entry_ok e → length (entry_header e) = 110%nat.
Proof. intros He. unfold entry_header. rewrite length_app, fields_length by by apply entry_fields_fit. done. Qed.

Lemma field_entry e rest i n : entry_ok e → entry_fields e !! i = Some n → field (entry_header e ++ rest) i = Some n.
Proof.
  intros He Hi. unfold field, entry_header. rewrite <- app_assoc, <- drop_drop, drop_app_length'  by done.
  rewrite (hex_fields _ _ _ _ (entry_fields_fit _ He) Hi). apply unhex_hex08.
  pose proof (entry_fields_fit _ He) as Hf. by eapply Forall_lookup_1 in Hf.
Qed.

(** An entry is its header, the name, the data and their padding. *)
Lemma entry_bytes_eq e :
  entry_ok e →
  let name := c_name e ++ [0] in
  entry_bytes e = (entry_header e ++ name ++ zeros (align4 (110 + len name) - (110 + len name))) ++
    c_data e ++ zeros (align4 (len (c_data e)) - len (c_data e)).
Proof.
  intros He name. unfold entry_bytes, cpio_entry. fold name. change (text "070701" ++ concat _) with (entry_header e).
  assert (len (entry_header e ++ name) = 110 + len name) as ->.
  { unfold len. rewrite length_app, entry_header_len by done. lia. }
  rewrite <- !align4_pad by (pose proof (len_nonneg (c_data e)); pose proof (len_nonneg name); lia).
  rewrite <- !app_assoc. do 3 f_equal; [f_equal; lia|]. do 2 f_equal. lia.
Qed.

Lemma align4_ge n : n ≤ align4 n.
Proof. unfold align4. Z.to_euclidean_division_equations. lia. Qed.

Lemma align4_mod n : align4 n mod 4 = 0.
Proof. apply Z.mod_mul. lia. Qed.

(** The two halves of an entry are aligned. *)
Lemma entry_head_len e :
  entry_ok e → let name := c_name e ++ [0] in
  len (entry_header e ++ name ++ zeros (align4 (110 + len name) - (110 + len name))) = align4 (110 + len name).
Proof.
  intros He name. rewrite !len_app, len_zeros by (pose proof (align4_ge (110 + len name)); lia).
  unfold len at 1. rewrite entry_header_len by done. lia.
Qed.

Lemma entry_tail_len e : len (c_data e ++ zeros (align4 (len (c_data e)) - len (c_data e))) = align4 (len (c_data e)).
Proof. rewrite len_app, len_zeros by (pose proof (align4_ge (len (c_data e))); lia). lia. Qed.

(** Reading an entry gives it back, and what follows it. *)
Lemma read_entry_bytes e rest : entry_ok e → read_entry (entry_bytes e ++ rest) = Some (e, rest).
Proof.
  intros He. pose proof (entry_bytes_eq e He) as Heq. pose proof (entry_head_len e He) as Hh. pose proof (entry_tail_len e) as Ht.
  cbv zeta in Heq, Hh. set (name := c_name e ++ [0]) in *. set (s := entry_bytes e ++ rest).
  assert (∀ i n, entry_fields e !! i = Some n → field s i = Some n) as Hfield.
  { intros i n Hi. subst s. rewrite Heq, <- !app_assoc. by apply field_entry. }
  assert (take 6 s = text "070701") as Hmagic.
  { subst s. rewrite Heq, <- !app_assoc. unfold entry_header. by rewrite <- app_assoc, take_app_length'. }
  unfold read_entry. rewrite Hmagic, bool_decide_true by done. cbn [negb].
  rewrite (Hfield 0%nat _ eq_refl), (Hfield 1%nat _ eq_refl), (Hfield 6%nat _ eq_refl), (Hfield 9%nat _ eq_refl),
    (Hfield 10%nat _ eq_refl), (Hfield 11%nat _ eq_refl). cbn [mbind option_bind]. fold name.
  assert (len name = len (c_name e) + 1) as Hname by (unfold name; by rewrite len_app).
  pose proof (len_nonneg (c_name e)). pose proof (len_nonneg rest).
  assert (len s = align4 (110 + len name) + align4 (len (c_data e)) + len rest) as Hs.
  { subst s. rewrite Heq, len_app, (len_app (_ ++ _)), Hh, Ht. lia. }
  rewrite (proj2 (Z.ltb_ge (len name) 1)), (proj2 (Z.ltb_ge (len s) _)) by lia. cbn [orb].
  assert (take (Z.to_nat (len name - 1)) (drop 110 s) = c_name e) as ->.
  { subst s. rewrite Heq, <- !app_assoc, drop_app_length' by by rewrite entry_header_len.
    unfold name at 2. rewrite <- app_assoc. apply take_len. lia. }
  assert (take (Z.to_nat (len (c_data e))) (drop (Z.to_nat (align4 (110 + len name))) s) = c_data e) as ->.
  { subst s. rewrite Heq, <- app_assoc, drop_len by done. rewrite <- app_assoc. by apply take_len. }
  subst s. rewrite drop_len by (rewrite Heq, len_app, Hh, Ht; lia). by destruct e.
Qed.

Lemma entry_bytes_mod e : entry_ok e → len (entry_bytes e) mod 4 = 0.
Proof.
  intros He. rewrite entry_bytes_eq, len_app, entry_head_len, entry_tail_len by done.
  rewrite Z.add_mod, !align4_mod by lia. done.
Qed.

Lemma entry_bytes_ge e : entry_ok e → 110 ≤ len (entry_bytes e).
Proof.
  intros He. rewrite entry_bytes_eq, len_app, entry_head_len, entry_tail_len by done.
  pose proof (align4_ge (110 + len (c_name e ++ [0]))). pose proof (align4_ge (len (c_data e))).
  pose proof (len_nonneg (c_name e ++ [0])). pose proof (len_nonneg (c_data e)). lia.
Qed.

(** ** Archives *)

Definition trailer (inode : Z) : cpio := mkCpio (text "TRAILER!!!") [] 0 inode 0 0.

Lemma read_archive_entries es inode rest fuel :
  Forall entry_ok es → Forall (λ e, c_name e ≠ text "TRAILER!!!") es → fits inode → (length es < fuel)%nat →
  read_archive fuel (concat (entry_bytes <$> es) ++ entry_bytes (trailer inode) ++ rest) = Some es.
Proof.
  intros Hok Hne Hi. revert fuel. induction Hok as [|e es He Hes IH]; intros [|fuel] Hfuel; try (cbn in Hfuel; lia).
  - cbn [fmap list_fmap concat app read_archive]. rewrite read_entry_bytes by (split; done). cbn [mbind option_bind].
    by rewrite bool_decide_true.
  - apply Forall_cons in Hne as [Hn Hne]. cbn [fmap list_fmap concat read_archive]. rewrite <- app_assoc, read_entry_bytes by done.
    cbn [mbind option_bind]. rewrite bool_decide_false, IH by first [done | cbn in Hfuel; lia]. done.
Qed.

(** The entries of a tree, with inodes from [inode] on. *)
Fixpoint entries (files : list (path * node)) (inode : Z) : list cpio :=
  match files with
  | [] => []
  | (p, n) :: files => mkCpio (str p) (data_of n) (mode_of (str p) n) inode 0 0 :: entries files (inode + 1)
  end.

(** The manifest of a tree: its files, with their hashes and sizes. *)
Definition manifest_of (sha256 : list Z → list Z) (files : list (path * node)) : list (list Z * (list Z * Z)) :=
  omap (λ '(p, n), match n with Dir => None | File _ data => Some (str p, (sha256 data, len data)) end) files.

Lemma add_files_eq sha256 files archive manifest inode :
  add_files sha256 files archive manifest inode =
  (archive ++ concat (entry_bytes <$> entries files inode), manifest ++ manifest_of sha256 files, inode + len files).
Proof.
  revert archive manifest inode. induction files as [|[p n] files IH]; intros archive manifest inode.
  { cbn. by rewrite !app_nil_r, Z.add_0_r. }
  cbn [add_files entries fmap list_fmap concat]. rewrite IH. unfold manifest_of. cbn [omap list_omap].
  apply pair_eq. split; [apply pair_eq; split|unfold len; cbn [length]; lia].
  - by rewrite <- app_assoc.
  - destruct n; [done|]. by rewrite <- app_assoc.
Qed.

(** *** The order of the paths *)

#[global] Instance path_linear : Linear path_compare.
Proof. apply _. Qed.

(** A path is before the paths below it. *)
Lemma path_compare_below p part q : path_compare p (p ++ part :: q) = Lt.
Proof.
  induction p as [|a p IH]; [done|]. unfold path_compare. cbn. by rewrite (proj2 (cmp_eq a a) eq_refl).
Qed.

Lemma sorted_parents tree i j p n part q n' :
  merge_sort path_le tree !! i = Some (p, n) → merge_sort path_le tree !! j = Some (p ++ part :: q, n') → (i < j)%nat.
Proof.
  intros Hi Hj. destruct (Nat.lt_trichotomy i j) as [?|[->|Hlt]]; [done| |exfalso].
  { rewrite Hi in Hj. injection Hj as E _. apply (f_equal length) in E. rewrite length_app in E. cbn in E. lia. }
  pose proof (StronglySorted_merge_sort path_le tree) as Hs. cbn beta in Hs.
  rewrite <- (take_drop_middle _ _ _ Hj) in Hs. apply StronglySorted_app_1_r, StronglySorted_cons in Hs as [Hs _].
  rewrite Forall_forall in Hs. apply (Hs (p, n)).
  - apply list_elem_of_lookup. exists (i - S j)%nat. rewrite lookup_drop. by replace (S j + (i - S j))%nat with i by lia.
  - cbn. by rewrite cmp_flip, path_compare_below.
Qed.

(** *** The round trip *)

(** A file that the format can hold, and whose name does not end the archive. *)
Definition file_ok (f : path * node) : Prop :=
  len (str f.1) + 1 < 2 ^ 32 ∧ len (data_of f.2) < 2 ^ 32 ∧ str f.1 ≠ text "TRAILER!!!".

#[global] Instance file_ok_dec f : Decision (file_ok f).
Proof. unfold file_ok. apply _. Defined.

Definition console (inode : Z) : cpio := mkCpio (text "dev/console") [] (Z.lor S_IFCHR 384) inode 5 1.

Lemma mode_of_fits relative n : fits (mode_of relative n).
Proof. unfold mode_of, fits. destruct n; [by cbn|]. destruct (_ || _); by cbn. Qed.

Lemma entries_ok files inode :
  Forall file_ok files → 0 ≤ inode → inode + len files < 2 ^ 32 →
  Forall entry_ok (entries files inode) ∧ Forall (λ e, c_name e ≠ text "TRAILER!!!") (entries files inode).
Proof.
  intros Hf. revert inode. induction Hf as [|[p n] files (Hn&Hd&Ht) Hf IH]; intros inode Hi Hlen; [done|].
  unfold len in Hlen. cbn [length] in Hlen. destruct (IH (inode + 1)); [lia|unfold len; lia|]. cbn [entries fst snd] in *.
  split; constructor; try done. split; cbn; try done; [apply mode_of_fits|unfold fits; lia].
Qed.

Lemma entries_length files inode : length (entries files inode) = length files.
Proof. revert inode. induction files as [|[p n] files IH]; intros inode; [done|]. cbn. by rewrite IH. Qed.

Lemma concat_entries_length es : Forall entry_ok es → (length es ≤ length (concat (entry_bytes <$> es)))%nat.
Proof.
  induction 1 as [|e es He Hes IH]; [done|]. cbn [fmap list_fmap concat length]. rewrite length_app.
  pose proof (entry_bytes_ge e He). unfold len in *. lia.
Qed.

(** The bytes of an archive before its last padding. *)
Lemma build_eq sha256 tree :
  let sorted := merge_sort path_le tree in
  let inode := 1 + len tree in
  let bytes := concat (entry_bytes <$> entries sorted 1 ++ [console inode]) ++ entry_bytes (trailer (inode + 1)) in
  build sha256 tree = (bytes ++ zeros (- len bytes mod 512), manifest_of sha256 sorted).
Proof.
  cbv zeta. unfold build. rewrite add_files_eq. cbn [app].
  replace (len (merge_sort path_le tree)) with (len tree) by (unfold len; by rewrite merge_sort_Permutation).
  rewrite fmap_app, concat_app. cbn [fmap list_fmap concat]. by rewrite !app_nil_r.
Qed.

(** C39: the archive is the tree: a reader of the newc format gets from it exactly
    the directories and files that were assembled, with their names, contents,
    permissions and increasing inodes, and then the console device, whatever the
    files hold; every directory comes before what is below it; the archive fills
    whole blocks of 512 bytes; and the manifest has the hash and the size of
    exactly the files in it. *)
Theorem archive_roundtrip sha256 tree :
  Forall file_ok tree → len tree + 2 < 2 ^ 32 →
  let sorted := merge_sort path_le tree in
  let archive := (build sha256 tree).1 in
  read_archive (length archive) archive = Some (entries sorted 1 ++ [console (1 + len tree)]) ∧
  sorted ≡ₚ tree ∧
  (∀ i j p n part q n', sorted !! i = Some (p, n) → sorted !! j = Some (p ++ part :: q, n') → (i < j)%nat) ∧
  len archive mod 512 = 0 ∧
  (build sha256 tree).2 = manifest_of sha256 sorted.
Proof.
  intros Hf Hlen sorted archive. subst archive. rewrite build_eq. cbn [fst snd]. fold sorted.
  assert (sorted ≡ₚ tree) as Hperm by apply merge_sort_Permutation.
  set (bytes := concat _ ++ _). split; [|split; [done|split; [apply sorted_parents|split; [|done]]]]; cycle 1.
  { rewrite len_app, len_zeros by (apply Z.mod_pos_bound; lia). Z.to_euclidean_division_equations. lia. }
  assert (len sorted = len tree) as Hsl by (unfold len; by rewrite Hperm). pose proof (len_nonneg tree).
  destruct (entries_ok sorted 1) as [Hok Hne]; [by rewrite Hperm|lia|lia|].
  assert (Forall entry_ok (entries sorted 1 ++ [console (1 + len tree)])) as Hall.
  { apply Forall_app. split; [done|]. constructor; [|done]. split; cbn; try done. unfold fits. lia. }
  unfold bytes. rewrite <- app_assoc. apply read_archive_entries; [done| |unfold fits; lia|].
  - apply Forall_app. split; [done|]. by constructor.
  - rewrite !app_assoc, length_app. pose proof (concat_entries_length _ Hall).
    assert (entry_ok (trailer (1 + len tree + 1))) as Ht by (split; cbn; try done; unfold fits; lia).
    pose proof (entry_bytes_ge _ Ht). rewrite !length_app in *. unfold len in *. lia.
Qed.

(** The modules pass when they need no others and are of the kernel's release. *)
Lemma check_modules_spec release modules :
  check_modules release modules = None ↔
  Forall (λ m, strip m.1 = [] ∧ first_word (strip m.2) = Some release) modules.
Proof.
  induction modules as [|[depends vermagic] modules IH]; [done|]. cbn [check_modules]. rewrite Forall_cons, <- IH. cbn.
  case_bool_decide; cbn [negb]; [|naive_solver]. destruct (first_word _) as [w|]; [|naive_solver].
  case_bool_decide; naive_solver.
Qed.

(** A tree with a directory that the sort must move before its file. *)
Definition demo_tree : list (path * node) :=
  [([text "lib"; text "libc.so"], File true [1; 2; 3; 4; 5]); ([text "init"], File false [127; 69; 76]);
   ([text "lib"], Dir); ([text "dev"], Dir)].

Lemma archive_roundtrip_witness :
  Forall file_ok demo_tree ∧
  c_name <$> default [] (read_archive 1024 (build (λ _, []) demo_tree).1) =
    [text "dev"; text "init"; text "lib"; text "lib/libc.so"; text "dev/console"].
Proof.
  assert (Forall file_ok demo_tree) as Hf by (apply (bool_decide_unpack _); vm_compute; exact I).
  split; [exact Hf|]. destruct (archive_roundtrip (λ _, []) demo_tree Hf ltac:(vm_compute; reflexivity)) as (Hread&_).
  replace (length (build (λ _ : list Z, []) demo_tree).1) with 1024%nat in Hread by (vm_compute; reflexivity).
  rewrite Hread. vm_compute. reflexivity.
Defined.
End initramfs_facts.
