(* ===== verification/Summary.v ===== *)
(** * The summary of benchmark reports (src/scripts/summarize_benchmark.py)

    Pooling the samples of all rounds of a size and transport, and the percentiles
    of the pool.  A report is what the measuring tool of cmd/homa-bench writes, as
    its records.  How Python's version adds float64 numbers is a parameter.  The
    theorem is that a row's percentiles are those of the pooled samples. *)
From Stdlib Require Import SpecFloat.
From stdpp Require Import sorting.
From S2P Require Import Prelude Wire Api Text Net Float64.
From S2P Require Import Bench BenchFacts.

#[local] Open Scope Z_scope.

Module summary.
Import bench bench_facts.

Record report := mkReport { r_status : list Z; r_platform : list Z; r_measurements : list measurement }.

Record row := mkRow {
  row_bytes : Z; row_transport : list Z; row_samples : Z; row_p50 : float64; row_p95 : float64; row_p99 : float64;
  row_goodput : float64; row_rounds : list float64; row_retransmissions : option Z
}.

(** A report that did not pass, a measurement with wrong samples, a key that is
    missing, an index out of range, a division by zero. *)
Inductive py_error := ErrStatus | ErrSamples | ErrKey | ErrIndex | ErrZeroDivision.

Definition key : Type := Z * list Z.

Definition key_of (m : measurement) : key := (Bytes m, text (Transport m)).

Definition key_compare : key → key → comparison := pair_compare Z.compare (list_compare Z.compare).

Definition invalid (m : measurement) : bool :=
  bool_decide (Samples m = []) || negb (len (Samples m) =? Count m) || existsb (λ x, x <=? 0) (Samples m).

(** [groups.setdefault(key, []).append(m)]. *)
Fixpoint append (k : key) (m : measurement) (groups : list (key * list measurement)) : list (key * list measurement) :=
  match groups with
  | [] => [(k, [m])]
  | (k', ms) :: groups => if bool_decide (k' = k) then (k', ms ++ [m]) :: groups else (k', ms) :: append k m groups
  end.

(** The loop over the measurements. *)
Fixpoint group (ms : list measurement) (groups : list (key * list measurement)) : py_error + list (key * list measurement) :=
  match ms with
  | [] => inr groups
  | m :: ms => if invalid m then inl ErrSamples else group ms (append (key_of m) m groups)
  end.

(** [samples[math.ceil(len(samples) * quantile) - 1] / 1000], of samples below
    [2 ^ 53]. *)
Definition pooled_quantile (samples : list Z) (q : float64) : py_error + float64 :=
  let i := Ceil (fmul (of_int (len samples)) q) - 1 in
  match samples !! Z.to_nat (if i <? 0 then i + len samples else i) with
  | Some v => inr (fdiv (of_int v) (of_int 1000))
  | None => inl ErrIndex
  end.

(** The retransmissions between the statistics of a measurement. *)
Definition retransmissions (m : measurement) : option Z :=
  after ← HomaAfter m;
  before ← HomaBefore m;
  Some (s_Retransmissions after - s_Retransmissions before).

Section summarize.
Context (fsum : list float64 → float64).

Definition is_zero (x : float64) : bool := match x with S754_zero _ => true | _ => false end.

(** A round of the loop over the sorted groups. *)
Definition row_of (g : key * list measurement) : py_error + row :=
  let '((size, transport), ms) := g in
  let samples := merge_sort Z.le (concat (Samples <$> ms)) in
  let elapsed := fsum (Elapsed <$> ms) in
  let payload := zsum (PayloadBytes <$> ms) in
  match pooled_quantile samples q50, pooled_quantile samples q95, pooled_quantile samples q99 with
  | inr p50, inr p95, inr p99 =>
      if is_zero elapsed then inl ErrZeroDivision else
      let goodput := fdiv (fdiv (of_int (payload * 8)) elapsed) (of_int 1000000) in
      let r := mkRow size transport (len samples) p50 p95 p99 goodput (P50 <$> ms) in
      if bool_decide (transport = text "homa") then
        match mapM retransmissions ms with
        | Some ns => inr (r (Some (zsum ns)))
        | None => inl ErrKey
        end
      else inr (r None)
  | inl err, _, _ | _, inl err, _ | _, _, inl err => inl err
  end.

Fixpoint rows_of (gs : list (key * list measurement)) : py_error + list row :=
  match gs with
  | [] => inr []
  | g :: gs =>
      match row_of g with
      | inl err => inl err
      | inr r => match rows_of gs with inl err => inl err | inr rows => inr (r :: rows) end
      end
  end.

Definition summarize (r : report) : py_error + list row :=
  if negb (bool_decide (r_status r = text "passed")) then inl ErrStatus else
  match group (r_measurements r) [] with
  | inl err => inl err
  | inr groups => rows_of (merge_sort (key_le key_compare fst) groups)
  end.
End summarize.

(** ** Groups *)

(** The measurements of a size and transport, in the report's order. *)
Definition members (k : key) (ms : list measurement) : list measurement := filter (λ m, key_of m = k) ms.

(** Every group has the measurements of its key, and every key a group. *)
Record groups_ok (seen : list measurement) (groups : list (key * list measurement)) : Prop := {
  go_nodup : NoDup groups.*1;
  go_members : Forall (λ g, g.2 = members g.1 seen ∧ g.2 ≠ []) groups;
  go_all : Forall (λ m, key_of m ∈ groups.*1) seen
}.

Lemma members_snoc k seen m :
  members k (seen ++ [m]) = members k seen ++ (if bool_decide (key_of m = k) then [m] else []).
Proof. unfold members. rewrite filter_app. f_equal. rewrite filter_cons, filter_nil. case_decide; by case_bool_decide. Qed.

Lemma members_none k ms : (∀ m, m ∈ ms → key_of m ≠ k) → members k ms = [].
Proof.
  unfold members. induction ms as [|m ms IH]; intros Hms; [done|]. rewrite filter_cons, decide_False by set_solver. set_solver.
Qed.

Lemma append_keys k m groups :
  (append k m groups).*1 = if bool_decide (k ∈ groups.*1) then groups.*1 else groups.*1 ++ [k].
Proof.
  induction groups as [|[k' ms] groups IH]; [done|]. cbn [append]. rewrite fmap_cons. cbn [fst].
  destruct (decide (k' = k)) as [->|E].
  - by rewrite !bool_decide_true by first [done | apply list_elem_of_here].
  - rewrite (bool_decide_false (k' = k)), fmap_cons, IH by done. cbn [fst].
    rewrite (bool_decide_ext (k ∈ k' :: groups.*1) (k ∈ groups.*1)) by (rewrite elem_of_cons; naive_solver).
    by destruct (bool_decide _).
Qed.

(** A group after [append]: one of another key, the one that grew, or a new one. *)
Lemma append_elem k m groups g :
  NoDup groups.*1 → g ∈ append k m groups →
  (g ∈ groups ∧ g.1 ≠ k) ∨ (∃ ms, (k, ms) ∈ groups ∧ g = (k, ms ++ [m])) ∨ ((k ∉ groups.*1) ∧ g = (k, [m])).
Proof.
  induction groups as [|[k' ms] groups IH]; intros Hnd Hg; cbn [append] in Hg.
  { apply list_elem_of_singleton in Hg as ->. right; right. split; [apply not_elem_of_nil|done]. }
  rewrite fmap_cons in Hnd. apply NoDup_cons in Hnd as [Hk Hnd]. cbn [fst] in Hk. case_bool_decide as E.
  - subst k'. apply elem_of_cons in Hg as [-> | Hg]; [right; left; exists ms; split; [apply list_elem_of_here|done]|].
    left. split; [by apply list_elem_of_further|]. intros <-. apply Hk. by apply list_elem_of_fmap_2.
  - apply elem_of_cons in Hg as [-> | Hg]; [left; split; [apply list_elem_of_here|done]|].
    destruct (IH Hnd Hg) as [[? ?]|[(ms'&?&->)|[? ->]]]; [left|right; left; exists ms'|right; right].
    1,2: split; [by apply list_elem_of_further|done].
    split; [|done]. rewrite fmap_cons, not_elem_of_cons. cbn. by split.
Qed.

Lemma append_ok seen m groups : groups_ok seen groups → groups_ok (seen ++ [m]) (append (key_of m) m groups).
Proof.
  intros [Hnd Hm Ha]. rewrite Forall_forall in Hm. split.
  - rewrite append_keys. case_bool_decide; [done|]. apply NoDup_app. split; [done|]. split; [set_solver|apply NoDup_singleton].
  - apply Forall_forall. intros g Hg. destruct (append_elem _ _ _ _ Hnd Hg) as [[Hin Hne]|[(ms&Hin&->)|[Hnew ->]]].
    + destruct (Hm _ Hin) as [E ?]. split; [|done]. rewrite members_snoc, bool_decide_false by done. by rewrite app_nil_r.
    + destruct (Hm _ Hin) as [E ?]. cbn in *. rewrite members_snoc, bool_decide_true, E by done. split; [done|].
      by destruct (members _ _).
    + cbn. rewrite members_snoc, bool_decide_true by done. split; [|done]. rewrite members_none; [done|].
      intros m' Hm' E. apply Hnew. rewrite <- E. rewrite Forall_forall in Ha. by apply Ha.
  - apply Forall_app. rewrite append_keys. rewrite Forall_forall in Ha. split.
    + apply Forall_forall. intros m' Hm'. case_bool_decide; [by apply Ha|]. apply elem_of_app. left. by apply Ha.
    + constructor; [|done]. case_bool_decide; [done|]. apply elem_of_app. right. apply list_elem_of_here.
Qed.

Lemma group_spec ms seen groups :
  groups_ok seen groups →
  match group ms groups with
  | inl err => err = ErrSamples ∧ ∃ m, m ∈ ms ∧ invalid m = true
  | inr gs => groups_ok (seen ++ ms) gs ∧ Forall (λ m, invalid m = false) ms
  end.
Proof.
  revert seen groups. induction ms as [|m ms IH]; intros seen groups Hg; cbn [group].
  { rewrite app_nil_r. by split. }
  destruct (invalid m) eqn:Ei; [split; [done|]; exists m; split; [apply list_elem_of_here|done]|].
  specialize (IH (seen ++ [m]) _ (append_ok _ _ _ Hg)). destruct (group ms _) as [err|gs].
  - destruct IH as (->&m'&?&?). split; [done|]. exists m'. split; [by apply list_elem_of_further|done].
  - rewrite <- app_assoc in IH. destruct IH. split; [done|by constructor].
Qed.

(** ** Rows *)

Lemma fmul_comm x y : fmul x y = fmul y x.
Proof.
  unfold fmul. destruct x as [[]|[]| |[] m e], y as [[]|[]| |[] m' e']; try done; cbn [SFmul xorb].
  all: by rewrite (Pos.mul_comm m m'), (Z.add_comm e e').
Qed.

Lemma pooled_rank samples q percent :
  (q, percent) ∈ [(q50, 50); (q95, 95); (q99, 99); (q100, 100)] → 50 ≤ percent ≤ 100 → samples ≠ [] → len samples ≤ 2 ^ 20 →
  ∃ v, samples !! Z.to_nat (rank percent (len samples) - 1) = Some v ∧ pooled_quantile samples q = inr (micros v).
Proof.
  intros Hq Hp Hne Hl. assert (1 ≤ len samples) as Hn by (destruct samples; [done|]; unfold len; cbn [length]; lia).
  pose proof (rank_range percent (len samples) Hp Hn) as Hr. unfold pooled_quantile.
  rewrite fmul_comm, (index_rank q percent) by first [done|lia]. rewrite (proj2 (Z.ltb_ge _ _)) by lia.
  destruct (lookup_lt_is_Some_2 samples (Z.to_nat (rank percent (len samples) - 1))) as [v Hv]; [unfold len in *; lia|].
  exists v. by rewrite Hv.
Qed.

(** All samples of a size and transport, in ascending order. *)
Definition pool (ms : list measurement) : list Z := merge_sort Z.le (concat (Samples <$> ms)).

(** What a row says of its measurements. *)
Record row_ok (ms : list measurement) (r : row) : Prop := {
  ro_count : row_samples r = len (pool ms);
  ro_p50 : ∃ v, pool ms !! Z.to_nat (rank 50 (len (pool ms)) - 1) = Some v ∧ row_p50 r = micros v;
  ro_p95 : ∃ v, pool ms !! Z.to_nat (rank 95 (len (pool ms)) - 1) = Some v ∧ row_p95 r = micros v;
  ro_p99 : ∃ v, pool ms !! Z.to_nat (rank 99 (len (pool ms)) - 1) = Some v ∧ row_p99 r = micros v;
  ro_rounds : row_rounds r = P50 <$> ms;
  ro_retransmissions : match row_retransmissions r with
    | Some n => row_transport r = text "homa" ∧ ∃ ns, mapM retransmissions ms = Some ns ∧ n = zsum ns
    | None => row_transport r ≠ text "homa"
    end
}.

Definition row_key (r : row) : key := (row_bytes r, row_transport r).

Section rows.
Context (fsum : list float64 → float64).

(** Why there may be no row for the measurements of a key. *)
Definition no_row (k : key) (ms : list measurement) (err : py_error) : Prop :=
  (err = ErrZeroDivision ∧ is_zero (fsum (Elapsed <$> ms)) = true) ∨
  (err = ErrKey ∧ k.2 = text "homa" ∧ mapM retransmissions ms = None).

Lemma row_of_spec g :
  pool g.2 ≠ [] → len (pool g.2) ≤ 2 ^ 20 →
  match row_of fsum g with
  | inl err => no_row g.1 g.2 err
  | inr r => row_key r = g.1 ∧ row_ok g.2 r
  end.
Proof.
  destruct g as [[size transport] ms]. cbn [fst snd]. intros Hne Hl. unfold row_of. fold (pool ms).
  destruct (pooled_rank (pool ms) q50 50) as (v50&H50&->); [by repeat constructor|lia|done|done|].
  destruct (pooled_rank (pool ms) q95 95) as (v95&H95&->); [by repeat constructor|lia|done|done|].
  destruct (pooled_rank (pool ms) q99 99) as (v99&H99&->); [by repeat constructor|lia|done|done|].
  destruct (is_zero _) eqn:Ez; [by left|]. case_bool_decide as Et.
  - destruct (mapM retransmissions ms) as [ns|] eqn:Em; [|by right].
    split; [done|]. split; cbn; eauto.
  - split; [done|]. split; cbn; eauto.
Qed.

Lemma rows_of_spec gs :
  Forall (λ g, pool g.2 ≠ [] ∧ len (pool g.2) ≤ 2 ^ 20) gs →
  match rows_of fsum gs with
  | inl err => ∃ g, g ∈ gs ∧ no_row g.1 g.2 err
  | inr rows => Forall2 (λ g r, row_key r = g.1 ∧ row_ok g.2 r) gs rows
  end.
Proof.
  induction 1 as [|g gs [Hne Hl] Hgs IH]; [constructor|]. cbn [rows_of]. pose proof (row_of_spec g Hne Hl) as Hr.
  destruct (row_of fsum g) as [err|r]; [exists g; split; [apply list_elem_of_here|done]|].
  destruct (rows_of fsum gs) as [err|rows]; [|by constructor].
  destruct IH as (g'&?&?). exists g'. split; [by apply list_elem_of_further|done].
Qed.
End rows.

(** Sorted by keys that differ, they increase. *)
Lemma keys_increase (gs : list (key * list measurement)) :
  StronglySorted (key_le key_compare fst) gs → NoDup gs.*1 →
  StronglySorted (λ a b, key_compare a b = Lt) gs.*1.
Proof.
  induction 1 as [|g gs Hs IH Hg]; intros Hnd; [constructor|]. rewrite fmap_cons in *. apply NoDup_cons in Hnd as [Hk Hnd].
  constructor; [by apply IH|]. apply Forall_fmap, Forall_forall. intros g' Hin. rewrite Forall_forall in Hg.
  specialize (Hg g' Hin). unfold key_le in Hg. cbn. destruct (key_compare g.1 g'.1) eqn:E; [|done|done].
  assert (g.1 = g'.1) as E' by by apply (cmp_eq (cmp := key_compare)). exfalso. apply Hk. rewrite E'. by apply list_elem_of_fmap_2.
Qed.

Lemma members_pool k ms :
  Forall (λ m, invalid m = false) ms → members k ms ≠ [] → pool (members k ms) ≠ [].
Proof.
  intros Hv Hne E. unfold pool in E. pose proof (merge_sort_Permutation Z.le (concat (Samples <$> members k ms))) as Hp.
  rewrite E in Hp. apply Permutation_nil_l in Hp. destruct (members k ms) as [|m l] eqn:Em; [done|].
  assert (m ∈ ms) as Hm.
  { assert (m ∈ members k ms) as Hin by (rewrite Em; apply list_elem_of_here). by apply list_elem_of_filter in Hin as [_ ?]. }
  rewrite Forall_forall in Hv. specialize (Hv m Hm). unfold invalid in Hv. cbn in Hp.
  symmetry in Hp. apply app_eq_nil in Hp as [Hs _]. by rewrite bool_decide_true in Hv.
Qed.

(** What the summary of a report is, or why there is none. *)
Definition summary_verdict (fsum : list float64 → float64) (r : report) (result : py_error + list row) : Prop :=
  let ms := r_measurements r in
  match result with
  | inr rows =>
      r_status r = text "passed" ∧ Forall (λ m, invalid m = false) ms ∧
      StronglySorted (λ a b, key_compare a b = Lt) (row_key <$> rows) ∧
      (∀ k, k ∈ row_key <$> rows ↔ k ∈ key_of <$> ms) ∧
      Forall (λ row, row_ok (members (row_key row) ms) row) rows
  | inl ErrStatus => r_status r ≠ text "passed"
  | inl ErrSamples => ∃ m, m ∈ ms ∧ invalid m = true
  | inl ErrIndex => False
  | inl err => ∃ k, k ∈ key_of <$> ms ∧ no_row fsum k (members k ms) err
  end.

Lemma groups_keys ms gs k : groups_ok ms gs → k ∈ gs.*1 ↔ k ∈ key_of <$> ms.
Proof.
  intros [_ Hm Ha]. rewrite Forall_forall in Hm. rewrite Forall_forall in Ha. rewrite !list_elem_of_fmap. split.
  - intros (g&->&Hg). destruct (Hm g Hg) as [E Hne]. destruct g.2 as [|m l] eqn:El; [done|].
    assert (m ∈ members g.1 ms) as [Hk Hin]%list_elem_of_filter by (rewrite <- E; apply list_elem_of_here). by exists m.
  - intros (m&->&Hin). apply Ha in Hin. by apply list_elem_of_fmap in Hin.
Qed.

Lemma groups_ok_perm ms gs gs' : gs' ≡ₚ gs → groups_ok ms gs → groups_ok ms gs'.
Proof.
  intros Hp [Hnd Hm Ha]. split; [by rewrite Hp|by rewrite Hp|]. eapply Forall_impl; [exact Ha|]. intros m. by rewrite Hp.
Qed.

(** C40: the published percentiles are those of the samples: for pools of up to
    2^20 samples a summary has exactly one row for each size and transport of the report, in increasing
    order, and its p50, p95 and p99 are the nearest-rank percentiles of all the
    samples of that size and transport together, never of percentiles; its
    retransmissions are the sum over the rounds.  There is no summary only for a
    report that did not pass, a measurement whose samples are missing, miscounted
    or not positive, a Homa measurement without statistics, or no elapsed time. *)
Theorem summary_exact fsum r :
  (∀ k, len (pool (members k (r_measurements r))) ≤ 2 ^ 20) →
  summary_verdict fsum r (summarize fsum r).
Proof.
  intros Hl. set (ms := r_measurements r) in *. unfold summarize, summary_verdict. fold ms.
  case_bool_decide as Es; cbn [negb]; [|done].
  pose proof (group_spec ms [] [] ltac:(split; constructor)) as Hg. destruct (group ms []) as [err|gs0]; [by destruct Hg as [-> ?]|].
  destruct Hg as [Hok0 Hv]. set (gs := merge_sort _ gs0).
  assert (groups_ok ms gs) as Hok by (apply (groups_ok_perm _ gs0); [apply merge_sort_Permutation|done]).
  pose proof (StronglySorted_merge_sort (key_le key_compare fst) gs0) as Hs. fold gs in Hs.
  pose proof (go_members _ _ Hok) as Hm.
  assert (Forall (λ g, pool g.2 ≠ [] ∧ len (pool g.2) ≤ 2 ^ 20) gs) as Hpools.
  { eapply Forall_impl; [exact Hm|]. intros g [-> Hne]. split; [by apply members_pool|apply Hl]. }
  pose proof (rows_of_spec fsum gs Hpools) as Hr. rewrite Forall_forall in Hm. destruct (rows_of fsum gs) as [err|rows].
  - destruct Hr as (g&Hin&Hno). destruct (Hm g Hin) as [E _]. rewrite E in Hno.
    assert (g.1 ∈ key_of <$> ms) as Hk by (apply (groups_keys ms gs); [done|by apply list_elem_of_fmap_2]).
    destruct Hno as [[-> ?]|[-> ?]]; (exists g.1; split; [exact Hk|]); [by left|by right].
  - assert (row_key <$> rows = gs.*1) as Hkeys.
    { clear -Hr. induction Hr as [|g row gs rows [? _] Hr IH]; [done|]. by rewrite !fmap_cons, IH, H. }
    rewrite Hkeys. do 2 (split; [done|]). split; [apply keys_increase; [apply Hs|apply Hok]|].
    split; [intros k; by apply groups_keys|]. apply Forall_forall. intros row (i&Hi)%list_elem_of_lookup.
    destruct (Forall2_lookup_r _ _ _ _ _ Hr Hi) as (g&Hgi&Hk&Hrow). rewrite Hk.
    destruct (Hm g) as [<- _]; [by eapply list_elem_of_lookup_2|done].
Qed.

(** ** Two rounds whose percentiles are pooled *)

Definition demo_measurement (round : Z) (samples : list Z) : measurement :=
  mkMeasurement round 1 "tcp" 100 (len samples) (of_int 1) 400 (of_int 1) (of_int 1) (of_int 1) (of_int 1) (of_int 1)
    samples None None.

Definition demo_report : report :=
  mkReport (text "passed") [] [demo_measurement 1 [4000; 1000]; demo_measurement 2 [3000; 2000; 9000]].

Definition demo_sum (l : list float64) : float64 := foldl fadd (of_int 0) l.

Lemma summary_exact_witness :
  (∀ k, len (pool (members k (r_measurements demo_report))) ≤ 2 ^ 20) ∧
  ∃ row, summarize demo_sum demo_report = inr [row] ∧ row_p50 row = micros 3000 ∧
    row_ok (members (100, text "tcp") (r_measurements demo_report)) row.
Proof.
  assert (∀ k, len (pool (members k (r_measurements demo_report))) ≤ 2 ^ 20) as Hl.
  { intros k. unfold members. cbn [r_measurements demo_report]. rewrite !filter_cons, filter_nil. repeat case_decide; vm_compute; discriminate. }
  split; [exact Hl|]. pose proof (summary_exact demo_sum demo_report Hl) as Hv.
  destruct (summarize demo_sum demo_report) as [err|rows] eqn:E; [vm_compute in E; discriminate E|].
  destruct Hv as (_&_&_&_&Hrows). destruct rows as [|row [|]]; try (vm_compute in E; discriminate E).
  apply Forall_cons in Hrows as [Hrow _]. exists row. split; [reflexivity|].
  assert (row_p50 row = micros 3000 ∧ row_key row = (100, text "tcp")) as [Hp Hk].
  { clear Hrow. vm_compute in E. injection E as <-. split; vm_compute; reflexivity. }
  rewrite Hk in Hrow. split; [exact Hp|exact Hrow].
Defined.
End summary.
